(* ===== verification/_CoqProject ===== *)
-Q . S2P
Prelude.v
Wire.v
Protocol.v
Codec.v
Security.v
Float.v
Logging.v
LoadLog.v
Auth.v
Session.v
Groups.v
Party.v
Guild.v
Chat.v
Match.v
Dungeon.v
Combat.v
Reward.v
Inventory.v
WorkerPool.v
Dispatch.v
Server.v
Handlers.v
Hoare.v
ServerInvariant.v
Idle.v
ServerProperties.v
ServerSecurity.v
ServerGuilds.v
ServerSessions.v
ServerServices.v
Pipeline.v
LoadSim.v
LoadRun.v
