(* ===== verification/Prelude.v ===== *)
(** * DungeonHub server: a verification library

    DungeonHub is a game server written in C++ (src/src/): clients open sessions, log in,
    form parties, ask for matches, enter dungeon instances, report results, chat and update
    inventories through framed binary packets. This library translates its code into
    executable definitions and proves what makes it correct.

    ** The program and the files

    A packet's way through the program is: bytes of a connection are cut into frames
    (net/codec, net/io_layer), queued and handed to worker threads (net/worker_pool), and
    handled by [Server::handlePacket] (net/server.cpp), which checks version, signature and
    replay (net/security, net/session), decodes the message (net/protocol) and calls the
    services. Each file opens with the source files it models.

    - Prelude: machine integers reduced modulo [2 ^ w], bytes and strings, functional record
      update ([r <| f := v |>], [r <| f ::= g |>]), hash maps with an unspecified iteration
      order ([HashOrder]), the hint database [hub].
    - Float: binary32 and binary64 arithmetic of rate limiting, matchmaking and movement.
    - Wire, Protocol: the primitives and messages of net/protocol; [WireMessage] and
      [ExactMessage] are the interfaces the handlers' theorems use.
    - Codec: net/codec and net/io_layer, frames, connections and events.
    - Security: net/security, signed payloads. Auth: net/auth, tokens.
    - Session: net/session, one connection with its send queue and replay window.
    - Logging: admin/logging, the text of log lines.
    - Groups, Party, Guild: party/ and guild/; Groups holds what the two have in common,
      and the seats of their members ([Seat]), by which the server's theorems say who sits
      where after a removal ([leave_seats]) or a take-over ([take_seat]).
    - Chat, Match, Dungeon, Combat, Reward, Inventory: chat/, match/, dungeon/, combat/,
      reward/, inventory/. Inventory states the contract of a store as the class
      [StorageRefinement]: the in-memory and the cached store are instances, and the
      server's theorems are about any instance.
    - WorkerPool, Dispatch: net/worker_pool, threads as step relations.
    - Server, Handlers: net/server and admin/admin. [Server] is the record of the class's
      fields, its operations are written in a state monad that collects log entries, and
      each case of the switch of [handlePacket] is one [handle_*] definition.
    - Hoare: a program logic for that monad. ServerInvariant, Idle, ServerGuilds: the
      invariants of the server. ServerProperties, ServerSecurity, ServerSessions,
      ServerServices: what holds of the server as a whole.
    - Pipeline: the assembly of event loop, pipeline, dispatcher, server and sessions that
      tests/net_tests.cpp writes down and docs/architecture.md describes.
    - LoadLog, LoadSim: scripts/load_match_sim.cpp, the load simulation and its validation
      of the log the server writes. LoadRun: the run recorded in docs/load_run.log and
      docs/load_summary.md, which the model reproduces line by line.

    ** What is shown

    - Server: sessions, logged-in users and parties stay tied together under every sequence
      of session management, packets and administration ([server_invariant]); which packets
      reach a handler and what the others change ([packet_gate]); nothing but login,
      reconnect and logout works without a user ([unauthenticated_packet_inert]); accepted
      sequence numbers are refused afterwards ([sequence_never_reused]); login on every
      branch, a reconnect with its effect on every place of the displaced session, and
      removals, forced and by ticks, as the server without the removed sessions
      ([login_spec], [reconnect_spec], [session_removal]).
    - Services behind the server: inventory updates are all or nothing
      ([inventory_update_atomic]), party chat stays in the party ([party_chat_confined]), a
      match request starts the party alone ([match_is_solo]) and packets alone never get a
      dungeon result accepted ([packet_results_rejected]).
    - Refinement: a stream of bytes, however cut, yields the frames that were sent
      ([frame_stream_refinement]); the cached store behaves as the plain one
      ([cached_storage_refines]); rolling back restores ([rollback_restores]).
    - Encodings: requests and responses round trip, and a request has one encoding
      ([request_decoders_exact], [response_roundtrip], [secure_payload_roundtrip],
      [jsonEscape_roundtrip], [validator_reads_log]).
    - Services by themselves: invariants of parties, guilds and the match queue, exact
      effects of their operations, instance life cycle, grants, damage history, tokens.
    - Composition: with one worker, the packets the server serves on a connection are the
      frames the client sent, and from every state the threads alone can come to rest with
      all packets served ([every_packet_served], [system_drains]).
    - Threads: queue order, draining and termination of the dispatcher, and a deadlock the
      notifications allow ([lost_wakeup_deadlock]).
    - Limits of the code as theorems: forgeable signatures ([signature_forgeable]), a send
      queue beyond its limit ([drop_oldest_exceeds_limit]), a sequence lowered by a
      reconnect ([reconnect_lowers_sequence]), a removed session that takes a user
      ([removed_session_takes_user]), a party seat left behind by a reconnect
      ([reconnect_leaves_ghost]), jobs reordered by two workers ([workers_reorder]),
      stored items hidden by a cold cache
      ([cold_cache_hides_items]), a NaN distance accepted ([nan_distance_accepted]).

    ** Conventions and bounds

    Times are integers (nanoseconds of the steady clock); clock readings, random draws and
    trace ids are inputs ([Env]). A [shared_ptr] to a session is an address in [heap], so a
    session that left the server's map still exists for whoever holds it. Ids and counters
    are reduced at their width; the theorems over whole histories assume fewer than [2 ^ 64]
    operations, so that ids do not come round. Callbacks are modelled by the list of calls
    made to them, in order. The only fuel is that of [Codec.read_frames], one round for each
    byte of the buffer; a round takes at least the eight bytes of a header off, and
    [read_frames_enough] shows that more fuel changes nothing. Operations that run under one
    mutex are one step; [handlePacket] is taken as one step too, although the server itself
    has no lock.

    ** Not modelled

    main.cpp only prints a banner. There is no socket code in the repository. Of the tests
    only the assembly in Pipeline is modelled. The load simulation's directories and its redirection of
    the output are left out. [isoTimestamp] is an input text of a log line. mysql_inventory_storage
    keeps its data in memory with the code of in_memory_inventory_storage, and is modelled
    by it. Exceptions for lack of memory are left out, as is undefined behaviour: the
    iterators that an insertion may invalidate in the reconnect handler, and overflow of
    the [int] ratings. *)

From stdpp Require Export base tactics numbers list sorting gmap strings fin_maps.
From Stdlib Require Export ZArith Lia.
From Stdlib.Strings Require Byte.

#[global] Open Scope Z_scope.
#[export] Set Default Goal Selector "!".

(** ** Machine integers

    Unsigned C++ integers of width [w] are integers reduced modulo [2 ^ w]; every
    arithmetic operation of the source that can wrap is followed by the reduction
    of its type. *)

Definition wrap (w z : Z) : Z := z mod 2 ^ w.

Abbreviation u8 := (wrap 8).
Abbreviation u16 := (wrap 16).
Abbreviation u32 := (wrap 32).
Abbreviation u64 := (wrap 64).

Lemma wrap_range w z : 0 <= w → 0 <= wrap w z < 2 ^ w.
Proof. intros. unfold wrap. apply Z.mod_pos_bound. lia. Qed.

Lemma wrap_small w z : 0 <= z < 2 ^ w → wrap w z = z.
Proof. apply Z.mod_small. Qed.

Lemma wrap_wrap w z : wrap w (wrap w z) = wrap w z.
Proof. unfold wrap. apply Zmod_mod. Qed.

Lemma wrap_add_l w a b : wrap w (wrap w a + b) = wrap w (a + b).
Proof. unfold wrap. apply Zplus_mod_idemp_l. Qed.

Lemma wrap_add_r w a b : wrap w (a + wrap w b) = wrap w (a + b).
Proof. unfold wrap. apply Zplus_mod_idemp_r. Qed.

Lemma wrap_sub_l w a b : wrap w (wrap w a - b) = wrap w (a - b).
Proof. unfold wrap. apply Zminus_mod_idemp_l. Qed.

Lemma wrap_sub_r w a b : wrap w (a - wrap w b) = wrap w (a - b).
Proof. unfold wrap. apply Zminus_mod_idemp_r. Qed.

(** [in_width w z]: [z] is a value of the unsigned type of width [w]. *)
Definition in_width (w z : Z) : Prop := 0 <= z < 2 ^ w.

#[export] Instance in_width_dec w z : Decision (in_width w z).
Proof. unfold in_width. apply _. Defined.

(** ** Bytes and byte strings

    [std::uint8_t] buffers are lists of [Byte.byte]; [std::string] is the [string]
    of the Standard Library, whose characters are the same 256 values. *)

Abbreviation byte := Byte.byte.

#[export] Instance byte_eq_dec : EqDecision byte := Byte.byte_eq_dec.

Definition byte_val (b : byte) : Z := Z.of_N (Byte.to_N b).

Definition byte_of_Z (z : Z) : byte :=
  match Byte.of_N (Z.to_N (u8 z)) with
  | Some b => b
  | None => Byte.x00
  end.

Lemma byte_val_range b : 0 <= byte_val b < 256.
Proof.
  unfold byte_val. pose proof (Byte.to_N_bounded b). lia.
Qed.

Lemma byte_val_of_Z z : byte_val (byte_of_Z z) = u8 z.
Proof.
  unfold byte_val, byte_of_Z. pose proof (wrap_range 8 z ltac:(lia)).
  destruct (Byte.of_N (Z.to_N (u8 z))) as [b|] eqn:E.
  - apply Byte.to_of_N in E. rewrite E, Z2N.id; lia.
  - apply Byte.of_N_None_iff in E. change (2 ^ 8) with 256 in *. lia.
Qed.

Lemma byte_of_Z_val b : byte_of_Z (byte_val b) = b.
Proof.
  unfold byte_of_Z. pose proof (byte_val_range b).
  rewrite wrap_small by (change (2 ^ 8) with 256; lia).
  unfold byte_val. rewrite N2Z.id, Byte.of_to_N. done.
Qed.

Lemma byte_val_inj a b : byte_val a = byte_val b → a = b.
Proof. intros E. rewrite <- (byte_of_Z_val a), <- (byte_of_Z_val b). congruence. Qed.

Abbreviation bytes_of_string := String.list_byte_of_string.
Abbreviation string_of_bytes := String.string_of_list_byte.

(** [s.size()] of a [std::string], as a [std::size_t]. *)
Definition string_size (s : string) : nat := length (bytes_of_string s).

Definition string_empty (s : string) : bool := bool_decide (s = ""%string).

(** ** Record update *)

(** [Rebuild R] is the record [R] put together again from its projections;
    [Field p] is the functional update of the field read by the projection [p].
    Instances of [Field] are found by abstracting [p] in the rebuilt record. *)
Class Rebuild (R : Type) := rebuild : R → R.
Class Field {R A} (p : R → A) := update_field : (A → A) → R → R.
Arguments rebuild {R} _ /.
Arguments update_field {R A} p {_} _ _ /.

Ltac find_field p :=
  lazymatch goal with
  | |- @Field ?R _ _ =>
    let i := constr:(_ : Rebuild R) in
    let whole := eval hnf in i in
    lazymatch eval pattern p in whole with
    | ?abstracted _ =>
      let upd := eval cbv beta in (fun f (r : R) => abstracted (fun r' => f (p r')) r) in
      exact upd
    end
  end.

#[export] Hint Extern 1 (Field ?p) => find_field p : typeclass_instances.

Declare Scope record_scope.
Delimit Scope record_scope with rec.
#[global] Open Scope record_scope.
Notation "r <| p ::= f |>" := (update_field p f r)
  (at level 12, left associativity, p at next level) : record_scope.
Notation "r <| p := v |>" := (update_field p (λ _, v) r)
  (at level 12, left associativity, p at next level) : record_scope.

(** ** Hash maps *)

(** [std::unordered_map::emplace] keeps the entry that is there. *)
Definition emplace {A} (k : Z) (v : A) (m : gmap Z A) : gmap Z A :=
  match m !! k with
  | Some _ => m
  | None => <[k := v]> m
  end.

(** The iteration order of an [unordered_map] is unspecified: the model is
    parametric in it, and all that is known is that iterating visits every entry
    exactly once. *)
Class HashOrder := {
  hash_iter : ∀ {A}, gmap Z A → list (Z * A);
  hash_iter_perm : ∀ {A} (m : gmap Z A), hash_iter m ≡ₚ map_to_list m
}.

(** One such order, used to evaluate the model on concrete inputs. *)
Definition bucket_order : HashOrder := {|
  hash_iter := λ A m, map_to_list m;
  hash_iter_perm := λ A m, reflexivity (map_to_list m)
|}.

Lemma lookup_emplace {A} k (v : A) m j :
  emplace k v m !! j =
  match m !! j with
  | Some x => Some x
  | None => if decide (k = j) then Some v else None
  end.
Proof.
  unfold emplace. destruct (m !! k) eqn:E; case_decide; subst;
    simplify_map_eq; try done; by destruct (m !! j).
Qed.

Lemma emplace_fresh {A} k (v : A) m : m !! k = None → emplace k v m = <[k := v]> m.
Proof. intros E. unfold emplace. by rewrite E. Qed.

Section hash_order.
Context `{HashOrder} {A : Type}.
Implicit Types m : gmap Z A.

Lemma elem_of_hash_iter m k x : (k, x) ∈ hash_iter m ↔ m !! k = Some x.
Proof. rewrite hash_iter_perm. apply elem_of_map_to_list. Qed.

Lemma NoDup_hash_iter_keys m : NoDup (hash_iter m).*1.
Proof. rewrite hash_iter_perm. apply NoDup_fst_map_to_list. Qed.

Lemma elem_of_hash_keys m k : k ∈ (hash_iter m).*1 ↔ is_Some (m !! k).
Proof.
  rewrite list_elem_of_fmap. split.
  - intros ([k' x] & -> & Hx%elem_of_hash_iter). eauto.
  - intros [x Hx]. exists (k, x). by rewrite elem_of_hash_iter.
Qed.

Lemma length_hash_iter m : length (hash_iter m) = size m.
Proof. rewrite hash_iter_perm. apply length_map_to_list. Qed.

Lemma NoDup_hash_iter m : NoDup (hash_iter m).
Proof. rewrite hash_iter_perm. apply NoDup_map_to_list. Qed.

Lemma length_filter_hash_iter (P : Z * A → Prop) `{∀ e, Decision (P e)} m :
  length (filter P (hash_iter m)) = size (filter P m).
Proof.
  rewrite <- length_map_to_list. apply Permutation_length, NoDup_Permutation.
  - apply NoDup_filter, NoDup_hash_iter.
  - apply NoDup_map_to_list.
  - intros [k x]. rewrite list_elem_of_filter, elem_of_hash_iter, elem_of_map_to_list,
      map_lookup_filter_Some. tauto.
Qed.
End hash_order.

(** Filters that agree on the elements of a list. *)
Lemma filter_agree {A} (P Q : A → Prop) `{∀ x, Decision (P x), ∀ x, Decision (Q x)} (l : list A) :
  (∀ x, x ∈ l → P x ↔ Q x) → filter P l = filter Q l.
Proof.
  induction l as [|x l IH]; intros Heq; [done|]. rewrite !filter_cons, IH by set_solver.
  assert (P x ↔ Q x) by (apply Heq; set_solver). repeat case_decide; tauto.
Qed.

(** Keys of a map erased one after the other. *)
Definition erase_all {A} (ks : list Z) (m : gmap Z A) : gmap Z A :=
  foldl (λ m k, delete k m) m ks.

Lemma lookup_erase_all {A} ks (m : gmap Z A) j :
  erase_all ks m !! j = if decide (j ∈ ks) then None else m !! j.
Proof.
  unfold erase_all. revert m.
  induction ks as [|k ks IH]; intros m; cbn [foldl].
  - by rewrite decide_False by set_solver.
  - rewrite IH. destruct (decide (j ∈ ks)).
    + by rewrite decide_True by set_solver.
    + destruct (decide (j = k)) as [->|].
      * by rewrite decide_True, lookup_delete_eq by set_solver.
      * by rewrite decide_False, lookup_delete_ne by set_solver.
Qed.

Lemma alter_alter {A} (f g : A → A) k (m : gmap Z A) :
  alter f k (alter g k m) = alter (λ x, f (g x)) k m.
Proof.
  apply map_eq. intros j. destruct (decide (j = k)) as [->|].
  - rewrite !lookup_alter_eq. by destruct (m !! k).
  - by rewrite !lookup_alter_ne.
Qed.

Lemma alter_same {A} (f : A → A) k (m : gmap Z A) :
  (∀ x, m !! k = Some x → f x = x) → alter f k m = m.
Proof.
  intros Hf. apply map_eq. intros j. destruct (decide (j = k)) as [->|].
  - rewrite lookup_alter_eq. destruct (m !! k) eqn:E; cbn; [|done]. by rewrite Hf.
  - by rewrite lookup_alter_ne.
Qed.

(** ** Early returns

    [let? x := e else r in k] is a lookup whose failure returns [r] at once. *)
Notation "'let?' p := e 'else' r 'in' k" :=
  (match e with Some p => k | None => r end)
  (at level 200, p strict pattern, e at level 200, r at level 200, k at level 200,
   format "'[v' 'let?'  p  :=  e  'else'  r  'in'  '/' k ']'").

(** ** Time

    A [std::chrono::steady_clock::time_point] is its number of nanoseconds. *)
Definition ns_per_second : Z := 1000000000.
Definition ns_per_ms : Z := 1000000.

(** ** Sums *)

Definition sum_Z (l : list Z) : Z := foldr Z.add 0 l.

Lemma sum_Z_app l1 l2 : sum_Z (l1 ++ l2) = sum_Z l1 + sum_Z l2.
Proof. induction l1 as [|x l1 IH]; simpl; lia. Qed.

#[export] Instance sum_Z_perm : Proper ((≡ₚ) ==> (=)) sum_Z.
Proof. induction 1; simpl; lia. Qed.

Lemma sum_Z_nonneg l : Forall (λ x, 0 <= x) l → 0 <= sum_Z l.
Proof. induction 1; simpl; lia. Qed.

(** ** Automation *)

Create HintDb hub.

(** Case analysis on every [match] in sight, keeping the equations. *)
Ltac cases := repeat (case_match; simplify_eq/=).
Ltac cases_in H :=
  repeat match type of H with
  | context [match ?x with _ => _ end] =>
    let E := fresh "E" in destruct x eqn:E; simplify_eq/=
  end.

Ltac bool_props :=
  repeat match goal with
  | H : bool_decide _ = true |- _ => apply bool_decide_eq_true in H
  | H : bool_decide _ = false |- _ => apply bool_decide_eq_false in H
  | H : andb _ _ = true |- _ => apply andb_true_iff in H as [? ?]
  | H : andb _ _ = false |- _ => apply andb_false_iff in H
  | H : orb _ _ = false |- _ => apply orb_false_iff in H as [? ?]
  | H : orb _ _ = true |- _ => apply orb_true_iff in H
  | H : negb _ = true |- _ => apply negb_true_iff in H
  | H : negb _ = false |- _ => apply negb_false_iff in H
  | H : (_ <? _) = true |- _ => apply Z.ltb_lt in H
  | H : (_ <? _) = false |- _ => apply Z.ltb_ge in H
  | H : (_ <=? _) = true |- _ => apply Z.leb_le in H
  | H : (_ <=? _) = false |- _ => apply Z.leb_gt in H
  | H : (_ =? _) = true |- _ => apply Z.eqb_eq in H
  | H : (_ =? _) = false |- _ => apply Z.eqb_neq in H
  end.
