(* ===== verification/Wire.v ===== *)
(** * Wire primitives (src/src/net/protocol.cpp, anonymous namespace)

    Big-endian integers, length-prefixed strings and counted lists, as the
    [read_*]/[write_*] helpers of the protocol define them. A writer is the list of
    bytes it appends to its output vector; a reader takes the whole payload and an
    offset and returns the value with the new offset, or nothing when the source
    returns [false]. Each primitive comes with two facts: a reader gives back what
    the writer put ([reads]), and a reader only accepts what the writer would have
    put ([exact]). Both compose along the reader monad. *)

From Stdlib Require Import Zbitwise.
From S2P Require Import Prelude.

(** ** Readers *)

Definition Reader (A : Type) : Type := list byte → nat → option (A * nat).

Definition ret_reader {A} (a : A) : Reader A := λ _ offset, Some (a, offset).

Definition bind_reader {A B} (r : Reader A) (f : A → Reader B) : Reader B :=
  λ payload offset,
    match r payload offset with
    | None => None
    | Some (a, offset') => f a payload offset'
    end.

Declare Scope reader_scope.
Delimit Scope reader_scope with reader.
Notation "x '<~' r ';' k" := (bind_reader r (λ x, k))
  (at level 100, r at next level, right associativity) : reader_scope.

(** A decoder runs its reader from offset 0 and ends with
    [return offset == payload.size()]. *)
Definition run_reader {A} (r : Reader A) (payload : list byte) : option A :=
  match r payload O with
  | Some (a, offset) => if decide (offset = length payload) then Some a else None
  | None => None
  end.

(** [payload[i]], used only after a bounds check. *)
Definition at_ (payload : list byte) (i : nat) : Z := byte_val (nth i payload Byte.x00).

(** ** Writers and readers of the source *)

Definition write_u16 (value : Z) : list byte :=
  [byte_of_Z (Z.land (Z.shiftr value 8) 255); byte_of_Z (Z.land value 255)].

Definition write_u32 (value : Z) : list byte :=
  [byte_of_Z (Z.land (Z.shiftr value 24) 255);
   byte_of_Z (Z.land (Z.shiftr value 16) 255);
   byte_of_Z (Z.land (Z.shiftr value 8) 255);
   byte_of_Z (Z.land value 255)].

(** [for (int shift = 56; shift >= 0; shift -= 8)] *)
Definition write_u64 (value : Z) : list byte :=
  (λ shift, byte_of_Z (Z.land (Z.shiftr value shift) 255)) <$>
    [56; 48; 40; 32; 24; 16; 8; 0].

Definition read_u16 : Reader Z := λ payload offset,
  if bool_decide (length payload < offset + 2)%nat then None
  else Some (u16 (Z.lor (Z.shiftl (at_ payload offset) 8) (at_ payload (offset + 1))),
             (offset + 2)%nat).

Definition read_u32 : Reader Z := λ payload offset,
  if bool_decide (length payload < offset + 4)%nat then None
  else Some (Z.lor (Z.lor (Z.lor (u32 (Z.shiftl (at_ payload offset) 24))
                                 (u32 (Z.shiftl (at_ payload (offset + 1)) 16)))
                          (u32 (Z.shiftl (at_ payload (offset + 2)) 8)))
                   (at_ payload (offset + 3)),
             (offset + 4)%nat).

(** [for (int i = 0; i < 8; ++i) out = (out << 8) | payload[offset + i];] *)
Definition read_u64 : Reader Z := λ payload offset,
  if bool_decide (length payload < offset + 8)%nat then None
  else Some (foldl (λ out i, Z.lor (u64 (Z.shiftl out 8)) (at_ payload (offset + i)))
                   0 (seq 0 8),
             (offset + 8)%nat).

(** The length field saturates at the largest [uint16_t] and only that many
    characters follow. *)
Definition write_string (value : string) : list byte :=
  let length := Z.min (Z.of_nat (string_size value)) 65535 in
  write_u16 length ++ take (Z.to_nat length) (bytes_of_string value).

Definition read_string : Reader string := λ payload offset,
  match read_u16 payload offset with
  | None => None
  | Some (size, offset) =>
    if bool_decide (length payload < offset + Z.to_nat size)%nat then None
    else Some (string_of_bytes (take (Z.to_nat size) (drop offset payload)),
               (offset + Z.to_nat size)%nat)
  end.

(** [count] reads in a row, stopping at the first failure. *)
Fixpoint read_times {A} (count : nat) (r : Reader A) : Reader (list A) :=
  match count with
  | O => ret_reader []
  | S count =>
    bind_reader r (λ value, bind_reader (read_times count r) (λ values,
      ret_reader (value :: values)))
  end.

(** A counted list: a saturating [uint16_t] count and that many elements. *)
Definition write_counted {A} (write : A → list byte) (values : list A) : list byte :=
  let length := Z.min (Z.of_nat (length values)) 65535 in
  write_u16 length ++ concat (write <$> take (Z.to_nat length) values).

Definition read_counted {A} (read : Reader A) : Reader (list A) :=
  bind_reader read_u16 (λ count, read_times (Z.to_nat count) read).

Definition write_string_list (values : list string) : list byte :=
  write_counted write_string values.

Definition read_string_list : Reader (list string) := read_counted read_string.

Record RewardItem := { RewardItem_item_id : Z; RewardItem_count : Z }.

Definition write_reward_item (item : RewardItem) : list byte :=
  write_u32 (RewardItem_item_id item) ++ write_u32 (RewardItem_count item).

Definition read_reward_item : Reader RewardItem :=
  (item_id <~ read_u32;
   count <~ read_u32;
   ret_reader {| RewardItem_item_id := item_id; RewardItem_count := count |})%reader.

Definition write_reward_items (items : list RewardItem) : list byte :=
  write_counted write_reward_item items.

Definition read_reward_items : Reader (list RewardItem) := read_counted read_reward_item.

(** [if (payload.empty()) return false; x = payload[offset++] != 0], the first
    field of every response. *)
Definition write_flag (flag : bool) : list byte :=
  [byte_of_Z (if flag then 1 else 0)].

Definition read_flag : Reader bool := λ payload offset,
  if bool_decide (length payload <= offset)%nat then None
  else Some (negb (at_ payload offset =? 0), S offset).

(** ** Big-endian integers *)

Fixpoint be_bytes (n : nat) (v : Z) : list byte :=
  match n with
  | O => []
  | S n => byte_of_Z (Z.shiftr v (8 * Z.of_nat n)) :: be_bytes n v
  end.

Fixpoint be_value (acc : Z) (bs : list byte) : Z :=
  match bs with
  | [] => acc
  | b :: bs => be_value (acc * 256 + byte_val b) bs
  end.

Lemma length_be_bytes n v : length (be_bytes n v) = n.
Proof. induction n; simpl; congruence. Qed.

Lemma be_value_bytes n v acc :
  be_value acc (be_bytes n v) = acc * 2 ^ (8 * Z.of_nat n) + v mod 2 ^ (8 * Z.of_nat n).
Proof.
  revert acc. induction n as [|n IH]; intros acc; cbn [be_bytes be_value].
  - rewrite Z.mul_0_r, Z.mod_1_r. lia.
  - rewrite IH, byte_val_of_Z, Z.shiftr_div_pow2 by lia. unfold wrap.
    replace (8 * Z.of_nat (S n)) with (8 * Z.of_nat n + 8) by lia.
    rewrite Z.pow_add_r, Z.rem_mul_r by lia. change (2 ^ 8) with 256. lia.
Qed.

Lemma be_value_bound bs acc :
  0 <= acc →
  0 <= be_value acc bs < (acc + 1) * 2 ^ (8 * Z.of_nat (length bs)).
Proof.
  revert acc. induction bs as [|b bs IH]; intros acc Hacc; cbn [be_value length].
  - rewrite Z.mul_0_r. lia.
  - pose proof (byte_val_range b).
    destruct (IH (acc * 256 + byte_val b)) as [? Hlt]; [lia|]. split; [done|].
    eapply Z.lt_le_trans; [exact Hlt|].
    replace (8 * Z.of_nat (S (length bs))) with (8 + 8 * Z.of_nat (length bs)) by lia.
    rewrite Z.pow_add_r by lia. change (2 ^ 8) with 256. nia.
Qed.

(** A byte string of length [n] is what its value is written as. *)
Lemma be_bytes_value bs acc :
  be_bytes (length bs) (be_value acc bs) = bs.
Proof.
  revert acc. induction bs as [|b bs IH]; intros acc; [done|].
  cbn [length be_bytes be_value]. f_equal; [|apply IH].
  assert (G : be_value (acc * 256 + byte_val b) bs =
              (acc * 256 + byte_val b) * 2 ^ (8 * Z.of_nat (length bs)) + be_value 0 bs).
  { generalize (acc * 256 + byte_val b). clear IH acc b.
    assert (H : ∀ a x, be_value (a + x) bs = a * 2 ^ (8 * Z.of_nat (length bs)) + be_value x bs).
    { induction bs as [|b bs IH]; intros a x; cbn [be_value length].
      - rewrite Z.mul_0_r. lia.
      - replace ((a + x) * 256 + byte_val b) with (a * 256 + (x * 256 + byte_val b)) by lia.
        rewrite IH.
        replace (8 * Z.of_nat (S (length bs))) with (8 + 8 * Z.of_nat (length bs)) by lia.
        rewrite Z.pow_add_r by lia. change (2 ^ 8) with 256. lia. }
    intros z. rewrite <- (Z.add_0_r z) at 1. apply H. }
  pose proof (be_value_bound bs 0 ltac:(lia)) as B.
  apply byte_val_inj. rewrite byte_val_of_Z, G, Z.shiftr_div_pow2 by lia.
  rewrite Z.div_add_l by lia. rewrite Z.div_small by lia.
  pose proof (byte_val_range b). unfold wrap. change (2 ^ 8) with 256.
  rewrite Z.add_0_r, Z.add_comm, Z.mod_add by lia. by apply Z.mod_small.
Qed.

Lemma land_255 v : byte_of_Z (Z.land v 255) = byte_of_Z v.
Proof.
  apply byte_val_inj. rewrite !byte_val_of_Z.
  change 255 with (Z.ones 8). rewrite Z.land_ones by lia. apply wrap_wrap.
Qed.

Lemma write_u16_be v : write_u16 v = be_bytes 2 v.
Proof. unfold write_u16. rewrite !land_255. cbn [be_bytes]. repeat f_equal. Qed.

Lemma write_u32_be v : write_u32 v = be_bytes 4 v.
Proof. unfold write_u32. rewrite !land_255. cbn [be_bytes]. repeat f_equal. Qed.

Lemma write_u64_be v : write_u64 v = be_bytes 8 v.
Proof. unfold write_u64. cbn [fmap list_fmap]. rewrite !land_255. cbn [be_bytes]. repeat f_equal. Qed.

(** [(a << k) | b] with [b] below [2 ^ k] is [a * 2 ^ k + b]. *)
Lemma lor_shiftl_low a b k :
  0 <= k → 0 <= b < 2 ^ k → Z.lor (Z.shiftl a k) b = a * 2 ^ k + b.
Proof.
  intros Hk Hb. rewrite <- (Z.shiftl_mul_pow2 a k) by done.
  rewrite <- Z.add_lor_land.
  enough (Z.land (Z.shiftl a k) b = 0) by lia.
  rewrite <- (Z.mod_small b (2 ^ k)), <- Z.land_ones by done.
  apply Z.bits_inj'. intros i Hi. rewrite !Z.land_spec, Z.bits_0.
  destruct (decide (i < k)).
  - by rewrite Z.shiftl_spec_low.
  - rewrite Z.ones_spec_high by lia. by rewrite !andb_false_r.
Qed.

Lemma read_u16_value a b :
  u16 (Z.lor (Z.shiftl (byte_val a) 8) (byte_val b)) = be_value 0 [a; b].
Proof.
  pose proof (byte_val_range a). pose proof (byte_val_range b).
  rewrite lor_shiftl_low by (change (2 ^ 8) with 256; lia).
  rewrite wrap_small; cbn [be_value]; change (2 ^ 8) with 256; lia.
Qed.

Lemma read_u32_value a b c d :
  Z.lor (Z.lor (Z.lor (u32 (Z.shiftl (byte_val a) 24)) (u32 (Z.shiftl (byte_val b) 16)))
               (u32 (Z.shiftl (byte_val c) 8))) (byte_val d) = be_value 0 [a; b; c; d].
Proof.
  pose proof (byte_val_range a). pose proof (byte_val_range b).
  pose proof (byte_val_range c). pose proof (byte_val_range d).
  rewrite !wrap_small by (rewrite Z.shiftl_mul_pow2; lia).
  rewrite <- !Z.lor_assoc.
  rewrite (lor_shiftl_low (byte_val c)) by lia.
  rewrite (lor_shiftl_low (byte_val b)) by lia.
  rewrite (lor_shiftl_low (byte_val a)) by lia.
  cbn [be_value]. lia.
Qed.

Lemma read_u64_step acc b :
  0 <= acc < 2 ^ 56 →
  Z.lor (u64 (Z.shiftl acc 8)) (byte_val b) = acc * 256 + byte_val b.
Proof.
  intros. pose proof (byte_val_range b).
  rewrite wrap_small by (rewrite Z.shiftl_mul_pow2; lia).
  rewrite lor_shiftl_low; lia.
Qed.

(** ** What a reader and a writer promise each other *)

(** [reads r w a]: wherever the bytes [w] stand in a payload, [r] reads [a] and
    moves past them. *)
Definition reads {A} (r : Reader A) (w : list byte) (a : A) : Prop :=
  ∀ pre post, r (pre ++ w ++ post) (length pre) = Some (a, (length pre + length w)%nat).

(** [exact r w ok]: whatever [r] accepts satisfies [ok] and is exactly what [w]
    writes. *)
Definition exact {A} (r : Reader A) (w : A → list byte) (ok : A → Prop) : Prop :=
  ∀ p o a o', (o <= length p)%nat → r p o = Some (a, o') →
    ok a ∧ drop o p = w a ++ drop o' p ∧ (o' <= length p)%nat.

Lemma reads_run {A} (r : Reader A) w a : reads r w a → run_reader r w = Some a.
Proof.
  intros H. unfold run_reader. specialize (H [] []). rewrite app_nil_r in H.
  simpl in H. rewrite H. by rewrite decide_True.
Qed.

Lemma reads_ret {A} (a : A) : reads (ret_reader a) [] a.
Proof. intros pre post. unfold ret_reader. cbn [length]. by rewrite Nat.add_0_r. Qed.

Lemma reads_bind {A B} (r : Reader A) (f : A → Reader B) w1 w2 a b :
  reads r w1 a → reads (f a) w2 b → reads (bind_reader r f) (w1 ++ w2) b.
Proof.
  intros H1 H2 pre post. unfold bind_reader.
  rewrite <- (app_assoc w1), H1.
  specialize (H2 (pre ++ w1) post). rewrite <- app_assoc in H2.
  rewrite length_app in H2. rewrite H2, length_app. do 2 f_equal. lia.
Qed.

Lemma reads_bind_last {A B} (r : Reader A) (f : A → B) w a :
  reads r w a → reads (bind_reader r (λ x, ret_reader (f x))) w (f a).
Proof.
  intros H. rewrite <- (app_nil_r w).
  eapply reads_bind; [exact H|]. apply reads_ret.
Qed.

Lemma bind_reader_inv {A B} (r : Reader A) (f : A → Reader B) p o b o' :
  bind_reader r f p o = Some (b, o') →
  ∃ a o1, r p o = Some (a, o1) ∧ f a p o1 = Some (b, o').
Proof. unfold bind_reader. intros H. destruct (r p o) as [[a o1]|]; [eauto|done]. Qed.

Lemma run_reader_inv {A} (r : Reader A) p a :
  run_reader r p = Some a → r p O = Some (a, length p).
Proof. unfold run_reader. intros. cases. congruence. Qed.

(** An integer reader of [n] bytes, described by the value of those bytes. *)
Definition int_reader (n : nat) (r : Reader Z) : Prop :=
  (∀ pre mid post, length mid = n →
     r (pre ++ mid ++ post) (length pre) = Some (be_value 0 mid, (length pre + n)%nat)) ∧
  (∀ p o, (length p < o + n)%nat → r p o = None).

Lemma split_payload (p : list byte) o n :
  (o + n <= length p)%nat →
  ∃ pre mid post, p = pre ++ mid ++ post ∧ length pre = o ∧ length mid = n.
Proof.
  intros. exists (take o p), (take n (drop o p)), (drop n (drop o p)).
  rewrite !take_drop, !length_take, length_drop. split_and!; [done|lia|lia].
Qed.

Section int_reader.
Context (n : nat) (r : Reader Z) (Hr : int_reader n r).

Lemma int_reads v : in_width (8 * Z.of_nat n) v → reads r (be_bytes n v) v.
Proof.
  intros Hv pre post. destruct Hr as [Hr1 _].
  rewrite Hr1, length_be_bytes, be_value_bytes by apply length_be_bytes.
  by rewrite Z.mul_0_l, Z.add_0_l, Z.mod_small.
Qed.

Lemma int_exact : exact r (be_bytes n) (in_width (8 * Z.of_nat n)).
Proof.
  intros p o v o' Ho E. destruct Hr as [Hr1 Hr2].
  destruct (decide (length p < o + n)%nat) as [?|Hlen].
  { by rewrite Hr2 in E. }
  destruct (split_payload p o n) as (pre & mid & post & -> & <- & Hmid); [lia|].
  rewrite Hr1 in E by done. injection E as <- <-. subst n.
  pose proof (be_value_bound mid 0 ltac:(lia)). split_and!.
  - unfold in_width. lia.
  - rewrite be_bytes_value, drop_app_length.
    rewrite app_assoc, drop_app_length'; [done|]. rewrite length_app. lia.
  - rewrite !length_app. lia.
Qed.
End int_reader.

Lemma at_app pre l i : at_ (pre ++ l) (length pre + i) = byte_val (nth i l Byte.x00).
Proof. unfold at_. rewrite app_nth2_plus. done. Qed.

Ltac int_reader_solve :=
  split;
  [ intros pre mid post Hmid;
    rewrite bool_decide_eq_false_2 by (rewrite !length_app, Hmid; lia)
  | intros p o Hlt; by rewrite bool_decide_eq_true_2 ].

Lemma read_u16_int : int_reader 2 read_u16.
Proof.
  unfold read_u16. int_reader_solve.
  destruct mid as [|a [|b [|]]]; try done.
  rewrite <- (Nat.add_0_r (length pre)) at 1.
  rewrite !at_app. cbn [nth app]. by rewrite read_u16_value.
Qed.

Lemma read_u32_int : int_reader 4 read_u32.
Proof.
  unfold read_u32. int_reader_solve.
  destruct mid as [|a [|b [|c [|d [|]]]]]; try done.
  rewrite <- (Nat.add_0_r (length pre)) at 1.
  rewrite !at_app. cbn [nth app]. by rewrite read_u32_value.
Qed.

Lemma read_u64_fold pre mid post k :
  (k <= length mid)%nat → (k <= 8)%nat →
  foldl (λ out i, Z.lor (u64 (Z.shiftl out 8)) (at_ (pre ++ mid ++ post) (length pre + i)))
    0 (seq 0 k) = be_value 0 (take k mid).
Proof.
  intros Hk H8. induction k as [|k IH]; [by rewrite take_0|].
  rewrite seq_S, foldl_app. cbn [foldl]. rewrite Nat.add_0_l, IH by lia.
  pose proof (be_value_bound (take k mid) 0 ltac:(lia)) as B.
  rewrite length_take_le in B by lia.
  assert (2 ^ (8 * Z.of_nat k) <= 2 ^ 56) by (apply Z.pow_le_mono_r; lia).
  rewrite at_app, read_u64_step by lia.
  destruct (lookup_lt_is_Some_2 mid k) as [b Hb]; [lia|].
  rewrite (take_S_r _ _ b) by done.
  rewrite app_nth1 by lia. rewrite (nth_lookup_Some _ _ _ _ Hb).
  generalize (take k mid). intros l. generalize 0.
  induction l as [|x l IHl]; intros acc; [done|]. cbn [app be_value]. apply IHl.
Qed.

Lemma read_u64_int : int_reader 8 read_u64.
Proof.
  unfold read_u64. int_reader_solve.
  rewrite read_u64_fold by lia. by rewrite take_ge by lia.
Qed.

(** ** Round trips of the primitives *)

Lemma reads_u16 v : in_width 16 v → reads read_u16 (write_u16 v) v.
Proof. rewrite write_u16_be. exact (int_reads 2 _ read_u16_int v). Qed.

Lemma reads_u32 v : in_width 32 v → reads read_u32 (write_u32 v) v.
Proof. rewrite write_u32_be. exact (int_reads 4 _ read_u32_int v). Qed.

Lemma reads_u64 v : in_width 64 v → reads read_u64 (write_u64 v) v.
Proof. rewrite write_u64_be. exact (int_reads 8 _ read_u64_int v). Qed.

Lemma exact_u16 : exact read_u16 write_u16 (in_width 16).
Proof.
  intros p o a o' ? E. rewrite write_u16_be. revert E.
  by apply (int_exact 2 _ read_u16_int).
Qed.

Lemma exact_u32 : exact read_u32 write_u32 (in_width 32).
Proof.
  intros p o a o' ? E. rewrite write_u32_be. revert E.
  by apply (int_exact 4 _ read_u32_int).
Qed.

Lemma exact_u64 : exact read_u64 write_u64 (in_width 64).
Proof.
  intros p o a o' ? E. rewrite write_u64_be. revert E.
  by apply (int_exact 8 _ read_u64_int).
Qed.

Lemma length_write_u16 v : length (write_u16 v) = 2%nat.
Proof. done. Qed.

(** A string, a list: what fits the [uint16_t] length field. *)
Definition string_fits (s : string) : Prop := Z.of_nat (string_size s) <= 65535.
Definition list_fits {A} (l : list A) : Prop := Z.of_nat (length l) <= 65535.

#[export] Instance string_fits_dec s : Decision (string_fits s).
Proof. unfold string_fits. apply _. Defined.
#[export] Instance list_fits_dec {A} (l : list A) : Decision (list_fits l).
Proof. unfold list_fits. apply _. Defined.

Lemma write_string_fits s :
  string_fits s →
  write_string s = write_u16 (Z.of_nat (string_size s)) ++ bytes_of_string s.
Proof.
  unfold string_fits. intros H. unfold write_string.
  rewrite Z.min_l, Nat2Z.id by lia. by rewrite take_ge by done.
Qed.

Lemma reads_string s : string_fits s → reads read_string (write_string s) s.
Proof.
  intros H. rewrite write_string_fits by done. intros pre post. unfold read_string.
  rewrite <- app_assoc.
  rewrite reads_u16 by (unfold in_width, string_fits in *; lia).
  rewrite length_write_u16, Nat2Z.id.
  rewrite bool_decide_eq_false_2.
  2:{ rewrite !length_app, length_write_u16. unfold string_size. lia. }
  rewrite app_assoc, drop_app_length' by (rewrite length_app, length_write_u16; lia).
  rewrite take_app_length'  by done.
  rewrite String.string_of_list_byte_of_string, length_app, length_write_u16.
  unfold string_size. do 2 f_equal. lia.
Qed.

Lemma exact_string : exact read_string write_string string_fits.
Proof.
  intros p o s o' Ho. unfold read_string.
  destruct (read_u16 p o) as [[size o1]|] eqn:E1; [|done].
  destruct (exact_u16 _ _ _ _ Ho E1) as (Hsize & Hdrop & Ho1).
  case_bool_decide as Hlt; [done|]. intros [= <- <-].
  unfold in_width in Hsize.
  assert (Hlen : string_size (string_of_bytes (take (Z.to_nat size) (drop o1 p))) =
                 Z.to_nat size).
  { unfold string_size. rewrite String.list_byte_of_string_of_list_byte.
    rewrite length_take, length_drop. lia. }
  assert (Hfits : string_fits (string_of_bytes (take (Z.to_nat size) (drop o1 p)))).
  { unfold string_fits. rewrite Hlen. lia. }
  split_and!; [done| |lia].
  rewrite write_string_fits by done.
  rewrite Hlen, Z2Nat.id by lia.
  rewrite String.list_byte_of_string_of_list_byte, Hdrop, <- app_assoc. f_equal.
  rewrite <- drop_drop. by rewrite take_drop.
Qed.

Lemma reads_times {A} (r : Reader A) (w : A → list byte) (l : list A) :
  Forall (λ a, reads r (w a) a) l →
  reads (read_times (length l) r) (concat (w <$> l)) l.
Proof.
  induction 1 as [|a l Ha Hl IH]; cbn [read_times length fmap list_fmap concat].
  - apply reads_ret.
  - eapply reads_bind; [exact Ha|]. by apply reads_bind_last with (f := λ l, a :: l).
Qed.

Lemma exact_times {A} (r : Reader A) (w : A → list byte) (ok : A → Prop) n :
  exact r w ok →
  exact (read_times n r) (λ l, concat (w <$> l)) (λ l, length l = n ∧ Forall ok l).
Proof.
  intros Hr. induction n as [|n IH]; cbn [read_times]; intros p o l o' Ho E.
  - injection E as <- <-. split_and!; [done|constructor|done|done].
  - apply bind_reader_inv in E as (a & o1 & E1 & E).
    apply bind_reader_inv in E as (l' & o2 & E2 & E). injection E as <- <-.
    destruct (Hr _ _ _ _ Ho E1) as (? & Hd1 & ?).
    destruct (IH p o1 l' o2) as ((? & ?) & Hd2 & ?); [done|done|].
    split_and!; [simpl; lia|by constructor| |done].
    cbn [fmap list_fmap concat]. by rewrite Hd1, Hd2, <- app_assoc.
Qed.

(** A counted list of elements, whatever the element. *)
Section counted.
Context {A : Type} (r : Reader A) (w : A → list byte) (ok : A → Prop).
Lemma write_counted_fits l :
  list_fits l → write_counted w l = write_u16 (Z.of_nat (length l)) ++ concat (w <$> l).
Proof.
  unfold list_fits, write_counted. intros.
  rewrite Z.min_l, Nat2Z.id by lia. by rewrite take_ge.
Qed.

Lemma reads_counted l :
  list_fits l → Forall (λ a, reads r (w a) a) l → reads (read_counted r) (write_counted w l) l.
Proof.
  intros Hl HF. rewrite write_counted_fits by done. eapply reads_bind.
  - apply reads_u16. unfold list_fits, in_width in *. lia.
  - rewrite Nat2Z.id. by apply reads_times.
Qed.

Lemma exact_counted :
  exact r w ok → exact (read_counted r) (write_counted w) (λ l, list_fits l ∧ Forall ok l).
Proof.
  intros Hr p o l o' Ho E. apply bind_reader_inv in E as (n & o1 & E1 & E).
  destruct (exact_u16 _ _ _ _ Ho E1) as (Hn & Hd1 & Ho1).
  destruct (exact_times r w ok _ Hr _ _ _ _ Ho1 E) as ((Hl & HF) & Hd2 & ?).
  unfold in_width in Hn.
  assert (list_fits l) by (unfold list_fits; lia).
  split_and!; [done|done| |done].
  rewrite write_counted_fits by done.
  rewrite Hd1, Hd2, <- app_assoc. do 2 f_equal. lia.
Qed.
End counted.

Definition strings_fit (l : list string) : Prop := list_fits l ∧ Forall string_fits l.

Lemma reads_string_list l :
  strings_fit l → reads read_string_list (write_string_list l) l.
Proof.
  intros [Hl HF]. apply (reads_counted read_string write_string); [done|].
  eapply Forall_impl; [exact HF|]. intros s ?. by apply reads_string.
Qed.

Lemma exact_string_list : exact read_string_list write_string_list strings_fit.
Proof. apply (exact_counted _ _ _ exact_string). Qed.

Definition RewardItem_ok (item : RewardItem) : Prop :=
  in_width 32 (RewardItem_item_id item) ∧ in_width 32 (RewardItem_count item).

Definition reward_items_ok (l : list RewardItem) : Prop :=
  list_fits l ∧ Forall RewardItem_ok l.

Lemma reads_reward_item item :
  RewardItem_ok item → reads read_reward_item (write_reward_item item) item.
Proof.
  intros [? ?]. destruct item as [id count]. eapply reads_bind; [by apply reads_u32|].
  by apply reads_bind_last with (f := λ c, Build_RewardItem id c), reads_u32.
Qed.

Lemma exact_reward_item : exact read_reward_item write_reward_item RewardItem_ok.
Proof.
  intros p o item o' Ho E.
  apply bind_reader_inv in E as (id & o1 & E1 & E).
  apply bind_reader_inv in E as (c & o2 & E2 & E). injection E as <- <-.
  destruct (exact_u32 _ _ _ _ Ho E1) as (? & Hd1 & Ho1).
  destruct (exact_u32 _ _ _ _ Ho1 E2) as (? & Hd2 & ?).
  split_and!; [by split| |done]. unfold write_reward_item. cbn.
  by rewrite Hd1, Hd2, app_assoc.
Qed.

Lemma reads_reward_items l :
  reward_items_ok l → reads read_reward_items (write_reward_items l) l.
Proof.
  intros [Hl HF]. apply (reads_counted read_reward_item write_reward_item); [done|].
  eapply Forall_impl; [exact HF|]. intros s ?. by apply reads_reward_item.
Qed.

Lemma exact_reward_items : exact read_reward_items write_reward_items reward_items_ok.
Proof. apply (exact_counted _ _ _ exact_reward_item). Qed.

Lemma reads_flag b : reads read_flag (write_flag b) b.
Proof.
  intros pre post. unfold read_flag.
  rewrite bool_decide_eq_false_2 by (rewrite !length_app; cbn [length write_flag]; lia).
  rewrite <- (Nat.add_0_r (length pre)) at 1. rewrite at_app. cbn [nth app write_flag].
  rewrite byte_val_of_Z. destruct b; cbn; do 2 f_equal; lia.
Qed.

Create HintDb wire.
#[export] Hint Resolve reads_u16 reads_u32 reads_u64 reads_string reads_string_list
  reads_reward_items reads_flag : wire.
#[export] Hint Resolve exact_u16 exact_u32 exact_u64 exact_string exact_string_list
  exact_reward_items : wire.
