(* ===== verification/Protocol.v ===== *)
(** * Wire messages (src/src/net/protocol.h, src/src/net/protocol.cpp)

    One record per message struct, one [encode*] and one [decode*] per pair of the
    source. An [enum class] over [uint16_t] may hold any 16-bit value after the
    [static_cast] of a decoder, hence the [*_raw] constructor of each enumeration.

    [WireMessage] is the interface the server's handlers rely on: decoding what was
    encoded gives the message back. [ExactMessage] adds the converse for the messages
    without a boolean: a payload decodes to at most one message, and only if it is
    that message's encoding. *)

From S2P Require Import Prelude Wire.

(** ** Enumerations *)

(** An enumeration stored in a [uint16_t]. *)
Class Enum16 (E : Type) := {
  to_u16 : E → Z;
  of_u16 : Z → E;
  enum_ok : E → Prop;
  of_to_u16 : ∀ e, enum_ok e → of_u16 (to_u16 e) = e;
  to_of_u16 : ∀ v, to_u16 (of_u16 v) = v;
  to_u16_width : ∀ e, enum_ok e → in_width 16 (to_u16 e);
  of_u16_ok : ∀ v, in_width 16 v → enum_ok (of_u16 v)
}.

(** [static_cast] of the 16-bit field just read. *)
Definition read_enum (E : Type) `{Enum16 E} : Reader E :=
  bind_reader read_u16 (λ raw, ret_reader (of_u16 raw)).

Definition write_enum {E} `{Enum16 E} (e : E) : list byte := write_u16 (to_u16 e).

Lemma reads_enum {E} `{Enum16 E} (e : E) : enum_ok e → reads (read_enum E) (write_enum e) e.
Proof.
  intros Hok. rewrite <- (of_to_u16 e Hok) at 2.
  by apply reads_bind_last, reads_u16, to_u16_width.
Qed.

Lemma exact_enum {E} `{Enum16 E} : exact (read_enum E) write_enum enum_ok.
Proof.
  intros p o e o' Ho Hr. apply bind_reader_inv in Hr as (raw & o1 & E1 & Hr).
  injection Hr as <- <-. destruct (exact_u16 _ _ _ _ Ho E1) as (? & ? & ?).
  split_and!; [by apply of_u16_ok| |done]. unfold write_enum. by rewrite to_of_u16.
Qed.

#[export] Hint Resolve reads_enum exact_enum : wire.

(** The laws of an enumeration whose constructors are numbered. *)
Ltac solve_enum :=
  first
  [ intros [] Hok; cbn in Hok |- *; destruct_and?; repeat case_decide; congruence
  | intros v; repeat case_decide; by subst
  | intros [] Hok; cbn in Hok |- *; unfold in_width in *; lia
  | intros v Hv; repeat case_decide; cbn; done ].

Inductive GuildEventType :=
  | GuildEventType_Created
  | GuildEventType_Joined
  | GuildEventType_Left
  | GuildEventType_Disbanded
  | GuildEventType_raw (value : Z).

Definition GuildEventType_to_u16 (e : GuildEventType) : Z :=
  match e with
  | GuildEventType_Created => 1
  | GuildEventType_Joined => 2
  | GuildEventType_Left => 3
  | GuildEventType_Disbanded => 4
  | GuildEventType_raw value => value
  end.

Definition GuildEventType_of_u16 (value : Z) : GuildEventType :=
  if decide (value = 1) then GuildEventType_Created
  else if decide (value = 2) then GuildEventType_Joined
  else if decide (value = 3) then GuildEventType_Left
  else if decide (value = 4) then GuildEventType_Disbanded
  else GuildEventType_raw value.

Definition GuildEventType_ok (e : GuildEventType) : Prop :=
  match e with
  | GuildEventType_raw value =>
    in_width 16 value ∧ value ≠ 1 ∧ value ≠ 2 ∧ value ≠ 3 ∧ value ≠ 4
  | _ => True
  end.

#[export] Program Instance GuildEventType_enum : Enum16 GuildEventType := {|
  to_u16 := GuildEventType_to_u16; of_u16 := GuildEventType_of_u16; enum_ok := GuildEventType_ok |}.
Solve All Obligations with
  unfold GuildEventType_to_u16, GuildEventType_of_u16, GuildEventType_ok; solve_enum.

Inductive PartyEventType :=
  | PartyEventType_Created
  | PartyEventType_InviteSent
  | PartyEventType_InviteAccepted
  | PartyEventType_InviteRejected
  | PartyEventType_InviteExpired
  | PartyEventType_Disbanded
  | PartyEventType_raw (value : Z).

Definition PartyEventType_to_u16 (e : PartyEventType) : Z :=
  match e with
  | PartyEventType_Created => 1
  | PartyEventType_InviteSent => 2
  | PartyEventType_InviteAccepted => 3
  | PartyEventType_InviteRejected => 4
  | PartyEventType_InviteExpired => 5
  | PartyEventType_Disbanded => 6
  | PartyEventType_raw value => value
  end.

Definition PartyEventType_of_u16 (value : Z) : PartyEventType :=
  if decide (value = 1) then PartyEventType_Created
  else if decide (value = 2) then PartyEventType_InviteSent
  else if decide (value = 3) then PartyEventType_InviteAccepted
  else if decide (value = 4) then PartyEventType_InviteRejected
  else if decide (value = 5) then PartyEventType_InviteExpired
  else if decide (value = 6) then PartyEventType_Disbanded
  else PartyEventType_raw value.

Definition PartyEventType_ok (e : PartyEventType) : Prop :=
  match e with
  | PartyEventType_raw value =>
    in_width 16 value ∧ value ≠ 1 ∧ value ≠ 2 ∧ value ≠ 3 ∧ value ≠ 4 ∧ value ≠ 5 ∧ value ≠ 6
  | _ => True
  end.

#[export] Program Instance PartyEventType_enum : Enum16 PartyEventType := {|
  to_u16 := PartyEventType_to_u16; of_u16 := PartyEventType_of_u16; enum_ok := PartyEventType_ok |}.
Solve All Obligations with
  unfold PartyEventType_to_u16, PartyEventType_of_u16, PartyEventType_ok; solve_enum.

Inductive DungeonState :=
  | DungeonState_Waiting
  | DungeonState_Ready
  | DungeonState_Playing
  | DungeonState_Clear
  | DungeonState_Fail
  | DungeonState_Terminate
  | DungeonState_raw (value : Z).

Definition DungeonState_to_u16 (e : DungeonState) : Z :=
  match e with
  | DungeonState_Waiting => 0
  | DungeonState_Ready => 1
  | DungeonState_Playing => 2
  | DungeonState_Clear => 3
  | DungeonState_Fail => 4
  | DungeonState_Terminate => 5
  | DungeonState_raw value => value
  end.

Definition DungeonState_of_u16 (value : Z) : DungeonState :=
  if decide (value = 0) then DungeonState_Waiting
  else if decide (value = 1) then DungeonState_Ready
  else if decide (value = 2) then DungeonState_Playing
  else if decide (value = 3) then DungeonState_Clear
  else if decide (value = 4) then DungeonState_Fail
  else if decide (value = 5) then DungeonState_Terminate
  else DungeonState_raw value.

Definition DungeonState_ok (e : DungeonState) : Prop :=
  match e with
  | DungeonState_raw value =>
    in_width 16 value ∧ value ≠ 0 ∧ value ≠ 1 ∧ value ≠ 2 ∧ value ≠ 3 ∧ value ≠ 4 ∧ value ≠ 5
  | _ => True
  end.

#[export] Program Instance DungeonState_enum : Enum16 DungeonState := {|
  to_u16 := DungeonState_to_u16; of_u16 := DungeonState_of_u16; enum_ok := DungeonState_ok |}.
Solve All Obligations with
  unfold DungeonState_to_u16, DungeonState_of_u16, DungeonState_ok; solve_enum.

Inductive DungeonResultType :=
  | DungeonResultType_Clear
  | DungeonResultType_Fail
  | DungeonResultType_raw (value : Z).

Definition DungeonResultType_to_u16 (e : DungeonResultType) : Z :=
  match e with
  | DungeonResultType_Clear => 1
  | DungeonResultType_Fail => 2
  | DungeonResultType_raw value => value
  end.

Definition DungeonResultType_of_u16 (value : Z) : DungeonResultType :=
  if decide (value = 1) then DungeonResultType_Clear
  else if decide (value = 2) then DungeonResultType_Fail
  else DungeonResultType_raw value.

Definition DungeonResultType_ok (e : DungeonResultType) : Prop :=
  match e with
  | DungeonResultType_raw value =>
    in_width 16 value ∧ value ≠ 1 ∧ value ≠ 2
  | _ => True
  end.

#[export] Program Instance DungeonResultType_enum : Enum16 DungeonResultType := {|
  to_u16 := DungeonResultType_to_u16; of_u16 := DungeonResultType_of_u16; enum_ok := DungeonResultType_ok |}.
Solve All Obligations with
  unfold DungeonResultType_to_u16, DungeonResultType_of_u16, DungeonResultType_ok; solve_enum.

Inductive ChatChannel :=
  | ChatChannel_Global
  | ChatChannel_Party
  | ChatChannel_raw (value : Z).

Definition ChatChannel_to_u16 (e : ChatChannel) : Z :=
  match e with
  | ChatChannel_Global => 1
  | ChatChannel_Party => 2
  | ChatChannel_raw value => value
  end.

Definition ChatChannel_of_u16 (value : Z) : ChatChannel :=
  if decide (value = 1) then ChatChannel_Global
  else if decide (value = 2) then ChatChannel_Party
  else ChatChannel_raw value.

Definition ChatChannel_ok (e : ChatChannel) : Prop :=
  match e with
  | ChatChannel_raw value =>
    in_width 16 value ∧ value ≠ 1 ∧ value ≠ 2
  | _ => True
  end.

#[export] Program Instance ChatChannel_enum : Enum16 ChatChannel := {|
  to_u16 := ChatChannel_to_u16; of_u16 := ChatChannel_of_u16; enum_ok := ChatChannel_ok |}.
Solve All Obligations with
  unfold ChatChannel_to_u16, ChatChannel_of_u16, ChatChannel_ok; solve_enum.

(** ** Packet types *)

Inductive PacketType :=
  | PT_LoginReq
  | PT_LoginRes
  | PT_VersionReject
  | PT_LogoutReq
  | PT_LogoutRes
  | PT_SessionReconnectReq
  | PT_SessionReconnectRes
  | PT_PartyCreateReq
  | PT_PartyCreateRes
  | PT_PartyInviteReq
  | PT_PartyInviteRes
  | PT_PartyAcceptReq
  | PT_PartyAcceptRes
  | PT_PartyDisbandReq
  | PT_PartyDisbandRes
  | PT_PartyEvent
  | PT_MatchReq
  | PT_MatchFoundNotify
  | PT_GuildCreateReq
  | PT_GuildCreateRes
  | PT_GuildJoinReq
  | PT_GuildJoinRes
  | PT_GuildLeaveReq
  | PT_GuildLeaveRes
  | PT_GuildEvent
  | PT_DungeonEnterReq
  | PT_DungeonEnterRes
  | PT_DungeonResultNotify
  | PT_DungeonResultRes
  | PT_ChatSendReq
  | PT_ChatSendRes
  | PT_ChatEvent
  | PT_InventoryUpdateNotify
  | PT_InventoryUpdateRes
  | PT_raw (value : Z).

Definition PacketType_to_u16 (t : PacketType) : Z :=
  match t with
  | PT_LoginReq => 1
  | PT_LoginRes => 2
  | PT_VersionReject => 3
  | PT_LogoutReq => 4
  | PT_LogoutRes => 5
  | PT_SessionReconnectReq => 6
  | PT_SessionReconnectRes => 7
  | PT_PartyCreateReq => 100
  | PT_PartyCreateRes => 101
  | PT_PartyInviteReq => 102
  | PT_PartyInviteRes => 103
  | PT_PartyAcceptReq => 104
  | PT_PartyAcceptRes => 105
  | PT_PartyDisbandReq => 106
  | PT_PartyDisbandRes => 107
  | PT_PartyEvent => 108
  | PT_MatchReq => 400
  | PT_MatchFoundNotify => 401
  | PT_GuildCreateReq => 200
  | PT_GuildCreateRes => 201
  | PT_GuildJoinReq => 202
  | PT_GuildJoinRes => 203
  | PT_GuildLeaveReq => 204
  | PT_GuildLeaveRes => 205
  | PT_GuildEvent => 206
  | PT_DungeonEnterReq => 500
  | PT_DungeonEnterRes => 501
  | PT_DungeonResultNotify => 502
  | PT_DungeonResultRes => 503
  | PT_ChatSendReq => 300
  | PT_ChatSendRes => 301
  | PT_ChatEvent => 302
  | PT_InventoryUpdateNotify => 600
  | PT_InventoryUpdateRes => 601
  | PT_raw value => value
  end.

(** The [static_cast<PacketType>(header.type)] of the dispatcher. *)
Definition PacketType_of_u16 (value : Z) : PacketType :=
  if value =? 1 then PT_LoginReq
  else if value =? 2 then PT_LoginRes
  else if value =? 3 then PT_VersionReject
  else if value =? 4 then PT_LogoutReq
  else if value =? 5 then PT_LogoutRes
  else if value =? 6 then PT_SessionReconnectReq
  else if value =? 7 then PT_SessionReconnectRes
  else if value =? 100 then PT_PartyCreateReq
  else if value =? 101 then PT_PartyCreateRes
  else if value =? 102 then PT_PartyInviteReq
  else if value =? 103 then PT_PartyInviteRes
  else if value =? 104 then PT_PartyAcceptReq
  else if value =? 105 then PT_PartyAcceptRes
  else if value =? 106 then PT_PartyDisbandReq
  else if value =? 107 then PT_PartyDisbandRes
  else if value =? 108 then PT_PartyEvent
  else if value =? 400 then PT_MatchReq
  else if value =? 401 then PT_MatchFoundNotify
  else if value =? 200 then PT_GuildCreateReq
  else if value =? 201 then PT_GuildCreateRes
  else if value =? 202 then PT_GuildJoinReq
  else if value =? 203 then PT_GuildJoinRes
  else if value =? 204 then PT_GuildLeaveReq
  else if value =? 205 then PT_GuildLeaveRes
  else if value =? 206 then PT_GuildEvent
  else if value =? 500 then PT_DungeonEnterReq
  else if value =? 501 then PT_DungeonEnterRes
  else if value =? 502 then PT_DungeonResultNotify
  else if value =? 503 then PT_DungeonResultRes
  else if value =? 300 then PT_ChatSendReq
  else if value =? 301 then PT_ChatSendRes
  else if value =? 302 then PT_ChatEvent
  else if value =? 600 then PT_InventoryUpdateNotify
  else if value =? 601 then PT_InventoryUpdateRes
  else PT_raw value.

Definition kMinProtocolVersion : Z := 1.
Definition kMaxProtocolVersion : Z := 3.

Lemma PacketType_of_to_u16 t :
  (∀ value, t ≠ PT_raw value) → PacketType_of_u16 (PacketType_to_u16 t) = t.
Proof. intros H. destruct t; try reflexivity. by destruct (H value). Qed.

(** ** The interface of a message *)

Class WireMessage (M : Type) := {
  encode : M → list byte;
  decode : list byte → option M;
  wire_ok : M → Prop;
  decode_encode : ∀ m, wire_ok m → decode (encode m) = Some m
}.

Class ExactMessage (M : Type) `{WireMessage M} :=
  decode_exact : ∀ p m, decode p = Some m → wire_ok m ∧ p = encode m.

(** Round trip of a decoder written as a sequence of reads. *)
Tactic Notation "solve_roundtrip" ident(m) reference(ok) :=
  destruct m; unfold ok; simpl; intros Hok; destruct_and?;
  apply reads_run;
  repeat first
    [ solve [eapply reads_bind_last; eauto with wire]
    | eapply reads_bind; [solve [eauto with wire]|] ].

(** What a successful sequence of reads says about the payload. *)
Ltac step_exact :=
  match goal with
  | Ho : (?o <= length ?p)%nat, E : ?r ?p ?o = Some (?a, ?o') |- _ =>
    let H := fresh "Hok" in let D := fresh "Hdrop" in let L := fresh "Hlen" in
    let X := fresh "X" in
    eassert (X : exact r _ _) by eauto with wire;
    destruct (X p o a o' Ho E) as (H & D & L); clear X E Ho
  end.

Ltac solve_exact :=
  intros p m Hrun; apply run_reader_inv in Hrun;
  pose proof (Nat.le_0_l (length p));
  repeat (let a := fresh "a" in let o := fresh "o" in let E := fresh "E" in
          apply bind_reader_inv in Hrun as (a & o & E & Hrun));
  injection Hrun as <- ->;
  repeat step_exact; split; [repeat first [assumption | split]|];
  match goal with D : drop 0 p = _ |- _ => rewrite drop_0 in D; rewrite D; clear D end;
  repeat match goal with D : drop _ p = _ |- _ => rewrite D; clear D end;
  rewrite drop_all, app_nil_r; reflexivity.

(** ** Messages *)

Record LoginRequest := {
  LoginRequest_user_id : string;
  LoginRequest_password : string
}.

Definition encodeLoginRequest (request : LoginRequest) : list byte :=
  write_string (LoginRequest_user_id request) ++
  write_string (LoginRequest_password request).

Definition decodeLoginRequest : list byte → option LoginRequest := run_reader
  (user_id <~ read_string;
   password <~ read_string;
   ret_reader {| LoginRequest_user_id := user_id;
                 LoginRequest_password := password |})%reader.

Definition LoginRequest_ok (m : LoginRequest) : Prop :=
  string_fits (LoginRequest_user_id m) ∧
  string_fits (LoginRequest_password m).

Lemma LoginRequest_decode_encode m :
  LoginRequest_ok m → decodeLoginRequest (encodeLoginRequest m) = Some m.
Proof. solve_roundtrip m LoginRequest_ok. Qed.

#[export] Instance LoginRequest_wire : WireMessage LoginRequest := {|
  encode := encodeLoginRequest; decode := decodeLoginRequest; wire_ok := LoginRequest_ok;
  decode_encode := LoginRequest_decode_encode |}.

#[export] Instance LoginRequest_exact : ExactMessage LoginRequest.
Proof. solve_exact. Qed.

Record LoginResponse := {
  LoginResponse_accepted : bool;
  LoginResponse_token : string;
  LoginResponse_message : string
}.

Definition encodeLoginResponse (response : LoginResponse) : list byte :=
  write_flag (LoginResponse_accepted response) ++
  write_string (LoginResponse_token response) ++
  write_string (LoginResponse_message response).

Definition decodeLoginResponse : list byte → option LoginResponse := run_reader
  (accepted <~ read_flag;
   token <~ read_string;
   message <~ read_string;
   ret_reader {| LoginResponse_accepted := accepted;
                 LoginResponse_token := token;
                 LoginResponse_message := message |})%reader.

Definition LoginResponse_ok (m : LoginResponse) : Prop :=
  string_fits (LoginResponse_token m) ∧
  string_fits (LoginResponse_message m).

Lemma LoginResponse_decode_encode m :
  LoginResponse_ok m → decodeLoginResponse (encodeLoginResponse m) = Some m.
Proof. solve_roundtrip m LoginResponse_ok. Qed.

#[export] Instance LoginResponse_wire : WireMessage LoginResponse := {|
  encode := encodeLoginResponse; decode := decodeLoginResponse; wire_ok := LoginResponse_ok;
  decode_encode := LoginResponse_decode_encode |}.

Record VersionReject := {
  VersionReject_min_version : Z;
  VersionReject_max_version : Z;
  VersionReject_client_version : Z;
  VersionReject_message : string
}.

Definition encodeVersionReject (reject : VersionReject) : list byte :=
  write_u16 (VersionReject_min_version reject) ++
  write_u16 (VersionReject_max_version reject) ++
  write_u16 (VersionReject_client_version reject) ++
  write_string (VersionReject_message reject).

Definition decodeVersionReject : list byte → option VersionReject := run_reader
  (min_version <~ read_u16;
   max_version <~ read_u16;
   client_version <~ read_u16;
   message <~ read_string;
   ret_reader {| VersionReject_min_version := min_version;
                 VersionReject_max_version := max_version;
                 VersionReject_client_version := client_version;
                 VersionReject_message := message |})%reader.

Definition VersionReject_ok (m : VersionReject) : Prop :=
  in_width 16 (VersionReject_min_version m) ∧
  in_width 16 (VersionReject_max_version m) ∧
  in_width 16 (VersionReject_client_version m) ∧
  string_fits (VersionReject_message m).

Lemma VersionReject_decode_encode m :
  VersionReject_ok m → decodeVersionReject (encodeVersionReject m) = Some m.
Proof. solve_roundtrip m VersionReject_ok. Qed.

#[export] Instance VersionReject_wire : WireMessage VersionReject := {|
  encode := encodeVersionReject; decode := decodeVersionReject; wire_ok := VersionReject_ok;
  decode_encode := VersionReject_decode_encode |}.

#[export] Instance VersionReject_exact : ExactMessage VersionReject.
Proof. solve_exact. Qed.

(** [LogoutRequest] has no field: its payload is empty. *)
Record LogoutRequest := { }.

Definition encodeLogoutRequest (request : LogoutRequest) : list byte := [].

Definition decodeLogoutRequest (payload : list byte) : option LogoutRequest :=
  match payload with [] => Some Build_LogoutRequest | _ => None end.

Lemma LogoutRequest_decode_encode m :
  True → decodeLogoutRequest (encodeLogoutRequest m) = Some m.
Proof. by destruct m. Qed.

#[export] Instance LogoutRequest_wire : WireMessage LogoutRequest := {|
  encode := encodeLogoutRequest; decode := decodeLogoutRequest; wire_ok := λ _, True;
  decode_encode := LogoutRequest_decode_encode |}.

#[export] Instance LogoutRequest_exact : ExactMessage LogoutRequest.
Proof. intros [|b p] [] H; done. Qed.

Record LogoutResponse := {
  LogoutResponse_success : bool;
  LogoutResponse_message : string
}.

Definition encodeLogoutResponse (response : LogoutResponse) : list byte :=
  write_flag (LogoutResponse_success response) ++
  write_string (LogoutResponse_message response).

Definition decodeLogoutResponse : list byte → option LogoutResponse := run_reader
  (success <~ read_flag;
   message <~ read_string;
   ret_reader {| LogoutResponse_success := success;
                 LogoutResponse_message := message |})%reader.

Definition LogoutResponse_ok (m : LogoutResponse) : Prop :=
  string_fits (LogoutResponse_message m).

Lemma LogoutResponse_decode_encode m :
  LogoutResponse_ok m → decodeLogoutResponse (encodeLogoutResponse m) = Some m.
Proof. solve_roundtrip m LogoutResponse_ok. Qed.

#[export] Instance LogoutResponse_wire : WireMessage LogoutResponse := {|
  encode := encodeLogoutResponse; decode := decodeLogoutResponse; wire_ok := LogoutResponse_ok;
  decode_encode := LogoutResponse_decode_encode |}.

Record SessionReconnectRequest := {
  SessionReconnectRequest_token : string;
  SessionReconnectRequest_last_seq : Z
}.

Definition encodeSessionReconnectRequest (request : SessionReconnectRequest) : list byte :=
  write_string (SessionReconnectRequest_token request) ++
  write_u32 (SessionReconnectRequest_last_seq request).

Definition decodeSessionReconnectRequest : list byte → option SessionReconnectRequest := run_reader
  (token <~ read_string;
   last_seq <~ read_u32;
   ret_reader {| SessionReconnectRequest_token := token;
                 SessionReconnectRequest_last_seq := last_seq |})%reader.

Definition SessionReconnectRequest_ok (m : SessionReconnectRequest) : Prop :=
  string_fits (SessionReconnectRequest_token m) ∧
  in_width 32 (SessionReconnectRequest_last_seq m).

Lemma SessionReconnectRequest_decode_encode m :
  SessionReconnectRequest_ok m → decodeSessionReconnectRequest (encodeSessionReconnectRequest m) = Some m.
Proof. solve_roundtrip m SessionReconnectRequest_ok. Qed.

#[export] Instance SessionReconnectRequest_wire : WireMessage SessionReconnectRequest := {|
  encode := encodeSessionReconnectRequest; decode := decodeSessionReconnectRequest; wire_ok := SessionReconnectRequest_ok;
  decode_encode := SessionReconnectRequest_decode_encode |}.

#[export] Instance SessionReconnectRequest_exact : ExactMessage SessionReconnectRequest.
Proof. solve_exact. Qed.

Record SessionReconnectResponse := {
  SessionReconnectResponse_success : bool;
  SessionReconnectResponse_message : string;
  SessionReconnectResponse_session_id : Z;
  SessionReconnectResponse_resume_from_seq : Z
}.

Definition encodeSessionReconnectResponse (response : SessionReconnectResponse) : list byte :=
  write_flag (SessionReconnectResponse_success response) ++
  write_string (SessionReconnectResponse_message response) ++
  write_u64 (SessionReconnectResponse_session_id response) ++
  write_u32 (SessionReconnectResponse_resume_from_seq response).

Definition decodeSessionReconnectResponse : list byte → option SessionReconnectResponse := run_reader
  (success <~ read_flag;
   message <~ read_string;
   session_id <~ read_u64;
   resume_from_seq <~ read_u32;
   ret_reader {| SessionReconnectResponse_success := success;
                 SessionReconnectResponse_message := message;
                 SessionReconnectResponse_session_id := session_id;
                 SessionReconnectResponse_resume_from_seq := resume_from_seq |})%reader.

Definition SessionReconnectResponse_ok (m : SessionReconnectResponse) : Prop :=
  string_fits (SessionReconnectResponse_message m) ∧
  in_width 64 (SessionReconnectResponse_session_id m) ∧
  in_width 32 (SessionReconnectResponse_resume_from_seq m).

Lemma SessionReconnectResponse_decode_encode m :
  SessionReconnectResponse_ok m → decodeSessionReconnectResponse (encodeSessionReconnectResponse m) = Some m.
Proof. solve_roundtrip m SessionReconnectResponse_ok. Qed.

#[export] Instance SessionReconnectResponse_wire : WireMessage SessionReconnectResponse := {|
  encode := encodeSessionReconnectResponse; decode := decodeSessionReconnectResponse; wire_ok := SessionReconnectResponse_ok;
  decode_encode := SessionReconnectResponse_decode_encode |}.

Record GuildCreateRequest := {
  GuildCreateRequest_guild_name : string
}.

Definition encodeGuildCreateRequest (request : GuildCreateRequest) : list byte :=
  write_string (GuildCreateRequest_guild_name request).

Definition decodeGuildCreateRequest : list byte → option GuildCreateRequest := run_reader
  (guild_name <~ read_string;
   ret_reader {| GuildCreateRequest_guild_name := guild_name |})%reader.

Definition GuildCreateRequest_ok (m : GuildCreateRequest) : Prop :=
  string_fits (GuildCreateRequest_guild_name m).

Lemma GuildCreateRequest_decode_encode m :
  GuildCreateRequest_ok m → decodeGuildCreateRequest (encodeGuildCreateRequest m) = Some m.
Proof. solve_roundtrip m GuildCreateRequest_ok. Qed.

#[export] Instance GuildCreateRequest_wire : WireMessage GuildCreateRequest := {|
  encode := encodeGuildCreateRequest; decode := decodeGuildCreateRequest; wire_ok := GuildCreateRequest_ok;
  decode_encode := GuildCreateRequest_decode_encode |}.

#[export] Instance GuildCreateRequest_exact : ExactMessage GuildCreateRequest.
Proof. solve_exact. Qed.

Record GuildCreateResponse := {
  GuildCreateResponse_success : bool;
  GuildCreateResponse_guild_id : Z;
  GuildCreateResponse_message : string
}.

Definition encodeGuildCreateResponse (response : GuildCreateResponse) : list byte :=
  write_flag (GuildCreateResponse_success response) ++
  write_u64 (GuildCreateResponse_guild_id response) ++
  write_string (GuildCreateResponse_message response).

Definition decodeGuildCreateResponse : list byte → option GuildCreateResponse := run_reader
  (success <~ read_flag;
   guild_id <~ read_u64;
   message <~ read_string;
   ret_reader {| GuildCreateResponse_success := success;
                 GuildCreateResponse_guild_id := guild_id;
                 GuildCreateResponse_message := message |})%reader.

Definition GuildCreateResponse_ok (m : GuildCreateResponse) : Prop :=
  in_width 64 (GuildCreateResponse_guild_id m) ∧
  string_fits (GuildCreateResponse_message m).

Lemma GuildCreateResponse_decode_encode m :
  GuildCreateResponse_ok m → decodeGuildCreateResponse (encodeGuildCreateResponse m) = Some m.
Proof. solve_roundtrip m GuildCreateResponse_ok. Qed.

#[export] Instance GuildCreateResponse_wire : WireMessage GuildCreateResponse := {|
  encode := encodeGuildCreateResponse; decode := decodeGuildCreateResponse; wire_ok := GuildCreateResponse_ok;
  decode_encode := GuildCreateResponse_decode_encode |}.

Record GuildJoinRequest := {
  GuildJoinRequest_guild_id : Z
}.

Definition encodeGuildJoinRequest (request : GuildJoinRequest) : list byte :=
  write_u64 (GuildJoinRequest_guild_id request).

Definition decodeGuildJoinRequest : list byte → option GuildJoinRequest := run_reader
  (guild_id <~ read_u64;
   ret_reader {| GuildJoinRequest_guild_id := guild_id |})%reader.

Definition GuildJoinRequest_ok (m : GuildJoinRequest) : Prop :=
  in_width 64 (GuildJoinRequest_guild_id m).

Lemma GuildJoinRequest_decode_encode m :
  GuildJoinRequest_ok m → decodeGuildJoinRequest (encodeGuildJoinRequest m) = Some m.
Proof. solve_roundtrip m GuildJoinRequest_ok. Qed.

#[export] Instance GuildJoinRequest_wire : WireMessage GuildJoinRequest := {|
  encode := encodeGuildJoinRequest; decode := decodeGuildJoinRequest; wire_ok := GuildJoinRequest_ok;
  decode_encode := GuildJoinRequest_decode_encode |}.

#[export] Instance GuildJoinRequest_exact : ExactMessage GuildJoinRequest.
Proof. solve_exact. Qed.

Record GuildJoinResponse := {
  GuildJoinResponse_success : bool;
  GuildJoinResponse_message : string
}.

Definition encodeGuildJoinResponse (response : GuildJoinResponse) : list byte :=
  write_flag (GuildJoinResponse_success response) ++
  write_string (GuildJoinResponse_message response).

Definition decodeGuildJoinResponse : list byte → option GuildJoinResponse := run_reader
  (success <~ read_flag;
   message <~ read_string;
   ret_reader {| GuildJoinResponse_success := success;
                 GuildJoinResponse_message := message |})%reader.

Definition GuildJoinResponse_ok (m : GuildJoinResponse) : Prop :=
  string_fits (GuildJoinResponse_message m).

Lemma GuildJoinResponse_decode_encode m :
  GuildJoinResponse_ok m → decodeGuildJoinResponse (encodeGuildJoinResponse m) = Some m.
Proof. solve_roundtrip m GuildJoinResponse_ok. Qed.

#[export] Instance GuildJoinResponse_wire : WireMessage GuildJoinResponse := {|
  encode := encodeGuildJoinResponse; decode := decodeGuildJoinResponse; wire_ok := GuildJoinResponse_ok;
  decode_encode := GuildJoinResponse_decode_encode |}.

Record GuildLeaveRequest := {
  GuildLeaveRequest_guild_id : Z
}.

Definition encodeGuildLeaveRequest (request : GuildLeaveRequest) : list byte :=
  write_u64 (GuildLeaveRequest_guild_id request).

Definition decodeGuildLeaveRequest : list byte → option GuildLeaveRequest := run_reader
  (guild_id <~ read_u64;
   ret_reader {| GuildLeaveRequest_guild_id := guild_id |})%reader.

Definition GuildLeaveRequest_ok (m : GuildLeaveRequest) : Prop :=
  in_width 64 (GuildLeaveRequest_guild_id m).

Lemma GuildLeaveRequest_decode_encode m :
  GuildLeaveRequest_ok m → decodeGuildLeaveRequest (encodeGuildLeaveRequest m) = Some m.
Proof. solve_roundtrip m GuildLeaveRequest_ok. Qed.

#[export] Instance GuildLeaveRequest_wire : WireMessage GuildLeaveRequest := {|
  encode := encodeGuildLeaveRequest; decode := decodeGuildLeaveRequest; wire_ok := GuildLeaveRequest_ok;
  decode_encode := GuildLeaveRequest_decode_encode |}.

#[export] Instance GuildLeaveRequest_exact : ExactMessage GuildLeaveRequest.
Proof. solve_exact. Qed.

Record GuildLeaveResponse := {
  GuildLeaveResponse_success : bool;
  GuildLeaveResponse_message : string
}.

Definition encodeGuildLeaveResponse (response : GuildLeaveResponse) : list byte :=
  write_flag (GuildLeaveResponse_success response) ++
  write_string (GuildLeaveResponse_message response).

Definition decodeGuildLeaveResponse : list byte → option GuildLeaveResponse := run_reader
  (success <~ read_flag;
   message <~ read_string;
   ret_reader {| GuildLeaveResponse_success := success;
                 GuildLeaveResponse_message := message |})%reader.

Definition GuildLeaveResponse_ok (m : GuildLeaveResponse) : Prop :=
  string_fits (GuildLeaveResponse_message m).

Lemma GuildLeaveResponse_decode_encode m :
  GuildLeaveResponse_ok m → decodeGuildLeaveResponse (encodeGuildLeaveResponse m) = Some m.
Proof. solve_roundtrip m GuildLeaveResponse_ok. Qed.

#[export] Instance GuildLeaveResponse_wire : WireMessage GuildLeaveResponse := {|
  encode := encodeGuildLeaveResponse; decode := decodeGuildLeaveResponse; wire_ok := GuildLeaveResponse_ok;
  decode_encode := GuildLeaveResponse_decode_encode |}.

Record GuildEvent := {
  GuildEvent_type : GuildEventType;
  GuildEvent_guild_id : Z;
  GuildEvent_actor_user_id : string;
  GuildEvent_member_user_ids : list string;
  GuildEvent_message : string
}.

Definition encodeGuildEvent (event : GuildEvent) : list byte :=
  write_enum (GuildEvent_type event) ++
  write_u64 (GuildEvent_guild_id event) ++
  write_string (GuildEvent_actor_user_id event) ++
  write_string_list (GuildEvent_member_user_ids event) ++
  write_string (GuildEvent_message event).

Definition decodeGuildEvent : list byte → option GuildEvent := run_reader
  (type <~ read_enum GuildEventType;
   guild_id <~ read_u64;
   actor_user_id <~ read_string;
   member_user_ids <~ read_string_list;
   message <~ read_string;
   ret_reader {| GuildEvent_type := type;
                 GuildEvent_guild_id := guild_id;
                 GuildEvent_actor_user_id := actor_user_id;
                 GuildEvent_member_user_ids := member_user_ids;
                 GuildEvent_message := message |})%reader.

Definition GuildEvent_ok (m : GuildEvent) : Prop :=
  enum_ok (GuildEvent_type m) ∧
  in_width 64 (GuildEvent_guild_id m) ∧
  string_fits (GuildEvent_actor_user_id m) ∧
  strings_fit (GuildEvent_member_user_ids m) ∧
  string_fits (GuildEvent_message m).

Lemma GuildEvent_decode_encode m :
  GuildEvent_ok m → decodeGuildEvent (encodeGuildEvent m) = Some m.
Proof. solve_roundtrip m GuildEvent_ok. Qed.

#[export] Instance GuildEvent_wire : WireMessage GuildEvent := {|
  encode := encodeGuildEvent; decode := decodeGuildEvent; wire_ok := GuildEvent_ok;
  decode_encode := GuildEvent_decode_encode |}.

#[export] Instance GuildEvent_exact : ExactMessage GuildEvent.
Proof. solve_exact. Qed.

Record PartyCreateRequest := {
  PartyCreateRequest_leader_user_id : string
}.

Definition encodePartyCreateRequest (request : PartyCreateRequest) : list byte :=
  write_string (PartyCreateRequest_leader_user_id request).

Definition decodePartyCreateRequest : list byte → option PartyCreateRequest := run_reader
  (leader_user_id <~ read_string;
   ret_reader {| PartyCreateRequest_leader_user_id := leader_user_id |})%reader.

Definition PartyCreateRequest_ok (m : PartyCreateRequest) : Prop :=
  string_fits (PartyCreateRequest_leader_user_id m).

Lemma PartyCreateRequest_decode_encode m :
  PartyCreateRequest_ok m → decodePartyCreateRequest (encodePartyCreateRequest m) = Some m.
Proof. solve_roundtrip m PartyCreateRequest_ok. Qed.

#[export] Instance PartyCreateRequest_wire : WireMessage PartyCreateRequest := {|
  encode := encodePartyCreateRequest; decode := decodePartyCreateRequest; wire_ok := PartyCreateRequest_ok;
  decode_encode := PartyCreateRequest_decode_encode |}.

#[export] Instance PartyCreateRequest_exact : ExactMessage PartyCreateRequest.
Proof. solve_exact. Qed.

Record PartyCreateResponse := {
  PartyCreateResponse_success : bool;
  PartyCreateResponse_party_id : Z;
  PartyCreateResponse_message : string
}.

Definition encodePartyCreateResponse (response : PartyCreateResponse) : list byte :=
  write_flag (PartyCreateResponse_success response) ++
  write_u64 (PartyCreateResponse_party_id response) ++
  write_string (PartyCreateResponse_message response).

Definition decodePartyCreateResponse : list byte → option PartyCreateResponse := run_reader
  (success <~ read_flag;
   party_id <~ read_u64;
   message <~ read_string;
   ret_reader {| PartyCreateResponse_success := success;
                 PartyCreateResponse_party_id := party_id;
                 PartyCreateResponse_message := message |})%reader.

Definition PartyCreateResponse_ok (m : PartyCreateResponse) : Prop :=
  in_width 64 (PartyCreateResponse_party_id m) ∧
  string_fits (PartyCreateResponse_message m).

Lemma PartyCreateResponse_decode_encode m :
  PartyCreateResponse_ok m → decodePartyCreateResponse (encodePartyCreateResponse m) = Some m.
Proof. solve_roundtrip m PartyCreateResponse_ok. Qed.

#[export] Instance PartyCreateResponse_wire : WireMessage PartyCreateResponse := {|
  encode := encodePartyCreateResponse; decode := decodePartyCreateResponse; wire_ok := PartyCreateResponse_ok;
  decode_encode := PartyCreateResponse_decode_encode |}.

Record PartyInviteRequest := {
  PartyInviteRequest_party_id : Z;
  PartyInviteRequest_inviter_user_id : string;
  PartyInviteRequest_invitee_user_id : string
}.

Definition encodePartyInviteRequest (request : PartyInviteRequest) : list byte :=
  write_u64 (PartyInviteRequest_party_id request) ++
  write_string (PartyInviteRequest_inviter_user_id request) ++
  write_string (PartyInviteRequest_invitee_user_id request).

Definition decodePartyInviteRequest : list byte → option PartyInviteRequest := run_reader
  (party_id <~ read_u64;
   inviter_user_id <~ read_string;
   invitee_user_id <~ read_string;
   ret_reader {| PartyInviteRequest_party_id := party_id;
                 PartyInviteRequest_inviter_user_id := inviter_user_id;
                 PartyInviteRequest_invitee_user_id := invitee_user_id |})%reader.

Definition PartyInviteRequest_ok (m : PartyInviteRequest) : Prop :=
  in_width 64 (PartyInviteRequest_party_id m) ∧
  string_fits (PartyInviteRequest_inviter_user_id m) ∧
  string_fits (PartyInviteRequest_invitee_user_id m).

Lemma PartyInviteRequest_decode_encode m :
  PartyInviteRequest_ok m → decodePartyInviteRequest (encodePartyInviteRequest m) = Some m.
Proof. solve_roundtrip m PartyInviteRequest_ok. Qed.

#[export] Instance PartyInviteRequest_wire : WireMessage PartyInviteRequest := {|
  encode := encodePartyInviteRequest; decode := decodePartyInviteRequest; wire_ok := PartyInviteRequest_ok;
  decode_encode := PartyInviteRequest_decode_encode |}.

#[export] Instance PartyInviteRequest_exact : ExactMessage PartyInviteRequest.
Proof. solve_exact. Qed.

Record PartyInviteResponse := {
  PartyInviteResponse_success : bool;
  PartyInviteResponse_message : string
}.

Definition encodePartyInviteResponse (response : PartyInviteResponse) : list byte :=
  write_flag (PartyInviteResponse_success response) ++
  write_string (PartyInviteResponse_message response).

Definition decodePartyInviteResponse : list byte → option PartyInviteResponse := run_reader
  (success <~ read_flag;
   message <~ read_string;
   ret_reader {| PartyInviteResponse_success := success;
                 PartyInviteResponse_message := message |})%reader.

Definition PartyInviteResponse_ok (m : PartyInviteResponse) : Prop :=
  string_fits (PartyInviteResponse_message m).

Lemma PartyInviteResponse_decode_encode m :
  PartyInviteResponse_ok m → decodePartyInviteResponse (encodePartyInviteResponse m) = Some m.
Proof. solve_roundtrip m PartyInviteResponse_ok. Qed.

#[export] Instance PartyInviteResponse_wire : WireMessage PartyInviteResponse := {|
  encode := encodePartyInviteResponse; decode := decodePartyInviteResponse; wire_ok := PartyInviteResponse_ok;
  decode_encode := PartyInviteResponse_decode_encode |}.

Record PartyAcceptRequest := {
  PartyAcceptRequest_party_id : Z;
  PartyAcceptRequest_invitee_user_id : string
}.

Definition encodePartyAcceptRequest (request : PartyAcceptRequest) : list byte :=
  write_u64 (PartyAcceptRequest_party_id request) ++
  write_string (PartyAcceptRequest_invitee_user_id request).

Definition decodePartyAcceptRequest : list byte → option PartyAcceptRequest := run_reader
  (party_id <~ read_u64;
   invitee_user_id <~ read_string;
   ret_reader {| PartyAcceptRequest_party_id := party_id;
                 PartyAcceptRequest_invitee_user_id := invitee_user_id |})%reader.

Definition PartyAcceptRequest_ok (m : PartyAcceptRequest) : Prop :=
  in_width 64 (PartyAcceptRequest_party_id m) ∧
  string_fits (PartyAcceptRequest_invitee_user_id m).

Lemma PartyAcceptRequest_decode_encode m :
  PartyAcceptRequest_ok m → decodePartyAcceptRequest (encodePartyAcceptRequest m) = Some m.
Proof. solve_roundtrip m PartyAcceptRequest_ok. Qed.

#[export] Instance PartyAcceptRequest_wire : WireMessage PartyAcceptRequest := {|
  encode := encodePartyAcceptRequest; decode := decodePartyAcceptRequest; wire_ok := PartyAcceptRequest_ok;
  decode_encode := PartyAcceptRequest_decode_encode |}.

#[export] Instance PartyAcceptRequest_exact : ExactMessage PartyAcceptRequest.
Proof. solve_exact. Qed.

Record PartyAcceptResponse := {
  PartyAcceptResponse_success : bool;
  PartyAcceptResponse_message : string
}.

Definition encodePartyAcceptResponse (response : PartyAcceptResponse) : list byte :=
  write_flag (PartyAcceptResponse_success response) ++
  write_string (PartyAcceptResponse_message response).

Definition decodePartyAcceptResponse : list byte → option PartyAcceptResponse := run_reader
  (success <~ read_flag;
   message <~ read_string;
   ret_reader {| PartyAcceptResponse_success := success;
                 PartyAcceptResponse_message := message |})%reader.

Definition PartyAcceptResponse_ok (m : PartyAcceptResponse) : Prop :=
  string_fits (PartyAcceptResponse_message m).

Lemma PartyAcceptResponse_decode_encode m :
  PartyAcceptResponse_ok m → decodePartyAcceptResponse (encodePartyAcceptResponse m) = Some m.
Proof. solve_roundtrip m PartyAcceptResponse_ok. Qed.

#[export] Instance PartyAcceptResponse_wire : WireMessage PartyAcceptResponse := {|
  encode := encodePartyAcceptResponse; decode := decodePartyAcceptResponse; wire_ok := PartyAcceptResponse_ok;
  decode_encode := PartyAcceptResponse_decode_encode |}.

Record PartyDisbandRequest := {
  PartyDisbandRequest_party_id : Z;
  PartyDisbandRequest_requester_user_id : string
}.

Definition encodePartyDisbandRequest (request : PartyDisbandRequest) : list byte :=
  write_u64 (PartyDisbandRequest_party_id request) ++
  write_string (PartyDisbandRequest_requester_user_id request).

Definition decodePartyDisbandRequest : list byte → option PartyDisbandRequest := run_reader
  (party_id <~ read_u64;
   requester_user_id <~ read_string;
   ret_reader {| PartyDisbandRequest_party_id := party_id;
                 PartyDisbandRequest_requester_user_id := requester_user_id |})%reader.

Definition PartyDisbandRequest_ok (m : PartyDisbandRequest) : Prop :=
  in_width 64 (PartyDisbandRequest_party_id m) ∧
  string_fits (PartyDisbandRequest_requester_user_id m).

Lemma PartyDisbandRequest_decode_encode m :
  PartyDisbandRequest_ok m → decodePartyDisbandRequest (encodePartyDisbandRequest m) = Some m.
Proof. solve_roundtrip m PartyDisbandRequest_ok. Qed.

#[export] Instance PartyDisbandRequest_wire : WireMessage PartyDisbandRequest := {|
  encode := encodePartyDisbandRequest; decode := decodePartyDisbandRequest; wire_ok := PartyDisbandRequest_ok;
  decode_encode := PartyDisbandRequest_decode_encode |}.

#[export] Instance PartyDisbandRequest_exact : ExactMessage PartyDisbandRequest.
Proof. solve_exact. Qed.

Record PartyDisbandResponse := {
  PartyDisbandResponse_success : bool;
  PartyDisbandResponse_message : string
}.

Definition encodePartyDisbandResponse (response : PartyDisbandResponse) : list byte :=
  write_flag (PartyDisbandResponse_success response) ++
  write_string (PartyDisbandResponse_message response).

Definition decodePartyDisbandResponse : list byte → option PartyDisbandResponse := run_reader
  (success <~ read_flag;
   message <~ read_string;
   ret_reader {| PartyDisbandResponse_success := success;
                 PartyDisbandResponse_message := message |})%reader.

Definition PartyDisbandResponse_ok (m : PartyDisbandResponse) : Prop :=
  string_fits (PartyDisbandResponse_message m).

Lemma PartyDisbandResponse_decode_encode m :
  PartyDisbandResponse_ok m → decodePartyDisbandResponse (encodePartyDisbandResponse m) = Some m.
Proof. solve_roundtrip m PartyDisbandResponse_ok. Qed.

#[export] Instance PartyDisbandResponse_wire : WireMessage PartyDisbandResponse := {|
  encode := encodePartyDisbandResponse; decode := decodePartyDisbandResponse; wire_ok := PartyDisbandResponse_ok;
  decode_encode := PartyDisbandResponse_decode_encode |}.

Record PartyEvent := {
  PartyEvent_type : PartyEventType;
  PartyEvent_party_id : Z;
  PartyEvent_actor_user_id : string;
  PartyEvent_target_user_id : string;
  PartyEvent_member_user_ids : list string;
  PartyEvent_message : string
}.

Definition encodePartyEvent (event : PartyEvent) : list byte :=
  write_enum (PartyEvent_type event) ++
  write_u64 (PartyEvent_party_id event) ++
  write_string (PartyEvent_actor_user_id event) ++
  write_string (PartyEvent_target_user_id event) ++
  write_string_list (PartyEvent_member_user_ids event) ++
  write_string (PartyEvent_message event).

Definition decodePartyEvent : list byte → option PartyEvent := run_reader
  (type <~ read_enum PartyEventType;
   party_id <~ read_u64;
   actor_user_id <~ read_string;
   target_user_id <~ read_string;
   member_user_ids <~ read_string_list;
   message <~ read_string;
   ret_reader {| PartyEvent_type := type;
                 PartyEvent_party_id := party_id;
                 PartyEvent_actor_user_id := actor_user_id;
                 PartyEvent_target_user_id := target_user_id;
                 PartyEvent_member_user_ids := member_user_ids;
                 PartyEvent_message := message |})%reader.

Definition PartyEvent_ok (m : PartyEvent) : Prop :=
  enum_ok (PartyEvent_type m) ∧
  in_width 64 (PartyEvent_party_id m) ∧
  string_fits (PartyEvent_actor_user_id m) ∧
  string_fits (PartyEvent_target_user_id m) ∧
  strings_fit (PartyEvent_member_user_ids m) ∧
  string_fits (PartyEvent_message m).

Lemma PartyEvent_decode_encode m :
  PartyEvent_ok m → decodePartyEvent (encodePartyEvent m) = Some m.
Proof. solve_roundtrip m PartyEvent_ok. Qed.

#[export] Instance PartyEvent_wire : WireMessage PartyEvent := {|
  encode := encodePartyEvent; decode := decodePartyEvent; wire_ok := PartyEvent_ok;
  decode_encode := PartyEvent_decode_encode |}.

#[export] Instance PartyEvent_exact : ExactMessage PartyEvent.
Proof. solve_exact. Qed.

Record MatchRequest := {
  MatchRequest_party_id : Z;
  MatchRequest_dungeon_id : Z;
  MatchRequest_difficulty : string
}.

Definition encodeMatchRequest (request : MatchRequest) : list byte :=
  write_u64 (MatchRequest_party_id request) ++
  write_u32 (MatchRequest_dungeon_id request) ++
  write_string (MatchRequest_difficulty request).

Definition decodeMatchRequest : list byte → option MatchRequest := run_reader
  (party_id <~ read_u64;
   dungeon_id <~ read_u32;
   difficulty <~ read_string;
   ret_reader {| MatchRequest_party_id := party_id;
                 MatchRequest_dungeon_id := dungeon_id;
                 MatchRequest_difficulty := difficulty |})%reader.

Definition MatchRequest_ok (m : MatchRequest) : Prop :=
  in_width 64 (MatchRequest_party_id m) ∧
  in_width 32 (MatchRequest_dungeon_id m) ∧
  string_fits (MatchRequest_difficulty m).

Lemma MatchRequest_decode_encode m :
  MatchRequest_ok m → decodeMatchRequest (encodeMatchRequest m) = Some m.
Proof. solve_roundtrip m MatchRequest_ok. Qed.

#[export] Instance MatchRequest_wire : WireMessage MatchRequest := {|
  encode := encodeMatchRequest; decode := decodeMatchRequest; wire_ok := MatchRequest_ok;
  decode_encode := MatchRequest_decode_encode |}.

#[export] Instance MatchRequest_exact : ExactMessage MatchRequest.
Proof. solve_exact. Qed.

Record MatchFoundNotify := {
  MatchFoundNotify_success : bool;
  MatchFoundNotify_code : string;
  MatchFoundNotify_message : string;
  MatchFoundNotify_party_id : Z;
  MatchFoundNotify_instance_id : Z;
  MatchFoundNotify_endpoint : string;
  MatchFoundNotify_ticket : string
}.

Definition encodeMatchFoundNotify (notify : MatchFoundNotify) : list byte :=
  write_flag (MatchFoundNotify_success notify) ++
  write_string (MatchFoundNotify_code notify) ++
  write_string (MatchFoundNotify_message notify) ++
  write_u64 (MatchFoundNotify_party_id notify) ++
  write_u64 (MatchFoundNotify_instance_id notify) ++
  write_string (MatchFoundNotify_endpoint notify) ++
  write_string (MatchFoundNotify_ticket notify).

Definition decodeMatchFoundNotify : list byte → option MatchFoundNotify := run_reader
  (success <~ read_flag;
   code <~ read_string;
   message <~ read_string;
   party_id <~ read_u64;
   instance_id <~ read_u64;
   endpoint <~ read_string;
   ticket <~ read_string;
   ret_reader {| MatchFoundNotify_success := success;
                 MatchFoundNotify_code := code;
                 MatchFoundNotify_message := message;
                 MatchFoundNotify_party_id := party_id;
                 MatchFoundNotify_instance_id := instance_id;
                 MatchFoundNotify_endpoint := endpoint;
                 MatchFoundNotify_ticket := ticket |})%reader.

Definition MatchFoundNotify_ok (m : MatchFoundNotify) : Prop :=
  string_fits (MatchFoundNotify_code m) ∧
  string_fits (MatchFoundNotify_message m) ∧
  in_width 64 (MatchFoundNotify_party_id m) ∧
  in_width 64 (MatchFoundNotify_instance_id m) ∧
  string_fits (MatchFoundNotify_endpoint m) ∧
  string_fits (MatchFoundNotify_ticket m).

Lemma MatchFoundNotify_decode_encode m :
  MatchFoundNotify_ok m → decodeMatchFoundNotify (encodeMatchFoundNotify m) = Some m.
Proof. solve_roundtrip m MatchFoundNotify_ok. Qed.

#[export] Instance MatchFoundNotify_wire : WireMessage MatchFoundNotify := {|
  encode := encodeMatchFoundNotify; decode := decodeMatchFoundNotify; wire_ok := MatchFoundNotify_ok;
  decode_encode := MatchFoundNotify_decode_encode |}.

Record DungeonEnterRequest := {
  DungeonEnterRequest_instance_id : Z;
  DungeonEnterRequest_ticket : string;
  DungeonEnterRequest_char_id : Z
}.

Definition encodeDungeonEnterRequest (request : DungeonEnterRequest) : list byte :=
  write_u64 (DungeonEnterRequest_instance_id request) ++
  write_string (DungeonEnterRequest_ticket request) ++
  write_u64 (DungeonEnterRequest_char_id request).

Definition decodeDungeonEnterRequest : list byte → option DungeonEnterRequest := run_reader
  (instance_id <~ read_u64;
   ticket <~ read_string;
   char_id <~ read_u64;
   ret_reader {| DungeonEnterRequest_instance_id := instance_id;
                 DungeonEnterRequest_ticket := ticket;
                 DungeonEnterRequest_char_id := char_id |})%reader.

Definition DungeonEnterRequest_ok (m : DungeonEnterRequest) : Prop :=
  in_width 64 (DungeonEnterRequest_instance_id m) ∧
  string_fits (DungeonEnterRequest_ticket m) ∧
  in_width 64 (DungeonEnterRequest_char_id m).

Lemma DungeonEnterRequest_decode_encode m :
  DungeonEnterRequest_ok m → decodeDungeonEnterRequest (encodeDungeonEnterRequest m) = Some m.
Proof. solve_roundtrip m DungeonEnterRequest_ok. Qed.

#[export] Instance DungeonEnterRequest_wire : WireMessage DungeonEnterRequest := {|
  encode := encodeDungeonEnterRequest; decode := decodeDungeonEnterRequest; wire_ok := DungeonEnterRequest_ok;
  decode_encode := DungeonEnterRequest_decode_encode |}.

#[export] Instance DungeonEnterRequest_exact : ExactMessage DungeonEnterRequest.
Proof. solve_exact. Qed.

Record DungeonEnterResponse := {
  DungeonEnterResponse_success : bool;
  DungeonEnterResponse_code : string;
  DungeonEnterResponse_message : string;
  DungeonEnterResponse_state : DungeonState;
  DungeonEnterResponse_seed : Z
}.

Definition encodeDungeonEnterResponse (response : DungeonEnterResponse) : list byte :=
  write_flag (DungeonEnterResponse_success response) ++
  write_string (DungeonEnterResponse_code response) ++
  write_string (DungeonEnterResponse_message response) ++
  write_enum (DungeonEnterResponse_state response) ++
  write_u32 (DungeonEnterResponse_seed response).

Definition decodeDungeonEnterResponse : list byte → option DungeonEnterResponse := run_reader
  (success <~ read_flag;
   code <~ read_string;
   message <~ read_string;
   state <~ read_enum DungeonState;
   seed <~ read_u32;
   ret_reader {| DungeonEnterResponse_success := success;
                 DungeonEnterResponse_code := code;
                 DungeonEnterResponse_message := message;
                 DungeonEnterResponse_state := state;
                 DungeonEnterResponse_seed := seed |})%reader.

Definition DungeonEnterResponse_ok (m : DungeonEnterResponse) : Prop :=
  string_fits (DungeonEnterResponse_code m) ∧
  string_fits (DungeonEnterResponse_message m) ∧
  enum_ok (DungeonEnterResponse_state m) ∧
  in_width 32 (DungeonEnterResponse_seed m).

Lemma DungeonEnterResponse_decode_encode m :
  DungeonEnterResponse_ok m → decodeDungeonEnterResponse (encodeDungeonEnterResponse m) = Some m.
Proof. solve_roundtrip m DungeonEnterResponse_ok. Qed.

#[export] Instance DungeonEnterResponse_wire : WireMessage DungeonEnterResponse := {|
  encode := encodeDungeonEnterResponse; decode := decodeDungeonEnterResponse; wire_ok := DungeonEnterResponse_ok;
  decode_encode := DungeonEnterResponse_decode_encode |}.

Record DungeonResultNotify := {
  DungeonResultNotify_result : DungeonResultType;
  DungeonResultNotify_time_sec : Z;
  DungeonResultNotify_deaths : Z;
  DungeonResultNotify_rewards : list RewardItem
}.

Definition encodeDungeonResultNotify (notify : DungeonResultNotify) : list byte :=
  write_enum (DungeonResultNotify_result notify) ++
  write_u32 (DungeonResultNotify_time_sec notify) ++
  write_u16 (DungeonResultNotify_deaths notify) ++
  write_reward_items (DungeonResultNotify_rewards notify).

Definition decodeDungeonResultNotify : list byte → option DungeonResultNotify := run_reader
  (result <~ read_enum DungeonResultType;
   time_sec <~ read_u32;
   deaths <~ read_u16;
   rewards <~ read_reward_items;
   ret_reader {| DungeonResultNotify_result := result;
                 DungeonResultNotify_time_sec := time_sec;
                 DungeonResultNotify_deaths := deaths;
                 DungeonResultNotify_rewards := rewards |})%reader.

Definition DungeonResultNotify_ok (m : DungeonResultNotify) : Prop :=
  enum_ok (DungeonResultNotify_result m) ∧
  in_width 32 (DungeonResultNotify_time_sec m) ∧
  in_width 16 (DungeonResultNotify_deaths m) ∧
  reward_items_ok (DungeonResultNotify_rewards m).

Lemma DungeonResultNotify_decode_encode m :
  DungeonResultNotify_ok m → decodeDungeonResultNotify (encodeDungeonResultNotify m) = Some m.
Proof. solve_roundtrip m DungeonResultNotify_ok. Qed.

#[export] Instance DungeonResultNotify_wire : WireMessage DungeonResultNotify := {|
  encode := encodeDungeonResultNotify; decode := decodeDungeonResultNotify; wire_ok := DungeonResultNotify_ok;
  decode_encode := DungeonResultNotify_decode_encode |}.

#[export] Instance DungeonResultNotify_exact : ExactMessage DungeonResultNotify.
Proof. solve_exact. Qed.

Record DungeonResultResponse := {
  DungeonResultResponse_success : bool;
  DungeonResultResponse_code : string;
  DungeonResultResponse_message : string;
  DungeonResultResponse_summary : string
}.

Definition encodeDungeonResultResponse (response : DungeonResultResponse) : list byte :=
  write_flag (DungeonResultResponse_success response) ++
  write_string (DungeonResultResponse_code response) ++
  write_string (DungeonResultResponse_message response) ++
  write_string (DungeonResultResponse_summary response).

Definition decodeDungeonResultResponse : list byte → option DungeonResultResponse := run_reader
  (success <~ read_flag;
   code <~ read_string;
   message <~ read_string;
   summary <~ read_string;
   ret_reader {| DungeonResultResponse_success := success;
                 DungeonResultResponse_code := code;
                 DungeonResultResponse_message := message;
                 DungeonResultResponse_summary := summary |})%reader.

Definition DungeonResultResponse_ok (m : DungeonResultResponse) : Prop :=
  string_fits (DungeonResultResponse_code m) ∧
  string_fits (DungeonResultResponse_message m) ∧
  string_fits (DungeonResultResponse_summary m).

Lemma DungeonResultResponse_decode_encode m :
  DungeonResultResponse_ok m → decodeDungeonResultResponse (encodeDungeonResultResponse m) = Some m.
Proof. solve_roundtrip m DungeonResultResponse_ok. Qed.

#[export] Instance DungeonResultResponse_wire : WireMessage DungeonResultResponse := {|
  encode := encodeDungeonResultResponse; decode := decodeDungeonResultResponse; wire_ok := DungeonResultResponse_ok;
  decode_encode := DungeonResultResponse_decode_encode |}.

Record ChatSendRequest := {
  ChatSendRequest_channel : ChatChannel;
  ChatSendRequest_party_id : Z;
  ChatSendRequest_message : string
}.

Definition encodeChatSendRequest (request : ChatSendRequest) : list byte :=
  write_enum (ChatSendRequest_channel request) ++
  write_u64 (ChatSendRequest_party_id request) ++
  write_string (ChatSendRequest_message request).

Definition decodeChatSendRequest : list byte → option ChatSendRequest := run_reader
  (channel <~ read_enum ChatChannel;
   party_id <~ read_u64;
   message <~ read_string;
   ret_reader {| ChatSendRequest_channel := channel;
                 ChatSendRequest_party_id := party_id;
                 ChatSendRequest_message := message |})%reader.

Definition ChatSendRequest_ok (m : ChatSendRequest) : Prop :=
  enum_ok (ChatSendRequest_channel m) ∧
  in_width 64 (ChatSendRequest_party_id m) ∧
  string_fits (ChatSendRequest_message m).

Lemma ChatSendRequest_decode_encode m :
  ChatSendRequest_ok m → decodeChatSendRequest (encodeChatSendRequest m) = Some m.
Proof. solve_roundtrip m ChatSendRequest_ok. Qed.

#[export] Instance ChatSendRequest_wire : WireMessage ChatSendRequest := {|
  encode := encodeChatSendRequest; decode := decodeChatSendRequest; wire_ok := ChatSendRequest_ok;
  decode_encode := ChatSendRequest_decode_encode |}.

#[export] Instance ChatSendRequest_exact : ExactMessage ChatSendRequest.
Proof. solve_exact. Qed.

Record ChatSendResponse := {
  ChatSendResponse_success : bool;
  ChatSendResponse_message : string
}.

Definition encodeChatSendResponse (response : ChatSendResponse) : list byte :=
  write_flag (ChatSendResponse_success response) ++
  write_string (ChatSendResponse_message response).

Definition decodeChatSendResponse : list byte → option ChatSendResponse := run_reader
  (success <~ read_flag;
   message <~ read_string;
   ret_reader {| ChatSendResponse_success := success;
                 ChatSendResponse_message := message |})%reader.

Definition ChatSendResponse_ok (m : ChatSendResponse) : Prop :=
  string_fits (ChatSendResponse_message m).

Lemma ChatSendResponse_decode_encode m :
  ChatSendResponse_ok m → decodeChatSendResponse (encodeChatSendResponse m) = Some m.
Proof. solve_roundtrip m ChatSendResponse_ok. Qed.

#[export] Instance ChatSendResponse_wire : WireMessage ChatSendResponse := {|
  encode := encodeChatSendResponse; decode := decodeChatSendResponse; wire_ok := ChatSendResponse_ok;
  decode_encode := ChatSendResponse_decode_encode |}.

Record ChatEvent := {
  ChatEvent_channel : ChatChannel;
  ChatEvent_party_id : Z;
  ChatEvent_sender_user_id : string;
  ChatEvent_message : string
}.

Definition encodeChatEvent (event : ChatEvent) : list byte :=
  write_enum (ChatEvent_channel event) ++
  write_u64 (ChatEvent_party_id event) ++
  write_string (ChatEvent_sender_user_id event) ++
  write_string (ChatEvent_message event).

Definition decodeChatEvent : list byte → option ChatEvent := run_reader
  (channel <~ read_enum ChatChannel;
   party_id <~ read_u64;
   sender_user_id <~ read_string;
   message <~ read_string;
   ret_reader {| ChatEvent_channel := channel;
                 ChatEvent_party_id := party_id;
                 ChatEvent_sender_user_id := sender_user_id;
                 ChatEvent_message := message |})%reader.

Definition ChatEvent_ok (m : ChatEvent) : Prop :=
  enum_ok (ChatEvent_channel m) ∧
  in_width 64 (ChatEvent_party_id m) ∧
  string_fits (ChatEvent_sender_user_id m) ∧
  string_fits (ChatEvent_message m).

Lemma ChatEvent_decode_encode m :
  ChatEvent_ok m → decodeChatEvent (encodeChatEvent m) = Some m.
Proof. solve_roundtrip m ChatEvent_ok. Qed.

#[export] Instance ChatEvent_wire : WireMessage ChatEvent := {|
  encode := encodeChatEvent; decode := decodeChatEvent; wire_ok := ChatEvent_ok;
  decode_encode := ChatEvent_decode_encode |}.

#[export] Instance ChatEvent_exact : ExactMessage ChatEvent.
Proof. solve_exact. Qed.

Record InventoryUpdateNotify := {
  InventoryUpdateNotify_char_id : Z;
  InventoryUpdateNotify_items : list RewardItem
}.

Definition encodeInventoryUpdateNotify (notify : InventoryUpdateNotify) : list byte :=
  write_u64 (InventoryUpdateNotify_char_id notify) ++
  write_reward_items (InventoryUpdateNotify_items notify).

Definition decodeInventoryUpdateNotify : list byte → option InventoryUpdateNotify := run_reader
  (char_id <~ read_u64;
   items <~ read_reward_items;
   ret_reader {| InventoryUpdateNotify_char_id := char_id;
                 InventoryUpdateNotify_items := items |})%reader.

Definition InventoryUpdateNotify_ok (m : InventoryUpdateNotify) : Prop :=
  in_width 64 (InventoryUpdateNotify_char_id m) ∧
  reward_items_ok (InventoryUpdateNotify_items m).

Lemma InventoryUpdateNotify_decode_encode m :
  InventoryUpdateNotify_ok m → decodeInventoryUpdateNotify (encodeInventoryUpdateNotify m) = Some m.
Proof. solve_roundtrip m InventoryUpdateNotify_ok. Qed.

#[export] Instance InventoryUpdateNotify_wire : WireMessage InventoryUpdateNotify := {|
  encode := encodeInventoryUpdateNotify; decode := decodeInventoryUpdateNotify; wire_ok := InventoryUpdateNotify_ok;
  decode_encode := InventoryUpdateNotify_decode_encode |}.

#[export] Instance InventoryUpdateNotify_exact : ExactMessage InventoryUpdateNotify.
Proof. solve_exact. Qed.

Record InventoryUpdateResponse := {
  InventoryUpdateResponse_success : bool;
  InventoryUpdateResponse_code : string;
  InventoryUpdateResponse_message : string;
  InventoryUpdateResponse_inventory_version : Z
}.

Definition encodeInventoryUpdateResponse (response : InventoryUpdateResponse) : list byte :=
  write_flag (InventoryUpdateResponse_success response) ++
  write_string (InventoryUpdateResponse_code response) ++
  write_string (InventoryUpdateResponse_message response) ++
  write_u64 (InventoryUpdateResponse_inventory_version response).

Definition decodeInventoryUpdateResponse : list byte → option InventoryUpdateResponse := run_reader
  (success <~ read_flag;
   code <~ read_string;
   message <~ read_string;
   inventory_version <~ read_u64;
   ret_reader {| InventoryUpdateResponse_success := success;
                 InventoryUpdateResponse_code := code;
                 InventoryUpdateResponse_message := message;
                 InventoryUpdateResponse_inventory_version := inventory_version |})%reader.

Definition InventoryUpdateResponse_ok (m : InventoryUpdateResponse) : Prop :=
  string_fits (InventoryUpdateResponse_code m) ∧
  string_fits (InventoryUpdateResponse_message m) ∧
  in_width 64 (InventoryUpdateResponse_inventory_version m).

Lemma InventoryUpdateResponse_decode_encode m :
  InventoryUpdateResponse_ok m → decodeInventoryUpdateResponse (encodeInventoryUpdateResponse m) = Some m.
Proof. solve_roundtrip m InventoryUpdateResponse_ok. Qed.

#[export] Instance InventoryUpdateResponse_wire : WireMessage InventoryUpdateResponse := {|
  encode := encodeInventoryUpdateResponse; decode := decodeInventoryUpdateResponse; wire_ok := InventoryUpdateResponse_ok;
  decode_encode := InventoryUpdateResponse_decode_encode |}.


(** ** Properties *)

(** A request codec is exact: each message that fits the wire comes back from its bytes,
    and the decoder accepts nothing but the encodings of such messages. *)
Definition exact_codec {M} (enc : M → list byte) (dec : list byte → option M)
    (fits : M → Prop) : Prop :=
  ∀ p m, dec p = Some m ↔ fits m ∧ p = enc m.

Lemma exact_message (M : Type) `{ExactMessage M} : exact_codec encode decode wire_ok.
Proof.
  intros p m. split; [apply decode_exact|]. intros [Hok ->]. by apply decode_encode.
Qed.

(** C11: the decoder of every request the server handles inverts its encoder and accepts
    nothing else: bytes decode to a message exactly when they are the encoding of that
    message and its fields fit their widths, so no byte is ignored, no length is
    misread, and two messages never share an encoding. *)
Theorem request_decoders_exact :
  exact_codec encodeLoginRequest decodeLoginRequest LoginRequest_ok ∧
  exact_codec encodeLogoutRequest decodeLogoutRequest (λ _, True) ∧
  exact_codec encodeSessionReconnectRequest decodeSessionReconnectRequest
    SessionReconnectRequest_ok ∧
  exact_codec encodeMatchRequest decodeMatchRequest MatchRequest_ok ∧
  exact_codec encodeDungeonEnterRequest decodeDungeonEnterRequest DungeonEnterRequest_ok ∧
  exact_codec encodeDungeonResultNotify decodeDungeonResultNotify DungeonResultNotify_ok ∧
  exact_codec encodeInventoryUpdateNotify decodeInventoryUpdateNotify
    InventoryUpdateNotify_ok ∧
  exact_codec encodeGuildCreateRequest decodeGuildCreateRequest GuildCreateRequest_ok ∧
  exact_codec encodeGuildJoinRequest decodeGuildJoinRequest GuildJoinRequest_ok ∧
  exact_codec encodeGuildLeaveRequest decodeGuildLeaveRequest GuildLeaveRequest_ok ∧
  exact_codec encodeChatSendRequest decodeChatSendRequest ChatSendRequest_ok.
Proof.
  split_and!; match goal with |- @exact_codec ?M _ _ _ => exact (exact_message M) end.
Qed.

(** An answer is read back as it was, when its fields fit. *)
Definition roundtrips {M} (enc : M → list byte) (dec : list byte → option M)
    (fits : M → Prop) : Prop := ∀ m, fits m → dec (enc m) = Some m.

Lemma message_roundtrips (M : Type) `{WireMessage M} : roundtrips encode decode wire_ok.
Proof. exact decode_encode. Qed.

(** C39: the client reads back every answer and notification the server sends. *)
Theorem response_roundtrip :
  roundtrips encodeLoginResponse decodeLoginResponse LoginResponse_ok ∧
  roundtrips encodeLogoutResponse decodeLogoutResponse LogoutResponse_ok ∧
  roundtrips encodeSessionReconnectResponse decodeSessionReconnectResponse SessionReconnectResponse_ok ∧
  roundtrips encodeVersionReject decodeVersionReject VersionReject_ok ∧
  roundtrips encodeMatchFoundNotify decodeMatchFoundNotify MatchFoundNotify_ok ∧
  roundtrips encodeDungeonEnterResponse decodeDungeonEnterResponse DungeonEnterResponse_ok ∧
  roundtrips encodeDungeonResultResponse decodeDungeonResultResponse DungeonResultResponse_ok ∧
  roundtrips encodeInventoryUpdateResponse decodeInventoryUpdateResponse InventoryUpdateResponse_ok ∧
  roundtrips encodeGuildCreateResponse decodeGuildCreateResponse GuildCreateResponse_ok ∧
  roundtrips encodeGuildJoinResponse decodeGuildJoinResponse GuildJoinResponse_ok ∧
  roundtrips encodeGuildLeaveResponse decodeGuildLeaveResponse GuildLeaveResponse_ok ∧
  roundtrips encodeGuildEvent decodeGuildEvent GuildEvent_ok ∧
  roundtrips encodeChatSendResponse decodeChatSendResponse ChatSendResponse_ok ∧
  roundtrips encodeChatEvent decodeChatEvent ChatEvent_ok.
Proof.
  split_and!; match goal with |- @roundtrips ?M _ _ _ => exact (message_roundtrips M) end.
Qed.
