(* ===== verification/Codec.v ===== *)
(** * Frames and the connection pipeline
    (src/src/net/codec.h, codec.cpp, io_layer.h, io_layer.cpp)

    A frame is a header of eight bytes, length, type and version in big-endian
    order, followed by the payload. [FrameDecoder] accumulates the bytes of a
    connection and cuts frames off its front; [PacketPipeline] keeps one decoder per
    connection and dispatches every complete frame; [IoEventLoop] queues I/O events
    and hands them to its handlers in order. *)

From S2P Require Import Prelude Wire.

(** ** Codec *)

Record FrameHeader := {
  FrameHeader_length : Z;
  FrameHeader_type : Z;
  FrameHeader_version : Z
}.

Definition kHeaderSize : nat := 8.

(** [read_u32(data)], [read_u16(data)]: the first bytes at a pointer, here the
    buffer and the index pointed to. *)
Definition frame_read_u32 (data : list byte) (i : nat) : Z :=
  Z.lor (Z.lor (Z.lor (u32 (Z.shiftl (at_ data i) 24))
                      (u32 (Z.shiftl (at_ data (i + 1)) 16)))
               (u32 (Z.shiftl (at_ data (i + 2)) 8)))
        (at_ data (i + 3)).

Definition frame_read_u16 (data : list byte) (i : nat) : Z :=
  u16 (Z.lor (Z.shiftl (at_ data i) 8) (at_ data (i + 1))).

(** The four (two) bytes stored at [out]. *)
Definition frame_write_u32 (value : Z) : list byte :=
  [byte_of_Z (Z.land (Z.shiftr value 24) 255);
   byte_of_Z (Z.land (Z.shiftr value 16) 255);
   byte_of_Z (Z.land (Z.shiftr value 8) 255);
   byte_of_Z (Z.land value 255)].

Definition frame_write_u16 (value : Z) : list byte :=
  [byte_of_Z (Z.land (Z.shiftr value 8) 255); byte_of_Z (Z.land value 255)].

(** [Codec::encode] *)
Definition encode_frame (type version : Z) (payload : list byte) : list byte :=
  frame_write_u32 (u32 (Z.of_nat (length payload))) ++
  frame_write_u16 type ++ frame_write_u16 version ++ payload.

(** ** FrameDecoder: its state is the buffer of bytes not yet consumed *)

Abbreviation FrameDecoder := (list byte).

Definition append (data : list byte) (buffer : FrameDecoder) : FrameDecoder := buffer ++ data.

(** [None] when the source returns [false]: no complete frame is buffered. *)
Definition nextFrame (buffer : FrameDecoder)
    : option (FrameHeader * list byte * FrameDecoder) :=
  if bool_decide (length buffer < kHeaderSize)%nat then None
  else
    let header := {|
      FrameHeader_length := frame_read_u32 buffer 0;
      FrameHeader_type := frame_read_u16 buffer 4;
      FrameHeader_version := frame_read_u16 buffer 6 |} in
    let size := (kHeaderSize + Z.to_nat (FrameHeader_length header))%nat in
    if bool_decide (length buffer < size)%nat then None
    else Some (header,
               take (Z.to_nat (FrameHeader_length header)) (drop kHeaderSize buffer),
               drop size buffer).

(** [while (decoder.nextFrame(header, frame_payload)) ...]: the frames the loop
    sees and the buffer it leaves. *)
Fixpoint read_frames (fuel : nat) (buffer : FrameDecoder)
    : list (FrameHeader * list byte) * FrameDecoder :=
  match fuel with
  | O => ([], buffer)
  | S fuel =>
    match nextFrame buffer with
    | None => ([], buffer)
    | Some (header, payload, buffer) =>
      let '(frames, rest) := read_frames fuel buffer in
      ((header, payload) :: frames, rest)
    end
  end.

(** Every round consumes at least the header: as many rounds as there are bytes
    are enough (see [read_frames_enough]). *)
Definition all_frames (buffer : FrameDecoder) : list (FrameHeader * list byte) * FrameDecoder :=
  read_frames (length buffer) buffer.

(** ** PacketPipeline *)

(** What [dispatch_] is called with. *)
Record Dispatch := {
  Dispatch_connection_id : Z;
  Dispatch_header : FrameHeader;
  Dispatch_payload : list byte;
  Dispatch_now : Z
}.

Record PacketPipeline := {
  dispatch_set : bool;
  decoders : gmap Z FrameDecoder
}.

#[export] Instance PacketPipeline_rebuild : Rebuild PacketPipeline :=
  λ p, {| dispatch_set := dispatch_set p; decoders := decoders p |}.

Definition new_PacketPipeline (dispatch : bool) : PacketPipeline := {|
  dispatch_set := dispatch; decoders := ∅ |}.

Definition registerConnection (connection_id : Z) (p : PacketPipeline) : PacketPipeline :=
  p <| decoders ::= emplace connection_id [] |>.

Definition removeConnection (connection_id : Z) (p : PacketPipeline) : PacketPipeline :=
  p <| decoders ::= delete connection_id |>.

(** The calls of [dispatch_] in order, and the pipeline afterwards. *)
Definition onRead (connection_id : Z) (payload : list byte) (now : Z) (p : PacketPipeline)
    : list Dispatch * PacketPipeline :=
  match decoders p !! connection_id with
  | None => ([], p)
  | Some buffer =>
    let '(frames, rest) := all_frames (append payload buffer) in
    (if dispatch_set p then
       (λ f, {| Dispatch_connection_id := connection_id; Dispatch_header := f.1;
                Dispatch_payload := f.2; Dispatch_now := now |}) <$> frames
     else [],
     p <| decoders ::= <[connection_id := rest]> |>)
  end.

(** ** IoEventLoop *)

Inductive IoPlatform := WindowsIocp | LinuxEpoll.

Definition defaultIoPlatform (win32 : bool) : IoPlatform :=
  if win32 then WindowsIocp else LinuxEpoll.

Record IoConfig := {
  platform : IoPlatform;
  acceptor_threads : Z;
  event_loop_threads : Z;
  worker_threads : Z
}.

Definition default_IoConfig : IoConfig := {|
  platform := LinuxEpoll; acceptor_threads := 1; event_loop_threads := 1;
  worker_threads := 4 |}.

Inductive IoEventType := IoAccept | IoRead | IoWrite | IoDisconnect.

Record IoEvent := {
  IoEvent_type : IoEventType;
  IoEvent_connection_id : Z;
  IoEvent_payload : list byte;
  IoEvent_bytes_transferred : Z
}.

(** A call of a handler. *)
Inductive IoCall :=
  | CallAccept (connection_id now : Z)
  | CallRead (connection_id : Z) (payload : list byte) (now : Z)
  | CallWrite (connection_id bytes_transferred now : Z)
  | CallDisconnect (connection_id now : Z).

(** Which handlers are set, and the events queued. *)
Record IoEventLoop := {
  pending : list IoEvent;
  on_accept : bool;
  on_read : bool;
  on_write : bool;
  on_disconnect : bool
}.

#[export] Instance IoEventLoop_rebuild : Rebuild IoEventLoop :=
  λ l, {| pending := pending l; on_accept := on_accept l; on_read := on_read l;
          on_write := on_write l; on_disconnect := on_disconnect l |}.

Definition new_IoEventLoop : IoEventLoop := {|
  pending := []; on_accept := false; on_read := false; on_write := false;
  on_disconnect := false |}.

(** The setters; [set] says whether the function passed holds a target. *)
Definition setAcceptHandler (set : bool) (l : IoEventLoop) : IoEventLoop := l <| on_accept := set |>.
Definition setReadHandler (set : bool) (l : IoEventLoop) : IoEventLoop := l <| on_read := set |>.
Definition setWriteHandler (set : bool) (l : IoEventLoop) : IoEventLoop := l <| on_write := set |>.
Definition setDisconnectHandler (set : bool) (l : IoEventLoop) : IoEventLoop :=
  l <| on_disconnect := set |>.

Definition enqueueEvent (event : IoEvent) (l : IoEventLoop) : IoEventLoop :=
  l <| pending ::= λ q, q ++ [event] |>.

Definition handle_event (l : IoEventLoop) (now : Z) (event : IoEvent) : list IoCall :=
  match IoEvent_type event with
  | IoAccept =>
    if on_accept l then [CallAccept (IoEvent_connection_id event) now] else []
  | IoRead =>
    if on_read l then [CallRead (IoEvent_connection_id event) (IoEvent_payload event) now]
    else []
  | IoWrite =>
    if on_write l
    then [CallWrite (IoEvent_connection_id event) (IoEvent_bytes_transferred event) now]
    else []
  | IoDisconnect =>
    if on_disconnect l then [CallDisconnect (IoEvent_connection_id event) now] else []
  end.

Definition drain (now : Z) (l : IoEventLoop) : list IoCall * IoEventLoop :=
  (pending l ≫= handle_event l now, l <| pending := [] |>).

(** ** Frames: lemmas *)

Lemma frame_write_u32_eq v : frame_write_u32 v = write_u32 v.
Proof. done. Qed.

Lemma frame_write_u16_eq v : frame_write_u16 v = write_u16 v.
Proof. done. Qed.

Lemma frame_read_u32_reader p i :
  (i + 4 <= length p)%nat → read_u32 p i = Some (frame_read_u32 p i, (i + 4)%nat).
Proof. intros. unfold read_u32. by rewrite bool_decide_eq_false_2 by lia. Qed.

Lemma frame_read_u16_reader p i :
  (i + 2 <= length p)%nat → read_u16 p i = Some (frame_read_u16 p i, (i + 2)%nat).
Proof. intros. unfold read_u16. by rewrite bool_decide_eq_false_2 by lia. Qed.

Lemma frame_read_u32_written pre v post :
  in_width 32 v → frame_read_u32 (pre ++ write_u32 v ++ post) (length pre) = v.
Proof.
  intros Hv. pose proof (reads_u32 v Hv pre post) as E.
  rewrite frame_read_u32_reader in E; [by injection E|].
  rewrite !length_app. cbn [length write_u32]. lia.
Qed.

Lemma frame_read_u16_written pre v post :
  in_width 16 v → frame_read_u16 (pre ++ write_u16 v ++ post) (length pre) = v.
Proof.
  intros Hv. pose proof (reads_u16 v Hv pre post) as E.
  rewrite frame_read_u16_reader in E; [by injection E|].
  rewrite !length_app. cbn [length write_u16]. lia.
Qed.

(** A frame whose fields fit their wire types. *)
Record Frame := { frame_type : Z; frame_version : Z; frame_payload : list byte }.

Definition frame_ok (f : Frame) : Prop :=
  in_width 16 (frame_type f) ∧ in_width 16 (frame_version f) ∧
  Z.of_nat (length (frame_payload f)) < 2 ^ 32.

Definition frame_bytes (f : Frame) : list byte :=
  encode_frame (frame_type f) (frame_version f) (frame_payload f).

Definition frame_header (f : Frame) : FrameHeader := {|
  FrameHeader_length := Z.of_nat (length (frame_payload f));
  FrameHeader_type := frame_type f;
  FrameHeader_version := frame_version f |}.

Lemma length_frame_bytes f :
  length (frame_bytes f) = (8 + length (frame_payload f))%nat.
Proof. unfold frame_bytes, encode_frame. rewrite !length_app. cbn. lia. Qed.

(** The header fields read back from a buffer that starts with a frame. *)
Lemma frame_fields f rest :
  frame_ok f →
  frame_read_u32 (frame_bytes f ++ rest) 0 = Z.of_nat (length (frame_payload f)) ∧
  frame_read_u16 (frame_bytes f ++ rest) 4 = frame_type f ∧
  frame_read_u16 (frame_bytes f ++ rest) 6 = frame_version f.
Proof.
  intros (Ht & Hv & Hlen). unfold frame_bytes, encode_frame.
  rewrite frame_write_u32_eq, !frame_write_u16_eq, wrap_small by lia.
  rewrite <- !app_assoc. split_and!.
  - apply (frame_read_u32_written []). unfold in_width. lia.
  - by apply (frame_read_u16_written (write_u32 _)).
  - rewrite (app_assoc (write_u32 _)).
    by apply (frame_read_u16_written (write_u32 _ ++ write_u16 _)).
Qed.

Lemma nextFrame_frame f rest :
  frame_ok f →
  nextFrame (frame_bytes f ++ rest) = Some (frame_header f, frame_payload f, rest).
Proof.
  intros Hok. destruct (frame_fields f rest Hok) as (E1 & E2 & E3).
  unfold nextFrame. rewrite E1, E2, E3. cbn [FrameHeader_length].
  pose proof (length_frame_bytes f) as L. unfold kHeaderSize. rewrite Nat2Z.id.
  rewrite !bool_decide_eq_false_2 by (rewrite length_app; lia).
  do 3 f_equal.
  - rewrite drop_app_le by lia. unfold frame_bytes, encode_frame.
    rewrite !app_assoc, drop_app_length' by done. by rewrite take_app_length.
  - by rewrite <- L, drop_app_length.
Qed.

(** A buffer that holds only part of a frame gives no frame. *)
Lemma nextFrame_partial f buffer rest :
  frame_ok f → frame_bytes f = buffer ++ rest → rest ≠ [] → nextFrame buffer = None.
Proof.
  intros Hok E Hrest. unfold nextFrame.
  assert (L : (length buffer + length rest = 8 + length (frame_payload f))%nat).
  { by rewrite <- length_app, <- E, length_frame_bytes. }
  assert (length rest ≠ 0)%nat by (by destruct rest).
  case_bool_decide as Hb; [done|]. unfold kHeaderSize in *.
  cbn [FrameHeader_length].
  replace (frame_read_u32 buffer 0) with (frame_read_u32 (buffer ++ rest) 0).
  - rewrite <- E, <- (app_nil_r (frame_bytes f)).
    destruct (frame_fields f [] Hok) as (-> & _ & _).
    rewrite Nat2Z.id, bool_decide_eq_true_2 by lia. done.
  - unfold frame_read_u32, at_. rewrite !app_nth1 by lia. done.
Qed.

(** A frame found in a buffer is found in any longer buffer, and leaves the rest. *)
Lemma nextFrame_app buffer h p rest more :
  nextFrame buffer = Some (h, p, rest) →
  nextFrame (buffer ++ more) = Some (h, p, rest ++ more).
Proof.
  unfold nextFrame. intros E.
  case_bool_decide as Hb; [done|]. cbn [FrameHeader_length] in *.
  case_bool_decide as Hc; [done|]. injection E as <- <- <-.
  unfold kHeaderSize in *.
  assert (F : frame_read_u32 (buffer ++ more) 0 = frame_read_u32 buffer 0 ∧
              frame_read_u16 (buffer ++ more) 4 = frame_read_u16 buffer 4 ∧
              frame_read_u16 (buffer ++ more) 6 = frame_read_u16 buffer 6).
  { unfold frame_read_u32, frame_read_u16, at_. by rewrite !app_nth1 by lia. }
  destruct F as (-> & -> & ->).
  rewrite !bool_decide_eq_false_2 by (rewrite length_app; lia).
  rewrite !drop_app_le by lia.
  rewrite take_app_le by (rewrite length_drop; lia). done.
Qed.

Lemma nextFrame_shrinks buffer h p rest :
  nextFrame buffer = Some (h, p, rest) → (length rest + 8 <= length buffer)%nat.
Proof.
  unfold nextFrame. intros E. case_bool_decide as Hb; [done|].
  case_bool_decide as Hc; [done|]. injection E as <- <- <-.
  unfold kHeaderSize in *. cbn [FrameHeader_length] in *.
  rewrite length_drop. lia.
Qed.

(** ** The reading loop *)

Lemma read_frames_enough fuel buffer :
  (length buffer <= fuel)%nat → read_frames fuel buffer = all_frames buffer.
Proof.
  unfold all_frames.
  enough (H : ∀ n m, (length buffer <= n)%nat → (length buffer <= m)%nat →
    read_frames n buffer = read_frames m buffer) by (intros; apply H; lia).
  clear fuel. remember (length buffer) as len eqn:El.
  revert buffer El. induction len as [len IH] using lt_wf_ind. intros buffer -> n m Hn Hm.
  destruct n as [|n], m as [|m]; cbn [read_frames]; try done.
  - assert (length buffer = 0)%nat by lia. destruct buffer; done.
  - assert (length buffer = 0)%nat by lia. destruct buffer; done.
  - destruct (nextFrame buffer) as [[[h p] rest]|] eqn:E; [|done].
    apply nextFrame_shrinks in E. by rewrite (IH (length rest) ltac:(lia) rest eq_refl n m) by lia.
Qed.

Lemma all_frames_unfold buffer :
  all_frames buffer =
  match nextFrame buffer with
  | None => ([], buffer)
  | Some (h, p, rest) => let '(frames, final) := all_frames rest in ((h, p) :: frames, final)
  end.
Proof.
  rewrite <- (read_frames_enough (S (length buffer))) by lia. cbn [read_frames].
  destruct (nextFrame buffer) as [[[h p] rest]|] eqn:E; [|done].
  apply nextFrame_shrinks in E. by rewrite read_frames_enough by lia.
Qed.

(** The loop stops because no complete frame is left. *)
Lemma all_frames_stuck buffer : nextFrame (all_frames buffer).2 = None.
Proof.
  remember (length buffer) as len eqn:El.
  revert buffer El. induction len as [len IH] using lt_wf_ind. intros buffer ->.
  rewrite all_frames_unfold. destruct (nextFrame buffer) as [[[h p] rest]|] eqn:E; [|done].
  apply nextFrame_shrinks in E. specialize (IH (length rest) ltac:(lia) rest eq_refl).
  by destruct (all_frames rest).
Qed.

(** Reading [a] and then [b] gives the frames of [a ++ b]. *)
Lemma all_frames_app a b :
  all_frames (a ++ b) =
  let '(frames, rest) := all_frames a in
  let '(frames', rest') := all_frames (rest ++ b) in (frames ++ frames', rest').
Proof.
  remember (length a) as len eqn:El.
  revert a El. induction len as [len IH] using lt_wf_ind. intros a ->.
  rewrite (all_frames_unfold a). destruct (nextFrame a) as [[[h p] rest]|] eqn:E.
  - rewrite (all_frames_unfold (a ++ b)), (nextFrame_app _ _ _ _ _ E).
    apply nextFrame_shrinks in E. rewrite (IH (length rest)) by lia.
    destruct (all_frames rest) as [fs r]. by destruct (all_frames (r ++ b)).
  - by destruct (all_frames (a ++ b)).
Qed.

(** Reading chunk after chunk, as a connection delivers them. *)
Fixpoint read_chunks (chunks : list (list byte)) (buffer : FrameDecoder)
    : list (FrameHeader * list byte) * FrameDecoder :=
  match chunks with
  | [] => ([], buffer)
  | chunk :: chunks =>
    let '(frames, rest) := all_frames (append chunk buffer) in
    let '(frames', rest') := read_chunks chunks rest in
    (frames ++ frames', rest')
  end.

Lemma read_chunks_concat chunks buffer :
  nextFrame buffer = None →
  read_chunks chunks buffer = all_frames (buffer ++ concat chunks).
Proof.
  revert buffer. induction chunks as [|chunk chunks IH]; intros buffer Hb;
    cbn [read_chunks concat].
  - by rewrite app_nil_r, all_frames_unfold, Hb.
  - unfold append. rewrite app_assoc, (all_frames_app (buffer ++ chunk)).
    pose proof (all_frames_stuck (buffer ++ chunk)) as Hs.
    destruct (all_frames (buffer ++ chunk)) as [fs rest]. by rewrite IH.
Qed.

Lemma all_frames_encoded fs tail :
  Forall frame_ok fs → nextFrame tail = None →
  all_frames (concat (frame_bytes <$> fs) ++ tail) =
  ((λ f, (frame_header f, frame_payload f)) <$> fs, tail).
Proof.
  intros HF Ht. induction HF as [|f fs Hf HF IH]; cbn [fmap list_fmap concat app].
  - by rewrite all_frames_unfold, Ht.
  - rewrite <- app_assoc, all_frames_unfold, nextFrame_frame by done. by rewrite IH.
Qed.

(** ** The pipeline *)

(** Reads of the connections in the order the event loop delivers them. *)
Fixpoint run_reads (now : Z) (reads : list (Z * list byte)) (p : PacketPipeline)
    : list Dispatch * PacketPipeline :=
  match reads with
  | [] => ([], p)
  | (connection, bytes) :: rest =>
    let '(calls, p) := onRead connection bytes now p in
    let '(calls', p) := run_reads now rest p in
    (calls ++ calls', p)
  end.

(** What one connection sends, read by read. *)
Definition sent_by (connection : Z) (reads : list (Z * list byte)) : list (list byte) :=
  (filter (λ read, read.1 = connection) reads).*2.

Definition frame_call (connection now : Z) (f : FrameHeader * list byte) : Dispatch := {|
  Dispatch_connection_id := connection; Dispatch_header := f.1; Dispatch_payload := f.2;
  Dispatch_now := now |}.

Definition of_connection (connection : Z) (call : Dispatch) : Prop :=
  Dispatch_connection_id call = connection.

#[export] Instance of_connection_dec k call : Decision (of_connection k call).
Proof. unfold of_connection. apply _. Defined.

Lemma filter_frame_calls k k' now (frames : list (FrameHeader * list byte)) :
  filter (of_connection k) (frame_call k' now <$> frames) =
  if decide (k' = k) then frame_call k' now <$> frames else [].
Proof.
  induction frames as [|f frames IH]; [by case_decide|]. rewrite fmap_cons, filter_cons, IH.
  unfold of_connection. cbn [frame_call Dispatch_connection_id]. by repeat case_decide.
Qed.

(** One connection's share of a run is the reading of its own chunks. *)
Lemma run_reads_connection k now reads p buffer :
  dispatch_set p = true → decoders p !! k = Some buffer →
  let '(calls, p') := run_reads now reads p in
  filter (of_connection k) calls =
    frame_call k now <$> (read_chunks (sent_by k reads) buffer).1 ∧
  decoders p' !! k = Some (read_chunks (sent_by k reads) buffer).2.
Proof.
  revert p buffer. induction reads as [|[k' bytes] reads IH]; intros p buffer Hset Hk;
    cbn [run_reads]; [done|].
  unfold onRead, sent_by. rewrite filter_cons. cbn [fst]. fold (sent_by k reads).
  destruct (decide (k' = k)) as [->|Hne].
  - rewrite Hk, Hset. cbn [fmap list_fmap snd read_chunks]. fold (sent_by k reads).
    destruct (all_frames (append bytes buffer)) as [frames rest].
    specialize (IH (p <| decoders ::= <[k := rest]> |>) rest). specialize (IH Hset).
    destruct (run_reads now reads _) as [calls p'].
    destruct IH as [IHc IHd]; [cbn; apply lookup_insert_eq|].
    destruct (read_chunks (sent_by k reads) rest) as [frames' rest']. cbn [fst snd] in *.
    fold (frame_call k now). rewrite filter_app, filter_frame_calls, decide_True by done.
    by rewrite IHc, fmap_app.
  - destruct (decoders p !! k') as [other|].
    + rewrite Hset. destruct (all_frames (append bytes other)) as [frames rest].
      specialize (IH (p <| decoders ::= <[k' := rest]> |>) buffer). specialize (IH Hset).
      destruct (run_reads now reads _) as [calls p'].
      destruct IH as [IHc IHd]; [cbn; by rewrite lookup_insert_ne|]. fold (frame_call k' now).
      by rewrite filter_app, filter_frame_calls, decide_False, IHc by done.
    + specialize (IH p buffer Hset Hk). by destruct (run_reads now reads p).
Qed.

(** ** Properties *)

(** C10: framing is transparent: however the bytes of a connection are cut into reads, and
    however those are interleaved with the reads of other connections, the packets
    dispatched for a connection are exactly the frames it sent, in order, each once and
    only when complete; what is left in its decoder is the incomplete rest. *)
Theorem frame_stream_refinement k now reads p frames tail :
  dispatch_set p = true → decoders p !! k = Some [] →
  Forall frame_ok frames → nextFrame tail = None →
  concat (sent_by k reads) = concat (frame_bytes <$> frames) ++ tail →
  let '(calls, p') := run_reads now reads p in
  filter (of_connection k) calls =
    (λ f, {| Dispatch_connection_id := k; Dispatch_header := frame_header f;
             Dispatch_payload := frame_payload f; Dispatch_now := now |}) <$> frames ∧
  decoders p' !! k = Some tail.
Proof.
  intros Hset Hk Hok Htail Hsent.
  pose proof (run_reads_connection k now reads p [] Hset Hk) as Hrun.
  rewrite read_chunks_concat in Hrun by done. rewrite app_nil_l, Hsent in Hrun.
  rewrite all_frames_encoded in Hrun by done. destruct (run_reads now reads p) as [calls p'].
  destruct Hrun as [-> ->]. cbn [fst snd]. by rewrite <- list_fmap_compose.
Qed.

Definition two_frames : list Frame := [
  {| frame_type := 1; frame_version := 1; frame_payload := [byte_of_Z 7; byte_of_Z 8] |};
  {| frame_type := 4; frame_version := 1; frame_payload := [] |}].

(** The two frames and one byte more, cut in the middle of the first one's header and
    interleaved with another connection. *)
Definition cut_reads : list (Z * list byte) :=
  let bytes := concat (frame_bytes <$> two_frames) ++ [byte_of_Z 0] in
  [(1, take 5 bytes); (2, [byte_of_Z 9]); (1, drop 5 bytes)].

Definition two_connections : PacketPipeline :=
  registerConnection 2 (registerConnection 1 {| dispatch_set := true; decoders := ∅ |}).

Lemma frame_stream_refinement_witness :
  let '(calls, p') := run_reads 3 cut_reads two_connections in
  filter (of_connection 1) calls =
    (λ f, {| Dispatch_connection_id := 1; Dispatch_header := frame_header f;
             Dispatch_payload := frame_payload f; Dispatch_now := 3 |}) <$> two_frames ∧
  decoders p' !! 1 = Some [byte_of_Z 0].
Proof.
  apply (frame_stream_refinement 1 3 cut_reads two_connections two_frames [byte_of_Z 0]);
    [done|by vm_compute| |by vm_compute|by vm_compute].
  apply List.Forall_cons; [by vm_compute|]. apply List.Forall_cons; [by vm_compute|].
  apply List.Forall_nil.
Defined.
