(* ===== verification/Security.v ===== *)
(** * Packet signatures (src/src/net/security.h, security.cpp)

    A secured payload carries a sequence number, a nonce and a 16-byte signature in
    front of the inner payload. The signature is a keyed FNV-1a hash, computed twice
    with different offsets and orders. *)

From S2P Require Import Prelude Wire.

(** ** Definitions *)

Definition kFnvOffset : Z := 14695981039346656037.
Definition kFnvPrime : Z := 1099511628211.

Definition fnv1a_step (hash : Z) (b : byte) : Z :=
  u64 (Z.lxor hash (byte_val b) * kFnvPrime).

Definition fnv1aUpdate (hash : Z) (data : list byte) : Z := foldl fnv1a_step hash data.

(** [for (int i = n - 1; i >= 0; --i) { out[i] = value & 0xFF; value >>= 8; }] *)
Fixpoint toBytes (n : nat) (value : Z) (out : list byte) : list byte :=
  match n with
  | O => out
  | S n => toBytes n (Z.shiftr value 8) (byte_of_Z (Z.land value 255) :: out)
  end.

Definition toBytes64 (value : Z) : list byte := toBytes 8 value [].
Definition toBytes32 (value : Z) : list byte := toBytes 4 value [].

Definition writeU32 (value : Z) : list byte := write_u32 value.
Definition writeU64 (value : Z) : list byte := write_u64 value.
Definition readU32 : Reader Z := read_u32.
Definition readU64 : Reader Z := read_u64.

Record SecurityHeader := {
  SecurityHeader_seq : Z;
  SecurityHeader_nonce : Z;
  SecurityHeader_signature : list byte
}.

Definition kSignatureSize : nat := 16.

Definition computeSignature (key : string) (seq nonce : Z) (payload : list byte)
    : list byte :=
  let key_bytes := bytes_of_string key in
  let seq_bytes := toBytes32 seq in
  let nonce_bytes := toBytes64 nonce in
  let hash1 := fnv1aUpdate kFnvOffset key_bytes in
  let hash1 := fnv1aUpdate hash1 seq_bytes in
  let hash1 := fnv1aUpdate hash1 nonce_bytes in
  let hash1 := fnv1aUpdate hash1 payload in
  let hash2 := fnv1aUpdate (Z.lxor kFnvOffset 11400714819323198485) key_bytes in
  let hash2 := fnv1aUpdate hash2 nonce_bytes in
  let hash2 := fnv1aUpdate hash2 seq_bytes in
  let hash2 := fnv1aUpdate hash2 payload in
  toBytes64 hash1 ++ toBytes64 hash2.

Definition verifySignature (key : string) (header : SecurityHeader) (payload : list byte)
    : bool :=
  bool_decide (computeSignature key (SecurityHeader_seq header)
                 (SecurityHeader_nonce header) payload = SecurityHeader_signature header).

Definition wrapSecurePayload (seq nonce : Z) (key : string) (payload : list byte)
    : list byte :=
  let signature := computeSignature key seq nonce payload in
  writeU32 seq ++ writeU64 nonce ++ signature ++ payload.

Definition unwrapSecurePayload (payload : list byte) : option (SecurityHeader * list byte) :=
  match readU32 payload O with
  | None => None
  | Some (seq, offset) =>
    match readU64 payload offset with
    | None => None
    | Some (nonce, offset) =>
      if bool_decide (length payload < offset + kSignatureSize)%nat then None
      else Some ({| SecurityHeader_seq := seq;
                    SecurityHeader_nonce := nonce;
                    SecurityHeader_signature := take kSignatureSize (drop offset payload) |},
                 drop (offset + kSignatureSize) payload)
    end
  end.

(** ** Byte conversions *)

Lemma toBytes_be n v out : toBytes n v out = be_bytes n v ++ out.
Proof.
  revert v out. induction n as [|n IH]; intros v out; [done|].
  cbn [toBytes]. rewrite IH, land_255.
  enough (E : be_bytes (S n) v = be_bytes n (Z.shiftr v 8) ++ [byte_of_Z v]).
  { by rewrite E, <- app_assoc. }
  clear IH out. induction n as [|n IH]; [done|].
  cbn [be_bytes app] in *. rewrite IH. f_equal. f_equal.
  rewrite Z.shiftr_shiftr by lia. f_equal. lia.
Qed.

Lemma toBytes64_be v : toBytes64 v = be_bytes 8 v.
Proof. unfold toBytes64. by rewrite toBytes_be, app_nil_r. Qed.

Lemma length_toBytes64 v : length (toBytes64 v) = 8%nat.
Proof. by rewrite toBytes64_be, length_be_bytes. Qed.

Lemma length_signature key seq nonce payload :
  length (computeSignature key seq nonce payload) = kSignatureSize.
Proof. unfold computeSignature. by rewrite length_app, !length_toBytes64. Qed.

Lemma toBytes64_value v : in_width 64 v → be_value 0 (toBytes64 v) = v.
Proof. intros Hv. rewrite toBytes64_be, be_value_bytes. by apply wrap_small. Qed.

Lemma toBytes64_inj v w : in_width 64 v → in_width 64 w → toBytes64 v = toBytes64 w → v = w.
Proof.
  intros Hv Hw E. rewrite <- (toBytes64_value v), <- (toBytes64_value w) by done.
  by rewrite E.
Qed.

(** ** FNV-1a steps are invertible *)

Definition kFnvPrimeInverse : Z := 14886173955864302971.

(** The hash before a byte was mixed in. *)
Definition fnv1a_unstep (b : byte) (hash : Z) : Z :=
  Z.lxor (u64 (hash * kFnvPrimeInverse)) (byte_val b).

Definition fnv1aRewind (hash : Z) (data : list byte) : Z := foldr fnv1a_unstep hash data.

Lemma fnv1a_step_width h b : in_width 64 (fnv1a_step h b).
Proof. apply wrap_range. lia. Qed.

Lemma lxor_byte_width h b : in_width 64 h → in_width 64 (Z.lxor h (byte_val b)).
Proof.
  intros [H0 H1]. pose proof (byte_val_range b) as [B0 B1]. unfold in_width.
  assert (Hn : 0 <= Z.lxor h (byte_val b)) by (apply Z.lxor_nonneg; lia).
  split; [done|].
  destruct (decide (Z.lxor h (byte_val b) = 0)) as [->|Hz]; [lia|].
  apply Z.log2_lt_pow2; [lia|].
  eapply Z.le_lt_trans; [apply Z.log2_lxor; lia|].
  assert (Z.log2 h < 64).
  { destruct (decide (h = 0)) as [->|]; [cbn; lia|]. apply Z.log2_lt_pow2; lia. }
  assert (Z.log2 (byte_val b) < 64).
  { destruct (decide (byte_val b = 0)) as [->|]; [cbn; lia|].
    apply Z.log2_lt_pow2; [lia|]. change (2 ^ 64) with (256 * 2 ^ 56). lia. }
  lia.
Qed.

Lemma prime_inverse : (kFnvPrime * kFnvPrimeInverse) mod 2 ^ 64 = 1.
Proof. vm_compute. reflexivity. Qed.

Lemma fnv1a_unstep_step h b : in_width 64 h → fnv1a_unstep b (fnv1a_step h b) = h.
Proof.
  intros Hh. unfold fnv1a_unstep, fnv1a_step, wrap.
  rewrite Zmult_mod_idemp_l, <- Z.mul_assoc, <- Zmult_mod_idemp_r, prime_inverse, Z.mul_1_r.
  rewrite Z.mod_small by by apply lxor_byte_width.
  by rewrite Z.lxor_assoc, Z.lxor_nilpotent, Z.lxor_0_r.
Qed.

Lemma fnv1aUpdate_width h data : in_width 64 h → in_width 64 (fnv1aUpdate h data).
Proof.
  revert h. induction data as [|b data IH]; intros h Hh; [done|].
  apply IH, fnv1a_step_width.
Qed.

Lemma fnv1aRewind_update h data :
  in_width 64 h → fnv1aRewind (fnv1aUpdate h data) data = h.
Proof.
  revert h. induction data as [|b data IH]; intros h Hh; [done|].
  cbn [fnv1aRewind foldr]. unfold fnv1aRewind, fnv1aUpdate in *. cbn [foldl].
  rewrite IH by apply fnv1a_step_width. by apply fnv1a_unstep_step.
Qed.

Lemma fnv1aUpdate_inj h1 h2 data :
  in_width 64 h1 → in_width 64 h2 →
  fnv1aUpdate h1 data = fnv1aUpdate h2 data → h1 = h2.
Proof.
  intros H1 H2 E. rewrite <- (fnv1aRewind_update h1 data), <- (fnv1aRewind_update h2 data)
    by done. by rewrite E.
Qed.

Lemma fnv1a_step_byte_inj h a b :
  in_width 64 h → fnv1a_step h a = fnv1a_step h b → a = b.
Proof.
  intros Hh E. apply byte_val_inj.
  pose proof (fnv1a_unstep_step h a Hh) as Ea. pose proof (fnv1a_unstep_step h b Hh) as Eb.
  unfold fnv1a_unstep in *. rewrite E in Ea.
  set (g := u64 (fnv1a_step h b * kFnvPrimeInverse)) in *.
  rewrite <- (Z.lxor_0_l (byte_val a)), <- (Z.lxor_0_l (byte_val b)).
  rewrite <- (Z.lxor_nilpotent g), !Z.lxor_assoc. by rewrite Ea, Eb.
Qed.

Lemma fnv1aUpdate_app h a b :
  fnv1aUpdate h (a ++ b) = fnv1aUpdate (fnv1aUpdate h a) b.
Proof. apply foldl_app. Qed.

(** Changing one byte changes the hash. *)
Lemma fnv1aUpdate_byte h pre x y post :
  in_width 64 h → x ≠ y →
  fnv1aUpdate h (pre ++ x :: post) ≠ fnv1aUpdate h (pre ++ y :: post).
Proof.
  intros Hh Hxy E. rewrite !fnv1aUpdate_app in E. cbn [fnv1aUpdate foldl] in E.
  apply fnv1aUpdate_inj in E; [|apply fnv1a_step_width..].
  apply fnv1a_step_byte_inj in E; [done|]. by apply fnv1aUpdate_width.
Qed.

(** ** A signature gives the hash states, hence any other signature *)

Definition signature_hash1 (signature : list byte) : Z := be_value 0 (take 8 signature).
Definition signature_hash2 (signature : list byte) : Z := be_value 0 (drop 8 signature).

(** The signature of another packet, from one signed packet and without the key:
    rewind both hashes to the state left by the key, then hash the new packet. *)
Definition resign (header : SecurityHeader) (payload : list byte)
    (seq nonce : Z) (payload' : list byte) : SecurityHeader :=
  let seq0 := toBytes32 (SecurityHeader_seq header) in
  let nonce0 := toBytes64 (SecurityHeader_nonce header) in
  let keyed1 := fnv1aRewind (signature_hash1 (SecurityHeader_signature header))
                  (seq0 ++ nonce0 ++ payload) in
  let keyed2 := fnv1aRewind (signature_hash2 (SecurityHeader_signature header))
                  (nonce0 ++ seq0 ++ payload) in
  let hash1 := fnv1aUpdate keyed1 (toBytes32 seq ++ toBytes64 nonce ++ payload') in
  let hash2 := fnv1aUpdate keyed2 (toBytes64 nonce ++ toBytes32 seq ++ payload') in
  {| SecurityHeader_seq := seq; SecurityHeader_nonce := nonce;
     SecurityHeader_signature := toBytes64 hash1 ++ toBytes64 hash2 |}.

(** The hash states after the key. *)
Definition keyed1 (key : string) : Z := fnv1aUpdate kFnvOffset (bytes_of_string key).
Definition keyed2 (key : string) : Z :=
  fnv1aUpdate (Z.lxor kFnvOffset 11400714819323198485) (bytes_of_string key).

Lemma keyed1_width key : in_width 64 (keyed1 key).
Proof. apply fnv1aUpdate_width. unfold in_width. by vm_compute. Qed.

Lemma keyed2_width key : in_width 64 (keyed2 key).
Proof. apply fnv1aUpdate_width. unfold in_width. by vm_compute. Qed.

Lemma computeSignature_keyed key seq nonce payload :
  computeSignature key seq nonce payload =
  toBytes64 (fnv1aUpdate (keyed1 key) (toBytes32 seq ++ toBytes64 nonce ++ payload)) ++
  toBytes64 (fnv1aUpdate (keyed2 key) (toBytes64 nonce ++ toBytes32 seq ++ payload)).
Proof. unfold computeSignature, keyed1, keyed2. by rewrite !fnv1aUpdate_app. Qed.

Lemma signature_hashes h1 h2 :
  in_width 64 h1 → in_width 64 h2 →
  signature_hash1 (toBytes64 h1 ++ toBytes64 h2) = h1 ∧
  signature_hash2 (toBytes64 h1 ++ toBytes64 h2) = h2.
Proof.
  intros. unfold signature_hash1, signature_hash2.
  rewrite take_app_length', drop_app_length' by (by rewrite length_toBytes64).
  split; by apply toBytes64_value.
Qed.

Lemma verifySignature_iff key header payload :
  verifySignature key header payload = true ↔
  SecurityHeader_signature header =
  computeSignature key (SecurityHeader_seq header) (SecurityHeader_nonce header) payload.
Proof. unfold verifySignature. rewrite bool_decide_eq_true. split; congruence. Qed.

Lemma write_u32_inj v w : in_width 32 v → in_width 32 w → write_u32 v = write_u32 w → v = w.
Proof.
  intros Hv Hw E. pose proof (reads_u32 v Hv [] []) as E1. rewrite E in E1.
  rewrite (reads_u32 w Hw [] []) in E1. by injection E1.
Qed.

(** The layout of a secured payload, seen from its reader. *)
Lemma unwrap_layout seq nonce signature inner :
  in_width 32 seq → in_width 64 nonce → length signature = kSignatureSize →
  unwrapSecurePayload (writeU32 seq ++ writeU64 nonce ++ signature ++ inner) =
  Some ({| SecurityHeader_seq := seq; SecurityHeader_nonce := nonce;
           SecurityHeader_signature := signature |}, inner).
Proof.
  intros Hs Hn Hl. unfold unwrapSecurePayload, readU32, readU64, writeU32, writeU64.
  pose proof (reads_u32 seq Hs [] (write_u64 nonce ++ signature ++ inner)) as E1.
  pose proof (reads_u64 nonce Hn (write_u32 seq) (signature ++ inner)) as E2.
  change ([] ++ ?l) with l in E1. cbn [length] in E1. rewrite Nat.add_0_l in E1.
  rewrite E1, E2.
  change (length (write_u32 seq) + length (write_u64 nonce))%nat with 12%nat.
  rewrite !length_app. change (length (write_u32 seq)) with 4%nat.
  change (length (write_u64 nonce)) with 8%nat.
  rewrite bool_decide_eq_false_2 by lia. do 2 f_equal; [f_equal|].
  - rewrite app_assoc, drop_app_length' by done. by rewrite take_app_length'.
  - rewrite !app_assoc, drop_app_length'; [done|]. rewrite !length_app, Hl. done.
Qed.

(** Conversely, an unwrapped payload had that layout. *)
Lemma unwrap_exact p header inner :
  unwrapSecurePayload p = Some (header, inner) →
  in_width 32 (SecurityHeader_seq header) ∧ in_width 64 (SecurityHeader_nonce header) ∧
  length (SecurityHeader_signature header) = kSignatureSize ∧
  p = writeU32 (SecurityHeader_seq header) ++ writeU64 (SecurityHeader_nonce header) ++
      SecurityHeader_signature header ++ inner.
Proof.
  unfold unwrapSecurePayload, readU32, readU64. intros E.
  destruct (read_u32 p O) as [[seq o1]|] eqn:E1; [|done].
  destruct (read_u64 p o1) as [[nonce o2]|] eqn:E2; [|done].
  case_bool_decide as Hb; [done|]. injection E as <- <-.
  cbn [SecurityHeader_seq SecurityHeader_nonce SecurityHeader_signature].
  destruct (exact_u32 p O seq o1 ltac:(lia) E1) as (? & D1 & L1).
  destruct (exact_u64 p o1 nonce o2 L1 E2) as (? & D2 & L2).
  split_and!; [done|done|..].
  - rewrite length_take, length_drop. lia.
  - unfold writeU32, writeU64. rewrite drop_0 in D1. rewrite D1 at 1. rewrite D2 at 1.
    do 2 f_equal.
    rewrite <- drop_drop. by rewrite take_drop.
Qed.

(** ** Properties *)

(** C30: what a client wraps, the server unwraps: the sequence number, the nonce and the
    inner payload come back, and the signature verifies under the same key. *)
Theorem secure_payload_roundtrip key seq nonce payload :
  in_width 32 seq → in_width 64 nonce →
  ∃ header,
    unwrapSecurePayload (wrapSecurePayload seq nonce key payload) = Some (header, payload) ∧
    SecurityHeader_seq header = seq ∧ SecurityHeader_nonce header = nonce ∧
    verifySignature key header payload = true.
Proof.
  intros Hs Hn. eexists. split.
  { unfold wrapSecurePayload. apply unwrap_layout; [done|done|apply length_signature]. }
  split_and!; [done|done|]. by apply verifySignature_iff.
Qed.

Lemma secure_payload_roundtrip_witness :
  ∃ header,
    unwrapSecurePayload
      (wrapSecurePayload 7 99 "dev-secret" (bytes_of_string "ping")) =
      Some (header, bytes_of_string "ping") ∧
    SecurityHeader_seq header = 7 ∧ SecurityHeader_nonce header = 99 ∧
    verifySignature "dev-secret" header (bytes_of_string "ping") = true.
Proof. apply secure_payload_roundtrip; unfold in_width; lia. Defined.

(** C31: a signed payload in which exactly one byte is altered no longer verifies, whatever
    the key, the position and the two byte values. *)
Theorem altered_byte_rejected key header pre x y post :
  x ≠ y →
  verifySignature key header (pre ++ x :: post) = true →
  verifySignature key header (pre ++ y :: post) = false.
Proof.
  intros Hxy H%verifySignature_iff.
  destruct (verifySignature key header (pre ++ y :: post)) eqn:E; [|done].
  apply verifySignature_iff in E. rewrite H, !computeSignature_keyed in E.
  apply app_inj_1 in E as [E _]; [|by rewrite !length_toBytes64].
  apply toBytes64_inj in E; [|apply fnv1aUpdate_width, keyed1_width..].
  rewrite !app_assoc in E. by apply fnv1aUpdate_byte in E; [|apply keyed1_width|].
Qed.

Lemma altered_byte_rejected_witness :
  verifySignature "dev-secret"
    {| SecurityHeader_seq := 1; SecurityHeader_nonce := 2;
       SecurityHeader_signature := computeSignature "dev-secret" 1 2 [Byte.x41; Byte.x42] |}
    [Byte.x41; Byte.x43] = false.
Proof.
  apply (altered_byte_rejected _ _ [Byte.x41] Byte.x42 Byte.x43 []); [discriminate|].
  by apply verifySignature_iff.
Defined.

(** C32: the signature scheme is forgeable: from one signed packet, and without the key,
    [resign] computes a header that verifies for any other sequence number, nonce and
    payload under the same key. *)
Theorem signature_forgeable key header payload seq nonce payload' :
  verifySignature key header payload = true →
  verifySignature key (resign header payload seq nonce payload') payload' = true.
Proof.
  intros H%verifySignature_iff. apply verifySignature_iff.
  rewrite computeSignature_keyed in H |- *. unfold resign.
  cbn [SecurityHeader_signature SecurityHeader_seq SecurityHeader_nonce]. rewrite H.
  destruct (signature_hashes
    (fnv1aUpdate (keyed1 key) (toBytes32 (SecurityHeader_seq header) ++
       toBytes64 (SecurityHeader_nonce header) ++ payload))
    (fnv1aUpdate (keyed2 key) (toBytes64 (SecurityHeader_nonce header) ++
       toBytes32 (SecurityHeader_seq header) ++ payload))) as [-> ->];
    [apply fnv1aUpdate_width, keyed1_width|apply fnv1aUpdate_width, keyed2_width|].
  by rewrite !fnv1aRewind_update by (apply keyed1_width || apply keyed2_width).
Qed.

Lemma signature_forgeable_witness :
  verifySignature "dev-secret"
    (resign {| SecurityHeader_seq := 1; SecurityHeader_nonce := 2;
               SecurityHeader_signature := computeSignature "dev-secret" 1 2 [Byte.x41] |}
            [Byte.x41] 1000 77 [Byte.x00; Byte.xff]) [Byte.x00; Byte.xff] = true.
Proof. apply signature_forgeable. by apply verifySignature_iff. Defined.
