(* ===== verification/Float.v ===== *)
(** * Floating-point arithmetic of the source

    [double] and [float] are the binary64 and binary32 formats of the Standard
    Library's executable specification of IEEE 754 ([SpecFloat]), rounding to
    nearest, ties to even. *)

From Stdlib Require Import SpecFloat.
From S2P Require Import Prelude.

Abbreviation double := spec_float.

Definition d_of_Z (m : Z) : double := binary_normalize 53 1024 m 0 false.
Definition d_add : double → double → double := SFadd 53 1024.
Definition d_sub : double → double → double := SFsub 53 1024.
Definition d_mul : double → double → double := SFmul 53 1024.
Definition d_div : double → double → double := SFdiv 53 1024.

Definition f_of_Z (m : Z) : double := binary_normalize 24 128 m 0 false.
Definition f_div : double → double → double := SFdiv 24 128.

Definition d_ltb (x y : double) : bool := SFltb x y.
Definition d_leb (x y : double) : bool := SFleb x y.

(** [std::min(a, b)] is [(b < a) ? b : a], also on NaNs. *)
Definition d_min (a b : double) : double := if d_ltb b a then b else a.

(** [std::chrono::duration<double>(d).count()] of a nanosecond count. *)
Definition seconds_of_ns (ns : Z) : double := d_div (d_of_Z ns) (d_of_Z 1000000000).

(** [static_cast<int>(x)]: the integral part. Outside the range of [int] the cast is
    undefined behaviour; infinities and NaN are sent to the smallest [int]. *)
Definition int_of_d (x : double) : Z :=
  match x with
  | S754_zero _ => 0
  | S754_finite s m e =>
    let v := if 0 <=? e then Zpos m * 2 ^ e else Zpos m / 2 ^ (- e) in
    if s then - v else v
  | S754_infinity _ | S754_nan => - 2 ^ 31
  end.

Definition is_nan (x : double) : bool :=
  match x with S754_nan => true | _ => false end.

(** ** The order on doubles *)

(** Class, exponent and mantissa: doubles compare as these triples do. *)
Definition rank (x : double) : Z * Z * Z :=
  match x with
  | S754_infinity s => (if s then -2 else 2, 0, 0)
  | S754_zero _ | S754_nan => (0, 0, 0)
  | S754_finite s m e => if s then (-1, - e, - Zpos m) else (1, e, Zpos m)
  end.

Definition lex (a b : Z * Z * Z) : Prop :=
  a.1.1 < b.1.1 ∨
  (a.1.1 = b.1.1 ∧ (a.1.2 < b.1.2 ∨ (a.1.2 = b.1.2 ∧ a.2 <= b.2))).

Lemma lex_trans a b c : lex a b → lex b c → lex a c.
Proof. unfold lex. lia. Qed.

Lemma d_leb_rank x y :
  d_leb x y = true ↔ is_nan x = false ∧ is_nan y = false ∧ lex (rank x) (rank y).
Proof.
  unfold d_leb, SFleb, lex.
  destruct x as [sx|sx| |sx mx ex], y as [sy|sy| |sy my ey]; cbn;
    try destruct sx; try destruct sy; cbn;
    try solve [split; [intros; split_and!; first [done|lia]
                      | intros (? & ? & ?); first [done|lia]]].
  all: change (PosDef.Pos.compare_cont Eq mx my) with (Pos.compare mx my).
  all: destruct (Z.compare_spec ex ey), (Pos.compare_spec mx my); cbn;
    split; intros; split_and?; destruct_and?; first [done|lia].
Qed.

Lemma d_leb_trans x y z : d_leb x y = true → d_leb y z = true → d_leb x z = true.
Proof.
  rewrite !d_leb_rank. intros (? & ? & ?) (? & ? & ?). split_and!; [done..|].
  by eapply lex_trans.
Qed.

Lemma d_leb_refl x : is_nan x = false → d_leb x x = true.
Proof. rewrite d_leb_rank. intros. split_and!; [done..|]. unfold lex. lia. Qed.

Lemma d_ltb_leb x y : d_ltb x y = true → d_leb x y = true.
Proof. unfold d_ltb, d_leb, SFltb, SFleb. by destruct (SFcompare x y) as [[]|]. Qed.

(** The smaller of two numbers is at most the first, unless that one is a NaN. *)
Lemma d_min_le_l a b : is_nan a = false → d_leb (d_min a b) a = true.
Proof.
  intros Ha. unfold d_min. destruct (d_ltb b a) eqn:E; [by apply d_ltb_leb|].
  by apply d_leb_refl.
Qed.
