(* ===== verification/Logging.v ===== *)
(** * Structured logging (src/src/admin/logging.h, logging.cpp)

    A log call writes one JSON object on one line of standard output. The clock of
    [isoTimestamp] and the random device of [generateTraceId] are inputs of the
    model. The other components record a log call as a [LogEntry]; [log_line] is the
    text the call prints. *)

From stdpp Require Import pretty.
From S2P Require Import Prelude.

(** ** JSON text *)

(** The double quote and the backslash, as one-character strings. *)
Definition quote : string := String (Ascii.ascii_of_nat 34) "".
Definition backslash : string := String (Ascii.ascii_of_nat 92) "".

(** A hexadecimal digit, [std::hex] with or without [std::uppercase]. *)
Definition hex_digit (upper : bool) (v : Z) : Ascii.ascii :=
  Ascii.ascii_of_N (Z.to_N (if v <? 10 then 48 + v else (if upper then 55 else 87) + v)).

Definition hex_byte (upper : bool) (v : Z) : string :=
  String (hex_digit upper (Z.shiftr v 4)) (String (hex_digit upper (Z.land v 15)) "").

Definition ascii_val (ch : Ascii.ascii) : Z := Z.of_N (Ascii.N_of_ascii ch).

(** One turn of the loop of [jsonEscape]. *)
Definition escape_char (ch : Ascii.ascii) : string :=
  let v := ascii_val ch in
  if v =? 34 then backslash +:+ quote
  else if v =? 92 then backslash +:+ backslash
  else if v =? 8 then backslash +:+ "b"
  else if v =? 12 then backslash +:+ "f"
  else if v =? 10 then backslash +:+ "n"
  else if v =? 13 then backslash +:+ "r"
  else if v =? 9 then backslash +:+ "t"
  else if v <? 32 then backslash +:+ "u00" +:+ hex_byte false v
  else String ch "".

Fixpoint jsonEscape (value : string) : string :=
  match value with
  | EmptyString => ""
  | String ch rest => escape_char ch +:+ jsonEscape rest
  end.

Record LogFields := {
  trace_id : option string;
  session_trace_id : option string;
  request_trace_id : option string;
  session_id : option Z;
  packet_type : option Z;
  protocol_version : option Z;
  bytes : option Z;
  user_id : option string;
  reason : option string
}.

#[export] Instance LogFields_rebuild : Rebuild LogFields := λ f, {|
  trace_id := trace_id f; session_trace_id := session_trace_id f;
  request_trace_id := request_trace_id f; session_id := session_id f;
  packet_type := packet_type f; protocol_version := protocol_version f;
  bytes := bytes f; user_id := user_id f; reason := reason f |}.

Definition no_fields : LogFields := {|
  trace_id := None; session_trace_id := None; request_trace_id := None;
  session_id := None; packet_type := None; protocol_version := None; bytes := None;
  user_id := None; reason := None |}.

(** A call of [StructuredLogger::log]. *)
Record LogEntry := {
  log_level : string;
  log_event : string;
  log_message : string;
  log_fields : LogFields
}.

(** [appendNumber], [appendString]: the text so far and the flag [first]. *)
Definition appendNumber (key : string) (value : option Z) (out : string * bool)
    : string * bool :=
  match value with
  | None => out
  | Some v =>
    (out.1 +:+ (if out.2 then "" else ",") +:+ quote +:+ key +:+ quote +:+ ":" +:+ pretty v,
     false)
  end.

Definition appendString (key : string) (value : option string) (out : string * bool)
    : string * bool :=
  match value with
  | None => out
  | Some v =>
    if string_empty v then out
    else (out.1 +:+ (if out.2 then "" else ",") +:+ quote +:+ key +:+ quote +:+ ":" +:+
            quote +:+ jsonEscape v +:+ quote, false)
  end.

(** The line [log] prints, without the final newline. *)
Definition log_line (timestamp : string) (e : LogEntry) : string :=
  let out := ("{", true) in
  let out := appendString "timestamp" (Some timestamp) out in
  let out := appendString "level" (Some (log_level e)) out in
  let out := appendString "event" (Some (log_event e)) out in
  let out := appendString "message" (Some (log_message e)) out in
  let out := appendString "trace_id" (trace_id (log_fields e)) out in
  let out := appendString "session_trace_id" (session_trace_id (log_fields e)) out in
  let out := appendString "request_trace_id" (request_trace_id (log_fields e)) out in
  let out := appendNumber "session_id" (session_id (log_fields e)) out in
  let out := appendNumber "packet_type" (packet_type (log_fields e)) out in
  let out := appendNumber "protocol_version" (protocol_version (log_fields e)) out in
  let out := appendNumber "bytes" (bytes (log_fields e)) out in
  let out := appendString "user_id" (user_id (log_fields e)) out in
  let out := appendString "reason" (reason (log_fields e)) out in
  out.1 +:+ "}".

(** [generateTraceId]: the hexadecimal digits of sixteen random bytes. *)
Definition generateTraceId (draws : list Z) : string :=
  foldr (λ v out, hex_byte false v +:+ out) "" (take 16 draws).

(** ** Every line is one line *)

(** No control character. *)
Fixpoint printable (s : string) : Prop :=
  match s with
  | EmptyString => True
  | String ch s => 32 <= ascii_val ch ∧ printable s
  end.

Lemma printable_app a b : printable a → printable b → printable (a +:+ b).
Proof. induction a as [|ch a IH]; simpl; [done|]. intros [? ?] ?. auto. Qed.

Lemma printable_char ch : 32 <= ascii_val ch → printable (String ch "").
Proof. done. Qed.

Lemma hex_digit_range upper v :
  0 <= v < 16 → 48 <= ascii_val (hex_digit upper v) <= 102.
Proof.
  intros H. assert (E : v ∈ [0;1;2;3;4;5;6;7;8;9;10;11;12;13;14;15]).
  { rewrite list_elem_of_In. simpl. lia. }
  rewrite list_elem_of_In in E. simpl in E. destruct upper;
  repeat destruct E as [<-|E]; try done; by vm_compute.
Qed.

Lemma nibbles v : 0 <= v < 256 → 0 <= Z.shiftr v 4 < 16 ∧ 0 <= Z.land v 15 < 16.
Proof.
  intros. rewrite Z.shiftr_div_pow2 by lia. change 15 with (Z.ones 4).
  rewrite Z.land_ones by lia. change (2 ^ 4) with 16.
  split; [|apply Z.mod_pos_bound; lia].
  split; [apply Z.div_pos; lia|apply Z.div_lt_upper_bound; lia].
Qed.

Lemma ascii_val_range ch : 0 <= ascii_val ch < 256.
Proof. unfold ascii_val. pose proof (Ascii.N_ascii_bounded ch). lia. Qed.

Lemma printable_hex_byte upper v : 0 <= v < 256 → printable (hex_byte upper v).
Proof.
  intros [H1 H2]%nibbles. unfold hex_byte. cbn [printable].
  pose proof (hex_digit_range upper _ H1). pose proof (hex_digit_range upper _ H2). lia.
Qed.

Lemma printable_escape_char ch : printable (escape_char ch).
Proof.
  pose proof (ascii_val_range ch). unfold escape_char.
  repeat (match goal with |- context [if ?b then _ else _] => destruct b eqn:? end);
    bool_props; try (by vm_compute).
  all: try by apply printable_char.
  apply printable_app; [by vm_compute|]. apply printable_app; [by vm_compute|].
  by apply printable_hex_byte.
Qed.

Lemma printable_jsonEscape s : printable (jsonEscape s).
Proof.
  induction s as [|ch s IH]; [done|]. cbn [jsonEscape].
  apply printable_app; [apply printable_escape_char|done].
Qed.

Lemma printable_digit x : printable (String (pretty_N_char x) "").
Proof.
  unfold pretty_N_char. destruct x as [|p]; [by vm_compute|].
  destruct p as [[[[?|?|]|[?|?|]|]|[[?|?|]|[?|?|]|]|]|[[[?|?|]|[?|?|]|]|[[?|?|]|[?|?|]|]|]|];
    by vm_compute.
Qed.

Lemma printable_pretty_N_go x s : printable s → printable (pretty_N_go x s).
Proof.
  revert s. induction (N.lt_wf_0 x) as [x _ IH]. intros s Hs.
  destruct (decide (0 < x)%N) as [Hx|Hx].
  - rewrite pretty_N_go_step by done. apply IH.
    + apply N.div_lt; lia.
    + split; [apply (printable_digit (x `mod` 10)%N)|done].
  - assert (x = 0%N) as -> by lia. by rewrite pretty_N_go_0.
Qed.

Lemma printable_pretty (v : Z) : printable (pretty v).
Proof.
  assert (HN : ∀ x : N, printable (pretty x)).
  { intros x. unfold pretty, pretty_N. case_decide; [by vm_compute|].
    by apply printable_pretty_N_go. }
  destruct v as [|p|p]; [by vm_compute|apply (HN (Npos p))|].
  apply (printable_app "-"); [by vm_compute|apply (HN (Npos p))].
Qed.

Lemma printable_appendNumber key value out :
  printable key → printable out.1 → printable (appendNumber key value out).1.
Proof.
  intros Hk Ho. unfold appendNumber. destruct value as [v|]; [|done]. cbn [fst].
  repeat apply printable_app; try done; try (by vm_compute).
  - by destruct out.2; vm_compute.
  - apply printable_pretty.
Qed.

Lemma printable_appendString key value out :
  printable key → printable out.1 → printable (appendString key value out).1.
Proof.
  intros Hk Ho. unfold appendString. destruct value as [v|]; [|done].
  destruct (string_empty v); [done|]. cbn [fst].
  repeat apply printable_app; try done; try (by vm_compute).
  - by destruct out.2; vm_compute.
  - apply printable_jsonEscape.
Qed.

(** ** Reading a JSON string back *)

Definition ascii_of_val (v : Z) : Ascii.ascii := Ascii.ascii_of_N (Z.to_N v).

Lemma ascii_of_val_val ch : ascii_of_val (ascii_val ch) = ch.
Proof. unfold ascii_of_val, ascii_val. rewrite N2Z.id. apply Ascii.ascii_N_embedding. Qed.

(** The value of a lower-case hexadecimal digit. *)
Definition hex_value (ch : Ascii.ascii) : option Z :=
  let v := ascii_val ch in
  if (48 <=? v) && (v <=? 57) then Some (v - 48)
  else if (97 <=? v) && (v <=? 102) then Some (v - 87)
  else None.

(** The reference reader: the content of a JSON string literal (the part between the
    quotes), for the escapes JSON has below U+0100. A bare quote or control character
    is refused. *)
Fixpoint json_unescape (s : string) : option string :=
  match s with
  | EmptyString => Some ""
  | String ch rest =>
    if ascii_val ch =? 92 then
      match rest with
      | String e rest =>
        let v := ascii_val e in
        if v =? 34 then String (ascii_of_val 34) <$> json_unescape rest
        else if v =? 92 then String (ascii_of_val 92) <$> json_unescape rest
        else if v =? 98 then String (ascii_of_val 8) <$> json_unescape rest
        else if v =? 102 then String (ascii_of_val 12) <$> json_unescape rest
        else if v =? 110 then String (ascii_of_val 10) <$> json_unescape rest
        else if v =? 114 then String (ascii_of_val 13) <$> json_unescape rest
        else if v =? 116 then String (ascii_of_val 9) <$> json_unescape rest
        else if v =? 117 then
          match rest with
          | String z1 (String z2 (String h (String l rest))) =>
            if (ascii_val z1 =? 48) && (ascii_val z2 =? 48) then
              match hex_value h, hex_value l with
              | Some hv, Some lv =>
                String (ascii_of_val (hv * 16 + lv)) <$> json_unescape rest
              | _, _ => None
              end
            else None
          | _ => None
          end
        else None
      | EmptyString => None
      end
    else if ascii_val ch =? 34 then None
    else if ascii_val ch <? 32 then None
    else String ch <$> json_unescape rest
  end.

Lemma unescape_escape_char ch rest :
  json_unescape (escape_char ch +:+ rest) = String ch <$> json_unescape rest.
Proof.
  rewrite <- (ascii_of_val_val ch) at 2.
  pose proof (ascii_val_range ch) as R. unfold escape_char.
  destruct (ascii_val ch =? 34) eqn:E34; [apply Z.eqb_eq in E34; by rewrite E34|].
  destruct (ascii_val ch =? 92) eqn:E92; [apply Z.eqb_eq in E92; by rewrite E92|].
  destruct (ascii_val ch =? 8) eqn:E8; [apply Z.eqb_eq in E8; by rewrite E8|].
  destruct (ascii_val ch =? 12) eqn:E12; [apply Z.eqb_eq in E12; by rewrite E12|].
  destruct (ascii_val ch =? 10) eqn:E10; [apply Z.eqb_eq in E10; by rewrite E10|].
  destruct (ascii_val ch =? 13) eqn:E13; [apply Z.eqb_eq in E13; by rewrite E13|].
  destruct (ascii_val ch =? 9) eqn:E9; [apply Z.eqb_eq in E9; by rewrite E9|].
  destruct (ascii_val ch <? 32) eqn:E32.
  - apply Z.ltb_lt in E32. remember (ascii_val ch) as v eqn:Ev. clear Ev.
    assert (E : In v [0;1;2;3;4;5;6;7;8;9;10;11;12;13;14;15;16;17;18;19;20;21;22;23;24;25;
                      26;27;28;29;30;31]) by (simpl; lia).
    clear -E. simpl in E. repeat destruct E as [<-|E]; done.
  - change (String ch "" +:+ rest) with (String ch rest). cbn [json_unescape]. by rewrite E92, E34, E32, ascii_of_val_val.
Qed.

(** ** Properties *)

(** Escaping loses nothing: reading the escaped text back as the content of a JSON
    string gives the original value, whatever bytes it holds. *)
Theorem jsonEscape_roundtrip s : json_unescape (jsonEscape s) = Some s.
Proof.
  induction s as [|ch s IH]; [done|]. cbn [jsonEscape].
  by rewrite unescape_escape_char, IH.
Qed.

(** A log call prints exactly one line: the text holds no control character, newlines
    included, whatever the level, event, message and field values are, so a client
    cannot forge a log line through a user name or a reason. *)
Theorem log_line_one_line timestamp e : printable (log_line timestamp e).
Proof.
  unfold log_line. apply printable_app; [|by vm_compute].
  repeat (apply printable_appendString || apply printable_appendNumber);
    by vm_compute.
Qed.
