(* ===== verification/LoadLog.v ===== *)
(** * Reading a log back (src/scripts/load_match_sim.cpp: parseNumberField, validateLogs)

    The load simulation validates a run by searching the text of the log it wrote. The
    definitions follow the script; the lemmas show that the searches cannot be fooled by
    the text of a message, a user id or a reason, because the logger escapes it. *)

From stdpp Require Import pretty.
From S2P Require Import Prelude Logging.

(** ** Strings of the C++ library *)

Fixpoint starts_with (p s : string) : bool :=
  match p, s with
  | EmptyString, _ => true
  | String a p, String b s => Ascii.eqb a b && starts_with p s
  | _, EmptyString => false
  end.

Fixpoint drop_text (n : nat) (s : string) : string :=
  match n, s with
  | S n, String _ s => drop_text n s
  | _, _ => s
  end.

(** [find], as the text after the first occurrence. *)
Fixpoint find_after (p s : string) : option string :=
  if starts_with p s then Some (drop_text (String.length p) s)
  else match s with
       | EmptyString => None
       | String _ s => find_after p s
       end.

Definition contains (p s : string) : bool := bool_decide (is_Some (find_after p s)).

Definition isspace (ch : Ascii.ascii) : bool :=
  (ascii_val ch =? 32) || ((9 <=? ascii_val ch) && (ascii_val ch <=? 13)).

Definition isdigit (ch : Ascii.ascii) : bool := (48 <=? ascii_val ch) && (ascii_val ch <=? 57).

Fixpoint skip_spaces (s : string) : string :=
  match s with
  | String ch rest => if isspace ch then skip_spaces rest else s
  | EmptyString => s
  end.

(** The digits a text starts with, and what follows them. *)
Fixpoint digit_prefix (s : string) : string * string :=
  match s with
  | String ch rest =>
    if isdigit ch then let '(digits, rest) := digit_prefix rest in (String ch digits, rest)
    else ("", s)
  | EmptyString => ("", s)
  end.

Fixpoint decimal (acc : Z) (s : string) : Z :=
  match s with
  | String ch rest => decimal (10 * acc + (ascii_val ch - 48)) rest
  | EmptyString => acc
  end.

(** [std::stoull] in base ten: the value and the rest of the text, [None] when it throws.
    A minus sign negates the value modulo 2^64. *)
Definition stoull (text : string) : option (Z * string) :=
  let s := skip_spaces text in
  let '(negative, s) :=
    match s with
    | String ch rest =>
      if ascii_val ch =? 45 then (true, rest)
      else if ascii_val ch =? 43 then (false, rest) else (false, s)
    | EmptyString => (false, s)
    end in
  let '(digits, rest) := digit_prefix s in
  let value := decimal 0 digits in
  if string_empty digits || (2 ^ 64 <=? value) then None
  else Some (if negative : bool then u64 (- value) else value, rest).

Definition newline : Ascii.ascii := ascii_of_val 10.

(** The lines [std::getline] reads, [line] being the start of the current one. *)
Fixpoint getlines (line s : string) : list string :=
  match s with
  | EmptyString => if string_empty line then [] else [line]
  | String ch rest =>
    if Ascii.eqb ch newline then line :: getlines "" rest
    else getlines (line +:+ String ch "") rest
  end.

(** ** The validator *)

Definition parseNumberField (line field : string) : option Z :=
  match find_after (quote +:+ field +:+ quote +:+ ":") line with
  | None => None
  | Some rest =>
    let digits := (digit_prefix (skip_spaces rest)).1 in
    if string_empty digits then None else fst <$> stoull digits
  end.

Record ValidationResults := {
  match_found_entries : Z;
  match_found_unique_sessions : Z;
  match_found_duplicates : Z;
  queue_overflow_warnings : Z;
  overflow_disconnects : Z;
  duplicate_check_passed : bool;
  overflow_policy_logged : bool
}.

#[export] Instance ValidationResults_rebuild : Rebuild ValidationResults := λ r, {|
  match_found_entries := match_found_entries r;
  match_found_unique_sessions := match_found_unique_sessions r;
  match_found_duplicates := match_found_duplicates r;
  queue_overflow_warnings := queue_overflow_warnings r;
  overflow_disconnects := overflow_disconnects r;
  duplicate_check_passed := duplicate_check_passed r;
  overflow_policy_logged := overflow_policy_logged r |}.

Definition no_results : ValidationResults := {|
  match_found_entries := 0; match_found_unique_sessions := 0; match_found_duplicates := 0;
  queue_overflow_warnings := 0; overflow_disconnects := 0; duplicate_check_passed := false;
  overflow_policy_logged := false |}.

Definition text_field (key value : string) : string :=
  quote +:+ key +:+ quote +:+ ":" +:+ quote +:+ value +:+ quote.

(** One turn of the loop over the lines, with the sessions seen so far. *)
Definition validate_line (line : string) (st : ValidationResults * gset Z)
    : ValidationResults * gset Z :=
  let '(results, seen) := st in
  if contains (text_field "event" "match_found") line then
    let results := results <| match_found_entries ::= λ n, u64 (n + 1) |> in
    match parseNumberField line "session_id" with
    | None => (results, seen)
    | Some session =>
      (if bool_decide (session ∈ seen)
       then results <| match_found_duplicates ::= λ n, u64 (n + 1) |> else results,
       {[ session ]} ∪ seen)
    end
  else if contains (text_field "event" "session_queue_overflow") line then
    (results <| queue_overflow_warnings ::= λ n, u64 (n + 1) |>, seen)
  else if contains (text_field "event" "session_disconnected") line &&
          contains (text_field "reason" "send queue overflow") line then
    (results <| overflow_disconnects ::= λ n, u64 (n + 1) |>, seen)
  else st.

Fixpoint validate_lines (lines : list string) (st : ValidationResults * gset Z)
    : ValidationResults * gset Z :=
  match lines with
  | [] => st
  | line :: rest => validate_lines rest (validate_line line st)
  end.

(** The file system is [files]: the content of the files that open. *)
Definition validateLogs (files : string → option string) (log_path : string)
    : ValidationResults :=
  if string_empty log_path then no_results
  else
    match files log_path with
    | None => no_results
    | Some content =>
      let '(results, seen) := validate_lines (getlines "" content) (no_results, ∅) in
      results <| match_found_unique_sessions := Z.of_nat (size seen) |>
              <| duplicate_check_passed := match_found_duplicates results =? 0 |>
              <| overflow_policy_logged :=
                   (0 <? queue_overflow_warnings results) || (0 <? overflow_disconnects results) |>
    end.

(** ** Searching text without quotes *)

Fixpoint all_chars (P : Ascii.ascii → Prop) (s : string) : Prop :=
  match s with
  | EmptyString => True
  | String ch s => P ch ∧ all_chars P s
  end.

Definition is_quote (ch : Ascii.ascii) : Prop := ascii_val ch = 34.

(** The characters the logger writes as they are. *)
Definition ordinary (ch : Ascii.ascii) : Prop :=
  32 <= ascii_val ch ∧ ascii_val ch ≠ 34 ∧ ascii_val ch ≠ 92.

(** What follows a field of a log line. *)
Definition after_field (t : string) : Prop :=
  ∃ ch t', t = String ch t' ∧ (ascii_val ch = 44 ∨ ascii_val ch = 125).

Lemma append_cons ch a b : String ch a +:+ b = String ch (a +:+ b).
Proof. done. Qed.

Lemma append_nil_l b : "" +:+ b = b.
Proof. done. Qed.

(** Computes on the first characters of appended texts. *)
Ltac simp_text :=
  unfold quote, backslash;
  repeat first
    [ rewrite append_cons | rewrite append_nil_l
    | progress cbn [String.length all_chars starts_with jsonEscape drop_text] ].

Lemma ascii_val_inj a b : ascii_val a = ascii_val b → a = b.
Proof. intros E. by rewrite <- (ascii_of_val_val a), <- (ascii_of_val_val b), E. Qed.

Lemma ascii_eqb_val a b : Ascii.eqb a b = (ascii_val a =? ascii_val b).
Proof.
  destruct (Ascii.eqb_spec a b) as [->|Hn]; symmetry; [by apply Z.eqb_eq|].
  apply Z.eqb_neq. intros E. by apply Hn, ascii_val_inj.
Qed.

Lemma all_chars_app P a b : all_chars P (a +:+ b) ↔ all_chars P a ∧ all_chars P b.
Proof. induction a as [|ch a IH]; simp_text; [tauto|]. rewrite IH. tauto. Qed.

Lemma all_chars_impl (P Q : Ascii.ascii → Prop) s :
  (∀ ch, P ch → Q ch) → all_chars P s → all_chars Q s.
Proof. intros HPQ. induction s as [|ch s IH]; simp_text; [done|]. intros [??]. auto. Qed.

Lemma append_assoc a b c : (a +:+ b) +:+ c = a +:+ (b +:+ c).
Proof. induction a as [|ch a IH]; [done|]. simp_text. by rewrite IH. Qed.

Lemma append_nil a : a +:+ "" = a.
Proof. induction a as [|ch a IH]; [done|]. simp_text. by rewrite IH. Qed.

Lemma drop_text_app a b : drop_text (String.length a) (a +:+ b) = b.
Proof. induction a as [|ch a IH]; simp_text; [by destruct b|]. done. Qed.

Lemma starts_with_app a b s : starts_with a s = false → starts_with (a +:+ b) s = false.
Proof.
  revert s. induction a as [|ch a IH]; intros s; simp_text; [done|]. destruct s as [|c s]; [done|].
  destruct (Ascii.eqb ch c); [|done]. apply IH.
Qed.

Lemma starts_with_same a b s : starts_with (a +:+ b) (a +:+ s) = starts_with b s.
Proof. induction a as [|ch a IH]; simp_text; [done|]. by rewrite Ascii.eqb_refl. Qed.

(** The searched text starts with a quote and then an ordinary character. *)
Definition pattern (k w : string) : string := quote +:+ k +:+ quote +:+ ":" +:+ w.

Lemma find_skip_char k w ch s :
  ¬ is_quote ch → find_after (pattern k w) (String ch s) = find_after (pattern k w) s.
Proof.
  intros Hch. unfold pattern. cbn [find_after]. simp_text. rewrite ascii_eqb_val.
  rewrite (proj2 (Z.eqb_neq _ _)); [done|]. intros E. by apply Hch.
Qed.

Lemma find_skip k w a s :
  all_chars (λ ch, ¬ is_quote ch) a →
  find_after (pattern k w) (a +:+ s) = find_after (pattern k w) s.
Proof.
  induction a as [|ch a IH]; simp_text; [done|]. intros [Hch Ha].
  rewrite find_skip_char by done. auto.
Qed.

Lemma find_skip_quote k w s :
  starts_with (k +:+ quote +:+ ":" +:+ w) s = false →
  find_after (pattern k w) (quote +:+ s) = find_after (pattern k w) s.
Proof. intros Hs. unfold pattern in *. simp_text. cbn [find_after]. simp_text.
  revert Hs. simp_text. by intros ->. Qed.

(** A concrete text has no quotes. *)
Ltac no_quotes :=
  simp_text; split_and?; try done; let E := fresh in intros E; by vm_compute in E.

(** An ordinary text does not start with an escape or a quote. *)
Lemma escape_cases ch :
  (escape_char ch = String ch "" ∧ ordinary ch) ∨
  escape_char ch = backslash +:+ quote ∨
  ∃ rest, escape_char ch = backslash +:+ rest ∧ all_chars (λ c, ¬ is_quote c) rest.
Proof.
  pose proof (ascii_val_range ch) as R. unfold escape_char, ordinary.
  destruct (ascii_val ch =? 34) eqn:E34; [right; by left|].
  destruct (ascii_val ch =? 92) eqn:E92.
  { right; right. eexists. split; [done|no_quotes]. }
  do 5 (match goal with |- context [ascii_val ch =? ?n] => destruct (ascii_val ch =? n) end;
    [right; right; eexists; split; [reflexivity|no_quotes]|]).
  bool_props. destruct (ascii_val ch <? 32) eqn:E32; bool_props; [|left; split; [done|lia]].
  right; right. eexists. split; [done|]. destruct (nibbles (ascii_val ch)) as [H1 H2]; [lia|].
  pose proof (hex_digit_range false _ H1). pose proof (hex_digit_range false _ H2).
  unfold hex_byte, is_quote. simp_text. split_and!; try done; lia.
Qed.

Lemma eqb_val_ne a b : ascii_val a ≠ ascii_val b → Ascii.eqb a b = false.
Proof. intros. rewrite ascii_eqb_val. by apply Z.eqb_neq. Qed.

Lemma starts_with_escaped k w v t :
  all_chars ordinary k → after_field t →
  starts_with (k +:+ quote +:+ ":" +:+ w) (jsonEscape v +:+ quote +:+ t) = false.
Proof.
  intros Hk (c & t' & -> & Hc). revert v. induction k as [|a k IH]; intros v.
  - destruct v as [|ch v]; simp_text.
    + rewrite Ascii.eqb_refl, (eqb_val_ne _ c); [done|]. by destruct Hc as [-> | ->].
    + destruct (escape_cases ch) as [[-> (_ & Ho & _)]|[->|(rest & -> & _)]]; simp_text;
        [|done|done].
      rewrite eqb_val_ne; [done|]. intros E. by apply Ho.
  - destruct Hk as [(_ & Ha1 & Ha2) Hk]. specialize (IH Hk). destruct v as [|ch v]; simp_text.
    + by rewrite eqb_val_ne.
    + destruct (escape_cases ch) as [[-> _]|[->|(rest & -> & _)]]; simp_text.
      * rewrite IH. apply andb_false_r.
      * by rewrite eqb_val_ne.
      * by rewrite eqb_val_ne.
Qed.

(** ** A field of a log line *)

(** A name that starts with a letter, as those of the fields. *)
Definition name (k : string) : Prop :=
  ∃ ch k', k = String ch k' ∧ 97 <= ascii_val ch <= 122 ∧ all_chars ordinary k.

Lemma name_not k w ch t :
  name k → ascii_val ch ∈ [44; 58; 125] → starts_with (k +:+ w) (String ch t) = false.
Proof.
  intros (a & k' & -> & Ha & _) Hch. simp_text. rewrite eqb_val_ne; [done|].
  intros E. rewrite <- E in Hch. rewrite list_elem_of_In in Hch. cbn in Hch. lia.
Qed.

Lemma ordinary_not_quote s : all_chars ordinary s → all_chars (λ ch, ¬ is_quote ch) s.
Proof. apply all_chars_impl. by intros ch (_ & ? & _). Qed.

(** Two ordinary texts in quotes are equal or differ. *)
Lemma starts_with_quoted a b x y :
  all_chars ordinary a → all_chars ordinary b →
  starts_with (a +:+ quote +:+ x) (b +:+ quote +:+ y) =
  bool_decide (a = b) && starts_with x y.
Proof.
  revert b. induction a as [|c a IH]; intros [|d b] Ha Hb; simp_text.
  - rewrite Ascii.eqb_refl. by rewrite bool_decide_eq_true_2 by done.
  - destruct Hb as [(_ & Hd & _) _]. rewrite eqb_val_ne; [done|]. intros E. by apply Hd.
  - destruct Ha as [(_ & Hc & _) _]. by rewrite eqb_val_ne.
  - destruct Ha as [_ Ha], Hb as [_ Hb]. rewrite IH by done.
    destruct (Ascii.eqb_spec c d) as [->|Hn].
    + cbn [andb]. f_equal. apply bool_decide_ext. split; [by intros ->|by intros [= ->]].
    + by rewrite (bool_decide_eq_false_2 (String c a = String d b)) by congruence.
Qed.

Lemma escape_ordinary ch : ordinary ch → escape_char ch = String ch "".
Proof.
  intros (H1 & H2 & H3). unfold escape_char.
  rewrite (proj2 (Z.eqb_neq _ 34)) by done. rewrite (proj2 (Z.eqb_neq _ 92)) by done.
  do 5 (rewrite (proj2 (Z.eqb_neq (ascii_val ch) _)) by lia).
  by rewrite (proj2 (Z.ltb_ge _ _)).
Qed.

(** Past the content of a string and its closing quote. *)
Lemma find_skip_escaped k w v t :
  name k → after_field t →
  find_after (pattern k w) (jsonEscape v +:+ quote +:+ t) = find_after (pattern k w) t.
Proof.
  intros Hk Ht. assert (Hord : all_chars ordinary k) by (by destruct Hk as (? & ? & ? & ? & ?)).
  induction v as [|ch v IH]; cbn [jsonEscape].
  - rewrite append_nil_l, find_skip_quote; [done|]. destruct Ht as (c & t' & -> & Hc).
    apply name_not; [done|]. destruct Hc as [-> | ->]; set_solver.
  - rewrite append_assoc. destruct (escape_cases ch) as [[-> (_ & Ho & _)]|[->|(rest & -> & Hr)]].
    + rewrite find_skip; [done|]. by split.
    + rewrite append_assoc. rewrite find_skip by no_quotes.
      rewrite find_skip_quote; [done|]. by apply starts_with_escaped.
    + rewrite append_assoc. rewrite find_skip by no_quotes. by rewrite find_skip.
Qed.

(** ** Printed numbers *)

Lemma pretty_N_char_val x : (x < 10)%N → ascii_val (pretty_N_char x) = 48 + Z.of_N x.
Proof.
  intros Hx. assert (E : In x [0;1;2;3;4;5;6;7;8;9]%N) by (simpl; lia).
  simpl in E. by repeat destruct E as [<-|E].
Qed.

(** Printing adds digits in front, which read back as the number. *)
Lemma pretty_N_go_digits (P : Ascii.ascii → Prop) x s :
  (∀ ch, 48 <= ascii_val ch <= 57 → P ch) → all_chars P s →
  all_chars P (pretty_N_go x s) ∧ decimal 0 (pretty_N_go x s) = decimal (Z.of_N x) s.
Proof.
  intros HP. revert s. induction (N.lt_wf_0 x) as [x _ IH]. intros s Hs.
  destruct (decide (0 < x)%N) as [Hx|Hx].
  - rewrite pretty_N_go_step by done.
    assert (Hm : (x `mod` 10 < 10)%N) by (apply N.mod_lt; lia).
    pose proof (pretty_N_char_val _ Hm) as Hv.
    destruct (IH (x `div` 10)%N) with (s := String (pretty_N_char (x `mod` 10)) s)
      as [H1 H2]; [apply N.div_lt; lia| |].
    + split; [apply HP; rewrite Hv; clear -Hm; generalize dependent (x `mod` 10)%N; lia|done].
    + split; [done|]. rewrite H2. cbn [decimal]. f_equal. rewrite Hv.
      pose proof (N.div_mod x 10 ltac:(done)). lia.
  - assert (x = 0%N) as -> by lia. by rewrite pretty_N_go_0.
Qed.

Lemma pretty_N_digits (P : Ascii.ascii → Prop) (x : N) :
  (∀ ch, 48 <= ascii_val ch <= 57 → P ch) →
  all_chars P (pretty x) ∧ decimal 0 (pretty x) = Z.of_N x.
Proof.
  intros HP. unfold pretty, pretty_N. destruct (decide (x = 0)%N) as [->|Hx].
  - split; [split; [by apply HP|done]|done].
  - by apply pretty_N_go_digits.
Qed.

Lemma pretty_nonneg (v : Z) : 0 <= v → (pretty v : string) = pretty (Z.to_N v).
Proof. by destruct v. Qed.

Lemma pretty_no_quotes (v : Z) : all_chars (λ ch, ¬ is_quote ch) (pretty v).
Proof.
  assert (HN : ∀ x : N, all_chars (λ ch, ¬ is_quote ch) (pretty x)).
  { intros x. apply pretty_N_digits. unfold is_quote. lia. }
  destruct v as [|p|p]; [apply (HN 0%N)|apply (HN (N.pos p))|].
  change (pretty (Z.neg p)) with ("-" +:+ pretty (N.pos p)).
  apply all_chars_app. split; [no_quotes|apply HN].
Qed.

Lemma pretty_nonempty (x : N) : pretty x ≠ ""%string.
Proof.
  unfold pretty, pretty_N. destruct (decide (x = 0)%N) as [->|Hx]; [done|].
  rewrite pretty_N_go_step by lia.
  assert (E : ∀ y s, s ≠ ""%string → pretty_N_go y s ≠ ""%string).
  { intros y. induction (N.lt_wf_0 y) as [y _ IH]. intros s Hs.
    destruct (decide (0 < y)%N); [|assert (y = 0%N) as -> by lia; by rewrite pretty_N_go_0].
    rewrite pretty_N_go_step by done. apply IH; [apply N.div_lt; lia|done]. }
  by apply E.
Qed.

Lemma digit_prefix_all a ch s :
  all_chars (λ c, 48 <= ascii_val c <= 57) a → isdigit ch = false →
  digit_prefix (a +:+ String ch s) = (a, String ch s).
Proof.
  intros Ha Hch. induction a as [|c a IH]; simp_text.
  - cbn. by rewrite Hch.
  - destruct Ha as [Hc Ha]. cbn [digit_prefix]. unfold isdigit at 1.
    rewrite (proj2 (Z.leb_le _ _)), (proj2 (Z.leb_le _ _)) by lia. cbn [andb].
    by rewrite IH.
Qed.

Lemma digit_prefix_end a :
  all_chars (λ c, 48 <= ascii_val c <= 57) a → digit_prefix a = (a, ""%string).
Proof.
  intros Ha. induction a as [|c a IH]; [done|]. destruct Ha as [Hc Ha]. cbn [digit_prefix].
  unfold isdigit at 1. rewrite (proj2 (Z.leb_le _ _)), (proj2 (Z.leb_le _ _)) by lia.
  cbn [andb]. by rewrite IH.
Qed.

(** [stoull] reads a printed 64-bit number back. *)
Lemma stoull_pretty v : 0 <= v < 2 ^ 64 → stoull (pretty v) = Some (v, ""%string).
Proof.
  intros Hv. rewrite pretty_nonneg by lia.
  destruct (pretty_N_digits (λ c, 48 <= ascii_val c <= 57) (Z.to_N v)) as [Hd Hval]; [done|].
  pose proof (pretty_nonempty (Z.to_N v)) as Hne. unfold stoull.
  destruct (pretty (Z.to_N v)) as [|ch s] eqn:E; [done|]. destruct Hd as [Hch Hs].
  cbn [skip_spaces]. unfold isspace.
  rewrite (proj2 (Z.eqb_neq _ 32)), (proj2 (Z.leb_gt (ascii_val ch) 13)) by lia.
  rewrite andb_false_r. cbn [orb].
  rewrite (proj2 (Z.eqb_neq _ 45)), (proj2 (Z.eqb_neq _ 43)) by lia.
  rewrite digit_prefix_end by by split. rewrite Hval. unfold string_empty.
  rewrite bool_decide_eq_false_2 by done. cbn [orb].
  rewrite (proj2 (Z.leb_gt _ _)) by lia. by rewrite Z2N.id by lia.
Qed.

(** ** A log line as a list of fields *)

Inductive field_value := Text (v : string) | Number (v : Z).

Definition render_value (v : field_value) : string :=
  match v with
  | Text v => quote +:+ jsonEscape v +:+ quote
  | Number v => pretty v
  end.

Definition render_field (f : string * field_value) : string :=
  quote +:+ f.1 +:+ quote +:+ ":" +:+ render_value f.2.

(** Fields separated by commas, in front of a text. *)
Fixpoint render (fields : list (string * field_value)) (t : string) : string :=
  match fields with
  | [] => t
  | [f] => render_field f +:+ t
  | f :: rest => render_field f +:+ "," +:+ render rest t
  end.

Definition string_field (key : string) (value : option string) : list (string * field_value) :=
  match value with
  | Some v => if string_empty v then [] else [(key, Text v)]
  | None => []
  end.

Definition number_field (key : string) (value : option Z) : list (string * field_value) :=
  match value with Some v => [(key, Number v)] | None => [] end.

Definition entry_fields (timestamp : string) (e : LogEntry) : list (string * field_value) :=
  string_field "timestamp" (Some timestamp) ++ string_field "level" (Some (log_level e)) ++
  string_field "event" (Some (log_event e)) ++ string_field "message" (Some (log_message e)) ++
  string_field "trace_id" (trace_id (log_fields e)) ++
  string_field "session_trace_id" (session_trace_id (log_fields e)) ++
  string_field "request_trace_id" (request_trace_id (log_fields e)) ++
  number_field "session_id" (session_id (log_fields e)) ++
  number_field "packet_type" (packet_type (log_fields e)) ++
  number_field "protocol_version" (protocol_version (log_fields e)) ++
  number_field "bytes" (bytes (log_fields e)) ++
  string_field "user_id" (user_id (log_fields e)) ++
  string_field "reason" (reason (log_fields e)).

(** What the logger has written after some fields. *)
Definition written (fields : list (string * field_value)) : string * bool :=
  ("{" +:+ render fields "", bool_decide (fields = [])).

Lemma render_snoc fields f t :
  render (fields ++ [f]) t =
  render fields ((if bool_decide (fields = []) then "" else ",") +:+ render_field f +:+ t).
Proof.
  induction fields as [|g fields IH]; [done|]. destruct fields as [|h fields]; [done|].
  cbn [app render] in *. rewrite IH. by rewrite !bool_decide_eq_false_2 by done.
Qed.

Lemma render_append fields t u : render fields t +:+ u = render fields (t +:+ u).
Proof.
  induction fields as [|f fields IH]; [done|]. destruct fields as [|g fields]; cbn [render] in *.
  - by rewrite append_assoc.
  - by rewrite !append_assoc, IH.
Qed.

Lemma written_snoc fields f :
  (written (fields ++ [f])).1 =
  (written fields).1 +:+ (if (written fields).2 then "" else ",") +:+ render_field f ∧
  (written (fields ++ [f])).2 = false.
Proof.
  unfold written. cbn [fst snd]. split; [|by destruct fields].
  rewrite append_assoc, render_append, append_nil_l. by rewrite render_snoc, append_nil.
Qed.

Lemma appendString_written key value fields :
  appendString key value (written fields) = written (fields ++ string_field key value).
Proof.
  unfold appendString, string_field. destruct value as [v|]; [|by rewrite app_nil_r].
  destruct (string_empty v); [by rewrite app_nil_r|].
  destruct (written_snoc fields (key, Text v)) as [E1 E2].
  rewrite (surjective_pairing (written (fields ++ _))), E1, E2.
  unfold render_field, render_value. cbn [fst snd]. done.
Qed.

Lemma appendNumber_written key value fields :
  appendNumber key value (written fields) = written (fields ++ number_field key value).
Proof.
  unfold appendNumber, number_field. destruct value as [v|]; [|by rewrite app_nil_r].
  destruct (written_snoc fields (key, Number v)) as [E1 E2].
  rewrite (surjective_pairing (written (fields ++ _))), E1, E2. done.
Qed.

Lemma log_line_fields timestamp e :
  log_line timestamp e = "{" +:+ render (entry_fields timestamp e) "}".
Proof.
  unfold log_line. change ("{"%string, true) with (written []).
  repeat rewrite ?appendString_written, ?appendNumber_written.
  rewrite app_nil_l, <- !app_assoc. unfold written. cbn [fst].
  by rewrite append_assoc, render_append.
Qed.

(** ** Searching the fields *)

Definition value_starts (w : string) (v : field_value) (t : string) : bool :=
  starts_with w (render_value v +:+ t).

Lemma after_field_render fields :
  after_field (match fields with [] => "}" | _ => "," +:+ render fields "}" end).
Proof. destruct fields; eexists _, _; split; [done|by right|done|by left]. Qed.

Lemma find_here p w s :
  starts_with w s = true →
  find_after (p +:+ w) (p +:+ s) = Some (drop_text (String.length w) s).
Proof.
  intros Hw. assert (X : starts_with (p +:+ w) (p +:+ s) = true) by by rewrite starts_with_same.
  assert (D : drop_text (String.length (p +:+ w)) (p +:+ s) = drop_text (String.length w) s).
  { clear. induction p as [|c p IH]; [done|exact IH]. }
  destruct (p +:+ s) eqn:Ep; cbn [find_after]; by rewrite X, D.
Qed.

Lemma find_in_field k w key v t :
  name k → name key → after_field t →
  find_after (pattern k w) (render_field (key, v) +:+ t) =
  if bool_decide (k = key) && value_starts w v t
  then Some (drop_text (String.length w) (render_value v +:+ t))
  else find_after (pattern k w) t.
Proof.
  intros Hk Hkey Ht. unfold render_field, value_starts. cbn [fst snd]. rewrite !append_assoc.
  assert (Ok : all_chars ordinary k) by (by destruct Hk as (? & ? & ? & ? & ?)).
  assert (Okey : all_chars ordinary key) by (by destruct Hkey as (? & ? & ? & ? & ?)).
  pose proof (starts_with_quoted k key (":" +:+ w) (":" +:+ render_value v +:+ t) Ok Okey) as E.
  assert (Ec : starts_with (":" +:+ w) (":" +:+ render_value v +:+ t) =
               starts_with w (render_value v +:+ t)) by apply starts_with_same.
  rewrite Ec in E. destruct (bool_decide (k = key) && starts_with w (render_value v +:+ t)) eqn:Em.
  - apply andb_true_iff in Em as [<-%bool_decide_eq_true Hw].
    pose proof (find_here (quote +:+ k +:+ quote +:+ ":") w _ Hw) as X.
    by rewrite !append_assoc in X.
  - rewrite find_skip_quote by exact E. rewrite find_skip by by apply ordinary_not_quote.
    rewrite find_skip_quote by (apply name_not; [done|set_solver]).
    rewrite (find_skip k w ":") by no_quotes. destruct v as [v|v]; cbn [render_value].
    + rewrite !append_assoc. rewrite find_skip_quote by by apply starts_with_escaped.
      by apply find_skip_escaped.
    + by rewrite find_skip by apply pretty_no_quotes.
Qed.

(** The text after the first of some fields. *)
Definition rest_of (fields : list (string * field_value)) : string :=
  match fields with [] => "}" | _ => "," +:+ render fields "}" end.

Lemma render_cons f fields : render (f :: fields) "}" = render_field f +:+ rest_of fields.
Proof. by destruct fields. Qed.

Lemma find_rest k w fields :
  find_after (pattern k w) (rest_of fields) =
  match fields with [] => None | _ => find_after (pattern k w) (render fields "}") end.
Proof. destruct fields; [done|]. unfold rest_of. by rewrite find_skip by no_quotes. Qed.

Lemma find_fields k w f fields :
  name k → Forall (λ g, name g.1) (f :: fields) →
  find_after (pattern k w) (render (f :: fields) "}") =
  if bool_decide (k = f.1) && value_starts w f.2 (rest_of fields)
  then Some (drop_text (String.length w) (render_value f.2 +:+ rest_of fields))
  else match fields with [] => None | _ => find_after (pattern k w) (render fields "}") end.
Proof.
  intros Hk [Hf _]%Forall_cons. rewrite render_cons. destruct f as [key v].
  rewrite find_in_field, find_rest; [done..|]. apply after_field_render.
Qed.

(** An ordinary text and a quote start an escaped text and a quote exactly when the texts
    are equal. *)
Lemma starts_with_value v u t :
  all_chars ordinary v →
  starts_with (v +:+ quote) (jsonEscape u +:+ quote +:+ t) = bool_decide (u = v).
Proof.
  revert v. induction u as [|c u IH]; intros [|d v] Hv; simp_text.
  - by rewrite Ascii.eqb_refl.
  - destruct Hv as [(_ & Hd & _) _]. by rewrite eqb_val_ne.
  - destruct (escape_cases c) as [[-> (_ & Hc & _)]|[->|(r & -> & _)]]; simp_text;
      rewrite eqb_val_ne; try done.
  - destruct Hv as [Hd Hv]. specialize (IH v Hv). pose proof Hd as (_ & _ & Hd').
    assert (Hne : ∀ r, escape_char c = backslash +:+ r → String c u ≠ String d v).
    { intros r Er [= -> _]. rewrite escape_ordinary in Er by done. revert Er. simp_text.
      intros [= -> _]. by apply Hd'. }
    destruct (escape_cases c) as [[-> _]|[E|(r & E & _)]].
    + simp_text. revert IH. simp_text. intros ->. destruct (Ascii.eqb_spec d c) as [->|Hn]; cbn [andb].
      * apply bool_decide_ext. split; [by intros ->|by intros [= ->]].
      * symmetry. apply bool_decide_eq_false_2. congruence.
    + rewrite bool_decide_eq_false_2 by by eapply Hne. rewrite E. simp_text. by rewrite eqb_val_ne.
    + rewrite bool_decide_eq_false_2 by by eapply Hne. rewrite E. simp_text. by rewrite eqb_val_ne.
Qed.

Definition is_text (v : string) (u : field_value) : bool :=
  match u with Text u => bool_decide (u = v) | Number _ => false end.

Lemma value_starts_text v u fields :
  all_chars ordinary v →
  value_starts (quote +:+ v +:+ quote) u (rest_of fields) = is_text v u.
Proof.
  intros Hv. unfold value_starts, is_text. destruct u as [u|u]; cbn [render_value].
  - rewrite !append_assoc, starts_with_same. by apply starts_with_value.
  - pose proof (pretty_no_quotes u) as Hu. destruct (pretty u) as [|c s].
    + destruct (after_field_render fields) as (c & t' & E & Hc).
      fold (rest_of fields) in E. rewrite append_nil_l, E. simp_text.
      rewrite eqb_val_ne; [done|]. by destruct Hc as [-> | ->].
    + simp_text. destruct Hu as [Hc _]. rewrite eqb_val_ne; [done|]. intros E. by apply Hc.
Qed.

Lemma contains_field k v fields :
  name k → all_chars ordinary v → Forall (λ f, name f.1) fields →
  contains (text_field k v) ("{" +:+ render fields "}") =
  existsb (λ f, bool_decide (k = f.1) && is_text v f.2) fields.
Proof.
  intros Hk Hv Hn. unfold contains. change (text_field k v) with (pattern k (quote +:+ v +:+ quote)).
  rewrite find_skip by no_quotes. induction fields as [|f fields IH]; [done|].
  rewrite find_fields, value_starts_text by done. cbn [existsb].
  destruct (bool_decide (k = f.1) && is_text v f.2); [done|]. cbn [orb].
  apply Forall_cons in Hn as [_ Hn]. rewrite <- (IH Hn). by destruct fields.
Qed.

(** The number in the only field of a name. *)
Lemma parse_field k n before after :
  name k → Forall (λ f, name f.1) (before ++ (k, Number n) :: after) →
  k ∉ before.*1 → 0 <= n < 2 ^ 64 →
  parseNumberField ("{" +:+ render (before ++ (k, Number n) :: after) "}") k = Some n.
Proof.
  intros Hk Hn Hb Hrange. unfold parseNumberField.
  change (quote +:+ k +:+ quote +:+ ":") with (pattern k "").
  rewrite find_skip by no_quotes.
  assert (E : find_after (pattern k "") (render (before ++ (k, Number n) :: after) "}") =
              Some (pretty n +:+ rest_of after)).
  { induction before as [|f before IH]; cbn [app] in *; rewrite find_fields by done.
    - rewrite bool_decide_eq_true_2 by done. cbn. by destruct (pretty n).
    - apply Forall_cons in Hn as [_ Hn]. cbn [fmap list_fmap] in Hb.
      apply not_elem_of_cons in Hb as [Hf Hb]. rewrite bool_decide_eq_false_2 by done.
      cbn [andb]. rewrite <- (IH Hn Hb). by destruct before. }
  rewrite E. destruct (after_field_render after) as (c & t' & Ea & Hc).
  fold (rest_of after) in Ea. rewrite Ea.
  pose proof (stoull_pretty n Hrange) as Hs. rewrite pretty_nonneg in * by lia.
  destruct (pretty_N_digits (λ c, 48 <= ascii_val c <= 57) (Z.to_N n)) as [Hd _]; [done|].
  pose proof (pretty_nonempty (Z.to_N n)) as Hne.
  assert (Hp : digit_prefix (skip_spaces (pretty (Z.to_N n) +:+ String c t')) =
               (pretty (Z.to_N n), String c t')).
  { destruct (pretty (Z.to_N n)) as [|d s]; [done|]. pose proof Hd as [Hd1 _].
    rewrite append_cons. cbn [skip_spaces]. unfold isspace.
    rewrite (proj2 (Z.eqb_neq _ 32)), (proj2 (Z.leb_gt (ascii_val d) 13)) by lia.
    rewrite andb_false_r. cbn [orb]. rewrite <- append_cons. apply digit_prefix_all; [done|].
    unfold isdigit. by destruct Hc as [-> | ->]. }
  rewrite Hp. cbn [fst]. unfold string_empty. rewrite bool_decide_eq_false_2 by done.
  by rewrite Hs.
Qed.

(** ** What the validator counts *)

(** A log as it was written: the time of a call and what was logged. *)
Abbreviation Log := (list (string * LogEntry)).

(** The text of the log file: a line and a line break per call. *)
Fixpoint log_text (l : Log) : string :=
  match l with
  | [] => ""
  | (timestamp, e) :: l => log_line timestamp e +:+ String newline (log_text l)
  end.

Definition matches (l : Log) : Log := filter (λ p, log_event p.2 = "match_found"%string) l.

Definition match_sessions (l : Log) : list Z := omap (λ p, session_id (log_fields p.2)) (matches l).

Definition overflows (l : Log) : Log :=
  filter (λ p, log_event p.2 = "session_queue_overflow"%string) l.

Definition overflow_closings (l : Log) : Log :=
  filter (λ p, log_event p.2 = "session_disconnected"%string ∧
               reason (log_fields p.2) = Some "send queue overflow"%string) l.

Lemma printable_no_newline s : printable s → all_chars (λ ch, Ascii.eqb ch newline = false) s.
Proof.
  induction s as [|ch s IH]; [done|]. intros [Hch Hs]. split; [|by apply IH].
  apply eqb_val_ne. change (ascii_val newline) with 10. lia.
Qed.

Lemma getlines_line start line rest :
  all_chars (λ ch, Ascii.eqb ch newline = false) line →
  getlines start (line +:+ String newline rest) = (start +:+ line) :: getlines "" rest.
Proof.
  revert start. induction line as [|ch line IH]; intros start Hl.
  - rewrite append_nil_l, append_nil. cbn [getlines]. by rewrite Ascii.eqb_refl.
  - destruct Hl as [Hch Hl]. rewrite append_cons. cbn [getlines]. rewrite Hch.
    by rewrite IH, append_assoc.
Qed.

Lemma getlines_log l : getlines "" (log_text l) = (λ p, log_line p.1 p.2) <$> l.
Proof.
  induction l as [|[timestamp e] l IH]; [done|]. cbn [log_text fmap list_fmap fst snd].
  rewrite getlines_line, IH; [done|]. apply printable_no_newline, log_line_one_line.
Qed.

(** *** The fields of an entry *)

Lemma string_field_names key value : name key → Forall (λ f, name f.1) (string_field key value).
Proof. intros. unfold string_field. destruct value as [v|]; [destruct (string_empty v)|]; auto. Qed.

Lemma number_field_names key value : name key → Forall (λ f, name f.1) (number_field key value).
Proof. intros. unfold number_field. destruct value as [v|]; auto. Qed.

(** A concrete name. *)
Ltac a_name :=
  eexists _, _; split; [reflexivity|];
  split; [by vm_compute|]; repeat (split; [split_and!; by vm_compute|]); exact I.

Lemma entry_names timestamp e : Forall (λ f, name f.1) (entry_fields timestamp e).
Proof.
  unfold entry_fields. repeat (apply Forall_app; split).
  all: (apply string_field_names || apply number_field_names); a_name.
Qed.

Definition has_text (k v : string) (fields : list (string * field_value)) : bool :=
  existsb (λ f, bool_decide (k = f.1) && is_text v f.2) fields.

Lemma has_text_app k v a b : has_text k v (a ++ b) = has_text k v a || has_text k v b.
Proof. apply existsb_app. Qed.

Lemma has_text_string k v key value :
  v ≠ ""%string →
  has_text k v (string_field key value) = bool_decide (k = key) && bool_decide (value = Some v).
Proof.
  intros Hv. unfold string_field. destruct value as [u|].
  - unfold string_empty. destruct (bool_decide (u = ""%string)) eqn:E.
    + apply bool_decide_eq_true in E as ->.
      rewrite (bool_decide_eq_false_2 (Some _ = _)) by congruence. by rewrite andb_false_r.
    + cbn. rewrite orb_false_r. f_equal. apply bool_decide_ext. naive_solver.
  - by rewrite (bool_decide_eq_false_2 (None = _)), andb_false_r.
Qed.

Lemma has_text_number k v key value : has_text k v (number_field key value) = false.
Proof. destruct value; cbn; by rewrite ?andb_false_r. Qed.

Lemma contains_text k v timestamp e :
  name k → all_chars ordinary v →
  contains (text_field k v) (log_line timestamp e) = has_text k v (entry_fields timestamp e).
Proof. intros. rewrite log_line_fields. apply contains_field; [done..|apply entry_names]. Qed.

(** The values of the fields with name [k] remain. *)
Ltac only_field k :=
  unfold entry_fields; rewrite !has_text_app, !has_text_string, !has_text_number by done;
  rewrite !(bool_decide_eq_true_2 (k = k)) by done;
  repeat (rewrite (bool_decide_eq_false_2 (k = _)) by done);
  cbn [andb orb]; rewrite ?orb_false_r.

Lemma contains_event v timestamp e :
  all_chars ordinary v → v ≠ ""%string →
  contains (text_field "event" v) (log_line timestamp e) = bool_decide (log_event e = v).
Proof.
  intros Hv Hne. rewrite contains_text; [|a_name|done]. only_field "event"%string.
  apply bool_decide_ext. naive_solver.
Qed.

Lemma contains_reason v timestamp e :
  all_chars ordinary v → v ≠ ""%string →
  contains (text_field "reason" v) (log_line timestamp e) =
  bool_decide (reason (log_fields e) = Some v).
Proof.
  intros Hv Hne. rewrite contains_text; [|a_name|done]. by only_field "reason"%string.
Qed.

(** The fields before and after the session id. *)
Definition first_fields (timestamp : string) (e : LogEntry) : list (string * field_value) :=
  string_field "timestamp" (Some timestamp) ++ string_field "level" (Some (log_level e)) ++
  string_field "event" (Some (log_event e)) ++ string_field "message" (Some (log_message e)) ++
  string_field "trace_id" (trace_id (log_fields e)) ++
  string_field "session_trace_id" (session_trace_id (log_fields e)) ++
  string_field "request_trace_id" (request_trace_id (log_fields e)).

Definition last_fields (e : LogEntry) : list (string * field_value) :=
  number_field "packet_type" (packet_type (log_fields e)) ++
  number_field "protocol_version" (protocol_version (log_fields e)) ++
  number_field "bytes" (bytes (log_fields e)) ++
  string_field "user_id" (user_id (log_fields e)) ++
  string_field "reason" (reason (log_fields e)).

Lemma entry_fields_split timestamp e :
  entry_fields timestamp e =
  first_fields timestamp e ++ number_field "session_id" (session_id (log_fields e)) ++
  last_fields e.
Proof. unfold entry_fields, first_fields, last_fields. by rewrite <- !app_assoc. Qed.

Lemma string_field_key k key value : k ≠ key → k ∉ (string_field key value).*1.
Proof. unfold string_field. destruct value as [v|]; [destruct (string_empty v)|]; set_solver. Qed.

Lemma number_field_key k key value : k ≠ key → k ∉ (number_field key value).*1.
Proof. destruct value; set_solver. Qed.

Ltac other_keys :=
  rewrite ?fmap_app, ?not_elem_of_app; split_and?;
  (apply string_field_key || apply number_field_key); done.

Lemma first_fields_key timestamp e : "session_id"%string ∉ (first_fields timestamp e).*1.
Proof. unfold first_fields. other_keys. Qed.

Lemma last_fields_key e : "session_id"%string ∉ (last_fields e).*1.
Proof. unfold last_fields. other_keys. Qed.

Lemma parse_no_field k fields :
  name k → Forall (λ f, name f.1) fields → k ∉ fields.*1 →
  parseNumberField ("{" +:+ render fields "}") k = None.
Proof.
  intros Hk Hn Hf. unfold parseNumberField.
  change (quote +:+ k +:+ quote +:+ ":") with (pattern k "").
  rewrite find_skip by no_quotes.
  assert (E : find_after (pattern k "") (render fields "}") = None); [|by rewrite E].
  induction fields as [|f fields IH]; [done|]. rewrite find_fields by done.
  apply Forall_cons in Hn as [_ Hn]. cbn [fmap list_fmap] in Hf.
  apply not_elem_of_cons in Hf as [Hf Hfs]. rewrite bool_decide_eq_false_2 by done.
  cbn [andb]. destruct fields; [done|]. by apply IH.
Qed.

Lemma parse_session timestamp e :
  (∀ n, session_id (log_fields e) = Some n → 0 <= n < 2 ^ 64) →
  parseNumberField (log_line timestamp e) "session_id" = session_id (log_fields e).
Proof.
  intros Hrange. rewrite log_line_fields. pose proof (entry_names timestamp e) as Hn.
  rewrite entry_fields_split in *. destruct (session_id (log_fields e)) as [n|].
  - apply (parse_field "session_id" n); [a_name|done|apply first_fields_key|auto].
  - apply parse_no_field; [a_name|done|]. cbn [number_field app].
    rewrite fmap_app, not_elem_of_app. split; [apply first_fields_key|apply last_fields_key].
Qed.

(** *** The loop *)

Definition counted_results (l : Log) : ValidationResults := {|
  match_found_entries := u64 (Z.of_nat (length (matches l)));
  match_found_unique_sessions := 0;
  match_found_duplicates :=
    u64 (Z.of_nat (length (match_sessions l)) -
         Z.of_nat (size (list_to_set (match_sessions l) : gset Z)));
  queue_overflow_warnings := u64 (Z.of_nat (length (overflows l)));
  overflow_disconnects := u64 (Z.of_nat (length (overflow_closings l)));
  duplicate_check_passed := false;
  overflow_policy_logged := false |}.

Lemma u64_plus_one a b : b = a + 1 → u64 (u64 a + 1) = u64 b.
Proof. intros ->. apply wrap_add_l. Qed.

Lemma list_to_set_snoc (l : list Z) x :
  (list_to_set (l ++ [x]) : gset Z) = {[ x ]} ∪ list_to_set l.
Proof. apply leibniz_equiv. rewrite list_to_set_app. set_solver. Qed.

(** An entry of one kind only changes the counts of that kind. *)
Lemma filtered_out (P : string * LogEntry → Prop) `{∀ p, Decision (P p)} (l : Log) p :
  ¬ P p → filter P (l ++ [p]) = filter P l.
Proof. intros. rewrite filter_app, (filter_cons_False _ p) by done. apply app_nil_r. Qed.

Lemma filtered_in (P : string * LogEntry → Prop) `{∀ p, Decision (P p)} (l : Log) p :
  P p → filter P (l ++ [p]) = filter P l ++ [p].
Proof. intros. by rewrite filter_app, (filter_cons_True _ p) by done. Qed.

Lemma length_snoc {A} (l : list A) x : Z.of_nat (length (l ++ [x])) = Z.of_nat (length l) + 1.
Proof. rewrite length_app. cbn. lia. Qed.

Lemma validate_match_line l timestamp e :
  log_event e = "match_found"%string →
  (let '(results, seen) := (counted_results l, list_to_set (match_sessions l) : gset Z) in
   let results := results <| match_found_entries ::= λ n, u64 (n + 1) |> in
   match session_id (log_fields e) with
   | None => (results, seen)
   | Some session =>
     (if bool_decide (session ∈ seen)
      then results <| match_found_duplicates ::= λ n, u64 (n + 1) |> else results,
      {[ session ]} ∪ seen)
   end) =
  (counted_results (l ++ [(timestamp, e)]), list_to_set (match_sessions (l ++ [(timestamp, e)]))).
Proof.
  intros He. cbn [update_field]. unfold counted_results, match_sessions.
  assert (E1 : matches (l ++ [(timestamp, e)]) = matches l ++ [(timestamp, e)]) by by apply filtered_in.
  assert (E2 : overflows (l ++ [(timestamp, e)]) = overflows l).
  { apply filtered_out. cbn. by rewrite He. }
  assert (E3 : overflow_closings (l ++ [(timestamp, e)]) = overflow_closings l).
  { apply filtered_out. cbn. rewrite He. naive_solver. }
  rewrite E1, E2, E3, omap_app. fold (match_sessions l). set (ids := match_sessions l).
  cbn [omap list_omap snd]. destruct (session_id (log_fields e)) as [n|]; cbn.
  - rewrite list_to_set_snoc. f_equal. destruct (bool_decide (n ∈ _)) eqn:En.
    + apply bool_decide_eq_true in En. f_equal; [by rewrite length_snoc, wrap_add_l|].
      rewrite length_snoc, wrap_add_l. rewrite subseteq_union_1_L by set_solver. f_equal. lia.
    + apply bool_decide_eq_false in En. f_equal; [by rewrite length_snoc, wrap_add_l|].
      rewrite length_snoc, size_union by set_solver. rewrite size_singleton. f_equal. lia.
  - rewrite app_nil_r. f_equal. f_equal. by rewrite length_snoc, wrap_add_l.
Qed.

Lemma validate_log_line l timestamp e :
  (log_event e = "match_found"%string →
   ∀ n, session_id (log_fields e) = Some n → 0 <= n < 2 ^ 64) →
  validate_line (log_line timestamp e) (counted_results l, list_to_set (match_sessions l)) =
  (counted_results (l ++ [(timestamp, e)]), list_to_set (match_sessions (l ++ [(timestamp, e)]))).
Proof.
  intros Hrange. unfold validate_line.
  rewrite !contains_event, contains_reason
    by (try done; repeat (split; [split_and!; by vm_compute|]); exact I).
  destruct (decide (log_event e = "match_found"%string)) as [He|He].
  { rewrite bool_decide_eq_true_2, parse_session by auto. by apply validate_match_line. }
  rewrite bool_decide_eq_false_2 by done. unfold counted_results, match_sessions.
  assert (E1 : matches (l ++ [(timestamp, e)]) = matches l) by by apply filtered_out.
  rewrite E1. destruct (decide (log_event e = "session_queue_overflow"%string)) as [Ho|Ho].
  - rewrite bool_decide_eq_true_2 by done. cbn.
    assert (E2 : overflows (l ++ [(timestamp, e)]) = overflows l ++ [(timestamp, e)])
      by by apply filtered_in.
    assert (E3 : overflow_closings (l ++ [(timestamp, e)]) = overflow_closings l).
    { apply filtered_out. cbn. rewrite Ho. naive_solver. }
    by rewrite E2, E3, length_snoc, wrap_add_l.
  - rewrite bool_decide_eq_false_2 by done.
    assert (E2 : overflows (l ++ [(timestamp, e)]) = overflows l) by by apply filtered_out.
    rewrite E2. unfold overflow_closings.
    destruct (decide (log_event e = "session_disconnected"%string ∧
                      reason (log_fields e) = Some "send queue overflow"%string)) as [Hd|Hd].
    + rewrite filtered_in by exact Hd. destruct Hd as [Hd Hr].
      rewrite !bool_decide_eq_true_2 by done. cbn. by rewrite length_snoc, wrap_add_l.
    + rewrite filtered_out by exact Hd.
      replace (bool_decide _ && bool_decide _) with false; [done|].
      symmetry. apply andb_false_iff. rewrite !bool_decide_eq_false.
      destruct (decide (log_event e = "session_disconnected"%string)); naive_solver.
Qed.

(** The sessions of the matches have 64-bit ids. *)
Definition sessions_fit (l : Log) : Prop := Forall (in_width 64) (match_sessions l).

Lemma match_sessions_app a b : match_sessions (a ++ b) = match_sessions a ++ match_sessions b.
Proof. unfold match_sessions, matches. by rewrite filter_app, omap_app. Qed.

Lemma validate_lines_snoc lines line st :
  validate_lines (lines ++ [line]) st = validate_line line (validate_lines lines st).
Proof. revert st. induction lines as [|x lines IH]; intros st; [done|]. apply IH. Qed.

Lemma validate_log l :
  sessions_fit l →
  validate_lines ((λ p, log_line p.1 p.2) <$> l) (no_results, ∅) =
  (counted_results l, list_to_set (match_sessions l)).
Proof.
  unfold sessions_fit. induction l as [|[timestamp e] l IH] using rev_ind; [done|].
  rewrite match_sessions_app, Forall_app. intros [Hl He].
  rewrite fmap_app. change (_ <$> [(timestamp, e)]) with [log_line timestamp e].
  rewrite validate_lines_snoc, IH, <- match_sessions_app by done.
  apply validate_log_line. intros Hm n Hn.
  unfold match_sessions, matches in He. rewrite filter_cons_True in He by done.
  cbn in He. rewrite Hn in He. by apply Forall_cons in He as [? _].
Qed.

Lemma length_omap {A B} (f : A → option B) l : (length (omap f l) <= length l)%nat.
Proof. induction l as [|x l IH]; [done|]. cbn. destruct (f x); cbn; lia. Qed.

Lemma size_list_to_set (l : list Z) :
  Z.of_nat (size (list_to_set l : gset Z)) <= Z.of_nat (length l) ∧
  (Z.of_nat (size (list_to_set l : gset Z)) = Z.of_nat (length l) ↔ NoDup l).
Proof.
  induction l as [|x l [IH1 IH2]]; [split; [done|split; [constructor|done]]|].
  cbn [list_to_set length]. destruct (decide (x ∈ l)) as [Hx|Hx].
  - rewrite subseteq_union_1_L by (rewrite singleton_subseteq_l; set_solver).
    split; [lia|]. split; [lia|]. by intros [? _]%NoDup_cons.
  - rewrite size_union by set_solver. rewrite size_singleton, NoDup_cons, <- IH2. split; [lia|].
    split; [intros; split; [done|lia]|intros [_ ?]; lia].
Qed.

(** What the validator makes of the log of some calls. *)
Definition exact_results (l : Log) : ValidationResults := {|
  match_found_entries := Z.of_nat (length (matches l));
  match_found_unique_sessions := Z.of_nat (size (list_to_set (match_sessions l) : gset Z));
  match_found_duplicates := Z.of_nat (length (match_sessions l)) -
    Z.of_nat (size (list_to_set (match_sessions l) : gset Z));
  queue_overflow_warnings := Z.of_nat (length (overflows l));
  overflow_disconnects := Z.of_nat (length (overflow_closings l));
  duplicate_check_passed := bool_decide (NoDup (match_sessions l));
  overflow_policy_logged := bool_decide (overflows l ++ overflow_closings l ≠ []) |}.

Lemma validate_file files log_path l :
  log_path ≠ ""%string → files log_path = Some (log_text l) →
  sessions_fit l → Z.of_nat (length l) < 2 ^ 64 →
  validateLogs files log_path = exact_results l.
Proof.
  intros Hp Hf Hfit Hlen. unfold validateLogs, string_empty, exact_results.
  rewrite bool_decide_eq_false_2, Hf, getlines_log, validate_log by done.
  pose proof (size_list_to_set (match_sessions l)) as [Hsize Hdup].
  assert (Hm : (length (matches l) <= length l)%nat) by apply length_filter.
  assert (Ho : (length (overflows l) <= length l)%nat) by apply length_filter.
  assert (Hc : (length (overflow_closings l) <= length l)%nat) by apply length_filter.
  assert (Hids : (length (match_sessions l) <= length (matches l))%nat) by apply length_omap.
  unfold counted_results. cbn. rewrite !wrap_small by lia. f_equal.
  - apply eq_bool_prop_intro. rewrite bool_decide_spec, Is_true_true, Z.eqb_eq, <- Hdup. lia.
  - apply eq_bool_prop_intro. rewrite bool_decide_spec, Is_true_true, orb_true_iff, !Z.ltb_lt.
    destruct (overflows l), (overflow_closings l); cbn; split; (done || lia || auto with lia).
Qed.

(** ** Property *)

(** C40: the validator of the load simulation reads exactly what the server logged. From the
    text of a log of any calls - with messages, user ids and reasons of any content - it
    counts the [match_found] entries, the sessions in them that are different, the
    repeated ones, the overflow warnings, and the closings for overflow; its checks pass
    exactly when no session was matched twice, and when an overflow was logged. *)
Theorem validator_reads_log files log_path l :
  log_path ≠ ""%string → files log_path = Some (log_text l) →
  sessions_fit l → Z.of_nat (length l) < 2 ^ 64 →
  validateLogs files log_path = {|
    match_found_entries := Z.of_nat (length (matches l));
    match_found_unique_sessions := Z.of_nat (size (list_to_set (match_sessions l) : gset Z));
    match_found_duplicates := Z.of_nat (length (match_sessions l)) -
      Z.of_nat (size (list_to_set (match_sessions l) : gset Z));
    queue_overflow_warnings := Z.of_nat (length (overflows l));
    overflow_disconnects := Z.of_nat (length (overflow_closings l));
    duplicate_check_passed := bool_decide (NoDup (match_sessions l));
    overflow_policy_logged := bool_decide (overflows l ++ overflow_closings l ≠ []) |}.
Proof. apply validate_file. Qed.

(** Two matches of the same session, one of them for a user whose id imitates a field, a
    chat message that names an event, and a closing for overflow. *)
Definition sample_log : Log :=
  let entry event session user why :=
    {| log_level := "info"; log_event := event; log_message := text_field "event" "match_found";
       log_fields := no_fields <| session_id := Some session |> <| user_id := Some user |>
                               <| reason := Some why |> |} in
  [("t0", entry "match_found" 7 "ann" "Match found");
   ("t1", entry "match_found" 7 (quote +:+ "," +:+ text_field "event" "session_queue_overflow")
            "Match found");
   ("t2", entry "chat_sent" 8 "bob" (text_field "event" "match_found"));
   ("t3", entry "session_disconnected" 8 "bob" "send queue overflow")]%string.

Lemma validator_reads_log_witness :
  validateLogs (λ _, Some (log_text sample_log)) "run.log" = {|
    match_found_entries := 2; match_found_unique_sessions := 1; match_found_duplicates := 1;
    queue_overflow_warnings := 0; overflow_disconnects := 1;
    duplicate_check_passed := false; overflow_policy_logged := true |}.
Proof.
  etransitivity; [apply (validator_reads_log (λ _, Some (log_text sample_log)) "run.log" sample_log)|
    by vm_compute].
  - done.
  - done.
  - unfold sessions_fit. assert (E : match_sessions sample_log = [7; 7]) by by vm_compute.
    rewrite E. by repeat (apply List.Forall_cons; [by vm_compute|]).
  - by vm_compute.
Defined.
