(* ===== verification/Auth.v ===== *)
(** * Session tokens (src/src/net/auth.h, auth.cpp)

    Times are counts of nanoseconds of the steady clock. The draws of the Mersenne
    twister through [dist_] (bytes) are an input of [issueToken]. *)

From S2P Require Import Prelude Logging.

Record TokenRecord := {
  TokenRecord_user_id : string;
  TokenRecord_expires_at : Z
}.

Record TokenService := {
  tokens : gmap string TokenRecord;
  ttl : Z  (* seconds *)
}.

#[export] Instance TokenService_rebuild : Rebuild TokenService :=
  λ s, {| tokens := tokens s; ttl := ttl s |}.

Definition new_TokenService (ttl : Z) : TokenService := {| tokens := ∅; ttl := ttl |}.

(** Sixteen draws, each printed as two upper-case hexadecimal digits. *)
Definition generateToken (draws : list Z) : string :=
  foldr (λ value out, hex_byte true value +:+ out) "" (take 16 draws).

Definition issueToken (user_id : string) (now : Z) (draws : list Z) (s : TokenService)
    : string * TokenService :=
  let token := generateToken draws in
  (token, s <| tokens ::= <[token := {| TokenRecord_user_id := user_id;
                                        TokenRecord_expires_at := now + ttl s * ns_per_second |}]> |>).

(** The user id written to the out parameter when the token is valid. *)
Definition validateToken (token : string) (now : Z) (s : TokenService)
    : option string * TokenService :=
  match tokens s !! token with
  | None => (None, s)
  | Some record =>
    if TokenRecord_expires_at record <=? now then (None, s <| tokens ::= delete token |>)
    else (Some (TokenRecord_user_id record), s)
  end.

(** ** Histories *)

Inductive TokenOp :=
  | Issue (user_id : string) (now : Z) (draws : list Z)
  | Validate (token : string) (now : Z).

Definition run_op (s : TokenService) (op : TokenOp) : TokenService :=
  match op with
  | Issue user_id now draws => (issueToken user_id now draws s).2
  | Validate token now => (validateToken token now s).2
  end.

Definition run_ops (ttl : Z) (ops : list TokenOp) : TokenService :=
  foldl run_op (new_TokenService ttl) ops.

Lemma validateToken_some token now s user :
  (validateToken token now s).1 = Some user →
  ∃ record, tokens s !! token = Some record ∧ TokenRecord_user_id record = user ∧
            now < TokenRecord_expires_at record.
Proof.
  unfold validateToken. destruct (tokens s !! token) as [r|] eqn:E; [|done].
  destruct (_ <=? _) eqn:L; [done|]. intros [= <-]. apply Z.leb_gt in L. eauto.
Qed.

Lemma run_ops_ttl t ops : ttl (run_ops t ops) = t.
Proof.
  unfold run_ops. induction ops as [|op ops IH] using rev_ind; [done|].
  rewrite foldl_app. cbn [foldl]. destruct op; cbn.
  - done.
  - unfold validateToken. repeat case_match; done.
Qed.

(** Every record in the table was put there by an [issueToken] of the history. *)
Lemma run_ops_issued t ops token record :
  tokens (run_ops t ops) !! token = Some record →
  ∃ now draws, Issue (TokenRecord_user_id record) now draws ∈ ops ∧
    generateToken draws = token ∧
    TokenRecord_expires_at record = now + t * ns_per_second.
Proof.
  induction ops as [|op ops IH] using rev_ind; intros E; [done|].
  assert (IH' : tokens (run_ops t ops) !! token = Some record → ∃ now draws,
    Issue (TokenRecord_user_id record) now draws ∈ ops ++ [op] ∧
    generateToken draws = token ∧
    TokenRecord_expires_at record = now + t * ns_per_second).
  { intros H. destruct (IH H) as (? & ? & ? & ? & ?). eexists _, _.
    split_and!; [|done|done]. set_solver. }
  pose proof (run_ops_ttl t ops) as Ht.
  unfold run_ops in *. rewrite foldl_app in E. cbn [foldl] in E.
  destruct op as [user now draws|token' now]; cbn in E.
  - destruct (decide (generateToken draws = token)) as [<-|].
    + rewrite lookup_insert_eq in E. injection E as <-. exists now, draws. cbn.
      rewrite Ht. set_solver.
    + rewrite lookup_insert_ne in E by done. auto.
  - unfold validateToken in E. repeat case_match; cbn in E; auto.
    apply lookup_delete_Some in E as [_ E]. auto.
Qed.

(** ** Properties *)

(** A token is accepted, for the user it was issued to, until its time to live has
    passed; from then on it is refused and forgotten. Other tokens are not touched. *)
Theorem token_lifetime s user now draws later :
  let '(token, s') := issueToken user now draws s in
  (later < now + ttl s * ns_per_second →
     validateToken token later s' = (Some user, s')) ∧
  (now + ttl s * ns_per_second <= later →
     (validateToken token later s').1 = None ∧
     tokens (validateToken token later s').2 !! token = None ∧
     ∀ other, other ≠ token →
       tokens (validateToken token later s').2 !! other = tokens s !! other).
Proof.
  unfold issueToken, validateToken. cbn [tokens update_field].
  rewrite lookup_insert_eq. cbn [TokenRecord_expires_at TokenRecord_user_id].
  split; intros H.
  - by rewrite (proj2 (Z.leb_gt _ _)).
  - rewrite (proj2 (Z.leb_le _ _)) by done. cbn [fst snd tokens update_field].
    split_and!; [done|by rewrite lookup_delete_eq|].
    intros. by rewrite lookup_delete_ne, lookup_insert_ne.
Qed.

(** C33: no token is accepted that was not issued: whenever a token is valid at time [t] for
    a user, the history holds an [issueToken] for that user which produced it less than
    the time to live before [t]. *)
Theorem accepted_token_was_issued t ops token now user :
  (validateToken token now (run_ops t ops)).1 = Some user →
  ∃ issued draws, Issue user issued draws ∈ ops ∧ generateToken draws = token ∧
    now < issued + t * ns_per_second.
Proof.
  intros (record & E & <- & Hlt)%validateToken_some.
  destruct (run_ops_issued _ _ _ _ E) as (issued & draws & ? & ? & Hexp).
  exists issued, draws. by rewrite <- Hexp.
Qed.

Lemma accepted_token_was_issued_witness :
  ∃ issued draws,
    Issue "alice" issued draws ∈ [Issue "alice" 5 [171; 205]; Validate "FF" 6] ∧
    generateToken draws = "ABCD"%string ∧ 10 < issued + 300 * ns_per_second.
Proof. apply accepted_token_was_issued. vm_compute. reflexivity. Defined.
