(* ===== verification/Session.v ===== *)
(** * Sessions (src/src/net/session.h, session.cpp)

    One connection: liveness and heartbeat times, the rate-limited outgoing queue,
    the logged-in user, the last sequence number and the cache of recent nonces.
    Times are nanoseconds of the steady clock, configured durations milliseconds.
    Operations that log return the entries they log. *)

From S2P Require Import Prelude Float Logging Auth.

Inductive OverflowPolicy := DropNewest | DropOldest | Disconnect.

Record SessionConfig := {
  heartbeat_interval : Z;
  timeout : Z;
  send_queue_limit_bytes : Z;
  overflow_policy : OverflowPolicy;
  rate_limit_capacity : double;
  rate_limit_refill_per_sec : double;
  nonce_cache_limit : Z
}.

Definition default_SessionConfig : SessionConfig := {|
  heartbeat_interval := 15000;
  timeout := 45000;
  send_queue_limit_bytes := 262144;
  overflow_policy := DropNewest;
  rate_limit_capacity := d_of_Z 65536;
  rate_limit_refill_per_sec := d_of_Z 32768;
  nonce_cache_limit := 64 |}.

(** ** Token bucket *)

Record TokenBucket := {
  capacity : double;
  bucket_tokens : double;
  refill_rate : double;
  last_refill : Z
}.

#[export] Instance TokenBucket_rebuild : Rebuild TokenBucket := λ b, {|
  capacity := capacity b; bucket_tokens := bucket_tokens b; refill_rate := refill_rate b;
  last_refill := last_refill b |}.

Definition consume (amount : double) (now : Z) (b : TokenBucket) : bool * TokenBucket :=
  let elapsed := seconds_of_ns (now - last_refill b) in
  let tokens := d_min (capacity b) (d_add (bucket_tokens b) (d_mul elapsed (refill_rate b))) in
  let b := b <| bucket_tokens := tokens |> <| last_refill := now |> in
  if d_leb amount tokens then (true, b <| bucket_tokens := d_sub tokens amount |>)
  else (false, b).

(** ** Session *)

Record UserContext := { UserContext_user_id : string; UserContext_token : string }.

Record Session := {
  id : Z;
  config : SessionConfig;
  bucket : TokenBucket;
  connected : bool;
  last_activity : Z;
  last_receive : Z;
  last_heartbeat : Z;
  send_queue : list (list byte);
  send_queue_bytes : Z;
  userContext : option UserContext;
  session_trace : string;
  protocolVersion : Z;
  lastSeq : Z;
  nonce_cache : gset Z;
  nonce_order : list Z;
  tlsEstablished : bool;
  tlsHandshakeTime : Z
}.

#[export] Instance Session_rebuild : Rebuild Session := λ s, {|
  id := id s; config := config s; bucket := bucket s; connected := connected s;
  last_activity := last_activity s; last_receive := last_receive s;
  last_heartbeat := last_heartbeat s; send_queue := send_queue s;
  send_queue_bytes := send_queue_bytes s; userContext := userContext s;
  session_trace := session_trace s; protocolVersion := protocolVersion s;
  lastSeq := lastSeq s; nonce_cache := nonce_cache s; nonce_order := nonce_order s;
  tlsEstablished := tlsEstablished s; tlsHandshakeTime := tlsHandshakeTime s |}.

(** The constructor; [trace] is the trace id it generates. *)
Definition new_Session (id : Z) (config : SessionConfig) (now : Z) (trace : string) : Session := {|
  id := id;
  config := config;
  bucket := {| capacity := rate_limit_capacity config;
               bucket_tokens := rate_limit_capacity config;
               refill_rate := rate_limit_refill_per_sec config;
               last_refill := now |};
  connected := true;
  last_activity := now;
  last_receive := now;
  last_heartbeat := now;
  send_queue := [];
  send_queue_bytes := 0;
  userContext := None;
  session_trace := trace;
  protocolVersion := 0;
  lastSeq := 0;
  nonce_cache := ∅;
  nonce_order := [];
  tlsEstablished := false;
  tlsHandshakeTime := 0 |}.

Definition onReceive (now : Z) (s : Session) : Session :=
  s <| last_receive := now |> <| last_activity := now |>.

Definition session_log (level event message : string) (f : LogFields → LogFields)
    (s : Session) : LogEntry := {|
  log_level := level; log_event := event; log_message := message;
  log_fields := f (no_fields <| session_id := Some (id s) |>
                             <| session_trace_id := Some (session_trace s) |>) |}.

Definition disconnect (why : string) (s : Session) : Session * list LogEntry :=
  if connected s then
    (s <| connected := false |>,
     [session_log "info" "session_disconnected" "Session disconnected"
        (λ f, f <| reason := Some why |>) s])
  else (s, []).

(** [payload.size()] *)
Definition payload_size (payload : list byte) : Z := Z.of_nat (length payload).

(** The loop of [OverflowPolicy::DropOldest]: drop from the front while the queue is
    not empty and the next size is over the limit. *)
Fixpoint drop_oldest (limit next_size bytes : Z) (queue : list (list byte))
    : Z * Z * list (list byte) :=
  match queue with
  | [] => (next_size, bytes, [])
  | front :: rest =>
    if limit <? next_size then
      drop_oldest limit (u64 (next_size - payload_size front))
        (u64 (bytes - payload_size front)) rest
    else (next_size, bytes, queue)
  end.

(** The last three statements of [enqueueSend]. *)
Definition push_send (payload : list byte) (next_size now : Z) (s : Session) : Session :=
  s <| send_queue_bytes := next_size |>
    <| send_queue ::= λ q, q ++ [payload] |>
    <| last_activity := now |>.

Definition enqueueSend (payload : list byte) (now : Z) (s : Session)
    : bool * Session * list LogEntry :=
  if negb (connected s) then (false, s, [])
  else
    let '(granted, b) := consume (d_of_Z (payload_size payload)) now (bucket s) in
    let s := s <| bucket := b |> in
    if negb granted then
      (false, s, [session_log "warn" "session_rate_limited" "Session rate limited"
                    (λ f, f <| bytes := Some (payload_size payload) |>) s])
    else
      let next_size := u64 (send_queue_bytes s + payload_size payload) in
      let limit := send_queue_limit_bytes (config s) in
      if limit <? next_size then
        match overflow_policy (config s) with
        | Disconnect => let '(s, logs) := disconnect "send queue overflow" s in (false, s, logs)
        | DropOldest =>
          let '(next_size, bytes, queue) :=
            drop_oldest limit next_size (send_queue_bytes s) (send_queue s) in
          (true, push_send payload next_size now
                   (s <| send_queue_bytes := bytes |> <| send_queue := queue |>), [])
        | DropNewest =>
          (false, s, [session_log "warn" "session_queue_overflow"
                        "Session send queue overflow"
                        (λ f, f <| bytes := Some (payload_size payload) |>) s])
        end
      else (true, push_send payload next_size now s, []).

Definition shouldSendHeartbeat (now : Z) (s : Session) : bool :=
  connected s && (heartbeat_interval (config s) * ns_per_ms <=? now - last_heartbeat s).

Definition markHeartbeatSent (now : Z) (s : Session) : Session := s <| last_heartbeat := now |>.

Definition tick_session (now : Z) (s : Session) : bool * Session * list LogEntry :=
  if negb (connected s) then (false, s, [])
  else
    let '(s, logs) :=
      if timeout (config s) * ns_per_ms <=? now - last_receive s
      then disconnect "timeout" s else (s, []) in
    (connected s, s, logs).

Definition queuedBytes (s : Session) : Z := send_queue_bytes s.

Definition attachUserContext (context : UserContext) (s : Session) : Session :=
  s <| userContext := Some context |>.

Definition clearUserContext (s : Session) : Session := s <| userContext := None |>.

Definition setProtocolVersion (version : Z) (s : Session) : Session :=
  s <| protocolVersion := version |>.

Definition setLastSeq (last_seq : Z) (s : Session) : Session := s <| lastSeq := last_seq |>.

(** [while (nonce_order_.size() > config_.nonce_cache_limit)] drop the oldest. *)
Fixpoint evict_nonces (limit : Z) (order : list Z) (cache : gset Z) : list Z * gset Z :=
  match order with
  | [] => ([], cache)
  | oldest :: rest =>
    if limit <? Z.of_nat (length order) then evict_nonces limit rest (cache ∖ {[oldest]})
    else (order, cache)
  end.

Definition recordNonce (nonce : Z) (s : Session) : bool * Session :=
  if bool_decide (nonce ∈ nonce_cache s) then (false, s)
  else
    let '(order, cache) := evict_nonces (nonce_cache_limit (config s))
                             (nonce_order s ++ [nonce]) ({[nonce]} ∪ nonce_cache s) in
    (true, s <| nonce_order := order |> <| nonce_cache := cache |>).

Definition markTlsEstablished (handshake_time : Z) (s : Session) : Session :=
  s <| tlsEstablished := true |> <| tlsHandshakeTime := handshake_time |>.

Definition dequeueSend (s : Session) : option (list byte) * Session :=
  match send_queue s with
  | [] => (None, s)
  | payload :: rest =>
    (Some payload, s <| send_queue_bytes := u64 (send_queue_bytes s - payload_size payload) |>
                     <| send_queue := rest |>)
  end.

(** ** The outgoing queue *)

Definition queue_sum (queue : list (list byte)) : Z := sum_Z (payload_size <$> queue).

(** The byte counter is the size of the queue, and stays away from the top of
    [std::size_t]. *)
Definition queue_ok (s : Session) : Prop :=
  send_queue_bytes s = queue_sum (send_queue s) ∧ queue_sum (send_queue s) < 2 ^ 63.

Lemma queue_sum_nonneg queue : 0 <= queue_sum queue.
Proof.
  apply sum_Z_nonneg, Forall_fmap, Forall_true. intros p. unfold payload_size. simpl. lia.
Qed.

Lemma queue_sum_app a b : queue_sum (a ++ b) = queue_sum a + queue_sum b.
Proof. unfold queue_sum. by rewrite fmap_app, sum_Z_app. Qed.

Lemma queue_sum_cons p q : queue_sum (p :: q) = payload_size p + queue_sum q.
Proof. done. Qed.

Lemma payload_size_nonneg p : 0 <= payload_size p.
Proof. unfold payload_size. lia. Qed.

#[export] Hint Resolve queue_sum_nonneg payload_size_nonneg : hub.

(** What the dropping loop leaves: a suffix of the queue, its size, and a next size
    within the limit unless everything was dropped. *)
Lemma drop_oldest_spec limit n queue next bytes queue' :
  0 <= n < 2 ^ 63 → queue_sum queue < 2 ^ 63 →
  drop_oldest limit (queue_sum queue + n) (queue_sum queue) queue = (next, bytes, queue') →
  ∃ dropped, queue = dropped ++ queue' ∧ bytes = queue_sum queue' ∧
    next = queue_sum queue' + n ∧ (queue' = [] ∨ next <= limit).
Proof.
  intros Hn. induction queue as [|front rest IH]; intros Hq; cbn [drop_oldest].
  - intros [= <- <- <-]. exists []. cbn. split_and!; auto.
  - rewrite queue_sum_cons in *.
    pose proof (queue_sum_nonneg rest). pose proof (payload_size_nonneg front).
    destruct (limit <? _) eqn:E.
    + rewrite !wrap_small by lia.
      replace (payload_size front + queue_sum rest + n - payload_size front)
        with (queue_sum rest + n) by lia.
      replace (payload_size front + queue_sum rest - payload_size front)
        with (queue_sum rest) by lia.
      intros Hd. destruct IH as (dropped & -> & ? & ? & ?); [lia|done|].
      exists (front :: dropped). auto.
    + intros [= <- <- <-]. exists []. rewrite queue_sum_cons. bool_props.
      split_and!; auto; lia.
Qed.

Lemma consume_le_capacity amount now b :
  is_nan (capacity b) = false →
  d_leb amount (capacity b) = false → (consume amount now b).1 = false.
Proof.
  intros Hc Ha. unfold consume. cbn [capacity update_field].
  destruct (d_leb amount (d_min _ _)) eqn:E; [|done].
  enough (d_leb amount (capacity b) = true) by congruence.
  eapply d_leb_trans; [exact E|]. by apply d_min_le_l.
Qed.

(** ** The nonce cache *)

Definition nonces_ok (s : Session) : Prop :=
  NoDup (nonce_order s) ∧ nonce_cache s = list_to_set (nonce_order s) ∧
  Z.of_nat (length (nonce_order s)) <= nonce_cache_limit (config s).

Lemma evict_nonces_drop limit order cache :
  0 <= limit →
  let k := (length order - Z.to_nat limit)%nat in
  evict_nonces limit order cache = (drop k order, cache ∖ list_to_set (take k order)).
Proof.
  intros Hl. revert cache. induction order as [|x order IH]; intros cache.
  { cbn. f_equal. set_solver. }
  cbn [evict_nonces]. destruct (limit <? _) eqn:E; bool_props.
  - rewrite IH. cbn [length] in *.
    replace (S (length order) - Z.to_nat limit)%nat
      with (S (length order - Z.to_nat limit)) by lia.
    cbn [drop take list_to_set]. f_equal. set_solver.
  - replace (length (x :: order) - Z.to_nat limit)%nat with O by lia.
    cbn [drop take list_to_set]. f_equal. set_solver.
Qed.

(** A nonce that is recorded goes to the end of a suffix of the order. *)
Lemma recordNonce_spec nonce s :
  nonces_ok s → 0 <= nonce_cache_limit (config s) →
  let '(accepted, s') := recordNonce nonce s in
  nonces_ok s' ∧ config s' = config s ∧
  accepted = negb (bool_decide (nonce ∈ nonce_order s)) ∧
  nonce_order s' =
    if accepted
    then drop (S (length (nonce_order s)) - Z.to_nat (nonce_cache_limit (config s)))
              (nonce_order s ++ [nonce])
    else nonce_order s.
Proof.
  intros (Hnd & Hc & Hlen) Hl. unfold recordNonce.
  assert (Hin : nonce ∈ nonce_cache s ↔ nonce ∈ nonce_order s).
  { rewrite Hc. apply elem_of_list_to_set. }
  case_bool_decide as Hcase.
  - rewrite bool_decide_eq_true_2 by tauto. done.
  - rewrite (bool_decide_eq_false_2 (_ ∈ nonce_order s)) by tauto.
    rewrite evict_nonces_drop by done. cbn [negb].
    rewrite length_app. cbn [length]. rewrite Nat.add_1_r.
    set (k := (S (length (nonce_order s)) - _)%nat).
    unfold nonces_ok. cbn [nonce_order nonce_cache config update_field].
    assert (Hnd' : NoDup (nonce_order s ++ [nonce])).
    { apply NoDup_app. split_and!; [done| |apply NoDup_singleton]. set_solver. }
    rewrite <- (take_drop k (nonce_order s ++ [nonce])) in Hnd'.
    apply NoDup_app in Hnd' as (Ht & Hdisj & Hd).
    split_and!; try done.
    + rewrite Hc.
      assert (X : {[nonce]} ∪ list_to_set (nonce_order s) =
                  (list_to_set (nonce_order s ++ [nonce]) : gset Z)).
      { rewrite list_to_set_app_L. set_solver. }
      rewrite X, <- (take_drop k (nonce_order s ++ [nonce])) at 1.
      rewrite list_to_set_app_L. apply set_eq. intros x.
      rewrite elem_of_difference, elem_of_union, !elem_of_list_to_set.
      specialize (Hdisj x). tauto.
    + rewrite length_drop, length_app. cbn [length]. subst k. lia.
Qed.

Definition record_all (nonces : list Z) (s : Session) : Session :=
  foldl (λ s n, (recordNonce n s).2) s nonces.

(** Recording [k] more nonces leaves at most [k] nonces after one that is cached,
    as long as they all fit the cache. *)
Lemma record_all_keeps nonces s pre n post :
  nonces_ok s → 0 <= nonce_cache_limit (config s) →
  nonce_order s = pre ++ n :: post →
  Z.of_nat (length post + length nonces) < nonce_cache_limit (config s) →
  n ∈ nonce_order (record_all nonces s) ∧ nonces_ok (record_all nonces s) ∧
  config (record_all nonces s) = config s.
Proof.
  revert s pre post. induction nonces as [|m nonces IH]; intros s pre post Hok Hl Ho Hlen.
  - cbn. rewrite Ho. set_solver.
  - cbn [record_all foldl]. pose proof (recordNonce_spec m s Hok Hl) as Hs.
    destruct (recordNonce m s) as [accepted s'] eqn:E. cbn [snd].
    destruct Hs as (Hok' & Hc & _ & Ho').
    assert (X : ∃ pre' post', nonce_order s' = pre' ++ n :: post' ∧
              (length post' <= S (length post))%nat).
    { rewrite Ho'. destruct accepted; [|eexists _, _; split; [done|lia]].
      rewrite Ho, <- app_assoc. cbn [app]. cbn [length] in Hlen.
      rewrite length_app in *. cbn [length].
      rewrite drop_app_le by lia.
      eexists _, (post ++ [m]). split; [done|]. rewrite length_app. cbn [length]. lia. }
    destruct X as (pre' & post' & Ho'' & Hp).
    cbn [length] in Hlen. rewrite <- Hc.
    apply (IH s' pre' post'); [done|by rewrite Hc|done|]. rewrite Hc. lia.
Qed.

(** ** Properties *)

(** C28: the send queue is accounted exactly and stays bounded. Queueing a payload keeps the
    byte counter equal to the size of the queue; a refused payload leaves the queue
    alone; an accepted one goes to its end, after dropping from the front only under
    [DropOldest], and the queue never exceeds the limit or, under [DropOldest], the
    payload itself when that alone is larger. *)
Theorem enqueueSend_queue payload now s :
  queue_ok s → payload_size payload < 2 ^ 63 →
  0 <= send_queue_limit_bytes (config s) < 2 ^ 63 →
  let '(sent, s', _) := enqueueSend payload now s in
  queue_ok s' ∧ queuedBytes s' = queue_sum (send_queue s') ∧
  if sent then
    ∃ dropped kept, send_queue s = dropped ++ kept ∧ send_queue s' = kept ++ [payload] ∧
      (overflow_policy (config s) ≠ DropOldest →
         dropped = [] ∧ queuedBytes s' <= send_queue_limit_bytes (config s)) ∧
      queuedBytes s' <= Z.max (send_queue_limit_bytes (config s)) (payload_size payload)
  else send_queue s' = send_queue s.
Proof.
  intros [Hb Hq] Hp Hl. unfold enqueueSend, queuedBytes, queue_ok.
  pose proof (queue_sum_nonneg (send_queue s)). pose proof (payload_size_nonneg payload).
  destruct (connected s); [|done]. cbn [negb].
  destruct (consume _ now (bucket s)) as [granted b]. cbn [send_queue_bytes config update_field].
  destruct granted; [|done]. cbn [negb].
  rewrite Hb, wrap_small by lia.
  destruct (_ <? _) eqn:E; bool_props.
  2:{ unfold push_send. cbn -[queue_sum]. rewrite queue_sum_app. cbn [queue_sum sum_Z].
      split_and!; try (cbn; lia). exists [], (send_queue s). split_and!; try done; cbn; lia. }
  destruct (overflow_policy (config s)) eqn:Epol; [done| |].
  2:{ unfold disconnect. cbn [connected update_field]. by destruct (connected s). }
  cbn [send_queue update_field].
  destruct (drop_oldest _ _ _ _) as [[next bytes'] kept] eqn:Ed.
  apply drop_oldest_spec in Ed as (dropped & Eq & -> & -> & Hnext); [|lia|done].
  unfold push_send. cbn -[queue_sum]. rewrite queue_sum_app, queue_sum_cons.
  pose proof (queue_sum_nonneg kept). change (queue_sum []) with 0. rewrite Z.add_0_r.
  assert (queue_sum kept + payload_size payload <=
          Z.max (send_queue_limit_bytes (config s)) (payload_size payload)).
  { destruct Hnext as [->|]; [change (queue_sum []) with 0|]; lia. }
  split_and!; try lia. exists dropped, kept. split_and!; try done; lia.
Qed.

Definition sample_Session (policy : OverflowPolicy) (limit : Z) : Session :=
  new_Session 1 {| heartbeat_interval := 15000; timeout := 45000;
                   send_queue_limit_bytes := limit; overflow_policy := policy;
                   rate_limit_capacity := d_of_Z 65536;
                   rate_limit_refill_per_sec := d_of_Z 32768; nonce_cache_limit := 2 |} 0 "t".

Lemma enqueueSend_queue_witness :
  let '(sent, s', _) := enqueueSend [Byte.x01; Byte.x02] 10 (sample_Session DropNewest 4) in
  queue_ok s' ∧ queuedBytes s' = queue_sum (send_queue s') ∧
  if sent then
    ∃ dropped kept, send_queue (sample_Session DropNewest 4) = dropped ++ kept ∧
      send_queue s' = kept ++ [[Byte.x01; Byte.x02]] ∧
      (overflow_policy (config (sample_Session DropNewest 4)) ≠ DropOldest →
         dropped = [] ∧
         queuedBytes s' <= send_queue_limit_bytes (config (sample_Session DropNewest 4))) ∧
      queuedBytes s' <= Z.max (send_queue_limit_bytes (config (sample_Session DropNewest 4)))
                          (payload_size [Byte.x01; Byte.x02])
  else send_queue s' = send_queue (sample_Session DropNewest 4).
Proof.
  apply enqueueSend_queue; [by split; vm_compute|by vm_compute|].
  split; by vm_compute.
Defined.

(** [send_queue_limit_bytes] is not a limit under [DropOldest]: a payload larger than
    the limit empties the queue and is then queued all the same. *)
Theorem drop_oldest_exceeds_limit :
  let s := sample_Session DropOldest 2 in
  let '(sent, s', _) := enqueueSend [Byte.x01; Byte.x02; Byte.x03] 0 s in
  sent = true ∧ queuedBytes s' = 3 ∧ send_queue_limit_bytes (config s') = 2.
Proof. vm_compute. done. Qed.

(** Rate limiting: a payload larger than the bucket's capacity is never sent, however
    long the session has been silent, and the queue is left as it was. *)
Theorem oversized_payload_rate_limited payload now s :
  is_nan (capacity (bucket s)) = false →
  d_leb (d_of_Z (payload_size payload)) (capacity (bucket s)) = false →
  let '(sent, s', _) := enqueueSend payload now s in
  sent = false ∧ send_queue s' = send_queue s ∧ connected s' = connected s.
Proof.
  intros Hn Hc. unfold enqueueSend. destruct (connected s) eqn:E; [|done]. cbn [negb].
  pose proof (consume_le_capacity _ now _ Hn Hc) as Hr.
  destruct (consume _ now (bucket s)) as [granted b]. cbn in Hr. by subst.
Qed.

Lemma oversized_payload_rate_limited_witness :
  let s := sample_Session DropNewest 4 in
  let payload := repeat Byte.x00 (Z.to_nat 65537) in
  let '(sent, s', _) := enqueueSend payload 1000 s in
  sent = false ∧ send_queue s' = send_queue s ∧ connected s' = connected s.
Proof. apply oversized_payload_rate_limited; vm_compute; reflexivity. Defined.

(** C29: replayed nonces are caught within the cache's window: once a nonce was accepted, it
    is refused again as long as fewer than [nonce_cache_limit] further nonces were
    offered in between. *)
Theorem nonce_replay_window nonce nonces s :
  nonces_ok s → 0 <= nonce_cache_limit (config s) →
  (recordNonce nonce s).1 = true →
  Z.of_nat (length nonces) < nonce_cache_limit (config s) →
  (recordNonce nonce (record_all nonces (recordNonce nonce s).2)).1 = false.
Proof.
  intros Hok Hl Hacc Hlen. pose proof (recordNonce_spec nonce s Hok Hl) as Hs.
  destruct (recordNonce nonce s) as [accepted s'] eqn:E. cbn [fst snd] in *. subst.
  destruct Hs as (Hok' & Hc & _ & Ho). rewrite drop_app_le in Ho by lia.
  remember (drop _ (nonce_order s)) as pre eqn:Epre.
  destruct (record_all_keeps nonces s' pre nonce [] Hok') as (Hin & Hok'' & Hc'');
    [by rewrite Hc|exact Ho|by rewrite Hc|].
  pose proof (recordNonce_spec nonce (record_all nonces s') Hok'') as Hs.
  destruct (recordNonce nonce (record_all nonces s')) as [again s'']. cbn.
  destruct Hs as (_ & _ & -> & _); [by rewrite Hc'', Hc|].
  by rewrite bool_decide_eq_true_2.
Qed.

Lemma nonce_replay_window_witness :
  (recordNonce 5 (record_all [6] (recordNonce 5 (sample_Session DropNewest 4)).2)).1 = false.
Proof.
  apply nonce_replay_window; [|vm_compute; done|vm_compute; done|vm_compute; done].
  split_and!; [constructor|done|vm_compute; done].
Defined.

(** A session times out exactly when nothing was received for the configured timeout;
    a disconnected session stays so: it never ticks again, queues nothing, and is not
    due a heartbeat. *)
Theorem session_timeout now s :
  let '(alive, s', logs) := tick_session now s in
  alive = connected s' ∧
  connected s' =
    connected s && negb (timeout (config s) * ns_per_ms <=? now - last_receive s) ∧
  (connected s' = false → ∀ later payload,
     (tick_session later s').1.1 = false ∧ (enqueueSend payload later s').1.1 = false ∧
     shouldSendHeartbeat later s' = false) ∧
  (connected s = true → connected s' = false →
     logs = [session_log "info" "session_disconnected" "Session disconnected"
               (λ f, f <| reason := Some "timeout"%string |>) s]).
Proof.
  unfold tick_session, shouldSendHeartbeat, enqueueSend.
  destruct (connected s) eqn:E; cbn [negb].
  2:{ rewrite E. split_and!; done. }
  unfold disconnect. rewrite E.
  destruct (_ <=? _); cbn [connected update_field negb andb].
  - split_and!; done.
  - rewrite E. split_and!; congruence.
Qed.
