(* ===== verification/Groups.v ===== *)
(** * Rosters shared by parties and guilds

    [party::PartyService] and [guild::GuildService] keep the same structure: groups by
    id, each with a leader and a member map, and an index from a session to the group
    it is in. [Group] is what the two record types have in common; [groups_ok] is the
    invariant that ties the groups and the index together, and the lemmas say how each
    way of changing a roster keeps it. *)

From S2P Require Import Prelude.

Class Group (G : Type) := {
  group_id : G → Z;
  group_leader : G → Z;
  group_members : G → gset Z;
  group_users : G → gmap Z string;  (* the members' user ids *)
  dom_group_users r : dom (group_users r) = group_members r
}.

Section groups.
Context `{Group G}.
Implicit Types (r : G) (groups : gmap Z G) (index : gmap Z Z).

(** The index holds exactly the members of the groups. *)
Definition indexed groups index : Prop :=
  ∀ s g, index !! s = Some g ↔ ∃ r, groups !! g = Some r ∧ s ∈ group_members r.

(** Each group is stored under its own id, below the next one, and has its leader
    among its members. *)
Definition group_ok (next g : Z) r : Prop :=
  group_id r = g ∧ 0 < g < next ∧ group_leader r ∈ group_members r.

Record groups_ok (next : Z) groups index : Prop := {
  groups_indexed : indexed groups index;
  groups_each : map_Forall (group_ok next) groups
}.

(** ** Consequences *)

Lemma one_group next groups index g1 g2 r1 r2 s :
  groups_ok next groups index →
  groups !! g1 = Some r1 → groups !! g2 = Some r2 →
  s ∈ group_members r1 → s ∈ group_members r2 → g1 = g2.
Proof.
  intros [Hi _] H1 H2 Hs1 Hs2.
  assert (index !! s = Some g1) by (apply Hi; eauto).
  assert (index !! s = Some g2) by (apply Hi; eauto). congruence.
Qed.

Lemma member_indexed next groups index g r s :
  groups_ok next groups index → groups !! g = Some r →
  s ∈ group_members r → index !! s = Some g.
Proof. intros [Hi _] Hg Hs. apply Hi. eauto. Qed.

Lemma fresh_id next groups index :
  groups_ok next groups index → groups !! next = None.
Proof.
  intros [_ He]. destruct (groups !! next) as [r|] eqn:E; [|done].
  destruct (He _ _ E) as (_ & ? & _). lia.
Qed.

Lemma index_group next groups index s g :
  groups_ok next groups index → index !! s = Some g →
  ∃ r, groups !! g = Some r ∧ s ∈ group_members r ∧ group_ok next g r.
Proof.
  intros [Hi He] Hs. apply Hi in Hs as (r & Hr & Hm). exists r. eauto.
Qed.

(** ** How rosters change *)

Lemma groups_ok_empty next : groups_ok next ∅ ∅.
Proof.
  split; [|apply map_Forall_empty]. intros s g. rewrite lookup_empty.
  split; [done|]. intros (r & Hr & _). by rewrite lookup_empty in Hr.
Qed.

Lemma groups_ok_next next next' groups index :
  next <= next' → groups_ok next groups index → groups_ok next' groups index.
Proof.
  intros Hle [Hi He]. split; [done|]. intros g r Hr.
  destruct (He g r Hr) as (? & ? & ?). split_and!; [done|lia|lia|done].
Qed.

(** Putting a group with one more member in place of the group [g], or of none. *)
Lemma groups_ok_add next groups index g s r :
  groups_ok next groups index → index !! s = None →
  group_ok next g r →
  group_members r = {[s]} ∪ from_option group_members ∅ (groups !! g) →
  groups_ok next (<[g := r]> groups) (<[s := g]> index).
Proof.
  intros [Hi He] Hs Hr Hm. split; [|by apply map_Forall_insert_2].
  intros s' g'. destruct (decide (s' = s)) as [->|Hne].
  - rewrite lookup_insert_eq. split.
    + intros [= <-]. exists r. rewrite lookup_insert_eq, Hm. set_solver.
    + intros (r' & Hr' & Hs'). destruct (decide (g' = g)) as [->|]; [done|].
      rewrite lookup_insert_ne in Hr' by done.
      assert (index !! s = Some g') by (apply Hi; eauto). congruence.
  - rewrite lookup_insert_ne by done. rewrite (Hi s' g').
    destruct (decide (g' = g)) as [->|]; [|by rewrite lookup_insert_ne].
    rewrite lookup_insert_eq. split.
    + intros (r' & Hr' & Hs'). exists r. split; [done|]. rewrite Hm, Hr'. cbn. set_solver.
    + intros (r' & [= <-] & Hs'). rewrite Hm in Hs'.
      destruct (groups !! g) as [r0|]; cbn in Hs'; [exists r0; set_solver|set_solver].
Qed.

Lemma groups_ok_remove next groups index g s r0 r :
  groups_ok next groups index → groups !! g = Some r0 → s ∈ group_members r0 →
  group_ok next g r → group_members r = group_members r0 ∖ {[s]} →
  groups_ok next (<[g := r]> groups) (delete s index).
Proof.
  intros [Hi He] Hg Hs Hr Hm. split; [|by apply map_Forall_insert_2].
  intros s' g'. destruct (decide (s' = s)) as [->|Hne].
  - rewrite lookup_delete_eq. split; [done|]. intros (r' & Hr' & Hs').
    destruct (decide (g' = g)) as [->|].
    + rewrite lookup_insert_eq in Hr'. simplify_eq. set_solver.
    + rewrite lookup_insert_ne in Hr' by done. exfalso.
      assert (index !! s = Some g') by (apply Hi; eauto).
      assert (index !! s = Some g) by (apply Hi; eauto). congruence.
  - rewrite lookup_delete_ne by done. rewrite (Hi s' g').
    destruct (decide (g' = g)) as [->|]; [|by rewrite lookup_insert_ne].
    rewrite lookup_insert_eq, Hg. split; intros (r' & [= <-] & Hs');
      eexists; (split; [done|]); set_solver.
Qed.

Lemma groups_ok_disband next groups index g r ks :
  groups_ok next groups index → groups !! g = Some r →
  (∀ s, s ∈ ks ↔ s ∈ group_members r) →
  groups_ok next (delete g groups) (erase_all ks index).
Proof.
  intros Hok Hg Hks. pose proof Hok as [Hi He]. split; [|by apply map_Forall_delete].
  intros s' g'. rewrite lookup_erase_all. case_decide as Hin.
  - split; [done|]. intros (r' & Hr' & Hs').
    apply lookup_delete_Some in Hr' as [Hne Hr']. exfalso.
    apply Hne. eapply one_group; eauto. by apply Hks.
  - rewrite (Hi s' g'). split; intros (r' & Hr' & Hs'); exists r'; split; try done.
    + apply lookup_delete_Some. split; [|done]. intros ->. rewrite Hks in Hin. naive_solver.
    + by apply lookup_delete_Some in Hr' as [_ ?].
Qed.

(** Renaming a member: it is removed, then added under the new session. *)
Lemma groups_ok_rename next groups index g old new r0 r :
  groups_ok next groups index → groups !! g = Some r0 → old ∈ group_members r0 →
  index !! new = None → old ≠ new → group_ok next g r →
  group_members r = {[new]} ∪ group_members r0 ∖ {[old]} →
  groups_ok next (<[g := r]> groups) (<[new := g]> (delete old index)).
Proof.
  intros [Hi He] Hg Hold Hnew Hne Hr Hm. split; [|by apply map_Forall_insert_2].
  assert (Hin : index !! old = Some g) by (apply Hi; eauto).
  intros s' g'. destruct (decide (g' = g)) as [->|Hg'].
  - rewrite lookup_insert_eq. split.
    + intros Hs'. exists r. split; [done|]. rewrite Hm.
      destruct (decide (s' = new)) as [->|]; [set_solver|].
      rewrite lookup_insert_ne in Hs' by done.
      apply lookup_delete_Some in Hs' as [? Hs'].
      apply Hi in Hs' as (r' & Hr' & ?). simplify_eq. set_solver.
    + intros (r' & [= <-] & Hs'). rewrite Hm in Hs'.
      destruct (decide (s' = new)) as [->|]; [by rewrite lookup_insert_eq|].
      rewrite lookup_insert_ne by done. apply lookup_delete_Some.
      split; [set_solver|]. apply Hi. exists r0. set_solver.
  - rewrite (lookup_insert_ne groups) by done. rewrite <- (Hi s' g').
    destruct (decide (s' = new)) as [->|]; [rewrite lookup_insert_eq; naive_solver|].
    rewrite lookup_insert_ne by done. rewrite lookup_delete_Some. naive_solver.
Qed.

(** ** Seats

    What a session has in a group: the group, its leader, and the user it is there for. *)

Record Seat := { seat_group : Z; seat_leader : Z; seat_user : string }.

#[export] Instance Seat_rebuild : Rebuild Seat := λ x, {|
  seat_group := seat_group x; seat_leader := seat_leader x; seat_user := seat_user x |}.

(** All seats, when [new] takes over the seat of [old]: its groups name [new] where they
    named [old]. A session that already has a seat keeps it and takes over nothing. *)
Definition take_seat (old new : Z) (seats : Z → option Seat) (j : Z) : option Seat :=
  match seats new with
  | Some _ => seats j
  | None =>
    (λ x, if seat_leader x =? old then x <| seat_leader := new |> else x) <$>
    (if decide (j = new) then seats old else if decide (j = old) then None else seats j)
  end.

(** All seats, when the sessions of [leaving] leave: a group whose leader leaves is no more. *)
Definition leave_seats (leaving : Z → bool) (seats : Z → option Seat) (j : Z) : option Seat :=
  if leaving j then None
  else seats j ≫= λ x, if leaving (seat_leader x) then None else Some x.

Lemma leave_seats_cons k leaving seats seats' j :
  (∀ i, seats' i = leave_seats (Z.eqb k) seats i) →
  leave_seats leaving seats' j = leave_seats (λ i, (k =? i) || leaving i) seats j.
Proof.
  intros E. unfold leave_seats at 1 2. rewrite E. unfold leave_seats.
  destruct (k =? j), (leaving j); cbn; try done.
  destruct (seats j) as [x|]; [|done]. cbn. by destruct (k =? seat_leader x).
Qed.

Lemma leave_seats_ext p q seats j :
  (∀ i, p i = q i) → leave_seats p seats j = leave_seats q seats j.
Proof.
  intros E. unfold leave_seats. rewrite E. destruct (q j), (seats j); try done.
  cbn. by rewrite E.
Qed.

Definition seat groups index (k : Z) : option Seat :=
  index !! k ≫= λ g, groups !! g ≫= λ r,
  (λ user, {| seat_group := g; seat_leader := group_leader r; seat_user := user |}) <$>
  group_users r !! k.

Lemma seat_spec next groups index k g :
  groups_ok next groups index → index !! k = Some g →
  ∃ r user, groups !! g = Some r ∧ group_users r !! k = Some user ∧ group_ok next g r ∧
    seat groups index k =
      Some {| seat_group := g; seat_leader := group_leader r; seat_user := user |}.
Proof.
  intros Hok Hk. destruct (index_group _ _ _ _ _ Hok Hk) as (r & Hr & Hm & Hg).
  rewrite <- dom_group_users in Hm. apply elem_of_dom in Hm as [user Hu].
  exists r, user. split_and!; try done. unfold seat. rewrite Hk. cbn. rewrite Hr. cbn. by rewrite Hu.
Qed.

Lemma seat_none groups index k : index !! k = None → seat groups index k = None.
Proof. intros Hk. unfold seat. by rewrite Hk. Qed.

(** The leader of a group sits in it. *)
Lemma seat_leader_indexed next groups index k x :
  groups_ok next groups index → seat groups index k = Some x →
  index !! k = Some (seat_group x) ∧ index !! seat_leader x = Some (seat_group x).
Proof.
  intros Hok Hx. destruct (index !! k) as [g|] eqn:Hk; [|by rewrite seat_none in Hx].
  destruct (seat_spec _ _ _ _ _ Hok Hk) as (r & user & Hr & _ & (_ & _ & Hl) & E).
  rewrite E in Hx. injection Hx as <-. cbn. split; [done|]. by eapply member_indexed.
Qed.

Lemma leave_seats_absent next groups index k j :
  groups_ok next groups index → index !! k = None →
  leave_seats (Z.eqb k) (seat groups index) j = seat groups index j.
Proof.
  intros Hok Hk. unfold leave_seats. destruct (k =? j) eqn:Ej.
  { apply Z.eqb_eq in Ej as <-. by rewrite seat_none. }
  destruct (seat groups index j) as [x|] eqn:Hx; [|done]. cbn.
  destruct (seat_leader_indexed _ _ _ _ _ Hok Hx) as [_ Hl].
  destruct (k =? seat_leader x) eqn:El; [|done]. apply Z.eqb_eq in El. congruence.
Qed.

Lemma take_seat_absent next groups index old new j :
  groups_ok next groups index → index !! old = None →
  take_seat old new (seat groups index) j = seat groups index j.
Proof.
  intros Hok Hold. unfold take_seat. destruct (seat groups index new) as [x|] eqn:Hnew; [done|].
  rewrite (seat_none groups index old) by done.
  repeat case_decide; subst; [done|by rewrite seat_none|].
  destruct (seat groups index j) as [x|] eqn:Hx; [|done]. cbn.
  destruct (seat_leader_indexed _ _ _ _ _ Hok Hx) as [_ Hl].
  destruct (seat_leader x =? old) eqn:El; [|done]. apply Z.eqb_eq in El. congruence.
Qed.

Lemma take_seat_occupied next groups index old new g j :
  groups_ok next groups index → index !! new = Some g →
  take_seat old new (seat groups index) j = seat groups index j.
Proof.
  intros Hok Hnew. unfold take_seat.
  destruct (seat_spec _ _ _ _ _ Hok Hnew) as (r & user & _ & _ & _ & ->). done.
Qed.

(** A member other than the leader leaves. *)
Lemma seat_remove next groups index g k r0 r j :
  groups_ok next groups index → index !! k = Some g → groups !! g = Some r0 →
  group_leader r0 ≠ k → group_leader r = group_leader r0 →
  group_users r = delete k (group_users r0) →
  seat (<[g := r]> groups) (delete k index) j = leave_seats (Z.eqb k) (seat groups index) j.
Proof.
  intros Hok Hk Hg Hlead Hl Hu. unfold leave_seats. destruct (k =? j) eqn:Ej.
  { apply Z.eqb_eq in Ej as <-. apply seat_none, lookup_delete_eq. }
  apply Z.eqb_neq in Ej. destruct (index !! j) as [h|] eqn:Hj.
  2:{ rewrite !seat_none; [done|done|by rewrite lookup_delete_ne]. }
  destruct (seat_spec _ _ _ _ _ Hok Hj) as (r1 & user & Hr1 & Hu1 & _ & E).
  pose proof (seat_leader_indexed _ _ _ _ _ Hok E) as [_ Hli]. cbn in Hli.
  rewrite E. cbn. unfold seat. rewrite lookup_delete_ne, Hj by done. cbn.
  destruct (decide (h = g)) as [->|Hne].
  - simplify_eq. rewrite lookup_insert_eq. cbn. rewrite Hu, lookup_delete_ne, Hu1, Hl by done.
    by rewrite (proj2 (Z.eqb_neq k _)) by congruence.
  - rewrite lookup_insert_ne, Hr1 by done. cbn. rewrite Hu1. cbn.
    rewrite (proj2 (Z.eqb_neq k _)); [done|]. intros ->. congruence.
Qed.

(** The leader leaves. *)
Lemma seat_disband next groups index g r ks j :
  groups_ok next groups index → groups !! g = Some r →
  (∀ i, i ∈ ks ↔ i ∈ group_members r) →
  seat (delete g groups) (erase_all ks index) j =
  leave_seats (Z.eqb (group_leader r)) (seat groups index) j.
Proof.
  intros Hok Hg Hks. unfold leave_seats.
  assert (Hin : ∀ i, index !! i = Some g ↔ i ∈ ks).
  { intros i. rewrite Hks, (groups_indexed _ _ _ Hok i g). naive_solver. }
  destruct (groups_each _ _ _ Hok _ _ Hg) as (_ & _ & Hl%Hks).
  destruct (decide (j ∈ ks)) as [Hj|Hj].
  - rewrite seat_none by (by rewrite lookup_erase_all, decide_True).
    apply Hin in Hj. destruct (_ =? j); [done|].
    destruct (seat_spec _ _ _ _ _ Hok Hj) as (r1 & user & Hr1 & _ & _ & ->). simplify_eq.
    cbn. by rewrite Z.eqb_refl.
  - rewrite (proj2 (Z.eqb_neq _ _)) by (intros <-; done).
    unfold seat at 1. rewrite lookup_erase_all, decide_False by done.
    destruct (index !! j) as [h|] eqn:Eh; [|by rewrite seat_none].
    destruct (seat_spec _ _ _ _ _ Hok Eh) as (r1 & user & Hr1 & Hu1 & _ & E).
    pose proof (seat_leader_indexed _ _ _ _ _ Hok E) as [_ Hli]. cbn in Hli.
    rewrite E. cbn. assert (h ≠ g) by (intros ->; by apply Hj, Hin).
    rewrite lookup_delete_ne, Hr1 by done. cbn. rewrite Hu1. cbn.
    rewrite (proj2 (Z.eqb_neq _ _)); [done|]. intros El. rewrite <- El in Hli.
    apply Hin in Hl. congruence.
Qed.

(** A member is renamed. *)
Lemma seat_rename next groups index g old new r0 r user j :
  groups_ok next groups index → index !! old = Some g → groups !! g = Some r0 →
  index !! new = None → old ≠ new → group_users r0 !! old = Some user →
  group_leader r = (if group_leader r0 =? old then new else group_leader r0) →
  group_users r = <[new := user]> (delete old (group_users r0)) →
  seat (<[g := r]> groups) (<[new := g]> (delete old index)) j =
  take_seat old new (seat groups index) j.
Proof.
  intros Hok Hold Hg Hnew Hne Huser Hl Hu. unfold take_seat.
  rewrite (seat_none groups index new) by done.
  destruct (decide (j = new)) as [->|Hjn].
  { unfold seat. rewrite lookup_insert_eq, Hold. cbn. rewrite lookup_insert_eq, Hg. cbn.
    rewrite Hu, lookup_insert_eq, Huser, Hl. cbn. by destruct (_ =? old). }
  destruct (decide (j = old)) as [->|Hjo].
  { apply seat_none. by rewrite lookup_insert_ne, lookup_delete_eq. }
  unfold seat at 1. rewrite lookup_insert_ne, lookup_delete_ne by done.
  destruct (index !! j) as [h|] eqn:Eh; [|by rewrite seat_none].
  destruct (seat_spec _ _ _ _ _ Hok Eh) as (r1 & u & Hr1 & Hu1 & _ & E).
  pose proof (seat_leader_indexed _ _ _ _ _ Hok E) as [_ Hli]. cbn in Hli.
  rewrite E. cbn. destruct (decide (h = g)) as [->|Hneg].
  - simplify_eq. rewrite lookup_insert_eq. cbn.
    rewrite Hu, lookup_insert_ne, lookup_delete_ne, Hu1, Hl by done. cbn. by destruct (_ =? old).
  - rewrite lookup_insert_ne, Hr1 by done. cbn. rewrite Hu1. cbn.
    rewrite (proj2 (Z.eqb_neq _ _)); [done|]. congruence.
Qed.

End groups.
