(* ===== verification/Party.v ===== *)
(** * Parties (src/src/party/party.h, party.cpp)

    [PartyService] as a state, one definition per operation. The event sink is a
    callback that may be unset ([event_sink]); an operation returns the calls it makes
    to it, in order. Iterating an [unordered_map] goes through [hash_iter]. *)

From S2P Require Import Prelude Groups.

Inductive PartyEventType :=
  Created | InviteSent | InviteAccepted | InviteRejected | InviteExpired | Disbanded.

#[export] Instance PartyEventType_eq_dec : EqDecision PartyEventType.
Proof. solve_decision. Defined.

Record PartyEvent := {
  event_type : PartyEventType;
  event_party_id : Z;
  actor_session_id : Z;
  target_session_id : Z;
  member_session_ids : list Z;
  event_message : string
}.

Record PartyMember := { member_session_id : Z; member_user_id : string }.

Record PartyInfo := {
  PartyInfo_party_id : Z;
  PartyInfo_leader_session_id : Z;
  PartyInfo_members : list PartyMember
}.

Record PartyRecord := {
  party_id : Z;
  leader_session_id : Z;
  members : gmap Z PartyMember
}.

#[export] Instance PartyRecord_rebuild : Rebuild PartyRecord := λ r, {|
  party_id := party_id r; leader_session_id := leader_session_id r; members := members r |}.

Record PartyInvite := {
  inviter_session_id : Z;
  invitee_user_id : string;
  sent_at : Z
}.

Record PartyService := {
  next_party_id : Z;
  parties : gmap Z PartyRecord;
  member_index : gmap Z Z;
  invites : gmap Z (gmap Z PartyInvite);
  event_sink : bool;
  invite_timeout : Z  (* milliseconds *)
}.

#[export] Instance PartyService_rebuild : Rebuild PartyService := λ s, {|
  next_party_id := next_party_id s; parties := parties s; member_index := member_index s;
  invites := invites s; event_sink := event_sink s; invite_timeout := invite_timeout s |}.

Definition new_PartyService : PartyService := {|
  next_party_id := 1; parties := ∅; member_index := ∅; invites := ∅;
  event_sink := false; invite_timeout := 5 * 60 * 1000 |}.

(** The order of [std::sort] in [getPartyInfo]. *)
Definition by_session (a b : PartyMember) : Prop := member_session_id a <= member_session_id b.

#[global] Instance by_session_dec : RelDecision by_session.
Proof. intros a b. unfold by_session. apply _. Defined.

(** The calls of the event sink. *)
Abbreviation Emitted := (list (Z * PartyEvent)).

Section operations.
Context `{HashOrder}.

Definition member_keys (party : PartyRecord) : list Z := (hash_iter (members party)).*1.

Definition emitToParty (sink : bool) (party : PartyRecord) (event : PartyEvent) : Emitted :=
  if sink then (λ session, (session, event)) <$> member_keys party else [].

Definition emitToInvitee (sink : bool) (invitee : Z) (event : PartyEvent) : Emitted :=
  if sink then [(invitee, event)] else [].

Definition createParty (leader : Z) (leader_user_id : string) (s : PartyService)
    : option Z * PartyService * Emitted :=
  if bool_decide (is_Some (member_index s !! leader)) then (None, s, [])
  else
    let record := {|
      party_id := next_party_id s;
      leader_session_id := leader;
      members := emplace leader {| member_session_id := leader;
                                   member_user_id := leader_user_id |} ∅ |} in
    let s := s <| next_party_id ::= λ n, u64 (n + 1) |>
               <| member_index ::= <[leader := party_id record]> |>
               <| parties ::= emplace (party_id record) record |> in
    (Some (party_id record), s,
     emitToParty (event_sink s) record {|
       event_type := Created; event_party_id := party_id record;
       actor_session_id := leader; target_session_id := 0;
       member_session_ids := [leader]; event_message := "Party created" |}).

Definition inviteMember (party inviter invitee : Z) (user_id : string) (now : Z)
    (s : PartyService) : bool * PartyService * Emitted :=
  let? record := parties s !! party else (false, s, []) in
  if bool_decide (members record !! inviter = None) then (false, s, [])
  else if bool_decide (is_Some (member_index s !! invitee)) then (false, s, [])
  else
    let party_invites := default ∅ (invites s !! party) in
    let s := s <| invites ::= <[party := party_invites]> |> in
    if bool_decide (is_Some (party_invites !! invitee)) then (false, s, [])
    else
      let invite := {| inviter_session_id := inviter; invitee_user_id := user_id;
                       sent_at := now |} in
      let event := {|
        event_type := InviteSent; event_party_id := party;
        actor_session_id := inviter; target_session_id := invitee;
        member_session_ids := []; event_message := "Party invite sent" |} in
      (true, s <| invites ::= <[party := emplace invitee invite party_invites]> |>,
       emitToParty (event_sink s) record event ++ emitToInvitee (event_sink s) invitee event).

Definition invite_expired (s : PartyService) (now : Z) (invite : PartyInvite) : bool :=
  invite_timeout s * ns_per_ms <? now - sent_at invite.

Definition expired_event (party invitee : Z) : PartyEvent := {|
  event_type := InviteExpired; event_party_id := party;
  actor_session_id := 0; target_session_id := invitee;
  member_session_ids := []; event_message := "Party invite expired" |}.

Definition acceptInvite (party invitee now : Z) (s : PartyService)
    : bool * PartyService * Emitted :=
  let? record := parties s !! party else (false, s, []) in
  let? party_invites := invites s !! party else (false, s, []) in
  let? entry := party_invites !! invitee else (false, s, []) in
  let erased := s <| invites ::= <[party := delete invitee party_invites]> |> in
  if invite_expired s now entry then
    (false, erased,
     emitToParty (event_sink s) record (expired_event party invitee) ++
     emitToInvitee (event_sink s) invitee (expired_event party invitee))
  else if bool_decide (is_Some (member_index s !! invitee)) then (false, erased, [])
  else
    let record := record <| members ::= emplace invitee
      {| member_session_id := invitee; member_user_id := invitee_user_id entry |} |> in
    (true,
     erased <| parties ::= <[party := record]> |> <| member_index ::= <[invitee := party]> |>,
     emitToParty (event_sink s) record {|
       event_type := InviteAccepted; event_party_id := party;
       actor_session_id := invitee; target_session_id := 0;
       member_session_ids := member_keys record;
       event_message := "Party invite accepted" |}).

Definition rejectInvite (party invitee : Z) (s : PartyService)
    : bool * PartyService * Emitted :=
  let? record := parties s !! party else (false, s, []) in
  let? party_invites := invites s !! party else (false, s, []) in
  let? _ := party_invites !! invitee else (false, s, []) in
  let event := {|
    event_type := InviteRejected; event_party_id := party;
    actor_session_id := invitee; target_session_id := invitee;
    member_session_ids := []; event_message := "Party invite rejected" |} in
  (true, s <| invites ::= <[party := delete invitee party_invites]> |>,
   emitToParty (event_sink s) record event ++ emitToInvitee (event_sink s) invitee event).

(** The common end of [disbandParty] and of the leader's [removeMember]. *)
Definition disband (party actor : Z) (record : PartyRecord) (s : PartyService)
    : bool * PartyService * Emitted :=
  (true,
   s <| member_index ::= erase_all (member_keys record) |>
     <| parties ::= delete party |> <| invites ::= delete party |>,
   emitToParty (event_sink s) record {|
     event_type := Disbanded; event_party_id := party;
     actor_session_id := actor; target_session_id := 0;
     member_session_ids := member_keys record; event_message := "Party disbanded" |}).

Definition disbandParty (party requester : Z) (s : PartyService)
    : bool * PartyService * Emitted :=
  let? record := parties s !! party else (false, s, []) in
  if negb (leader_session_id record =? requester) then (false, s, [])
  else disband party requester record s.

Definition removeMember (session : Z) (s : PartyService) : bool * PartyService * Emitted :=
  let? party := member_index s !! session else (false, s, []) in
  let? record := parties s !! party
    else (false, s <| member_index ::= delete session |>, []) in
  if leader_session_id record =? session then disband party session record s
  else
    (true,
     s <| parties ::= <[party := record <| members ::= delete session |>]> |>
       <| member_index ::= delete session |>
       <| invites ::= alter (delete session) party |>, []).

(** The body of the loop of [replaceMemberSession] over the invites. *)
Definition move_invite (old new : Z) (party_invites : gmap Z PartyInvite)
    : gmap Z PartyInvite :=
  let? invite := party_invites !! old else party_invites in
  emplace new invite (delete old party_invites).

Definition replaceMemberSession (old new : Z) (s : PartyService) : bool * PartyService :=
  if old =? new then (true, s)
  else
    let? party := member_index s !! old else (false, s) in
    if bool_decide (is_Some (member_index s !! new)) then (false, s)
    else
      let? record := parties s !! party else (false, s) in
      let? entry := members record !! old else (false, s) in
      let member := {| member_session_id := new; member_user_id := member_user_id entry |} in
      let record := record <| members ::= λ m, emplace new member (delete old m) |> in
      let record := if leader_session_id record =? old
                    then record <| leader_session_id := new |> else record in
      (true, s <| parties ::= <[party := record]> |>
               <| member_index ::= λ m, <[new := party]> (delete old m) |>
               <| invites ::= fmap (move_invite old new) |>).

(** The inner loop of [expireInvites]: erase the expired invites of one party. *)
Definition expire_party (now : Z) (acc : Z * PartyService * Emitted)
    (entry : Z * PartyRecord) : Z * PartyService * Emitted :=
  let '(count, s, out) := acc in
  let '(party, record) := entry in
  let? party_invites := invites s !! party else acc in
  foldl (λ acc entry, let '(count, s, out) := acc in let '(invitee, invite) := entry in
    if invite_expired s now invite then
      (u64 (count + 1),
       s <| invites ::= alter (delete invitee) party |>,
       out ++ emitToParty (event_sink s) record (expired_event party invitee)
           ++ emitToInvitee (event_sink s) invitee (expired_event party invitee))
    else acc) acc (hash_iter party_invites).

Definition expireInvites (now : Z) (s : PartyService) : Z * PartyService * Emitted :=
  foldl (expire_party now) (0, s, []) (hash_iter (parties s)).

Definition getPartyInfo (party : Z) (s : PartyService) : option PartyInfo :=
  let? record := parties s !! party else None in
  Some {| PartyInfo_party_id := party_id record;
          PartyInfo_leader_session_id := leader_session_id record;
          PartyInfo_members :=
            merge_sort by_session ((hash_iter (members record)).*2) |}.

Definition partyForMember (session : Z) (s : PartyService) : option Z :=
  member_index s !! session.

Definition setEventSink (sink : bool) (s : PartyService) : PartyService :=
  s <| event_sink := sink |>.

Definition setInviteTimeout (timeout : Z) (s : PartyService) : PartyService :=
  s <| invite_timeout := timeout |>.

End operations.

(** ** Well-formed services *)

#[export] Instance PartyRecord_group : Group PartyRecord := {|
  group_id := party_id;
  group_leader := leader_session_id;
  group_members := λ r, dom (members r);
  group_users := λ r, member_user_id <$> members r;
  dom_group_users := λ r, dom_fmap_L member_user_id (members r)
|}.

(** Each member is stored under its own session. *)
Definition keyed (m : gmap Z PartyMember) : Prop :=
  map_Forall (λ k member, member_session_id member = k) m.

Record service_ok (s : PartyService) : Prop := {
  ok_next : 0 < next_party_id s < 2 ^ 64;
  ok_groups : groups_ok (next_party_id s) (parties s) (member_index s);
  ok_keyed : map_Forall (λ _ r, keyed (members r)) (parties s);
  ok_invites : dom (invites s) ⊆ dom (parties s)
}.

Inductive party_op :=
  | OpCreate (leader : Z) (user_id : string)
  | OpInvite (party inviter invitee : Z) (user_id : string) (now : Z)
  | OpAccept (party invitee now : Z)
  | OpReject (party invitee : Z)
  | OpDisband (party requester : Z)
  | OpRemove (session : Z)
  | OpReplace (old new : Z)
  | OpExpire (now : Z)
  | OpSetEventSink (sink : bool)
  | OpSetInviteTimeout (timeout : Z).

Definition run_op `{HashOrder} (s : PartyService) (op : party_op) : PartyService :=
  match op with
  | OpCreate leader user_id => (createParty leader user_id s).1.2
  | OpInvite party inviter invitee user_id now =>
    (inviteMember party inviter invitee user_id now s).1.2
  | OpAccept party invitee now => (acceptInvite party invitee now s).1.2
  | OpReject party invitee => (rejectInvite party invitee s).1.2
  | OpDisband party requester => (disbandParty party requester s).1.2
  | OpRemove session => (removeMember session s).1.2
  | OpReplace old new => (replaceMemberSession old new s).2
  | OpExpire now => (expireInvites now s).1.2
  | OpSetEventSink sink => setEventSink sink s
  | OpSetInviteTimeout timeout => setInviteTimeout timeout s
  end.

Section invariant.
Context `{HashOrder}.
Implicit Types (s : PartyService) (r : PartyRecord).

Lemma elem_of_member_keys r k : k ∈ member_keys r ↔ k ∈ dom (members r).
Proof. unfold member_keys. by rewrite elem_of_hash_keys, elem_of_dom. Qed.

Lemma group_of_index s k p :
  service_ok s → member_index s !! k = Some p →
  ∃ r m, parties s !! p = Some r ∧ members r !! k = Some m ∧ member_session_id m = k.
Proof.
  intros [_ Hg Hk _] Hi. destruct (index_group _ _ _ _ _ Hg Hi) as (r & Hr & Hm & _).
  cbn in Hm. apply elem_of_dom in Hm as [m Hm]. exists r, m.
  split_and!; auto. by apply (Hk p r Hr).
Qed.

(** Replacing the invites of a live party by others. *)
Lemma ok_set_invites s i :
  service_ok s → dom i ⊆ dom (parties s) → service_ok (s <| invites := i |>).
Proof. intros [? ? ? ?] Hi. by split. Qed.

Lemma dom_insert_invites s p r (i : gmap Z PartyInvite) :
  service_ok s → parties s !! p = Some r → dom (<[p := i]> (invites s)) ⊆ dom (parties s).
Proof.
  intros Hok Hp. rewrite dom_insert. pose proof (ok_invites _ Hok).
  apply elem_of_dom_2 in Hp. set_solver.
Qed.

Lemma keyed_emplace k m user :
  keyed m → keyed (emplace k {| member_session_id := k; member_user_id := user |} m).
Proof.
  intros Hm. unfold emplace. destruct (m !! k); [done|]. by apply map_Forall_insert_2.
Qed.

Lemma dom_emplace {A} k (v : A) m : dom (emplace k v m) = {[k]} ∪ dom m.
Proof.
  unfold emplace. destruct (m !! k) eqn:E; [|by rewrite dom_insert_L].
  apply elem_of_dom_2 in E. set_solver.
Qed.

Lemma createParty_ok leader user s :
  service_ok s → next_party_id s + 1 < 2 ^ 64 → service_ok (createParty leader user s).1.2.
Proof.
  intros Hok Hn. unfold createParty. case_bool_decide as Hl; [done|]. cbn -[emplace].
  pose proof Hok as [Hnext Hg Hk Hi].
  rewrite emplace_fresh by (eapply fresh_id; eauto).
  rewrite wrap_small by lia. apply eq_None_not_Some in Hl. split; cbn -[emplace].
  - lia.
  - apply groups_ok_add; [by eapply groups_ok_next; [|done]; lia|done| |].
    + split_and!; cbn -[emplace]; [done|lia|lia|]. rewrite dom_emplace. set_solver.
    + cbn -[emplace]. rewrite dom_emplace.
      rewrite (fresh_id _ _ _ Hg). cbn. set_solver.
  - apply map_Forall_insert_2; [|done]. by apply keyed_emplace, map_Forall_empty.
  - rewrite dom_insert. set_solver.
Qed.

Lemma inviteMember_ok party inviter invitee user now s :
  service_ok s → service_ok (inviteMember party inviter invitee user now s).1.2.
Proof.
  intros Hok. unfold inviteMember. destruct (parties s !! party) as [r|] eqn:Er; [|done].
  repeat case_bool_decide; try done; cbn -[emplace];
    eapply ok_set_invites; try done; try rewrite insert_insert_eq;
    by eapply dom_insert_invites.
Qed.

Lemma acceptInvite_ok party invitee now s :
  service_ok s → service_ok (acceptInvite party invitee now s).1.2.
Proof.
  intros Hok. unfold acceptInvite. destruct (parties s !! party) as [r|] eqn:Er; [|done].
  destruct (invites s !! party) as [i|]; [|done].
  destruct (i !! invitee) as [entry|]; [|done].
  assert (Hd : service_ok (s <| invites ::= <[party := delete invitee i]> |>)).
  { eapply ok_set_invites; [done|]. by eapply dom_insert_invites. }
  destruct (invite_expired _ _ _); [done|]. case_bool_decide as Hm; [done|].
  apply eq_None_not_Some in Hm. pose proof Hok as [Hnext Hg Hk Hi].
  destruct (groups_each _ _ _ Hg _ _ Er) as (Hid & Hrange & Hl).
  split; cbn -[emplace].
  - done.
  - apply groups_ok_add; [done|done| |].
    + split_and!; cbn -[emplace]; [done|lia|lia|]. rewrite dom_emplace. cbn in Hl. set_solver.
    + rewrite Er. cbn -[emplace]. apply dom_emplace.
  - apply map_Forall_insert_2; [|done]. cbn -[emplace]. by apply keyed_emplace, (Hk _ _ Er).
  - destruct Hd as [_ _ _ Hd]. cbn in Hd. etransitivity; [exact Hd|].
    rewrite dom_insert. set_solver.
Qed.

Lemma rejectInvite_ok party invitee s :
  service_ok s → service_ok (rejectInvite party invitee s).1.2.
Proof.
  intros Hok. unfold rejectInvite. destruct (parties s !! party) as [r|] eqn:Er; [|done].
  destruct (invites s !! party) as [i|]; [|done].
  destruct (i !! invitee) as [entry|]; [|done].
  eapply ok_set_invites; [done|]. by eapply dom_insert_invites.
Qed.

Lemma disband_ok party actor r s :
  service_ok s → parties s !! party = Some r → service_ok (disband party actor r s).1.2.
Proof.
  intros [Hn Hg Hk Hi] Hr. split; cbn.
  - done.
  - eapply groups_ok_disband; [done|done|]. apply elem_of_member_keys.
  - by apply map_Forall_delete.
  - rewrite !dom_delete. set_solver.
Qed.

Lemma disbandParty_ok party requester s :
  service_ok s → service_ok (disbandParty party requester s).1.2.
Proof.
  intros Hok. unfold disbandParty. destruct (parties s !! party) as [r|] eqn:Er; [|done].
  destruct (negb _); [done|]. by apply disband_ok.
Qed.

Lemma removeMember_ok session s : service_ok s → service_ok (removeMember session s).1.2.
Proof.
  intros Hok. unfold removeMember. destruct (member_index s !! session) as [p|] eqn:Ep; [|done].
  destruct (group_of_index _ _ _ Hok Ep) as (r & m & Hr & Hm & _). rewrite Hr.
  destruct (_ =? _) eqn:El; [by apply disband_ok|]. bool_props.
  pose proof Hok as [Hn Hg Hk Hi].
  destruct (groups_each _ _ _ Hg _ _ Hr) as (Hid & Hrange & Hl).
  split; cbn.
  - done.
  - eapply groups_ok_remove; [done|exact Hr| | |].
    + cbn. by eapply elem_of_dom_2.
    + split_and!; cbn in *; [done|lia|lia|]. rewrite dom_delete. set_solver.
    + cbn. by rewrite dom_delete_L.
  - apply map_Forall_insert_2; [|done]. cbn. by apply map_Forall_delete, (Hk _ _ Hr).
  - rewrite dom_alter, dom_insert. set_solver.
Qed.

Lemma replaceMemberSession_ok old new s :
  service_ok s → service_ok (replaceMemberSession old new s).2.
Proof.
  intros Hok. unfold replaceMemberSession. destruct (old =? new) eqn:Eon; [done|]. bool_props.
  destruct (member_index s !! old) as [p|] eqn:Ep; [|done].
  case_bool_decide as Hnew; [done|]. apply eq_None_not_Some in Hnew.
  destruct (group_of_index _ _ _ Hok Ep) as (r & m & Hr & Hm & _). rewrite Hr, Hm.
  pose proof Hok as [Hn Hg Hk Hi].
  destruct (groups_each _ _ _ Hg _ _ Hr) as (Hid & Hrange & Hl). cbn in Hl.
  cbn [leader_session_id update_field].
  set (r' := if leader_session_id r =? old then _ else _).
  assert (Hr' : group_ok (next_party_id s) p r' ∧
                dom (members r') = {[new]} ∪ dom (members r) ∖ {[old]} ∧ keyed (members r')).
  { assert (Hdom : dom (emplace new {| member_session_id := new;
        member_user_id := member_user_id m |} (delete old (members r))) =
        {[new]} ∪ dom (members r) ∖ {[old]}) by by rewrite dom_emplace, dom_delete_L.
    assert (Hkey := keyed_emplace new (delete old (members r)) (member_user_id m)
                      (map_Forall_delete _ _ _ (Hk _ _ Hr))).
    subst r'. destruct (_ =? _) eqn:El; bool_props; unfold group_ok; cbn -[emplace];
      rewrite Hdom; split_and!; try done; try lia; set_solver. }
  destruct Hr' as (Hr1 & Hr2 & Hr3). split; cbn.
  - done.
  - eapply groups_ok_rename; try done. cbn. by eapply elem_of_dom_2.
  - by apply map_Forall_insert_2.
  - rewrite dom_fmap, dom_insert. set_solver.
Qed.

(** ** Seats *)

(** The seat of a session in its party. *)
Definition seat_of (s : PartyService) (k : Z) : option Seat := seat (parties s) (member_index s) k.

Lemma seats_after_replace old new s j :
  service_ok s → old ≠ new →
  seat_of (replaceMemberSession old new s).2 j = take_seat old new (seat_of s) j.
Proof.
  intros Hok Hne. pose proof (ok_groups _ Hok) as Hg. unfold replaceMemberSession, seat_of.
  rewrite (proj2 (Z.eqb_neq old new)) by done.
  destruct (member_index s !! old) as [p|] eqn:Ep; [|by rewrite (take_seat_absent _ _ _ _ _ _ Hg)].
  case_bool_decide as Hn.
  { destruct Hn as [g Hn]. by rewrite (take_seat_occupied _ _ _ _ _ g _ Hg Hn). }
  apply eq_None_not_Some in Hn.
  destruct (group_of_index _ _ _ Hok Ep) as (r & m & Hr & Hm & _). rewrite Hr, Hm.
  assert (Hf : delete old (members r) !! new = None).
  { rewrite lookup_delete_ne by done. apply eq_None_not_Some. intros Hs%elem_of_dom.
    assert (member_index s !! new = Some p) by (eapply member_indexed; done). congruence. }
  cbn [parties member_index update_field snd].
  apply (seat_rename _ _ _ p old new r _ (member_user_id m) j Hg); try done; cbn -[emplace].
  - by rewrite lookup_fmap, Hm.
  - by destruct (leader_session_id r =? old).
  - destruct (leader_session_id r =? old); cbn -[emplace]; rewrite emplace_fresh by done;
      by rewrite fmap_insert, fmap_delete.
Qed.

Lemma seats_after_remove k s j :
  service_ok s → seat_of (removeMember k s).1.2 j = leave_seats (Z.eqb k) (seat_of s) j.
Proof.
  intros Hok. pose proof (ok_groups _ Hok) as Hg. unfold removeMember, seat_of.
  destruct (member_index s !! k) as [p|] eqn:Ep; [|by rewrite (leave_seats_absent _ _ _ _ _ Hg)].
  destruct (group_of_index _ _ _ Hok Ep) as (r & m & Hr & Hm & _). rewrite Hr.
  destruct (leader_session_id r =? k) eqn:El; bool_props.
  - rewrite <- El. apply (seat_disband _ _ _ p r _ j Hg Hr). apply elem_of_member_keys.
  - apply (seat_remove _ _ _ p k r _ j Hg); try done. cbn. by rewrite fmap_delete.
Qed.

End invariant.

(** ** Expiring invites *)

(** The calls made for one expired invite. *)
Definition expiry_calls `{HashOrder} (sink : bool) (party : Z) (record : PartyRecord)
    (invitee : Z) : Emitted :=
  emitToParty sink record (expired_event party invitee) ++
  emitToInvitee sink invitee (expired_event party invitee).

Definition expired_entry (s : PartyService) (now : Z) (e : Z * PartyInvite) : Prop :=
  invite_expired s now e.2 = true.

#[export] Instance expired_entry_dec s now e : Decision (expired_entry s now e).
Proof. unfold expired_entry. apply _. Defined.

(** The invites of one party that an expiry leaves, and those it removes. *)
Definition live_invites (s : PartyService) (now : Z) : gmap Z PartyInvite → gmap Z PartyInvite :=
  filter (λ e, ¬ expired_entry s now e).

Definition expired_invites (s : PartyService) (now : Z) (m : gmap Z PartyInvite)
    : gmap Z PartyInvite :=
  filter (expired_entry s now) m.

Section expiry.
Context `{HashOrder}.
Implicit Types (s : PartyService) (r : PartyRecord).

Definition expired_list s (now : Z) (m : gmap Z PartyInvite) : list (Z * PartyInvite) :=
  filter (expired_entry s now) (hash_iter m).

Lemma erase_expired s now m :
  erase_all (expired_list s now m).*1 m = live_invites s now m.
Proof.
  apply map_eq. intros k. rewrite lookup_erase_all. unfold live_invites, expired_list.
  assert (Hin : k ∈ (filter (expired_entry s now) (hash_iter m)).*1 ↔
                ∃ x, m !! k = Some x ∧ expired_entry s now (k, x)).
  { rewrite list_elem_of_fmap. split.
    - intros ([k' x] & -> & [? ?%elem_of_hash_iter]%list_elem_of_filter). eauto.
    - intros (x & ? & ?). exists (k, x). split; [done|].
      apply list_elem_of_filter. by rewrite elem_of_hash_iter. }
  symmetry. case_decide as Hk.
  - apply Hin in Hk as (x & Hx & Hex). apply map_lookup_filter_None. right.
    intros x' Hx' Hn. simplify_eq. by apply Hn.
  - destruct (m !! k) as [x|] eqn:E.
    + apply map_lookup_filter_Some. naive_solver.
    + apply map_lookup_filter_None. by left.
Qed.

Lemma length_expired_list s now m : length (expired_list s now m) = size (expired_invites s now m).
Proof. apply length_filter_hash_iter. Qed.

(** One step of the inner loop, then the loop. *)
Lemma expire_party_loop now party r l c s o :
  in_width 64 c →
  foldl (λ acc entry, let '(count, s, out) := acc in let '(invitee, invite) := entry in
    if invite_expired s now invite then
      (u64 (count + 1), s <| invites ::= alter (delete invitee) party |>,
       out ++ emitToParty (event_sink s) r (expired_event party invitee)
           ++ emitToInvitee (event_sink s) invitee (expired_event party invitee))
    else acc) (c, s, o) l =
  let gone := filter (expired_entry s now) l in
  (u64 (c + Z.of_nat (length gone)),
   s <| invites ::= alter (erase_all gone.*1) party |>,
   o ++ (gone ≫= λ e, expiry_calls (event_sink s) party r e.1)).
Proof.
  revert c s o. induction l as [|[k x] l IH]; intros c s o Hc; cbn [foldl].
  - cbn. rewrite Z.add_0_r, wrap_small, app_nil_r by done.
    destruct s; cbn. by rewrite alter_same.
  - rewrite filter_cons. destruct (invite_expired s now x) eqn:E.
    + rewrite decide_True by done. rewrite IH by (unfold in_width; apply wrap_range; lia).
      change (filter (expired_entry (s <| invites ::= alter (delete k) party |>) now) l)
        with (filter (expired_entry s now) l).
      cbn [length fmap list_fmap mbind list_bind fst app]. rewrite wrap_add_l.
      f_equal; [f_equal; [f_equal; lia|]|].
      * cbn [erase_all foldl]. destruct s; cbn. f_equal. by rewrite alter_alter.
      * cbn [event_sink update_field]. unfold expiry_calls at 2. cbn [fst].
        by rewrite <- !app_assoc.
    + rewrite decide_False by (unfold expired_entry; cbn; congruence). by apply IH.
Qed.

Lemma expire_party_eq now party r c s o :
  in_width 64 c →
  expire_party now (c, s, o) (party, r) =
  let m := default ∅ (invites s !! party) in
  (u64 (c + Z.of_nat (size (expired_invites s now m))),
   s <| invites ::= alter (live_invites s now) party |>,
   o ++ (expired_list s now m ≫= λ e, expiry_calls (event_sink s) party r e.1)).
Proof.
  intros Hc. cbn [expire_party]. destruct (invites s !! party) as [m|] eqn:Em; cbn [default].
  - rewrite expire_party_loop by done. cbn zeta. rewrite <- length_expired_list.
    f_equal. f_equal. destruct s; cbn in *. f_equal.
    apply alter_ext. intros m' Hm'. simplify_eq. apply erase_expired.
  - cbn zeta. rewrite <- length_expired_list. unfold expired_list.
    assert (Hnil : hash_iter (∅ : gmap Z PartyInvite) = []).
    { apply Permutation_nil_r. by rewrite hash_iter_perm, map_to_list_empty. }
    rewrite Hnil. cbn. rewrite Z.add_0_r, wrap_small, app_nil_r by done.
    f_equal. f_equal. destruct s; cbn in *. f_equal. symmetry.
    apply alter_same. congruence.
Qed.

Lemma expire_loop now l c s o :
  NoDup l.*1 → in_width 64 c →
  foldl (expire_party now) (c, s, o) l =
  let at_party p := default ∅ (invites s !! p) in
  (u64 (c + sum_Z ((λ e, Z.of_nat (size (expired_invites s now (at_party e.1)))) <$> l)),
   s <| invites ::= λ i, foldl (λ i p, alter (live_invites s now) p i) i l.*1 |>,
   o ++ (l ≫= λ e, expired_list s now (at_party e.1) ≫= λ x,
           expiry_calls (event_sink s) e.1 e.2 x.1)).
Proof.
  cbn zeta. revert c s o.
  induction l as [|[p r] l IH]; intros c s o Hnd Hc; cbn [foldl fmap list_fmap] in *.
  - cbn. rewrite Z.add_0_r, wrap_small, app_nil_r by done. by destruct s.
  - apply NoDup_cons in Hnd as [Hp Hnd]. rewrite expire_party_eq by done. cbn zeta.
    rewrite IH by (try done; unfold in_width; apply wrap_range; lia).
    assert (Hsame : ∀ e, e ∈ l →
      invites (s <| invites ::= alter (live_invites s now) p |>) !! e.1 = invites s !! e.1).
    { intros [p' r'] He. cbn. apply lookup_alter_ne. intros ->. apply Hp.
      apply list_elem_of_fmap. by exists (p', r'). }
    f_equal; [f_equal|].
    + cbn [sum_Z foldr]. rewrite wrap_add_l, Z.add_assoc. f_equal. f_equal.
      unfold sum_Z. f_equal. apply list_fmap_ext. intros i e He%list_elem_of_lookup_2.
      by rewrite Hsame.
    + cbn [mbind list_bind fst snd]. rewrite <- app_assoc. f_equal. f_equal.
      cbn [event_sink update_field]. clear IH Hnd Hp.
      induction l as [|e l IHl]; [done|]. cbn [mbind list_bind].
      rewrite IHl by (intros; apply Hsame; by right).
      by rewrite Hsame by left.
Qed.

Lemma foldl_alter_lookup {A} (f : A → A) (ps : list Z) (i : gmap Z A) q :
  NoDup ps →
  foldl (λ i p, alter f p i) i ps !! q = if decide (q ∈ ps) then f <$> i !! q else i !! q.
Proof.
  revert i. induction ps as [|p ps IH]; intros i Hnd; cbn [foldl].
  - by rewrite decide_False by set_solver.
  - apply NoDup_cons in Hnd as [Hp Hnd]. rewrite IH by done.
    destruct (decide (q = p)) as [->|Hne].
    + rewrite decide_False, decide_True by set_solver. apply lookup_alter_eq.
    + rewrite lookup_alter_ne by done. repeat case_decide; set_solver.
Qed.

(** [expireInvites] in one step, for a service whose invites are of live parties. *)
Lemma expireInvites_eq now s :
  service_ok s →
  expireInvites now s =
  let at_party p := default ∅ (invites s !! p) in
  let l := hash_iter (parties s) in
  (u64 (sum_Z ((λ e, Z.of_nat (size (expired_invites s now (at_party e.1)))) <$> l)),
   s <| invites ::= fmap (live_invites s now) |>,
   l ≫= λ e, expired_list s now (at_party e.1) ≫= λ x,
           expiry_calls (event_sink s) e.1 e.2 x.1).
Proof.
  intros Hok. unfold expireInvites.
  rewrite expire_loop by (try apply NoDup_hash_iter_keys; by vm_compute).
  cbn zeta. rewrite Z.add_0_l. f_equal. f_equal.
  pose proof (ok_invites _ Hok) as Hi. destruct s; cbn in *. f_equal.
  apply map_eq. intros q. rewrite foldl_alter_lookup by apply NoDup_hash_iter_keys.
  rewrite lookup_fmap. case_decide as Hq; [done|].
  destruct (_ !! q) eqn:E; [|done]. exfalso. apply Hq, elem_of_hash_keys.
  apply elem_of_dom, Hi, elem_of_dom. eauto.
Qed.

Lemma expireInvites_ok now s : service_ok s → service_ok (expireInvites now s).1.2.
Proof.
  intros Hok. rewrite expireInvites_eq by done. cbn [fst snd].
  pose proof Hok as [? ? ? ?]. split; cbn; try done. by rewrite dom_fmap.
Qed.

End expiry.

(** ** Reachable services *)

Section reachable.
Context `{HashOrder}.
Implicit Types (s : PartyService).

Definition run_ops (ops : list party_op) (s : PartyService) : PartyService :=
  foldl run_op s ops.

Lemma run_op_ok s op :
  service_ok s → next_party_id s + 1 < 2 ^ 64 → service_ok (run_op s op).
Proof.
  intros Hok Hn. destruct op; cbn [run_op];
    auto using createParty_ok, inviteMember_ok, acceptInvite_ok, rejectInvite_ok,
      disbandParty_ok, removeMember_ok, replaceMemberSession_ok, expireInvites_ok;
    by destruct Hok; split.
Qed.

Lemma run_op_next s op :
  service_ok s → next_party_id s + 1 < 2 ^ 64 →
  next_party_id (run_op s op) <= next_party_id s + 1.
Proof.
  intros Hok Hn. pose proof (ok_next _ Hok).
  destruct op; cbn [run_op];
    unfold inviteMember, acceptInvite, rejectInvite, disbandParty, removeMember,
      replaceMemberSession, disband;
    try rewrite expireInvites_eq by done;
    try (repeat case_match; cbn; lia).
  unfold createParty. case_bool_decide; cbn; [lia|]. rewrite wrap_small; lia.
Qed.

Lemma run_ops_ok ops s :
  service_ok s → next_party_id s + Z.of_nat (length ops) < 2 ^ 64 →
  service_ok (run_ops ops s).
Proof.
  revert s. induction ops as [|op ops IH]; intros s Hok Hn; [done|].
  cbn [run_ops foldl length] in *. apply IH; [apply run_op_ok; [done|lia]|].
  pose proof (run_op_next s op Hok). lia.
Qed.

Lemma new_PartyService_ok : service_ok new_PartyService.
Proof.
  split; cbn; [lia|apply groups_ok_empty|apply map_Forall_empty|set_solver].
Qed.

End reachable.

(** ** Properties *)

(** C18: whatever the operations, a party service stays well formed while fewer than
    2^64 - 1 of them ran: the index holds exactly the members of the parties, so a
    session is in at most one party; every party has its leader among its members and
    lies under its own id, below the next one; only live parties have invites. *)
Theorem party_service_invariant `{HashOrder} ops :
  Z.of_nat (length ops) < 2 ^ 64 - 1 →
  let s := run_ops ops new_PartyService in
  service_ok s ∧
  (∀ session p q r r',
     parties s !! p = Some r → parties s !! q = Some r' →
     is_Some (members r !! session) → is_Some (members r' !! session) → p = q) ∧
  (∀ session p, partyForMember session s = Some p ↔
     ∃ r, parties s !! p = Some r ∧ is_Some (members r !! session)).
Proof.
  intros Hlen s. assert (Hok : service_ok s).
  { apply run_ops_ok; [apply new_PartyService_ok|]. change (next_party_id _) with 1. lia. }
  pose proof Hok as [_ Hg _ _]. split_and!; [done| |].
  - intros session p q r r' Hp Hq Hs Hs'.
    eapply one_group; [exact Hg|done|done|..]; by apply elem_of_dom.
  - intros session p. unfold partyForMember. rewrite (groups_indexed _ _ _ Hg session p).
    cbn. by setoid_rewrite elem_of_dom.
Qed.

Definition sample_ops : list party_op :=
  [OpCreate 1 "a"; OpInvite 1 1 2 "b" 0; OpAccept 1 2 5; OpCreate 3 "c"; OpReplace 1 9].

Lemma party_service_invariant_witness :
  let s := run_ops (H := bucket_order) sample_ops new_PartyService in
  partyForMember 9 s = Some 1 ∧ service_ok s ∧
  (∀ session p q r r',
     parties s !! p = Some r → parties s !! q = Some r' →
     is_Some (members r !! session) → is_Some (members r' !! session) → p = q) ∧
  (∀ session p, partyForMember session s = Some p ↔
     ∃ r, parties s !! p = Some r ∧ is_Some (members r !! session)).
Proof. split; [by vm_compute|]. apply (party_service_invariant (H := bucket_order)). by vm_compute. Defined.

(** C19: accepting an invite succeeds exactly when the party is live, the invite exists,
    is not older than the timeout, and the invitee is in no party; success puts the
    invitee (under the invited user id) into that party and nobody else anywhere;
    failure changes no membership. An invite is used up by its first use: accepting
    once more fails at any later time. *)
Theorem acceptInvite_spec `{HashOrder} party invitee now s :
  service_ok s →
  let '(joined, s', _) := acceptInvite party invitee now s in
  (joined = true ↔ ∃ r i invite,
     parties s !! party = Some r ∧ invites s !! party = Some i ∧ i !! invitee = Some invite ∧
     now - sent_at invite <= invite_timeout s * ns_per_ms ∧ partyForMember invitee s = None) ∧
  (if joined then
     ∃ r i invite, parties s !! party = Some r ∧ invites s !! party = Some i ∧
       i !! invitee = Some invite ∧
       parties s' = <[party := r <| members ::=
         <[invitee := {| member_session_id := invitee;
                         member_user_id := invitee_user_id invite |}]> |>]> (parties s) ∧
       partyForMember invitee s' = Some party ∧
       ∀ other, other ≠ invitee → partyForMember other s' = partyForMember other s
   else parties s' = parties s ∧ member_index s' = member_index s) ∧
  ∀ later, (acceptInvite party invitee later s').1.1 = false.
Proof.
  intros Hok. unfold acceptInvite.
  destruct (parties s !! party) as [r|] eqn:Er.
  2:{ split_and!; try done; [naive_solver|]. intros. by rewrite Er. }
  destruct (invites s !! party) as [i|] eqn:Ei.
  2:{ split_and!; try done; [naive_solver|]. intros. by rewrite Er, Ei. }
  destruct (i !! invitee) as [invite|] eqn:Ev.
  2:{ split_and!; try done; [naive_solver|]. intros. by rewrite Er, Ei, Ev. }
  destruct (invite_expired s now invite) eqn:Ex; unfold invite_expired in Ex; bool_props.
  { split_and!; try done.
    - split; [done|]. intros (? & ? & ? & ? & ? & ? & ? & ?). simplify_eq. lia.
    - intros later. cbn. by rewrite Er, lookup_insert_eq, lookup_delete_eq. }
  case_bool_decide as Hm.
  { split_and!; try done.
    - split; [done|]. intros (? & ? & ? & ? & ? & ? & ? & Hn). unfold partyForMember in Hn.
      destruct Hm. congruence.
    - intros later. cbn. by rewrite Er, lookup_insert_eq, lookup_delete_eq. }
  apply eq_None_not_Some in Hm. unfold partyForMember. cbn -[emplace].
  assert (Hfresh : members r !! invitee = None).
  { apply eq_None_not_Some. intros Hs%elem_of_dom.
    assert (member_index s !! invitee = Some party).
    { eapply member_indexed; [apply Hok|done|]. done. }
    congruence. }
  rewrite emplace_fresh by done. split_and!.
  - naive_solver.
  - exists r, i, invite. split_and!; try done; [apply lookup_insert_eq|].
    intros. by rewrite lookup_insert_ne.
  - intros later. by rewrite !lookup_insert_eq, lookup_delete_eq.
Qed.

Lemma acceptInvite_spec_witness :
  let s := run_ops (H := bucket_order) [OpCreate 1 "a"; OpInvite 1 1 2 "b" 0] new_PartyService in
  let '(joined, s', _) := acceptInvite (H := bucket_order) 1 2 5 s in
  (joined = true ↔ ∃ r i invite,
     parties s !! 1 = Some r ∧ invites s !! 1 = Some i ∧ i !! 2 = Some invite ∧
     5 - sent_at invite <= invite_timeout s * ns_per_ms ∧ partyForMember 2 s = None) ∧
  (if joined then
     ∃ r i invite, parties s !! 1 = Some r ∧ invites s !! 1 = Some i ∧
       i !! 2 = Some invite ∧
       parties s' = <[1 := r <| members ::=
         <[2 := {| member_session_id := 2;
                   member_user_id := invitee_user_id invite |}]> |>]> (parties s) ∧
       partyForMember 2 s' = Some 1 ∧
       ∀ other, other ≠ 2 → partyForMember other s' = partyForMember other s
   else parties s' = parties s ∧ member_index s' = member_index s) ∧
  ∀ later, (acceptInvite (H := bucket_order) 1 2 later s').1.1 = false.
Proof.
  apply (acceptInvite_spec (H := bucket_order)). apply run_ops_ok; [apply new_PartyService_ok|].
  by vm_compute.
Defined.

(** C20: a reconnect that moves a session to a new id keeps its place: the new session is
    in the party the old one was in, with the same user id, as leader when the old one
    was; the old session is in no party; every other session stays where it was. *)
Theorem replaceMemberSession_spec `{HashOrder} old new s :
  service_ok s → old ≠ new →
  let '(moved, s') := replaceMemberSession old new s in
  (moved = true ↔ is_Some (partyForMember old s) ∧ partyForMember new s = None) ∧
  (if moved then
     partyForMember new s' = partyForMember old s ∧ partyForMember old s' = None ∧
     (∀ other, other ≠ old → other ≠ new → partyForMember other s' = partyForMember other s) ∧
     ∀ p, partyForMember old s = Some p →
       ∃ r r' member, parties s !! p = Some r ∧ parties s' !! p = Some r' ∧
         members r !! old = Some member ∧
         members r' !! new = Some {| member_session_id := new;
                                     member_user_id := member_user_id member |} ∧
         (leader_session_id r = old → leader_session_id r' = new) ∧
         (leader_session_id r ≠ old → leader_session_id r' = leader_session_id r)
   else s' = s).
Proof.
  intros Hok Hne. unfold replaceMemberSession, partyForMember.
  rewrite (proj2 (Z.eqb_neq old new)) by done.
  destruct (member_index s !! old) as [p|] eqn:Ep; [|naive_solver].
  case_bool_decide as Hn.
  { split; [|done]. split; [done|]. intros [_ E]. rewrite E in Hn. by destruct Hn. }
  apply eq_None_not_Some in Hn.
  destruct (group_of_index _ _ _ Hok Ep) as (r & m & Hr & Hm & _). rewrite Hr, Hm.
  split; [naive_solver|]. cbn [member_index parties update_field leader_session_id].
  rewrite lookup_insert_eq, lookup_insert_ne, lookup_delete_eq by done. split_and!; try done.
  - intros. by rewrite lookup_insert_ne, lookup_delete_ne.
  - intros p' [= <-]. exists r. eexists _, m. split; [done|].
    split; [apply lookup_insert_eq|]. split_and!; try done.
    + assert (Hf : delete old (members r) !! new = None).
      { rewrite lookup_delete_ne by done. apply eq_None_not_Some. intros Hs%elem_of_dom.
        assert (member_index s !! new = Some p)
          by (eapply member_indexed; [apply Hok|exact Hr|done]). congruence. }
      case_match; cbn -[emplace]; rewrite emplace_fresh by done; apply lookup_insert_eq.
    + intros El. apply Z.eqb_eq in El. by rewrite El.
    + intros El. apply Z.eqb_neq in El. by rewrite El.
Qed.

Lemma replaceMemberSession_spec_witness :
  let s := run_ops (H := bucket_order) [OpCreate 1 "a"] new_PartyService in
  let '(moved, s') := replaceMemberSession 1 7 s in
  (moved = true ↔ is_Some (partyForMember 1 s) ∧ partyForMember 7 s = None) ∧
  (if moved then
     partyForMember 7 s' = partyForMember 1 s ∧ partyForMember 1 s' = None ∧
     (∀ other, other ≠ 1 → other ≠ 7 → partyForMember other s' = partyForMember other s) ∧
     ∀ p, partyForMember 1 s = Some p →
       ∃ r r' member, parties s !! p = Some r ∧ parties s' !! p = Some r' ∧
         members r !! 1 = Some member ∧
         members r' !! 7 = Some {| member_session_id := 7;
                                   member_user_id := member_user_id member |} ∧
         (leader_session_id r = 1 → leader_session_id r' = 7) ∧
         (leader_session_id r ≠ 1 → leader_session_id r' = leader_session_id r)
   else s' = s).
Proof.
  apply (replaceMemberSession_spec (H := bucket_order)); [|done].
  apply run_ops_ok; [apply new_PartyService_ok|]. by vm_compute.
Defined.

(** A party ends with its leader: when the leader leaves (or disconnects), or disbands
    the party, the party, its invites and its members' entries are gone, all other
    sessions keep their party, and each former member is told exactly once. *)
Theorem leader_ends_party `{HashOrder} party leader r s :
  service_ok s → parties s !! party = Some r → leader_session_id r = leader →
  removeMember leader s = disbandParty party leader s ∧
  let '(done, s', calls) := removeMember leader s in
  done = true ∧ parties s' = delete party (parties s) ∧ invites s' !! party = None ∧
  (∀ session, partyForMember session s' =
     if decide (partyForMember session s = Some party) then None
     else partyForMember session s) ∧
  calls.*1 ≡ₚ (if event_sink s then elements (dom (members r)) else []) ∧
  Forall (λ call, event_type call.2 = Disbanded ∧ event_party_id call.2 = party) calls.
Proof.
  intros Hok Hr Hl. pose proof Hok as [_ Hg _ _].
  destruct (groups_each _ _ _ Hg _ _ Hr) as (_ & _ & Hlead). cbn in Hlead. rewrite Hl in Hlead.
  assert (Hi : member_index s !! leader = Some party)
    by (eapply member_indexed; [done|done|exact Hlead]).
  unfold removeMember, disbandParty. rewrite Hi, Hr, Hl, Z.eqb_refl. cbn [negb].
  split; [done|]. unfold disband, partyForMember. cbn. split_and!; try done.
  - apply lookup_delete_eq.
  - intros session. rewrite lookup_erase_all.
    assert (X : session ∈ member_keys r ↔ member_index s !! session = Some party).
    { rewrite elem_of_member_keys, (groups_indexed _ _ _ Hg session party). naive_solver. }
    by repeat case_decide; try tauto.
  - unfold emitToParty. destruct (event_sink s); [|done].
    rewrite <- list_fmap_compose. cbn. unfold compose. cbn. rewrite list_fmap_id.
    apply NoDup_Permutation; [apply NoDup_hash_iter_keys|apply NoDup_elements|].
    intros k. by rewrite elem_of_member_keys, elem_of_elements.
  - unfold emitToParty. destruct (event_sink s); [|constructor].
    by apply Forall_fmap, Forall_true.
Qed.

Lemma leader_ends_party_witness :
  let s := run_ops (H := bucket_order) sample_ops new_PartyService in
  let r := {| party_id := 1; leader_session_id := 9; members :=
    {[ 2 := {| member_session_id := 2; member_user_id := "b" |};
       9 := {| member_session_id := 9; member_user_id := "a" |} ]} |} in
  removeMember (H := bucket_order) 9 s = disbandParty (H := bucket_order) 1 9 s ∧
  let '(done, s', calls) := removeMember (H := bucket_order) 9 s in
  done = true ∧ parties s' = delete 1 (parties s) ∧ invites s' !! 1 = None ∧
  (∀ session, partyForMember session s' =
     if decide (partyForMember session s = Some 1) then None
     else partyForMember session s) ∧
  calls.*1 ≡ₚ (if event_sink s then elements (dom (members r)) else []) ∧
  Forall (λ call, event_type call.2 = Disbanded ∧ event_party_id call.2 = 1) calls.
Proof.
  apply (leader_ends_party (H := bucket_order)).
  - apply run_ops_ok; [apply new_PartyService_ok|]. by vm_compute.
  - by vm_compute.
  - done.
Defined.

(** C21: [expireInvites] removes exactly the invites older than the timeout and nothing
    else, returns their number, and tells the invitee of each (and the members of its
    party) that it expired, and nobody anything else. *)
Theorem expireInvites_exact `{HashOrder} now s :
  service_ok s →
  let '(count, s', calls) := expireInvites now s in
  (∀ p i, invites s' !! p = Some i ↔
     ∃ i0, invites s !! p = Some i0 ∧ i = filter (λ e, invite_expired s now e.2 = false) i0) ∧
  parties s' = parties s ∧ member_index s' = member_index s ∧
  count = u64 (sum_Z ((λ e, Z.of_nat (size (filter (λ e, invite_expired s now e.2 = true)
                                            (default ∅ (invites s !! e.1)))))
                      <$> hash_iter (parties s))) ∧
  (∀ call, call ∈ calls ↔ event_sink s = true ∧ ∃ p r i invitee invite,
     parties s !! p = Some r ∧ invites s !! p = Some i ∧ i !! invitee = Some invite ∧
     invite_expired s now invite = true ∧ call.2 = expired_event p invitee ∧
     (call.1 = invitee ∨ is_Some (members r !! call.1))).
Proof.
  intros Hok. rewrite expireInvites_eq by done. cbn -[sum_Z]. split_and!; try done.
  - intros p i. rewrite lookup_fmap_Some.
    assert (Hf : ∀ m, live_invites s now m = filter (λ e, invite_expired s now e.2 = false) m).
    { intros m. apply map_filter_ext. intros k x _. unfold expired_entry. cbn.
      destruct (invite_expired s now x); split; congruence. }
    setoid_rewrite Hf. naive_solver.
  - intros [target event]. rewrite list_elem_of_bind. unfold expiry_calls.
    unfold emitToParty, emitToInvitee. cbn [fst snd]. split.
    + intros ([p r] & Hcall & Hpr%elem_of_hash_iter).
      apply list_elem_of_bind in Hcall as ([k x] & Hcall & Hk). cbn [fst snd] in *.
      apply list_elem_of_filter in Hk as [Hex Hk%elem_of_hash_iter].
      destruct (invites s !! p) as [i|] eqn:Ei; cbn in Hk; [|done].
      destruct (event_sink s); [|set_solver]. split; [done|]. exists p, r, i, k, x.
      apply elem_of_app in Hcall as [Hcall|Hcall].
      * apply list_elem_of_fmap in Hcall as (k' & [= -> ->] & Hk').
        apply elem_of_member_keys, elem_of_dom in Hk'. naive_solver.
      * apply list_elem_of_singleton in Hcall as [= -> ->]. naive_solver.
    + intros (-> & p & r & i & k & x & Hp & Hi & Hk & Hex & -> & Ht).
      exists (p, r). cbn [fst snd]. rewrite Hi. split; [|by apply elem_of_hash_iter].
      apply list_elem_of_bind. exists (k, x). cbn [fst snd]. split.
      * apply elem_of_app. destruct Ht as [->|Ht]; [right; set_solver|left].
        apply list_elem_of_fmap. exists target. split; [done|].
        by apply elem_of_member_keys, elem_of_dom.
      * apply list_elem_of_filter. split; [done|]. by apply elem_of_hash_iter.
Qed.

Lemma expireInvites_exact_witness :
  let s := run_ops (H := bucket_order) [OpCreate 1 "a"; OpInvite 1 1 2 "b" 0] new_PartyService in
  let now := 300000000001 in
  let '(count, s', calls) := expireInvites (H := bucket_order) now s in
  (∀ p i, invites s' !! p = Some i ↔
     ∃ i0, invites s !! p = Some i0 ∧ i = filter (λ e, invite_expired s now e.2 = false) i0) ∧
  parties s' = parties s ∧ member_index s' = member_index s ∧
  count = u64 (sum_Z ((λ e, Z.of_nat (size (filter (λ e, invite_expired s now e.2 = true)
                                            (default ∅ (invites s !! e.1)))))
                      <$> hash_iter (HashOrder := bucket_order) (parties s))) ∧
  (∀ call, call ∈ calls ↔ event_sink s = true ∧ ∃ p r i invitee invite,
     parties s !! p = Some r ∧ invites s !! p = Some i ∧ i !! invitee = Some invite ∧
     invite_expired s now invite = true ∧ call.2 = expired_event p invitee ∧
     (call.1 = invitee ∨ is_Some (members r !! call.1))).
Proof.
  apply (expireInvites_exact (H := bucket_order)).
  apply run_ops_ok; [apply new_PartyService_ok|]. by vm_compute.
Defined.

(** What [getPartyInfo] reports does not depend on the iteration order of the hash
    map: the members, each once, by increasing session id. *)
Theorem getPartyInfo_order_independent (H1 H2 : HashOrder) party s :
  service_ok s →
  getPartyInfo (H := H1) party s = getPartyInfo (H := H2) party s ∧
  ∀ r, parties s !! party = Some r →
    ∃ info, getPartyInfo (H := H1) party s = Some info ∧
      PartyInfo_party_id info = party ∧
      PartyInfo_leader_session_id info = leader_session_id r ∧
      Sorted Z.lt (member_session_id <$> PartyInfo_members info) ∧
      (member_session_id <$> PartyInfo_members info) ≡ₚ elements (dom (members r)) ∧
      PartyInfo_members info ≡ₚ (map_to_list (members r)).*2.
Proof.
  intros Hok. unfold getPartyInfo. destruct (parties s !! party) as [r|] eqn:Er; [|done].
  pose proof Hok as [_ Hg Hk _]. specialize (Hk _ _ Er). cbn in Hk.
  destruct (groups_each _ _ _ Hg _ _ Er) as (Hid & _ & _).
  assert (Hperm : ∀ Hx : HashOrder,
    merge_sort by_session (hash_iter (HashOrder := Hx) (members r)).*2 ≡ₚ
    (map_to_list (members r)).*2).
  { intros Hx. rewrite merge_sort_Permutation. f_equiv. apply hash_iter_perm. }
  assert (Hkeys : member_session_id <$> (map_to_list (members r)).*2 =
                  (map_to_list (members r)).*1).
  { rewrite <- list_fmap_compose. apply list_fmap_ext. intros i [k x] Hx%list_elem_of_lookup_2.
    apply elem_of_map_to_list in Hx. by apply Hk. }
  assert (Htotal : Total by_session) by (intros a b; unfold by_session; lia).
  assert (Htrans : Transitive by_session) by (intros a b c; unfold by_session; lia).
  split.
  - f_equal. f_equal. eapply (Sorted_unique_strong by_session).
    + intros a b Ha Hb Hab Hba. rewrite Hperm in Ha, Hb.
      assert (E : member_session_id a = member_session_id b) by (unfold by_session in *; lia).
      apply list_elem_of_fmap in Ha as ([ka a'] & -> & Ha%elem_of_map_to_list).
      apply list_elem_of_fmap in Hb as ([kb b'] & -> & Hb%elem_of_map_to_list).
      pose proof (Hk _ _ Ha). pose proof (Hk _ _ Hb). cbn in *. congruence.
    + apply (Sorted_merge_sort by_session).
    + apply (Sorted_merge_sort by_session).
    + by rewrite !Hperm.
  - intros r' [= <-]. eexists. split; [done|]. cbn -[merge_sort].
    split_and!; [done|done| | |apply Hperm].
    + apply StronglySorted_Sorted. 
      set (l := merge_sort _ _).
      assert (Hs : StronglySorted by_session l)
        by (apply Sorted_StronglySorted; [done|apply (Sorted_merge_sort by_session)]).
      assert (Hnd : NoDup (member_session_id <$> l)).
      { subst l. rewrite Hperm, Hkeys. apply NoDup_fst_map_to_list. }
      clearbody l. induction Hs as [|a l Hs IH Ha]; [constructor|]. cbn in *.
      apply NoDup_cons in Hnd as [Hna Hnd]. constructor; [auto|].
      apply Forall_forall. intros z Hz.
      assert (z ≠ member_session_id a) by congruence.
      apply list_elem_of_fmap in Hz as (b & -> & Hb).
      rewrite Forall_forall in Ha. specialize (Ha b Hb). unfold by_session in Ha. lia.
    + rewrite Hperm, Hkeys. apply NoDup_Permutation;
        [apply NoDup_fst_map_to_list|apply NoDup_elements|].
      intros k. rewrite elem_of_elements, elem_of_dom, list_elem_of_fmap. split.
      * intros ([k' x] & -> & Hx%elem_of_map_to_list). eauto.
      * intros [x Hx]. exists (k, x). by rewrite elem_of_map_to_list.
Qed.

Lemma getPartyInfo_order_independent_witness :
  let s := run_ops (H := bucket_order) sample_ops new_PartyService in
  getPartyInfo (H := bucket_order) 1 s = getPartyInfo (H := bucket_order) 1 s ∧
  ∀ r, parties s !! 1 = Some r →
    ∃ info, getPartyInfo (H := bucket_order) 1 s = Some info ∧
      PartyInfo_party_id info = 1 ∧
      PartyInfo_leader_session_id info = leader_session_id r ∧
      Sorted Z.lt (member_session_id <$> PartyInfo_members info) ∧
      (member_session_id <$> PartyInfo_members info) ≡ₚ elements (dom (members r)) ∧
      PartyInfo_members info ≡ₚ (map_to_list (members r)).*2.
Proof.
  apply getPartyInfo_order_independent.
  apply run_ops_ok; [apply new_PartyService_ok|]. by vm_compute.
Defined.
