(* ===== verification/Guild.v ===== *)
(** * Guilds (src/src/guild/guild.h, guild.cpp)

    [GuildService] as a state, one definition per operation; like a party service, an
    operation returns the calls it makes to the event sink. *)

From S2P Require Import Prelude Groups.

Inductive GuildEventType := Created | Joined | Left | Disbanded.

#[export] Instance GuildEventType_eq_dec : EqDecision GuildEventType.
Proof. solve_decision. Defined.

Record GuildEvent := {
  event_type : GuildEventType;
  event_guild_id : Z;
  actor_user_id : string;
  member_user_ids : list string;
  event_message : string
}.

Record GuildMember := { member_session_id : Z; member_user_id : string }.

Record GuildInfo := {
  GuildInfo_guild_id : Z;
  GuildInfo_leader_session_id : Z;
  GuildInfo_name : string;
  GuildInfo_members : list GuildMember
}.

Record GuildRecord := {
  guild_id : Z;
  leader_session_id : Z;
  guild_name : string;
  members : gmap Z GuildMember
}.

#[export] Instance GuildRecord_rebuild : Rebuild GuildRecord := λ r, {|
  guild_id := guild_id r; leader_session_id := leader_session_id r;
  guild_name := guild_name r; members := members r |}.

Record GuildService := {
  next_guild_id : Z;
  guilds : gmap Z GuildRecord;
  member_index : gmap Z Z;
  event_sink : bool
}.

#[export] Instance GuildService_rebuild : Rebuild GuildService := λ s, {|
  next_guild_id := next_guild_id s; guilds := guilds s; member_index := member_index s;
  event_sink := event_sink s |}.

Definition new_GuildService : GuildService := {|
  next_guild_id := 1; guilds := ∅; member_index := ∅; event_sink := false |}.

(** The order of [std::sort] in [getGuildInfo]. *)
Definition by_session (a b : GuildMember) : Prop := member_session_id a <= member_session_id b.

#[global] Instance by_session_dec : RelDecision by_session.
Proof. intros a b. unfold by_session. apply _. Defined.

(** The calls of the event sink. *)
Abbreviation Emitted := (list (Z * GuildEvent)).

Section operations.
Context `{HashOrder}.

Definition member_keys (guild : GuildRecord) : list Z := (hash_iter (members guild)).*1.

Definition user_ids (guild : GuildRecord) : list string :=
  member_user_id <$> (hash_iter (members guild)).*2.

Definition emitToGuild (sink : bool) (guild : GuildRecord) (event : GuildEvent) : Emitted :=
  if sink then (λ session, (session, event)) <$> member_keys guild else [].

Definition emitToMember (sink : bool) (member : Z) (event : GuildEvent) : Emitted :=
  if sink then [(member, event)] else [].

Definition createGuild (leader : Z) (leader_user_id name : string) (s : GuildService)
    : option Z * GuildService * Emitted :=
  if bool_decide (is_Some (member_index s !! leader)) || string_empty name then (None, s, [])
  else
    let record := {|
      guild_id := next_guild_id s;
      leader_session_id := leader;
      guild_name := name;
      members := emplace leader {| member_session_id := leader;
                                   member_user_id := leader_user_id |} ∅ |} in
    let s := s <| next_guild_id ::= λ n, u64 (n + 1) |>
               <| guilds ::= emplace (guild_id record) record |>
               <| member_index ::= <[leader := guild_id record]> |> in
    (Some (guild_id record), s,
     emitToGuild (event_sink s) record {|
       event_type := Created; event_guild_id := guild_id record;
       actor_user_id := leader_user_id; member_user_ids := [leader_user_id];
       event_message := "Guild created" |}).

Definition joinGuild (guild session : Z) (user_id : string) (s : GuildService)
    : bool * GuildService * Emitted :=
  let? record := guilds s !! guild else (false, s, []) in
  if bool_decide (is_Some (member_index s !! session)) then (false, s, [])
  else
    let record := record <| members ::= emplace session
      {| member_session_id := session; member_user_id := user_id |} |> in
    (true, s <| guilds ::= <[guild := record]> |> <| member_index ::= <[session := guild]> |>,
     emitToGuild (event_sink s) record {|
       event_type := Joined; event_guild_id := guild; actor_user_id := user_id;
       member_user_ids := user_ids record; event_message := "Guild member joined" |}).

(** The leader's branch of [leaveGuild] and [removeMember]. *)
Definition disband (guild : Z) (actor : string) (record : GuildRecord) (s : GuildService)
    : bool * GuildService * Emitted :=
  (true,
   s <| member_index ::= erase_all (member_keys record) |> <| guilds ::= delete guild |>,
   emitToGuild (event_sink s) record {|
     event_type := Disbanded; event_guild_id := guild; actor_user_id := actor;
     member_user_ids := user_ids record; event_message := "Guild disbanded" |}).

(** Their other branch; [leaveGuild] also notifies the member that left. *)
Definition drop_member (guild session : Z) (actor : string) (record : GuildRecord)
    (notify : bool) (s : GuildService) : bool * GuildService * Emitted :=
  let record := record <| members ::= delete session |> in
  let event := {|
    event_type := Left; event_guild_id := guild; actor_user_id := actor;
    member_user_ids := user_ids record; event_message := "Guild member left" |} in
  (true,
   s <| guilds ::= <[guild := record]> |> <| member_index ::= delete session |>,
   emitToGuild (event_sink s) record event ++
   (if notify then emitToMember (event_sink s) session event else [])).

Definition leaveGuild (guild session : Z) (s : GuildService) : bool * GuildService * Emitted :=
  let? record := guilds s !! guild else (false, s, []) in
  let? member := members record !! session else (false, s, []) in
  let actor := member_user_id member in
  if leader_session_id record =? session then disband guild actor record s
  else drop_member guild session actor record true s.

Definition removeMember (session : Z) (s : GuildService) : bool * GuildService * Emitted :=
  let? guild := member_index s !! session else (false, s, []) in
  let unindexed := (false, s <| member_index ::= delete session |>, []) in
  let? record := guilds s !! guild else unindexed in
  let? member := members record !! session else unindexed in
  let actor := member_user_id member in
  if leader_session_id record =? session then disband guild actor record s
  else drop_member guild session actor record false s.

Definition replaceMemberSession (old new : Z) (s : GuildService) : bool * GuildService :=
  if old =? new then (true, s)
  else
    let? guild := member_index s !! old else (false, s) in
    if bool_decide (is_Some (member_index s !! new)) then (false, s)
    else
      let? record := guilds s !! guild else (false, s) in
      let? entry := members record !! old else (false, s) in
      let member := {| member_session_id := new; member_user_id := member_user_id entry |} in
      let record := record <| members ::= λ m, emplace new member (delete old m) |> in
      let record := if leader_session_id record =? old
                    then record <| leader_session_id := new |> else record in
      (true, s <| guilds ::= <[guild := record]> |>
               <| member_index ::= λ m, <[new := guild]> (delete old m) |>).

Definition getGuildInfo (guild : Z) (s : GuildService) : option GuildInfo :=
  let? record := guilds s !! guild else None in
  Some {| GuildInfo_guild_id := guild_id record;
          GuildInfo_leader_session_id := leader_session_id record;
          GuildInfo_name := guild_name record;
          GuildInfo_members := merge_sort by_session ((hash_iter (members record)).*2) |}.

Definition guildForMember (session : Z) (s : GuildService) : option Z :=
  member_index s !! session.

Definition setEventSink (sink : bool) (s : GuildService) : GuildService :=
  s <| event_sink := sink |>.

End operations.

(** ** Well-formed services *)

#[export] Instance GuildRecord_group : Group GuildRecord := {|
  group_id := guild_id;
  group_leader := leader_session_id;
  group_members := λ r, dom (members r);
  group_users := λ r, member_user_id <$> members r;
  dom_group_users := λ r, dom_fmap_L member_user_id (members r)
|}.

Record service_ok (s : GuildService) : Prop := {
  ok_next : 0 < next_guild_id s < 2 ^ 64;
  ok_groups : groups_ok (next_guild_id s) (guilds s) (member_index s);
  ok_named : map_Forall (λ _ r, guild_name r ≠ ""%string) (guilds s)
}.

Inductive guild_op :=
  | OpCreate (leader : Z) (user_id name : string)
  | OpJoin (guild session : Z) (user_id : string)
  | OpLeave (guild session : Z)
  | OpRemove (session : Z)
  | OpReplace (old new : Z)
  | OpSetEventSink (sink : bool).

Section invariant.
Context `{HashOrder}.
Implicit Types (s : GuildService) (r : GuildRecord).

Definition run_op s (op : guild_op) : GuildService :=
  match op with
  | OpCreate leader user_id name => (createGuild leader user_id name s).1.2
  | OpJoin guild session user_id => (joinGuild guild session user_id s).1.2
  | OpLeave guild session => (leaveGuild guild session s).1.2
  | OpRemove session => (removeMember session s).1.2
  | OpReplace old new => (replaceMemberSession old new s).2
  | OpSetEventSink sink => setEventSink sink s
  end.

Definition run_ops (ops : list guild_op) s : GuildService := foldl run_op s ops.

Lemma guild_elem_of_member_keys r k : k ∈ member_keys r ↔ k ∈ dom (members r).
Proof. unfold member_keys. by rewrite elem_of_hash_keys, elem_of_dom. Qed.

Lemma guild_of_index s k g :
  service_ok s → member_index s !! k = Some g →
  ∃ r m, guilds s !! g = Some r ∧ members r !! k = Some m ∧
    group_ok (next_guild_id s) g r ∧ guild_name r ≠ ""%string.
Proof.
  intros [_ Hg Hn] Hi. destruct (index_group _ _ _ _ _ Hg Hi) as (r & Hr & Hm & ?).
  cbn in Hm. apply elem_of_dom in Hm as [m Hm]. exists r, m.
  split_and!; auto. by apply (Hn g r).
Qed.

Lemma not_a_member s g r session :
  service_ok s → guilds s !! g = Some r → member_index s !! session = None →
  members r !! session = None.
Proof.
  intros [_ Hg _] Hr Hn. apply eq_None_not_Some. intros Hs%elem_of_dom.
  assert (member_index s !! session = Some g) by (eapply member_indexed; eauto). congruence.
Qed.

Lemma createGuild_ok leader user name s :
  service_ok s → next_guild_id s + 1 < 2 ^ 64 →
  service_ok (createGuild leader user name s).1.2.
Proof.
  intros Hok Hn. unfold createGuild. destruct (_ || _) eqn:E; [done|]. bool_props.
  unfold string_empty in *. bool_props. cbn -[emplace].
  pose proof Hok as [Hnext Hg Hk].
  rewrite !emplace_fresh by (try done; eapply fresh_id; eauto).
  rewrite wrap_small by lia. split; cbn.
  - lia.
  - apply groups_ok_add; [by eapply groups_ok_next; [|done]; lia|by apply eq_None_not_Some| |].
    + split_and!; cbn; [done|lia|lia|]. rewrite dom_insert. set_solver.
    + cbn. rewrite dom_insert_L, (fresh_id _ _ _ Hg). cbn. set_solver.
  - by apply map_Forall_insert_2.
Qed.

Lemma joinGuild_ok guild session user s :
  service_ok s → service_ok (joinGuild guild session user s).1.2.
Proof.
  intros Hok. unfold joinGuild. destruct (guilds s !! guild) as [r|] eqn:Er; [|done].
  case_bool_decide as Hm; [done|]. apply eq_None_not_Some in Hm. cbn -[emplace].
  rewrite emplace_fresh by (by eapply not_a_member).
  pose proof Hok as [Hn Hg Hk].
  destruct (groups_each _ _ _ Hg _ _ Er) as (Hid & Hrange & Hl). cbn in Hl.
  split; cbn.
  - done.
  - apply groups_ok_add; [done|done| |].
    + split_and!; cbn; [done|lia|lia|]. rewrite dom_insert. set_solver.
    + rewrite Er. cbn. by rewrite dom_insert_L.
  - apply map_Forall_insert_2; [|done]. exact (Hk guild r Er).
Qed.

Lemma guild_disband_ok guild actor r s :
  service_ok s → guilds s !! guild = Some r → service_ok (disband guild actor r s).1.2.
Proof.
  intros [Hn Hg Hk] Hr. split; cbn.
  - done.
  - eapply groups_ok_disband; [done|done|]. apply guild_elem_of_member_keys.
  - by apply map_Forall_delete.
Qed.

Lemma drop_member_ok guild session actor r m notify s :
  service_ok s → guilds s !! guild = Some r → members r !! session = Some m →
  leader_session_id r ≠ session →
  service_ok (drop_member guild session actor r notify s).1.2.
Proof.
  intros [Hn Hg Hk] Hr Hm Hl.
  destruct (groups_each _ _ _ Hg _ _ Hr) as (Hid & Hrange & Hlead). cbn in Hlead.
  split; cbn.
  - done.
  - eapply groups_ok_remove; [done|exact Hr| | |].
    + by eapply elem_of_dom_2.
    + split_and!; cbn in *; [done|lia|lia|]. rewrite dom_delete. set_solver.
    + cbn. by rewrite dom_delete_L.
  - apply map_Forall_insert_2; [|done]. exact (Hk guild r Hr).
Qed.

Lemma leaveGuild_ok guild session s :
  service_ok s → service_ok (leaveGuild guild session s).1.2.
Proof.
  intros Hok. unfold leaveGuild. destruct (guilds s !! guild) as [r|] eqn:Er; [|done].
  destruct (members r !! session) as [m|] eqn:Em; [|done].
  destruct (_ =? _) eqn:El; bool_props; [by apply guild_disband_ok|by eapply drop_member_ok].
Qed.

Lemma guild_removeMember_ok session s : service_ok s → service_ok (removeMember session s).1.2.
Proof.
  intros Hok. unfold removeMember. destruct (member_index s !! session) as [g|] eqn:Eg; [|done].
  destruct (guild_of_index _ _ _ Hok Eg) as (r & m & Hr & Hm & _). rewrite Hr, Hm.
  destruct (_ =? _) eqn:El; bool_props; [by apply guild_disband_ok|by eapply drop_member_ok].
Qed.

Lemma guild_replaceMemberSession_ok old new s :
  service_ok s → service_ok (replaceMemberSession old new s).2.
Proof.
  intros Hok. unfold replaceMemberSession. destruct (old =? new) eqn:Eon; [done|]. bool_props.
  destruct (member_index s !! old) as [g|] eqn:Eg; [|done].
  case_bool_decide as Hnew; [done|]. apply eq_None_not_Some in Hnew.
  destruct (guild_of_index _ _ _ Hok Eg) as (r & m & Hr & Hm & (Hid & Hrange & Hl) & Hname).
  rewrite Hr, Hm. cbn -[emplace] in *. pose proof Hok as [Hn Hg Hk].
  rewrite emplace_fresh
    by (rewrite lookup_delete_ne by done; by eapply not_a_member).
  set (r' := if leader_session_id r =? old then _ else _).
  assert (Hr' : group_ok (next_guild_id s) g r' ∧
                dom (members r') = {[new]} ∪ dom (members r) ∖ {[old]} ∧
                guild_name r' ≠ ""%string).
  { subst r'. destruct (_ =? _) eqn:El; bool_props; unfold group_ok; cbn;
      rewrite dom_insert_L, dom_delete_L; split_and!; try done; try lia; set_solver. }
  destruct Hr' as (Hr1 & Hr2 & Hr3). split; cbn.
  - done.
  - eapply groups_ok_rename; try done. cbn. by eapply elem_of_dom_2.
  - by apply map_Forall_insert_2.
Qed.

(** ** Seats *)

(** The seat of a session in its guild. *)
Definition seat_of (s : GuildService) (k : Z) : option Seat := seat (guilds s) (member_index s) k.

Lemma guild_seats_after_replace old new s j :
  service_ok s → old ≠ new →
  seat_of (replaceMemberSession old new s).2 j = take_seat old new (seat_of s) j.
Proof.
  intros Hok Hne. pose proof (ok_groups _ Hok) as Hg. unfold replaceMemberSession, seat_of.
  rewrite (proj2 (Z.eqb_neq old new)) by done.
  destruct (member_index s !! old) as [p|] eqn:Ep; [|by rewrite (take_seat_absent _ _ _ _ _ _ Hg)].
  case_bool_decide as Hn.
  { destruct Hn as [g Hn]. by rewrite (take_seat_occupied _ _ _ _ _ g _ Hg Hn). }
  apply eq_None_not_Some in Hn.
  destruct (guild_of_index _ _ _ Hok Ep) as (r & m & Hr & Hm & _ & _). rewrite Hr, Hm.
  assert (Hf : delete old (members r) !! new = None).
  { rewrite lookup_delete_ne by done. apply eq_None_not_Some. intros Hs%elem_of_dom.
    assert (member_index s !! new = Some p) by (eapply member_indexed; done). congruence. }
  cbn [guilds member_index update_field snd].
  apply (seat_rename _ _ _ p old new r _ (member_user_id m) j Hg); try done; cbn -[emplace].
  - by rewrite lookup_fmap, Hm.
  - by destruct (leader_session_id r =? old).
  - destruct (leader_session_id r =? old); cbn -[emplace]; rewrite emplace_fresh by done;
      by rewrite fmap_insert, fmap_delete.
Qed.

Lemma guild_seats_after_remove k s j :
  service_ok s → seat_of (removeMember k s).1.2 j = leave_seats (Z.eqb k) (seat_of s) j.
Proof.
  intros Hok. pose proof (ok_groups _ Hok) as Hg. unfold removeMember, seat_of.
  destruct (member_index s !! k) as [p|] eqn:Ep; [|by rewrite (leave_seats_absent _ _ _ _ _ Hg)].
  destruct (guild_of_index _ _ _ Hok Ep) as (r & m & Hr & Hm & _ & _). rewrite Hr, Hm.
  destruct (leader_session_id r =? k) eqn:El; bool_props.
  - rewrite <- El. apply (seat_disband _ _ _ p r _ j Hg Hr). apply guild_elem_of_member_keys.
  - apply (seat_remove _ _ _ p k r _ j Hg); try done. cbn. by rewrite fmap_delete.
Qed.

Lemma guild_run_op_ok s op :
  service_ok s → next_guild_id s + 1 < 2 ^ 64 → service_ok (run_op s op).
Proof.
  intros Hok Hn. destruct op; cbn [run_op];
    auto using createGuild_ok, joinGuild_ok, leaveGuild_ok, guild_removeMember_ok,
      guild_replaceMemberSession_ok.
  by destruct Hok; split.
Qed.

Lemma guild_run_op_next s op :
  service_ok s → next_guild_id s + 1 < 2 ^ 64 →
  next_guild_id (run_op s op) <= next_guild_id s + 1.
Proof.
  intros Hok Hn. pose proof (ok_next _ Hok).
  destruct op; cbn [run_op];
    unfold joinGuild, leaveGuild, removeMember, replaceMemberSession, disband, drop_member;
    try (repeat case_match; cbn; lia).
  unfold createGuild. destruct (_ || _); cbn; [lia|]. rewrite wrap_small; lia.
Qed.

Lemma guild_run_op_keeps s op :
  (∀ leader user_id name, op ≠ OpCreate leader user_id name) →
  next_guild_id (run_op s op) = next_guild_id s.
Proof.
  intros Hop. destruct op as [leader user_id name| | | | |]; [by destruct (Hop leader user_id name)|..];
    cbn [run_op];
    unfold joinGuild, leaveGuild, removeMember, replaceMemberSession, disband, drop_member;
    by repeat (case_match; simplify_eq/=).
Qed.

Lemma guild_run_ops_ok ops s :
  service_ok s → next_guild_id s + Z.of_nat (length ops) < 2 ^ 64 →
  service_ok (run_ops ops s).
Proof.
  revert s. induction ops as [|op ops IH]; intros s Hok Hn; [done|].
  cbn [run_ops foldl length] in *. apply IH; [apply guild_run_op_ok; [done|lia]|].
  pose proof (guild_run_op_next s op Hok). lia.
Qed.

Lemma new_GuildService_ok : service_ok new_GuildService.
Proof. split; cbn; [lia|apply groups_ok_empty|apply map_Forall_empty]. Qed.

End invariant.

(** ** Properties *)

(** C22: whatever the operations, a guild service stays well formed while fewer than
    2^64 - 1 of them ran: the index holds exactly the members of the guilds, a session is
    in at most one guild, each guild has a name and its leader among its members, and
    lies under its own id. *)
Theorem guild_service_invariant `{HashOrder} ops :
  Z.of_nat (length ops) < 2 ^ 64 - 1 →
  let s := run_ops ops new_GuildService in
  service_ok s ∧
  (∀ session g h r r',
     guilds s !! g = Some r → guilds s !! h = Some r' →
     is_Some (members r !! session) → is_Some (members r' !! session) → g = h) ∧
  (∀ session g, guildForMember session s = Some g ↔
     ∃ r, guilds s !! g = Some r ∧ is_Some (members r !! session)).
Proof.
  intros Hlen s. assert (Hok : service_ok s).
  { apply guild_run_ops_ok; [apply new_GuildService_ok|]. change (next_guild_id _) with 1. lia. }
  pose proof Hok as [_ Hg _]. split_and!; [done| |].
  - intros session g h r r' Hp Hq Hs Hs'.
    eapply one_group; [exact Hg|done|done|..]; by apply elem_of_dom.
  - intros session g. unfold guildForMember. rewrite (groups_indexed _ _ _ Hg session g).
    cbn. by setoid_rewrite elem_of_dom.
Qed.

Definition sample_ops : list guild_op :=
  [OpSetEventSink true; OpCreate 1 "a" "g"; OpJoin 1 2 "b"; OpReplace 1 9].

Lemma guild_service_invariant_witness :
  let s := run_ops (H := bucket_order) sample_ops new_GuildService in
  guildForMember 9 s = Some 1 ∧ service_ok s ∧
  (∀ session g h r r',
     guilds s !! g = Some r → guilds s !! h = Some r' →
     is_Some (members r !! session) → is_Some (members r' !! session) → g = h) ∧
  (∀ session g, guildForMember session s = Some g ↔
     ∃ r, guilds s !! g = Some r ∧ is_Some (members r !! session)).
Proof.
  split; [by vm_compute|]. apply (guild_service_invariant (H := bucket_order)). by vm_compute.
Defined.

(** Leaving a guild succeeds exactly for its members. The leader's leave ends the
    guild for all: it is gone and no former member is in a guild. Any other member's
    leave takes that member alone out; the remaining members and the one that left are
    told so, each exactly once. All other sessions keep their guild. *)
Theorem leaveGuild_spec `{HashOrder} guild session s :
  service_ok s →
  let '(gone, s', calls) := leaveGuild guild session s in
  (gone = true ↔ guildForMember session s = Some guild) ∧
  (gone = false → s' = s ∧ calls = []) ∧
  (gone = true → ∃ r, guilds s !! guild = Some r ∧
     if bool_decide (leader_session_id r = session) then
       guilds s' = delete guild (guilds s) ∧
       (∀ other, guildForMember other s' =
          if decide (guildForMember other s = Some guild) then None
          else guildForMember other s) ∧
       calls.*1 ≡ₚ (if event_sink s then elements (dom (members r)) else [])
     else
       guilds s' = <[guild := r <| members ::= delete session |>]> (guilds s) ∧
       member_index s' = delete session (member_index s) ∧
       calls.*1 ≡ₚ (if event_sink s then elements (dom (members r)) else [])).
Proof.
  intros Hok. pose proof Hok as [_ Hg _]. unfold leaveGuild, guildForMember.
  pose proof (groups_indexed _ _ _ Hg session guild) as Hi. cbn in Hi.
  setoid_rewrite elem_of_dom in Hi.
  destruct (guilds s !! guild) as [r|] eqn:Er.
  2:{ split_and!; try done. rewrite Hi. naive_solver. }
  destruct (members r !! session) as [m|] eqn:Em.
  2:{ split_and!; try done. rewrite Hi. split; [done|]. intros (? & [= <-] & [? E]). congruence. }
  assert (Hcalls : ∀ (rec : GuildRecord) e, (emitToGuild true rec e).*1 = member_keys rec).
  { intros rec e. unfold emitToGuild. rewrite <- list_fmap_compose. apply list_fmap_id. }
  destruct (_ =? _) eqn:El; bool_props; unfold disband, drop_member; cbn -[fmap emitToGuild];
    (split_and!; [rewrite Hi; naive_solver|done|]); intros _; exists r; (split; [done|]).
  - rewrite bool_decide_eq_true_2 by done. split_and!; [done| |].
    + intros other. rewrite lookup_erase_all.
      assert (X : other ∈ member_keys r ↔ member_index s !! other = Some guild).
      { rewrite guild_elem_of_member_keys, (groups_indexed _ _ _ Hg other guild). naive_solver. }
      by repeat case_decide; try tauto.
    + destruct (event_sink s); [|done]. rewrite Hcalls.
      apply NoDup_Permutation; [apply NoDup_hash_iter_keys|apply NoDup_elements|].
      intros k. by rewrite guild_elem_of_member_keys, elem_of_elements.
  - rewrite bool_decide_eq_false_2 by done. split_and!; [done|done|].
    destruct (event_sink s); [|done]. rewrite fmap_app, Hcalls. cbn.
    apply NoDup_Permutation; [|apply NoDup_elements|].
    + apply NoDup_app. split_and!; [apply NoDup_hash_iter_keys| |apply NoDup_singleton].
      intros k Hk%guild_elem_of_member_keys. cbn in Hk. set_solver.
    + intros k. rewrite elem_of_app, guild_elem_of_member_keys, elem_of_elements. cbn.
      rewrite dom_delete, list_elem_of_singleton.
      apply elem_of_dom_2 in Em. destruct (decide (k = session)); set_solver.
Qed.

Lemma leaveGuild_spec_witness :
  let s := run_ops (H := bucket_order) sample_ops new_GuildService in
  let '(gone, s', calls) := leaveGuild (H := bucket_order) 1 2 s in
  (gone = true ↔ guildForMember 2 s = Some 1) ∧
  (gone = false → s' = s ∧ calls = []) ∧
  (gone = true → ∃ r, guilds s !! 1 = Some r ∧
     if bool_decide (leader_session_id r = 2) then
       guilds s' = delete 1 (guilds s) ∧
       (∀ other, guildForMember other s' =
          if decide (guildForMember other s = Some 1) then None
          else guildForMember other s) ∧
       calls.*1 ≡ₚ (if event_sink s then elements (dom (members r)) else [])
     else
       guilds s' = <[1 := r <| members ::= delete 2 |>]> (guilds s) ∧
       member_index s' = delete 2 (member_index s) ∧
       calls.*1 ≡ₚ (if event_sink s then elements (dom (members r)) else [])).
Proof.
  apply (leaveGuild_spec (H := bucket_order)).
  apply guild_run_ops_ok; [apply new_GuildService_ok|]. by vm_compute.
Defined.
