(* ===== verification/Chat.v ===== *)
(** * Chat (src/src/chat/chat.h, chat.cpp)

    [ChatService] has no state but its event sink. *)

From S2P Require Import Prelude.

Inductive ChatChannel := Global | Party.

Record ChatMessage := {
  channel : ChatChannel;
  message_party_id : Z;
  sender_session_id : Z;
  sender_user_id : string;
  text : string
}.

Record ChatService := { event_sink : bool }.

Definition new_ChatService : ChatService := {| event_sink := false |}.

Definition setEventSink (sink : bool) (s : ChatService) : ChatService := {| event_sink := sink |}.

Definition emitToRecipients (message : ChatMessage) (recipients : list Z) (s : ChatService)
    : list (Z * ChatMessage) :=
  if event_sink s then (λ recipient, (recipient, message)) <$> recipients else [].

(** The guard both operations start with. *)
Definition refuses (message : string) (recipients : list Z) (s : ChatService) : bool :=
  negb (event_sink s) || string_empty message || bool_decide (recipients = []).

Definition sendGlobal (sender : Z) (user_id message : string) (recipients : list Z)
    (s : ChatService) : bool * list (Z * ChatMessage) :=
  if refuses message recipients s then (false, [])
  else (true, emitToRecipients {| channel := Global; message_party_id := 0;
                                  sender_session_id := sender; sender_user_id := user_id;
                                  text := message |} recipients s).

Definition sendParty (sender : Z) (user_id : string) (party_id : Z) (message : string)
    (recipients : list Z) (s : ChatService) : bool * list (Z * ChatMessage) :=
  if refuses message recipients s then (false, [])
  else (true, emitToRecipients {| channel := Party; message_party_id := party_id;
                                  sender_session_id := sender; sender_user_id := user_id;
                                  text := message |} recipients s).

(** A send that is accepted reaches each recipient, in order. *)
Lemma send_recipients sender user_id party_id message recipients s :
  (sendGlobal sender user_id message recipients s).2.*1 =
    (if (sendGlobal sender user_id message recipients s).1 then recipients else []) ∧
  (sendParty sender user_id party_id message recipients s).2.*1 =
    (if (sendParty sender user_id party_id message recipients s).1 then recipients else []).
Proof.
  unfold sendGlobal, sendParty, emitToRecipients, refuses.
  destruct (event_sink s), (string_empty message); try done. cbn.
  case_bool_decide; [done|]. cbn.
  split; rewrite <- list_fmap_compose; apply list_fmap_id.
Qed.
