(* ===== verification/Match.v ===== *)
(** * Matchmaking (src/src/match/match_queue.h, match_queue.cpp)

    The queue is the vector, in order. Ratings and deltas are [int]s whose arithmetic
    overflows only outside the supported range (undefined behaviour), so they are plain
    integers; waiting times are doubles. *)

From S2P Require Import Prelude Float.

Record MatchRule := {
  max_mmr_delta : Z;
  expansion_per_second : Z;
  min_party_size : Z;
  max_party_size : Z
}.

Definition default_MatchRule : MatchRule := {|
  max_mmr_delta := 100; expansion_per_second := 5; min_party_size := 1; max_party_size := 5 |}.

Record MatchCandidate := {
  candidate_party_id : Z;
  mmr : Z;
  party_size : Z;
  enqueue_time : Z
}.

#[export] Instance MatchCandidate_rebuild : Rebuild MatchCandidate := λ c, {|
  candidate_party_id := candidate_party_id c; mmr := mmr c; party_size := party_size c;
  enqueue_time := enqueue_time c |}.

Record MatchQueue := { rule : MatchRule; queue : list MatchCandidate }.

#[export] Instance MatchQueue_rebuild : Rebuild MatchQueue := λ q, {|
  rule := rule q; queue := queue q |}.

Definition new_MatchQueue (rule : MatchRule) : MatchQueue := {| rule := rule; queue := [] |}.

(** The size guard of [enqueue], [updatePartySize] and [compatible]. *)
Definition size_allowed (r : MatchRule) (size : Z) : bool :=
  negb ((size <? min_party_size r) || (max_party_size r <? size)).

Definition same_party (party : Z) (c : MatchCandidate) : Prop := candidate_party_id c = party.

#[export] Instance same_party_dec party c : Decision (same_party party c).
Proof. unfold same_party. apply _. Defined.

Definition enqueue (candidate : MatchCandidate) (q : MatchQueue) : bool * MatchQueue :=
  if candidate_party_id candidate =? 0 then (false, q)
  else if negb (size_allowed (rule q) (party_size candidate)) then (false, q)
  else
    match list_find (same_party (candidate_party_id candidate)) (queue q) with
    | Some (i, _) => (true, q <| queue ::= <[i := candidate]> |>)
    | None => (true, q <| queue ::= λ l, l ++ [candidate] |>)
    end.

Definition cancel (party : Z) (q : MatchQueue) : bool * MatchQueue :=
  let kept := filter (λ c, ¬ same_party party c) (queue q) in
  if bool_decide (length kept = length (queue q)) then (false, q)
  else (true, q <| queue := kept |>).

Definition updatePartySize (party size now : Z) (q : MatchQueue) : bool * MatchQueue :=
  match list_find (same_party party) (queue q) with
  | None => (false, q)
  | Some (i, entry) =>
    if negb (size_allowed (rule q) size) then (true, q <| queue ::= delete i |>)
    else (true, q <| queue ::= <[i := entry <| party_size := size |>
                                            <| enqueue_time := now |>]> |>)
  end.

Definition compatible (r : MatchRule) (first second : MatchCandidate) (now : Z) : bool :=
  if negb (size_allowed r (party_size first)) || negb (size_allowed r (party_size second))
  then false
  else
    let wait_first := seconds_of_ns (now - enqueue_time first) in
    let wait_second := seconds_of_ns (now - enqueue_time second) in
    let wait_seconds := d_min wait_first wait_second in
    let allowed_delta := max_mmr_delta r +
      int_of_d (d_mul (d_of_Z (expansion_per_second r)) wait_seconds) in
    Z.abs (mmr first - mmr second) <=? allowed_delta.

(** The index pairs in the order of the two loops of [findMatch]. *)
Definition index_pairs (n : nat) : list (nat * nat) :=
  seq 0 n ≫= λ i, (λ j, (i, j)) <$> seq (S i) (n - S i).

Definition pair_compatible (q : MatchQueue) (now : Z) (ij : nat * nat) : Prop :=
  match queue q !! ij.1, queue q !! ij.2 with
  | Some first, Some second => compatible (rule q) first second now = true
  | _, _ => False
  end.

#[export] Instance pair_compatible_dec q now ij : Decision (pair_compatible q now ij).
Proof. unfold pair_compatible. repeat case_match; apply _. Defined.

Definition findMatch (now : Z) (q : MatchQueue)
    : option (MatchCandidate * MatchCandidate) * MatchQueue :=
  match list_find (pair_compatible q now) (index_pairs (length (queue q))) with
  | None => (None, q)
  | Some (_, (i, j)) =>
    match queue q !! i, queue q !! j with
    | Some first, Some second =>
      (Some (first, second), q <| queue ::= λ l, delete i (delete j l) |>)
    | _, _ => (None, q)
    end
  end.

Definition queue_size (q : MatchQueue) : nat := length (queue q).

(** ** The loop order *)

Lemma elem_of_index_pairs n i j : (i, j) ∈ index_pairs n ↔ (i < j < n)%nat.
Proof.
  unfold index_pairs. rewrite list_elem_of_bind. setoid_rewrite list_elem_of_fmap.
  setoid_rewrite elem_of_seq. split.
  - intros (? & (? & [= <- <-] & ?) & ?). lia.
  - intros. exists i. split; [exists j; split; [done|lia]|lia].
Qed.

Lemma sorted_lookup {A} (R : A → A → Prop) l i j x y :
  StronglySorted R l → l !! i = Some x → l !! j = Some y → (i < j)%nat → R x y.
Proof.
  intros Hs. revert i j. induction Hs as [|a l Hs IH Ha]; intros i j; [done|].
  destruct i, j as [|j]; cbn; try lia.
  - intros [= ->] Hy _. rewrite Forall_forall in Ha. apply Ha.
    by eapply list_elem_of_lookup_2.
  - intros Hx Hy Hij. eapply IH; [done..|lia].
Qed.

Definition before (a b : nat * nat) : Prop := (a.1 < b.1)%nat ∨ (a.1 = b.1 ∧ (a.2 < b.2)%nat).

Lemma StronglySorted_seq_lt m n : StronglySorted lt (seq m n).
Proof.
  revert m. induction n as [|n IH]; intros m; constructor; [done|].
  apply Forall_forall. intros x Hx%elem_of_seq. lia.
Qed.

Lemma index_pairs_sorted n : StronglySorted before (index_pairs n).
Proof.
  unfold index_pairs. generalize (StronglySorted_seq_lt 0 n).
  induction 1 as [|i l Hs IH Hi]; [constructor|]. cbn [mbind list_bind].
  apply StronglySorted_app. split_and!; [| |exact IH].
  - intros [a b] [c d] Ha Hc.
    apply list_elem_of_fmap in Ha as (? & [= -> ->] & _).
    apply list_elem_of_bind in Hc as (k & Hc & Hk).
    apply list_elem_of_fmap in Hc as (? & [= -> ->] & _).
    rewrite Forall_forall in Hi. left. by apply Hi.
  - generalize (StronglySorted_seq_lt (S i) (n - S i)).
    induction 1 as [|j l' ? ? Hj]; cbn; constructor; [done|].
    apply Forall_fmap. eapply Forall_impl; [exact Hj|]. intros j' ?. right. cbn. lia.
Qed.

(** ** Well-formed queues *)

Definition candidate_ok (r : MatchRule) (c : MatchCandidate) : Prop :=
  candidate_party_id c ≠ 0 ∧ min_party_size r <= party_size c <= max_party_size r.

(** No party is queued twice, and every candidate passes [enqueue]'s guards. *)
Definition queue_ok (q : MatchQueue) : Prop :=
  NoDup (candidate_party_id <$> queue q) ∧ Forall (candidate_ok (rule q)) (queue q).

Lemma size_allowed_iff r size :
  size_allowed r size = true ↔ min_party_size r <= size <= max_party_size r.
Proof. unfold size_allowed. rewrite negb_true_iff, orb_false_iff, !Z.ltb_ge. lia. Qed.

Lemma fmap_delete {A B} (f : A → B) (l : list A) (i : nat) : f <$> delete i l = delete i (f <$> l).
Proof. revert i. induction l as [|x l IH]; intros [|i]; cbn; f_equal; auto. Qed.

Lemma NoDup_delete {A} (l : list A) (i : nat) : NoDup l → NoDup (delete i l).
Proof. intros H. eapply sublist_NoDup; [done|apply sublist_delete]. Qed.

Lemma filter_none {A} (P : A → Prop) `{∀ x, Decision (P x)} l :
  (∀ x, x ∈ l → ¬ P x) → filter P l = [].
Proof.
  induction l as [|x l IH]; intros Hl; [done|].
  rewrite filter_cons_False by (apply Hl; left). apply IH. intros y Hy. apply Hl. by right.
Qed.

Lemma queue_ok_delete q i : queue_ok q → queue_ok (q <| queue ::= delete i |>).
Proof.
  intros [Hn Hf]. split; cbn.
  - rewrite fmap_delete. by apply NoDup_delete.
  - by apply Forall_delete.
Qed.

Lemma queue_ok_insert q i c old :
  queue_ok q → queue q !! i = Some old → candidate_party_id c = candidate_party_id old →
  candidate_ok (rule q) c → queue_ok (q <| queue ::= <[i := c]> |>).
Proof.
  intros [Hn Hf] Hi Hc Hok. split; cbn.
  - rewrite list_fmap_insert, Hc, list_insert_id; [done|]. by rewrite list_lookup_fmap, Hi.
  - by apply Forall_insert.
Qed.

Lemma enqueue_ok c q : queue_ok q → queue_ok (enqueue c q).2.
Proof.
  intros Hok. unfold enqueue. destruct (_ =? _) eqn:Ez; [done|]. bool_props.
  destruct (size_allowed _ _) eqn:Es; [|done]. apply size_allowed_iff in Es. cbn [negb].
  assert (candidate_ok (rule q) c) by done.
  destruct (list_find _ _) as [[i old]|] eqn:Ef; cbn [snd].
  - apply list_find_Some in Ef as (Hi & Hp & _). by eapply queue_ok_insert.
  - apply list_find_None in Ef. destruct Hok as [Hn Hf]. split; cbn.
    + rewrite fmap_app. apply NoDup_app. split_and!; [done| |apply NoDup_singleton].
      intros p (c' & -> & Hc')%list_elem_of_fmap. rewrite Forall_forall in Ef.
      intros Hp%list_elem_of_singleton. by apply (Ef c' Hc').
    + apply Forall_app. auto.
Qed.

Lemma cancel_ok party q : queue_ok q → queue_ok (cancel party q).2.
Proof.
  intros [Hn Hf]. unfold cancel. case_bool_decide; [done|]. split; cbn.
  - eapply sublist_NoDup; [exact Hn|]. apply fmap_sublist, sublist_filter.
  - rewrite Forall_forall in *. intros c [_ Hc]%list_elem_of_filter. auto.
Qed.

Lemma updatePartySize_ok party size now q :
  queue_ok q → queue_ok (updatePartySize party size now q).2.
Proof.
  intros Hok. unfold updatePartySize. destruct (list_find _ _) as [[i old]|] eqn:Ef; [|done].
  apply list_find_Some in Ef as (Hi & Hp & _).
  destruct (size_allowed _ _) eqn:Es; cbn [negb snd].
  - apply size_allowed_iff in Es. eapply queue_ok_insert; [done|done|done|].
    destruct Hok as [_ Hf]. rewrite Forall_forall in Hf.
    apply list_elem_of_lookup_2 in Hi. destruct (Hf _ Hi). by split.
  - by apply queue_ok_delete.
Qed.

Lemma findMatch_ok now q : queue_ok q → queue_ok (findMatch now q).2.
Proof.
  intros Hok. unfold findMatch.
  destruct (list_find _ _) as [[? [i j]]|]; [|done].
  destruct (queue q !! i); [|done]. destruct (queue q !! j); [|done].
  exact (queue_ok_delete _ i (queue_ok_delete q j Hok)).
Qed.

Inductive match_op :=
  | OpEnqueue (candidate : MatchCandidate)
  | OpCancel (party : Z)
  | OpUpdate (party size now : Z)
  | OpFind (now : Z).

Definition run_op (q : MatchQueue) (op : match_op) : MatchQueue :=
  match op with
  | OpEnqueue candidate => (enqueue candidate q).2
  | OpCancel party => (cancel party q).2
  | OpUpdate party size now => (updatePartySize party size now q).2
  | OpFind now => (findMatch now q).2
  end.

Definition run_ops (ops : list match_op) (q : MatchQueue) : MatchQueue := foldl run_op q ops.

Lemma match_run_op_ok op q : queue_ok q → queue_ok (run_op q op).
Proof.
  destruct op; cbn [run_op]; auto using enqueue_ok, cancel_ok, updatePartySize_ok, findMatch_ok.
Qed.

Lemma match_run_ops_ok ops q : queue_ok q → queue_ok (run_ops ops q).
Proof.
  revert q. induction ops as [|op ops IH]; intros q Hq; [done|]. by apply IH, match_run_op_ok.
Qed.

Lemma run_ops_rule ops q : rule (run_ops ops q) = rule q.
Proof.
  revert q. induction ops as [|op ops IH]; intros q; [done|]. cbn [run_ops foldl].
  etransitivity; [apply IH|].
  destruct op; cbn [run_op]; unfold enqueue, cancel, updatePartySize, findMatch;
    repeat case_match; done.
Qed.

(** ** Properties *)

(** C34: [findMatch] pairs the candidates the queue order says: it returns the first
    compatible pair in the order (earlier first candidate, then earlier second one),
    removes exactly these two and keeps the order of the others; it returns nothing
    exactly when no two queued candidates are compatible, and then changes nothing. *)
Theorem findMatch_first now q :
  let ok i j := ∃ a b, queue q !! i = Some a ∧ queue q !! j = Some b ∧
                       (i < j)%nat ∧ compatible (rule q) a b now = true in
  match findMatch now q with
  | (Some (first, second), q') => ∃ i j,
      ok i j ∧ queue q !! i = Some first ∧ queue q !! j = Some second ∧
      q' = q <| queue := delete i (delete j (queue q)) |> ∧
      ∀ i' j', ok i' j' → (i < i')%nat ∨ (i = i' ∧ (j <= j')%nat)
  | (None, q') => q' = q ∧ ∀ i j, ¬ ok i j
  end.
Proof.
  intros ok. set (P := pair_compatible q now).
  assert (Hok : ∀ i j, ok i j ↔ (i, j) ∈ index_pairs (length (queue q)) ∧ P (i, j)).
  { intros i j. rewrite elem_of_index_pairs. subst ok P. unfold pair_compatible. cbn. split.
    - intros (a & b & Ha & Hb & Hij & Hc). rewrite Ha, Hb.
      apply lookup_lt_Some in Hb. split; [lia|done].
    - intros [Hij Hc]. destruct (queue q !! i) as [a|]; [|done].
      destruct (queue q !! j) as [b|]; [|done]. exists a, b. split_and!; [done|done|lia|done]. }
  unfold findMatch. fold P. destruct (list_find P _) as [[k [i j]]|] eqn:Ef.
  - apply list_find_Some in Ef as (Hk & HP & Hfirst).
    assert (Hij : ok i j) by (apply Hok; split; [by eapply list_elem_of_lookup_2|done]).
    pose proof Hij as (a & b & Ha & Hb & Hlt & Hc). rewrite Ha, Hb.
    exists i, j. split_and!; try done. intros i' j' [Hin' HP']%Hok.
    apply list_elem_of_lookup in Hin' as [k' Hk'].
    destruct (decide (k' = k)) as [->|Hne]; [simplify_eq; right; auto|].
    assert (k < k')%nat.
    { destruct (decide (k' < k)%nat) as [Hlt'|]; [|lia]. by destruct (Hfirst k' (i', j')). }
    pose proof (index_pairs_sorted (length (queue q))) as Hs.
    destruct (sorted_lookup _ _ _ _ _ _ Hs Hk Hk') as [|[? ?]]; [done|..]; cbn in *; lia.
  - split; [done|]. intros i j [Hin HP]%Hok. apply list_find_None in Ef.
    rewrite Forall_forall in Ef. by apply (Ef (i, j)).
Qed.

(** C35: whatever the operations, no party is in the queue twice, no entry has party id 0,
    and every entry's party size is within the rule's bounds. *)
Theorem match_queue_invariant r ops :
  let q := run_ops ops (new_MatchQueue r) in
  NoDup (candidate_party_id <$> queue q) ∧
  Forall (λ c, candidate_party_id c ≠ 0 ∧
               min_party_size r <= party_size c <= max_party_size r) (queue q).
Proof.
  intros q. assert (Hq : queue_ok q) by (apply match_run_ops_ok; split; constructor).
  assert (Hr : rule q = r).
  { exact (run_ops_rule ops (new_MatchQueue r)). }
  destruct Hq as [Hn Hf]. rewrite Hr in Hf. done.
Qed.

(** Enqueueing a valid candidate leaves exactly one entry for its party, the new one,
    in the place of the party's previous entry when there is one and at the end
    otherwise; cancelling a party takes out its entry alone and succeeds exactly when it
    had one, so that cancel undoes enqueue. *)
Theorem enqueue_cancel candidate q :
  queue_ok q →
  candidate_party_id candidate ≠ 0 → size_allowed (rule q) (party_size candidate) = true →
  let party := candidate_party_id candidate in
  let '(accepted, q') := enqueue candidate q in
  accepted = true ∧
  filter (same_party party) (queue q') = [candidate] ∧
  filter (λ c, ¬ same_party party c) (queue q') = filter (λ c, ¬ same_party party c) (queue q) ∧
  (¬ party ∈ candidate_party_id <$> queue q → queue q' = queue q ++ [candidate]) ∧
  cancel party q' =
    (true, q <| queue := filter (λ c, ¬ same_party party c) (queue q) |>).
Proof.
  intros [Hn Hf] Hz Hs party. unfold enqueue. rewrite (proj2 (Z.eqb_neq _ _)), Hs by done.
  cbn [negb].
  assert (Hcancel : ∀ l, filter (same_party party) l = [candidate] →
    filter (λ c, ¬ same_party party c) l = filter (λ c, ¬ same_party party c) (queue q) →
    cancel party (q <| queue := l |>) =
      (true, q <| queue := filter (λ c, ¬ same_party party c) (queue q) |>)).
  { intros l Hl He. unfold cancel. cbn [queue update_field]. rewrite He.
    rewrite bool_decide_eq_false_2; [done|].
    assert (E : length l = (length (filter (same_party party) l) +
                            length (filter (λ c, ¬ same_party party c) l))%nat).
    { clear. induction l as [|x l IH]; [done|]. rewrite !filter_cons.
      repeat case_decide; try done; cbn [length]; lia. }
    rewrite Hl, He in E. cbn in E. lia. }
  destruct (list_find _ _) as [[i old]|] eqn:Ef; fold party in Ef.
  - apply list_find_Some in Ef as (Hi & Hp & Hfirst).
    assert (Hsplit : queue q = take i (queue q) ++ old :: drop (S i) (queue q))
      by (by rewrite take_drop_middle).
    assert (Hne : ∀ c, c ∈ take i (queue q) ∨ c ∈ drop (S i) (queue q) → ¬ same_party party c).
    { rewrite Hsplit in Hn. rewrite fmap_app, fmap_cons in Hn.
      apply NoDup_app in Hn as (_ & Hn1 & Hn2). apply NoDup_cons in Hn2 as [Hn2 _].
      unfold same_party in *. intros c [Hc|Hc] E.
      - apply (Hn1 party); [rewrite <- E; by apply list_elem_of_fmap_2|].
        rewrite <- Hp. by left.
      - apply Hn2. rewrite Hp, <- E. by apply list_elem_of_fmap_2. }
    assert (Hins : <[i := candidate]> (queue q) =
                   take i (queue q) ++ candidate :: drop (S i) (queue q))
      by (apply insert_take_drop; by eapply lookup_lt_Some).
    assert (H0 : ∀ l, (∀ c, c ∈ l → ¬ same_party party c) → filter (same_party party) l = [])
      by (intros l; apply filter_none).
    assert (H1 : filter (same_party party) (<[i := candidate]> (queue q)) = [candidate]).
    { rewrite Hins, filter_app, filter_cons_True by done. rewrite !H0; auto. }
    assert (H2 : filter (λ c, ¬ same_party party c) (<[i := candidate]> (queue q)) =
                 filter (λ c, ¬ same_party party c) (queue q)).
    { rewrite Hins, (filter_app _ (take i (queue q))). rewrite Hsplit at 3. rewrite filter_app.
      by rewrite !filter_cons_False by (intros X; by apply X). }
    split_and!; [done|exact H1|exact H2| |by apply Hcancel].
    intros Hnot. exfalso. apply Hnot. rewrite <- Hp. apply list_elem_of_fmap_2.
    by eapply list_elem_of_lookup_2.
  - apply list_find_None in Ef.
    assert (H0 : filter (same_party party) (queue q) = []).
    { apply filter_none. intros c. rewrite Forall_forall in Ef. auto. }
    assert (H1 : filter (same_party party) (queue q ++ [candidate]) = [candidate]).
    { rewrite filter_app, H0, filter_cons_True by done. done. }
    assert (H2 : filter (λ c, ¬ same_party party c) (queue q ++ [candidate]) =
                 filter (λ c, ¬ same_party party c) (queue q)).
    { rewrite filter_app, filter_cons_False by (intros X; by apply X).
      by rewrite filter_nil, app_nil_r. }
    split_and!; [done|exact H1|exact H2|done|by apply Hcancel].
Qed.

Definition sample_candidate (party rating : Z) : MatchCandidate := {|
  candidate_party_id := party; mmr := rating; party_size := 2; enqueue_time := 0 |}.

Lemma enqueue_cancel_witness :
  let q := run_ops [OpEnqueue (sample_candidate 1 100)] (new_MatchQueue default_MatchRule) in
  let candidate := sample_candidate 2 900 in
  let '(accepted, q') := enqueue candidate q in
  accepted = true ∧
  filter (same_party 2) (queue q') = [candidate] ∧
  filter (λ c, ¬ same_party 2 c) (queue q') = filter (λ c, ¬ same_party 2 c) (queue q) ∧
  (¬ 2 ∈ candidate_party_id <$> queue q → queue q' = queue q ++ [candidate]) ∧
  cancel 2 q' = (true, q <| queue := filter (λ c, ¬ same_party 2 c) (queue q) |>).
Proof.
  apply (enqueue_cancel (sample_candidate 2 900)); [|done|done].
  apply match_run_ops_ok. split; constructor.
Defined.

(** Ratings 800 apart: unmatched after a second, matched after 140 seconds. *)
Example match_expands_with_time :
  let q := run_ops [OpEnqueue (sample_candidate 1 100); OpEnqueue (sample_candidate 2 900)]
             (new_MatchQueue default_MatchRule) in
  (findMatch (1 * ns_per_second) q).1 = None ∧
  queue (findMatch (140 * ns_per_second) q).2 = [].
Proof. by vm_compute. Qed.
