(* ===== verification/Dungeon.v ===== *)
(** * Dungeon instances (src/src/dungeon/)

    [InstanceManager] (instance_manager.h, instance_manager.cpp) and [MovementValidator]
    (authoritative_validation.h, authoritative_validation.cpp). *)

From Stdlib Require Import SpecFloat.
From S2P Require Import Prelude Float Groups.
From S2P Require Party.

Inductive InstanceState := Waiting | Ready | Playing | Clear | Fail | Terminate.

#[export] Instance InstanceState_eq_dec : EqDecision InstanceState.
Proof. solve_decision. Defined.

Record InstanceRecord := {
  instance_id : Z;
  instance_party_id : Z;
  state : InstanceState
}.

#[export] Instance InstanceRecord_rebuild : Rebuild InstanceRecord := λ r, {|
  instance_id := instance_id r; instance_party_id := instance_party_id r; state := state r |}.

Record InstanceManager := {
  next_instance_id : Z;
  instances : gmap Z InstanceRecord
}.

#[export] Instance InstanceManager_rebuild : Rebuild InstanceManager := λ m, {|
  next_instance_id := next_instance_id m; instances := instances m |}.

Definition new_InstanceManager : InstanceManager := {|
  next_instance_id := 1; instances := ∅ |}.

Definition transitionAllowed (from to : InstanceState) : bool :=
  match from with
  | Waiting => bool_decide (to = Ready) || bool_decide (to = Terminate)
  | Ready => bool_decide (to = Playing) || bool_decide (to = Terminate)
  | Playing =>
    bool_decide (to = Clear) || bool_decide (to = Fail) || bool_decide (to = Terminate)
  | Clear | Fail => bool_decide (to = Terminate)
  | Terminate => false
  end.

Definition terminateInstance (id : Z) (m : InstanceManager) : bool * InstanceManager :=
  let? record := instances m !! id else (false, m) in
  (true, m <| instances ::= <[id := record <| state := Terminate |>]> |>).

Definition getInstance (id : Z) (m : InstanceManager) : option InstanceRecord :=
  instances m !! id.

Definition manager_size (m : InstanceManager) : nat := size (instances m).

Section with_parties.
Context `{HashOrder}.

Definition createInstance (party : Z) (parties : Party.PartyService) (m : InstanceManager)
    : option Z * InstanceManager :=
  match Party.getPartyInfo party parties with
  | None => (None, m)
  | Some _ =>
    let record := {| instance_id := next_instance_id m; instance_party_id := party;
                     state := Waiting |} in
    (Some (instance_id record),
     m <| next_instance_id ::= λ n, u64 (n + 1) |>
       <| instances ::= emplace (instance_id record) record |>)
  end.

Definition isPartyReady (party : Z) (parties : Party.PartyService) : bool :=
  let? info := Party.getPartyInfo party parties else false in
  if bool_decide (Party.PartyInfo_members info = []) then false
  else existsb (λ member, Party.member_session_id member =?
                          Party.PartyInfo_leader_session_id info)
         (Party.PartyInfo_members info).

Definition requestTransition (id : Z) (next_state : InstanceState)
    (parties : Party.PartyService) (m : InstanceManager) : bool * InstanceManager :=
  let? record := instances m !! id else (false, m) in
  if bool_decide (state record = next_state) then (false, m)
  else if negb (transitionAllowed (state record) next_state) then (false, m)
  else if (bool_decide (next_state = Ready) || bool_decide (next_state = Playing)) &&
          negb (isPartyReady (instance_party_id record) parties) then (false, m)
  else (true, m <| instances ::= <[id := record <| state := next_state |>]> |>).

End with_parties.

(** ** Movement validation *)

Record MovementSample := {
  character_id : Z;
  distance : double;  (* a float *)
  elapsed : Z  (* milliseconds *)
}.

(** [None] when the sample is valid, otherwise the reason it is not. *)
Definition validate (max_speed : double) (sample : MovementSample) : option string :=
  if elapsed sample <=? 0 then Some "Invalid elapsed time"%string
  else
    let seconds := f_div (f_of_Z (elapsed sample)) (f_of_Z 1000) in
    let speed := f_div (distance sample) seconds in
    if d_ltb max_speed speed then Some "Movement speed exceeds server limit"%string
    else None.

(** ** The life of an instance *)

(** The edges of the state machine. *)
Inductive edge : InstanceState → InstanceState → Prop :=
  | edge_ready : edge Waiting Ready
  | edge_play : edge Ready Playing
  | edge_clear : edge Playing Clear
  | edge_fail : edge Playing Fail
  | edge_terminate from : from ≠ Terminate → edge from Terminate.

Definition stage (s : InstanceState) : Z :=
  match s with
  | Waiting => 0 | Ready => 1 | Playing => 2 | Clear | Fail => 3 | Terminate => 4
  end.

Lemma transitionAllowed_edge from to : transitionAllowed from to = true ↔ edge from to.
Proof.
  split.
  - destruct from, to; cbn; try done; intros _; by constructor.
  - by intros [| | | |[] ?].
Qed.

Lemma edge_stage a b : edge a b → stage a < stage b.
Proof. by intros [| | | |[] ?]. Qed.

Lemma edges_stage a b : rtc edge a b → stage a <= stage b.
Proof. induction 1 as [|a b c Hab _ IH]; [lia|]. apply edge_stage in Hab. lia. Qed.

Inductive instance_op :=
  | OpCreate (party : Z) (parties : Party.PartyService)
  | OpTerminate (id : Z)
  | OpTransition (id : Z) (next_state : InstanceState) (parties : Party.PartyService).

Section lifecycle.
Context `{HashOrder}.
Implicit Types (m : InstanceManager) (r : InstanceRecord).

Definition run_op m (op : instance_op) : InstanceManager :=
  match op with
  | OpCreate party parties => (createInstance party parties m).2
  | OpTerminate id => (terminateInstance id m).2
  | OpTransition id next_state parties => (requestTransition id next_state parties m).2
  end.

Definition run_ops (ops : list instance_op) m : InstanceManager := foldl run_op m ops.

(** One record after another: the same instance, further along its life. *)
Definition evolves r r' : Prop :=
  instance_id r' = instance_id r ∧ instance_party_id r' = instance_party_id r ∧
  rtc edge (state r) (state r').

Lemma evolves_set r s : rtc edge (state r) s → evolves r (r <| state := s |>).
Proof. done. Qed.

Lemma terminate_evolves r : evolves r (r <| state := Terminate |>).
Proof.
  apply evolves_set. destruct (decide (state r = Terminate)) as [->|Hne]; [done|].
  by apply rtc_once, edge_terminate.
Qed.

Lemma insert_evolves m id0 r0 r0' id r :
  instances m !! id0 = Some r0 → evolves r0 r0' → instances m !! id = Some r →
  ∃ r', <[id0 := r0']> (instances m) !! id = Some r' ∧ evolves r r'.
Proof.
  intros H0 He Hr. destruct (decide (id = id0)) as [->|].
  - rewrite lookup_insert_eq. exists r0'. split; [done|]. by simplify_eq.
  - rewrite lookup_insert_ne by done. by exists r.
Qed.

Lemma run_op_evolves op m id r :
  instances m !! id = Some r → ∃ r', instances (run_op m op) !! id = Some r' ∧ evolves r r'.
Proof.
  intros Hr. assert (Hsame : ∃ r', instances m !! id = Some r' ∧ evolves r r') by by exists r.
  destruct op as [party parties|id0|id0 s parties]; cbn [run_op].
  - unfold createInstance. destruct (Party.getPartyInfo _ _); [|done]. cbn -[emplace].
    rewrite lookup_emplace, Hr. by exists r.
  - unfold terminateInstance. destruct (instances m !! id0) as [r0|] eqn:E; [|done].
    eapply insert_evolves; eauto using terminate_evolves.
  - unfold requestTransition. destruct (instances m !! id0) as [r0|] eqn:E; [|done].
    case_bool_decide; [done|]. destruct (transitionAllowed _ _) eqn:Et; [|done]. cbn [negb].
    destruct (_ && _); [done|]. eapply insert_evolves; [done| |done].
    by apply evolves_set, rtc_once, transitionAllowed_edge.
Qed.

Lemma run_ops_evolves ops m id r :
  instances m !! id = Some r → ∃ r', instances (run_ops ops m) !! id = Some r' ∧ evolves r r'.
Proof.
  revert m r. induction ops as [|op ops IH]; intros m r Hr; [by exists r|].
  destruct (run_op_evolves op m id r Hr) as (r1 & Hr1 & He1 & He2 & He3).
  destruct (IH _ _ Hr1) as (r2 & Hr2 & Hf1 & Hf2 & Hf3). exists r2. split; [done|].
  split_and!; [congruence..|]. by etransitivity.
Qed.

(** For a well-formed party service, the party is ready exactly when it is live. *)
Lemma isPartyReady_live party parties :
  Party.service_ok parties →
  isPartyReady party parties = bool_decide (is_Some (Party.parties parties !! party)).
Proof.
  intros [_ Hg Hk _]. unfold isPartyReady, Party.getPartyInfo.
  destruct (Party.parties parties !! party) as [r|] eqn:Er; [|done].
  rewrite (bool_decide_eq_true_2 (is_Some _)) by eauto. cbn -[merge_sort].
  destruct (groups_each _ _ _ Hg _ _ Er) as (_ & _ & Hl). cbn in Hl.
  apply elem_of_dom in Hl as [member Hl].
  assert (Hin : member ∈ merge_sort Party.by_session (hash_iter (Party.members r)).*2).
  { rewrite merge_sort_Permutation. apply list_elem_of_fmap.
    exists (Party.leader_session_id r, member). by rewrite elem_of_hash_iter. }
  rewrite bool_decide_eq_false_2 by (intros E; rewrite E in Hin; set_solver).
  apply existsb_exists. exists member. split; [by apply list_elem_of_In|].
  apply Z.eqb_eq. by apply (Hk _ _ Er).
Qed.

End lifecycle.

(** ** Properties *)

(** C36: an instance lives its life forward: whatever operations follow, it is never
    dropped, keeps its party, and its state only moves along the edges Waiting, Ready,
    Playing, Clear or Fail, Terminate; so it never goes back to an earlier stage, a
    finished run cannot be replayed or its outcome changed, and a terminated instance
    stays terminated. *)
Theorem instance_lifecycle `{HashOrder} ops m id r :
  getInstance id m = Some r →
  ∃ r', getInstance id (run_ops ops m) = Some r' ∧
    instance_party_id r' = instance_party_id r ∧
    rtc edge (state r) (state r') ∧ stage (state r) <= stage (state r') ∧
    (3 <= stage (state r) → state r' = state r ∨ state r' = Terminate).
Proof.
  intros Hr. destruct (run_ops_evolves ops m id r Hr) as (r' & Hr' & _ & Hp & He).
  exists r'. split_and!; [done..|by apply edges_stage|].
  intros Hs. inversion He as [|? s ? Hs1 Hs2]; [auto|]. right.
  assert (s = Terminate) as ->.
  { inversion Hs1 as [E|E|E|E|]; subst; auto; rewrite <- E in Hs; by cbn in Hs. }
  inversion Hs2 as [|? s' ? Hs3]; subst; [done|]. by inversion Hs3.
Qed.

Definition sample_parties : Party.PartyService :=
  (Party.createParty (H := bucket_order) 5 "u" Party.new_PartyService).1.2.

Definition sample_ops : list instance_op :=
  [OpCreate 1 sample_parties; OpTransition 1 Ready sample_parties;
   OpTransition 1 Playing sample_parties; OpTransition 1 Clear sample_parties].

Definition sample_manager : InstanceManager :=
  run_ops (H := bucket_order) sample_ops new_InstanceManager.

Lemma instance_lifecycle_witness :
  let r := {| instance_id := 1; instance_party_id := 1; state := Clear |} in
  ∃ r', getInstance 1 (run_ops (H := bucket_order) [OpTransition 1 Fail sample_parties]
                         sample_manager) = Some r' ∧
    instance_party_id r' = instance_party_id r ∧
    rtc edge (state r) (state r') ∧ stage (state r) <= stage (state r') ∧
    (3 <= stage (state r) → state r' = state r ∨ state r' = Terminate).
Proof. apply (instance_lifecycle (H := bucket_order)). by vm_compute. Defined.

(** [requestTransition] succeeds exactly for an edge of the state machine of an
    existing instance, entering Ready or Playing only while the instance's party is live;
    it then changes that instance's state and nothing else, and otherwise nothing. *)
Theorem requestTransition_spec `{HashOrder} id next_state parties m :
  Party.service_ok parties →
  let '(changed, m') := requestTransition id next_state parties m in
  (changed = true ↔ ∃ r, getInstance id m = Some r ∧ edge (state r) next_state ∧
     (next_state = Ready ∨ next_state = Playing →
        is_Some (Party.parties parties !! instance_party_id r))) ∧
  (changed = false → m' = m) ∧
  (changed = true → next_instance_id m' = next_instance_id m ∧
     (∀ other, other ≠ id → getInstance other m' = getInstance other m) ∧
     state <$> getInstance id m' = Some next_state ∧
     instance_party_id <$> getInstance id m' = instance_party_id <$> getInstance id m).
Proof.
  intros Hok. unfold requestTransition, getInstance.
  destruct (instances m !! id) as [r|] eqn:Er; [|naive_solver].
  case_bool_decide as Hs.
  { split_and!; [|done..]. split; [done|]. intros (? & [= <-] & He & _).
    rewrite Hs in He. apply edge_stage in He. lia. }
  destruct (transitionAllowed _ _) eqn:Et; cbn [negb].
  2:{ split_and!; [|done..]. split; [done|]. intros (? & [= <-] & He%transitionAllowed_edge & _).
      congruence. }
  apply transitionAllowed_edge in Et. rewrite isPartyReady_live by done.
  destruct (_ && _) eqn:Eb; bool_props.
  - split_and!; [|done..]. split; [done|]. intros (? & [= <-] & _ & Hp).
    destruct H1. apply Hp. by destruct H0; bool_props; [left|right].
  - split_and!; [|done|].
    + split; [|done]. intros _. exists r. split_and!; [done..|]. intros Hnext.
      destruct Eb; bool_props; [tauto|done].
    + intros _. cbn. rewrite lookup_insert_eq. split_and!; try done.
      intros. by rewrite lookup_insert_ne.
Qed.

Lemma requestTransition_spec_witness :
  let '(changed, m') := requestTransition (H := bucket_order) 1 Terminate sample_parties
                          sample_manager in
  (changed = true ↔ ∃ r, getInstance 1 sample_manager = Some r ∧ edge (state r) Terminate ∧
     (Terminate = Ready ∨ Terminate = Playing →
        is_Some (Party.parties sample_parties !! instance_party_id r))) ∧
  (changed = false → m' = sample_manager) ∧
  (changed = true → next_instance_id m' = next_instance_id sample_manager ∧
     (∀ other, other ≠ 1 → getInstance other m' = getInstance other sample_manager) ∧
     state <$> getInstance 1 m' = Some Terminate ∧
     instance_party_id <$> getInstance 1 m' = instance_party_id <$> getInstance 1 sample_manager).
Proof.
  apply (requestTransition_spec (H := bucket_order)).
  apply (Party.createParty_ok (H := bucket_order)); [apply Party.new_PartyService_ok|done].
Defined.

(** The speed check is a comparison that a NaN never fails: a sample whose distance is
    NaN passes for every limit and every positive elapsed time, as does any distance
    whose speed is not above the limit. *)
Theorem nan_distance_accepted max_speed sample :
  (validate max_speed sample = None ↔
     0 < elapsed sample ∧
     d_ltb max_speed (f_div (distance sample) (f_div (f_of_Z (elapsed sample)) (f_of_Z 1000)))
       = false) ∧
  ∀ time, 0 < time →
    validate max_speed {| character_id := character_id sample; distance := S754_nan;
                          elapsed := time |} = None.
Proof.
  unfold validate. split.
  - destruct (_ <=? 0) eqn:E; bool_props; [split; [done|lia]|].
    destruct (d_ltb _ _); split; [done|naive_solver|split; [lia|done]|done].
  - intros time Ht. cbn [elapsed distance]. rewrite (proj2 (Z.leb_gt _ _)) by done.
    assert (E : ∀ x, f_div S754_nan x = S754_nan) by (by intros []).
    rewrite E. unfold d_ltb, SFltb. by destruct max_speed as [[]|[]| |[]].
Qed.
