(* ===== verification/Combat.v ===== *)
(** * Combat dispatcher (src/src/combat/dispatcher.h, dispatcher.cpp)

    The validator and the skill handler are optional callbacks of the client; the calls
    of the damage handler are returned. *)

From S2P Require Import Prelude.

Record SkillEvent := {
  attacker_id : Z;
  skill_target_id : Z;
  skill_skill_id : Z;
  base_damage : Z
}.

Record DamageEvent := {
  source_id : Z;
  damage_target_id : Z;
  damage_skill_id : Z;
  amount : Z
}.

(** [DamageEvent{}] *)
Definition no_damage : DamageEvent := {|
  source_id := 0; damage_target_id := 0; damage_skill_id := 0; amount := 0 |}.

Record Dispatcher := {
  skill_validator : option (SkillEvent → bool);
  skill_handler : option (SkillEvent → option DamageEvent);
  damage_handler : bool;
  damage_history : list DamageEvent
}.

#[export] Instance Dispatcher_rebuild : Rebuild Dispatcher := λ d, {|
  skill_validator := skill_validator d; skill_handler := skill_handler d;
  damage_handler := damage_handler d; damage_history := damage_history d |}.

Definition new_Dispatcher : Dispatcher := {|
  skill_validator := None; skill_handler := None; damage_handler := false;
  damage_history := [] |}.

Definition setSkillValidator (validator : option (SkillEvent → bool)) (d : Dispatcher) :=
  d <| skill_validator := validator |>.

Definition setSkillHandler (handler : option (SkillEvent → option DamageEvent)) (d : Dispatcher) :=
  d <| skill_handler := handler |>.

Definition setDamageHandler (handler : bool) (d : Dispatcher) := d <| damage_handler := handler |>.

Definition buildDamageFromSkill (event : SkillEvent) : DamageEvent := {|
  source_id := attacker_id event;
  damage_target_id := skill_target_id event;
  damage_skill_id := skill_skill_id event;
  amount := base_damage event |}.

Definition processDamageEvent (event : DamageEvent) (d : Dispatcher)
    : Dispatcher * list DamageEvent :=
  (d <| damage_history ::= λ h, h ++ [event] |>, if damage_handler d then [event] else []).

Definition processSkillEvent (event : SkillEvent) (d : Dispatcher)
    : DamageEvent * Dispatcher * list DamageEvent :=
  if match skill_validator d with Some validator => negb (validator event) | None => false end
  then (no_damage, d, [])
  else
    let derived := match skill_handler d with Some handler => handler event | None => None end in
    let damage_event := default (buildDamageFromSkill event) derived in
    let '(d, calls) := processDamageEvent damage_event d in
    (damage_event, d, calls).

(** ** A sequence of skills *)

Fixpoint process_all (events : list SkillEvent) (d : Dispatcher)
    : Dispatcher * list DamageEvent :=
  match events with
  | [] => (d, [])
  | event :: rest =>
    let '(_, d, calls) := processSkillEvent event d in
    let '(d, more) := process_all rest d in (d, calls ++ more)
  end.

(** What one accepted skill deals. *)
Definition dealt (d : Dispatcher) (event : SkillEvent) : option DamageEvent :=
  if match skill_validator d with Some validator => validator event | None => true end
  then Some (default (buildDamageFromSkill event)
               (match skill_handler d with Some handler => handler event | None => None end))
  else None.

(** C38: the damage history is the authoritative record: processing skills appends to it
    the damage of exactly the skills the validator accepts, in order, each derived by
    the handler or else from the skill; the damage handler is called with the same
    events in the same order, and a rejected skill returns the empty event. *)
Theorem damage_history_exact events d :
  let '(d', calls) := process_all events d in
  damage_history d' = damage_history d ++ omap (dealt d) events ∧
  calls = (if damage_handler d then omap (dealt d) events else []) ∧
  skill_validator d' = skill_validator d ∧ skill_handler d' = skill_handler d ∧
  ∀ event, dealt d event = None → processSkillEvent event d = (no_damage, d, []).
Proof.
  assert (Hnone : ∀ d event, dealt d event = None →
            processSkillEvent event d = (no_damage, d, [])).
  { intros d0 event. unfold dealt, processSkillEvent.
    by destruct (skill_validator d0) as [v|]; [destruct (v event)|]. }
  assert (Hsome : ∀ d event x, dealt d event = Some x →
            processSkillEvent event d =
              (x, d <| damage_history ::= λ h, h ++ [x] |>, if damage_handler d then [x] else [])).
  { intros d0 event x. unfold dealt, processSkillEvent, processDamageEvent.
    destruct (skill_validator d0) as [v|]; [destruct (v event)|]; intros; by simplify_eq/=. }
  revert d. induction events as [|event events IH]; intros d; cbn [process_all omap list_omap].
  { rewrite app_nil_r. destruct (damage_handler d); by split_and!; auto. }
  destruct (dealt d event) as [x|] eqn:E.
  - rewrite (Hsome _ _ _ E). specialize (IH (d <| damage_history ::= λ h, h ++ [x] |>)).
    destruct (process_all events _) as [d' calls']. cbn -[omap] in *.
    destruct IH as (-> & -> & -> & -> & _).
    change (dealt _) with (dealt d). split_and!; try done; [by rewrite <- app_assoc| |auto].
    by destruct (damage_handler d).
  - rewrite (Hnone _ _ E). specialize (IH d). destruct (process_all events d) as [d' calls'].
    done.
Qed.
