(* ===== verification/Reward.v ===== *)
(** * Rewards (src/src/reward/)

    The capacity-bounded [Inventory] with its grant ledger (inventory.h, inventory.cpp),
    [RewardService] (reward_service.h, reward_service.cpp) and [DropTable]
    (drop_table.h, drop_table.cpp). *)

From S2P Require Import Prelude Float.

(** ** Inventory *)

Inductive GrantStatus := GrantNone | Pending | Completed | Failed.

#[export] Instance GrantStatus_eq_dec : EqDecision GrantStatus.
Proof. solve_decision. Defined.

Record Inventory := {
  capacity : Z;
  items : gmap Z Z;
  grant_status : gmap Z GrantStatus
}.

#[export] Instance Inventory_rebuild : Rebuild Inventory := λ i, {|
  capacity := capacity i; items := items i; grant_status := grant_status i |}.

Definition new_Inventory (capacity : Z) : Inventory := {|
  capacity := capacity; items := ∅; grant_status := ∅ |}.

Record RewardItem := { item_id : Z; quantity : Z }.

Definition grantStatus (grant : Z) (i : Inventory) : GrantStatus :=
  default GrantNone (grant_status i !! grant).

(** [grant_status_[grant_id]] makes the entry when it is missing. *)
Definition beginGrant (grant : Z) (i : Inventory) : bool * Inventory :=
  let status := default GrantNone (grant_status i !! grant) in
  if bool_decide (status = Completed) || bool_decide (status = Pending)
  then (false, i <| grant_status ::= <[grant := status]> |>)
  else (true, i <| grant_status ::= <[grant := Pending]> |>).

Definition commitGrant (grant : Z) (i : Inventory) : Inventory :=
  i <| grant_status ::= <[grant := Completed]> |>.

Definition failGrant (grant : Z) (i : Inventory) : Inventory :=
  i <| grant_status ::= <[grant := Failed]> |>.

Section operations.
Context `{HashOrder}.

Definition totalQuantity (i : Inventory) : Z :=
  foldl (λ total entry, u64 (total + entry.2)) 0 (hash_iter (items i)).

Definition addItem (item amount : Z) (i : Inventory) : bool * Inventory :=
  if amount =? 0 then (false, i)
  else
    let current_total := totalQuantity i in
    if capacity i <? u64 (current_total + amount) then (false, i)
    else (true, i <| items ::= λ m, <[item := u32 (default 0 (m !! item) + amount)]> m |>).

Definition removeItem (item amount : Z) (i : Inventory) : Inventory :=
  if amount =? 0 then i
  else
    let? held := items i !! item else i in
    if held <=? amount then i <| items ::= delete item |>
    else i <| items ::= <[item := u32 (held - amount)]> |>.

(** ** RewardService *)

Inductive GrantResult := ResultCompleted | ResultDuplicate | ResultFailed.

#[global] Instance GrantResult_eq_dec : EqDecision GrantResult.
Proof. solve_decision. Defined.

(** The loop of [grantRewardsDetailed], with the items applied so far. *)
Fixpoint grant_items (grant : Z) (rewards applied : list RewardItem) (i : Inventory)
    : GrantResult * Inventory :=
  match rewards with
  | [] => (ResultCompleted, commitGrant grant i)
  | item :: rest =>
    match addItem (item_id item) (quantity item) i with
    | (true, i) => grant_items grant rest (applied ++ [item]) i
    | (false, i) =>
      let i := foldl (λ i rollback, removeItem (item_id rollback) (quantity rollback) i)
                 i applied in
      (ResultFailed, failGrant grant i)
    end
  end.

Definition grantRewardsDetailed (grant : Z) (rewards : list RewardItem) (i : Inventory)
    : GrantResult * Inventory :=
  match beginGrant grant i with
  | (false, i) => (ResultDuplicate, i)
  | (true, i) => grant_items grant rewards [] i
  end.

Definition grantRewards (grant : Z) (rewards : list RewardItem) (i : Inventory)
    : bool * Inventory :=
  let '(result, i) := grantRewardsDetailed grant rewards i in
  (bool_decide (result = ResultCompleted), i).

End operations.

(** The loop of [validateClientRewards]. *)
Fixpoint validate_items (rewards : list RewardItem) (max_total total : Z) : bool :=
  match rewards with
  | [] => total <=? max_total
  | item :: rest =>
    if quantity item =? 0 then false
    else if max_total <? quantity item then false
    else if u32 (max_total - quantity item) <? total then false
    else validate_items rest max_total (u32 (total + quantity item))
  end.

Definition validateClientRewards (rewards : list RewardItem) (max_items max_total : Z) : bool :=
  if max_items <? Z.of_nat (length rewards) then false
  else validate_items rewards max_total 0.

(** ** DropTable *)

Record DropEntry := {
  entry_item_id : Z;
  min_quantity : Z;
  max_quantity : Z;
  probability : double  (* a float *)
}.

Record DropTable := { tables : gmap Z (list DropEntry) }.

Definition addEntry (table : Z) (entry : DropEntry) (t : DropTable) : DropTable :=
  {| tables := <[table := default [] (tables t !! table) ++ [entry]]> (tables t) |}.

Definition percent (p : Z) : double := f_div (f_of_Z p) (f_of_Z 100).

Definition new_DropTable : DropTable :=
  addEntry 1 {| entry_item_id := 3001; min_quantity := 2; max_quantity := 4;
                probability := percent 10 |}
  (addEntry 1 {| entry_item_id := 2001; min_quantity := 1; max_quantity := 1;
                 probability := percent 25 |}
  (addEntry 1 {| entry_item_id := 1001; min_quantity := 1; max_quantity := 2;
                 probability := percent 75 |} {| tables := ∅ |})).

Definition hasTable (table : Z) (t : DropTable) : bool :=
  bool_decide (is_Some (tables t !! table)).

(** The random generator with the two distributions [roll] draws from: a float, and an
    integer within the bounds it is given. *)
Class Rng (G : Type) := {
  chance : G → double * G;
  uniform : Z → Z → G → Z * G;
  uniform_range lo hi g : lo <= hi → lo <= (uniform lo hi g).1 <= hi
}.

Section roll.
Context `{Rng G}.

Fixpoint roll_entries (entries : list DropEntry) (rng : G) : list RewardItem * G :=
  match entries with
  | [] => ([], rng)
  | entry :: rest =>
    let '(draw, rng) := chance rng in
    if d_ltb (probability entry) draw then roll_entries rest rng
    else
      let min_qty := Z.min (min_quantity entry) (max_quantity entry) in
      let max_qty := Z.max (min_quantity entry) (max_quantity entry) in
      let '(qty, rng) := uniform min_qty max_qty rng in
      let '(rewards, rng) := roll_entries rest rng in
      ({| item_id := entry_item_id entry; quantity := qty |} :: rewards, rng)
  end.

Definition roll (table : Z) (t : DropTable) (rng : G) : list RewardItem * G :=
  match tables t !! table with
  | None => ([], rng)
  | Some entries => roll_entries entries rng
  end.

Definition grantFromTable `{HashOrder} (grant table : Z) (t : DropTable) (rng : G)
    (i : Inventory) : bool * Inventory * G :=
  let '(rewards, rng) := roll table t rng in
  let '(granted, i) := grantRewards grant rewards i in
  (granted, i, rng).

End roll.

(** ** Quantities *)

(** The quantity of an item, and the requested total of an item in a list. *)
Definition held (m : gmap Z Z) (k : Z) : Z := default 0 (m !! k).
Definition requested (rewards : list RewardItem) (k : Z) : Z :=
  sum_Z ((λ item, if decide (item_id item = k) then quantity item else 0) <$> rewards).
Definition requested_total (rewards : list RewardItem) : Z := sum_Z (quantity <$> rewards).
Definition total (m : gmap Z Z) : Z := sum_Z (map_to_list m).*2.

(** Stored quantities are positive. *)
Definition positive (m : gmap Z Z) : Prop := map_Forall (λ _ q, 0 < q) m.

(** An inventory whose capacity fits a [Quantity] and is respected. *)
Definition inventory_ok (i : Inventory) : Prop :=
  positive (items i) ∧ total (items i) <= capacity i ∧ 0 <= capacity i < 2 ^ 32.

Definition rewards_u32 (rewards : list RewardItem) : Prop :=
  Forall (λ item, in_width 32 (quantity item)) rewards.

Lemma positive_ext m1 m2 : positive m1 → positive m2 → (∀ k, held m1 k = held m2 k) → m1 = m2.
Proof.
  intros H1 H2 Hh. apply map_eq. intros k. specialize (Hh k). unfold held in Hh.
  destruct (m1 !! k) as [a|] eqn:E1, (m2 !! k) as [b|] eqn:E2; cbn in Hh; try done.
  - by subst.
  - apply H1 in E1. lia.
  - apply H2 in E2. lia.
Qed.

Lemma held_nonneg m k : positive m → 0 <= held m k.
Proof. intros Hm. unfold held. destruct (m !! k) eqn:E; cbn; [apply Hm in E|]; lia. Qed.

Lemma held_insert m k q j : held (<[k := q]> m) j = if decide (k = j) then q else held m j.
Proof. unfold held. case_decide; subst; by simplify_map_eq. Qed.

Lemma total_insert_fresh m k q : m !! k = None → total (<[k := q]> m) = q + total m.
Proof. intros Hk. unfold total. by rewrite map_to_list_insert. Qed.

Lemma total_delete m k : total (delete k m) = total m - held m k.
Proof.
  unfold held. destruct (m !! k) as [x|] eqn:E; cbn.
  - rewrite <- (insert_delete_id m k x) at 2 by done.
    rewrite total_insert_fresh by apply lookup_delete_eq. lia.
  - rewrite delete_id by done. lia.
Qed.

Lemma total_insert m k q : total (<[k := q]> m) = total m - held m k + q.
Proof.
  rewrite <- insert_delete_eq, total_insert_fresh by apply lookup_delete_eq.
  rewrite total_delete. lia.
Qed.

Lemma total_nonneg m : positive m → 0 <= total m.
Proof.
  intros Hm. apply sum_Z_nonneg, Forall_fmap, Forall_forall. intros [k x] Hx.
  apply elem_of_map_to_list, Hm in Hx. cbn. lia.
Qed.

Lemma held_le_total m k : positive m → held m k <= total m.
Proof.
  intros Hm. assert (0 <= total (delete k m)).
  { apply total_nonneg. by apply map_Forall_delete. }
  rewrite total_delete in *. lia.
Qed.

Lemma requested_cons item rest k :
  requested (item :: rest) k =
  (if decide (item_id item = k) then quantity item else 0) + requested rest k.
Proof. done. Qed.

Lemma requested_app a b k : requested (a ++ b) k = requested a k + requested b k.
Proof. unfold requested. by rewrite fmap_app, sum_Z_app. Qed.

Lemma requested_nonneg rewards k : Forall (λ item, 0 < quantity item) rewards → 0 <= requested rewards k.
Proof.
  intros Hr. apply sum_Z_nonneg, Forall_fmap. eapply Forall_impl; [exact Hr|].
  intros item Hi. cbn in *. case_decide; lia.
Qed.

(** ** The operations on quantities *)

Section facts.
Context `{HashOrder}.
Implicit Types (i : Inventory).

Lemma totalQuantity_total i : totalQuantity i = u64 (total (items i)).
Proof.
  unfold totalQuantity, total.
  assert (E : ∀ l t, foldl (λ t (e : Z * Z), u64 (t + e.2)) (u64 t) l = u64 (t + sum_Z l.*2)).
  { induction l as [|e l IH]; intros t; cbn [foldl fmap list_fmap].
    { apply (f_equal (wrap 64)). cbn. lia. }
    rewrite wrap_add_l, IH. apply (f_equal (wrap 64)). change (sum_Z (e.2 :: l.*2)) with (e.2 + sum_Z l.*2). lia. }
  change 0 with (u64 0) at 1. rewrite E, Z.add_0_l. by rewrite hash_iter_perm.
Qed.

(** Adding succeeds exactly for a positive quantity that fits, and then adds it. *)
Lemma addItem_spec item amount i :
  inventory_ok i → in_width 32 amount →
  let '(added, i') := addItem item amount i in
  added = bool_decide (0 < amount ∧ total (items i) + amount <= capacity i) ∧
  if added then
    inventory_ok i' ∧ capacity i' = capacity i ∧ grant_status i' = grant_status i ∧
    (∀ k, held (items i') k = held (items i) k + if decide (item = k) then amount else 0) ∧
    total (items i') = total (items i) + amount
  else i' = i.
Proof.
  intros (Hp & Ht & Hc) Ha. unfold in_width in Ha. unfold addItem.
  rewrite totalQuantity_total.
  pose proof (total_nonneg _ Hp). pose proof (held_nonneg _ item Hp).
  pose proof (held_le_total _ item Hp).
  rewrite (wrap_small 64 (total _)) by lia. rewrite (wrap_small 64) by lia.
  destruct (amount =? 0) eqn:E0; bool_props.
  { split; [|done]. rewrite bool_decide_eq_false_2; [done|lia]. }
  destruct (_ <? _) eqn:El; bool_props.
  { split; [|done]. rewrite bool_decide_eq_false_2; [done|lia]. }
  split; [rewrite bool_decide_eq_true_2; [done|lia]|]. cbn.
  change (default 0 (items i !! item)) with (held (items i) item).
  rewrite wrap_small by lia. rewrite total_insert. split_and!; [|done..| |lia].
  - unfold inventory_ok. cbn. rewrite total_insert. split_and!; try lia.
    apply map_Forall_insert_2; [lia|done].
  - intros k. rewrite held_insert. case_decide; subst; lia.
Qed.

Lemma removeItem_held item amount i k :
  positive (items i) → (∀ j, held (items i) j < 2 ^ 32) → 0 < amount →
  held (items (removeItem item amount i)) k =
    held (items i) k - (if decide (item = k) then Z.min amount (held (items i) k) else 0) ∧
  positive (items (removeItem item amount i)) ∧
  grant_status (removeItem item amount i) = grant_status i ∧
  capacity (removeItem item amount i) = capacity i.
Proof.
  intros Hp Hb Ha. unfold removeItem. rewrite (proj2 (Z.eqb_neq _ _)) by lia.
  specialize (Hb item). pose proof (held_nonneg _ item Hp).
  destruct (items i !! item) as [x|] eqn:E.
  2:{ split_and!; try done. case_decide; subst; [|lia]. unfold held. rewrite E. cbn. lia. }
  assert (Hx : held (items i) item = x) by (unfold held; by rewrite E).
  pose proof (Hp _ _ E). cbn in *.
  destruct (_ <=? _) eqn:El; bool_props; cbn.
  - split_and!; [|by apply map_Forall_delete|done..]. case_decide as Hk; subst.
    + unfold held at 1. rewrite lookup_delete_eq. cbn. lia.
    + unfold held. rewrite lookup_delete_ne by done. lia.
  - rewrite wrap_small by lia. rewrite held_insert.
    split_and!; [case_decide; subst; lia| |done..]. apply map_Forall_insert_2; [lia|done].
Qed.

Definition remove_all (applied : list RewardItem) i : Inventory :=
  foldl (λ i rollback, removeItem (item_id rollback) (quantity rollback) i) i applied.

(** Removing what was added gives back the quantities from before. *)
Lemma remove_all_restores applied i m0 :
  positive (items i) → positive m0 → (∀ j, held (items i) j < 2 ^ 32) →
  Forall (λ item, 0 < quantity item) applied →
  (∀ k, held (items i) k = held m0 k + requested applied k) →
  items (remove_all applied i) = m0 ∧
  grant_status (remove_all applied i) = grant_status i ∧
  capacity (remove_all applied i) = capacity i.
Proof.
  intros Hp Hm0. revert i Hp.
  induction applied as [|item applied IH]; intros i Hp Hb Hq Hh.
  - change (remove_all [] i) with i. split_and!; try done. apply positive_ext; [done..|]. intros k. rewrite Hh. cbn. lia.
  - apply Forall_cons in Hq as [Hq Hqs].
    assert (Hr := λ k, removeItem_held (item_id item) (quantity item) i k Hp Hb Hq).
    destruct (Hr 0) as (_ & Hp' & Hg & Hc).
    change (remove_all (item :: applied) i)
      with (remove_all applied (removeItem (item_id item) (quantity item) i)).
    destruct (IH (removeItem (item_id item) (quantity item) i)) as (-> & Hg' & Hc').
    + done.
    + intros j. destruct (Hr j) as (-> & _). pose proof (held_nonneg _ j Hp).
      specialize (Hb j). case_decide; lia.
    + done.
    + intros k. destruct (Hr k) as (-> & _). rewrite Hh, requested_cons.
      pose proof (held_nonneg _ k Hm0). pose proof (requested_nonneg _ k Hqs).
      case_decide; lia.
    + split_and!; [done|congruence|congruence].
Qed.

(** The loop, from the state after [applied] was added to [m0]. *)
Lemma grant_items_spec grant rewards applied i m0 :
  inventory_ok i → positive m0 → rewards_u32 rewards →
  Forall (λ item, 0 < quantity item) applied →
  (∀ k, held (items i) k = held m0 k + requested applied k) →
  total (items i) = total m0 + requested_total applied →
  let '(result, i') := grant_items grant rewards applied i in
  capacity i' = capacity i ∧
  match result with
  | ResultCompleted =>
    grant_status i' = <[grant := Completed]> (grant_status i) ∧ inventory_ok i' ∧
    Forall (λ item, 0 < quantity item) (applied ++ rewards) ∧
    total m0 + requested_total (applied ++ rewards) <= capacity i ∧
    (∀ k, held (items i') k = held m0 k + requested (applied ++ rewards) k)
  | ResultDuplicate => False
  | ResultFailed =>
    grant_status i' = <[grant := Failed]> (grant_status i) ∧ items i' = m0 ∧
    ¬ (Forall (λ item, 0 < quantity item) (applied ++ rewards) ∧
       total m0 + requested_total (applied ++ rewards) <= capacity i)
  end.
Proof.
  revert applied i. induction rewards as [|item rest IH]; intros applied i Hok Hm0 Hu Hq Hh Ht.
  - cbn. rewrite app_nil_r. destruct Hok as (Hp & Hc & Hb). split_and!; try done; lia.
  - apply Forall_cons in Hu as [Hi Hu]. cbn [grant_items].
    pose proof (addItem_spec (item_id item) (quantity item) i Hok Hi) as Ha.
    destruct (addItem _ _ i) as [added i1]. destruct Ha as [Hadd Ha]. destruct added.
    + symmetry in Hadd. apply bool_decide_eq_true in Hadd as [Hpos Hfit].
      destruct Ha as (Hok1 & Hc1 & Hg1 & Hh1 & Ht1).
      specialize (IH (applied ++ [item]) i1 Hok1 Hm0 Hu).
      rewrite <- app_assoc in IH. cbn [app] in IH. rewrite Hc1, Hg1 in IH. apply IH.
      * apply Forall_app. auto.
      * intros k. rewrite Hh1, Hh, requested_app, requested_cons. cbn. lia.
      * rewrite Ht1, Ht. unfold requested_total. rewrite fmap_app, sum_Z_app. cbn. lia.
    + subst i1. symmetry in Hadd. apply bool_decide_eq_false in Hadd.
      destruct Hok as (Hp & Hc & Hb). cbn.
      destruct (remove_all_restores applied i m0) as (E1 & E2 & E3); try done.
      { intros j. pose proof (held_le_total _ j Hp). lia. }
      fold (remove_all applied i). rewrite E1, E2, E3. split_and!; try done.
      intros [Hpos Hfit]. apply Hadd. apply Forall_app in Hpos as [_ Hpos].
      apply Forall_cons in Hpos as [Hpos Hrest]. split; [done|]. rewrite Ht.
      unfold requested_total in *. rewrite fmap_app, sum_Z_app in Hfit. cbn in Hfit.
      assert (0 <= sum_Z (quantity <$> rest)); [|unfold sum_Z in *; lia].
      apply sum_Z_nonneg, Forall_fmap. eapply Forall_impl; [exact Hrest|]. intros x Hx. cbn in *. lia.
Qed.

End facts.

(** ** Properties *)

(** C37: granting rewards is atomic and happens once. A grant that is completed or pending
    is a duplicate and changes nothing. Otherwise the grant completes exactly when every
    quantity is positive and the whole list fits the capacity: then each item's quantity
    grows by what the list holds of it; if not, every quantity is as before and the
    grant is marked failed. After a completed grant the same grant is a duplicate. *)
Theorem grant_atomic_once `{HashOrder} grant rewards i :
  inventory_ok i → rewards_u32 rewards →
  let fits := Forall (λ item, 0 < quantity item) rewards ∧
              total (items i) + requested_total rewards <= capacity i in
  let '(result, i') := grantRewardsDetailed grant rewards i in
  inventory_ok i' ∧
  match result with
  | ResultDuplicate =>
    (grantStatus grant i = Completed ∨ grantStatus grant i = Pending) ∧
    items i' = items i ∧ grantStatus grant i' = grantStatus grant i
  | ResultCompleted =>
    fits ∧ (∀ k, held (items i') k = held (items i) k + requested rewards k) ∧
    grantStatus grant i' = Completed ∧
    ∀ more, (grantRewardsDetailed grant more i').1 = ResultDuplicate
  | ResultFailed => ¬ fits ∧ items i' = items i ∧ grantStatus grant i' = Failed
  end.
Proof.
  intros Hok Hu fits. unfold grantRewardsDetailed, beginGrant.
  fold (grantStatus grant i). destruct (_ || _) eqn:E; bool_props.
  { split; [apply Hok|]. split_and!; [destruct E; bool_props; auto|done|].
    unfold grantStatus at 1. cbn. by rewrite lookup_insert_eq. }
  set (i0 := i <| grant_status ::= _ |>).
  pose proof (grant_items_spec grant rewards [] i0 (items i)) as Hg.
  destruct (grant_items grant rewards [] i0) as [result i'].
  destruct Hg as [Hc Hg]; try done.
  { apply Hok. }
  { intros k. cbn. lia. }
  { cbn. lia. }
  destruct result; [|done|].
  - destruct Hg as (Hs & Hok' & Hpos & Hfit & Hh). split; [done|].
    assert (Hst : grant_status i' !! grant = Some Completed) by (rewrite Hs; apply lookup_insert_eq).
    split_and!; try done.
    + unfold grantStatus. by rewrite Hst.
    + intros more. by rewrite Hst.
  - destruct Hg as (Hs & Hi & Hn).
    split; [unfold inventory_ok; rewrite Hi, Hc; apply Hok|]. split_and!; [done|done|].
    unfold grantStatus. by rewrite Hs, lookup_insert_eq.
Qed.

Definition sample_Inventory : Inventory := new_Inventory 100 <| items := {[ 7 := 3 ]} |>.

Lemma grant_atomic_once_witness :
  let rewards := [{| item_id := 7; quantity := 5 |}; {| item_id := 8; quantity := 96 |}] in
  let i := sample_Inventory in
  let fits := Forall (λ item, 0 < quantity item) rewards ∧
              total (items i) + requested_total rewards <= capacity i in
  let '(result, i') := grantRewardsDetailed (H := bucket_order) 1 rewards i in
  inventory_ok i' ∧
  match result with
  | ResultDuplicate =>
    (grantStatus 1 i = Completed ∨ grantStatus 1 i = Pending) ∧
    items i' = items i ∧ grantStatus 1 i' = grantStatus 1 i
  | ResultCompleted =>
    fits ∧ (∀ k, held (items i') k = held (items i) k + requested rewards k) ∧
    grantStatus 1 i' = Completed ∧
    ∀ more, (grantRewardsDetailed (H := bucket_order) 1 more i').1 = ResultDuplicate
  | ResultFailed => ¬ fits ∧ items i' = items i ∧ grantStatus 1 i' = Failed
  end.
Proof.
  apply (grant_atomic_once (H := bucket_order)).
  - split_and!; [|by vm_compute..]. apply map_Forall_singleton. by vm_compute.
  - repeat constructor; by vm_compute.
Defined.

(** [validateClientRewards] is exact on [uint32] values, with no wrap-around: it
    accepts a list exactly when it has at most [max_items] items, no empty one, and a
    true total of at most [max_total]. *)
Theorem validateClientRewards_exact rewards max_items max_total :
  rewards_u32 rewards → in_width 32 max_total →
  validateClientRewards rewards max_items max_total = true ↔
    Z.of_nat (length rewards) <= max_items ∧ Forall (λ item, 0 < quantity item) rewards ∧
    requested_total rewards <= max_total.
Proof.
  intros Hu Hm. unfold in_width in Hm.
  assert (X : ∀ t, 0 <= t <= max_total → validate_items rewards max_total t = true ↔
    Forall (λ item, 0 < quantity item) rewards ∧ t + requested_total rewards <= max_total).
  { clear max_items. induction Hu as [|item rest Hi Hu IH]; intros t Ht; cbn [validate_items].
    - rewrite Z.leb_le. cbn. split; [split; [constructor|lia]|lia].
    - unfold requested_total. cbn [fmap list_fmap sum_Z foldr]. fold (sum_Z (quantity <$> rest)).
      fold (requested_total rest). rewrite Forall_cons. unfold in_width in Hi.
      assert (Hn : Forall (λ item, 0 < quantity item) rest → 0 <= requested_total rest).
      { intros Hr. apply sum_Z_nonneg, Forall_fmap. eapply Forall_impl; [exact Hr|]. intros x Hx. cbn in *. lia. }
      destruct (quantity item =? 0) eqn:E1; bool_props; [split; [done|lia]|].
      destruct (max_total <? _) eqn:E2; bool_props; [split; [done|intros [[? ?%Hn] ?]; lia]|].
      rewrite wrap_small by lia.
      destruct (_ <? t) eqn:E3; bool_props; [split; [done|intros [[? ?%Hn] ?]; lia]|].
      rewrite wrap_small by lia. rewrite IH by lia.
      split; intros; destruct_and?; split_and!; try done; lia. }
  unfold validateClientRewards. destruct (_ <? _) eqn:E; bool_props; [split; [done|lia]|].
  rewrite X by lia. naive_solver lia.
Qed.

Lemma validateClientRewards_exact_witness :
  let rewards := [{| item_id := 1; quantity := 4294967295 |}; {| item_id := 2; quantity := 2 |}] in
  validateClientRewards rewards 10 4294967295 = true ↔
    Z.of_nat (length rewards) <= 10 ∧ Forall (λ item, 0 < quantity item) rewards ∧
    requested_total rewards <= 4294967295.
Proof.
  apply validateClientRewards_exact; [repeat constructor; by vm_compute|by vm_compute].
Defined.

(** A roll yields at most one reward per entry of the table, in the table's order, of
    the entry's item and with a quantity within the entry's bounds (in whichever order
    they are written); a table that does not exist yields nothing and draws nothing. *)
Theorem roll_within_table `{Rng G} table t rng :
  let rewards := (roll table t rng).1 in
  (∃ dropped, dropped `sublist_of` default [] (tables t !! table) ∧
     Forall2 (λ entry item,
       item_id item = entry_item_id entry ∧
       Z.min (min_quantity entry) (max_quantity entry) <= quantity item
         <= Z.max (min_quantity entry) (max_quantity entry)) dropped rewards) ∧
  (hasTable table t = false → roll table t rng = ([], rng)).
Proof.
  unfold roll, hasTable. destruct (tables t !! table) as [entries|] eqn:E; cbn [default].
  2:{ split; [|done]. exists []. split; [done|constructor]. }
  split; [|by rewrite bool_decide_eq_true_2 by eauto]. clear E. revert rng.
  induction entries as [|entry entries IH]; intros rng; cbn [roll_entries].
  { exists []. split; [done|constructor]. }
  destruct (chance rng) as [draw rng1]. destruct (d_ltb _ _).
  { destruct (IH rng1) as (dropped & Hd & Hf). exists dropped. split; [by constructor|done]. }
  pose proof (uniform_range (Z.min (min_quantity entry) (max_quantity entry))
    (Z.max (min_quantity entry) (max_quantity entry)) rng1 ltac:(lia)) as Hr.
  destruct (uniform _ _ rng1) as [qty rng2]. destruct (IH rng2) as (dropped & Hd & Hf).
  destruct (roll_entries entries rng2) as [rewards rng3]. cbn [fst] in *.
  exists (entry :: dropped). split; [by constructor|]. by constructor.
Qed.

(** A generator, to evaluate [roll]: it counts its draws and always takes the lower bound. *)
Program Definition low_rng : Rng Z := {|
  chance := λ n, (percent (n mod 100), n + 40);
  uniform := λ lo hi n, (lo, n + 1)
|}.
Next Obligation. cbn. lia. Qed.

Example roll_default_table :
  (roll (H := low_rng) 1 new_DropTable 0).1 = [{| item_id := 1001; quantity := 1 |}] ∧
  (roll (H := low_rng) 2 new_DropTable 0).1 = [].
Proof. by vm_compute. Qed.
