(* ===== verification/Inventory.v ===== *)
(** * Inventory storage (src/src/inventory/)

    The data model (inventory_models.h), the interface (inventory_storage.h) as a type
    class, the snapshot store whose code InMemoryInventoryStorage and
    MySqlInventoryStorage share word for word (in_memory_inventory_storage.cpp,
    mysql_inventory_storage.cpp), and the write-through cache over two stores
    (cached_inventory_storage.cpp). [StorageRefinement] is what any store promises its
    clients: it behaves as the snapshot store.

    Each operation runs under the store's mutex and is one step here. The readings of the
    system clock an operation makes are an input, a list in the order of the readings. *)

From S2P Require Import Prelude.

(** ** Models *)

Record InventoryState := { inventory_id : Z; items : gmap Z Z }.

#[export] Instance InventoryState_rebuild : Rebuild InventoryState := λ s, {|
  inventory_id := inventory_id s; items := items s |}.

Inductive ChangeType := Add | Remove | Set_.

Record InventoryChange := {
  change_id : Z;
  change_inventory_id : Z;
  change_item_id : Z;
  change_quantity : Z;
  change_type : ChangeType;
  change_reason : string;
  recorded_at : Z
}.

(** ** The interface *)

Class InventoryStorage (S : Type) := {
  beginTransaction : S → Z * S;
  commitTransaction : Z → S → S;
  rollbackTransaction : Z → S → S;
  loadInventory : Z → S → option InventoryState * S;
  saveInventory : InventoryState → S → S;
  addItem : Z → Z → Z → string → list Z → S → bool * S;
  removeItem : Z → Z → Z → string → list Z → S → bool * S;
  setItem : Z → Z → Z → string → list Z → S → S;
  changeLog : Z → S → list InventoryChange
}.

(** ** The snapshot store *)

Record TransactionSnapshot := {
  snapshot_inventories : gmap Z InventoryState;
  snapshot_change_log : gmap Z (list InventoryChange);
  snapshot_next_change_id : Z
}.

Record InMemoryInventoryStorage := {
  next_transaction_id : Z;
  next_change_id : Z;
  active_transactions : gset Z;
  transaction_snapshots : gmap Z TransactionSnapshot;
  inventories : gmap Z InventoryState;
  change_log : gmap Z (list InventoryChange)
}.

#[export] Instance InMemoryInventoryStorage_rebuild : Rebuild InMemoryInventoryStorage := λ s, {|
  next_transaction_id := next_transaction_id s; next_change_id := next_change_id s;
  active_transactions := active_transactions s;
  transaction_snapshots := transaction_snapshots s;
  inventories := inventories s; change_log := change_log s |}.

Definition new_InMemoryInventoryStorage : InMemoryInventoryStorage := {|
  next_transaction_id := 1; next_change_id := 1; active_transactions := ∅;
  transaction_snapshots := ∅; inventories := ∅; change_log := ∅ |}.

Definition snapshot (s : InMemoryInventoryStorage) : TransactionSnapshot := {|
  snapshot_inventories := inventories s;
  snapshot_change_log := change_log s;
  snapshot_next_change_id := next_change_id s |}.

Definition mem_beginTransaction (s : InMemoryInventoryStorage)
    : Z * InMemoryInventoryStorage :=
  let transaction := next_transaction_id s in
  (transaction,
   s <| next_transaction_id ::= λ n, u64 (n + 1) |>
     <| active_transactions ::= λ a, {[transaction]} ∪ a |>
     <| transaction_snapshots ::= emplace transaction (snapshot s) |>).

Definition mem_commitTransaction (transaction : Z) (s : InMemoryInventoryStorage) :=
  s <| active_transactions ::= λ a, a ∖ {[transaction]} |>
    <| transaction_snapshots ::= delete transaction |>.

Definition mem_rollbackTransaction (transaction : Z) (s : InMemoryInventoryStorage) :=
  let s :=
    match transaction_snapshots s !! transaction with
    | None => s
    | Some saved =>
      s <| inventories := snapshot_inventories saved |>
        <| change_log := snapshot_change_log saved |>
        <| next_change_id := snapshot_next_change_id saved |>
        <| transaction_snapshots ::= delete transaction |>
    end in
  s <| active_transactions ::= λ a, a ∖ {[transaction]} |>.

Definition mem_loadInventory (inventory : Z) (s : InMemoryInventoryStorage)
    : option InventoryState * InMemoryInventoryStorage :=
  (inventories s !! inventory, s).

Definition mem_saveInventory (state : InventoryState) (s : InMemoryInventoryStorage) :=
  s <| inventories ::= <[inventory_id state := state]> |>.

(** [getOrCreateInventory], with the reference it returns as the value it reads. *)
Definition getOrCreateInventory (inventory : Z) (s : InMemoryInventoryStorage)
    : InventoryState * InMemoryInventoryStorage :=
  let s := s <| inventories ::= emplace inventory {| inventory_id := inventory; items := ∅ |} |> in
  (default {| inventory_id := inventory; items := ∅ |} (inventories s !! inventory), s).

(** Writing through that reference. *)
Definition write_items (inventory : Z) (m : gmap Z Z) (s : InMemoryInventoryStorage) :=
  s <| inventories ::= alter (λ state, state <| items := m |>) inventory |>.

Definition recordChange (inventory item quantity : Z) (type : ChangeType) (reason : string)
    (now : Z) (s : InMemoryInventoryStorage) :=
  let change := {|
    change_id := next_change_id s; change_inventory_id := inventory; change_item_id := item;
    change_quantity := quantity; change_type := type; change_reason := reason;
    recorded_at := now |} in
  s <| next_change_id ::= λ n, u64 (n + 1) |>
    <| change_log ::= λ l, <[inventory := default [] (l !! inventory) ++ [change]]> l |>.

Definition mem_addItem (inventory item quantity : Z) (reason : string) (clock : list Z)
    (s : InMemoryInventoryStorage) : bool * InMemoryInventoryStorage :=
  if quantity =? 0 then (false, s)
  else
    let '(state, s) := getOrCreateInventory inventory s in
    let m := items state in
    let s := write_items inventory (<[item := u32 (default 0 (m !! item) + quantity)]> m) s in
    (true, recordChange inventory item quantity Add reason (hd 0 clock) s).

Definition mem_removeItem (inventory item quantity : Z) (reason : string) (clock : list Z)
    (s : InMemoryInventoryStorage) : bool * InMemoryInventoryStorage :=
  if quantity =? 0 then (false, s)
  else
    let '(state, s) := getOrCreateInventory inventory s in
    let m := items state in
    let? held := m !! item else (false, s) in
    if held <? quantity then (false, s)
    else
      let left := u32 (held - quantity) in
      let s := write_items inventory
                 (if left =? 0 then delete item m else <[item := left]> m) s in
      (true, recordChange inventory item quantity Remove reason (hd 0 clock) s).

Definition mem_setItem (inventory item quantity : Z) (reason : string) (clock : list Z)
    (s : InMemoryInventoryStorage) : InMemoryInventoryStorage :=
  let '(state, s) := getOrCreateInventory inventory s in
  let m := items state in
  let s := write_items inventory
             (if quantity =? 0 then delete item m else <[item := quantity]> m) s in
  recordChange inventory item quantity Set_ reason (hd 0 clock) s.

Definition mem_changeLog (inventory : Z) (s : InMemoryInventoryStorage) : list InventoryChange :=
  default [] (change_log s !! inventory).

#[export] Instance InMemory_storage : InventoryStorage InMemoryInventoryStorage := {|
  beginTransaction := mem_beginTransaction;
  commitTransaction := mem_commitTransaction;
  rollbackTransaction := mem_rollbackTransaction;
  loadInventory := mem_loadInventory;
  saveInventory := mem_saveInventory;
  addItem := mem_addItem;
  removeItem := mem_removeItem;
  setItem := mem_setItem;
  changeLog := mem_changeLog
|}.

(** [MySqlInventoryStorage] is the same class under another name: its members and the
    bodies of its operations are those of [InMemoryInventoryStorage]. *)
Definition MySqlInventoryStorage : Type := InMemoryInventoryStorage.

Definition new_MySqlInventoryStorage : MySqlInventoryStorage := new_InMemoryInventoryStorage.

Definition MySql_storage : InventoryStorage MySqlInventoryStorage := InMemory_storage.

(** ** The cache *)

Record TransactionPair := { pair_persistent : Z; pair_cache : Z }.

Record CachedInventoryStorage (P C : Type) := {
  cached_next_transaction_id : Z;
  transactions : gmap Z TransactionPair;
  persistent : P;
  cache : C
}.
Arguments cached_next_transaction_id {P C}.
Arguments transactions {P C}.
Arguments persistent {P C}.
Arguments cache {P C}.

#[export] Instance CachedInventoryStorage_rebuild {P C} : Rebuild (CachedInventoryStorage P C) :=
  λ s, {| cached_next_transaction_id := cached_next_transaction_id s;
          transactions := transactions s; persistent := persistent s; cache := cache s |}.

Definition new_CachedInventoryStorage {P C} (persistent : P) (cache : C)
    : CachedInventoryStorage P C :=
  {| cached_next_transaction_id := 1; transactions := ∅;
     persistent := persistent; cache := cache |}.

Section cached.
Context {P C : Type} `{!InventoryStorage P, !InventoryStorage C}.
Implicit Types (s : CachedInventoryStorage P C).

Definition cached_beginTransaction s : Z * CachedInventoryStorage P C :=
  let transaction := cached_next_transaction_id s in
  let '(tp, p) := beginTransaction (persistent s) in
  let '(tc, c) := beginTransaction (cache s) in
  (transaction,
   s <| cached_next_transaction_id ::= λ n, u64 (n + 1) |>
     <| persistent := p |> <| cache := c |>
     <| transactions ::= emplace transaction {| pair_persistent := tp; pair_cache := tc |} |>).

Definition cached_commitTransaction (transaction : Z) s : CachedInventoryStorage P C :=
  let? entry := transactions s !! transaction else s in
  s <| persistent ::= commitTransaction (pair_persistent entry) |>
    <| cache ::= commitTransaction (pair_cache entry) |>
    <| transactions ::= delete transaction |>.

Definition cached_rollbackTransaction (transaction : Z) s : CachedInventoryStorage P C :=
  let? entry := transactions s !! transaction else s in
  s <| persistent ::= rollbackTransaction (pair_persistent entry) |>
    <| cache ::= rollbackTransaction (pair_cache entry) |>
    <| transactions ::= delete transaction |>.

Definition cached_loadInventory (inventory : Z) s
    : option InventoryState * CachedInventoryStorage P C :=
  let '(cached, c) := loadInventory inventory (cache s) in
  let s := s <| cache := c |> in
  match cached with
  | Some _ => (cached, s)
  | None =>
    let '(persisted, p) := loadInventory inventory (persistent s) in
    let s := s <| persistent := p |> in
    match persisted with
    | Some state => (persisted, s <| cache ::= saveInventory state |>)
    | None => (persisted, s)
    end
  end.

Definition cached_saveInventory (state : InventoryState) s : CachedInventoryStorage P C :=
  s <| persistent ::= saveInventory state |> <| cache ::= saveInventory state |>.

Definition refreshCache (inventory : Z) s : CachedInventoryStorage P C :=
  let '(persisted, p) := loadInventory inventory (persistent s) in
  let s := s <| persistent := p |> in
  match persisted with
  | Some state => s <| cache ::= saveInventory state |>
  | None => s
  end.

Definition cached_addItem (inventory item quantity : Z) (reason : string) (clock : list Z) s
    : bool * CachedInventoryStorage P C :=
  let '(done, p) := addItem inventory item quantity reason clock (persistent s) in
  let s := s <| persistent := p |> in
  if negb done then (false, s)
  else
    let '(done, c) := addItem inventory item quantity reason (tl clock) (cache s) in
    let s := s <| cache := c |> in
    (true, if negb done then refreshCache inventory s else s).

Definition cached_removeItem (inventory item quantity : Z) (reason : string) (clock : list Z) s
    : bool * CachedInventoryStorage P C :=
  let '(done, p) := removeItem inventory item quantity reason clock (persistent s) in
  let s := s <| persistent := p |> in
  if negb done then (false, s)
  else
    let '(done, c) := removeItem inventory item quantity reason (tl clock) (cache s) in
    let s := s <| cache := c |> in
    (true, if negb done then refreshCache inventory s else s).

Definition cached_setItem (inventory item quantity : Z) (reason : string) (clock : list Z) s
    : CachedInventoryStorage P C :=
  s <| persistent ::= setItem inventory item quantity reason clock |>
    <| cache ::= setItem inventory item quantity reason (tl clock) |>.

Definition cached_changeLog (inventory : Z) s : list InventoryChange :=
  changeLog inventory (persistent s).

#[export] Instance Cached_storage : InventoryStorage (CachedInventoryStorage P C) := {|
  beginTransaction := cached_beginTransaction;
  commitTransaction := cached_commitTransaction;
  rollbackTransaction := cached_rollbackTransaction;
  loadInventory := cached_loadInventory;
  saveInventory := cached_saveInventory;
  addItem := cached_addItem;
  removeItem := cached_removeItem;
  setItem := cached_setItem;
  changeLog := cached_changeLog
|}.

End cached.

(** ** What a store promises *)

(** The transactions of a snapshot store: open ones are those with a snapshot, and the
    next id is fresh. *)
Record mem_ok (s : InMemoryInventoryStorage) : Prop := {
  mem_next : 0 < next_transaction_id s < 2 ^ 64;
  mem_active : active_transactions s = dom (transaction_snapshots s);
  mem_fresh : map_Forall (λ t _, t < next_transaction_id s) (transaction_snapshots s)
}.

(** A store refines the snapshot store: seen through [abs], each operation does what the
    snapshot store's does and answers the same. *)
Class StorageRefinement (S : Type) `{InventoryStorage S} := {
  abs : S → InMemoryInventoryStorage;
  ok : S → Prop;
  ok_abs s : ok s → mem_ok (abs s);
  begin_refines s :
    ok s → next_transaction_id (abs s) + 1 < 2 ^ 64 →
    ok (beginTransaction s).2 ∧
    (beginTransaction s).1 = (mem_beginTransaction (abs s)).1 ∧
    abs (beginTransaction s).2 = (mem_beginTransaction (abs s)).2;
  commit_refines t s :
    ok s → ok (commitTransaction t s) ∧
    abs (commitTransaction t s) = mem_commitTransaction t (abs s);
  rollback_refines t s :
    ok s → ok (rollbackTransaction t s) ∧
    abs (rollbackTransaction t s) = mem_rollbackTransaction t (abs s);
  load_refines i s :
    ok s → ok (loadInventory i s).2 ∧ (loadInventory i s).1 = (mem_loadInventory i (abs s)).1 ∧
    abs (loadInventory i s).2 = abs s;
  save_refines state s :
    ok s → ok (saveInventory state s) ∧
    abs (saveInventory state s) = mem_saveInventory state (abs s);
  add_refines i k q reason clock s :
    ok s → ok (addItem i k q reason clock s).2 ∧
    (addItem i k q reason clock s).1 = (mem_addItem i k q reason clock (abs s)).1 ∧
    abs (addItem i k q reason clock s).2 = (mem_addItem i k q reason clock (abs s)).2;
  remove_refines i k q reason clock s :
    ok s → ok (removeItem i k q reason clock s).2 ∧
    (removeItem i k q reason clock s).1 = (mem_removeItem i k q reason clock (abs s)).1 ∧
    abs (removeItem i k q reason clock s).2 = (mem_removeItem i k q reason clock (abs s)).2;
  set_refines i k q reason clock s :
    ok s → ok (setItem i k q reason clock s) ∧
    abs (setItem i k q reason clock s) = mem_setItem i k q reason clock (abs s);
  log_refines i s : ok s → changeLog i s = mem_changeLog i (abs s)
}.

(** *** The snapshot store itself *)

(** What [getOrCreateInventory] makes of a missing inventory. *)
Definition blank (i : Z) : InventoryState := {| inventory_id := i; items := ∅ |}.

Definition state_of (m : gmap Z InventoryState) (i : Z) : InventoryState :=
  default (blank i) (m !! i).

(** Writing an inventory through the reference of [getOrCreateInventory]. *)
Lemma write_created i m (s : InMemoryInventoryStorage) :
  inventories (write_items i m (getOrCreateInventory i s).2) =
    <[i := state_of (inventories s) i <| items := m |>]> (inventories s).
Proof.
  unfold write_items, getOrCreateInventory, state_of, emplace. cbn.
  apply map_eq. intros j. destruct (decide (j = i)) as [->|].
  - rewrite lookup_alter_eq, lookup_insert_eq.
    destruct (inventories s !! i) eqn:E; [by rewrite E|by rewrite lookup_insert_eq].
  - rewrite lookup_alter_ne, lookup_insert_ne by done.
    destruct (inventories s !! i); [done|by rewrite lookup_insert_ne].
Qed.

Lemma created_state i (s : InMemoryInventoryStorage) :
  (getOrCreateInventory i s).1 = state_of (inventories s) i.
Proof.
  unfold getOrCreateInventory, state_of, emplace. cbn.
  destruct (inventories s !! i) eqn:E; cbn; [by rewrite E|by rewrite lookup_insert_eq].
Qed.

(** The operations between two transaction boundaries leave the transactions alone. *)
Definition same_transactions (s s' : InMemoryInventoryStorage) : Prop :=
  next_transaction_id s' = next_transaction_id s ∧
  active_transactions s' = active_transactions s ∧
  transaction_snapshots s' = transaction_snapshots s.

Lemma same_transactions_ok s s' : same_transactions s s' → mem_ok s → mem_ok s'.
Proof. intros (E1 & E2 & E3) [? ? ?]. split; rewrite ?E1, ?E2, ?E3; done. Qed.

Lemma add_transactions i k q reason clock s :
  same_transactions s (mem_addItem i k q reason clock s).2.
Proof. unfold mem_addItem. by destruct (q =? 0). Qed.

Lemma remove_transactions i k q reason clock s :
  same_transactions s (mem_removeItem i k q reason clock s).2.
Proof.
  unfold mem_removeItem. destruct (q =? 0); [done|].
  destruct (getOrCreateInventory i s) as [state s1] eqn:E.
  assert (H1 : same_transactions s s1) by (by injection E as <- <-).
  destruct (items state !! k); [|done]. by destruct (_ <? _).
Qed.

Lemma set_transactions i k q reason clock s :
  same_transactions s (mem_setItem i k q reason clock s).
Proof. done. Qed.

Lemma mem_begin_ok s :
  mem_ok s → next_transaction_id s + 1 < 2 ^ 64 → mem_ok (mem_beginTransaction s).2.
Proof.
  intros [Hn Ha Hf] Hlt.
  assert (Hfresh : transaction_snapshots s !! next_transaction_id s = None).
  { destruct (_ !! _) eqn:E; [|done]. apply Hf in E. lia. }
  split; cbn; rewrite ?emplace_fresh, ?wrap_small by (done || lia).
  - lia.
  - rewrite Ha, dom_insert_L. done.
  - apply map_Forall_insert_2; [lia|]. eapply map_Forall_impl; [exact Hf|]. cbn. lia.
Qed.

Lemma mem_commit_ok t s : mem_ok s → mem_ok (mem_commitTransaction t s).
Proof.
  intros [Hn Ha Hf]. split; cbn; [done| |by apply map_Forall_delete].
  by rewrite Ha, dom_delete_L.
Qed.

Lemma mem_rollback_ok t s : mem_ok s → mem_ok (mem_rollbackTransaction t s).
Proof.
  intros [Hn Ha Hf]. unfold mem_rollbackTransaction.
  destruct (transaction_snapshots s !! t) eqn:E; split; cbn; try done.
  - by rewrite Ha, dom_delete_L.
  - by apply map_Forall_delete.
  - rewrite Ha. apply not_elem_of_dom in E. set_solver.
Qed.

#[export] Instance InMemory_refinement : StorageRefinement InMemoryInventoryStorage.
Proof.
  refine {| abs := λ s, s; ok := mem_ok |}; try (intros; split_and!; try done);
    eauto using mem_begin_ok, mem_commit_ok, mem_rollback_ok, same_transactions_ok,
      add_transactions, remove_transactions.
  all: by (eapply same_transactions_ok; [|done]).
Defined.

Lemma new_storage_ok : mem_ok new_InMemoryInventoryStorage.
Proof. split; [done|by vm_compute|apply map_Forall_empty]. Qed.

(** *** The cache *)

(** The cache agrees with the persistent store, except that it may lack an inventory that
    is empty there. *)
Definition coherent (p c : gmap Z InventoryState) : Prop :=
  ∀ i, c !! i = p !! i ∨ (c !! i = None ∧ p !! i = Some (blank i)).

Lemma coherent_state p c i : coherent p c → state_of c i = state_of p i.
Proof. intros H. unfold state_of. destruct (H i) as [->|[-> ->]]; done. Qed.

Lemma coherent_insert p c i x : coherent p c → coherent (<[i := x]> p) (<[i := x]> c).
Proof.
  intros H j. destruct (decide (j = i)) as [->|].
  - left. by rewrite !lookup_insert_eq.
  - by rewrite !lookup_insert_ne.
Qed.

Lemma coherent_fill p c i x : coherent p c → p !! i = Some x → coherent p (<[i := x]> c).
Proof.
  intros H Hi j. destruct (decide (j = i)) as [->|].
  - left. by rewrite lookup_insert_eq.
  - by rewrite lookup_insert_ne.
Qed.

Lemma coherent_create p c i : coherent p c → c !! i = None → coherent (emplace i (blank i) p) c.
Proof.
  intros H Hc j. rewrite lookup_emplace. destruct (p !! j) eqn:E.
  - destruct (H j) as [Hj|Hj]; rewrite E in Hj; auto.
  - case_decide; subst; [by right|]. left. destruct (H j) as [Hj|[? Hj]]; congruence.
Qed.

(** Snapshots taken together, of coherent stores. *)
Definition paired (a b : option TransactionSnapshot) (entry : option TransactionPair) (t : Z)
    : Prop :=
  match a, b with
  | Some p, Some c =>
    coherent (snapshot_inventories p) (snapshot_inventories c) ∧
    entry = Some {| pair_persistent := t; pair_cache := t |}
  | None, None => entry = None
  | _, _ => False
  end.

Record stores_paired (p c : InMemoryInventoryStorage) (next : Z)
    (txs : gmap Z TransactionPair) : Prop := {
  paired_next : next = next_transaction_id p ∧ next = next_transaction_id c;
  paired_coherent : coherent (inventories p) (inventories c);
  paired_snapshots t :
    paired (transaction_snapshots p !! t) (transaction_snapshots c !! t) (txs !! t) t
}.

Lemma stores_paired_data p c next txs p' c' :
  stores_paired p c next txs → same_transactions p p' → same_transactions c c' →
  coherent (inventories p') (inventories c') → stores_paired p' c' next txs.
Proof.
  intros [[-> Hn] _ Hs] (E1 & _ & E3) (F1 & _ & F3) Hc.
  split; [by rewrite E1, F1|done|]. intros t. rewrite E3, F3. apply Hs.
Qed.

Lemma same_transactions_refl s : same_transactions s s.
Proof. done. Qed.

#[export] Hint Resolve add_transactions remove_transactions set_transactions
  same_transactions_refl : hub.

Section cached_refinement.
Context {P C : Type} `{StorageRefinement P, StorageRefinement C}.
Implicit Types (s : CachedInventoryStorage P C).

Record cached_ok s : Prop := {
  cached_persistent : ok (persistent s);
  cached_cache : ok (cache s);
  cached_paired : stores_paired (abs (persistent s)) (abs (cache s))
                    (cached_next_transaction_id s) (transactions s)
}.

Lemma cached_begin_refines s :
  cached_ok s → next_transaction_id (abs (persistent s)) + 1 < 2 ^ 64 →
  cached_ok (cached_beginTransaction s).2 ∧
  (cached_beginTransaction s).1 = (mem_beginTransaction (abs (persistent s))).1 ∧
  abs (persistent (cached_beginTransaction s).2) =
    (mem_beginTransaction (abs (persistent s))).2.
Proof.
  intros [Hp Hc [[Hn1 Hn2] Hcoh Hs]] Hlt. unfold cached_beginTransaction.
  destruct (begin_refines _ Hp) as (Hp' & Ep & Ap); [done|].
  destruct (begin_refines _ Hc) as (Hc' & Ec & Ac); [by rewrite <- Hn2, Hn1|].
  destruct (beginTransaction (persistent s)) as [tp p].
  destruct (beginTransaction (cache s)) as [tc c]. cbn in *. split_and!; [|done|done].
  pose proof (ok_abs _ Hp) as [_ _ Hfp]. pose proof (ok_abs _ Hc) as [_ _ Hfc].
  set (n := cached_next_transaction_id s) in *.
  assert (Fp : transaction_snapshots (abs (persistent s)) !! n = None).
  { apply eq_None_not_Some. intros [x E%Hfp]. lia. }
  assert (Fc : transaction_snapshots (abs (cache s)) !! n = None).
  { apply eq_None_not_Some. intros [x E%Hfc]. lia. }
  assert (Ft : transactions s !! n = None).
  { specialize (Hs n). rewrite Fp, Fc in Hs. done. }
  split; cbn -[emplace]; [done|done|]. rewrite Ap, Ac. split; cbn -[emplace].
  - by rewrite <- Hn1, <- Hn2.
  - done.
  - intros t. rewrite <- Hn1, <- Hn2, !emplace_fresh by done.
    destruct (decide (t = n)) as [->|].
    + rewrite !lookup_insert_eq. cbn. split; [done|]. by rewrite Ep, Ec, <- Hn1, <- Hn2.
    + rewrite !lookup_insert_ne by done. apply Hs.
Qed.

(** Ending a transaction, by a commit or a rollback. *)
Lemma paired_delete (p c : gmap Z TransactionSnapshot) (txs : gmap Z TransactionPair) t u :
  (∀ t, paired (p !! t) (c !! t) (txs !! t) t) →
  paired (delete t p !! u) (delete t c !! u) (delete t txs !! u) u.
Proof.
  intros Hs. destruct (decide (u = t)) as [->|].
  - by rewrite !lookup_delete_eq.
  - rewrite !lookup_delete_ne by done. apply Hs.
Qed.

Lemma cached_transaction s t :
  cached_ok s →
  match transactions s !! t with
  | Some entry => entry = {| pair_persistent := t; pair_cache := t |} ∧
      is_Some (transaction_snapshots (abs (persistent s)) !! t) ∧
      is_Some (transaction_snapshots (abs (cache s)) !! t)
  | None => transaction_snapshots (abs (persistent s)) !! t = None ∧
            t ∉ active_transactions (abs (persistent s))
  end.
Proof.
  intros [Hp _ [_ _ Hs]]. specialize (Hs t). pose proof (ok_abs _ Hp) as [_ Ha _].
  destruct (transaction_snapshots (abs (persistent s)) !! t) as [a|] eqn:E,
    (transaction_snapshots (abs (cache s)) !! t) as [b|]; cbn in Hs; try done.
  - destruct Hs as [_ ->]. eauto.
  - rewrite Hs, Ha. split; [done|]. by apply not_elem_of_dom.
Qed.

Lemma cached_commit_refines t s :
  cached_ok s → cached_ok (cached_commitTransaction t s) ∧
  abs (persistent (cached_commitTransaction t s)) =
    mem_commitTransaction t (abs (persistent s)).
Proof.
  intros Hok. pose proof (cached_transaction s t Hok) as Ht.
  unfold cached_commitTransaction. destruct (transactions s !! t) as [entry|].
  - destruct Ht as (-> & _ & _). destruct Hok as [Hp Hc [[Hn1 Hn2] Hcoh Hs]].
    destruct (commit_refines t _ Hp) as [Hp' Ap]. destruct (commit_refines t _ Hc) as [Hc' Ac].
    cbn. split; [|done]. split; cbn; [done|done|]. rewrite Ap, Ac.
    split; cbn; [done|done|]. intros u. by apply paired_delete.
  - destruct Ht as [Hn Ha]. split; [done|]. unfold mem_commitTransaction.
    destruct (abs (persistent s)); cbn in *. f_equal; [set_solver|by rewrite delete_id].
Qed.

Lemma cached_rollback_refines t s :
  cached_ok s → cached_ok (cached_rollbackTransaction t s) ∧
  abs (persistent (cached_rollbackTransaction t s)) =
    mem_rollbackTransaction t (abs (persistent s)).
Proof.
  intros Hok. pose proof (cached_transaction s t Hok) as Ht.
  unfold cached_rollbackTransaction. destruct (transactions s !! t) as [entry|] eqn:Et.
  - destruct Ht as (-> & [a Ea] & [b Eb]). destruct Hok as [Hp Hc [[Hn1 Hn2] Hcoh Hs]].
    destruct (rollback_refines t _ Hp) as [Hp' Ap].
    destruct (rollback_refines t _ Hc) as [Hc' Ac].
    cbn. split; [|done]. split; cbn; [done|done|]. rewrite Ap, Ac.
    unfold mem_rollbackTransaction. rewrite Ea, Eb. split; cbn; [done| |].
    + specialize (Hs t). rewrite Ea, Eb in Hs. apply Hs.
    + intros u. by apply paired_delete.
  - destruct Ht as [Hn Ha]. split; [done|]. unfold mem_rollbackTransaction. rewrite Hn.
    destruct (abs (persistent s)); cbn in *. f_equal. set_solver.
Qed.

Lemma cached_load_refines i s :
  cached_ok s → cached_ok (cached_loadInventory i s).2 ∧
  (cached_loadInventory i s).1 = inventories (abs (persistent s)) !! i ∧
  abs (persistent (cached_loadInventory i s).2) = abs (persistent s).
Proof.
  intros [Hp Hc Hpair]. unfold cached_loadInventory.
  destruct (load_refines i _ Hc) as (Hc' & Ec & Ac). cbn in Ec.
  destruct (loadInventory i (cache s)) as [cached c]. cbn in *. subst cached.
  pose proof (paired_coherent _ _ _ _ Hpair i) as Hi.
  destruct (inventories (abs (cache s)) !! i) as [x|] eqn:Ei.
  { destruct Hi as [Hi|[? _]]; [|done]. cbn. split_and!; [|done|done].
    split; cbn; [done|done|]. by rewrite Ac. }
  destruct (load_refines i _ Hp) as (Hp' & Ep & Ap). cbn in Ep.
  destruct (loadInventory i (persistent s)) as [persisted p]. cbn in *. subst persisted.
  destruct (inventories (abs (persistent s)) !! i) as [x|] eqn:Ej; cbn.
  - split_and!; [|done|done]. destruct (save_refines x _ Hc') as [Hc'' Acs].
    split; cbn; [done|done|]. rewrite Ap, Acs, Ac. eapply stores_paired_data; [done..|].
    cbn. destruct Hi as [|[_ [= ->]]]; [done|]. cbn. by apply coherent_fill; [apply Hpair|].
  - split_and!; [|done|done]. split; cbn; [done|done|]. by rewrite Ap, Ac.
Qed.

Lemma cached_save_refines state s :
  cached_ok s → cached_ok (cached_saveInventory state s) ∧
  abs (persistent (cached_saveInventory state s)) =
    mem_saveInventory state (abs (persistent s)).
Proof.
  intros [Hp Hc Hpair]. destruct (save_refines state _ Hp) as [Hp' Ap].
  destruct (save_refines state _ Hc) as [Hc' Ac]. split; [|done].
  split; cbn; [done|done|]. rewrite Ap, Ac. eapply stores_paired_data; [done..|].
  cbn. by apply coherent_insert, Hpair.
Qed.

(** Two coherent stores stay so when both get the same addition, and when both get the
    same removal, which succeeds in the cache if it does in the persistent store. *)
Lemma mem_add_coherent i k q reason clock clock' p c :
  coherent (inventories p) (inventories c) →
  (mem_addItem i k q reason clock' c).1 = (mem_addItem i k q reason clock p).1 ∧
  coherent (inventories (mem_addItem i k q reason clock p).2)
           (inventories (mem_addItem i k q reason clock' c).2).
Proof.
  intros Hcoh. unfold mem_addItem. destruct (q =? 0); [done|].
  rewrite (surjective_pairing (getOrCreateInventory i p)),
    (surjective_pairing (getOrCreateInventory i c)), !created_state.
  split; [done|]. unfold recordChange. cbn [snd inventories update_field].
  rewrite !write_created, (coherent_state _ _ i Hcoh). by apply coherent_insert.
Qed.

Lemma mem_set_coherent i k q reason clock clock' p c :
  coherent (inventories p) (inventories c) →
  coherent (inventories (mem_setItem i k q reason clock p))
           (inventories (mem_setItem i k q reason clock' c)).
Proof.
  intros Hcoh. unfold mem_setItem.
  rewrite (surjective_pairing (getOrCreateInventory i p)),
    (surjective_pairing (getOrCreateInventory i c)), !created_state.
  unfold recordChange. cbn [inventories update_field].
  rewrite !write_created, (coherent_state _ _ i Hcoh). by apply coherent_insert.
Qed.

Lemma mem_remove_coherent i k q reason clock clock' p c :
  coherent (inventories p) (inventories c) →
  match mem_removeItem i k q reason clock p with
  | (false, p') => coherent (inventories p') (inventories c)
  | (true, p') => (mem_removeItem i k q reason clock' c).1 = true ∧
      coherent (inventories p') (inventories (mem_removeItem i k q reason clock' c).2)
  end.
Proof.
  intros Hcoh. unfold mem_removeItem. destruct (q =? 0); [done|].
  rewrite (surjective_pairing (getOrCreateInventory i p)),
    (surjective_pairing (getOrCreateInventory i c)), !created_state.
  rewrite (coherent_state _ _ i Hcoh).
  assert (Hcreated : coherent (inventories (getOrCreateInventory i p).2) (inventories c)).
  { cbn. destruct (inventories c !! i) as [x|] eqn:Ec; [|by apply coherent_create].
    assert (Ep : inventories p !! i = Some x).
    { destruct (Hcoh i) as [E|[E _]]; congruence. }
    unfold emplace. by rewrite Ep. }
  destruct (items _ !! k) as [held|]; [|done]. destruct (_ <? _); [done|].
  split; [done|]. unfold recordChange. cbn [snd inventories update_field].
  rewrite !write_created, (coherent_state _ _ i Hcoh). by apply coherent_insert.
Qed.

Lemma cached_add_refines i k q reason clock s :
  cached_ok s → cached_ok (cached_addItem i k q reason clock s).2 ∧
  (cached_addItem i k q reason clock s).1 =
    (mem_addItem i k q reason clock (abs (persistent s))).1 ∧
  abs (persistent (cached_addItem i k q reason clock s).2) =
    (mem_addItem i k q reason clock (abs (persistent s))).2.
Proof.
  intros [Hp Hc Hpair]. unfold cached_addItem.
  destruct (add_refines i k q reason clock _ Hp) as (Hp' & Ep & Ap).
  destruct (add_refines i k q reason (tl clock) _ Hc) as (Hc' & Ec & Ac).
  destruct (mem_add_coherent i k q reason clock (tl clock) _ _ (paired_coherent _ _ _ _ Hpair))
    as [Esame Hcoh].
  destruct (addItem i k q reason clock (persistent s)) as [dp p].
  cbn [cache update_field].
  destruct (addItem i k q reason (tl clock) (cache s)) as [dc c]. cbn [fst snd] in *.
  rewrite Esame in Ec. rewrite <- Ep in Ec. subst dc. destruct dp; cbn [negb fst snd].
  - split_and!; [|done|done]. split; cbn; [done|done|]. rewrite Ap, Ac.
    eapply stores_paired_data; [exact Hpair|auto with hub..|exact Hcoh].
  - split_and!; [|done|done]. split; cbn; [done|done|]. rewrite Ap.
    unfold mem_addItem in *. destruct (q =? 0); [done|].
    by rewrite (surjective_pairing (getOrCreateInventory _ _)) in Ep.
Qed.

Lemma cached_remove_refines i k q reason clock s :
  cached_ok s → cached_ok (cached_removeItem i k q reason clock s).2 ∧
  (cached_removeItem i k q reason clock s).1 =
    (mem_removeItem i k q reason clock (abs (persistent s))).1 ∧
  abs (persistent (cached_removeItem i k q reason clock s).2) =
    (mem_removeItem i k q reason clock (abs (persistent s))).2.
Proof.
  intros [Hp Hc Hpair]. unfold cached_removeItem.
  destruct (remove_refines i k q reason clock _ Hp) as (Hp' & Ep & Ap).
  destruct (remove_refines i k q reason (tl clock) _ Hc) as (Hc' & Ec & Ac).
  pose proof (mem_remove_coherent i k q reason clock (tl clock) _ _
    (paired_coherent _ _ _ _ Hpair)) as Hcoh.
  pose proof (remove_transactions i k q reason clock (abs (persistent s))) as Htx.
  destruct (removeItem i k q reason clock (persistent s)) as [dp p].
  destruct (mem_removeItem i k q reason clock (abs (persistent s))) as [dm pm]. cbn in *.
  subst dp. destruct dm; cbn.
  - destruct Hcoh as [Ed Hcoh]. rewrite Ed in Ec. cbn [cache update_field].
    destruct (removeItem i k q reason (tl clock) (cache s)) as [dc c]. cbn in *. subst dc.
    split_and!; [|done|done]. split; cbn; [done|done|]. rewrite Ap, Ac.
    eapply stores_paired_data; [exact Hpair|exact Htx|auto with hub|exact Hcoh].
  - split_and!; [|done|done]. split; cbn; [done|done|]. rewrite Ap.
    eapply stores_paired_data; [exact Hpair|exact Htx|auto with hub|exact Hcoh].
Qed.

Lemma cached_set_refines i k q reason clock s :
  cached_ok s → cached_ok (cached_setItem i k q reason clock s) ∧
  abs (persistent (cached_setItem i k q reason clock s)) =
    mem_setItem i k q reason clock (abs (persistent s)).
Proof.
  intros [Hp Hc Hpair]. destruct (set_refines i k q reason clock _ Hp) as [Hp' Ap].
  destruct (set_refines i k q reason (tl clock) _ Hc) as [Hc' Ac]. split; [|done].
  split; cbn; [done|done|]. rewrite Ap, Ac.
  eapply stores_paired_data; [done|auto with hub..|]. by apply mem_set_coherent, Hpair.
Qed.

(** The cache over two stores that keep the promise keeps it too: what clients see is the
    persistent store. *)
#[export] Instance Cached_refinement : StorageRefinement (CachedInventoryStorage P C) := {|
  abs := λ s, abs (persistent s);
  ok := cached_ok;
  ok_abs := λ s Hs, ok_abs (persistent s) (cached_persistent s Hs);
  begin_refines := cached_begin_refines;
  commit_refines := cached_commit_refines;
  rollback_refines := cached_rollback_refines;
  load_refines := cached_load_refines;
  save_refines := cached_save_refines;
  add_refines := cached_add_refines;
  remove_refines := cached_remove_refines;
  set_refines := cached_set_refines;
  log_refines := λ i s Hs, log_refines i (persistent s) (cached_persistent s Hs)
|}.

End cached_refinement.

(** ** Sequences of operations *)

Inductive store_op :=
  | OpBegin
  | OpCommit (transaction : Z)
  | OpRollback (transaction : Z)
  | OpLoad (inventory : Z)
  | OpSave (state : InventoryState)
  | OpAdd (inventory item quantity : Z) (reason : string) (clock : list Z)
  | OpRemove (inventory item quantity : Z) (reason : string) (clock : list Z)
  | OpSet (inventory item quantity : Z) (reason : string) (clock : list Z)
  | OpLog (inventory : Z).

Inductive answer :=
  | Nothing
  | Started (transaction : Z)
  | Loaded (state : option InventoryState)
  | Done (success : bool)
  | Changes (log : list InventoryChange).

Section run.
Context {S : Type} `{InventoryStorage S}.

Definition run_op (op : store_op) (s : S) : answer * S :=
  match op with
  | OpBegin => let '(t, s) := beginTransaction s in (Started t, s)
  | OpCommit t => (Nothing, commitTransaction t s)
  | OpRollback t => (Nothing, rollbackTransaction t s)
  | OpLoad i => let '(state, s) := loadInventory i s in (Loaded state, s)
  | OpSave state => (Nothing, saveInventory state s)
  | OpAdd i k q reason clock => let '(b, s) := addItem i k q reason clock s in (Done b, s)
  | OpRemove i k q reason clock => let '(b, s) := removeItem i k q reason clock s in (Done b, s)
  | OpSet i k q reason clock => (Nothing, setItem i k q reason clock s)
  | OpLog i => (Changes (changeLog i s), s)
  end.

Fixpoint run_ops (ops : list store_op) (s : S) : list answer * S :=
  match ops with
  | [] => ([], s)
  | op :: rest =>
    let '(a, s) := run_op op s in
    let '(answers, s) := run_ops rest s in (a :: answers, s)
  end.

End run.

Section refinement.
Context {S : Type} `{StorageRefinement S}.
Implicit Types (s : S).

Lemma run_op_refines op s :
  ok s → next_transaction_id (abs s) + 1 < 2 ^ 64 →
  ok (run_op op s).2 ∧ (run_op op s).1 = (run_op op (abs s)).1 ∧
  abs (run_op op s).2 = (run_op op (abs s)).2.
Proof.
  intros Hok Hn. destruct op as [|t|t|i|st|i k q r c|i k q r c|i k q r c|i]; cbn [run_op].
  - destruct (begin_refines s Hok Hn) as (? & E & A). destruct (beginTransaction s).
    by cbn in *; rewrite E.
  - by destruct (commit_refines t s Hok).
  - by destruct (rollback_refines t s Hok).
  - destruct (load_refines i s Hok) as (? & E & A). destruct (loadInventory i s).
    by cbn in *; rewrite E.
  - by destruct (save_refines st s Hok).
  - destruct (add_refines i k q r c s Hok) as (? & E & A). destruct (addItem i k q r c s).
    change (addItem (S := InMemoryInventoryStorage)) with mem_addItem.
    destruct (mem_addItem i k q r c (abs s)). cbn in *. by subst.
  - destruct (remove_refines i k q r c s Hok) as (? & E & A). destruct (removeItem i k q r c s).
    change (removeItem (S := InMemoryInventoryStorage)) with mem_removeItem.
    destruct (mem_removeItem i k q r c (abs s)). cbn in *. by subst.
  - by destruct (set_refines i k q r c s Hok).
  - by rewrite (log_refines i s Hok).
Qed.

Lemma mem_run_op_next op (m : InMemoryInventoryStorage) :
  mem_ok m → next_transaction_id m + 1 < 2 ^ 64 →
  next_transaction_id m <= next_transaction_id (run_op op m).2 <= next_transaction_id m + 1.
Proof.
  intros [Hn _ _] Hlt. destruct op as [|t|t|i|st|i k q r c|i k q r c|i k q r c|i]; cbn.
  - rewrite wrap_small; lia.
  - lia.
  - unfold mem_rollbackTransaction. destruct (transaction_snapshots m !! t); cbn; lia.
  - lia.
  - lia.
  - destruct (add_transactions i k q r c m) as (E & _).
    destruct (mem_addItem i k q r c m). cbn in *. lia.
  - destruct (remove_transactions i k q r c m) as (E & _).
    destruct (mem_removeItem i k q r c m). cbn in *. lia.
  - destruct (set_transactions i k q r c m) as (E & _). lia.
  - lia.
Qed.

Lemma run_ops_refines ops s :
  ok s → next_transaction_id (abs s) + Z.of_nat (length ops) < 2 ^ 64 →
  ok (run_ops ops s).2 ∧ (run_ops ops s).1 = (run_ops ops (abs s)).1 ∧
  abs (run_ops ops s).2 = (run_ops ops (abs s)).2.
Proof.
  revert s. induction ops as [|op ops IH]; intros s Hok Hn; [done|].
  cbn [run_ops length] in *.
  destruct (run_op_refines op s Hok) as (Hok' & E & A); [lia|].
  pose proof (mem_run_op_next op (abs s) (ok_abs _ Hok)) as Hnext.
  destruct (run_op op s) as [a s']. destruct (run_op op (abs s)) as [b m].
  cbn [fst snd] in *. subst a m.
  destruct (IH s' Hok') as (Hok2 & E2 & A2); [lia|].
  destruct (run_ops ops s') as [l s2], (run_ops ops (abs s')) as [l' m2].
  cbn [fst snd] in *. by subst.
Qed.

End refinement.

(** An operation that ends transaction [t]. *)
Definition ends (t : Z) (op : store_op) : Prop :=
  match op with OpCommit u | OpRollback u => u = t | _ => False end.

(** A transaction's snapshot is kept until it ends. *)
Lemma mem_keeps_snapshot ops t (m : InMemoryInventoryStorage) saved :
  mem_ok m → next_transaction_id m + Z.of_nat (length ops) < 2 ^ 64 →
  Forall (λ op, ¬ ends t op) ops →
  transaction_snapshots m !! t = Some saved →
  transaction_snapshots (run_ops ops m).2 !! t = Some saved.
Proof.
  revert m. induction ops as [|op ops IH]; intros m Hok Hn He Ht; [done|].
  apply Forall_cons in He as [He Hes]. cbn [run_ops length] in *.
  assert (Hm : ok m) by exact Hok.
  destruct (run_op_refines op m Hm) as (Hok' & _ & _); [cbn; lia|].
  pose proof (mem_run_op_next op m Hok) as Hnext.
  assert (Ht' : transaction_snapshots (run_op op m).2 !! t = Some saved).
  { clear IH. destruct op as [|u|u|i|st|i k q r c|i k q r c|i k q r c|i]; cbn in *; try done.
    - rewrite lookup_emplace, Ht. done.
    - by rewrite lookup_delete_ne.
    - unfold mem_rollbackTransaction. destruct (transaction_snapshots m !! u); cbn; [|done].
      by rewrite lookup_delete_ne.
    - destruct (add_transactions i k q r c m) as (_ & _ & E).
      destruct (mem_addItem i k q r c m). cbn in *. by rewrite E.
    - destruct (remove_transactions i k q r c m) as (_ & _ & E).
      destruct (mem_removeItem i k q r c m). cbn in *. by rewrite E. }
  destruct (run_op op m) as [a m']. cbn [snd] in *.
  specialize (IH m'). destruct (run_ops ops m') as [l m2]. cbn [snd] in *.
  apply IH; [done|lia|done|done].
Qed.

(** ** Properties *)

(** What a client can observe of an inventory. *)
Definition observe {S} `{InventoryStorage S} (i : Z) (s : S)
    : option InventoryState * list InventoryChange :=
  ((loadInventory i s).1, changeLog i s).

(** C16: the cached store the server uses, over a MySQL store and a memory cache that start
    empty, is indistinguishable from a single snapshot store: whatever operations are
    run, transactions included, every answer is the same. *)
Theorem cached_storage_refines ops :
  Z.of_nat (length ops) < 2 ^ 64 - 1 →
  (run_ops ops (new_CachedInventoryStorage new_MySqlInventoryStorage
                  new_InMemoryInventoryStorage)).1 =
  (run_ops ops new_InMemoryInventoryStorage).1.
Proof.
  intros Hlen.
  assert (Hok : ok (new_CachedInventoryStorage new_MySqlInventoryStorage
                      new_InMemoryInventoryStorage)).
  { split; [apply new_storage_ok|apply new_storage_ok|].
    split; [done|by left|done]. }
  apply (run_ops_refines ops _ Hok). cbn. lia.
Qed.

Definition sample_ops : list store_op :=
  [OpAdd 1 7 3 "loot" [10; 11]; OpBegin; OpRemove 1 7 2 "use" [12]; OpLoad 1; OpRollback 1;
   OpLoad 1; OpLog 1; OpRemove 2 7 1 "use" []; OpLoad 2].

Lemma cached_storage_refines_witness :
  (run_ops sample_ops (new_CachedInventoryStorage new_MySqlInventoryStorage
                         new_InMemoryInventoryStorage)).1 =
  (run_ops sample_ops new_InMemoryInventoryStorage).1.
Proof. apply cached_storage_refines. by vm_compute. Defined.

(** C17: rolling a transaction back undoes everything since it began: whatever operations
    ran in between, other transactions included, as long as none of them ended this
    one, every inventory and every change log are again as when it began. *)
Theorem rollback_restores {S} `{StorageRefinement S} ops (s : S) :
  ok s → next_transaction_id (abs s) + 1 + Z.of_nat (length ops) < 2 ^ 64 →
  let '(t, s1) := beginTransaction s in
  Forall (λ op, ¬ ends t op) ops →
  ∀ i, observe i (rollbackTransaction t (run_ops ops s1).2) = observe i s.
Proof.
  intros Hok Hn. destruct (begin_refines s Hok) as (Hok1 & Et & A1); [lia|].
  pose proof (ok_abs _ Hok) as Hm. pose proof (mem_begin_ok _ Hm ltac:(lia)) as Hm1.
  destruct (beginTransaction s) as [t s1]. cbn [fst snd] in *. intros He i.
  assert (Hn1 : next_transaction_id (abs s1) = next_transaction_id (abs s) + 1).
  { rewrite A1. cbn. destruct Hm. rewrite wrap_small; lia. }
  destruct (run_ops_refines ops s1 Hok1) as (Hok2 & _ & A2); [lia|].
  destruct (rollback_refines t _ Hok2) as (Hok3 & A3).
  assert (Hs : transaction_snapshots (run_ops ops (abs s1)).2 !! t = Some (snapshot (abs s))).
  { apply mem_keeps_snapshot; [by rewrite A1|lia|done|]. rewrite A1, Et. cbn.
    rewrite emplace_fresh; [apply lookup_insert_eq|].
    apply eq_None_not_Some. intros [x Hx%(mem_fresh _ Hm)]. lia. }
  unfold observe. destruct (load_refines i _ Hok3) as (_ & -> & _).
  destruct (load_refines i _ Hok) as (_ & -> & _).
  rewrite !log_refines by done. rewrite A3, A2. unfold mem_rollbackTransaction.
  by rewrite Hs.
Qed.

Lemma rollback_restores_witness :
  let s := (run_op (OpAdd 1 7 3 "loot" []) new_InMemoryInventoryStorage).2 in
  let ops := [OpAdd 1 7 9 "loot" []; OpBegin; OpSet 2 8 1 "gm" []; OpCommit 2] in
  let '(t, s1) := beginTransaction s in
  Forall (λ op, ¬ ends t op) ops →
  ∀ i, observe i (rollbackTransaction t (run_ops ops s1).2) = observe i s.
Proof.
  apply (rollback_restores [OpAdd 1 7 9 "loot" []; OpBegin; OpSet 2 8 1 "gm" []; OpCommit 2]
    (run_op (OpAdd 1 7 3 "loot" []) new_InMemoryInventoryStorage).2); [|by vm_compute].
  apply (run_op_refines (S := InMemoryInventoryStorage)); [apply new_storage_ok|by vm_compute].
Defined.

(** Adding an item: refused exactly when the quantity is zero; otherwise the item's
    quantity grows modulo 2^32 (so a large stack can wrap around to a small one, or to
    an entry of zero), every other item and inventory stays, and the change log gets
    exactly one new entry, with the next change id. *)
Theorem addItem_effect {S} `{StorageRefinement S} i k q reason clock (s : S) :
  ok s →
  let quantity s i k := default 0 (items (default (blank i) (loadInventory i s).1) !! k) in
  let '(added, s') := addItem i k q reason clock s in
  added = negb (q =? 0) ∧
  quantity s' i k = (if added then u32 (quantity s i k + q) else quantity s i k) ∧
  (∀ j, j ≠ k → quantity s' i j = quantity s i j) ∧
  (∀ i', i' ≠ i → observe i' s' = observe i' s) ∧
  (added = true → changeLog i s' = changeLog i s ++
     [{| change_id := next_change_id (abs s); change_inventory_id := i; change_item_id := k;
         change_quantity := q; change_type := Add; change_reason := reason;
         recorded_at := hd 0 clock |}]).
Proof.
  intros Hok. destruct (add_refines i k q reason clock s Hok) as (Hok' & E & A).
  destruct (addItem i k q reason clock s) as [added s']. cbn [fst snd] in *.
  assert (Hload : ∀ i', (loadInventory i' s').1 = inventories (abs s') !! i').
  { intros i'. by destruct (load_refines i' s' Hok') as (_ & -> & _). }
  assert (Hload0 : ∀ i', (loadInventory i' s).1 = inventories (abs s) !! i').
  { intros i'. by destruct (load_refines i' s Hok) as (_ & -> & _). }
  unfold observe. rewrite !Hload, !Hload0, !log_refines by done.
  setoid_rewrite Hload. setoid_rewrite Hload0.
  assert (Hlog : ∀ i', changeLog i' s' = mem_changeLog i' (abs s')) by (by intros; apply log_refines).
  assert (Hlog0 : ∀ i', changeLog i' s = mem_changeLog i' (abs s)) by (by intros; apply log_refines).
  setoid_rewrite Hlog. setoid_rewrite Hlog0. rewrite A.
  unfold mem_addItem in *. destruct (q =? 0) eqn:Eq; [by subst|].
  rewrite (surjective_pairing (getOrCreateInventory i (abs s))), created_state in *.
  cbn [fst snd] in *. subst added. unfold recordChange, mem_changeLog.
  cbn [inventories change_log update_field negb]. rewrite write_created, !lookup_insert_eq.
  cbn -[state_of]. fold (state_of (inventories (abs s)) i).
  rewrite lookup_insert_eq. split_and!; try done.
  - intros j Hj. by rewrite lookup_insert_ne.
  - intros i' Hi. by rewrite !lookup_insert_ne.
Qed.

Definition full_stack : InMemoryInventoryStorage :=
  (run_op (OpAdd 1 7 4294967295 "loot" []) new_InMemoryInventoryStorage).2.

Lemma full_stack_ok : ok full_stack.
Proof.
  apply (run_op_refines (S := InMemoryInventoryStorage)); [apply new_storage_ok|by vm_compute].
Qed.

Lemma addItem_effect_witness :
  let s := full_stack in
  let quantity s i k := default 0 (items (default (blank i) (loadInventory i s).1) !! k) in
  let '(added, s') := addItem 1 7 1 "loot" [5] s in
  added = negb (1 =? 0) ∧
  quantity s' 1 7 = (if added then u32 (quantity s 1 7 + 1) else quantity s 1 7) ∧
  (∀ j, j ≠ 7 → quantity s' 1 j = quantity s 1 j) ∧
  (∀ i', i' ≠ 1 → observe i' s' = observe i' s) ∧
  (added = true → changeLog 1 s' = changeLog 1 s ++
     [{| change_id := next_change_id (abs s); change_inventory_id := 1; change_item_id := 7;
         change_quantity := 1; change_type := Add; change_reason := "loot";
         recorded_at := hd 0 [5] |}]).
Proof. exact (addItem_effect 1 7 1 "loot" [5] full_stack full_stack_ok). Defined.

(** The cache is only right when it has seen every write: over a persistent store that
    already holds an inventory, adding an item before the inventory was first loaded
    makes the cache answer with the new item alone; what is stored is intact. *)
Theorem cold_cache_hides_items :
  let stored := (run_op (OpAdd 1 7 3 "loot" []) new_MySqlInventoryStorage).2 in
  let s := new_CachedInventoryStorage stored new_InMemoryInventoryStorage in
  let s' := (addItem 1 8 1 "loot" [] s).2 in
  (loadInventory 1 s').1 = Some {| inventory_id := 1; items := {[ 8 := 1 ]} |} ∧
  (loadInventory 1 (persistent s')).1 =
    Some {| inventory_id := 1; items := <[8 := 1]> {[ 7 := 3 ]} |}.
Proof. by vm_compute. Qed.
