(* ===== verification/WorkerPool.v ===== *)
(** * Packet queue and worker pool (src/src/net/worker_pool.h, worker_pool.cpp)

    The bodies that run under a mutex are functions; where they wait on a condition
    variable they return [None] while the awaited predicate is false. The threads of a
    [PacketQueue] are a step relation [queue_step] over these functions, with the waits and
    notifications of its one condition variable. The [PacketDispatcher] made of a queue
    and a pool is in Dispatch. *)

From stdpp Require Import relations list_tactics.
From S2P Require Import Prelude Codec.

Record PacketJob := {
  connection_id : Z;
  header : FrameHeader;
  payload : list byte;
  received_at : Z
}.

(** ** PacketQueue *)

Inductive OverflowPolicy := Block | DropNewest | DropOldest.

#[export] Instance OverflowPolicy_eq_dec : EqDecision OverflowPolicy.
Proof. solve_decision. Defined.

Record PacketQueue := {
  queue : list PacketJob;
  stopped : bool;
  capacity : Z;
  overflow_policy : OverflowPolicy;
  dropped : Z
}.

#[export] Instance PacketQueue_rebuild : Rebuild PacketQueue := λ q, {|
  queue := queue q; stopped := stopped q; capacity := capacity q;
  overflow_policy := overflow_policy q; dropped := dropped q |}.

Definition new_PacketQueue (capacity : Z) (policy : OverflowPolicy) : PacketQueue := {|
  queue := []; stopped := false; capacity := capacity; overflow_policy := policy;
  dropped := 0 |}.

Definition isFullLocked (q : PacketQueue) : bool :=
  if capacity q =? 0 then false else capacity q <=? Z.of_nat (length (queue q)).

(** [push]: [None] while it waits, otherwise its result. *)
Definition push (job : PacketJob) (q : PacketQueue) : option (bool * PacketQueue) :=
  let accept (q : PacketQueue) := Some (true, q <| queue ::= λ l, l ++ [job] |>) in
  if 0 <? capacity q then
    match overflow_policy q with
    | Block =>
      if negb (stopped q || negb (isFullLocked q)) then None
      else if stopped q then Some (false, q) else accept q
    | DropNewest =>
      if isFullLocked q then Some (false, q <| dropped ::= λ d, u64 (d + 1) |>) else accept q
    | DropOldest =>
      if isFullLocked q
      then accept (q <| queue ::= tail |> <| dropped ::= λ d, u64 (d + 1) |>)
      else accept q
    end
  else accept q.

(** [pop]: [None] while it waits; [Some (None, _)] when it returns false. *)
Definition pop (q : PacketQueue) : option (option PacketJob * PacketQueue) :=
  if negb (stopped q || negb (bool_decide (queue q = []))) then None
  else
    match queue q with
    | [] => Some (None, q)
    | job :: rest => Some (Some job, q <| queue := rest |>)
    end.

Definition stop (q : PacketQueue) : PacketQueue := q <| stopped := true |>.

Definition droppedCount (q : PacketQueue) : Z := dropped q.

(** What [push] throws out of the queue. *)
Definition evicted_by_push (q : PacketQueue) : list PacketJob :=
  if (0 <? capacity q) && bool_decide (overflow_policy q = DropOldest) && isFullLocked q
  then take 1 (queue q) else [].

(** ** Threads of one queue *)

Inductive role :=
  | Producer (jobs : list PacketJob)  (* still to push *)
  | Consumer
  | Finished.

(** Between two critical sections, in the wait of [cv_], or about to [notify_one]. *)
Inductive status := Running | Waiting | Notifying.

Record QueueSystem := {
  packet_queue : PacketQueue;
  threads : list (role * status);
  accepted : list PacketJob;  (* pushes that returned true, in order *)
  popped : list PacketJob;    (* jobs given to consumers, in order *)
  evicted : list PacketJob    (* jobs thrown out by DropOldest *)
}.

#[export] Instance QueueSystem_rebuild : Rebuild QueueSystem := λ s, {|
  packet_queue := packet_queue s; threads := threads s; accepted := accepted s;
  popped := popped s; evicted := evicted s |}.

Definition after_pop (q : PacketQueue) : status := if 0 <? capacity q then Notifying else Running.

(** A step of one thread. A woken thread runs its body again from the predicate. *)
Inductive queue_step (s : QueueSystem) : QueueSystem → Prop :=
  | step_push i job jobs result q :
    threads s !! i = Some (Producer (job :: jobs), Running) →
    push job (packet_queue s) = Some (result, q) →
    queue_step s (s
      <| packet_queue := q |>
      <| threads ::= <[i := (Producer jobs, if result : bool then Notifying else Running)]> |>
      <| accepted ::= λ l, l ++ (if result then [job] else []) |>
      <| evicted ::= λ l, l ++ (if result then evicted_by_push (packet_queue s) else []) |>)
  | step_push_wait i job jobs :
    threads s !! i = Some (Producer (job :: jobs), Running) →
    push job (packet_queue s) = None →
    queue_step s (s <| threads ::= <[i := (Producer (job :: jobs), Waiting)]> |>)
  | step_pop i job q :
    threads s !! i = Some (Consumer, Running) →
    pop (packet_queue s) = Some (Some job, q) →
    queue_step s (s
      <| packet_queue := q |>
      <| threads ::= <[i := (Consumer, after_pop q)]> |>
      <| popped ::= λ l, l ++ [job] |>)
  | step_pop_wait i :
    threads s !! i = Some (Consumer, Running) →
    pop (packet_queue s) = None →
    queue_step s (s <| threads ::= <[i := (Consumer, Waiting)]> |>)
  | step_pop_end i q :
    threads s !! i = Some (Consumer, Running) →
    pop (packet_queue s) = Some (None, q) →
    queue_step s (s <| threads ::= <[i := (Finished, Running)]> |>)
  | step_notify i r k r' :
    threads s !! i = Some (r, Notifying) → threads s !! k = Some (r', Waiting) →
    queue_step s (s <| threads ::= λ l, <[i := (r, Running)]> (<[k := (r', Running)]> l) |>)
  | step_notify_nobody i r :
    threads s !! i = Some (r, Notifying) →
    Forall (λ t, t.2 ≠ Waiting) (threads s) →
    queue_step s (s <| threads ::= <[i := (r, Running)]> |>).

(** What other code or the system may do: [stop], and spurious wake-ups. *)
Inductive outside_step (s : QueueSystem) : QueueSystem → Prop :=
  | step_stop :
    outside_step s (s
      <| packet_queue ::= stop |>
      <| threads ::= fmap (λ t, (t.1, match t.2 with Waiting => Running | x => x end)) |>)
  | step_spurious i r :
    threads s !! i = Some (r, Waiting) →
    outside_step s (s <| threads ::= <[i := (r, Running)]> |>).

Definition any_step (s s' : QueueSystem) : Prop := queue_step s s' ∨ outside_step s s'.

Definition new_QueueSystem (q : PacketQueue) (roles : list role) : QueueSystem := {|
  packet_queue := q; threads := (λ r, (r, Running)) <$> roles;
  accepted := []; popped := []; evicted := [] |}.

(** ** What the queue keeps *)

(** [removed ++ l1] with [removed] dropped here and there: a merge of two lists. *)
Inductive merge {A} : list A → list A → list A → Prop :=
  | merge_nil : merge [] [] []
  | merge_left x l1 l2 l : merge l1 l2 l → merge (x :: l1) l2 (x :: l)
  | merge_right x l1 l2 l : merge l1 l2 l → merge l1 (x :: l2) (x :: l).

Lemma merge_snoc_left {A} (l1 l2 l : list A) x : merge l1 l2 l → merge (l1 ++ [x]) l2 (l ++ [x]).
Proof. induction 1; cbn; repeat constructor; done. Qed.

Lemma merge_snoc_right {A} (l1 l2 l : list A) x : merge l1 l2 l → merge l1 (l2 ++ [x]) (l ++ [x]).
Proof. induction 1; cbn; repeat constructor; done. Qed.

Lemma merge_perm {A} (l1 l2 l : list A) : merge l1 l2 l → l ≡ₚ l1 ++ l2.
Proof.
  induction 1; cbn; [done|by constructor|]. rewrite IHmerge. apply Permutation_middle.
Qed.

Lemma merge_nil_right {A} (l1 l : list A) : merge l1 [] l → l = l1.
Proof.
  intros Hm. remember [] as l2 eqn:E. induction Hm; [done| |done]. f_equal. auto.
Qed.

(** The jobs that left the queue, popped or evicted, left it in the order they came. *)
Record queue_inv (cap : Z) (policy : OverflowPolicy) (s : QueueSystem) : Prop := {
  inv_config : capacity (packet_queue s) = cap ∧ overflow_policy (packet_queue s) = policy;
  inv_bound : 0 < cap → Z.of_nat (length (queue (packet_queue s))) <= cap;
  inv_order : ∃ gone, merge (popped s) (evicted s) gone ∧
                accepted s = gone ++ queue (packet_queue s);
  inv_evicted : policy ≠ DropOldest ∨ cap <= 0 → evicted s = []
}.

Lemma push_effect job q result q' :
  push job q = Some (result, q') →
  capacity q' = capacity q ∧ overflow_policy q' = overflow_policy q ∧
  if result then
    ∃ rest, queue q = evicted_by_push q ++ rest ∧ queue q' = rest ++ [job] ∧
      (length (evicted_by_push q) <= 1)%nat ∧
      (overflow_policy q ≠ DropOldest ∨ capacity q <= 0 → evicted_by_push q = []) ∧
      (0 < capacity q → Z.of_nat (length (queue q)) <= capacity q →
         Z.of_nat (length (queue q')) <= capacity q)
  else queue q' = queue q.
Proof.
  unfold push, evicted_by_push.
  assert (Hfull : 0 < capacity q → isFullLocked q = (capacity q <=? Z.of_nat (length (queue q)))).
  { intros. unfold isFullLocked. by rewrite (proj2 (Z.eqb_neq _ _)) by lia. }
  destruct (0 <? capacity q) eqn:Ec; bool_props; cbn [andb].
  2:{ intros [= <- <-]. cbn. split_and!; [done..|]. exists (queue q).
      split_and!; [done|done|cbn; lia|done|lia]. }
  rewrite Hfull by done.
  destruct (overflow_policy q) eqn:Ep;
    [rewrite (bool_decide_eq_false_2 (Block = DropOldest)) by done
    |rewrite (bool_decide_eq_false_2 (DropNewest = DropOldest)) by done
    |rewrite (bool_decide_eq_true_2 (DropOldest = DropOldest)) by done]; cbn.
  - destruct (negb _) eqn:E1; [done|]. destruct (stopped q); intros [= <- <-]; [done|].
    cbn in *. rewrite negb_involutive in E1. bool_props. split_and!; [done..|]. exists (queue q).
    split_and!; [done|done|lia|done|]. intros _ _. rewrite length_app. cbn. lia.
  - destruct (_ <=? _) eqn:E2; intros [= <- <-]; [done|]. bool_props. cbn.
    split_and!; [done..|]. exists (queue q). split_and!; [done|done|lia|done|].
    intros _ _. rewrite length_app. cbn. lia.
  - destruct (_ <=? _) eqn:E2; intros [= <- <-]; bool_props; cbn; (split_and!; [done..|]).
    + exists (tail (queue q)). destruct (queue q) as [|x l] eqn:El; cbn in *; [lia|].
      split_and!; [done|done|rewrite take_0; cbn; lia|intros [?|?]; [done|lia]|].
      intros _ ?. rewrite length_app. cbn. lia.
    + exists (queue q). split_and!; [done|done|lia|done|].
      intros _ _. rewrite length_app. cbn. lia.
Qed.

Lemma pop_effect q job q' :
  pop q = Some (Some job, q') → queue q = job :: queue q' ∧ capacity q' = capacity q ∧
  overflow_policy q' = overflow_policy q ∧ stopped q' = stopped q.
Proof.
  unfold pop. destruct (negb _); [done|].
  destruct (queue q) as [|x l] eqn:E; [done|]. by intros [= <- <-].
Qed.

Lemma pop_end_effect q q' :
  pop q = Some (None, q') → q' = q ∧ queue q = [] ∧ stopped q = true.
Proof.
  unfold pop. destruct (queue q) as [|x l]; [|by destruct (negb _)].
  rewrite bool_decide_eq_true_2 by done. destruct (stopped q); [|done]. by intros [= <-].
Qed.

Lemma any_step_inv cap policy s s' :
  any_step s s' → queue_inv cap policy s → queue_inv cap policy s'.
Proof.
  intros Hs [[<- <-] Hb (gone & Hm & Ha) He]. destruct Hs as [Hs|Hs].
  2:{ destruct Hs; by split; eauto. }
  destruct Hs as [i job jobs result q Hi Hp|i job jobs Hi Hp|i job q Hi Hp|i Hi Hp|i q Hi Hp
    |i r k r' Hi Hk|i r Hi Hf]; try by split; eauto.
  - apply push_effect in Hp as (Hc & Ho & Hp). rewrite <- Hc, <- Ho in *.
    split; cbn; [done| | |].
    + destruct result; [|by rewrite Hp].
      destruct Hp as (rest & _ & _ & _ & _ & Hbound). intros Hpos. auto.
    + destruct result; rewrite ?app_nil_r; [|rewrite Hp; by exists gone].
      destruct Hp as (rest & Hq & Hq' & _). rewrite Ha, Hq, Hq'.
      exists (gone ++ evicted_by_push (packet_queue s)). rewrite <- !app_assoc.
      split; [|done]. clear -Hm. revert Hm. generalize (evicted s) (popped s).
      intros ev po. generalize (evicted_by_push (packet_queue s)). intros l Hm.
      revert gone ev Hm. induction l as [|x l IH]; intros gone ev Hm.
      { by rewrite !app_nil_r. }
      replace (ev ++ x :: l) with ((ev ++ [x]) ++ l) by by rewrite <- app_assoc.
      replace (gone ++ x :: l) with ((gone ++ [x]) ++ l) by by rewrite <- app_assoc.
      apply IH. by apply merge_snoc_right.
    + destruct result; [|by rewrite app_nil_r].
      destruct Hp as (_ & _ & _ & _ & Hev & _). intros Hc'. by rewrite He, Hev.
  - apply pop_effect in Hp as (Hq & Hc & Ho & _). rewrite <- Hc, <- Ho in *.
    split; cbn; [done| | |done].
    + intros Hpos. specialize (Hb Hpos). rewrite Hq in Hb. cbn in Hb. lia.
    + exists (gone ++ [job]). split; [by apply merge_snoc_left|].
      by rewrite Ha, Hq, <- app_assoc.
Qed.

Lemma reachable_inv cap policy roles s :
  rtc any_step (new_QueueSystem (new_PacketQueue cap policy) roles) s → queue_inv cap policy s.
Proof.
  intros Hr. assert (Hi : queue_inv cap policy
                            (new_QueueSystem (new_PacketQueue cap policy) roles)).
  { split; cbn; [done|lia| |done]. exists []. split; [constructor|done]. }
  revert Hi. induction Hr as [|x y z Hxy _ IH]; [done|]. intros Hi.
  apply IH. by eapply any_step_inv.
Qed.

(** ** WorkerPool *)

Record WorkerPool := { jobs : list PacketJob; stop_requested : bool }.

#[export] Instance WorkerPool_rebuild : Rebuild WorkerPool := λ p, {|
  jobs := jobs p; stop_requested := stop_requested p |}.

Definition submit (job : PacketJob) (p : WorkerPool) : WorkerPool :=
  p <| jobs ::= λ l, l ++ [job] |>.

(** The critical section of [workerLoop]: [None] while it waits, [Some (None, _)] when the
    worker returns. *)
Definition take_job (p : WorkerPool) : option (option PacketJob * WorkerPool) :=
  if negb (stop_requested p || negb (bool_decide (jobs p = []))) then None
  else if stop_requested p && bool_decide (jobs p = []) then Some (None, p)
  else
    match jobs p with
    | [] => None
    | job :: rest => Some (Some job, p <| jobs := rest |>)
    end.

(** [start] and [stop] of a pool that does not and does run; the threads are in Dispatch. *)
Definition pool_start (p : WorkerPool) : WorkerPool := p <| stop_requested := false |>.

Definition request_stop (p : WorkerPool) : WorkerPool := p <| stop_requested := true |>.

Lemma take_job_effect p job p' :
  take_job p = Some (Some job, p') → jobs p = job :: jobs p' ∧
  stop_requested p' = stop_requested p.
Proof.
  unfold take_job. destruct (negb _); [done|]. destruct (_ && _); [done|].
  destruct (jobs p) eqn:E; [done|]. by intros [= <- <-].
Qed.

Lemma take_job_exit p p' :
  take_job p = Some (None, p') → stop_requested p = true ∧ jobs p = [].
Proof.
  unfold take_job. destruct (jobs p) as [|x l] eqn:E.
  - rewrite bool_decide_eq_true_2 by done. by destruct (stop_requested p).
  - rewrite bool_decide_eq_false_2 by done. by destruct (stop_requested p).
Qed.

(** ** Properties *)

(** C23: a packet queue is a bounded FIFO, whatever its producers, consumers, stops and
    wake-ups do: with a capacity it never holds more; the accepted jobs are those that
    left it, in order, followed by those in it; they left by being given to a consumer
    or, under [DropOldest] alone, by being thrown out. So no accepted job is lost,
    duplicated or overtaken. *)
Theorem packet_queue_fifo cap policy roles s :
  rtc any_step (new_QueueSystem (new_PacketQueue cap policy) roles) s →
  let q := packet_queue s in
  (0 < cap → Z.of_nat (length (queue q)) <= cap) ∧
  (∃ gone, merge (popped s) (evicted s) gone ∧ accepted s = gone ++ queue q) ∧
  accepted s ≡ₚ popped s ++ evicted s ++ queue q ∧
  (policy ≠ DropOldest ∨ cap <= 0 → accepted s = popped s ++ queue q).
Proof.
  intros Hr q. destruct (reachable_inv _ _ _ _ Hr) as [_ Hb (gone & Hm & Ha) He].
  split_and!; [done|by exists gone| |].
  - rewrite Ha, (merge_perm _ _ _ Hm). by rewrite <- app_assoc.
  - intros Hp. rewrite (He Hp) in Hm. apply merge_nil_right in Hm as ->. done.
Qed.

Definition sample_job (n : Z) : PacketJob := {|
  connection_id := n; header := Build_FrameHeader 0 0 0; payload := []; received_at := 0 |}.

Lemma packet_queue_fifo_witness :
  let init := new_QueueSystem (new_PacketQueue 1 DropOldest) [Producer [sample_job 1]] in
  let s := init <| packet_queue ::= λ q, q <| queue := [sample_job 1] |> |>
                <| threads := [(Producer [], Notifying)] |>
                <| accepted := [sample_job 1] |> in
  let q := packet_queue s in
  (0 < 1 → Z.of_nat (length (queue q)) <= 1) ∧
  (∃ gone, merge (popped s) (evicted s) gone ∧ accepted s = gone ++ queue q) ∧
  accepted s ≡ₚ popped s ++ evicted s ++ queue q ∧
  (DropOldest ≠ DropOldest ∨ 1 <= 0 → accepted s = popped s ++ queue q).
Proof.
  apply (packet_queue_fifo 1 DropOldest [Producer [sample_job 1]]).
  apply rtc_once. left.
  exact (step_push (new_QueueSystem (new_PacketQueue 1 DropOldest) [Producer [sample_job 1]])
           0 (sample_job 1) [] true _ eq_refl eq_refl).
Defined.

(** The run that loses a wake-up: a producer that is done pushing, a second producer, and
    the consumer, over a blocking queue of capacity one. *)
Definition lost_wakeup_end (a b c : PacketJob) : QueueSystem := {|
  packet_queue := new_PacketQueue 1 Block <| queue := [b] |>;
  threads := [(Producer [], Running); (Producer [c], Waiting); (Consumer, Waiting)];
  accepted := [a; b]; popped := [a]; evicted := [] |}.

Lemma lost_wakeup_run a b c :
  rtc queue_step
    (new_QueueSystem (new_PacketQueue 1 Block) [Producer [a; b]; Producer [c]; Consumer])
    (lost_wakeup_end a b c).
Proof.
  eapply rtc_l; [eapply (step_push _ 0); reflexivity|]. cbn.
  eapply rtc_l; [eapply (step_notify_nobody _ 0); [reflexivity|repeat constructor; done]|]. cbn.
  eapply rtc_l; [eapply (step_push_wait _ 0); reflexivity|]. cbn.
  eapply rtc_l; [eapply (step_push_wait _ 1); reflexivity|]. cbn.
  eapply rtc_l; [eapply (step_pop _ 2); reflexivity|]. cbn.
  eapply rtc_l; [eapply (step_notify _ 2 _ 0); reflexivity|]. cbn.
  eapply rtc_l; [eapply (step_pop_wait _ 2); reflexivity|]. cbn.
  eapply rtc_l; [eapply (step_push _ 0); reflexivity|]. cbn.
  eapply rtc_l; [eapply (step_notify _ 0 _ 1); reflexivity|]. cbn.
  eapply rtc_l; [eapply (step_push_wait _ 1); reflexivity|]. cbn.
  apply rtc_refl.
Qed.

(** C27: producers and consumers share one condition variable and wake a single waiter, so
    under [Block] a wake-up can go to the wrong thread: from a queue of capacity one
    with two producers and a consumer, a state is reachable in which a job is queued,
    the consumer and a producer wait, and no thread can take a step: short of a spurious
    wake-up or a [stop], the job is never handled. *)
Theorem lost_wakeup_deadlock a b c :
  ∃ s, rtc queue_step
         (new_QueueSystem (new_PacketQueue 1 Block) [Producer [a; b]; Producer [c]; Consumer]) s ∧
    queue (packet_queue s) = [b] ∧
    threads s !! 2%nat = Some (Consumer, Waiting) ∧
    threads s !! 1%nat = Some (Producer [c], Waiting) ∧
    ∀ s', ¬ queue_step s s'.
Proof.
  exists (lost_wakeup_end a b c). split_and!; try done; [apply lost_wakeup_run|].
  intros s' Hs. inversion Hs as [i ? ? ? ? Hi|i ? ? Hi|i ? ? Hi|i Hi|i ? Hi|i ? ? ? Hi|i ? Hi];
    destruct i as [|[|[|i]]]; cbn in Hi; by simplify_eq.
Qed.

(** A queue that was stopped does not start again: a [pop] never waits, and what is pushed
    after the dispatcher thread has left stays in the queue. *)
Lemma stopped_queue_stays q :
  stopped q = true → pop q ≠ None ∧
  (queue q = [] → pop q = Some (None, q)) ∧
  (∀ job, capacity q = 0 → ∃ q', push job q = Some (true, q') ∧ stopped q' = true).
Proof.
  intros Hs. unfold pop, push. rewrite Hs. cbn. split_and!.
  - by destruct (queue q).
  - by intros ->.
  - intros job ->. by eexists.
Qed.
