(* ===== verification/Dispatch.v ===== *)
(** * The packet dispatcher (src/src/net/worker_pool.h, worker_pool.cpp: PacketDispatcher)

    A dispatcher is a [PacketQueue], a [WorkerPool] and the thread that moves jobs from one
    to the other. [thread_step] is a step of that thread, of a worker, or of the thread
    inside [stop()]; [dispatcher_step] adds what its owner and the threads that enqueue do.
    A waiting thread steps as soon as its predicate holds, which includes every schedule
    the notifications allow. *)

From Stdlib Require Import Wellfounded.
From stdpp Require Import relations list_tactics.
From S2P Require Import Prelude Codec WorkerPool.

(** The dispatcher thread in [dispatchLoop], a worker in [workerLoop], and where [start]
    and [stop] have brought the dispatcher: [running_] is set from [Working] to
    [JoiningWorkers]. *)
Inductive dispatcher_at := Popping | Submitting (job : PacketJob) | DispatcherExited.
Inductive worker_at := Idle | Executing (job : PacketJob) | WorkerExited.
Inductive phase := NotStarted | Working | JoiningDispatcher | JoiningWorkers | Stopped.

#[export] Instance worker_idle_dec w : Decision (w = Idle).
Proof. destruct w; [left|right|right]; done. Defined.

Record PacketDispatcher := {
  thread_count : nat;
  has_handler : bool;
  d_queue : PacketQueue;
  d_pool : WorkerPool;
  d_dispatcher : dispatcher_at;
  d_workers : list worker_at;    (* the pool's [threads_] *)
  d_phase : phase;
  enqueued : list PacketJob;     (* pushes that returned true *)
  late : list PacketJob;         (* those of them after the queue was stopped *)
  thrown_out : list PacketJob;   (* by DropOldest *)
  ignored : list PacketJob;      (* popped without a handler *)
  handled : list PacketJob       (* completed calls of the handler *)
}.

#[export] Instance PacketDispatcher_rebuild : Rebuild PacketDispatcher := λ d, {|
  thread_count := thread_count d; has_handler := has_handler d;
  d_queue := d_queue d; d_pool := d_pool d; d_dispatcher := d_dispatcher d;
  d_workers := d_workers d; d_phase := d_phase d; enqueued := enqueued d; late := late d;
  thrown_out := thrown_out d; ignored := ignored d; handled := handled d |}.

Definition new_PacketDispatcher (worker_threads : nat) (handler : bool) (q : PacketQueue)
    : PacketDispatcher := {|
  thread_count := worker_threads; has_handler := handler; d_queue := q;
  d_pool := {| jobs := []; stop_requested := false |};
  d_dispatcher := DispatcherExited; d_workers := []; d_phase := NotStarted;
  enqueued := []; late := []; thrown_out := []; ignored := []; handled := [] |}.

Definition running (d : PacketDispatcher) : bool :=
  match d_phase d with NotStarted | Stopped => false | _ => true end.

(** [PacketDispatcher::start], with the [WorkerPool::start] it calls. The stopped flag of
    the queue stays. *)
Definition start (d : PacketDispatcher) : PacketDispatcher :=
  if running d then d
  else d <| d_pool ::= pool_start |>
         <| d_workers := replicate (thread_count d) Idle |>
         <| d_dispatcher := Popping |> <| d_phase := Working |>.

Inductive thread_step (d : PacketDispatcher) : PacketDispatcher → Prop :=
  | dispatcher_pop job q :
    d_dispatcher d = Popping → pop (d_queue d) = Some (Some job, q) →
    thread_step d (d <| d_queue := q |> <| d_dispatcher := Submitting job |>)
  | dispatcher_submit job :
    d_dispatcher d = Submitting job → has_handler d = true →
    thread_step d (d <| d_pool ::= submit job |> <| d_dispatcher := Popping |>)
  | dispatcher_skip job :
    d_dispatcher d = Submitting job → has_handler d = false →
    thread_step d (d <| ignored ::= λ l, l ++ [job] |> <| d_dispatcher := Popping |>)
  | dispatcher_exit q :
    d_dispatcher d = Popping → pop (d_queue d) = Some (None, q) →
    thread_step d (d <| d_dispatcher := DispatcherExited |>)
  | worker_take i job p :
    d_workers d !! i = Some Idle → take_job (d_pool d) = Some (Some job, p) →
    thread_step d (d <| d_pool := p |> <| d_workers ::= <[i := Executing job]> |>)
  | worker_finish i job :
    d_workers d !! i = Some (Executing job) →
    thread_step d (d <| d_workers ::= <[i := Idle]> |> <| handled ::= λ l, l ++ [job] |>)
  | worker_exit i p :
    d_workers d !! i = Some Idle → take_job (d_pool d) = Some (None, p) →
    thread_step d (d <| d_workers ::= <[i := WorkerExited]> |>)
  | stop_joined_dispatcher :
    d_phase d = JoiningDispatcher → d_dispatcher d = DispatcherExited →
    thread_step d (d <| d_pool ::= request_stop |> <| d_phase := JoiningWorkers |>)
  | stop_joined_workers :
    d_phase d = JoiningWorkers → Forall (λ w, w = WorkerExited) (d_workers d) →
    thread_step d (d <| d_workers := [] |> <| d_phase := Stopped |>).

(** [PacketDispatcher::enqueue], when the push gives [result] and leaves the queue [q]. *)
Definition enqueue_job (job : PacketJob) (result : bool) (q : PacketQueue) (d : PacketDispatcher)
    : PacketDispatcher :=
  let kept := if result then [job] else [] in
  d <| d_queue := q |>
    <| enqueued ::= λ l, l ++ kept |>
    <| late ::= λ l, l ++ (if stopped (d_queue d) then kept else []) |>
    <| thrown_out ::= λ l, l ++ (if result then evicted_by_push (d_queue d) else []) |>.

Inductive dispatcher_step (d : PacketDispatcher) : PacketDispatcher → Prop :=
  | dispatcher_enqueue job result q :
    push job (d_queue d) = Some (result, q) →
    dispatcher_step d (enqueue_job job result q d)
  | dispatcher_start : dispatcher_step d (start d)
  | dispatcher_stop :
    d_phase d = Working →
    dispatcher_step d (d <| d_queue ::= stop |> <| d_phase := JoiningDispatcher |>)
  | dispatcher_thread d' : thread_step d d' → dispatcher_step d d'.

(** The jobs a worker or the dispatcher thread holds. *)
Definition executing (w : worker_at) : list PacketJob :=
  match w with Executing job => [job] | _ => [] end.

Definition submitting (a : dispatcher_at) : list PacketJob :=
  match a with Submitting job => [job] | _ => [] end.

Definition in_flight (d : PacketDispatcher) : list PacketJob :=
  (d_workers d ≫= executing) ++ jobs (d_pool d) ++ submitting (d_dispatcher d).

(** Where every job that was accepted is. *)
Definition all_jobs (d : PacketDispatcher) : list PacketJob :=
  handled d ++ in_flight d ++ queue (d_queue d) ++ thrown_out d ++ ignored d.

(** ** The invariant *)

Record dispatcher_inv (d : PacketDispatcher) : Prop := {
  inv_jobs : enqueued d ≡ₚ all_jobs d;
  inv_handler : has_handler d = true → ignored d = [];
  inv_stopping : d_phase d ∈ [JoiningDispatcher; JoiningWorkers; Stopped] →
    stopped (d_queue d) = true;
  inv_exited : d_dispatcher d = DispatcherExited → d_phase d ≠ NotStarted →
    stopped (d_queue d) = true ∧ ∀ job, job ∈ queue (d_queue d) → job ∈ late d;
  inv_joined : d_phase d ∈ [NotStarted; JoiningWorkers; Stopped] →
    d_dispatcher d = DispatcherExited;
  inv_stop_requested : stop_requested (d_pool d) = true →
    d_phase d ∈ [JoiningWorkers; Stopped];
  inv_asked : d_phase d = JoiningWorkers → stop_requested (d_pool d) = true;
  inv_worker_exited i : d_workers d !! i = Some WorkerExited →
    stop_requested (d_pool d) = true ∧ jobs (d_pool d) = [];
  inv_threads : if running d then length (d_workers d) = thread_count d
    else d_workers d = [] ∧ ((0 < thread_count d)%nat → jobs (d_pool d) = [])
}.

Lemma bind_insert {A B} (f : A → list B) l i x y :
  l !! i = Some x → (<[i := y]> l ≫= f) ++ f x ≡ₚ (l ≫= f) ++ f y.
Proof.
  intros Hi. rewrite insert_take_drop by (by eapply lookup_lt_Some).
  rewrite <- (take_drop_middle l i x Hi) at 3.
  rewrite !bind_app. cbn [mbind list_bind].
  generalize (mbind f (take i l)) (mbind f (drop (S i) l)). intros a b. solve_Permutation.
Qed.

Lemma new_PacketDispatcher_inv n handler cap policy :
  dispatcher_inv (new_PacketDispatcher n handler (new_PacketQueue cap policy)).
Proof. split; cbn; try done; set_solver. Qed.

Lemma enqueue_inv d job result q :
  push job (d_queue d) = Some (result, q) → dispatcher_inv d →
  dispatcher_inv (enqueue_job job result q d).
Proof.
  intros Hp [Hj Hh Hs He Hjd Hsr Hask Hw Hth]. unfold enqueue_job.
  set (kept := if result then [job] else []).
  assert (Hstop : stopped q = stopped (d_queue d)).
  { unfold push in Hp. repeat case_match; simplify_eq/=; done. }
  apply push_effect in Hp as (_ & _ & Hp).
  split; cbn; rewrite ?Hstop; try done.
  - unfold all_jobs, in_flight in *. cbn. rewrite Hj. subst kept. destruct result.
    + destruct Hp as (rest & -> & -> & _). solve_Permutation.
    + rewrite Hp, !app_nil_r. done.
  - intros Hx Hn. destruct (He Hx Hn) as [Hs' Hq]. split; [done|]. rewrite Hs'. intros j Hj'.
    destruct result; [|rewrite Hp in Hj'; rewrite app_nil_r; auto].
    destruct Hp as (rest & Hq0 & Hq1 & _). rewrite Hq1 in Hj'.
    apply elem_of_app in Hj' as [Hj'|Hj']; apply elem_of_app; [left|by right].
    apply Hq. rewrite Hq0. apply elem_of_app. by right.
Qed.

(** With the dispatcher in its loop, no worker has been asked to stop. *)
Lemma looping d :
  dispatcher_inv d → d_dispatcher d ≠ DispatcherExited →
  stop_requested (d_pool d) = false ∧ (d_phase d = Working ∨ d_phase d = JoiningDispatcher) ∧
  ∀ i, d_workers d !! i ≠ Some WorkerExited.
Proof.
  intros [_ _ _ _ Hjd Hsr _ Hw _] Hd.
  assert (Hp : d_phase d = Working ∨ d_phase d = JoiningDispatcher).
  { destruct (d_phase d); auto; exfalso; apply Hd, Hjd; set_solver. }
  assert (Hs : stop_requested (d_pool d) = false).
  { destruct (stop_requested (d_pool d)); [|done]. specialize (Hsr eq_refl).
    destruct Hp as [E|E]; rewrite E in Hsr; set_solver. }
  split_and!; [done..|]. intros i Hi. destruct (Hw i Hi). congruence.
Qed.

(** A step of the dispatcher thread. *)
Lemma dispatcher_moves_inv d d' :
  dispatcher_inv d → d_dispatcher d ≠ DispatcherExited →
  (d_dispatcher d' = DispatcherExited →
     stopped (d_queue d') = true ∧ queue (d_queue d') = []) →
  (has_handler d' = true → ignored d' = ignored d) →
  thread_count d' = thread_count d → has_handler d' = has_handler d →
  stopped (d_queue d') = stopped (d_queue d) → d_phase d' = d_phase d →
  stop_requested (d_pool d') = stop_requested (d_pool d) → d_workers d' = d_workers d →
  enqueued d' ≡ₚ all_jobs d' → dispatcher_inv d'.
Proof.
  intros Hinv Hd Hexit Hig Hn Hh Hs Hp Hsr Hw Hj.
  destruct (looping d Hinv Hd) as (Hsr0 & Hp0 & Hw0).
  destruct Hinv as [_ Hhandler Hstopping _ _ _ Hask _ Hth]. unfold running in *.
  split; unfold running; rewrite ?Hs, ?Hp, ?Hsr, ?Hw, ?Hn; try done.
  - intros Hx. rewrite Hig by done. apply Hhandler. congruence.
  - intros Hx _. destruct (Hexit Hx) as [? Eq]. split; [congruence|]. rewrite Eq. set_solver.
  - intros Hx. destruct Hp0 as [E|E]; rewrite E in Hx; set_solver.
  - congruence.
  - intros i Hi. by destruct (Hw0 i).
  - destruct Hp0 as [E|E]; by rewrite E in *.
Qed.

Lemma worker_insert_inv d i w w' pool' handled' :
  dispatcher_inv d → d_workers d !! i = Some w →
  (w' = WorkerExited → stop_requested (d_pool d) = true ∧ jobs (d_pool d) = []) →
  stop_requested pool' = stop_requested (d_pool d) →
  (jobs (d_pool d) = [] → jobs pool' = []) →
  handled' ++ (<[i := w']> (d_workers d) ≫= executing) ++ jobs pool' ≡ₚ
    handled d ++ (d_workers d ≫= executing) ++ jobs (d_pool d) →
  dispatcher_inv (d <| d_pool := pool' |> <| d_workers ::= <[i := w']> |>
                    <| handled := handled' |>).
Proof.
  intros [Hj Hh Hs He Hjd Hsr Hask Hw Hth] Hi Hw' Hp Hjobs Hperm.
  split; cbn; rewrite ?Hp; try done.
  - unfold all_jobs, in_flight in *. cbn in *. rewrite Hj, !app_assoc in *. by rewrite Hperm.
  - intros k Hk. destruct (decide (k = i)) as [->|].
    + rewrite list_lookup_insert_eq in Hk by (by eapply lookup_lt_Some). naive_solver.
    + rewrite list_lookup_insert_ne in Hk by done. destruct (Hw k Hk). auto.
  - unfold running in *. cbn in *. rewrite length_insert. destruct (d_phase d); try done.
    all: destruct Hth as [Hth _]; by rewrite Hth in Hi.
Qed.

Lemma flat_executing l : Forall (λ w, w = WorkerExited) l → l ≫= executing = [].
Proof. induction 1 as [|w l -> _ IH]; [done|]. by cbn. Qed.

Lemma thread_step_inv d d' : thread_step d d' → dispatcher_inv d → dispatcher_inv d'.
Proof.
  intros Hs Hinv. pose proof Hinv as [Hj Hh Hst He Hjd Hsr Hask Hw Hth].
  unfold all_jobs, in_flight in Hj. destruct Hs as [job q Hd Hp|job Hd Hh'|job Hd Hh'|q Hd Hp
    |i job p Hi Hp|i job Hi|i p Hi Hp|Hp Hd|Hp Hf].
  - pose proof (pop_effect _ _ _ Hp) as (Hq & _ & _ & Hqs).
    eapply dispatcher_moves_inv; [exact Hinv|..]; cbn; try done; [congruence|].
    unfold all_jobs, in_flight. rewrite Hd in Hj. cbn in *. rewrite Hj, Hq. solve_Permutation.
  - eapply dispatcher_moves_inv; [exact Hinv|..]; cbn; try done; [congruence|].
    unfold all_jobs, in_flight. rewrite Hd in Hj. cbn in *. rewrite Hj. solve_Permutation.
  - eapply dispatcher_moves_inv; [exact Hinv|..]; cbn; try done; try congruence.
    unfold all_jobs, in_flight. rewrite Hd in Hj. cbn in *. rewrite Hj. solve_Permutation.
  - apply pop_end_effect in Hp as (-> & Hq & Hs).
    eapply dispatcher_moves_inv; [exact Hinv|..]; cbn; try done; [congruence|].
    unfold all_jobs, in_flight. rewrite Hd in Hj. cbn in *. by rewrite Hj.
  - apply take_job_effect in Hp as [Hq Hs].
    apply (worker_insert_inv d i Idle (Executing job) p (handled d)); try done; [congruence|].
    pose proof (bind_insert executing _ _ _ (Executing job) Hi) as Hb. cbn in Hb.
    rewrite app_nil_r in Hb. rewrite Hb, Hq. solve_Permutation.
  - apply (worker_insert_inv d i (Executing job) Idle (d_pool d) (handled d ++ [job])); try done.
    pose proof (bind_insert executing _ _ _ Idle Hi) as Hb. cbn in Hb.
    rewrite app_nil_r in Hb. rewrite <- Hb. solve_Permutation.
  - apply take_job_exit in Hp as [Hs Hq].
    apply (worker_insert_inv d i Idle WorkerExited (d_pool d) (handled d)); try done.
    pose proof (bind_insert executing _ _ _ WorkerExited Hi) as Hb. cbn in Hb.
    rewrite !app_nil_r in Hb. by rewrite Hb.
  - rewrite Hp in *. split; cbn; try done; [intros _; apply Hst; set_solver|intros _ _; by apply He|set_solver| |].
    + intros i Hi. destruct (Hw i Hi) as [Hx _]. apply Hsr in Hx. set_solver.
    + unfold running in *. cbn. by rewrite Hp in Hth.
  - rewrite Hp in *. split; cbn; try done.
    + unfold all_jobs, in_flight. cbn. rewrite flat_executing in Hj by done. done.
    + intros _. apply Hst. set_solver.
    + intros Hd _. by apply He.
    + intros _. apply Hjd. set_solver.
    + set_solver.
    + unfold running in *. rewrite Hp in Hth. cbn. split; [done|]. intros Hn.
      destruct (d_workers d) as [|w l] eqn:El; [cbn in *; lia|].
      apply (Hw O). apply Forall_cons in Hf as [-> _]. done.
Qed.

Lemma start_inv d : dispatcher_inv d → dispatcher_inv (start d).
Proof.
  intros Hinv. unfold start. destruct (running d) eqn:Er; [done|].
  destruct Hinv as [Hj Hh Hst He Hjd Hsr Hask Hw Hth]. rewrite Er in Hth.
  destruct Hth as [Hwn Hjn].
  assert (Hd : d_dispatcher d = DispatcherExited).
  { apply Hjd. unfold running in Er. destruct (d_phase d); try done; set_solver. }
  split; cbn; try done.
  - unfold all_jobs, in_flight in *. cbn. rewrite Hwn, Hd in Hj. cbn in Hj. rewrite Hj.
    f_equiv. f_equiv. clear. induction (thread_count d) as [|n IH]; cbn; done.
  - set_solver.
  - set_solver.
  - intros i Hi%lookup_replicate. naive_solver.
  - apply length_replicate.
Qed.

Lemma dispatcher_step_inv d d' : dispatcher_step d d' → dispatcher_inv d → dispatcher_inv d'.
Proof.
  intros Hs Hinv. destruct Hs as [job result q Hp| |Hp|d' Ht].
  - by apply enqueue_inv.
  - by apply start_inv.
  - destruct Hinv as [Hj Hh Hst He Hjd Hsr Hask Hw Hth]. rewrite Hp in *.
    split; cbn; try done.
    + intros Hx _. by destruct (He Hx).
    + set_solver.
    + intros Hx. apply Hsr in Hx. set_solver.
    + unfold running in *. by rewrite Hp in Hth.
  - by eapply thread_step_inv.
Qed.

Lemma dispatcher_reachable_inv n handler cap policy d :
  rtc dispatcher_step (new_PacketDispatcher n handler (new_PacketQueue cap policy)) d →
  dispatcher_inv d.
Proof.
  intros Hr. pose proof (new_PacketDispatcher_inv n handler cap policy) as Hi. revert Hi.
  induction Hr as [|x y z Hxy _ IH]; [done|]. intros Hi. apply IH.
  by eapply dispatcher_step_inv.
Qed.

(** What no step changes. *)
Lemma dispatcher_config n handler cap policy d :
  rtc dispatcher_step (new_PacketDispatcher n handler (new_PacketQueue cap policy)) d →
  thread_count d = n ∧ has_handler d = handler ∧
  capacity (d_queue d) = cap ∧ overflow_policy (d_queue d) = policy.
Proof.
  intros Hr. remember (new_PacketDispatcher _ _ _) as d0 eqn:E.
  assert (H0 : thread_count d0 = n ∧ has_handler d0 = handler ∧
    capacity (d_queue d0) = cap ∧ overflow_policy (d_queue d0) = policy) by by subst.
  clear E. revert H0. induction Hr as [|x y z Hxy _ IH]; [done|]. intros H0. apply IH.
  destruct Hxy as [job result q Hp| |Hp|d' Ht]; [|unfold start; by destruct (running _)|done|].
  - apply push_effect in Hp as (? & ? & _). cbn. naive_solver congruence.
  - destruct Ht as [job q Hd Hp|job Hd Hh'|job Hd Hh'|q Hd Hp
    |i job p Hi Hp|i job Hi|i p Hi Hp|Hp Hd|Hp Hf]; try done.
    apply pop_effect in Hp as (_ & ? & ? & _). cbn. naive_solver congruence.
Qed.

(** A step completes no handler call, or that of a job in flight. *)
Lemma thread_step_handled d d' :
  thread_step d d' →
  handled d' = handled d ∨ ∃ job, handled d' = handled d ++ [job] ∧ job ∈ in_flight d.
Proof.
  intros Hs. destruct Hs as [| | | | |i job Hi| | |]; try by left.
  right. exists job. split; [done|]. unfold in_flight. apply elem_of_app. left.
  apply list_elem_of_bind. exists (Executing job). split; [by apply list_elem_of_singleton|].
  by eapply list_elem_of_lookup_2.
Qed.

(** ** Order

    With one worker, no step reorders: the jobs stand in a line from the handled ones to
    the queued ones. *)

Definition in_line (d : PacketDispatcher) : Prop :=
  enqueued d = handled d ++ in_flight d ++ queue (d_queue d).

Lemma push_unbounded job q :
  capacity q = 0 → push job q = Some (true, q <| queue ::= λ l, l ++ [job] |>).
Proof. intros Hc. unfold push. by rewrite Hc. Qed.

Lemma enqueue_in_line job d result q :
  push job (d_queue d) = Some (result, q) → capacity (d_queue d) = 0 →
  in_line d → in_line (enqueue_job job result q d) ∧ result = true.
Proof.
  intros Hp Hc Hl. rewrite push_unbounded in Hp by done. injection Hp as <- <-.
  split; [|done]. unfold in_line, in_flight in *. cbn. by rewrite Hl, !app_assoc.
Qed.

Lemma start_in_line d : dispatcher_inv d → in_line d → in_line (start d).
Proof.
  intros Hinv Hl. unfold start. destruct (running d) eqn:Er; [done|].
  pose proof (inv_threads d Hinv) as Hth. rewrite Er in Hth. destruct Hth as [Hw _].
  assert (Hd : d_dispatcher d = DispatcherExited).
  { apply (inv_joined d Hinv). unfold running in Er. destruct (d_phase d); try done; set_solver. }
  unfold in_line, in_flight in *. cbn. rewrite Hl, Hw, Hd. cbn. f_equal.
  by induction (thread_count d).
Qed.

(** The single worker. *)
Lemma only_worker d i w :
  dispatcher_inv d → thread_count d = 1%nat → d_workers d !! i = Some w →
  d_workers d = [w] ∧ i = O.
Proof.
  intros Hinv Hn Hi. pose proof (inv_threads d Hinv) as Hth.
  destruct (running d); [|destruct Hth as [Hth _]; by rewrite Hth in Hi].
  rewrite Hn in Hth. destruct (d_workers d) as [|w' [|]]; try done.
  destruct i; [by injection Hi as ->|done].
Qed.

Lemma thread_in_line d d' :
  thread_step d d' → dispatcher_inv d → thread_count d = 1%nat → has_handler d = true →
  in_line d → in_line d'.
Proof.
  intros Hs Hinv Hn Hh Hl. unfold in_line, in_flight in *.
  destruct Hs as [job q Hd Hp|job Hd Hh'|job Hd Hh'|q Hd Hp|i job p Hi Hp|i job Hi|i p Hi Hp
    |Hp Hd|Hp Hf]; try congruence.
  - apply pop_effect in Hp as (Hq & _). rewrite Hd, Hq in Hl. cbn.
    rewrite Hl, app_nil_r. by rewrite <- !app_assoc.
  - rewrite Hd in Hl. cbn in *. by rewrite Hl, app_nil_r.
  - rewrite Hd in Hl. done.
  - apply take_job_effect in Hp as [Hq _].
    destruct (only_worker d i Idle Hinv Hn Hi) as [Ew ->]. rewrite Ew, Hq in Hl.
    cbn. rewrite Ew. exact Hl.
  - destruct (only_worker d i _ Hinv Hn Hi) as [Ew ->]. rewrite Ew in Hl. cbn. rewrite Ew.
    cbn in *. by rewrite <- app_assoc.
  - destruct (only_worker d i _ Hinv Hn Hi) as [Ew ->]. rewrite Ew in Hl. cbn. by rewrite Ew.
  - exact Hl.
  - rewrite flat_executing in Hl by done. exact Hl.
Qed.

(** ** Termination *)

(** What is left to do: the steps a job still needs, and those of each thread. *)
Definition worker_work (w : worker_at) : nat :=
  match w with Executing _ => 2 | Idle => 1 | WorkerExited => 0 end.

Definition work (d : PacketDispatcher) : nat :=
  4 * length (queue (d_queue d)) + 2 * length (jobs (d_pool d)) +
  match d_dispatcher d with Popping => 1 | Submitting _ => 4 | DispatcherExited => 0 end +
  sum_list_with worker_work (d_workers d) +
  match d_phase d with JoiningDispatcher => 2 | JoiningWorkers => 1 | _ => 0 end.

Lemma sum_insert {A} (f : A → nat) l i x y :
  l !! i = Some x → (sum_list_with f (<[i := y]> l) + f x = sum_list_with f l + f y)%nat.
Proof.
  intros Hi. rewrite insert_take_drop by (by eapply lookup_lt_Some).
  rewrite <- (take_drop_middle l i x Hi) at 3. rewrite !sum_list_with_app. cbn. lia.
Qed.

Lemma sum_exited l : Forall (λ w, w = WorkerExited) l → sum_list_with worker_work l = 0%nat.
Proof. by induction 1 as [|w l -> _ IH]. Qed.

Lemma thread_step_work d d' : thread_step d d' → (work d' < work d)%nat.
Proof.
  intros Hs. unfold work. destruct Hs as [job q Hd Hp|job Hd Hh'|job Hd Hh'|q Hd Hp
    |i job p Hi Hp|i job Hi|i p Hi Hp|Hp Hd|Hp Hf]; cbn.
  - apply pop_effect in Hp as (-> & _). rewrite Hd. cbn. lia.
  - rewrite Hd, length_app. cbn. lia.
  - rewrite Hd. lia.
  - rewrite Hd. lia.
  - apply take_job_effect in Hp as [-> _]. cbn.
    pose proof (sum_insert worker_work _ _ _ (Executing job) Hi) as E. cbn in E. lia.
  - pose proof (sum_insert worker_work _ _ _ Idle Hi) as E. cbn in E. lia.
  - pose proof (sum_insert worker_work _ _ _ WorkerExited Hi) as E. cbn in E. lia.
  - rewrite Hp. lia.
  - rewrite Hp, sum_exited by done. lia.
Qed.

Lemma thread_steps_work k d d' : nsteps thread_step k d d' → (k + work d' <= work d)%nat.
Proof.
  induction 1 as [|k x y z Hxy _ IH]; [lia|]. apply thread_step_work in Hxy. lia.
Qed.

(** No infinite run of the threads. *)
Lemma thread_step_wf : well_founded (flip thread_step).
Proof.
  apply (wf_incl _ _ (λ d' d, (work d' < work d)%nat)); [|apply (wf_inverse_image _ _ _ work), lt_wf].
  intros d' d. apply thread_step_work.
Qed.

(** ** Progress *)

(** Nothing in flight, and [start] or [stop] awaited, or [stop] has returned. *)
Definition at_rest (d : PacketDispatcher) : Prop :=
  in_flight d = [] ∧
  match d_phase d with
  | NotStarted | Stopped => True
  | Working => queue (d_queue d) = [] ∨ stopped (d_queue d) = true ∧ d_dispatcher d = DispatcherExited
  | _ => False
  end.

(** Workers that can take no step: all have left, or all that have not wait for a job. *)
Lemma workers_progress d :
  (∃ d', thread_step d d') ∨
  (d_workers d ≫= executing = [] ∧
   (Forall (λ w, w = WorkerExited) (d_workers d) ∨
    jobs (d_pool d) = [] ∧ stop_requested (d_pool d) = false)).
Proof.
  destruct (decide (Exists (λ w, executing w ≠ []) (d_workers d))) as [Hx|Hx].
  { apply Exists_exists in Hx as (w & [i Hi]%list_elem_of_lookup & Hw). destruct w; try done.
    left. eexists. by eapply worker_finish. }
  apply not_Exists_Forall in Hx; [|apply _].
  assert (Hbind : d_workers d ≫= executing = []).
  { induction Hx as [|w l Hw _ IH]; [done|]. rewrite bind_cons, IH.
    destruct w; [done|by destruct Hw|done]. }
  destruct (decide (Exists (λ w, w = Idle) (d_workers d))) as [Hi|Hi].
  - apply Exists_exists in Hi as (w & [i Hi]%list_elem_of_lookup & ->).
    destruct (take_job (d_pool d)) as [[[job|] p]|] eqn:E.
    + left. eexists. by eapply worker_take.
    + left. eexists. by eapply worker_exit.
    + right. split; [done|]. right. unfold take_job in E.
      destruct (jobs (d_pool d)), (stop_requested (d_pool d)); try done.
  - right. split; [done|]. left. apply not_Exists_Forall in Hi; [|apply _].
    apply Forall_forall. intros w Hw. rewrite Forall_forall in Hx, Hi.
    specialize (Hx w Hw). specialize (Hi w Hw). destruct w; [by destruct Hi|by destruct Hx|done].
Qed.

Lemma progress d :
  dispatcher_inv d → (0 < thread_count d)%nat → (∃ d', thread_step d d') ∨ at_rest d.
Proof.
  intros Hinv Hn. destruct (workers_progress d) as [?|[Hex Hw]]; [by left|].
  destruct (d_dispatcher d) as [|job|] eqn:Ed.
  - destruct (pop (d_queue d)) as [[[job|] q]|] eqn:Eq.
    { left. eexists. by eapply dispatcher_pop. } { left. eexists. by eapply dispatcher_exit. }
    destruct (looping d Hinv) as (Hsr & Hp & Hne); [by rewrite Ed|].
    assert (Hq : queue (d_queue d) = [] ∧ stopped (d_queue d) = false).
    { unfold pop in Eq. destruct (queue (d_queue d)), (stopped (d_queue d)); done. }
    assert (Hphase : d_phase d = Working).
    { destruct Hp as [?|Hp]; [done|]. pose proof (inv_stopping d Hinv) as X.
      rewrite Hp in X. destruct Hq. rewrite X in *; [done|set_solver]. }
    right. pose proof (inv_threads d Hinv) as Hth. unfold running in Hth.
    rewrite Hphase in Hth. unfold at_rest, in_flight. rewrite Hphase, Ed, Hex.
    destruct Hq as [Hq _]. split; [|by left]. destruct Hw as [Hw|[-> _]]; [|done].
    destruct (d_workers d) as [|w l] eqn:El; [cbn in *; lia|].
    exfalso. apply (Hne O). apply Forall_cons in Hw as [-> _]. done.
  - left. destruct (has_handler d) eqn:Eh; eexists;
      [by eapply dispatcher_submit|by eapply dispatcher_skip].
  - destruct (d_phase d) eqn:Ep; cycle 2.
    + left. eexists. by eapply stop_joined_dispatcher.
    + destruct Hw as [Hw|[_ Hw]]; [left; eexists; by eapply stop_joined_workers|].
      by rewrite (inv_asked d Hinv Ep) in Hw.
    + right. pose proof (inv_threads d Hinv) as Hth. unfold running in Hth. rewrite Ep in Hth.
      unfold at_rest, in_flight. rewrite Ep, Ed, Hex. destruct Hth as [_ ->]; done.
    + right. pose proof (inv_threads d Hinv) as Hth. unfold running in Hth. rewrite Ep in Hth.
      unfold at_rest, in_flight. rewrite Ep, Ed, Hex. destruct Hth as [_ ->]; done.
    + pose proof (inv_threads d Hinv) as Hth. unfold running in Hth. rewrite Ep in Hth.
      destruct (inv_exited d Hinv Ed) as [Hs _]; [by rewrite Ep|].
      right. unfold at_rest, in_flight. rewrite Ep, Ed, Hex. split; [|by right].
      destruct Hw as [Hw|[-> _]]; [|done].
      destruct (d_workers d) as [|w l] eqn:El; [cbn in *; lia|].
      destruct (inv_worker_exited d Hinv O) as [_ ->]; [|done].
      rewrite El. apply Forall_cons in Hw as [-> _]. done.
Qed.

(** What the threads leave to others: only [stop] itself moves the phase, and once called
    it goes through its joins. *)
Lemma thread_step_keeps d d' :
  thread_step d d' →
  enqueued d' = enqueued d ∧ stopped (d_queue d') = stopped (d_queue d) ∧
  (d_phase d = Working → d_phase d' = Working) ∧
  (d_phase d ∈ [JoiningDispatcher; JoiningWorkers; Stopped] →
   d_phase d' ∈ [JoiningDispatcher; JoiningWorkers; Stopped]).
Proof.
  intros Hs. destruct Hs as [job q Hd Hp|job Hd Hh'|job Hd Hh'|q Hd Hp
    |i job p Hi Hp|i job Hi|i p Hi Hp|Hp Hd|Hp Hf]; cbn; try done.
  - by apply pop_effect in Hp as (_ & _ & _ & ->).
  - rewrite Hp. split_and!; [done..|]. set_solver.
  - rewrite Hp. split_and!; [done..|]. set_solver.
Qed.

Lemma thread_steps_keep d d' :
  rtc thread_step d d' →
  enqueued d' = enqueued d ∧ stopped (d_queue d') = stopped (d_queue d) ∧
  (d_phase d = Working → d_phase d' = Working) ∧
  (d_phase d ∈ [JoiningDispatcher; JoiningWorkers; Stopped] →
   d_phase d' ∈ [JoiningDispatcher; JoiningWorkers; Stopped]).
Proof.
  induction 1 as [|x y z Hxy _ IH]; [done|]. apply thread_step_keeps in Hxy.
  destruct Hxy as (<- & <- & ? & ?), IH as (? & ? & ? & ?). split_and!; auto; congruence.
Qed.

(** ** Properties *)

(** C24: stopping a dispatcher that has workers drains it, also after it was started
    again: at every moment the accepted jobs are exactly the handled, the executing, the
    submitted, the queued and the thrown out ones (and the ignored ones, if it has no
    handler); and when [stop] has returned, what is still queued came after the queue was
    stopped, so every job enqueued before was handled exactly once. *)
Theorem dispatcher_stop_drains workers handler cap policy d :
  (0 < workers)%nat →
  rtc dispatcher_step (new_PacketDispatcher workers handler (new_PacketQueue cap policy)) d →
  enqueued d ≡ₚ all_jobs d ∧ (handler = true → ignored d = []) ∧
  (d_phase d = Stopped →
     in_flight d = [] ∧ (∀ job, job ∈ queue (d_queue d) → job ∈ late d) ∧
     (handler = true → late d = [] → enqueued d ≡ₚ handled d ++ thrown_out d)).
Proof.
  intros Hn Hr. pose proof (dispatcher_reachable_inv _ _ _ _ _ Hr) as [Hj Hh _ He Hjd _ _ _ Hth].
  pose proof (dispatcher_config _ _ _ _ _ Hr) as (<- & <- & _).
  split; [done|]. split; [done|]. intros Hstop. unfold running in Hth. rewrite Hstop in *.
  destruct Hth as [Hw Hjobs].
  assert (Hd : d_dispatcher d = DispatcherExited) by (apply Hjd; set_solver).
  assert (Hf : in_flight d = []) by (unfold in_flight; rewrite Hw, Hd, Hjobs; done).
  destruct (He Hd) as [_ Hlate]; [done|]. split_and!; [done|done|]. intros Ht Hl.
  assert (Hq : queue (d_queue d) = []).
  { apply elem_of_nil_inv. intros job Hjob%Hlate. rewrite Hl in Hjob. set_solver. }
  rewrite Hj. unfold all_jobs. by rewrite Hf, Hq, (Hh Ht), !app_nil_r.
Qed.

Definition sample_dispatcher : PacketDispatcher :=
  new_PacketDispatcher 1 true (new_PacketQueue 0 DropNewest).

Definition stopping_dispatcher : PacketDispatcher :=
  start sample_dispatcher <| d_queue ::= stop |> <| d_phase := JoiningDispatcher |>.

Lemma stopping_reachable : rtc dispatcher_step sample_dispatcher stopping_dispatcher.
Proof.
  eapply rtc_l; [apply dispatcher_start|].
  apply rtc_once. exact (dispatcher_stop (start sample_dispatcher) eq_refl).
Qed.

Lemma dispatcher_stop_drains_witness :
  let d := stopping_dispatcher in
  enqueued d ≡ₚ all_jobs d ∧ (true = true → ignored d = []) ∧
  (d_phase d = Stopped →
     in_flight d = [] ∧ (∀ job, job ∈ queue (d_queue d) → job ∈ late d) ∧
     (true = true → late d = [] → enqueued d ≡ₚ handled d ++ thrown_out d)).
Proof.
  apply (dispatcher_stop_drains 1 true 0 DropNewest); [lia|]. apply stopping_reachable.
Defined.

(** C25: as long as the handler calls return and nobody enqueues, the threads of a
    dispatcher come to an end: a run has at most [work] steps, and while it can go on it
    is not over. When none of them can take a step, no job is in flight; [stop], if it was
    called, has returned; and a running dispatcher whose queue was never stopped has
    handled (or ignored, or thrown out) every job - under a policy that makes producers
    wait, [Block], this last part is left to the notifications. *)
Theorem dispatcher_terminates workers handler cap policy d :
  (0 < workers)%nat →
  rtc dispatcher_step (new_PacketDispatcher workers handler (new_PacketQueue cap policy)) d →
  (∀ k d', nsteps thread_step k d d' → (k <= work d)%nat) ∧
  (∀ d', rtc thread_step d d' →
     (∃ d'', thread_step d' d'') ∨
     in_flight d' = [] ∧
     (d_phase d ∈ [JoiningDispatcher; JoiningWorkers] → d_phase d' = Stopped) ∧
     (d_phase d = Working → stopped (d_queue d) = false → policy ≠ Block ∨ cap <= 0 →
        enqueued d ≡ₚ handled d' ++ thrown_out d' ++ ignored d')).
Proof.
  intros Hn Hr. split; [intros k d' ?%thread_steps_work; lia|]. intros d' Hr'.
  pose proof (thread_steps_keep _ _ Hr') as (Hen & Hs & Hwork & Hstop).
  assert (Hr2 : rtc dispatcher_step (new_PacketDispatcher workers handler
    (new_PacketQueue cap policy)) d').
  { transitivity d; [done|]. clear -Hr'. induction Hr' as [|x y z ? _ ?]; [done|].
    eapply rtc_l; [by apply dispatcher_thread|done]. }
  pose proof (dispatcher_reachable_inv _ _ _ _ _ Hr2) as Hinv.
  pose proof (dispatcher_config _ _ _ _ _ Hr2) as (Hc & _).
  destruct (progress d' Hinv) as [?|[Hf Hrest]]; [lia|by left|right].
  split_and!; [done| |].
  - intros Hp. assert (Hp' : d_phase d' ∈ [JoiningDispatcher; JoiningWorkers; Stopped]).
    { apply Hstop. set_solver. }
    destruct (d_phase d'); try done; set_solver.
  - intros Hp Hns _. rewrite Hwork in Hrest by done.
    destruct Hrest as [Hq|[Hq _]]; [|congruence].
    rewrite <- Hen, (inv_jobs d' Hinv). unfold all_jobs. by rewrite Hf, Hq.
Qed.

Lemma dispatcher_terminates_witness :
  let d := stopping_dispatcher in
  (∀ k d', nsteps thread_step k d d' → (k <= 4)%nat) ∧
  (∀ d', rtc thread_step d d' →
     (∃ d'', thread_step d' d'') ∨
     in_flight d' = [] ∧
     (d_phase d ∈ [JoiningDispatcher; JoiningWorkers] → d_phase d' = Stopped) ∧
     (d_phase d = Working → stopped (d_queue d) = false → DropNewest ≠ Block ∨ 0 <= 0 →
        enqueued d ≡ₚ handled d' ++ thrown_out d' ++ ignored d')).
Proof.
  apply (dispatcher_terminates 1 true 0 DropNewest); [lia|]. apply stopping_reachable.
Defined.

(** With two workers the order is lost: jobs that follow each other - packets of the same
    connection, say - can be handled in the opposite order. *)
Theorem workers_reorder a b :
  ∃ d, rtc dispatcher_step (new_PacketDispatcher 2 true (new_PacketQueue 0 DropNewest)) d ∧
       enqueued d = [a; b] ∧ handled d = [b; a].
Proof.
  eexists. split; [|split].
  - eapply rtc_l; [apply dispatcher_start|].
    eapply rtc_l; [by apply (dispatcher_enqueue _ a)|].
    eapply rtc_l; [by apply (dispatcher_enqueue _ b)|].
    eapply rtc_l; [by apply dispatcher_thread, (dispatcher_pop _ a)|].
    eapply rtc_l; [by apply dispatcher_thread, (dispatcher_submit _ a)|].
    eapply rtc_l; [by apply dispatcher_thread, (dispatcher_pop _ b)|].
    eapply rtc_l; [by apply dispatcher_thread, (dispatcher_submit _ b)|].
    eapply rtc_l; [by apply dispatcher_thread, (worker_take _ 0 a)|].
    eapply rtc_l; [by apply dispatcher_thread, (worker_take _ 1 b)|].
    eapply rtc_l; [by apply dispatcher_thread, (worker_finish _ 1 b)|].
    eapply rtc_l; [by apply dispatcher_thread, (worker_finish _ 0 a)|].
    apply rtc_refl.
  - done.
  - done.
Qed.
