(* ===== verification/Server.v ===== *)
(** * The server: state, registry, lifecycle (src/src/net/server.h, server.cpp)

    [Server] is the state of the [Server] class. Its sessions are shared objects: [heap]
    holds every [Session] object under its address, [sessions] is the map [sessions_]
    from session ids to addresses; a [Session &] or a [shared_ptr] is an address, so a
    session that left [sessions_] can still be used by whoever holds it. A fresh object's
    address is its id.

    Operations are written in a small monad over this state that collects the log entries
    ([M]). What an operation reads from the outside - random draws, clock readings - is in
    [Env]. The packet handlers are in the file Handlers. *)

From S2P Require Import Prelude Wire Protocol Codec Logging Session.
From S2P Require Auth Party Guild Chat Match Dungeon Reward Inventory.
From S2P Require Import Inventory.

Record Metrics := { packets_total : Z; bytes_total : Z; error_total : Z }.

#[export] Instance Metrics_rebuild : Rebuild Metrics := λ m, {|
  packets_total := packets_total m; bytes_total := bytes_total m;
  error_total := error_total m |}.

Record SecurityPolicy := {
  require_tls : bool;
  require_hmac : bool;
  enable_replay_protection : bool;
  hmac_key : string
}.

Definition default_SecurityPolicy : SecurityPolicy := {|
  require_tls := false; require_hmac := false; enable_replay_protection := false;
  hmac_key := "dev-secret" |}.

(** ** SessionRegistry *)

Record SessionRegistry := {
  records : gmap Z UserContext;
  active_users : gmap string Z
}.

#[export] Instance SessionRegistry_rebuild : Rebuild SessionRegistry := λ r, {|
  records := records r; active_users := active_users r |}.

Definition registerSession (session : Z) (record : UserContext) (r : SessionRegistry)
    : bool * SessionRegistry :=
  let user := UserContext_user_id record in
  match active_users r !! user with
  | Some existing =>
    if negb (existing =? session) then (false, r)
    else
      let r := match records r !! session with
               | Some previous => r <| active_users ::= delete (UserContext_user_id previous) |>
               | None => r
               end in
      (true, r <| active_users ::= <[user := session]> |> <| records ::= <[session := record]> |>)
  | None =>
    let r := match records r !! session with
             | Some previous => r <| active_users ::= delete (UserContext_user_id previous) |>
             | None => r
             end in
    (true, r <| active_users ::= <[user := session]> |> <| records ::= <[session := record]> |>)
  end.

Definition registry_removeSession (session : Z) (r : SessionRegistry) : SessionRegistry :=
  match records r !! session with
  | Some record =>
    r <| active_users ::= delete (UserContext_user_id record) |> <| records ::= delete session |>
  | None => r
  end.

Definition registry_find (session : Z) (r : SessionRegistry) : option UserContext :=
  records r !! session.

(** The session id written to the out parameter when the user is active. *)
Definition hasUser (user : string) (r : SessionRegistry) : option Z := active_users r !! user.

(** ** The server's state *)

Record Server (S : Type) := {
  heap : gmap Z Session;
  next_id : Z;
  sessions : gmap Z Z;
  registry : SessionRegistry;
  token_service : Auth.TokenService;
  party_service : Party.PartyService;
  guild_service : Guild.GuildService;
  chat_service : Chat.ChatService;
  match_queue : Match.MatchQueue;
  instance_manager : Dungeon.InstanceManager;
  inventory_storage : S;
  party_instances : gmap Z Z;
  instance_tickets : gmap Z string;
  instance_seeds : gmap Z Z;
  instance_reward_grants : gmap Z Z;
  session_instances : gmap Z Z;
  session_characters : gmap Z Z;
  next_reward_grant_id : Z;
  metrics : Metrics;
  started_at : Z;
  security_policy : SecurityPolicy
}.
Arguments heap {S}.
Arguments next_id {S}.
Arguments sessions {S}.
Arguments registry {S}.
Arguments token_service {S}.
Arguments party_service {S}.
Arguments guild_service {S}.
Arguments chat_service {S}.
Arguments match_queue {S}.
Arguments instance_manager {S}.
Arguments inventory_storage {S}.
Arguments party_instances {S}.
Arguments instance_tickets {S}.
Arguments instance_seeds {S}.
Arguments instance_reward_grants {S}.
Arguments session_instances {S}.
Arguments session_characters {S}.
Arguments next_reward_grant_id {S}.
Arguments metrics {S}.
Arguments started_at {S}.
Arguments security_policy {S}.

#[export] Instance Server_rebuild {S} : Rebuild (Server S) := λ s, {|
  heap := heap s; next_id := next_id s; sessions := sessions s; registry := registry s;
  token_service := token_service s; party_service := party_service s;
  guild_service := guild_service s; chat_service := chat_service s;
  match_queue := match_queue s; instance_manager := instance_manager s;
  inventory_storage := inventory_storage s; party_instances := party_instances s;
  instance_tickets := instance_tickets s; instance_seeds := instance_seeds s;
  instance_reward_grants := instance_reward_grants s;
  session_instances := session_instances s; session_characters := session_characters s;
  next_reward_grant_id := next_reward_grant_id s; metrics := metrics s;
  started_at := started_at s; security_policy := security_policy s |}.

(** The constructor, with the event sinks of guilds and chat installed and the one of
    parties not. *)
Definition new_Server {S} (storage : S) (policy : SecurityPolicy) (now : Z)
    : Server S * list LogEntry :=
  ({| heap := ∅; next_id := 1; sessions := ∅;
      registry := {| records := ∅; active_users := ∅ |};
      token_service := Auth.new_TokenService 300;
      party_service := Party.new_PartyService;
      guild_service := Guild.setEventSink true Guild.new_GuildService;
      chat_service := Chat.setEventSink true Chat.new_ChatService;
      match_queue := Match.new_MatchQueue Match.default_MatchRule;
      instance_manager := Dungeon.new_InstanceManager;
      inventory_storage := storage;
      party_instances := ∅; instance_tickets := ∅; instance_seeds := ∅;
      instance_reward_grants := ∅; session_instances := ∅; session_characters := ∅;
      next_reward_grant_id := 1;
      metrics := {| packets_total := 0; bytes_total := 0; error_total := 0 |};
      started_at := now; security_policy := policy |},
   [{| log_level := "info"; log_event := "server_started"; log_message := "Server started";
       log_fields := no_fields |}]).

(** The storage of a server that is given none. *)
Definition default_storage
    : CachedInventoryStorage MySqlInventoryStorage InMemoryInventoryStorage :=
  new_CachedInventoryStorage new_MySqlInventoryStorage new_InMemoryInventoryStorage.

(** ** Operations over the state *)

(** What one packet reads from the outside: the draws of its request trace id, of a token,
    of a ticket and a seed (by instance), the steady clock when a frame is queued for a
    session, and the system clock when an inventory change is recorded. *)
Record Env := {
  trace_draws : list Z;
  token_draws : list Z;
  ticket_draws : Z → list Z;
  seed_draw : Z → Z;
  send_time : Z → Z;
  item_clock : nat → list Z
}.

Definition M (S A : Type) : Type := Server S → A * Server S * list LogEntry.

Definition ret {S A} (a : A) : M S A := λ s, (a, s, []).

Definition bind {S A B} (m : M S A) (k : A → M S B) : M S B := λ s,
  let '(a, s, logs) := m s in
  let '(b, s, more) := k a s in
  (b, s, logs ++ more).

Declare Scope server_scope.
Delimit Scope server_scope with server.
Notation "x <- m ;; k" := (bind m (λ x, k))
  (at level 100, m at next level, right associativity) : server_scope.
Notation "m ;; k" := (bind m (λ _, k)) (at level 100, right associativity) : server_scope.
#[global] Open Scope server_scope.

Section operations.
Context {S : Type} `{HashOrder, InventoryStorage S}.
Implicit Types (s : Server S).

Definition get {A} (f : Server S → A) : M S A := λ s, (f s, s, []).
Definition modify (f : Server S → Server S) : M S unit := λ s, (tt, f s, []).
Definition log (entry : LogEntry) : M S unit := λ s, (tt, s, [entry]).

(** A method call on the session at an address, with what it logs. *)
Definition on_session {A} (address : Z) (default : A)
    (method : Session → A * Session * list LogEntry) : M S A := λ s,
  match heap s !! address with
  | None => (default, s, [])
  | Some session =>
    let '(a, session, logs) := method session in
    (a, s <| heap ::= <[address := session]> |>, logs)
  end.

(** A method that returns nothing and logs nothing. *)
Definition set_session (address : Z) (f : Session → Session) : M S unit :=
  on_session address tt (λ session, (tt, f session, [])).

Definition count_error : M S unit :=
  modify (λ s, s <| metrics ::= λ m, m <| error_total ::= λ e, u64 (e + 1) |> |>).

Definition log_event (level event message : string) (fields : LogFields) : M S unit :=
  log {| log_level := level; log_event := event; log_message := message; log_fields := fields |}.

Definition findSession (session : Z) s : option Z := sessions s !! session.

(** [send address payload] queues a frame for a session. *)
Definition send (env : Env) (address : Z) (payload : list byte) : M S bool :=
  on_session address false (enqueueSend payload (send_time env address)).

(** *** The event sinks of the constructor *)

Definition guild_event_type (t : Guild.GuildEventType) : GuildEventType :=
  match t with
  | Guild.Created => GuildEventType_Created
  | Guild.Joined => GuildEventType_Joined
  | Guild.Left => GuildEventType_Left
  | Guild.Disbanded => GuildEventType_Disbanded
  end.

Definition guild_sink (env : Env) (call : Z * Guild.GuildEvent) : M S unit :=
  let '(session, event) := call in
  found <- get (findSession session);;
  match found with
  | None => ret tt
  | Some address =>
    version <- get (λ s, from_option protocolVersion 0 (heap s !! address));;
    let payload := {|
      GuildEvent_type := guild_event_type (Guild.event_type event);
      GuildEvent_guild_id := Guild.event_guild_id event;
      GuildEvent_actor_user_id := Guild.actor_user_id event;
      GuildEvent_member_user_ids := Guild.member_user_ids event;
      GuildEvent_message := Guild.event_message event |} in
    _ <- send env address (encode_frame (PacketType_to_u16 PT_GuildEvent) version
                             (encodeGuildEvent payload));;
    ret tt
  end.

Definition chat_sink (env : Env) (call : Z * Chat.ChatMessage) : M S unit :=
  let '(session, message) := call in
  found <- get (findSession session);;
  match found with
  | None => ret tt
  | Some address =>
    version <- get (λ s, from_option protocolVersion 0 (heap s !! address));;
    let payload := {|
      ChatEvent_channel := match Chat.channel message with
                           | Chat.Party => ChatChannel_Party
                           | Chat.Global => ChatChannel_Global
                           end;
      ChatEvent_party_id := Chat.message_party_id message;
      ChatEvent_sender_user_id := Chat.sender_user_id message;
      ChatEvent_message := Chat.text message |} in
    _ <- send env address (encode_frame (PacketType_to_u16 PT_ChatEvent) version
                             (encodeChatEvent payload));;
    ret tt
  end.

(** The calls of a sink, one after the other. *)
Fixpoint each {A} (f : A → M S unit) (calls : list A) : M S unit :=
  match calls with
  | [] => ret tt
  | call :: rest => f call;; each f rest
  end.

(** *** Sessions *)

(** [trace] is the trace id the session's constructor generates. *)
Definition createSession (config : SessionConfig) (now : Z) (trace : string) : M S Z :=
  session <- get next_id;;
  modify (λ s, s <| next_id ::= λ n, u64 (n + 1) |>);;
  modify (λ s, s <| heap ::= <[session := new_Session session config now trace]> |>
                 <| sessions ::= emplace session session |>);;
  log_event "info" "session_created" "Session created"
    (no_fields <| session_id := Some session |> <| session_trace_id := Some trace |>);;
  ret session.

Definition removeSession (env : Env) (session : Z) : M S unit :=
  found <- get (findSession session);;
  match found with
  | None => ret tt
  | Some address =>
    object <- get (λ s, heap s !! address);;
    match object with
    | None => ret tt
    | Some object =>
      log_event "info" "session_removed" "Session removed"
        (no_fields <| session_id := Some (id object) |>
                   <| session_trace_id := Some (session_trace object) |>)
    end;;
    set_session address clearUserContext;;
    modify (λ s, s <| sessions ::= delete session |>)
  end;;
  modify (λ s, s <| registry ::= registry_removeSession session |>);;
  modify (λ s, s <| party_service ::= λ p, (Party.removeMember session p).1.2 |>);;
  events <- get (λ s, (Guild.removeMember session (guild_service s)).2);;
  modify (λ s, s <| guild_service ::= λ g, (Guild.removeMember session g).1.2 |>);;
  each (guild_sink env) events;;
  modify (λ s, s <| session_instances ::= delete session |>
                 <| session_characters ::= delete session |>).

(** The first loop of [tick]: the sessions that stay disconnected. *)
Fixpoint tick_sessions (now : Z) (entries : list (Z * Z)) : M S (list Z) :=
  match entries with
  | [] => ret []
  | (session, address) :: rest =>
    alive <- on_session address false (tick_session now);;
    to_remove <- tick_sessions now rest;;
    ret (if negb alive then session :: to_remove else to_remove)
  end.

Definition tick (env : Env) (now : Z) : M S unit :=
  entries <- get (λ s, hash_iter (sessions s));;
  to_remove <- tick_sessions now entries;;
  each (removeSession env) to_remove.

Definition sessionCount s : Z := Z.of_nat (size (sessions s)).

Definition sessionUser (session : Z) s : option UserContext :=
  registry_find session (registry s).

Definition forceDisconnect (env : Env) (session : Z) (why request_trace : string) : M S bool :=
  found <- get (findSession session);;
  match found with
  | None =>
    log_event "warn" "session_force_disconnect_failed" "Session not found"
      (no_fields <| session_id := Some session |>
                 <| request_trace_id := Some request_trace |>
                 <| reason := Some "Session not found"%string |>);;
    count_error;;
    ret false
  | Some address =>
    trace <- get (λ s, from_option session_trace ""%string (heap s !! address));;
    log_event "info" "session_force_disconnected" "Session force disconnected"
      (no_fields <| session_id := Some session |>
                 <| session_trace_id := Some trace |>
                 <| request_trace_id := Some request_trace |>
                 <| reason := Some why |>);;
    removeSession env session;;
    ret true
  end.

(** ** AdminService (src/src/admin/admin.h, admin.cpp) *)

(** [uptime] in seconds, rounded towards zero. *)
Definition getStatus (now : Z) (request_trace : string) : M S (Z * Metrics * Z) :=
  log_event "info" "admin_status" "Admin status requested"
    (no_fields <| request_trace_id := Some request_trace |>);;
  get (λ s, (sessionCount s, metrics s, Z.quot (now - started_at s) ns_per_second)).

Definition forceTerminateSession (env : Env) (session : Z) (why request_trace : string)
    : M S bool :=
  let fields := no_fields <| request_trace_id := Some request_trace |>
                          <| session_id := Some session |> <| reason := Some why |> in
  found <- get (findSession session);;
  match found with
  | None => log_event "warn" "admin_force_disconnect" "Session not found" fields;; ret false
  | Some address =>
    trace <- get (λ s, from_option session_trace ""%string (heap s !! address));;
    log_event "info" "admin_force_disconnect" "Admin terminating session"
      (fields <| session_trace_id := Some trace |>);;
    forceDisconnect env session why request_trace
  end.

End operations.
