(* ===== verification/Handlers.v ===== *)
(** * Packet handlers: [Server::handlePacket] (src/src/net/server.cpp)

    The checks every packet goes through, then one definition per case of the switch. *)

From stdpp Require Import pretty.
From S2P Require Import Prelude Wire Protocol Codec Security Logging Session Server.
From S2P Require Auth Party Guild Chat Match Dungeon Reward Inventory.
From S2P Require Import Inventory.

(** What a handler knows about the packet: the session's address and id, the header's
    version, the log fields of the received packet, and the time. *)
Record Packet := {
  env : Env;
  address : Z;
  sid : Z;
  version : Z;
  received : LogFields;
  now : Z
}.

Section handlers.
Context {S : Type} `{HashOrder, InventoryStorage S}.

(** The frame a handler returns. *)
Abbreviation Reply := (option (list byte)).

Definition respond (c : Packet) (type : PacketType) (encoded : list byte) : Reply :=
  Some (encode_frame (PacketType_to_u16 type) (version c) encoded).

(** The common failure: count an error, log it with the reason, answer. *)
Definition reject (c : Packet) (type : PacketType) (event : string) (user : option string)
    (message : string) (encoded : list byte) : M S Reply :=
  count_error;;
  log_event "warn" event message
    (received c <| user_id := user |> <| reason := Some message |>);;
  ret (respond c type encoded).

(** The common end of the other answers. *)
Definition answer (c : Packet) (type : PacketType) (level event : string) (user : string)
    (message : string) (encoded : list byte) : M S Reply :=
  log_event level event message
    (received c <| user_id := Some user |> <| reason := Some message |>);;
  ret (respond c type encoded).

(** A packet dropped for security reasons. *)
Definition violation (c : Packet) (why message : string) : M S Reply :=
  count_error;;
  log_event "warn" "security_violation" message (received c <| reason := Some why |>);;
  ret None.

(** [session.userContext()] *)
Definition current_user (c : Packet) : M S (option UserContext) :=
  get (λ s, heap s !! address c ≫= userContext).

(** ** Login *)

Definition login_failure (message : string) : list byte :=
  encodeLoginResponse {| LoginResponse_accepted := false; LoginResponse_token := "";
                         LoginResponse_message := message |}.

Definition login_fails (c : Packet) (user : option string) (message : string) : M S Reply :=
  reject c PT_LoginRes "login_failed" user message (login_failure message).

Definition handle_login (c : Packet) (payload : list byte) : M S Reply :=
  let? request := decodeLoginRequest payload
    else login_fails c None "Malformed login payload" in
  let user := LoginRequest_user_id request in
  if negb (bool_decide (LoginRequest_password request = "letmein"%string))
  then login_fails c (Some user) "Invalid credentials"
  else
    existing <- get (λ s, hasUser user (registry s));;
    if match existing with Some existing => negb (existing =? sid c) | None => false end
    then login_fails c (Some user) "User already logged in"
    else
      token <- get (λ s, (Auth.issueToken user (now c) (token_draws (env c)) (token_service s)).1);;
      modify (λ s, s <| token_service ::= λ t,
                     (Auth.issueToken user (now c) (token_draws (env c)) t).2 |>);;
      let context := {| UserContext_user_id := user; UserContext_token := token |} in
      set_session (address c) (attachUserContext context);;
      registered <- get (λ s, (registerSession (sid c) context (registry s)).1);;
      modify (λ s, s <| registry ::= λ r, (registerSession (sid c) context r).2 |>);;
      if negb registered then login_fails c (Some user) "User already logged in"
      else
        log_event "info" "login_success" "Login accepted" (received c <| user_id := Some user |>);;
        ret (respond c PT_LoginRes (encodeLoginResponse {|
               LoginResponse_accepted := true; LoginResponse_token := token;
               LoginResponse_message := "Login accepted" |})).

(** ** Logout *)

Definition handle_logout (c : Packet) (payload : list byte) : M S Reply :=
  let? _ := decodeLogoutRequest payload
    else
      let message := "Malformed logout payload"%string in
      reject c PT_LogoutRes "logout_failed" None message
        (encodeLogoutResponse {| LogoutResponse_success := false;
                                 LogoutResponse_message := message |}) in
  set_session (address c) clearUserContext;;
  modify (λ s, s <| registry ::= registry_removeSession (sid c) |>);;
  log_event "info" "logout_success" "Logout successful" (received c);;
  ret (respond c PT_LogoutRes (encodeLogoutResponse {|
         LogoutResponse_success := true; LogoutResponse_message := "Logout successful" |})).

(** ** Reconnect *)

Definition reconnect_fails (c : Packet) (user : option string) (message : string) : M S Reply :=
  reject c PT_SessionReconnectRes "session_reconnect_failed" user message
    (encodeSessionReconnectResponse {|
       SessionReconnectResponse_success := false; SessionReconnectResponse_message := message;
       SessionReconnectResponse_session_id := 0;
       SessionReconnectResponse_resume_from_seq := 0 |}).

(** Moving an entry of [session_instances_] or [session_characters_] to the new session. *)
Definition move_entry {A} (old new : Z) (m : gmap Z A) : gmap Z A :=
  match m !! old with
  | Some x => delete old (<[new := x]> m)
  | None => m
  end.

(** Taking over the session [old] of the same user; the result is its last sequence. *)
Definition take_over (c : Packet) (old : Z) : M S Z :=
  found <- get (findSession old);;
  previous <-
    match found with
    | None => ret 0
    | Some old_address =>
      previous <- get (λ s, from_option lastSeq 0 (heap s !! old_address));;
      modify (λ s, s <| party_service ::= λ p, (Party.replaceMemberSession old (sid c) p).2 |>);;
      modify (λ s, s <| guild_service ::= λ g, (Guild.replaceMemberSession old (sid c) g).2 |>);;
      modify (λ s, s <| session_instances ::= move_entry old (sid c) |>);;
      modify (λ s, s <| session_characters ::= move_entry old (sid c) |>);;
      set_session old_address clearUserContext;;
      modify (λ s, s <| sessions ::= delete old |>);;
      ret previous
    end;;
  modify (λ s, s <| registry ::= registry_removeSession old |>);;
  ret previous.

Definition handle_reconnect (c : Packet) (payload : list byte) : M S Reply :=
  let? request := decodeSessionReconnectRequest payload
    else reconnect_fails c None "Malformed reconnect payload" in
  let token := SessionReconnectRequest_token request in
  valid <- get (λ s, (Auth.validateToken token (now c) (token_service s)).1);;
  modify (λ s, s <| token_service ::= λ t, (Auth.validateToken token (now c) t).2 |>);;
  let? user := valid else reconnect_fails c None "Invalid or expired token" in
  existing <- get (λ s, hasUser user (registry s));;
  previous_last_seq <-
    match existing with
    | Some old => if negb (old =? sid c) then take_over c old else ret 0
    | None => ret 0
    end;;
  let context := {| UserContext_user_id := user; UserContext_token := token |} in
  set_session (address c) (attachUserContext context);;
  registered <- get (λ s, (registerSession (sid c) context (registry s)).1);;
  modify (λ s, s <| registry ::= λ r, (registerSession (sid c) context r).2 |>);;
  if negb registered then reconnect_fails c (Some user) "User already logged in"
  else
    let restored_last_seq := Z.max (SessionReconnectRequest_last_seq request) previous_last_seq in
    set_session (address c) (setLastSeq restored_last_seq);;
    answer c PT_SessionReconnectRes "info" "session_reconnected" user "Reconnect accepted"
      (encodeSessionReconnectResponse {|
         SessionReconnectResponse_success := true;
         SessionReconnectResponse_message := "Reconnect accepted";
         SessionReconnectResponse_session_id := sid c;
         SessionReconnectResponse_resume_from_seq := u32 (u64 (restored_last_seq + 1)) |}).

(** ** Matchmaking *)

Definition match_failure (code message : string) : list byte :=
  encodeMatchFoundNotify {|
    MatchFoundNotify_success := false; MatchFoundNotify_code := code;
    MatchFoundNotify_message := message; MatchFoundNotify_party_id := 0;
    MatchFoundNotify_instance_id := 0; MatchFoundNotify_endpoint := "";
    MatchFoundNotify_ticket := "" |}.

Definition match_fails (c : Packet) (user : option string) (code message : string) : M S Reply :=
  reject c PT_MatchFoundNotify "match_request_failed" user message (match_failure code message).

(** Is the session among the members? *)
Definition is_member (session : Z) (info : Party.PartyInfo) : bool :=
  existsb (λ member, Party.member_session_id member =? session) (Party.PartyInfo_members info).

(** The loop over the members of a matched party: they get the instance and, except the
    requester, the frame. *)
Fixpoint notify_members (c : Packet) (instance : Z) (is_own_party : bool) (frame : list byte)
    (members : list Party.PartyMember) : M S unit :=
  match members with
  | [] => ret tt
  | member :: rest =>
    let session := Party.member_session_id member in
    found <- get (findSession session);;
    match found with
    | None => ret tt
    | Some member_address =>
      modify (λ s, s <| session_instances ::= <[session := instance]> |>);;
      if negb (is_own_party && (session =? sid c))
      then _ <- send (env c) member_address frame;; ret tt
      else ret tt
    end;;
    notify_members c instance is_own_party frame rest
  end.

(** The loop over the matched candidates: [inl] is an early return. *)
Fixpoint start_matches (c : Packet) (user : string) (party : Z)
    (matches : list Match.MatchCandidate) (to_requester : option MatchFoundNotify)
    : M S (Reply + option MatchFoundNotify) :=
  match matches with
  | [] => ret (inr to_requester)
  | candidate :: rest =>
    let candidate_party := Match.candidate_party_id candidate in
    created <- get (λ s, (Dungeon.createInstance candidate_party (party_service s)
                            (instance_manager s)).1);;
    modify (λ s, s <| instance_manager ::= λ m,
                   (Dungeon.createInstance candidate_party (party_service s) m).2 |>);;
    match created with
    | None =>
      reply <- match_fails c (Some user) "INSTANCE_FAILED" "Unable to create dungeon instance";;
      ret (inl reply)
    | Some instance =>
      let ticket := generateTraceId (ticket_draws (env c) instance) in
      modify (λ s, s <| party_instances ::= <[candidate_party := instance]> |>
                     <| instance_tickets ::= <[instance := ticket]> |>
                     <| instance_seeds ::= <[instance := seed_draw (env c) instance]> |>);;
      let notify := {|
        MatchFoundNotify_success := true; MatchFoundNotify_code := "OK";
        MatchFoundNotify_message := "Match found";
        MatchFoundNotify_party_id := candidate_party;
        MatchFoundNotify_instance_id := instance;
        MatchFoundNotify_endpoint := "dungeon.local:7777";
        MatchFoundNotify_ticket := ticket |} in
      let frame := encode_frame (PacketType_to_u16 PT_MatchFoundNotify) (version c)
                     (encodeMatchFoundNotify notify) in
      info <- get (λ s, Party.getPartyInfo candidate_party (party_service s));;
      match info with
      | None => ret tt
      | Some info => notify_members c instance (candidate_party =? party) frame
                       (Party.PartyInfo_members info)
      end;;
      start_matches c user party rest
        (if candidate_party =? party then Some notify else to_requester)
    end
  end.

(** From the party on: enqueue, look for a match, start it. *)
Definition match_party (c : Packet) (user : string) (party : Z) (info : Party.PartyInfo)
    : M S Reply :=
  let candidate := {|
    Match.candidate_party_id := party; Match.mmr := 0;
    Match.party_size := Z.of_nat (length (Party.PartyInfo_members info));
    Match.enqueue_time := now c |} in
  queued <- get (λ s, (Match.enqueue candidate (match_queue s)).1);;
  modify (λ s, s <| match_queue ::= λ q, (Match.enqueue candidate q).2 |>);;
  if negb queued then match_fails c (Some user) "QUEUE_REJECTED" "Unable to enqueue for match"
  else
    found <- get (λ s, (Match.findMatch (now c) (match_queue s)).1);;
    modify (λ s, s <| match_queue ::= λ q, (Match.findMatch (now c) q).2 |>);;
    matches <-
      match found with
      | Some (first, second) => ret [first; second]
      | None =>
        modify (λ s, s <| match_queue ::= λ q, (Match.cancel party q).2 |>);;
        ret [candidate]
      end;;
    started <- start_matches c user party matches None;;
    match started with
    | inl reply => ret reply
    | inr None => match_fails c (Some user) "MATCH_NOT_FOUND" "Match not found"
    | inr (Some notify) =>
      answer c PT_MatchFoundNotify "info" "match_found" user (MatchFoundNotify_message notify)
        (encodeMatchFoundNotify notify)
    end.

Definition handle_match (c : Packet) (payload : list byte) : M S Reply :=
  let? request := decodeMatchRequest payload
    else match_fails c None "MALFORMED" "Malformed match request" in
  context <- current_user c;;
  let? context := context else match_fails c None "UNAUTHENTICATED" "Authentication required" in
  let user := UserContext_user_id context in
  party <-
    (if MatchRequest_party_id request =? 0
     then get (λ s, Party.partyForMember (sid c) (party_service s))
     else ret (Some (MatchRequest_party_id request)));;
  let? party := party else match_fails c (Some user) "NO_PARTY" "Not in a party" in
  info <- get (λ s, Party.getPartyInfo party (party_service s));;
  let? info := info else match_fails c (Some user) "PARTY_NOT_FOUND" "Party not found" in
  if negb (is_member (sid c) info)
  then match_fails c (Some user) "NOT_PARTY_MEMBER" "Not authorized for match"
  else match_party c user party info.

(** ** Entering a dungeon *)

Definition enter_fails (c : Packet) (user : option string) (code message : string) : M S Reply :=
  reject c PT_DungeonEnterRes "dungeon_enter_failed" user message
    (encodeDungeonEnterResponse {|
       DungeonEnterResponse_success := false; DungeonEnterResponse_code := code;
       DungeonEnterResponse_message := message;
       DungeonEnterResponse_state := DungeonState_Waiting; DungeonEnterResponse_seed := 0 |}).

Definition handle_dungeon_enter (c : Packet) (payload : list byte) : M S Reply :=
  let? request := decodeDungeonEnterRequest payload
    else enter_fails c None "MALFORMED" "Malformed dungeon enter payload" in
  let instance_id := DungeonEnterRequest_instance_id request in
  context <- current_user c;;
  let? context := context else enter_fails c None "UNAUTHENTICATED" "Authentication required" in
  let user := Some (UserContext_user_id context) in
  instance <- get (λ s, Dungeon.getInstance instance_id (instance_manager s));;
  let? instance := instance
    else enter_fails c user "INSTANCE_NOT_FOUND" "Dungeon instance not found" in
  ticket <- get (λ s, instance_tickets s !! instance_id);;
  if bool_decide (ticket ≠ Some (DungeonEnterRequest_ticket request))
  then enter_fails c user "INVALID_TICKET" "Invalid enter ticket"
  else
    info <- get (λ s, Party.getPartyInfo (Dungeon.instance_party_id instance) (party_service s));;
    let? info := info else enter_fails c user "PARTY_NOT_FOUND" "Party not found for instance" in
    if negb (is_member (sid c) info)
    then enter_fails c user "NOT_PARTY_MEMBER" "Not authorized for instance"
    else
      entered <- get (λ s, (Dungeon.requestTransition instance_id Dungeon.Ready
                              (party_service s) (instance_manager s)).1);;
      modify (λ s, s <| instance_manager ::= λ m,
        (Dungeon.requestTransition instance_id Dungeon.Ready (party_service s) m).2 |>);;
      if negb entered then enter_fails c user "INVALID_STATE" "Dungeon not ready to enter"
      else
        modify (λ s, s <| session_characters ::= <[sid c := DungeonEnterRequest_char_id request]> |>
                       <| session_instances ::= <[sid c := instance_id]> |>);;
        seed <- get (λ s, default 0 (instance_seeds s !! instance_id));;
        modify (λ s, s <| instance_seeds ::= <[instance_id := seed]> |>);;
        answer c PT_DungeonEnterRes "info" "dungeon_entered" (UserContext_user_id context)
          "Dungeon entry accepted"
          (encodeDungeonEnterResponse {|
             DungeonEnterResponse_success := true; DungeonEnterResponse_code := "OK";
             DungeonEnterResponse_message := "Dungeon entry accepted";
             DungeonEnterResponse_state := DungeonState_Ready;
             DungeonEnterResponse_seed := seed |}).

(** ** Inventory transactions *)

(** The loop that adds a list of items to an inventory, up to the first failure. *)
Fixpoint add_items (clock : nat → list Z) (inventory : Z) (items : list RewardItem)
    (why : string) (store : S) : bool * S :=
  match items with
  | [] => (true, store)
  | item :: rest =>
    match addItem inventory (RewardItem_item_id item) (RewardItem_count item) why (clock O)
            store with
    | (true, store) => add_items (λ n, clock (Datatypes.S n)) inventory rest why store
    | (false, store) => (false, store)
    end
  end.

(** Begin, add, and commit or roll back. *)
Definition add_items_transaction (clock : nat → list Z) (inventory : Z)
    (items : list RewardItem) (why : string) (store : S) : bool * S :=
  let '(tx, store) := beginTransaction store in
  let '(added, store) := add_items clock inventory items why store in
  (added, if added then commitTransaction tx store else rollbackTransaction tx store).

(** ** Dungeon results *)

Definition result_fails (c : Packet) (user : option string) (code message : string) : M S Reply :=
  reject c PT_DungeonResultRes "dungeon_result_failed" user message
    (encodeDungeonResultResponse {|
       DungeonResultResponse_success := false; DungeonResultResponse_code := code;
       DungeonResultResponse_message := message;
       DungeonResultResponse_summary := "result rejected" |}).

(** From the accepted transition on. *)
Definition record_result (c : Packet) (user : string) (instance : Z)
    (request : DungeonResultNotify) : M S Reply :=
  character <- get (λ s, session_characters s !! sid c);;
  let? character := character
    else result_fails c (Some user) "CHAR_NOT_SET" "Character not registered for session" in
  let reward_items := (λ item, {| Reward.item_id := RewardItem_item_id item;
                                  Reward.quantity := RewardItem_count item |})
                      <$> DungeonResultNotify_rewards request in
  grant_id <- get next_reward_grant_id;;
  modify (λ s, s <| next_reward_grant_id ::= λ n, u64 (n + 1) |>);;
  match (Reward.grantRewardsDetailed grant_id reward_items (Reward.new_Inventory 100)).1 with
  | Reward.ResultDuplicate =>
    result_fails c (Some user) "REWARD_DUPLICATE" "Reward grant already processed"
  | Reward.ResultFailed => result_fails c (Some user) "REWARD_FAILED" "Reward grant failed"
  | Reward.ResultCompleted =>
    let add (store : S) := add_items_transaction (item_clock (env c)) character
                             (DungeonResultNotify_rewards request) "dungeon_reward" store in
    added <- get (λ s, (add (inventory_storage s)).1);;
    modify (λ s, s <| inventory_storage ::= λ store, (add store).2 |>);;
    if negb added then result_fails c (Some user) "INVENTORY_FAILED" "Failed to update inventory"
    else
      modify (λ s, s <| instance_reward_grants ::= <[instance := grant_id]> |>);;
      answer c PT_DungeonResultRes "info" "dungeon_result_recorded" user "Dungeon result recorded"
        (encodeDungeonResultResponse {|
           DungeonResultResponse_success := true; DungeonResultResponse_code := "OK";
           DungeonResultResponse_message := "Dungeon result recorded";
           DungeonResultResponse_summary := "result recorded" |})
  end.

Definition handle_dungeon_result (c : Packet) (payload : list byte) : M S Reply :=
  let? request := decodeDungeonResultNotify payload
    else result_fails c None "MALFORMED" "Malformed dungeon result payload" in
  context <- current_user c;;
  let? context := context else result_fails c None "UNAUTHENTICATED" "Authentication required" in
  let user := Some (UserContext_user_id context) in
  instance <- get (λ s, session_instances s !! sid c);;
  let? instance := instance else result_fails c user "NO_INSTANCE" "No active dungeon instance" in
  exists_ <- get (λ s, Dungeon.getInstance instance (instance_manager s));;
  let? _ := exists_ else result_fails c user "INSTANCE_NOT_FOUND" "Dungeon instance missing" in
  grant <- get (λ s, instance_reward_grants s !! instance);;
  if bool_decide (is_Some grant)
  then result_fails c user "REWARD_DUPLICATE" "Reward grant already processed"
  else
    let next_state := match DungeonResultNotify_result request with
                      | DungeonResultType_Clear => Dungeon.Clear
                      | _ => Dungeon.Fail
                      end in
    moved <- get (λ s, (Dungeon.requestTransition instance next_state (party_service s)
                          (instance_manager s)).1);;
    modify (λ s, s <| instance_manager ::= λ m,
      (Dungeon.requestTransition instance next_state (party_service s) m).2 |>);;
    if negb moved then result_fails c user "INVALID_STATE" "Dungeon state transition rejected"
    else record_result c (UserContext_user_id context) instance request.

(** ** Inventory updates *)

Definition inventory_response (success : bool) (code message : string) (inventory_version : Z)
    : list byte :=
  encodeInventoryUpdateResponse {|
    InventoryUpdateResponse_success := success; InventoryUpdateResponse_code := code;
    InventoryUpdateResponse_message := message;
    InventoryUpdateResponse_inventory_version := inventory_version |}.

Definition inventory_fails (c : Packet) (code message : string) : M S Reply :=
  reject c PT_InventoryUpdateRes "inventory_update_failed" None message
    (inventory_response false code message 0).

Definition handle_inventory_update (c : Packet) (payload : list byte) : M S Reply :=
  let? request := decodeInventoryUpdateNotify payload
    else inventory_fails c "MALFORMED" "Malformed inventory update payload" in
  context <- current_user c;;
  let? context := context
    else inventory_fails c "UNAUTHENTICATED" "Authentication required" in
  let inventory := InventoryUpdateNotify_char_id request in
  let add (store : S) := add_items_transaction (item_clock (env c)) inventory
                           (InventoryUpdateNotify_items request) "inventory_update" store in
  added <- get (λ s, (add (inventory_storage s)).1);;
  modify (λ s, s <| inventory_storage ::= λ store, (add store).2 |>);;
  log_length <- get (λ s, Z.of_nat (length (changeLog inventory (inventory_storage s))));;
  let message := if added : bool then "Inventory updated"%string
                 else "Failed to update inventory"%string in
  answer c PT_InventoryUpdateRes (if added then "info" else "warn")
    (if added then "inventory_updated" else "inventory_update_failed")
    (UserContext_user_id context) message
    (inventory_response added (if added then "OK" else "INVENTORY_FAILED") message log_length).

(** ** Guilds *)

Definition guild_create_response (success : bool) (guild : Z) (message : string) : list byte :=
  encodeGuildCreateResponse {|
    GuildCreateResponse_success := success; GuildCreateResponse_guild_id := guild;
    GuildCreateResponse_message := message |}.

Definition guild_create_fails (c : Packet) (message : string) : M S Reply :=
  reject c PT_GuildCreateRes "guild_create_failed" None message
    (guild_create_response false 0 message).

Definition handle_guild_create (c : Packet) (payload : list byte) : M S Reply :=
  let? request := decodeGuildCreateRequest payload
    else guild_create_fails c "Malformed guild create payload" in
  context <- current_user c;;
  let? context := context else guild_create_fails c "Authentication required" in
  let user := UserContext_user_id context in
  let create := Guild.createGuild (sid c) user (GuildCreateRequest_guild_name request) in
  created <- get (λ s, (create (guild_service s)).1.1);;
  events <- get (λ s, (create (guild_service s)).2);;
  modify (λ s, s <| guild_service ::= λ g, (create g).1.2 |>);;
  each (guild_sink (env c)) events;;
  match created with
  | None =>
    count_error;;
    answer c PT_GuildCreateRes "warn" "guild_create_failed" user "Unable to create guild"
      (guild_create_response false 0 "Unable to create guild")
  | Some guild =>
    answer c PT_GuildCreateRes "info" "guild_created" user "Guild created"
      (guild_create_response true guild "Guild created")
  end.

Definition guild_join_fails (c : Packet) (message : string) : M S Reply :=
  reject c PT_GuildJoinRes "guild_join_failed" None message
    (encodeGuildJoinResponse {| GuildJoinResponse_success := false;
                                GuildJoinResponse_message := message |}).

Definition handle_guild_join (c : Packet) (payload : list byte) : M S Reply :=
  let? request := decodeGuildJoinRequest payload
    else guild_join_fails c "Malformed guild join payload" in
  context <- current_user c;;
  let? context := context else guild_join_fails c "Authentication required" in
  let user := UserContext_user_id context in
  let join := Guild.joinGuild (GuildJoinRequest_guild_id request) (sid c) user in
  joined <- get (λ s, (join (guild_service s)).1.1);;
  events <- get (λ s, (join (guild_service s)).2);;
  modify (λ s, s <| guild_service ::= λ g, (join g).1.2 |>);;
  each (guild_sink (env c)) events;;
  let message := if joined : bool then "Joined guild"%string else "Unable to join guild"%string in
  answer c PT_GuildJoinRes (if joined then "info" else "warn")
    (if joined then "guild_joined" else "guild_join_failed") user message
    (encodeGuildJoinResponse {| GuildJoinResponse_success := joined;
                                GuildJoinResponse_message := message |}).

Definition guild_leave_fails (c : Packet) (user : option string) (message : string) : M S Reply :=
  reject c PT_GuildLeaveRes "guild_leave_failed" user message
    (encodeGuildLeaveResponse {| GuildLeaveResponse_success := false;
                                 GuildLeaveResponse_message := message |}).

Definition handle_guild_leave (c : Packet) (payload : list byte) : M S Reply :=
  let? request := decodeGuildLeaveRequest payload
    else guild_leave_fails c None "Malformed guild leave payload" in
  context <- current_user c;;
  let? context := context else guild_leave_fails c None "Authentication required" in
  let user := UserContext_user_id context in
  guild <-
    (if GuildLeaveRequest_guild_id request =? 0
     then get (λ s, Guild.guildForMember (sid c) (guild_service s))
     else ret (Some (GuildLeaveRequest_guild_id request)));;
  let? guild := guild else guild_leave_fails c (Some user) "Not in a guild" in
  let leave := Guild.leaveGuild guild (sid c) in
  done <- get (λ s, (leave (guild_service s)).1.1);;
  events <- get (λ s, (leave (guild_service s)).2);;
  modify (λ s, s <| guild_service ::= λ g, (leave g).1.2 |>);;
  each (guild_sink (env c)) events;;
  let message := if done : bool then "Left guild"%string else "Unable to leave guild"%string in
  answer c PT_GuildLeaveRes (if done then "info" else "warn")
    (if done then "guild_left" else "guild_leave_failed") user message
    (encodeGuildLeaveResponse {| GuildLeaveResponse_success := done;
                                 GuildLeaveResponse_message := message |}).

(** ** Chat *)

Definition chat_response (success : bool) (message : string) : list byte :=
  encodeChatSendResponse {| ChatSendResponse_success := success;
                            ChatSendResponse_message := message |}.

Definition chat_fails (c : Packet) (user : option string) (message : string) : M S Reply :=
  reject c PT_ChatSendRes "chat_send_failed" user message (chat_response false message).

(** The recipients of a global message: the sessions in [sessions_] with a user. *)
Definition global_recipients (s : Server S) : list Z :=
  omap (λ entry, if bool_decide (is_Some (heap s !! entry.2 ≫= userContext))
                 then Some entry.1 else None) (hash_iter (sessions s)).

Definition send_global (c : Packet) (user message : string) : M S (bool * string) :=
  recipients <- get global_recipients;;
  let send := Chat.sendGlobal (sid c) user message recipients in
  sent <- get (λ s, (send (chat_service s)).1);;
  events <- get (λ s, (send (chat_service s)).2);;
  each (chat_sink (env c)) events;;
  ret (sent, if sent : bool then "Global chat delivered"%string
             else "Failed to deliver global chat"%string).

Definition send_party (c : Packet) (user message : string) (requested_party : Z)
    : M S (bool * string) :=
  party <-
    (if requested_party =? 0
     then get (λ s, Party.partyForMember (sid c) (party_service s))
     else ret (Some requested_party));;
  match party with
  | None => count_error;; ret (false, "Not in a party"%string)
  | Some party =>
    info <- get (λ s, Party.getPartyInfo party (party_service s));;
    match info with
    | None => count_error;; ret (false, "Party not found"%string)
    | Some info =>
      let recipients := Party.member_session_id <$> Party.PartyInfo_members info in
      if negb (is_member (sid c) info)
      then count_error;; ret (false, "Not authorized for party chat"%string)
      else
        let send := Chat.sendParty (sid c) user party message recipients in
        sent <- get (λ s, (send (chat_service s)).1);;
        events <- get (λ s, (send (chat_service s)).2);;
        each (chat_sink (env c)) events;;
        (if sent : bool then ret tt else count_error);;
        ret (sent, if sent : bool then "Party chat delivered"%string
                   else "Failed to deliver party chat"%string)
    end
  end.

Definition handle_chat (c : Packet) (payload : list byte) : M S Reply :=
  let? request := decodeChatSendRequest payload
    else chat_fails c None "Malformed chat payload" in
  context <- current_user c;;
  let? context := context else chat_fails c None "Authentication required" in
  let user := UserContext_user_id context in
  let text := ChatSendRequest_message request in
  if string_empty text then chat_fails c (Some user) "Chat message cannot be empty"
  else
    result <-
      match ChatSendRequest_channel request with
      | ChatChannel_Global => send_global c user text
      | ChatChannel_Party => send_party c user text (ChatSendRequest_party_id request)
      | ChatChannel_raw _ => count_error;; ret (false, "Unknown chat channel"%string)
      end;;
    let '(sent, message) := result : bool * string in
    answer c PT_ChatSendRes (if sent then "info" else "warn")
      (if sent then "chat_sent" else "chat_send_failed") user message
      (chat_response sent message).

(** ** Every packet *)

Definition version_reject_message (version : Z) : string :=
  "Unsupported client version " +:+ pretty version +:+ " (supported " +:+
  pretty kMinProtocolVersion +:+ "-" +:+ pretty kMaxProtocolVersion +:+ ")".

Definition reject_version (c : Packet) : M S Reply :=
  let message := version_reject_message (version c) in
  count_error;;
  log_event "warn" "packet_rejected" "Unsupported protocol version"
    (received c <| reason := Some message |>);;
  ret (respond c PT_VersionReject (encodeVersionReject {|
         VersionReject_min_version := kMinProtocolVersion;
         VersionReject_max_version := kMaxProtocolVersion;
         VersionReject_client_version := version c;
         VersionReject_message := message |})).

(** The sequence and nonce checks; true when the packet may go on. *)
Definition check_replay (c : Packet) (header : SecurityHeader)
    : M S (option Reply) :=
  last <- get (λ s, from_option lastSeq 0 (heap s !! address c));;
  if SecurityHeader_seq header <=? last
  then reply <- violation c "Replay sequence detected" "Replay sequence detected";;
       ret (Some reply)
  else
    fresh <- on_session (address c) false
               (λ session, let '(b, session) := recordNonce (SecurityHeader_nonce header) session in
                           (b, session, []));;
    if negb fresh
    then reply <- violation c "Replay nonce detected" "Replay nonce detected";;
         ret (Some reply)
    else
      set_session (address c) (setLastSeq (SecurityHeader_seq header));;
      ret None.

(** The security part of [handlePacket]: [inl] when the packet is dropped, otherwise the
    payload to decode. *)
Definition open_payload (c : Packet) (policy : SecurityPolicy) (payload : list byte)
    : M S (Reply + list byte) :=
  if negb (require_hmac policy || enable_replay_protection policy) then ret (inr payload)
  else
    match unwrapSecurePayload payload with
    | None =>
      reply <- violation c "Malformed security header" "Malformed security header";;
      ret (inl reply)
    | Some (header, inner) =>
      if require_hmac policy && negb (verifySignature (hmac_key policy) header inner)
      then reply <- violation c "Invalid signature" "Signature verification failed";;
           ret (inl reply)
      else if enable_replay_protection policy
      then
        stopped <- check_replay c header;;
        ret (match stopped with Some reply => inl reply | None => inr inner end)
      else ret (inr inner)
    end.

(** The switch over the packet type. *)
Definition dispatch (c : Packet) (type : PacketType) (payload : list byte) : M S Reply :=
  match type with
  | PT_LoginReq => handle_login c payload
  | PT_LogoutReq => handle_logout c payload
  | PT_SessionReconnectReq => handle_reconnect c payload
  | PT_MatchReq => handle_match c payload
  | PT_DungeonEnterReq => handle_dungeon_enter c payload
  | PT_DungeonResultNotify => handle_dungeon_result c payload
  | PT_InventoryUpdateNotify => handle_inventory_update c payload
  | PT_GuildCreateReq => handle_guild_create c payload
  | PT_GuildJoinReq => handle_guild_join c payload
  | PT_GuildLeaveReq => handle_guild_leave c payload
  | PT_ChatSendReq => handle_chat c payload
  | _ =>
    count_error;;
    log_event "warn" "packet_unhandled" "Unknown packet type"
      (received c <| reason := Some "Unknown packet type"%string |>);;
    ret None
  end.

(** The checks after the packet was counted and logged. *)
Definition process_packet (c : Packet) (type : Z) (payload : list byte) : M S Reply :=
  policy <- get security_policy;;
  secured <- get (λ s, from_option tlsEstablished false (heap s !! address c));;
  if require_tls policy && negb secured
  then violation c "TLS required" "Rejected non-TLS session packet"
  else if (version c <? kMinProtocolVersion) || (kMaxProtocolVersion <? version c)
  then reject_version c
  else
    opened <- open_payload c policy payload;;
    match opened with
    | inl reply => ret reply
    | inr inner => dispatch c (PacketType_of_u16 type) inner
    end.

Definition received_fields (session : Session) (trace : string) (header : FrameHeader)
    (payload : list byte) : LogFields :=
  no_fields <| session_id := Some (id session) |>
            <| session_trace_id := Some (session_trace session) |>
            <| request_trace_id := Some trace |>
            <| packet_type := Some (FrameHeader_type header) |>
            <| protocol_version := Some (FrameHeader_version header) |>
            <| bytes := Some (payload_size payload) |>.

Definition handlePacket (e : Env) (session_address : Z) (header : FrameHeader)
    (payload : list byte) (time : Z) : M S Reply :=
  let trace := generateTraceId (trace_draws e) in
  modify (λ s, s <| metrics ::= λ m,
    m <| packets_total ::= λ n, u64 (n + 1) |>
      <| bytes_total ::= λ n, u64 (n + payload_size payload) |> |>);;
  session <- get (λ s, heap s !! session_address);;
  let? session := session else ret None in
  let c := {| env := e; address := session_address; sid := id session;
              version := FrameHeader_version header;
              received := received_fields session trace header payload; now := time |} in
  log_event "info" "packet_received" "Packet received" (received c);;
  set_session session_address (onReceive time);;
  set_session session_address (setProtocolVersion (FrameHeader_version header));;
  process_packet c (FrameHeader_type header) payload.

End handlers.
