(* ===== verification/Hoare.v ===== *)
(** * A program logic for the server's operations

    [triple P m Q]: from a state satisfying [P], the operation [m] ends in a state that,
    with its result, satisfies [Q]. [preserves P m] is the case of an invariant. The
    tactic [walk] goes through an operation and leaves the changes of the state. *)

From S2P Require Import Prelude Logging Session Server Handlers.

Section triples.
Context {S : Type}.
Implicit Types (P : Server S → Prop).

Definition triple {A} P (m : M S A) (Q : A → Server S → Prop) : Prop :=
  ∀ s, P s → Q (m s).1.1 (m s).1.2.

Definition preserves {A} P (m : M S A) : Prop := triple P m (λ _, P).

Lemma triple_ret {A} P (a : A) Q : (∀ s, P s → Q a s) → triple P (ret a) Q.
Proof. intros HQ s Hs. by apply HQ. Qed.

Lemma triple_bind {A B} P (m : M S A) (k : A → M S B) R Q :
  triple P m R → (∀ a, triple (R a) (k a) Q) → triple P (bind m k) Q.
Proof.
  intros Hm Hk s Hs. specialize (Hm s Hs). unfold bind.
  destruct (m s) as [[a s'] logs]. cbn in Hm. specialize (Hk a s' Hm).
  by destruct (k a s') as [[b s''] more].
Qed.

Lemma triple_get {A} P (f : Server S → A) Q : (∀ s, P s → Q (f s) s) → triple P (get f) Q.
Proof. intros HQ s Hs. by apply HQ. Qed.

Lemma triple_modify P (f : Server S → Server S) Q :
  (∀ s, P s → Q tt (f s)) → triple P (modify f) Q.
Proof. intros HQ s Hs. by apply HQ. Qed.

Lemma triple_log P entry Q : (∀ s, P s → Q tt s) → triple P (log entry) Q.
Proof. intros HQ s Hs. by apply HQ. Qed.

Lemma triple_on_session {A} P a (d : A) method Q :
  (∀ s, P s → heap s !! a = None → Q d s) →
  (∀ s o, P s → heap s !! a = Some o →
     Q (method o).1.1 (s <| heap ::= <[a := (method o).1.2]> |>)) →
  triple P (on_session a d method) Q.
Proof.
  intros Hn Hs s HP. unfold on_session. destruct (heap s !! a) as [o|] eqn:E; [|by apply Hn].
  specialize (Hs s o HP E). by destruct (method o) as [[x o'] logs].
Qed.

Lemma triple_post {A} P (m : M S A) (Q Q' : A → Server S → Prop) :
  triple P m Q → (∀ a s, Q a s → Q' a s) → triple P m Q'.
Proof. intros Hm HQ s Hs. by apply HQ, Hm. Qed.

Lemma triple_pre {A} P P' (m : M S A) Q :
  triple P m Q → (∀ s, P' s → P s) → triple P' m Q.
Proof. intros Hm HP s Hs. by apply Hm, HP. Qed.

Lemma triple_pure {A} P (φ : Prop) (m : M S A) Q :
  (φ → triple P m Q) → triple (λ s, P s ∧ φ) m Q.
Proof. intros Hm s [Hs Hφ]. by apply Hm. Qed.

(** An operation whose result is replaced. *)
Lemma triple_then_ret {A B} P (m : M S A) (b : B) (Q : Server S → Prop) :
  triple P m (λ _, Q) → triple P (bind m (λ _, ret b)) (λ _, Q).
Proof. intros Hm. eapply triple_bind; [exact Hm|]. intros a. by apply triple_ret. Qed.

(** ** Running an operation *)

Lemma run_get {A B} (f : Server S → A) (k : A → M S B) s : bind (get f) k s = k (f s) s.
Proof. unfold bind, get. by destruct (k (f s) s) as [[b s'] more]. Qed.

Lemma run_modify {B} (f : Server S → Server S) (k : unit → M S B) s :
  bind (modify f) k s = k tt (f s).
Proof. unfold bind, modify. by destruct (k tt (f s)) as [[b s'] more]. Qed.

Lemma run_ret {A B} (a : A) (k : A → M S B) s : bind (ret a) k s = k a s.
Proof. unfold bind, ret. by destruct (k a s) as [[b s'] more]. Qed.

(** Sequencing, when the first operation's result and state are known. *)
Lemma run_bind {A B} (m : M S A) (k : A → M S B) s :
  (bind m k s).1 = (k (m s).1.1 (m s).1.2).1.
Proof.
  unfold bind. destruct (m s) as [[a s'] logs]. cbn.
  by destruct (k a s') as [[b s''] more].
Qed.

Lemma run_log_event {B} level event message fields (k : unit → M S B) s :
  (bind (log_event level event message fields) k s).1 = (k tt s).1.
Proof. apply run_bind. Qed.

Lemma run_set_session {B} a f (k : unit → M S B) s o :
  heap s !! a = Some o →
  (bind (set_session a f) k s).1 = (k tt (s <| heap ::= <[a := f o]> |>)).1.
Proof. intros Ho. rewrite run_bind. unfold set_session, on_session. by rewrite Ho. Qed.

(** The same with the log entries. *)
Lemma run_bind_logs {A B} (m : M S A) (k : A → M S B) s :
  bind m k s = ((k (m s).1.1 (m s).1.2).1, (m s).2 ++ (k (m s).1.1 (m s).1.2).2).
Proof.
  unfold bind. destruct (m s) as [[a s'] logs]. cbn.
  by destruct (k a s') as [[b s''] more].
Qed.

Lemma run_log_entry {B} level event message fields (k : unit → M S B) s :
  bind (log_event level event message fields) k s =
  ((k tt s).1, {| log_level := level; Logging.log_event := event; log_message := message;
                  log_fields := fields |} :: (k tt s).2).
Proof. by rewrite run_bind_logs. Qed.

Lemma run_set_session_logs {B} a f (k : unit → M S B) s o :
  heap s !! a = Some o →
  bind (set_session a f) k s = k tt (s <| heap ::= <[a := f o]> |>).
Proof.
  intros Ho. unfold bind, set_session, on_session. rewrite Ho.
  by destruct (k tt _) as [[b s'] more].
Qed.

(** ** Invariants *)

Lemma preserves_ret {A} P (a : A) : preserves P (ret a).
Proof. by apply triple_ret. Qed.

Lemma preserves_bind {A B} P (m : M S A) (k : A → M S B) :
  preserves P m → (∀ a, preserves P (k a)) → preserves P (bind m k).
Proof. intros Hm Hk. by apply (triple_bind _ _ _ (λ _, P)). Qed.

Lemma preserves_get {A} P (f : Server S → A) : preserves P (get f).
Proof. by apply triple_get. Qed.

Lemma preserves_current_user P c : preserves P (current_user c).
Proof. apply preserves_get. Qed.

Lemma preserves_modify P (f : Server S → Server S) :
  (∀ s, P s → P (f s)) → preserves P (modify f).
Proof. intros Hf. by apply triple_modify. Qed.

Lemma preserves_log P entry : preserves P (log entry).
Proof. by apply triple_log. Qed.

Lemma preserves_log_event P level event message fields :
  preserves P (log_event level event message fields).
Proof. apply preserves_log. Qed.

Lemma preserves_on_session {A} P a (d : A) method :
  (∀ s o, P s → heap s !! a = Some o → P (s <| heap ::= <[a := (method o).1.2]> |>)) →
  preserves P (on_session a d method).
Proof. intros Hm. by apply triple_on_session. Qed.

Lemma preserves_each {A} P (f : A → M S unit) calls :
  (∀ call, preserves P (f call)) → preserves P (each f calls).
Proof.
  intros Hf. induction calls as [|call calls IH]; cbn [each]; [apply preserves_ret|].
  by apply preserves_bind.
Qed.

End triples.

Create HintDb hoare.
#[export] Hint Resolve preserves_ret preserves_get preserves_log preserves_log_event
  preserves_current_user : hoare.

(** Walk through an operation that should preserve an invariant: sequencing, results,
    reads, log calls and case distinctions are taken care of; known operations come from
    the hint database. *)
Ltac walk :=
  repeat first
    [ progress (auto 1 with hoare nocore)
    | apply preserves_bind; [|intros ?]
    | apply preserves_each; intros ?
    | match goal with
      | |- preserves _ (match ?x with _ => _ end) => destruct x eqn:?
      | |- preserves _ (if ?x then _ else _) => destruct x eqn:?
      end ].
