(* ===== verification/ServerInvariant.v ===== *)
(** * What the server keeps invariant

    [server_inv] ties the sessions, the registry of logged-in users, the parties and the
    dungeon instances together. It holds after any sequence of session management, packets
    and administration ([run_server]). *)

From S2P Require Import Prelude Protocol Codec Security Logging Session Server Handlers.
From S2P Require Import Hoare.
From S2P Require Auth Party Guild Chat Match Dungeon Groups.
From S2P Require Import Inventory.

(** ** The registry *)

(** The two maps are each other's inverse: no user is active in two sessions. *)
Definition registry_ok (r : SessionRegistry) : Prop :=
  ∀ user k, active_users r !! user = Some k ↔
            ∃ record, records r !! k = Some record ∧ UserContext_user_id record = user.

(** A user whose session is another one is refused; otherwise the session becomes the
    user's, and the user's alone. *)
Lemma registerSession_spec k record r :
  registry_ok r →
  let '(registered, r') := registerSession k record r in
  registered = match hasUser (UserContext_user_id record) r with
               | Some j => j =? k
               | None => true
               end ∧
  registry_ok r' ∧
  if registered then records r' = <[k := record]> (records r) else r' = r.
Proof.
  intros Hok. unfold registerSession, hasUser.
  set (r0 := match records r !! k with Some _ => _ | None => r end).
  assert (Hrec : records r0 = records r) by (subst r0; by destruct (records r !! k)).
  assert (Hact : ∀ user j, active_users r0 !! user = Some j ↔ active_users r !! user = Some j ∧ j ≠ k).
  { intros user j. subst r0. destruct (records r !! k) as [previous|] eqn:Ek; cbn.
    - rewrite lookup_delete_Some. split.
      + intros [Hne Hj]. split; [done|]. intros ->. apply Hok in Hj as (rec & Hrec' & <-).
        by simplify_eq.
      + intros [Hj Hne]. split; [|done]. intros <-.
        assert (active_users r !! UserContext_user_id previous = Some k) by (apply Hok; eauto).
        congruence.
    - split; [|tauto]. intros Hj. split; [done|]. intros ->.
      apply Hok in Hj as (rec & Hrec' & _). congruence. }
  assert (Hnew : (∀ j, active_users r !! UserContext_user_id record = Some j → j = k) →
    registry_ok (r0 <| active_users ::= <[UserContext_user_id record := k]> |>
                    <| records ::= <[k := record]> |>)).
  { intros Hown user j. cbn. rewrite Hrec. destruct (decide (j = k)) as [->|Hj].
    - rewrite lookup_insert_eq. rewrite lookup_insert_Some, Hact. naive_solver.
    - rewrite (lookup_insert_ne _ k j) by done. rewrite lookup_insert_Some, Hact.
      rewrite (Hok user j). split.
      + intros [[_ ?]|[_ [? _]]]; [congruence|done].
      + intros Hj'. right. split; [|done]. intros <-.
        apply Hj, Hown, Hok. done. }
  destruct (active_users r !! UserContext_user_id record) as [j|] eqn:E.
  - destruct (j =? k) eqn:Ejk; cbn [negb]; bool_props; [|done]. subst j.
    split_and!; [done|apply Hnew; intros; congruence|]. cbn. by rewrite Hrec.
  - split_and!; [done|by apply Hnew|]. cbn. by rewrite Hrec.
Qed.

Lemma registry_removeSession_spec k r :
  registry_ok r → registry_ok (registry_removeSession k r) ∧
  records (registry_removeSession k r) = delete k (records r).
Proof.
  intros Hok. unfold registry_removeSession. destruct (records r !! k) as [record|] eqn:Ek.
  2:{ split; [done|]. by rewrite delete_id. }
  cbn. split; [|done]. intros user j. cbn. rewrite lookup_delete_Some, (Hok user j).
  setoid_rewrite lookup_delete_Some. split.
  - intros [Hne (rec & Hrec & <-)]. exists rec. split_and!; [|done|done]. intros ->. naive_solver.
  - intros (rec & [Hne Hrec] & <-). split; [|eauto]. intros E.
    assert (active_users r !! UserContext_user_id record = Some k) by (apply Hok; eauto).
    assert (active_users r !! UserContext_user_id record = Some j) by (apply Hok; eauto).
    congruence.
Qed.

Section invariant.
Context {S : Type} `{HashOrder, InventoryStorage S}.
Implicit Types (s : Server S).

Section bounded.
Context (n : Z).

(** The state is consistent, except that the registry may disagree with the session [x];
    the session [live], if any, is one of the server's. At most [n] is the next session or
    party id. *)
Record server_inv (x live : option Z) s : Prop := {
  inv_next : 0 < next_id s <= n;
  inv_next_party : Party.next_party_id (party_service s) <= n;
  inv_heap : map_Forall (λ a o, id o = a ∧ a < next_id s) (heap s);
  inv_sessions : map_Forall (λ k a, a = k ∧ is_Some (heap s !! k)) (sessions s);
  inv_registry : registry_ok (registry s);
  inv_users k : Some k ≠ x →
    records (registry s) !! k = sessions s !! k ≫= λ a, heap s !! a ≫= userContext;
  inv_party : Party.service_ok (party_service s);
  inv_live k : live = Some k → sessions s !! k = Some k
}.

(** *** Changes that keep it *)

Lemma inv_heap_update x live s a o o' :
  server_inv x live s → heap s !! a = Some o → id o' = id o →
  userContext o' = userContext o ∨ x = Some a →
  server_inv x live (s <| heap ::= <[a := o']> |>).
Proof.
  intros [Hn Hm Hh Hs Hr Hu Hp Hl] Ho Hid Hctx. split; cbn; try done.
  - apply map_Forall_insert_2; [|done]. rewrite Hid. by apply Hh.
  - intros k b Hb. destruct (Hs k b Hb) as [-> [o0 Ho0]]. split; [done|].
    destruct (decide (k = a)) as [->|];
      [by rewrite lookup_insert_eq|by rewrite lookup_insert_ne; eauto].
  - intros k Hk. rewrite (Hu k Hk). destruct (sessions s !! k) as [b|] eqn:Eb; [|done]. cbn.
    destruct (Hs _ _ Eb) as [-> _].
    destruct (decide (k = a)) as [->|]; [|by rewrite lookup_insert_ne].
    rewrite lookup_insert_eq, Ho. cbn. destruct Hctx as [->| ->]; [done|]. by destruct Hk.
Qed.

Lemma inv_weaken x live s : server_inv None live s → server_inv x live s.
Proof. intros [Hn Hm Hh Hs Hr Hu Hp Hl]. split; try done. intros k _. by apply Hu. Qed.

Lemma inv_agree live k s :
  server_inv (Some k) live s →
  records (registry s) !! k = (sessions s !! k ≫= λ a, heap s !! a ≫= userContext) →
  server_inv None live s.
Proof.
  intros [Hn Hm Hh Hs Hr Hu Hp Hl] Hk. split; try done. intros j _.
  destruct (decide (j = k)) as [->|]; [done|]. apply Hu. congruence.
Qed.

Lemma inv_registry_set x live s k r :
  server_inv x live s → x = Some k ∨ records r !! k = records (registry s) !! k → registry_ok r →
  (∀ j, j ≠ k → records r !! j = records (registry s) !! j) →
  server_inv x live (s <| registry := r |>).
Proof.
  intros [Hn Hm Hh Hs Hr Hu Hp Hl] Hk Hok Hj. split; try done. cbn. intros j Hx.
  rewrite <- (Hu j Hx). destruct (decide (j = k)) as [->|]; [|auto].
  destruct Hk as [->|]; [|done]. by destruct Hx.
Qed.

Lemma inv_erase_session live k s :
  server_inv (Some k) live s → live ≠ Some k →
  server_inv (Some k) live (s <| sessions ::= delete k |>).
Proof.
  intros [Hn Hm Hh Hs Hr Hu Hp Hl] Hlive. split; cbn; try done.
  - by apply map_Forall_delete.
  - intros j Hj. rewrite lookup_delete_ne by congruence. by apply Hu.
  - intros j Hj. rewrite lookup_delete_ne by congruence. by apply Hl.
Qed.

Lemma inv_set_party x live s p :
  server_inv x live s → Party.service_ok p →
  Party.next_party_id p = Party.next_party_id (party_service s) →
  server_inv x live (s <| party_service := p |>).
Proof. intros [? ? ? ? ? ? ? ?] Hp E. split; cbn; try done. by rewrite E. Qed.

Lemma replaceMemberSession_next old new p :
  Party.next_party_id (Party.replaceMemberSession old new p).2 = Party.next_party_id p.
Proof. unfold Party.replaceMemberSession. by repeat case_match. Qed.

Lemma removeMember_next k p :
  Party.next_party_id (Party.removeMember k p).1.2 = Party.next_party_id p.
Proof. unfold Party.removeMember, Party.disband. by repeat (case_match; simplify_eq/=). Qed.

(** A state that differs in nothing the invariant speaks of. *)
Lemma inv_same x live s s' :
  server_inv x live s →
  next_id s' = next_id s → heap s' = heap s → sessions s' = sessions s →
  registry s' = registry s → party_service s' = party_service s → server_inv x live s'.
Proof.
  intros [? ? ? ? ? ? ? ?] E1 E2 E3 E4 E5. split; rewrite ?E1, ?E2, ?E3, ?E4, ?E5; done.
Qed.

(** *** Session methods keep the id and the user *)

Definition keeps_identity (o o' : Session) : Prop :=
  id o' = id o ∧ userContext o' = userContext o.

Lemma enqueueSend_identity payload t o : keeps_identity o (enqueueSend payload t o).1.2.
Proof. unfold enqueueSend, disconnect. repeat case_match; simplify_eq/=; done. Qed.

Lemma tick_session_identity t o : keeps_identity o (tick_session t o).1.2.
Proof. unfold tick_session, disconnect. repeat case_match; simplify_eq/=; done. Qed.

Lemma recordNonce_identity nonce o : keeps_identity o (recordNonce nonce o).2.
Proof. unfold recordNonce. repeat case_match; done. Qed.

Lemma preserves_identity {A} x live a (d : A) method :
  (∀ o, keeps_identity o (method o).1.2) →
  preserves (server_inv x live) (on_session a d method).
Proof.
  intros Hm. apply preserves_on_session. intros s o Hs Ho. destruct (Hm o).
  eapply inv_heap_update; eauto.
Qed.

Lemma preserves_set_session x live a f :
  (∀ o, keeps_identity o (f o)) → preserves (server_inv x live) (set_session a f).
Proof. intros Hf. by apply preserves_identity. Qed.

Lemma preserves_send x live e a payload : preserves (server_inv x live) (send e a payload).
Proof. apply preserves_identity. intros o. apply enqueueSend_identity. Qed.

Lemma preserves_modify_same x live (f : Server S → Server S) :
  (∀ s, next_id (f s) = next_id s ∧ heap (f s) = heap s ∧ sessions (f s) = sessions s ∧
        registry (f s) = registry s ∧ party_service (f s) = party_service s) →
  preserves (server_inv x live) (modify f).
Proof.
  intros Hf. apply preserves_modify. intros s Hs.
  destruct (Hf s) as (? & ? & ? & ? & ?). by eapply inv_same.
Qed.

Lemma preserves_count_error x live : preserves (server_inv x live) count_error.
Proof. by apply preserves_modify_same. Qed.

#[local] Hint Resolve preserves_send preserves_count_error : hoare.

Lemma preserves_guild_sink x live e call : preserves (server_inv x live) (guild_sink e call).
Proof.
  unfold guild_sink. destruct call. walk.
Qed.

Lemma preserves_chat_sink x live e call : preserves (server_inv x live) (chat_sink e call).
Proof.
  unfold chat_sink. destruct call. walk.
Qed.

#[local] Hint Resolve preserves_guild_sink preserves_chat_sink : hoare.

(** *** Handlers *)

Section packet.
Context (c : Packet) (Hsid : sid c = address c).

(** Between packets, with the packet's session among the server's. *)
Definition packet_inv : Server S → Prop := server_inv None (Some (address c)).

Definition can_register (user : string) s : Prop :=
  match hasUser user (registry s) with Some j => j = sid c | None => True end.

Lemma live_object s :
  packet_inv s → ∃ o, heap s !! address c = Some o ∧ sessions s !! address c = Some (address c).
Proof.
  intros Hs. pose proof (inv_live _ _ _ Hs _ eq_refl) as Hl.
  destruct (inv_sessions _ _ _ Hs _ _ Hl) as [_ [o Ho]]. eauto.
Qed.

(** Attaching a user and registering the session, for a user that can be. *)
Lemma register_inv user context s o :
  packet_inv s → can_register user s → UserContext_user_id context = user →
  heap s !! address c = Some o →
  (registerSession (sid c) context (registry s)).1 = true ∧
  packet_inv (s <| heap ::= <[address c := attachUserContext context o]> |>
                <| registry ::= λ r, (registerSession (sid c) context r).2 |>).
Proof.
  intros Hs Hc Hu Ho. destruct (live_object s Hs) as (o' & Ho' & Hl).
  pose proof (registerSession_spec (sid c) context (registry s) (inv_registry _ _ _ Hs)) as Hr.
  unfold can_register in Hc. rewrite Hu in Hr.
  assert (Hok : match hasUser user (registry s) with Some j => j =? sid c | None => true end = true).
  { destruct (hasUser user (registry s)); [by apply Z.eqb_eq|done]. }
  rewrite Hok in Hr.
  destruct (registerSession (sid c) context (registry s)) as [b r] eqn:Er.
  destruct Hr as (-> & Hreg & Hrec). split; [done|]. unfold packet_inv.
  apply (inv_agree _ (address c)).
  - apply (inv_registry_set _ _ (s <| heap ::= <[address c := attachUserContext context o]> |>)
      (address c)); cbn; rewrite ?Er; cbn; [|by left|done|].
    + eapply inv_heap_update; [by apply inv_weaken|exact Ho|done|by right].
    + intros j Hj. rewrite Hrec, Hsid. by rewrite lookup_insert_ne.
  - cbn. rewrite Er. cbn. rewrite Hrec, Hsid, Hl, lookup_insert_eq. cbn.
    by rewrite lookup_insert_eq.
Qed.

Lemma preserves_register user context (k : bool → M S (option (list byte))) :
  UserContext_user_id context = user →
  preserves packet_inv (k true) →
  triple (λ s, packet_inv s ∧ can_register user s)
    (set_session (address c) (attachUserContext context);;
     registered <- get (λ s, (registerSession (sid c) context (registry s)).1);;
     modify (λ s, s <| registry ::= λ r, (registerSession (sid c) context r).2 |>);;
     k registered) (λ _, packet_inv).
Proof.
  intros Hu Hk s [Hs Hc]. destruct (live_object s Hs) as (o & Ho & Hl).
  destruct (register_inv user context s o Hs Hc Hu Ho) as [Hreg Hinv].
  unfold bind, set_session, on_session, get, modify. rewrite Ho. cbn [registry update_field].
  rewrite Hreg. specialize (Hk _ Hinv).
  cbn in Hk |- *. destruct (k true _) as [[r s'] l]. done.
Qed.

Lemma preserves_reject type event user message encoded :
  preserves packet_inv (reject c type event user message encoded).
Proof. unfold packet_inv, reject. walk. Qed.

Lemma preserves_answer type level event user message encoded :
  preserves packet_inv (Handlers.answer c type level event user message encoded).
Proof. unfold packet_inv, Handlers.answer. walk. Qed.

Lemma preserves_violation why message : preserves packet_inv (violation c why message).
Proof. unfold packet_inv, violation. walk. Qed.

Lemma preserves_unchanged (f : Server S → Server S) :
  (∀ s, next_id (f s) = next_id s ∧ heap (f s) = heap s ∧ sessions (f s) = sessions s ∧
        registry (f s) = registry s ∧ party_service (f s) = party_service s) →
  preserves packet_inv (modify f).
Proof. apply preserves_modify_same. Qed.

Lemma preserves_packet_guild_sink e call : preserves packet_inv (guild_sink e call).
Proof. apply preserves_guild_sink. Qed.

Lemma preserves_packet_chat_sink e call : preserves packet_inv (chat_sink e call).
Proof. apply preserves_chat_sink. Qed.

Lemma preserves_packet_count_error : preserves packet_inv count_error.
Proof. apply preserves_count_error. Qed.

#[local] Hint Resolve preserves_reject preserves_answer preserves_violation
  preserves_packet_guild_sink preserves_packet_chat_sink preserves_packet_count_error : hoare.
#[local] Hint Extern 1 (preserves _ (modify _)) => (by apply preserves_unchanged) : hoare.

Lemma login_inv payload : preserves packet_inv (handle_login c payload).
Proof.
  unfold handle_login, login_fails. destruct (decodeLoginRequest payload) as [request|]; [|walk].
  destruct (negb _); [walk|].
  eapply triple_bind.
  { apply triple_get with (Q := λ existing s, packet_inv s ∧
      hasUser (LoginRequest_user_id request) (registry s) = existing). auto. }
  intros existing. destruct (match existing with Some _ => _ | None => _ end) eqn:Ee.
  { apply triple_pre with packet_inv; [apply preserves_reject|tauto]. }
  assert (Hcan : ∀ s, hasUser (LoginRequest_user_id request) (registry s) = existing →
                 can_register (LoginRequest_user_id request) s).
  { intros s Hs. unfold can_register. rewrite Hs. by destruct existing; bool_props. }
  eapply triple_bind with (R := λ _ s, packet_inv s ∧
    can_register (LoginRequest_user_id request) s).
  { apply triple_get. naive_solver. }
  intros token. eapply triple_bind with (R := λ _ s, packet_inv s ∧
    can_register (LoginRequest_user_id request) s).
  { apply triple_modify. intros s [Hs Hc]. split; [|done].
    by apply (inv_same _ _ s). }
  intros []. apply preserves_register; [done|]. cbn [negb]. walk.
Qed.

(** Logging out: the session's user goes and so does its entry. *)
Lemma clear_inv live k s o :
  server_inv None live s → heap s !! k = Some o →
  (sessions s !! k = None ∨ sessions s !! k = Some k) →
  server_inv None live (s <| heap ::= <[k := clearUserContext o]> |>
                          <| registry ::= registry_removeSession k |>).
Proof.
  intros Hs Ho Hk. apply (inv_agree _ k).
  - destruct (registry_removeSession_spec k (registry s) (inv_registry _ _ _ Hs)) as [Hr Er].
    apply (inv_registry_set _ _ (s <| heap ::= <[k := clearUserContext o]> |>) k); cbn;
      [|by left|done|].
    + eapply inv_heap_update; [by apply inv_weaken|done|done|by right].
    + intros j Hj. rewrite Er. by rewrite lookup_delete_ne.
  - cbn. destruct (registry_removeSession_spec k (registry s) (inv_registry _ _ _ Hs)) as [_ ->].
    rewrite lookup_delete_eq. destruct Hk as [->| ->]; [done|]. cbn.
    by rewrite lookup_insert_eq.
Qed.

Lemma logout_inv payload : preserves packet_inv (handle_logout c payload).
Proof.
  unfold handle_logout. destruct (decodeLogoutRequest payload); [|walk].
  intros s Hs. destruct (live_object s Hs) as (o & Ho & Hl).
  unfold bind, set_session, on_session, modify, log_event, log, ret. rewrite Ho. cbn [fst snd].
  rewrite Hsid. apply clear_inv; auto.
Qed.

(** *** Reconnecting *)

Lemma registry_removeSession_user old r user :
  registry_ok r → hasUser user r = Some old → hasUser user (registry_removeSession old r) = None.
Proof.
  intros Hr Hu. pose proof Hu as (record & Hrec & <-)%Hr. unfold hasUser, registry_removeSession.
  rewrite Hrec. cbn. apply lookup_delete_eq.
Qed.

Definition owned (x : option Z) (user : string) (old : Z) s : Prop :=
  server_inv x (Some (address c)) s ∧ hasUser user (registry s) = Some old.

Lemma owned_modify x user old (f : Server S → Server S) :
  (∀ s, server_inv x (Some (address c)) s → server_inv x (Some (address c)) (f s)) →
  (∀ s, registry (f s) = registry s) → preserves (owned x user old) (modify f).
Proof.
  intros Hf Hr. apply preserves_modify. intros s [Hs Hu]. split; [by apply Hf|by rewrite Hr].
Qed.

(** The old session is one of the server's, and once taken over the user is free. *)
Lemma take_over_inv user old :
  old ≠ sid c →
  triple (owned None user old) (take_over c old)
    (λ _ s, packet_inv s ∧ hasUser user (registry s) = None).
Proof.
  intros Hold. unfold take_over. eapply triple_bind.
  { apply triple_get with (Q := λ found s, owned None user old s ∧ found = Some old).
    intros s [Hs Hu]. split; [done|]. unfold findSession.
    pose proof Hu as (record & Hrec & _)%(inv_registry _ _ _ Hs).
    rewrite (inv_users _ _ _ Hs old) in Hrec by done.
    destruct (sessions s !! old) as [a|] eqn:Ea; [|done].
    by destruct (inv_sessions _ _ _ Hs _ _ Ea) as [-> _]. }
  intros found. apply triple_bind with (R := λ _ s,
    owned (Some old) user old s ∧ sessions s !! old = None).
  2:{ intros previous. apply triple_then_ret.
      apply triple_modify. intros s [[Hs Hu] Hnone].
      destruct (registry_removeSession_spec old (registry s) (inv_registry _ _ _ Hs)) as [Hr Er].
      split; [|by apply registry_removeSession_user; [apply Hs|]].
      apply (inv_agree _ old).
      - apply (inv_registry_set _ _ s old); [done|by left|done|].
        intros j Hj. by rewrite Er, lookup_delete_ne.
      - cbn. by rewrite Er, lookup_delete_eq, Hnone. }
  intros s [Hs ->]. revert s Hs.
  change (triple (owned None user old) (
    previous <- get (λ s, from_option lastSeq 0 (heap s !! old));;
    modify (λ s, s <| party_service ::= λ p, (Party.replaceMemberSession old (sid c) p).2 |>);;
    modify (λ s, s <| guild_service ::= λ g, (Guild.replaceMemberSession old (sid c) g).2 |>);;
    modify (λ s, s <| session_instances ::= move_entry old (sid c) |>);;
    modify (λ s, s <| session_characters ::= move_entry old (sid c) |>);;
    set_session old clearUserContext;;
    modify (λ s, s <| sessions ::= delete old |>);;
    ret previous) (λ _ s, owned (Some old) user old s ∧ sessions s !! old = None)).
  eapply triple_bind; [apply preserves_get|]. intros previous.
  eapply triple_bind; [apply owned_modify; [|done]|].
  { intros s Hs. apply inv_set_party; [done|apply Party.replaceMemberSession_ok, Hs|].
    apply replaceMemberSession_next. }
  intros []. do 3 (eapply triple_bind;
    [apply owned_modify; [intros s Hs; by apply (inv_same _ _ s)|done]|intros []]).
  apply triple_bind with (R := λ _, owned (Some old) user old).
  { apply triple_on_session.
    - intros s [Hs Hu] _. split; [by apply inv_weaken|done].
    - intros s o [Hs Hu] Ho. split; [|done].
      eapply inv_heap_update; [by apply inv_weaken|done|done|by right]. }
  intros []. apply (triple_then_ret _ _ previous (λ s, _ ∧ _)).
  apply triple_modify. intros s [Hs Hu]. split; [split; [|done]|apply lookup_delete_eq].
  apply inv_erase_session; [done|]. rewrite <- Hsid. congruence.
Qed.

Lemma reconnect_inv payload : preserves packet_inv (handle_reconnect c payload).
Proof.
  unfold handle_reconnect, reconnect_fails.
  destruct (decodeSessionReconnectRequest payload) as [request|]; [|walk].
  apply preserves_bind; [walk|]. intros valid. apply preserves_bind; [walk|]. intros _.
  destruct valid as [user|]; [|walk]. eapply triple_bind.
  { apply triple_get with (Q := λ existing s, packet_inv s ∧ hasUser user (registry s) = existing).
    auto. }
  intros existing. apply triple_bind with (R := λ _ s, packet_inv s ∧ can_register user s).
  { destruct existing as [old|].
    - destruct (old =? sid c) eqn:E; bool_props; cbn [negb].
      + apply triple_ret. intros s [Hs Hu]. split; [done|]. unfold can_register. by rewrite Hu.
      + eapply triple_post; [by apply take_over_inv|]. cbn. intros _ s [Hs Hu].
        split; [done|]. unfold can_register. by rewrite Hu.
    - apply triple_ret. intros s [Hs Hu]. split; [done|]. unfold can_register. by rewrite Hu. }
  intros previous. apply preserves_register; [done|]. cbn [negb].
  apply preserves_bind; [|walk]. by apply preserves_set_session.
Qed.

(** *** Matches and dungeons *)

Lemma notify_members_inv instance own frame members :
  preserves packet_inv (notify_members c instance own frame members).
Proof.
  induction members as [|member members IH]; cbn [notify_members]; [walk|].
  apply preserves_bind; [walk|]. intros [a|]; [|walk].
  apply preserves_bind; [|walk]. walk. apply preserves_send.
Qed.

Lemma start_matches_inv user party matches notify :
  preserves packet_inv (start_matches c user party matches notify).
Proof.
  revert notify. induction matches as [|candidate matches IH]; intros notify;
    cbn [start_matches]; [walk|].
  apply preserves_bind; [walk|]. intros created.
  apply preserves_bind; [walk|]. intros _. destruct created as [instance|]; [|unfold match_fails; walk].
  apply preserves_bind; [walk|]. intros _. apply preserves_bind; [walk|]. intros info.
  apply preserves_bind; [|intros; apply IH]. destruct info; [|walk]. apply notify_members_inv.
Qed.

Lemma match_inv payload : preserves packet_inv (handle_match c payload).
Proof.
  unfold handle_match, match_party, match_fails. walk. apply start_matches_inv.
Qed.

Lemma dungeon_enter_inv payload : preserves packet_inv (handle_dungeon_enter c payload).
Proof.
  unfold handle_dungeon_enter, enter_fails. walk.
Qed.

Lemma dungeon_result_inv payload : preserves packet_inv (handle_dungeon_result c payload).
Proof.
  unfold handle_dungeon_result, record_result, result_fails. walk.
Qed.

(** *** The other packets *)

Lemma inventory_update_inv payload : preserves packet_inv (handle_inventory_update c payload).
Proof. unfold handle_inventory_update, inventory_fails. walk. Qed.

Lemma guild_create_inv payload : preserves packet_inv (handle_guild_create c payload).
Proof. unfold handle_guild_create, guild_create_fails. walk. Qed.

Lemma guild_join_inv payload : preserves packet_inv (handle_guild_join c payload).
Proof. unfold handle_guild_join, guild_join_fails. walk. Qed.

Lemma guild_leave_inv payload : preserves packet_inv (handle_guild_leave c payload).
Proof. unfold handle_guild_leave, guild_leave_fails. walk. Qed.

Lemma chat_inv payload : preserves packet_inv (handle_chat c payload).
Proof. unfold handle_chat, chat_fails, send_global, send_party. walk. Qed.

Lemma dispatch_inv type payload : preserves packet_inv (dispatch c type payload).
Proof.
  unfold dispatch. destruct type;
    auto using login_inv, logout_inv, reconnect_inv, match_inv, dungeon_enter_inv,
      dungeon_result_inv, inventory_update_inv, guild_create_inv, guild_join_inv,
      guild_leave_inv, chat_inv; walk.
Qed.

Lemma check_replay_inv header : preserves packet_inv (check_replay c header).
Proof.
  unfold check_replay. walk.
  - apply preserves_identity. intros o. pose proof (recordNonce_identity (SecurityHeader_nonce header) o) as Ho.
    by destruct (recordNonce _ _).
  - by apply preserves_set_session.
Qed.

#[local] Hint Resolve check_replay_inv dispatch_inv : hoare.

Lemma process_packet_inv type payload : preserves packet_inv (process_packet c type payload).
Proof.
  unfold process_packet, reject_version, open_payload. walk.
Qed.

End packet.

(** A packet that arrives on a session of the server. *)
Lemma handlePacket_inv e k header payload time :
  triple (λ s, server_inv None None s ∧ is_Some (sessions s !! k))
    (handlePacket e k header payload time) (λ _, server_inv None None).
Proof.
  unfold handlePacket.
  assert (Hlive : ∀ s, server_inv None None s ∧ is_Some (sessions s !! k) →
            server_inv None (Some k) s ∧ ∃ o, heap s !! k = Some o ∧ id o = k).
  { intros s [Hs [a Ha]]. destruct (inv_sessions _ _ _ Hs _ _ Ha) as [-> [o Ho]]. split.
    - destruct Hs. split; try done. intros j [= <-]. done.
    - destruct (inv_heap _ _ _ Hs _ _ Ho). eauto. }
  apply triple_bind with (R := λ _ s,
    server_inv None (Some k) s ∧ ∃ o, heap s !! k = Some o ∧ id o = k).
  { apply triple_modify. intros s Hs. destruct (Hlive s Hs) as [Hinv Ho].
    split; [by apply (inv_same _ _ s)|done]. }
  intros _. eapply triple_bind.
  { apply triple_get with (Q := λ o s, server_inv None (Some k) s ∧ id <$> o = Some k).
    intros s [Hs (o & -> & Ho)]. split; [done|]. cbn. by rewrite Ho. }
  intros [o|]; [|intros s [_ [=]]].
  eapply triple_pre with (P := λ s, server_inv None (Some k) s ∧ id o = k);
    [|naive_solver].
  apply triple_pure. intros Ho.
  apply triple_post with (λ _, server_inv None (Some k)); [|intros _ s []; by split].
  apply preserves_bind; [walk|]. intros _.
  apply preserves_bind; [by apply preserves_set_session|]. intros _.
  apply preserves_bind; [by apply preserves_set_session|]. intros _.
  set (c := Build_Packet _ _ _ _ _ _). by apply (process_packet_inv c).
Qed.

(** *** Every operation of the server *)

(** Removing a session, whether or not it is one of the server's. *)
Lemma removeSession_inv e k : preserves (server_inv None None) (removeSession e k).
Proof.
  unfold removeSession. apply triple_bind with (R := λ found s,
    server_inv None None s ∧ sessions s !! k = found).
  { by apply triple_get. }
  intros found. apply triple_bind with (R := λ _ s, server_inv (Some k) None s ∧ sessions s !! k = None).
  { destruct found as [a|].
    - eapply triple_bind; [apply preserves_get|]. intros object.
      eapply triple_bind with (R := λ _ s, server_inv None None s ∧ sessions s !! k = Some a).
      { destruct object; [by apply triple_log|by apply triple_ret]. }
      intros []. apply triple_bind with (R := λ _, server_inv (Some k) None).
      { apply triple_on_session.
        - intros s [Hs _] _. by apply inv_weaken.
        - intros s o [Hs Hk] Ho. destruct (inv_sessions _ _ _ Hs _ _ Hk) as [-> _].
          eapply inv_heap_update; [by apply inv_weaken|done|done|by right]. }
      intros []. apply triple_modify. intros s Hs.
      split; [by apply inv_erase_session|apply lookup_delete_eq].
    - apply triple_ret. intros s [Hs Hk]. split; [by apply inv_weaken|done]. }
  intros []. apply triple_bind with (R := λ _, server_inv None None).
  { apply triple_modify. intros s [Hs Hk].
    destruct (registry_removeSession_spec k (registry s) (inv_registry _ _ _ Hs)) as [Hr Er].
    apply (inv_agree _ k); [|cbn; by rewrite Er, lookup_delete_eq, Hk].
    apply (inv_registry_set _ _ s k); [done|by left|done|].
    intros j Hj. by rewrite Er, lookup_delete_ne. }
  intros []. apply preserves_bind.
  { apply preserves_modify. intros s Hs. apply inv_set_party; [done|apply Party.removeMember_ok, Hs|].
    apply removeMember_next. }
  intros []. walk; by apply preserves_modify_same.
Qed.

#[local] Hint Resolve removeSession_inv : hoare.

Lemma tick_sessions_inv now entries : preserves (server_inv None None) (tick_sessions now entries).
Proof.
  induction entries as [|[k a] entries IH]; cbn [tick_sessions]; [walk|].
  apply preserves_bind; [|intros; apply preserves_bind; [exact IH|walk]].
  apply preserves_identity. apply tick_session_identity.
Qed.

#[local] Hint Resolve tick_sessions_inv : hoare.

Lemma tick_inv e now : preserves (server_inv None None) (tick e now).
Proof. unfold tick. walk. Qed.

Lemma forceDisconnect_inv e k why trace :
  preserves (server_inv None None) (forceDisconnect e k why trace).
Proof. unfold forceDisconnect. walk. Qed.

Lemma forceTerminateSession_inv e k why trace :
  preserves (server_inv None None) (forceTerminateSession e k why trace).
Proof. unfold forceTerminateSession. walk. Qed.

End bounded.

Lemma createSession_inv n config now trace s :
  server_inv n None None s → n + 1 < 2 ^ 64 →
  server_inv (n + 1) None None (createSession config now trace s).1.2.
Proof.
  intros [Hn Hm Hh Hs Hr Hu Hp Hl] Hb. cbn -[emplace].
  assert (Hfresh : heap s !! next_id s = None).
  { apply eq_None_not_Some. intros [o Ho]. destruct (Hh _ _ Ho). lia. }
  assert (Hnone : sessions s !! next_id s = None).
  { apply eq_None_not_Some. intros [a Ha]. destruct (Hs _ _ Ha) as [-> [? ?]]. congruence. }
  assert (En : u64 (next_id s + 1) = next_id s + 1).
  { unfold u64, wrap. apply Z.mod_small. lia. }
  rewrite emplace_fresh by done. split; cbn; rewrite ?En; try done; [lia..| | |].
  - apply map_Forall_insert_2; [cbn; lia|]. intros k o Ho. destruct (Hh k o Ho). lia.
  - apply map_Forall_insert_2; [rewrite lookup_insert_eq; eauto|].
    intros k a Ha. destruct (Hs _ _ Ha) as [-> [o Ho]]. split; [done|].
    rewrite lookup_insert_ne by congruence. eauto.
  - intros k _. rewrite (Hu k) by done. destruct (decide (k = next_id s)) as [->|Hne].
    + rewrite Hnone, lookup_insert_eq. cbn. by rewrite lookup_insert_eq.
    + rewrite lookup_insert_ne by done. destruct (sessions s !! k) as [a|] eqn:Ea; [|done].
      destruct (Hs _ _ Ea) as [-> _]. cbn. by rewrite lookup_insert_ne.
Qed.

(** ** Reachable servers *)

(** What the transport around the server does to a session it holds. *)
Inductive session_op :=
  | SendFrame (payload : list byte) (now : Z)
  | TakeFrame
  | HeartbeatSent (now : Z)
  | TlsEstablished (handshake_time : Z)
  | CloseSession (why : string).

Definition run_session_op (op : session_op) (s : Session) : unit * Session * list LogEntry :=
  match op with
  | SendFrame payload now => let '(_, s, logs) := enqueueSend payload now s in (tt, s, logs)
  | TakeFrame => (tt, (dequeueSend s).2, [])
  | HeartbeatSent now => (tt, markHeartbeatSent now s, [])
  | TlsEstablished handshake_time => (tt, markTlsEstablished handshake_time s, [])
  | CloseSession why => let '(s, logs) := disconnect why s in (tt, s, logs)
  end.

Lemma run_session_op_identity op o :
  keeps_identity o (run_session_op op o).1.2 ∧ lastSeq (run_session_op op o).1.2 = lastSeq o.
Proof.
  destruct op; unfold run_session_op, enqueueSend, dequeueSend, disconnect;
    repeat case_match; simplify_eq/=; done.
Qed.

(** What the program around the server can do with it: its methods, packets on its
    sessions, the sessions themselves, and the services it hands out with [partyService]
    and [instanceManager]. *)
Inductive server_op :=
  | OpCreate (config : SessionConfig) (now : Z) (trace : string)
  | OpRemove (e : Env) (session : Z)
  | OpTick (e : Env) (now : Z)
  | OpPacket (e : Env) (session : Z) (header : FrameHeader) (payload : list byte) (now : Z)
  | OpDisconnect (e : Env) (session : Z) (why trace : string)
  | OpTerminate (e : Env) (session : Z) (why trace : string)
  | OpParty (op : Party.party_op)
  | OpInstance (op : Dungeon.instance_op)
  | OpSession (address : Z) (op : session_op).

Definition run_server_op (op : server_op) : M S unit :=
  match op with
  | OpCreate config now trace => createSession config now trace;; ret tt
  | OpRemove e session => removeSession e session
  | OpTick e now => tick e now
  | OpPacket e session header payload now =>
    found <- get (findSession session);;
    match found with
    | Some address => handlePacket e address header payload now;; ret tt
    | None => ret tt
    end
  | OpDisconnect e session why trace => forceDisconnect e session why trace;; ret tt
  | OpTerminate e session why trace => forceTerminateSession e session why trace;; ret tt
  | OpParty op => modify (λ s, s <| party_service ::= λ p, Party.run_op p op |>)
  | OpInstance op => modify (λ s, s <| instance_manager ::= λ m, Dungeon.run_op m op |>)
  | OpSession address op => on_session address tt (run_session_op op)
  end.

Definition run_server (ops : list server_op) s : Server S :=
  foldl (λ s op, (run_server_op op s).1.2) s ops.

Lemma server_inv_grow n m x live s :
  server_inv n x live s → n <= m → server_inv m x live s.
Proof. intros [? ? ? ? ? ? ? ?] Hnm. split; try done; lia. Qed.

Lemma party_op_inv n op s :
  server_inv n None None s → n + 1 < 2 ^ 64 →
  server_inv (n + 1) None None (s <| party_service ::= λ p, Party.run_op p op |>).
Proof.
  intros [? ? ? ? ? ? Hp ?] Hb. split; cbn; try done; [lia| |].
  - trans (Party.next_party_id (party_service s) + 1); [|lia].
    apply Party.run_op_next; [done|lia].
  - apply Party.run_op_ok; [done|lia].
Qed.

Lemma run_server_op_inv n op s :
  server_inv n None None s → n + 1 < 2 ^ 64 →
  server_inv (n + 1) None None (run_server_op op s).1.2.
Proof.
  intros Hs Hb.
  assert (Hgrow : ∀ {A} (m : M S A), preserves (server_inv n None None) m →
            server_inv (n + 1) None None (m s).1.2).
  { intros A m Hm. apply (server_inv_grow n); [by apply Hm|lia]. }
  destruct op as [config now trace|e k|e now|e k header payload now|e k why trace|
                  e k why trace|op|op|a op]; unfold run_server_op.
  - by apply createSession_inv.
  - apply Hgrow, removeSession_inv.
  - apply Hgrow, tick_inv.
  - apply Hgrow. apply triple_bind with (R := λ found s,
      server_inv n None None s ∧ findSession k s = found).
    { by apply triple_get. }
    intros [a|]; [|apply triple_ret; tauto]. apply triple_then_ret.
    apply (triple_pre (λ s, server_inv n None None s ∧ is_Some (sessions s !! a)));
      [apply handlePacket_inv|].
    intros s' [Hs' Ha]. split; [done|]. unfold findSession in Ha.
    destruct (inv_sessions _ _ _ _ Hs' _ _ Ha) as [-> _]. eauto.
  - apply Hgrow, triple_then_ret, forceDisconnect_inv.
  - apply Hgrow, triple_then_ret, forceTerminateSession_inv.
  - by apply party_op_inv.
  - apply Hgrow, preserves_modify_same. done.
  - apply Hgrow, preserves_identity. intros o. apply run_session_op_identity.
Qed.

Lemma run_server_inv n ops s :
  server_inv n None None s → n + Z.of_nat (length ops) < 2 ^ 64 →
  server_inv (n + Z.of_nat (length ops)) None None (run_server ops s).
Proof.
  revert n s. induction ops as [|op ops IH]; intros n s Hs Hb; cbn [length] in *.
  - by rewrite Z.add_0_r.
  - replace (n + Z.of_nat (Datatypes.S (length ops)))
      with (n + 1 + Z.of_nat (length ops)) by lia.
    apply (IH _ (run_server_op op s).1.2); [apply run_server_op_inv; [done|lia]|lia].
Qed.

Lemma new_Server_inv (storage : S) policy now :
  server_inv 1 None None (new_Server storage policy now).1.
Proof.
  split; cbn; try done; try lia.
  - intros user k. cbn. rewrite !lookup_empty. split; [done|]. by intros (? & [=] & _).
  - apply Party.new_PartyService_ok.
Qed.

End invariant.

#[export] Hint Resolve preserves_send preserves_count_error preserves_guild_sink
  preserves_chat_sink : hoare.
