(* ===== verification/Idle.v ===== *)
(** * Match queue and dungeon instances under the handlers

    What the handlers leave in the match queue and do to the dungeon instances: the queue
    is empty between packets, and no packet starts an instance. *)

From S2P Require Import Prelude Protocol Codec Security Logging Session Server Handlers.
From S2P Require Import Hoare ServerInvariant.
From S2P Require Auth Party Guild Chat Match Dungeon.
From S2P Require Import Inventory.

Section idle.
Context {S : Type} `{HashOrder, InventoryStorage S}.
Implicit Types (s : Server S).

(** A predicate on the match queue, the instances and the policy only. *)
Section about.
Context (Q : Match.MatchQueue → Dungeon.InstanceManager → gmap Z Z → SecurityPolicy → Prop).

Definition about s : Prop :=
  Q (match_queue s) (instance_manager s) (party_instances s) (security_policy s).

#[local] Hint Extern 1 (preserves about (modify _)) =>
  (apply preserves_modify; intros ? Hs; exact Hs) : hoare.
#[local] Hint Extern 1 (preserves about (on_session _ _ _)) =>
  (apply preserves_on_session; intros ? ? Hs _; exact Hs) : hoare.

#[local] Hint Extern 1 (preserves about count_error) =>
  (apply preserves_modify; intros ? Hs; exact Hs) : hoare.
#[local] Hint Extern 1 (preserves about (set_session _ _)) =>
  (apply preserves_on_session; intros ? ? Hs _; exact Hs) : hoare.
#[local] Hint Extern 1 (preserves about (send _ _ _)) =>
  (apply preserves_on_session; intros ? ? Hs _; exact Hs) : hoare.

Lemma guild_sink_about e call : preserves about (guild_sink e call).
Proof. unfold guild_sink. destruct call. walk. Qed.

Lemma chat_sink_about e call : preserves about (chat_sink e call).
Proof. unfold chat_sink. destruct call. walk. Qed.

#[local] Hint Resolve guild_sink_about chat_sink_about : hoare.

Lemma notify_members_about c instance own frame members :
  preserves about (notify_members c instance own frame members).
Proof.
  induction members as [|member members IH]; cbn [notify_members]; [walk|].
  apply preserves_bind; [walk|]. intros found. apply preserves_bind; [walk|]. intros _. exact IH.
Qed.

Lemma removeSession_about e k : preserves about (removeSession e k).
Proof. unfold removeSession. walk. Qed.

#[local] Hint Resolve removeSession_about : hoare.

Lemma tick_about e now : preserves about (tick e now).
Proof.
  unfold tick. walk. rename a into entries.
  induction entries as [|[k a] entries IH]; cbn [tick_sessions]; [walk|].
  apply preserves_bind; [walk|]. intros. apply preserves_bind; [apply IH|walk].
Qed.

Lemma forceDisconnect_about e k why trace : preserves about (forceDisconnect e k why trace).
Proof. unfold forceDisconnect. walk. Qed.

#[local] Hint Resolve tick_about forceDisconnect_about : hoare.

(** The handlers other than those of matches and dungeons. *)
Definition elsewhere (type : PacketType) : Prop :=
  match type with
  | PT_MatchReq | PT_DungeonEnterReq | PT_DungeonResultNotify => False
  | _ => True
  end.

Lemma dispatch_about c type payload :
  elsewhere type → preserves about (dispatch c type payload).
Proof.
  intros Ht. unfold dispatch. destruct type; try done;
    unfold handle_login, handle_logout, handle_reconnect, take_over, handle_inventory_update,
      handle_guild_create, handle_guild_join, handle_guild_leave, handle_chat, send_global,
      send_party, login_fails, reconnect_fails, inventory_fails, guild_create_fails,
      guild_join_fails, guild_leave_fails, chat_fails; walk.
Qed.

#[local] Hint Resolve dispatch_about : hoare.

(** Every packet, when the three handlers left out keep it too. *)
Lemma handlePacket_about e a header payload time :
  (∀ c payload, preserves about (handle_match c payload)) →
  (∀ c payload, preserves about (handle_dungeon_enter c payload)) →
  (∀ c payload, preserves about (handle_dungeon_result c payload)) →
  preserves about (handlePacket e a header payload time).
Proof.
  intros Hm He Hr. unfold handlePacket, process_packet, reject_version, open_payload, check_replay.
  walk. destruct (PacketType_of_u16 _); first [by apply dispatch_about|apply Hm|apply He|apply Hr].
Qed.

#[local] Hint Extern 1 (preserves about (log_event _ _ _ _)) => (apply preserves_log) : hoare.

(** Every operation of a server, likewise. *)
Lemma run_server_op_about op :
  (∀ c payload, preserves about (handle_match c payload)) →
  (∀ c payload, preserves about (handle_dungeon_enter c payload)) →
  (∀ c payload, preserves about (handle_dungeon_result c payload)) →
  (∀ q m p y op', op = OpInstance op' → Q q m p y → Q q (Dungeon.run_op m op') p y) →
  preserves about (run_server_op op).
Proof.
  intros Hm He Hr Hop.
  assert (Hp : ∀ e a h p t, preserves about (handlePacket e a h p t)).
  { intros. by apply handlePacket_about. }
  destruct op; cbn [run_server_op]; unfold createSession, forceTerminateSession; walk.
  apply preserves_modify. intros s Hs. by apply Hop.
Qed.

End about.

Lemma run_server_about Q ops s :
  (∀ op, op ∈ ops → preserves (about Q) (run_server_op op)) →
  about Q s → about Q (run_server ops s).
Proof.
  revert s. induction ops as [|op ops IH]; intros s Hop Hs; [done|].
  cbn [run_server foldl]. apply IH; [set_solver|]. apply Hop; [set_solver|done].
Qed.

(** ** The match queue *)

Definition queue_empty s : Prop := Match.queue (match_queue s) = [].

Lemma enqueue_empty candidate q :
  Match.queue q = [] →
  (Match.enqueue candidate q).1 = negb (Match.candidate_party_id candidate =? 0) &&
    Match.size_allowed (Match.rule q) (Match.party_size candidate) ∧
  Match.queue (Match.enqueue candidate q).2 =
    if (Match.enqueue candidate q).1 then [candidate] else [].
Proof.
  intros Hq. unfold Match.enqueue.
  destruct (Match.candidate_party_id candidate =? 0); [done|].
  destruct (Match.size_allowed _ _); [|done]. cbn [negb].
  rewrite Hq. cbn. by rewrite Hq.
Qed.

Lemma findMatch_alone now q candidate :
  Match.queue q = [candidate] → Match.findMatch now q = (None, q).
Proof. intros Hq. unfold Match.findMatch. by rewrite Hq. Qed.

Lemma cancel_alone candidate q :
  Match.queue q = [candidate] →
  Match.queue (Match.cancel (Match.candidate_party_id candidate) q).2 = [].
Proof.
  intros Hq. unfold Match.cancel. rewrite Hq, filter_cons_False by (intros Hc; by apply Hc).
  done.
Qed.

(** What [start_matches] does for the party of the candidate alone. *)
Definition match_started (party : Z) (s0 s : Server S) : Prop :=
  queue_empty s ∧
  instance_manager s = (Dungeon.createInstance party (party_service s0) (instance_manager s0)).2 ∧
  party_instances s = <[party := Dungeon.next_instance_id (instance_manager s0)]> (party_instances s0).

Definition match_success (c : Packet) (party instance : Z) : MatchFoundNotify := {|
  MatchFoundNotify_success := true; MatchFoundNotify_code := "OK";
  MatchFoundNotify_message := "Match found";
  MatchFoundNotify_party_id := party;
  MatchFoundNotify_instance_id := instance;
  MatchFoundNotify_endpoint := "dungeon.local:7777";
  MatchFoundNotify_ticket := generateTraceId (ticket_draws (env c) instance) |}.

Lemma start_alone c user candidate s info :
  let party := Match.candidate_party_id candidate in
  let instance := Dungeon.next_instance_id (instance_manager s) in
  queue_empty s → Party.getPartyInfo party (party_service s) = Some info →
  let result := start_matches c user party [candidate] None s in
  result.1.1 = inr (Some (match_success c party instance)) ∧ match_started party s result.1.2.
Proof.
  intros party instance Hq Hi result. subst result.
  assert (Hc : (Dungeon.createInstance party (party_service s) (instance_manager s)).1 =
               Some instance).
  { unfold Dungeon.createInstance. by rewrite Hi. }
  cbn [start_matches]. fold party. rewrite Z.eqb_refl.
  rewrite run_get, Hc, run_modify. cbn beta iota zeta. rewrite run_modify, run_get.
  cbn [party_service update_field Server_rebuild]. rewrite Hi.
  rewrite run_bind. split; [done|]. unfold ret. cbn [fst snd].
  apply (notify_members_about (λ q m p _, Match.queue q = [] ∧
    m = (Dungeon.createInstance party (party_service s) (instance_manager s)).2 ∧
    p = <[party := instance]> (party_instances s))). done.
Qed.

(** The end of [match_party]. *)
Definition finish_match (c : Packet) (user : string)
    (started : option (list byte) + option MatchFoundNotify) : M S (option (list byte)) :=
  match started with
  | inl reply => ret reply
  | inr None => match_fails c (Some user) "MATCH_NOT_FOUND" "Match not found"
  | inr (Some notify) =>
    Handlers.answer c PT_MatchFoundNotify "info" "match_found" user
      (MatchFoundNotify_message notify) (encodeMatchFoundNotify notify)
  end.

Definition party_candidate (c : Packet) (party : Z) (info : Party.PartyInfo)
    : Match.MatchCandidate := {|
  Match.candidate_party_id := party; Match.mmr := 0;
  Match.party_size := Z.of_nat (length (Party.PartyInfo_members info));
  Match.enqueue_time := now c |}.

(** On an empty queue the party is enqueued, finds nobody, is taken out again and matched
    with itself. *)
Lemma match_party_alone c user party info s :
  queue_empty s →
  ∃ q, Match.queue q = [] ∧ Match.rule q = Match.rule (match_queue s) ∧
  (match_party c user party info s).1 =
    ((if negb (party =? 0) && Match.size_allowed (Match.rule (match_queue s))
                               (Z.of_nat (length (Party.PartyInfo_members info)))
     then bind (start_matches c user party [party_candidate c party info] None)
            (finish_match c user)
     else match_fails c (Some user) "QUEUE_REJECTED" "Unable to enqueue for match")
       (s <| match_queue := q |>)).1.
Proof.
  intros Hq. destruct (enqueue_empty (party_candidate c party info) (match_queue s) Hq) as [E1 E2].
  change (Match.candidate_party_id _) with party in E1.
  change (Match.party_size _) with (Z.of_nat (length (Party.PartyInfo_members info))) in E1.
  unfold match_party. fold (party_candidate c party info).
  rewrite run_get, run_modify, <- E1. cbn beta.
  assert (Hrule : Match.rule (Match.enqueue (party_candidate c party info) (match_queue s)).2 =
                  Match.rule (match_queue s)) by (unfold Match.enqueue; by repeat case_match).
  destruct (Match.enqueue (party_candidate c party info) (match_queue s)).1 eqn:Eq; cbn [negb].
  2:{ by exists (Match.enqueue (party_candidate c party info) (match_queue s)).2. }
  set (q1 := (Match.enqueue (party_candidate c party info) (match_queue s)).2) in *.
  exists (Match.cancel party q1).2. split_and!.
  - by apply (cancel_alone (party_candidate c party info)).
  - rewrite <- Hrule. unfold Match.cancel. by case_match.
  - rewrite run_get, run_modify. cbn [match_queue update_field Server_rebuild].
    fold q1. rewrite (findMatch_alone _ _ _ E2). cbn [fst snd].
    rewrite run_bind, run_modify. cbn [fst snd]. reflexivity.
Qed.

Definition on_queue (P : list Match.MatchCandidate → Prop)
    (q : Match.MatchQueue) (_ : Dungeon.InstanceManager) (_ : gmap Z Z) (_ : SecurityPolicy) : Prop :=
  P (Match.queue q).

Lemma handle_match_queue c payload : preserves queue_empty (handle_match c payload).
Proof.
  assert (Hmod : ∀ f : Server S → Server S, (∀ s, match_queue (f s) = match_queue s) →
            preserves queue_empty (modify f)).
  { intros f Hf. apply preserves_modify. unfold queue_empty. intros s. by rewrite Hf. }
  assert (Hfail : ∀ user code message, preserves queue_empty (match_fails c user code message)).
  { intros. unfold match_fails, reject. walk; by apply Hmod. }
  assert (Hstart : ∀ user party l notify,
            preserves queue_empty (start_matches c user party l notify)).
  { intros user party l. induction l as [|candidate l IH]; intros notify; cbn [start_matches];
      [walk|].
    apply preserves_bind; [walk|]. intros created. apply preserves_bind; [by apply Hmod|].
    intros _. destruct created; [|walk; apply Hfail].
    apply preserves_bind; [by apply Hmod|]. intros _. apply preserves_bind; [walk|].
    intros info. apply preserves_bind; [|intros; apply IH]. destruct info; [|walk].
    apply (notify_members_about (on_queue (λ q, q = []))). }
  assert (Hmatched : ∀ (accepted : bool) user party info s, Match.queue (match_queue s) = [] →
    queue_empty ((if accepted
     then bind (start_matches c user party [party_candidate c party info] None)
            (finish_match c user)
     else match_fails c (Some user) "QUEUE_REJECTED" "Unable to enqueue for match") s).1.2).
  { intros accepted user party info s Hs. destruct accepted; [|by apply Hfail].
    revert s Hs. apply (preserves_bind queue_empty); [apply Hstart|]. intros started. unfold finish_match. walk. }
  assert (Hparty : ∀ user party info, preserves queue_empty (match_party c user party info)).
  { intros user party info s Hs.
    destruct (match_party_alone c user party info s Hs) as (q & Hq & _ & ->).
    by apply Hmatched. }
  unfold handle_match. walk.
Qed.

Lemma run_server_queue ops s : queue_empty s → queue_empty (run_server ops s).
Proof.
  apply (run_server_about (on_queue (λ q, q = []))). intros op _.
  assert (Hmod : ∀ f : Server S → Server S, (∀ s, match_queue (f s) = match_queue s) →
            preserves (about (on_queue (λ q, q = []))) (modify f)).
  { intros f Hf. apply preserves_modify. unfold about, on_queue. intros s'. by rewrite Hf. }
  apply run_server_op_about; try done; [apply handle_match_queue|..]; intros c payload.
  - unfold handle_dungeon_enter, enter_fails, reject. walk; by apply Hmod.
  - unfold handle_dungeon_result, record_result, result_fails, reject. walk; by apply Hmod.
Qed.

(** ** Instances that are not being played *)

Definition not_playing (r : Dungeon.InstanceRecord) : Prop :=
  Dungeon.state r = Dungeon.Waiting ∨ Dungeon.state r = Dungeon.Ready.

Lemma createInstance_not_playing party parties m :
  map_Forall (λ _, not_playing) (Dungeon.instances m) →
  map_Forall (λ _, not_playing) (Dungeon.instances (Dungeon.createInstance party parties m).2).
Proof.
  intros Hm. unfold Dungeon.createInstance. destruct (Party.getPartyInfo _ _); [|done].
  cbn -[emplace]. intros k r. rewrite lookup_emplace.
  destruct (Dungeon.instances m !! k) as [r0|] eqn:Er; [intros [= <-]; eauto|].
  case_decide; [|done]. intros [= <-]. by left.
Qed.

(** Of the changes a packet asks for, only the one to Ready is possible. *)
Lemma requestTransition_not_playing k next parties m :
  map_Forall (λ _, not_playing) (Dungeon.instances m) → next ≠ Dungeon.Terminate →
  next ≠ Dungeon.Playing →
  map_Forall (λ _, not_playing)
    (Dungeon.instances (Dungeon.requestTransition k next parties m).2) ∧
  (next ≠ Dungeon.Ready → Dungeon.requestTransition k next parties m = (false, m)).
Proof.
  intros Hm Ht Hp. unfold Dungeon.requestTransition.
  destruct (Dungeon.instances m !! k) as [r|] eqn:Er; [|done].
  case_bool_decide; [done|]. pose proof (Hm _ _ Er) as Hr.
  destruct (Dungeon.transitionAllowed _ _) eqn:Ea; [|done]. cbn [negb].
  assert (next = Dungeon.Ready) as ->.
  { by destruct Hr as [Hr|Hr]; rewrite Hr in Ea; destruct next. }
  destruct (_ && _); [done|]. split; [|done]. cbn. apply map_Forall_insert_2; [by right|done].
Qed.


Definition no_play (_ : Match.MatchQueue) (m : Dungeon.InstanceManager) (_ : gmap Z Z)
    (_ : SecurityPolicy) : Prop :=
  map_Forall (λ _, not_playing) (Dungeon.instances m).

Lemma no_play_modify (f : Server S → Server S) :
  (∀ s, about no_play s → about no_play (f s)) → preserves (about no_play) (modify f).
Proof. apply preserves_modify. Qed.

Lemma start_matches_no_play c user party l notify :
  preserves (about no_play) (start_matches c user party l notify).
Proof.
  revert notify. induction l as [|candidate l IH]; intros notify; cbn [start_matches]; [walk|].
  apply preserves_bind; [walk|]. intros created. apply preserves_bind.
  { apply preserves_modify. intros s Hs. by apply createInstance_not_playing. }
  intros _. destruct created; [|unfold match_fails, reject; walk; by apply preserves_modify].
  apply preserves_bind; [by apply preserves_modify|]. intros _. apply preserves_bind; [walk|].
  intros info. apply preserves_bind; [|intros; apply IH]. destruct info; [|walk].
  apply notify_members_about.
Qed.

Lemma run_server_no_play ops s :
  Forall (λ op, ∀ op', op ≠ OpInstance op') ops →
  about no_play s → about no_play (run_server ops s).
Proof.
  intros Hops. apply run_server_about. intros op Hop.
  rewrite Forall_forall in Hops. specialize (Hops op Hop).
  apply run_server_op_about; [..|by intros q m p y op' E; destruct (Hops op' E)]; intros c payload.
  - pose proof start_matches_no_play.
    unfold handle_match, match_party, match_fails, reject. walk; by apply preserves_modify.
  - unfold handle_dungeon_enter, enter_fails, reject. walk; try by apply preserves_modify.
    apply preserves_modify. intros s' Hs. by apply requestTransition_not_playing.
  - unfold handle_dungeon_result, record_result, result_fails, reject.
    walk; try by apply preserves_modify.
    apply preserves_modify. intros s' Hs. apply requestTransition_not_playing; [done|..];
      by destruct (DungeonResultNotify_result _).
Qed.

(** ** The security policy *)

Definition has_policy policy (_ : Match.MatchQueue) (_ : Dungeon.InstanceManager)
    (_ : gmap Z Z) (p : SecurityPolicy) : Prop := p = policy.

Lemma run_server_policy ops s : security_policy (run_server ops s) = security_policy s.
Proof.
  set (policy := security_policy s).
  enough (Hp : about (has_policy policy) (run_server ops s)) by exact Hp.
  apply run_server_about; [|done]. intros op _.
  assert (Hmod : ∀ f : Server S → Server S, (∀ s, security_policy (f s) = security_policy s) →
            preserves (about (has_policy policy)) (modify f)).
  { intros f Hf. apply preserves_modify. unfold about, has_policy. intros s'. by rewrite Hf. }
  assert (Hstart : ∀ c user party l notify,
            preserves (about (has_policy policy)) (start_matches c user party l notify)).
  { intros c user party l. induction l as [|candidate l IH]; intros notify; cbn [start_matches];
      [walk|].
    apply preserves_bind; [walk|]. intros created. apply preserves_bind; [by apply Hmod|].
    intros _. destruct created; [|unfold match_fails, reject; walk; by apply Hmod].
    apply preserves_bind; [by apply Hmod|]. intros _. apply preserves_bind; [walk|].
    intros info. apply preserves_bind; [|intros; apply IH]. destruct info; [|walk].
    apply notify_members_about. }
  apply run_server_op_about; try done; intros c payload.
  - unfold handle_match, match_party, match_fails, reject. walk; by apply Hmod.
  - unfold handle_dungeon_enter, enter_fails, reject. walk; by apply Hmod.
  - unfold handle_dungeon_result, record_result, result_fails, reject. walk; by apply Hmod.
Qed.

End idle.
