(* ===== verification/ServerProperties.v ===== *)
(** * Properties of the server

    What holds of every server that its program and its clients can bring about. *)

From S2P Require Auth Party Guild Chat Match Dungeon.
From S2P Require Import Inventory.
From S2P Require Import Prelude Wire Protocol Codec Security Logging Session Server.
From S2P Require Import Handlers Hoare ServerInvariant Idle.

(** ** A server to try things on *)

Definition sample_env : Env := {|
  trace_draws := [1]; token_draws := [171; 205]; ticket_draws := λ i, [i];
  seed_draw := λ i, 40 + i; send_time := λ _, 0; item_clock := λ _, [5; 6] |}.

Definition sample_header (type : PacketType) : FrameHeader := {|
  FrameHeader_length := 0; FrameHeader_type := PacketType_to_u16 type;
  FrameHeader_version := 1 |}.

(** [packet session type payload] is a packet on a session at time 10. *)
Definition packet (session : Z) (type : PacketType) (payload : list byte) : server_op :=
  OpPacket sample_env session (sample_header type) payload 10.

Definition login (session : Z) (user : string) : server_op :=
  packet session PT_LoginReq
    (encodeLoginRequest {| LoginRequest_user_id := user; LoginRequest_password := "letmein" |}).

Definition connect : server_op := OpCreate default_SessionConfig 0 "trace".

Abbreviation run_sample ops :=
  (run_server (H := bucket_order) ops
     (new_Server new_InMemoryInventoryStorage default_SecurityPolicy 0).1).

Example sample_login :
  sessionUser 1 (run_sample [connect; connect; login 1 "ann"; login 2 "ann"]) =
    Some {| UserContext_user_id := "ann"; UserContext_token := "ABCD" |} ∧
  sessionUser 2 (run_sample [connect; connect; login 1 "ann"; login 2 "ann"]) = None.
Proof. by vm_compute. Qed.

Section properties.
Context {S : Type} `{HashOrder, InventoryStorage S}.
Implicit Types (s : Server S).

(** The lookups [server_inv] gives to a client. *)
Lemma server_inv_users n s k :
  server_inv n None None s →
  sessionUser k s = sessions s !! k ≫= λ a, heap s !! a ≫= userContext.
Proof. intros Hs. by apply (inv_users _ _ _ _ Hs). Qed.

Lemma server_inv_active n s user k :
  server_inv n None None s →
  hasUser user (registry s) = Some k ↔
  ∃ context, sessionUser k s = Some context ∧ UserContext_user_id context = user.
Proof. intros Hs. apply (inv_registry _ _ _ _ Hs). Qed.

(** *** Dungeon results *)

Definition result_rejected (c : Packet) (reply : option (list byte)) : Prop :=
  ∃ code message, reply = respond c PT_DungeonResultRes (encodeDungeonResultResponse {|
    DungeonResultResponse_success := false; DungeonResultResponse_code := code;
    DungeonResultResponse_message := message;
    DungeonResultResponse_summary := "result rejected" |}).

Definition rewards_are (storage : S) (grants : gmap Z Z) s : Prop :=
  about no_play s ∧ inventory_storage s = storage ∧ instance_reward_grants s = grants.

Lemma result_fails_rejected c user code message storage grants :
  triple (rewards_are storage grants) (result_fails c user code message)
    (λ reply s, result_rejected c reply ∧ rewards_are storage grants s).
Proof. intros s Hs. split; [|done]. by exists code, message. Qed.

Lemma dungeon_result_rejected c payload storage grants :
  triple (rewards_are storage grants) (handle_dungeon_result c payload)
    (λ reply s, result_rejected c reply ∧ rewards_are storage grants s).
Proof.
  pose proof result_fails_rejected as Hf. unfold handle_dungeon_result.
  destruct (decodeDungeonResultNotify payload) as [request|]; [|apply Hf].
  eapply triple_bind; [apply preserves_get|]. intros [context|]; [|apply Hf].
  eapply triple_bind; [apply preserves_get|]. intros [instance|]; [|apply Hf].
  eapply triple_bind; [apply preserves_get|]. intros [record|]; [|apply Hf].
  eapply triple_bind; [apply preserves_get|]. intros grant.
  destruct (bool_decide _); [apply Hf|].
  set (next := match DungeonResultNotify_result request with
               | DungeonResultType_Clear => Dungeon.Clear | _ => Dungeon.Fail end).
  assert (Hnext : next ≠ Dungeon.Terminate ∧ next ≠ Dungeon.Playing ∧ next ≠ Dungeon.Ready).
  { subst next. by destruct (DungeonResultNotify_result request). }
  assert (Hno : ∀ s parties, rewards_are storage grants s →
    Dungeon.requestTransition instance next parties (instance_manager s) =
      (false, instance_manager s)).
  { intros s parties [Hs _].
    destruct (requestTransition_not_playing instance next parties _ Hs) as [_ E]; [tauto..|].
    apply E; tauto. }
  eapply triple_bind.
  { apply triple_get with (Q := λ moved s, rewards_are storage grants s ∧ moved = false).
    intros s Hs. by rewrite Hno. }
  intros moved. apply triple_pure. intros ->.
  apply triple_bind with (R := λ _, rewards_are storage grants); [|intros []; apply Hf].
  apply preserves_modify. intros s Hs.
  cbn [update_field Server_rebuild]. rewrite Hno by done. by destruct s.
Qed.

(** *** Matches *)

Lemma finish_match_success c user party instance s :
  let result := finish_match c user (inr (Some (match_success c party instance))) s in
  result.1.1 = respond c PT_MatchFoundNotify (encodeMatchFoundNotify (match_success c party instance)) ∧
  result.1.2 = s.
Proof. done. Qed.

Lemma match_party_success c user party info s :
  queue_empty s → Party.getPartyInfo party (party_service s) = Some info → party ≠ 0 →
  Match.size_allowed (Match.rule (match_queue s)) (Z.of_nat (length (Party.PartyInfo_members info)))
    = true →
  let instance := Dungeon.next_instance_id (instance_manager s) in
  let result := match_party c user party info s in
  result.1.1 = respond c PT_MatchFoundNotify (encodeMatchFoundNotify (match_success c party instance)) ∧
  match_started party s result.1.2.
Proof.
  intros Hq Hi Hp Hsize instance result. subst result.
  destruct (match_party_alone c user party info s Hq) as (q & Hq' & _ & E). rewrite E, Hsize.
  rewrite (proj2 (Z.eqb_neq _ _)) by done. cbn [negb andb].
  destruct (start_alone c user (party_candidate c party info) (s <| match_queue := q |>) info)
    as [Er Es]; [done|done|].
  rewrite run_bind. change (Match.candidate_party_id _) with party in Er, Es. by rewrite Er.
Qed.

End properties.

(** ** The theorems *)

(** C1: whatever the program and the clients do, in fewer than 2^64 - 1 operations, a
    session is logged in exactly as the registry says, under at most one user; a user is
    logged in on at most one session, the one [hasUser] finds; every session in
    [sessions_] is a live object with its id; and the parties stay well formed. *)
Theorem server_invariant {S} `{HashOrder, InventoryStorage S} (storage : S) policy start ops :
  Z.of_nat (length ops) < 2 ^ 64 - 1 →
  let s := run_server ops (new_Server storage policy start).1 in
  (∀ k, sessionUser k s = sessions s !! k ≫= λ a, heap s !! a ≫= userContext) ∧
  (∀ j k u v, sessionUser j s = Some u → sessionUser k s = Some v →
     UserContext_user_id u = UserContext_user_id v → j = k) ∧
  (∀ user k, hasUser user (registry s) = Some k ↔
     ∃ context, sessionUser k s = Some context ∧ UserContext_user_id context = user) ∧
  (∀ k a, sessions s !! k = Some a → ∃ o, heap s !! a = Some o ∧ id o = k) ∧
  Party.service_ok (party_service s).
Proof.
  intros Hlen s. pose proof (run_server_inv 1 ops _ (new_Server_inv storage policy start)) as Hs.
  specialize (Hs ltac:(lia)). fold s in Hs. split_and!.
  - intros k. by eapply server_inv_users.
  - intros j k u v Hj Hk E. assert (Hu := conj Hj E). apply ex_intro with (x := u) in Hu.
    apply (server_inv_active _ _ _ _ Hs) in Hu.
    assert (Hv : hasUser (UserContext_user_id v) (registry s) = Some k) by
      (apply (server_inv_active _ _ _ _ Hs); eauto).
    congruence.
  - intros user k. by eapply server_inv_active.
  - intros k a Ha. destruct (inv_sessions _ _ _ _ Hs _ _ Ha) as [-> [o Ho]].
    exists o. split; [done|]. by destruct (inv_heap _ _ _ _ Hs _ _ Ho).
  - apply Hs.
Qed.

Definition sample_ops : list server_op :=
  [connect; connect; login 1 "ann"; login 2 "ann"; OpRemove sample_env 1; login 2 "ann"].

Lemma server_invariant_witness :
  let s := run_sample sample_ops in
  UserContext_user_id <$> sessionUser 2 s = Some "ann"%string ∧
  (∀ k, sessionUser k s = sessions s !! k ≫= λ a, heap s !! a ≫= userContext) ∧
  (∀ j k u v, sessionUser j s = Some u → sessionUser k s = Some v →
     UserContext_user_id u = UserContext_user_id v → j = k) ∧
  (∀ user k, hasUser user (registry s) = Some k ↔
     ∃ context, sessionUser k s = Some context ∧ UserContext_user_id context = user) ∧
  (∀ k a, sessions s !! k = Some a → ∃ o, heap s !! a = Some o ∧ id o = k) ∧
  Party.service_ok (party_service s).
Proof.
  split; [by vm_compute|].
  apply (server_invariant (H := bucket_order) new_InMemoryInventoryStorage default_SecurityPolicy 0
    sample_ops). by vm_compute.
Defined.

(** C12: the match queue is empty between packets, so a match request of a member of a
    party never meets another party: it is answered at once with a new instance, in the
    state Waiting, for that party alone. *)
Theorem match_is_solo {S} `{HashOrder, InventoryStorage S} (storage : S) policy start ops
    c payload request context party info :
  let s := run_server ops (new_Server storage policy start).1 in
  queue_empty s ∧
  (decodeMatchRequest payload = Some request →
   heap s !! address c ≫= userContext = Some context →
   (if MatchRequest_party_id request =? 0 then Party.partyForMember (sid c) (party_service s)
    else Some (MatchRequest_party_id request)) = Some party →
   Party.getPartyInfo party (party_service s) = Some info →
   is_member (sid c) info = true → party ≠ 0 →
   Match.size_allowed (Match.rule (match_queue s))
     (Z.of_nat (length (Party.PartyInfo_members info))) = true →
   let instance := Dungeon.next_instance_id (instance_manager s) in
   let '(reply, s', _) := handle_match c payload s in
   reply = respond c PT_MatchFoundNotify
             (encodeMatchFoundNotify (match_success c party instance)) ∧
   queue_empty s' ∧
   instance_manager s' =
     (Dungeon.createInstance party (party_service s) (instance_manager s)).2 ∧
   party_instances s' = <[party := instance]> (party_instances s)).
Proof.
  intros s. assert (Hq : queue_empty s) by by apply run_server_queue.
  split; [done|]. intros Hd Hu Hp Hi Hm Hne Hsize instance.
  pose proof (match_party_success c (UserContext_user_id context) party info s Hq Hi Hne Hsize)
    as [Er Es].
  assert (E : (handle_match c payload s).1 =
              (match_party c (UserContext_user_id context) party info s).1).
  { unfold handle_match. rewrite Hd. unfold current_user. rewrite run_get, Hu.
    assert (Eb : ∀ k : option Z → M S (option (list byte)),
      bind (if MatchRequest_party_id request =? 0
            then get (λ s, Party.partyForMember (sid c) (party_service s))
            else ret (Some (MatchRequest_party_id request))) k s = k (Some party) s).
    { intros k. destruct (_ =? 0); [by rewrite run_get, Hp|by rewrite run_ret, Hp]. }
    by rewrite Eb, run_get, Hi, Hm. }
  rewrite <- E in Er, Es. destruct (handle_match c payload s) as [[r s'] l]. done.
Qed.

Definition sample_packet (session : Z) : Packet := {|
  env := sample_env; address := session; sid := session; version := 1;
  received := no_fields; now := 10 |}.

Definition party_ops : list server_op :=
  [connect; login 1 "ann"; OpParty (Party.OpCreate 1 "ann")].

Definition sample_match : MatchRequest := {|
  MatchRequest_party_id := 0; MatchRequest_dungeon_id := 1;
  MatchRequest_difficulty := "normal" |}.

Definition match_request : list byte := encodeMatchRequest sample_match.

Lemma match_is_solo_witness :
  let s := run_sample party_ops in
  let '(reply, s', _) := handle_match (H := bucket_order) (sample_packet 1) match_request s in
  reply = respond (sample_packet 1) PT_MatchFoundNotify
            (encodeMatchFoundNotify (match_success (sample_packet 1) 1 1)) ∧
  queue_empty s' ∧
  instance_manager s' =
    (Dungeon.createInstance (H := bucket_order) 1 (party_service s) (instance_manager s)).2 ∧
  party_instances s' = <[1 := 1]> (party_instances s).
Proof.
  apply (match_is_solo (H := bucket_order) new_InMemoryInventoryStorage default_SecurityPolicy 0
    party_ops (sample_packet 1) match_request sample_match
    {| UserContext_user_id := "ann"; UserContext_token := "ABCD" |} 1
    {| Party.PartyInfo_party_id := 1; Party.PartyInfo_leader_session_id := 1;
       Party.PartyInfo_members := [{| Party.member_session_id := 1;
                                      Party.member_user_id := "ann" |}] |}); by vm_compute.
Defined.

(** C13: as long as the program around the server never changes an instance itself, no
    packet gets a run rewarded: every DungeonResultNotify is answered with a rejection
    and leaves the inventories and the grants as they are. *)
Theorem packet_results_rejected {S} `{HashOrder, InventoryStorage S} (storage : S) policy start
    ops c payload :
  Forall (λ op, ∀ op', op ≠ OpInstance op') ops →
  let s := run_server ops (new_Server storage policy start).1 in
  let '(reply, s', _) := handle_dungeon_result c payload s in
  result_rejected c reply ∧
  inventory_storage s' = inventory_storage s ∧
  instance_reward_grants s' = instance_reward_grants s.
Proof.
  intros Hops s. assert (Hs : rewards_are (inventory_storage s) (instance_reward_grants s) s).
  { split; [|done]. apply run_server_no_play; [done|]. by intros ? ? ?. }
  pose proof (dungeon_result_rejected c payload _ _ s Hs) as [Hr (_ & Hi & Hg)].
  by destruct (handle_dungeon_result c payload s) as [[r s'] l].
Qed.

Definition dungeon_ops : list server_op :=
  party_ops ++
  [packet 1 PT_MatchReq match_request;
   packet 1 PT_DungeonEnterReq (encodeDungeonEnterRequest {|
     DungeonEnterRequest_instance_id := 1; DungeonEnterRequest_char_id := 7;
     DungeonEnterRequest_ticket := "01" |})].

Definition sample_result : list byte := encodeDungeonResultNotify {|
  DungeonResultNotify_result := DungeonResultType_Clear; DungeonResultNotify_time_sec := 60;
  DungeonResultNotify_deaths := 0;
  DungeonResultNotify_rewards := [{| RewardItem_item_id := 3; RewardItem_count := 2 |}] |}.

Lemma packet_results_rejected_witness :
  let s := run_sample dungeon_ops in
  session_characters s !! 1 = Some 7 ∧
  let '(reply, s', _) := handle_dungeon_result (H := bucket_order) (sample_packet 1)
                           sample_result s in
  result_rejected (sample_packet 1) reply ∧
  inventory_storage s' = inventory_storage s ∧
  instance_reward_grants s' = instance_reward_grants s.
Proof.
  split; [by vm_compute|].
  apply (packet_results_rejected (H := bucket_order) new_InMemoryInventoryStorage
    default_SecurityPolicy 0 dungeon_ops (sample_packet 1) sample_result).
  by repeat constructor.
Defined.
