(* ===== verification/ServerSecurity.v ===== *)
(** * The checks on packets and their effect

    [packet_gate]: exactly the packets that pass the transport, version, signature and
    replay checks reach their handler, and the others change nothing but counters and the
    session's receive time. Without a user only login, reconnect and logout packets do
    anything. A sequence number once accepted is refused until the session reconnects. *)

From S2P Require Auth Party Guild Chat Match Dungeon.
From S2P Require Import Inventory.
From S2P Require Import Prelude Wire Protocol Codec Security Logging Session Server.
From S2P Require Import Handlers Hoare ServerInvariant Idle ServerProperties.

Section gate.
Context {S : Type} `{HashOrder, InventoryStorage S}.
Implicit Types (s : Server S).

(** ** Which packets pass *)

Definition fresh (o : Session) (header : SecurityHeader) : Prop :=
  lastSeq o < SecurityHeader_seq header ∧ SecurityHeader_nonce header ∉ nonce_cache o.

#[export] Instance fresh_dec o header : Decision (fresh o header).
Proof. unfold fresh. apply _. Defined.

(** The signature and replay checks pass and leave [inner] for the handler. *)
Definition opens (policy : SecurityPolicy) (o : Session) (payload inner : list byte) : Prop :=
  if require_hmac policy || enable_replay_protection policy then
    ∃ header, unwrapSecurePayload payload = Some (header, inner) ∧
      (require_hmac policy = true → verifySignature (hmac_key policy) header inner = true) ∧
      (enable_replay_protection policy = true → fresh o header)
  else inner = payload.

(** All checks pass, with [inner] as the payload for the handler. *)
Definition passes (policy : SecurityPolicy) (o : Session) (version : Z)
    (payload inner : list byte) : Prop :=
  (require_tls policy = true → tlsEstablished o = true) ∧
  kMinProtocolVersion <= version <= kMaxProtocolVersion ∧
  opens policy o payload inner.

(** The session after a packet passed: its nonce and sequence are recorded. *)
Definition accepted (policy : SecurityPolicy) (payload : list byte) (o : Session) : Session :=
  if enable_replay_protection policy then
    match unwrapSecurePayload payload with
    | Some (header, _) =>
      setLastSeq (SecurityHeader_seq header) (recordNonce (SecurityHeader_nonce header) o).2
    | None => o
    end
  else o.

(** What every packet does: the counters, the receive time, the protocol version. *)
Definition touched (version time : Z) (o : Session) : Session :=
  setProtocolVersion version (onReceive time o).

(** The server after it received a packet on the session [a], now [o]. *)
Definition counted (a : Z) (o : Session) (payload : list byte) s : Server S :=
  s <| metrics ::= λ m, m <| packets_total ::= λ n, u64 (n + 1) |>
                          <| bytes_total ::= λ n, u64 (n + payload_size payload) |> |>
    <| heap ::= <[a := o]> |>.

Definition error_counted s : Server S :=
  s <| metrics ::= λ m, m <| error_total ::= λ e, u64 (e + 1) |> |>.

Lemma violation_run c why message s :
  (violation c why message s).1 = (None, error_counted s).
Proof. done. Qed.

Lemma counted_lookup a o payload s : heap (counted a o payload s) !! a = Some o.
Proof. apply lookup_insert_eq. Qed.

Lemma counted_set a o o' payload s :
  counted a o payload s <| heap ::= <[a := o']> |> = counted a o' payload s.
Proof. unfold counted. cbn. by rewrite insert_insert_eq. Qed.

(** Up to the checks. *)
Lemma handlePacket_run e a header payload time s o :
  heap s !! a = Some o →
  let c := {| env := e; address := a; sid := id o; version := FrameHeader_version header;
              received := received_fields o (generateTraceId (trace_draws e)) header payload;
              now := time |} in
  (handlePacket e a header payload time s).1 =
  (process_packet c (FrameHeader_type header) payload
     (counted a (touched (FrameHeader_version header) time o) payload s)).1.
Proof.
  intros Ho. unfold handlePacket. rewrite run_modify, run_get. cbn [heap update_field Server_rebuild].
  rewrite Ho, run_log_event. erewrite run_set_session by exact Ho.
  erewrite run_set_session by apply lookup_insert_eq.
  unfold counted, touched. cbn. by rewrite insert_insert_eq.
Qed.

Lemma recordNonce_fresh nonce o : (recordNonce nonce o).1 = bool_decide (nonce ∉ nonce_cache o).
Proof.
  unfold recordNonce. rewrite bool_decide_not. case_bool_decide; [done|]. by destruct (evict_nonces _ _ _).
Qed.

Lemma recordNonce_seen nonce o : (recordNonce nonce o).1 = false → (recordNonce nonce o).2 = o.
Proof. unfold recordNonce. case_bool_decide; [done|]. by destruct (evict_nonces _ _ _). Qed.

Lemma check_replay_run c header payload s o :
  let s1 := counted (address c) o payload s in
  (check_replay c header s1).1 =
  if bool_decide (fresh o header)
  then (None, counted (address c)
                (setLastSeq (SecurityHeader_seq header)
                   (recordNonce (SecurityHeader_nonce header) o).2) payload s)
  else (Some None, error_counted s1).
Proof.
  intros s1. unfold check_replay. subst s1. rewrite run_get, counted_lookup.
  cbn [from_option]. unfold fresh.
  destruct (_ <=? _) eqn:El; bool_props.
  - rewrite bool_decide_eq_false_2 by lia. done.
  - rewrite run_bind. unfold on_session. rewrite counted_lookup.
    pose proof (recordNonce_fresh (SecurityHeader_nonce header) o) as Hf.
    pose proof (recordNonce_seen (SecurityHeader_nonce header) o) as Hs.
    destruct (recordNonce (SecurityHeader_nonce header) o) as [isfresh o']. cbn [fst snd] in *.
    subst isfresh. rewrite counted_set.
    case_bool_decide as Hn; cbn [negb].
    + rewrite bool_decide_eq_true_2 by (split; [lia|done]).
      erewrite run_set_session by apply counted_lookup. by rewrite counted_set.
    + rewrite bool_decide_eq_false_2 by tauto. by rewrite Hs.
Qed.

(** [open_payload] in closed form. *)
Lemma open_payload_run c policy payload s o :
  let s1 := counted (address c) o payload s in
  let result := open_payload c policy payload s1 in
  (∀ inner, opens policy o payload inner →
     result.1 = (inr inner, counted (address c) (accepted policy payload o) payload s)) ∧
  (result.1 = (inl None, error_counted s1) ∨ ∃ inner, opens policy o payload inner).
Proof.
  intros s1 result. subst result s1. unfold open_payload, accepted, opens.
  destruct (require_hmac policy || enable_replay_protection policy) eqn:Esec; cbn [negb].
  2:{ apply orb_false_elim in Esec as [_ ->]. split; [by intros inner ->|eauto]. }
  destruct (unwrapSecurePayload payload) as [[header inner]|].
  2:{ split; [by intros inner (header & [=] & _)|by left]. }
  destruct (require_hmac policy) eqn:Eh; cbn [andb negb].
  1: destruct (verifySignature _ _ _) eqn:Ev; cbn [negb];
    [|by split; [intros inner' (header' & [= <- <-] & Hv & _); rewrite Hv in Ev|left]].
  all: destruct (enable_replay_protection policy) eqn:Er;
    [|split; [by intros inner' (header' & [= <- <-] & _)|right; exists inner, header; naive_solver]].
  all: rewrite run_bind, check_replay_run; case_bool_decide as Hf; cbn [fst snd];
    [split; [by intros inner' (header' & [= <- <-] & _)|right; exists inner, header; naive_solver]|].
  all: split; [intros inner' (header' & [= <- <-] & _ & Hf'); by destruct Hf; apply Hf'|by left].
Qed.

(** The answer to a packet that does not pass. *)
Definition refusal (c : Packet) (policy : SecurityPolicy) (o : Session) : option (list byte) :=
  if require_tls policy && negb (tlsEstablished o) then None
  else if bool_decide (kMinProtocolVersion <= version c <= kMaxProtocolVersion) then None
  else respond c PT_VersionReject (encodeVersionReject {|
         VersionReject_min_version := kMinProtocolVersion;
         VersionReject_max_version := kMaxProtocolVersion;
         VersionReject_client_version := version c;
         VersionReject_message := version_reject_message (version c) |}).

Lemma process_packet_run c type payload s o :
  let s1 := counted (address c) o payload s in
  let policy := security_policy s in
  (∀ inner, passes policy o (version c) payload inner →
     (process_packet c type payload s1).1 =
     (dispatch c (PacketType_of_u16 type) inner
        (counted (address c) (accepted policy payload o) payload s)).1) ∧
  ((∀ inner, ¬ passes policy o (version c) payload inner) →
     (process_packet c type payload s1).1 = (refusal c policy o, error_counted s1)).
Proof.
  intros s1 policy. unfold process_packet, refusal. rewrite !run_get. subst s1.
  rewrite counted_lookup. change (security_policy (counted _ _ _ _)) with policy.
  cbn [from_option]. unfold passes.
  destruct (require_tls policy && negb (tlsEstablished o)) eqn:Et.
  { split; [|done]. intros inner (Ht & _). apply andb_prop in Et as [E1 E2].
    by rewrite Ht in E2. }
  assert (Htls : require_tls policy = true → tlsEstablished o = true).
  { intros E. rewrite E in Et. by destruct (tlsEstablished o). }
  destruct ((version c <? kMinProtocolVersion) || (kMaxProtocolVersion <? version c)) eqn:Ev.
  { apply orb_true_iff in Ev. rewrite !Z.ltb_lt in Ev.
    split; [intros inner (_ & Hv & _); lia|]. by rewrite bool_decide_eq_false_2 by lia. }
  apply orb_false_elim in Ev as [Ev1%Z.ltb_ge Ev2%Z.ltb_ge].
  assert (Hv : kMinProtocolVersion <= version c <= kMaxProtocolVersion) by done.
  rewrite (bool_decide_eq_true_2 _ Hv), run_bind.
  destruct (open_payload_run c policy payload s o) as [Hp Hd]. split.
  - intros inner (_ & _ & Hi). by rewrite (Hp inner Hi).
  - intros Hno. destruct Hd as [->|[inner Hi]]; [done|]. by destruct (Hno inner).
Qed.

(** ** Packets of a session without a user *)

Definition needs_user (type : PacketType) : Prop :=
  match type with
  | PT_LoginReq | PT_LogoutReq | PT_SessionReconnectReq => False
  | _ => True
  end.

Lemma dispatch_without_user c type payload s :
  heap s !! address c ≫= userContext = None → needs_user type →
  (dispatch c type payload s).1.2 = error_counted s.
Proof.
  intros Hno Ht. unfold dispatch.
  destruct type; try done;
    unfold handle_match, handle_dungeon_enter, handle_dungeon_result, handle_inventory_update,
      handle_guild_create, handle_guild_join, handle_guild_leave, handle_chat, current_user;
    match goal with |- context [match ?d with Some _ => _ | None => _ end] => destruct d end;
    try done; by rewrite run_get, Hno.
Qed.

(** ** The last sequence of a session *)

Section seen.
Context (a seq : Z).

(** The object [a] has accepted [seq] or a later sequence. *)
Definition seen s : Prop := ∃ o, heap s !! a = Some o ∧ seq <= lastSeq o.

Lemma seen_update s k o o' :
  seen s → heap s !! k = Some o → k ≠ a ∨ lastSeq o <= lastSeq o' →
  seen (s <| heap ::= <[k := o']> |>).
Proof.
  intros (p & Hp & Hs) Ho Hk. unfold seen. cbn. destruct (decide (k = a)) as [->|Hne].
  - rewrite lookup_insert_eq. exists o'. split; [done|]. simplify_eq. destruct Hk; [done|lia].
  - rewrite lookup_insert_ne by done. eauto.
Qed.

Lemma seen_on_session {A} k (d : A) method :
  k ≠ a ∨ (∀ o, lastSeq o <= lastSeq (method o).1.2) → preserves seen (on_session k d method).
Proof.
  intros Hm. apply preserves_on_session. intros s o Hs Ho. eapply seen_update; [done..|].
  destruct Hm; auto.
Qed.

Lemma enqueueSend_lastSeq payload t o : lastSeq o <= lastSeq (enqueueSend payload t o).1.2.
Proof. unfold enqueueSend, disconnect. repeat case_match; simplify_eq/=; lia. Qed.

Lemma tick_session_lastSeq t o : lastSeq o <= lastSeq (tick_session t o).1.2.
Proof. unfold tick_session, disconnect. repeat case_match; simplify_eq/=; lia. Qed.

Lemma recordNonce_lastSeq nonce o : lastSeq (recordNonce nonce o).2 = lastSeq o.
Proof. unfold recordNonce. repeat case_match; done. Qed.

#[local] Hint Extern 1 (preserves seen (modify _)) =>
  (apply preserves_modify; intros ? Hs; exact Hs) : hoare.
#[local] Hint Extern 1 (preserves seen count_error) =>
  (apply preserves_modify; intros ? Hs; exact Hs) : hoare.
#[local] Hint Extern 1 (preserves seen (set_session _ _)) =>
  (apply seen_on_session; right; intros ?; exact (Z.le_refl _)) : hoare.

Lemma send_seen e k payload : preserves seen (send e k payload).
Proof. apply seen_on_session. right. intros. apply enqueueSend_lastSeq. Qed.

#[local] Hint Resolve send_seen : hoare.

Lemma guild_sink_seen e call : preserves seen (guild_sink e call).
Proof. unfold guild_sink. destruct call. walk. Qed.

Lemma chat_sink_seen e call : preserves seen (chat_sink e call).
Proof. unfold chat_sink. destruct call. walk. Qed.

#[local] Hint Resolve guild_sink_seen chat_sink_seen : hoare.

Lemma removeSession_seen e k : preserves seen (removeSession e k).
Proof. unfold removeSession. walk. Qed.

#[local] Hint Resolve removeSession_seen : hoare.

Lemma tick_seen e now : preserves seen (tick e now).
Proof.
  unfold tick. walk. rename a0 into entries.
  induction entries as [|[k x] entries IH]; cbn [tick_sessions]; [walk|].
  apply preserves_bind; [|intros; apply preserves_bind; [apply IH|walk]].
  apply seen_on_session. right. intros. apply tick_session_lastSeq.
Qed.

Lemma forceDisconnect_seen e k why trace : preserves seen (forceDisconnect e k why trace).
Proof. unfold forceDisconnect. walk. Qed.

#[local] Hint Resolve tick_seen forceDisconnect_seen : hoare.

Lemma reconnect_seen c payload : address c ≠ a → preserves seen (handle_reconnect c payload).
Proof.
  intros Hc. unfold handle_reconnect, take_over, reconnect_fails. walk.
  apply seen_on_session. by left.
Qed.

Lemma notify_members_seen c instance own frame members :
  preserves seen (notify_members c instance own frame members).
Proof.
  induction members as [|member members IH]; cbn [notify_members]; [walk|].
  apply preserves_bind; [walk|]. intros found. apply preserves_bind; [walk|]. intros _. exact IH.
Qed.

Lemma start_matches_seen c user party l notify :
  preserves seen (start_matches c user party l notify).
Proof.
  revert notify. induction l as [|candidate l IH]; intros notify; cbn [start_matches]; [walk|].
  apply preserves_bind; [walk|]. intros created. apply preserves_bind; [walk|]. intros _.
  destruct created; [|unfold match_fails; walk].
  apply preserves_bind; [walk|]. intros _. apply preserves_bind; [walk|]. intros info.
  apply preserves_bind; [|intros; apply IH]. destruct info; [|walk]. apply notify_members_seen.
Qed.

#[local] Hint Resolve start_matches_seen : hoare.

Lemma dispatch_seen c type payload :
  address c ≠ a ∨ type ≠ PT_SessionReconnectReq → preserves seen (dispatch c type payload).
Proof.
  intros Ht. unfold dispatch.
  destruct type; try (by apply reconnect_seen; destruct Ht);
    unfold handle_login, handle_logout, handle_match, match_party, handle_dungeon_enter,
      handle_dungeon_result, record_result, handle_inventory_update, handle_guild_create,
      handle_guild_join, handle_guild_leave, handle_chat, send_global, send_party; walk.
Qed.

(** A packet that passes on [a] records a later sequence than the last. *)
Lemma accepted_lastSeq policy payload inner version o :
  passes policy o version payload inner → lastSeq o <= lastSeq (accepted policy payload o).
Proof.
  intros (_ & _ & Hopen). unfold opens, accepted in *.
  destruct (enable_replay_protection policy); [|lia].
  rewrite orb_true_r in Hopen. destruct Hopen as (header & -> & _ & Hf).
  destruct (Hf eq_refl). cbn. lia.
Qed.

End seen.

(** ** From one packet to runs *)

Lemma passes_or_not policy o version payload :
  (∃ inner, passes policy o version payload inner) ∨
  (∀ inner, ¬ passes policy o version payload inner).
Proof.
  unfold passes, opens.
  destruct (decide (require_tls policy = true → tlsEstablished o = true)); [|naive_solver].
  destruct (decide (kMinProtocolVersion <= version <= kMaxProtocolVersion)); [|naive_solver].
  destruct (_ || _); [|eauto].
  destruct (unwrapSecurePayload payload) as [[header inner]|]; [|naive_solver].
  destruct (decide (require_hmac policy = true →
                    verifySignature (hmac_key policy) header inner = true)); [|naive_solver].
  destruct (decide (enable_replay_protection policy = true → fresh o header)); naive_solver.
Qed.

Lemma counted_seen a seq k o o' payload s :
  seen a seq s → heap s !! k = Some o → lastSeq o <= lastSeq o' → seen a seq (counted k o' payload s).
Proof.
  intros Hs Ho Hle.
  apply (seen_update a seq (s <| metrics ::= λ m, m <| packets_total ::= λ n, u64 (n + 1) |>
    <| bytes_total ::= λ n, u64 (n + payload_size payload) |> |>) k o o'); [done..|by right].
Qed.

Lemma handlePacket_seen a seq e k header payload time s o :
  heap s !! k = Some o → id o = k →
  k ≠ a ∨ PacketType_of_u16 (FrameHeader_type header) ≠ PT_SessionReconnectReq →
  seen a seq s → seen a seq (handlePacket e k header payload time s).1.2.
Proof.
  intros Ho Hid Hk Hs.
  pose proof (handlePacket_run e k header payload time s o Ho) as E. cbn zeta in E.
  set (c := Build_Packet _ _ _ _ _ _) in E. rewrite E.
  destruct (process_packet_run c (FrameHeader_type header) payload s
              (touched (FrameHeader_version header) time o)) as [Hp Hno].
  change (address c) with k in Hp, Hno.
  destruct (passes_or_not (security_policy s) (touched (FrameHeader_version header) time o)
              (version c) payload) as [[inner Hi]|Hi].
  - rewrite (Hp inner Hi). apply dispatch_seen; [done|].
    eapply counted_seen; [done..|]. by apply accepted_lastSeq in Hi.
  - rewrite (Hno Hi). by eapply (counted_seen a seq k o).
Qed.

(** A reconnect packet on the session [a]. *)
Definition reconnects_on (a : Z) (op : server_op) : Prop :=
  match op with
  | OpPacket _ k header _ _ =>
    k = a ∧ PacketType_of_u16 (FrameHeader_type header) = PT_SessionReconnectReq
  | _ => False
  end.

Lemma run_server_op_seen n a seq op s :
  server_inv n None None s → ¬ reconnects_on a op →
  seen a seq s → seen a seq (run_server_op op s).1.2.
Proof.
  intros Hinv Hop Hs.
  destruct op as [config now trace|e k|e now|e k header payload now|e k why trace|
                  e k why trace|op|op|k op]; unfold run_server_op.
  - destruct Hs as (o & Ho & Hle). exists o. split; [|done]. cbn -[emplace].
    rewrite lookup_insert_ne; [done|]. intros E. subst a.
    destruct (inv_heap _ _ _ _ Hinv _ _ Ho). lia.
  - by apply removeSession_seen.
  - by apply tick_seen.
  - rewrite run_get. unfold findSession. destruct (sessions s !! k) as [b|] eqn:Eb; [|done].
    destruct (inv_sessions _ _ _ _ Hinv _ _ Eb) as [-> [o Ho]].
    destruct (inv_heap _ _ _ _ Hinv _ _ Ho) as [Hid _].
    rewrite run_bind. apply (handlePacket_seen _ _ _ _ _ _ _ _ o); try done.
    destruct (decide (k = a)); [right|by left]. intros E. by apply Hop.
  - rewrite run_bind. by apply forceDisconnect_seen.
  - rewrite run_bind. unfold ret. cbn [fst snd]. revert s Hinv Hs.
    enough (Hm : preserves (seen a seq) (forceTerminateSession e k why trace)) by eauto.
    pose proof (forceDisconnect_seen a seq). unfold forceTerminateSession. walk.
  - exact Hs.
  - exact Hs.
  - unfold on_session. destruct (heap s !! k) as [o|] eqn:Ho; [|done].
    pose proof (run_session_op_identity op o) as [_ El].
    destruct (run_session_op op o) as [[u o'] logs]. cbn [fst snd] in *.
    apply (seen_update a seq s k o o'); [done..|]. right. lia.
Qed.

Lemma run_server_seen n a seq ops s :
  server_inv n None None s → n + Z.of_nat (length ops) < 2 ^ 64 →
  Forall (λ op, ¬ reconnects_on a op) ops →
  seen a seq s → seen a seq (run_server ops s).
Proof.
  intros Hinv Hb Hops. revert n s Hinv Hb. induction Hops as [|op ops Hop Hops IH];
    intros n s Hinv Hb Hs; [done|]. cbn [length] in Hb.
  apply (IH (n + 1)); [apply run_server_op_inv; [done|lia]|lia|].
  by apply (run_server_op_seen n).
Qed.

(** A packet with a sequence already seen does not pass. *)
Lemma seen_refused a seq e header payload time s sh inner :
  seen a seq s → enable_replay_protection (security_policy s) = true →
  unwrapSecurePayload payload = Some (sh, inner) → SecurityHeader_seq sh <= seq →
  ∃ o, heap s !! a = Some o ∧
    (handlePacket e a header payload time s).1.2 =
      error_counted (counted a (touched (FrameHeader_version header) time o) payload s) ∧
    ∀ inner, ¬ passes (security_policy s) o (FrameHeader_version header) payload inner.
Proof.
  intros (o & Ho & Hle) Hr Hu Hseq. exists o.
  assert (Hno : ∀ o' inner, lastSeq o' = lastSeq o →
    ¬ passes (security_policy s) o' (FrameHeader_version header) payload inner).
  { intros o' inner' El (_ & _ & Hopen). unfold opens in Hopen. rewrite Hr, orb_true_r in Hopen.
    destruct Hopen as (sh' & Hu' & _ & Hf). simplify_eq. destruct (Hf eq_refl). lia. }
  split_and!; [done| |by intros; apply Hno].
  pose proof (handlePacket_run e a header payload time s o Ho) as E. cbn zeta in E.
  set (c := Build_Packet _ _ _ _ _ _) in E. rewrite E.
  destruct (process_packet_run c (FrameHeader_type header) payload s
              (touched (FrameHeader_version header) time o)) as [_ Hp].
  change (address c) with a in Hp. rewrite Hp; [done|]. intros. by apply Hno.
Qed.

End gate.

(** ** Properties *)

(** C2: exactly the packets that pass the checks reach their handler: the session is
    TLS-secured if that is required, the version is supported, and under a signature or
    replay policy the payload carries a security header whose signature verifies, with a
    new sequence and nonce. A packet that passes is handled on its inner payload, its
    nonce and sequence recorded; any other changes nothing but the counters (one packet,
    its bytes, one error) and the session's receive time and version, and is answered
    with nothing or with a version rejection. *)
Theorem packet_gate {S} `{HashOrder, InventoryStorage S} e a header payload time
    (s : Server S) o :
  heap s !! a = Some o →
  let policy := security_policy s in
  let version := FrameHeader_version header in
  let c := {| env := e; address := a; sid := id o; version := version;
              received := received_fields o (generateTraceId (trace_draws e)) header payload;
              now := time |} in
  let o' := touched version time o in
  (∀ inner, passes policy o version payload inner →
     (handlePacket e a header payload time s).1 =
     (dispatch c (PacketType_of_u16 (FrameHeader_type header)) inner
        (counted a (accepted policy payload o') payload s)).1) ∧
  ((∀ inner, ¬ passes policy o version payload inner) →
     (handlePacket e a header payload time s).1 =
     (refusal c policy o, error_counted (counted a o' payload s))).
Proof.
  intros Ho policy version c o'.
  pose proof (handlePacket_run e a header payload time s o Ho) as E. cbn zeta in E. rewrite E.
  by destruct (process_packet_run c (FrameHeader_type header) payload s o') as [Hp Hno].
Qed.

Definition strict_policy : SecurityPolicy := {|
  require_tls := false; require_hmac := true; enable_replay_protection := true;
  hmac_key := "k" |}.

Abbreviation run_strict ops :=
  (run_server (H := bucket_order) ops (new_Server new_InMemoryInventoryStorage strict_policy 0).1).

(** A signed packet. *)
Definition signed (session seq nonce : Z) (type : PacketType) (payload : list byte) : server_op :=
  packet session type (wrapSecurePayload seq nonce "k" payload).

Definition ann : list byte := encodeLoginRequest {|
  LoginRequest_user_id := "ann"; LoginRequest_password := "letmein" |}.

Definition ann_again : list byte := encodeSessionReconnectRequest {|
  SessionReconnectRequest_token := "ABCD"; SessionReconnectRequest_last_seq := 0 |}.

Lemma packet_gate_witness :
  let s := run_strict [connect; signed 1 5 1 PT_LoginReq ann] in
  let o := default (new_Session 0 default_SessionConfig 0 "") (heap s !! 1) in
  let payload := wrapSecurePayload 5 2 "k" ann in
  let version := 1 in
  let c := {| env := sample_env; address := 1; sid := id o; version := version;
              received := received_fields o (generateTraceId (trace_draws sample_env))
                            (sample_header PT_LoginReq) payload;
              now := 10 |} in
  let o' := touched version 10 o in
  lastSeq o = 5 ∧
  (∀ inner, passes strict_policy o version payload inner →
     (handlePacket (H := bucket_order) sample_env 1 (sample_header PT_LoginReq) payload 10 s).1 =
     (dispatch (H := bucket_order) c (PacketType_of_u16 (PacketType_to_u16 PT_LoginReq)) inner
        (counted 1 (accepted strict_policy payload o') payload s)).1) ∧
  ((∀ inner, ¬ passes strict_policy o version payload inner) →
     (handlePacket (H := bucket_order) sample_env 1 (sample_header PT_LoginReq) payload 10 s).1 =
     (refusal c strict_policy o, error_counted (counted 1 o' payload s))).
Proof.
  intros s o payload version c o'. split; [by vm_compute|].
  apply (packet_gate (H := bucket_order) sample_env 1 (sample_header PT_LoginReq) payload 10 s o).
  by vm_compute.
Defined.

(** C3: a session without a user can bring about nothing but logging in: any packet that
    is not a login, logout or reconnect leaves the whole server as it was, except that
    it is counted as a packet and an error and the session records its arrival - not a
    party, guild, match, dungeon, inventory, chat message or other session changes. *)
Theorem unauthenticated_packet_inert {S} `{HashOrder, InventoryStorage S} e a header payload
    time (s : Server S) o :
  heap s !! a = Some o → userContext o = None →
  needs_user (PacketType_of_u16 (FrameHeader_type header)) →
  let o' := touched (FrameHeader_version header) time o in
  (handlePacket e a header payload time s).1.2 = error_counted (counted a o' payload s) ∨
  (handlePacket e a header payload time s).1.2 =
    error_counted (counted a (accepted (security_policy s) payload o') payload s).
Proof.
  intros Ho Hu Ht. set (o' := touched (FrameHeader_version header) time o). cbn zeta.
  pose proof (handlePacket_run e a header payload time s o Ho) as E. cbn zeta in E. rewrite E.
  fold o'. set (c := Build_Packet _ _ _ _ _ _).
  destruct (process_packet_run c (FrameHeader_type header) payload s o') as [Hp Hno].
  change (address c) with a in Hp, Hno.
  destruct (passes_or_not (security_policy s) o' (version c) payload) as [[inner Hi]|Hi].
  - right. rewrite (Hp inner Hi). apply dispatch_without_user; [|done].
    change (address c) with a. rewrite counted_lookup. cbn.
    unfold accepted. destruct (enable_replay_protection _); [|done].
    destruct (unwrapSecurePayload payload) as [[sh rest]|]; [|done]. cbn.
    destruct (recordNonce_identity (SecurityHeader_nonce sh) o') as [_ ->]. done.
  - left. by rewrite (Hno Hi).
Qed.

Lemma unauthenticated_packet_inert_witness :
  let s := run_sample [connect] in
  let o := new_Session 1 default_SessionConfig 0 "trace" in
  let o' := touched 1 10 o in
  let header := sample_header PT_MatchReq in
  (handlePacket (H := bucket_order) sample_env 1 header match_request 10 s).1.2 =
    error_counted (counted 1 o' match_request s) ∨
  (handlePacket (H := bucket_order) sample_env 1 header match_request 10 s).1.2 =
    error_counted (counted 1 (accepted (security_policy s) match_request o') match_request s).
Proof.
  intros s o o' header.
  by apply (unauthenticated_packet_inert (H := bucket_order) sample_env 1 header match_request 10 s o).
Defined.

(** C4: under replay protection a sequence number is accepted once. After a packet passed
    on a session, no packet with the same or a smaller sequence passes on it again,
    whatever happens in between - packets of any kind on any session, timeouts, new and
    removed sessions - until a reconnect packet arrives on that very session. *)
Theorem sequence_never_reused {S} `{HashOrder, InventoryStorage S} (storage : S) policy start
    before after e k header payload time o sh inner :
  enable_replay_protection policy = true →
  Z.of_nat (length (before ++ after)) < 2 ^ 64 - 2 →
  let s0 := run_server before (new_Server storage policy start).1 in
  sessions s0 !! k = Some k → heap s0 !! k = Some o →
  unwrapSecurePayload payload = Some (sh, inner) →
  passes policy o (FrameHeader_version header) payload inner →
  Forall (λ op, ¬ reconnects_on k op) (OpPacket e k header payload time :: after) →
  let s := run_server (OpPacket e k header payload time :: after) s0 in
  ∀ e' header' payload' time' sh' inner',
    unwrapSecurePayload payload' = Some (sh', inner') →
    SecurityHeader_seq sh' <= SecurityHeader_seq sh →
    ∃ o', heap s !! k = Some o' ∧
      (∀ inner, ¬ passes policy o' (FrameHeader_version header') payload' inner) ∧
      (handlePacket e' k header' payload' time' s).1.2 =
      error_counted (counted k (touched (FrameHeader_version header') time' o') payload' s).
Proof.
  intros Hr Hlen s0 Hk Ho Hu Hp Hops s e' header' payload' time' sh' inner' Hu' Hseq.
  rewrite length_app in Hlen. apply Forall_cons_1 in Hops as [Hop Hops].
  assert (Hinv : server_inv (1 + Z.of_nat (length before)) None None s0).
  { apply run_server_inv; [apply new_Server_inv|lia]. }
  assert (Hpolicy : security_policy s0 = policy).
  { unfold s0. by rewrite run_server_policy. }
  assert (Hseen : seen k (SecurityHeader_seq sh) (run_server_op (OpPacket e k header payload time) s0).1.2).
  { cbn [run_server_op]. rewrite run_get. unfold findSession. rewrite Hk, run_bind. cbn [ret fst snd].
    pose proof (handlePacket_run e k header payload time s0 o Ho) as E. cbn zeta in E.
    set (c := Build_Packet _ _ _ _ _ _) in E. rewrite E.
    destruct (process_packet_run c (FrameHeader_type header) payload s0
                (touched (FrameHeader_version header) time o)) as [Hpass _].
    change (address c) with k in Hpass. rewrite Hpolicy in Hpass. rewrite (Hpass inner Hp).
    apply dispatch_seen. { right. intros Et. by apply Hop. }
    eexists. split; [apply counted_lookup|]. unfold accepted. rewrite Hr, Hu. cbn. lia. }
  assert (Hs : seen k (SecurityHeader_seq sh) s).
  { apply (run_server_seen (1 + Z.of_nat (length before) + 1) _ _ after
      (run_server_op (OpPacket e k header payload time) s0).1.2); [|lia|done|done].
    apply run_server_op_inv; [done|lia]. }
  assert (Hpolicy' : security_policy s = policy) by (unfold s; by rewrite run_server_policy).
  destruct (seen_refused k _ e' header' payload' time' s sh' inner' Hs) as (o' & Ho' & E & Hno);
    [by rewrite Hpolicy'|done|done|].
  exists o'. rewrite Hpolicy' in Hno. done.
Qed.

Definition stranger : list server_op := [connect; signed 2 3 1 PT_LogoutReq []].

Definition ann_signed : list byte := wrapSecurePayload 5 1 "k" ann.

Definition ann_session : Session :=
  default (new_Session 1 default_SessionConfig 0 "trace") (heap (run_strict [connect]) !! 1).

Definition ann_security : SecurityHeader := {|
  SecurityHeader_seq := 5; SecurityHeader_nonce := 1;
  SecurityHeader_signature := computeSignature "k" 5 1 ann |}.

Lemma sequence_never_reused_witness :
  let s0 := run_strict [connect] in
  let s := run_server (H := bucket_order)
    (OpPacket sample_env 1 (sample_header PT_LoginReq) ann_signed 10 :: stranger) s0 in
  ∃ o', heap s !! 1 = Some o' ∧
    (∀ inner, ¬ passes strict_policy o' (FrameHeader_version (sample_header PT_LoginReq)) ann_signed inner) ∧
    (handlePacket (H := bucket_order) sample_env 1 (sample_header PT_LoginReq) ann_signed 11 s).1.2 =
    error_counted (counted 1
      (touched (FrameHeader_version (sample_header PT_LoginReq)) 11 o') ann_signed s).
Proof.
  cbn zeta.
  apply (sequence_never_reused (H := bucket_order) new_InMemoryInventoryStorage strict_policy 0
    [connect] stranger sample_env 1 (sample_header PT_LoginReq) ann_signed 10 ann_session
    ann_security ann) with (sh' := ann_security) (inner' := ann);
    [by vm_compute|by vm_compute|by vm_compute|by vm_compute|by vm_compute| | |by vm_compute|done].
  - split; [done|]. split; [by vm_compute|]. eexists. split; [by vm_compute|].
    split; intros _; [by vm_compute|]. split; [by vm_compute|]. by vm_compute.
  - repeat (apply List.Forall_cons; [vm_compute; naive_solver|]). apply List.Forall_nil.
Defined.

(** The limit of [sequence_never_reused]: a reconnect sets the session's last sequence
    to the one the client names or the taken-over session had, whatever the session
    itself has accepted. Here a session accepts sequence 9, reconnects to itself naming
    0, and then accepts sequence 3. *)
Theorem reconnect_lowers_sequence :
  let before := run_strict [connect; signed 1 8 1 PT_LoginReq ann] in
  let after := run_strict [connect; signed 1 8 1 PT_LoginReq ann;
                           signed 1 9 2 PT_SessionReconnectReq ann_again] in
  let again := run_strict [connect; signed 1 8 1 PT_LoginReq ann;
                           signed 1 9 2 PT_SessionReconnectReq ann_again;
                           signed 1 3 3 PT_LogoutReq []] in
  lastSeq <$> heap before !! 1 = Some 8 ∧ lastSeq <$> heap after !! 1 = Some 0 ∧
  lastSeq <$> heap again !! 1 = Some 3 ∧ error_total (metrics again) = 0.
Proof. by vm_compute. Qed.
