(* ===== verification/ServerGuilds.v ===== *)
(** * Guilds under the server

    The server keeps the guild service well formed: every packet runs at most one guild
    operation, every removal and take-over another, and ids do not come round. *)

From S2P Require Import Prelude Protocol Codec Security Logging Session Server Handlers.
From S2P Require Import Hoare ServerInvariant ServerProperties ServerSecurity.
From S2P Require Auth Party Guild Chat Match Dungeon.
From S2P Require Import Inventory.

Section guilds.
Context {S : Type} `{HashOrder, InventoryStorage S}.
Implicit Types (s : Server S).

Definition guilds_ok (n : Z) s : Prop :=
  Guild.service_ok (guild_service s) ∧ Guild.next_guild_id (guild_service s) <= n.

Lemma guilds_ok_grow n s : guilds_ok n s → guilds_ok (n + 1) s.
Proof. intros [? ?]. split; [done|lia]. Qed.

Section fixed.
Context (n : Z) (Hn : n + 1 < 2 ^ 64).
Abbreviation ok := (guilds_ok n).

(** What does not touch the guilds. *)
#[local] Hint Extern 2 (preserves ok (modify _)) =>
  (apply preserves_modify; intros ? Hs; exact Hs) : hoare.
#[local] Hint Extern 1 (preserves ok (on_session _ _ _)) =>
  (apply preserves_on_session; intros ? ? Hs _; exact Hs) : hoare.
#[local] Hint Extern 1 (preserves ok count_error) =>
  (apply preserves_modify; intros ? Hs; exact Hs) : hoare.
#[local] Hint Extern 1 (preserves ok (set_session _ _)) =>
  (apply preserves_on_session; intros ? ? Hs _; exact Hs) : hoare.
#[local] Hint Extern 1 (preserves ok (send _ _ _)) =>
  (apply preserves_on_session; intros ? ? Hs _; exact Hs) : hoare.
#[local] Hint Extern 1 (preserves ok (log_event _ _ _ _)) => (apply preserves_log) : hoare.

(** Guild operations that make no new guild. *)
Lemma guild_op_ok op :
  (∀ leader user name, op ≠ Guild.OpCreate leader user name) →
  preserves ok (modify (λ s, s <| guild_service ::= λ g, Guild.run_op g op |>)).
Proof.
  intros Hop. apply preserves_modify. intros s [Hs Hle]. split; cbn.
  - apply Guild.guild_run_op_ok; [done|lia].
  - rewrite Guild.guild_run_op_keeps; done.
Qed.

Lemma join_ok guild k user :
  preserves ok (modify (λ s, s <| guild_service ::= λ g, (Guild.joinGuild guild k user g).1.2 |>)).
Proof. by apply (guild_op_ok (Guild.OpJoin guild k user)). Qed.

Lemma leave_ok guild k :
  preserves ok (modify (λ s, s <| guild_service ::= λ g, (Guild.leaveGuild guild k g).1.2 |>)).
Proof. by apply (guild_op_ok (Guild.OpLeave guild k)). Qed.

Lemma remove_ok k :
  preserves ok (modify (λ s, s <| guild_service ::= λ g, (Guild.removeMember k g).1.2 |>)).
Proof. by apply (guild_op_ok (Guild.OpRemove k)). Qed.

Lemma replace_ok old new :
  preserves ok (modify (λ s, s <| guild_service ::= λ g, (Guild.replaceMemberSession old new g).2 |>)).
Proof. by apply (guild_op_ok (Guild.OpReplace old new)). Qed.

#[local] Hint Resolve join_ok leave_ok remove_ok replace_ok : hoare.

Lemma guild_sink_ok e call : preserves ok (guild_sink e call).
Proof. unfold guild_sink. destruct call. walk. Qed.

Lemma chat_sink_ok e call : preserves ok (chat_sink e call).
Proof. unfold chat_sink. destruct call. walk. Qed.

#[local] Hint Resolve guild_sink_ok chat_sink_ok : hoare.

Lemma removeSession_guilds e k : preserves ok (removeSession e k).
Proof. unfold removeSession. walk. Qed.

#[local] Hint Resolve removeSession_guilds : hoare.

Lemma tick_guilds e now : preserves ok (tick e now).
Proof.
  unfold tick. walk. rename a into entries.
  induction entries as [|[k a] entries IH]; cbn [tick_sessions]; [walk|].
  apply preserves_bind; [walk|]. intros. apply preserves_bind; [apply IH|walk].
Qed.

Lemma forceDisconnect_guilds e k why trace : preserves ok (forceDisconnect e k why trace).
Proof. unfold forceDisconnect. walk. Qed.

#[local] Hint Resolve tick_guilds forceDisconnect_guilds : hoare.

Lemma notify_members_guilds c instance own frame members :
  preserves ok (notify_members c instance own frame members).
Proof.
  induction members as [|member members IH]; cbn [notify_members]; [walk|].
  apply preserves_bind; [walk|]. intros found. apply preserves_bind; [walk|]. intros _. exact IH.
Qed.

Lemma start_matches_guilds c user party matches notify :
  preserves ok (start_matches c user party matches notify).
Proof.
  pose proof notify_members_guilds.
  revert notify. induction matches as [|candidate matches IH]; intros notify;
    cbn [start_matches]; unfold match_fails, reject; walk.
Qed.

#[local] Hint Resolve start_matches_guilds : hoare.

(** Every packet but the one that creates a guild. *)
Lemma dispatch_guilds c type payload :
  type ≠ PT_GuildCreateReq → preserves ok (dispatch c type payload).
Proof.
  intros Ht. unfold dispatch. destruct type; try done;
    unfold handle_login, handle_logout, handle_reconnect, take_over, handle_inventory_update,
      handle_match, match_party, handle_dungeon_enter, handle_dungeon_result, record_result,
      handle_guild_join, handle_guild_leave, handle_chat, send_global,
      send_party, login_fails, reconnect_fails, inventory_fails, match_fails, enter_fails,
      result_fails, guild_join_fails, guild_leave_fails, chat_fails, reject; walk.
Qed.

End fixed.

#[local] Hint Resolve guild_sink_ok : hoare.
#[local] Hint Extern 1 (preserves (guilds_ok _) count_error) =>
  (apply preserves_modify; intros ? Hs; exact Hs) : hoare.

Lemma triple_grow {A} n (m : M S A) :
  preserves (guilds_ok n) m → triple (guilds_ok n) m (λ _, guilds_ok (n + 1)).
Proof. intros Hm s Hs. by apply guilds_ok_grow, Hm. Qed.

Lemma guild_create_guilds n c payload :
  n + 1 < 2 ^ 64 →
  triple (guilds_ok n) (handle_guild_create c payload) (λ _, guilds_ok (n + 1)).
Proof.
  intros Hn. unfold handle_guild_create.
  destruct (decodeGuildCreateRequest payload) as [request|];
    [|apply triple_grow; unfold guild_create_fails, reject; walk].
  eapply triple_bind; [apply preserves_current_user|]. intros [context|];
    [|apply triple_grow; unfold guild_create_fails, reject; walk].
  eapply triple_bind; [apply preserves_get|]. intros created.
  eapply triple_bind; [apply preserves_get|]. intros events.
  apply triple_bind with (R := λ _, guilds_ok (n + 1)).
  - apply triple_modify. intros s [Hs Hle].
    set (op := Guild.OpCreate (sid c) (UserContext_user_id context)
                 (GuildCreateRequest_guild_name request)).
    split; [apply (Guild.guild_run_op_ok _ op); [done|lia]|].
    pose proof (Guild.guild_run_op_next _ op Hs ltac:(lia)) as Hnext.
    cbn -[Guild.createGuild] in *. lia.
  - intros []. apply (preserves_bind (guilds_ok (n + 1))).
    { apply preserves_each. intros call. apply guild_sink_ok. }
    intros _. unfold Handlers.answer. destruct created; repeat (apply preserves_bind; [|intros ?]);
      auto with hoare.
Qed.

Lemma dispatch_guilds_grow n c type payload :
  n + 1 < 2 ^ 64 → triple (guilds_ok n) (dispatch c type payload) (λ _, guilds_ok (n + 1)).
Proof.
  intros Hn. destruct type; first [by apply guild_create_guilds|by apply triple_grow, dispatch_guilds].
Qed.

Lemma handlePacket_guilds n e a header payload time s o :
  n + 1 < 2 ^ 64 → heap s !! a = Some o →
  guilds_ok n s → guilds_ok (n + 1) (handlePacket e a header payload time s).1.2.
Proof.
  intros Hn Ho Hs. pose proof (handlePacket_run e a header payload time s o Ho) as E.
  cbn zeta in E. set (c := Build_Packet _ _ _ _ _ _) in E. rewrite E.
  destruct (process_packet_run c (FrameHeader_type header) payload s
              (touched (FrameHeader_version header) time o)) as [Hp Hno].
  change (address c) with a in Hp, Hno.
  destruct (passes_or_not (security_policy s) (touched (FrameHeader_version header) time o)
              (version c) payload) as [[inner Hi]|Hi].
  - rewrite (Hp inner Hi). by apply dispatch_guilds_grow.
  - rewrite (Hno Hi). by apply guilds_ok_grow.
Qed.

Lemma run_server_op_guilds n m op s :
  server_inv m None None s → n + 1 < 2 ^ 64 →
  guilds_ok n s → guilds_ok (n + 1) (run_server_op op s).1.2.
Proof.
  intros Hinv Hn Hs.
  destruct op as [config now trace|e k|e now|e k header payload now|e k why trace|
                  e k why trace|op|op|a op]; unfold run_server_op;
    try by apply guilds_ok_grow.
  - apply guilds_ok_grow. by apply removeSession_guilds.
  - apply guilds_ok_grow. by apply tick_guilds.
  - rewrite run_get. unfold findSession. destruct (sessions s !! k) as [b|] eqn:Eb;
      [|by apply guilds_ok_grow].
    destruct (inv_sessions _ _ _ _ Hinv _ _ Eb) as [-> [o Ho]].
    rewrite run_bind. by apply (handlePacket_guilds _ _ _ _ _ _ _ o).
  - rewrite run_bind. by apply guilds_ok_grow, forceDisconnect_guilds.
  - rewrite run_bind. apply guilds_ok_grow. unfold ret. cbn [fst snd]. revert s Hinv Hs.
    enough (Hm : preserves (guilds_ok n) (forceTerminateSession e k why trace)) by eauto.
    pose proof (forceDisconnect_guilds n Hn). unfold forceTerminateSession. walk.
  - apply guilds_ok_grow. unfold on_session. destruct (heap s !! a); [|done].
    by destruct (run_session_op op _) as [[u o'] logs].
Qed.

Lemma run_server_guilds n m ops s :
  server_inv m None None s → guilds_ok n s →
  m + Z.of_nat (length ops) < 2 ^ 64 → n + Z.of_nat (length ops) < 2 ^ 64 →
  guilds_ok (n + Z.of_nat (length ops)) (run_server ops s).
Proof.
  revert m n s. induction ops as [|op ops IH]; intros m n s Hinv Hs Hm Hn; cbn [length] in *.
  { by rewrite Z.add_0_r. }
  replace (n + Z.of_nat (Datatypes.S (length ops))) with (n + 1 + Z.of_nat (length ops)) by lia.
  apply (IH (m + 1) _ (run_server_op op s).1.2); [| |lia|lia].
  - apply run_server_op_inv; [done|lia].
  - eapply run_server_op_guilds; [done|lia|done].
Qed.

Lemma reachable_guilds (storage : S) policy start ops :
  Z.of_nat (length ops) < 2 ^ 64 - 1 →
  Guild.service_ok (guild_service (run_server ops (new_Server storage policy start).1)).
Proof.
  intros Hlen. destruct (run_server_guilds 1 1 ops (new_Server storage policy start).1) as [Hok _];
    [apply new_Server_inv| |lia..|done].
  split; cbn; [|lia]. by destruct Guild.new_GuildService_ok.
Qed.

End guilds.
