(* ===== verification/ServerSessions.v ===== *)
(** * Login, reconnect and removal of sessions

    What the session operations of the server do to its users, sessions, parties and
    guilds. *)

From S2P Require Auth Party Guild Chat Match Dungeon Groups.
From S2P Require Import Inventory.
From S2P Require Import Prelude Wire Protocol Codec Security Logging Session Server.
From S2P Require Import Handlers Hoare ServerInvariant Idle ServerProperties.
From S2P Require Import ServerSecurity ServerGuilds.

Section sessions.
Context {S : Type} `{HashOrder, InventoryStorage S}.
Implicit Types (s : Server S).

(** ** Attaching a user *)

(** The session [o] of the packet gets the user. *)
Definition attached (c : Packet) (context : UserContext) (o : Session) s : Server S :=
  s <| heap ::= <[address c := attachUserContext context o]> |>
    <| registry ::= λ r, (registerSession (sid c) context r).2 |>.

Section packet.
Context (c : Packet) (Hsid : sid c = address c) (n : Z).

Lemma run_register {B} context (k : bool → M S B) s o :
  server_inv n None (Some (address c)) s →
  heap s !! address c = Some o → can_register c (UserContext_user_id context) s →
  (bind (set_session (address c) (attachUserContext context)) (λ _,
    bind (get (λ s, (registerSession (sid c) context (registry s)).1)) (λ registered,
      bind (modify (λ s, s <| registry ::= λ r, (registerSession (sid c) context r).2 |>)) (λ _,
        k registered))) s).1 = (k true (attached c context o s)).1.
Proof.
  intros Hinv Ho Hc.
  destruct (register_inv n c Hsid (UserContext_user_id context) context s o Hinv Hc eq_refl Ho)
    as [Hreg _].
  erewrite run_set_session by done. rewrite run_get, run_modify.
  change (registry (s <| heap ::= _ |>)) with (registry s). by rewrite Hreg.
Qed.

(** The user is logged in on the session, and the other sessions keep theirs. *)
Lemma attached_spec context s o :
  server_inv n None (Some (address c)) s →
  heap s !! address c = Some o → can_register c (UserContext_user_id context) s →
  server_inv n None (Some (address c)) (attached c context o s) ∧
  ∀ j, sessionUser j (attached c context o s) =
       if decide (j = sid c) then Some context else sessionUser j s.
Proof.
  intros Hinv Ho Hc.
  destruct (register_inv n c Hsid (UserContext_user_id context) context s o Hinv Hc eq_refl Ho)
    as [Hreg Hi].
  split; [exact Hi|]. intros j. unfold sessionUser, registry_find, attached. cbn.
  pose proof (registerSession_spec (sid c) context (registry s) (inv_registry _ _ _ _ Hinv)) as Hr.
  destruct (registerSession (sid c) context (registry s)) as [b r]. cbn in Hreg. subst b.
  destruct Hr as (_ & _ & Hr); cbn [snd]; rewrite Hr. case_decide as Ej.
  - subst j. by rewrite lookup_insert_eq.
  - by rewrite lookup_insert_ne.
Qed.

(** ** Login *)

(** The login succeeds: the request names a user who is logged in nowhere else, with the
    password. *)
Definition may_login s (payload : list byte) (user : string) : Prop :=
  ∃ request, decodeLoginRequest payload = Some request ∧
    LoginRequest_user_id request = user ∧ LoginRequest_password request = "letmein"%string ∧
    ∀ j, hasUser user (registry s) = Some j → j = sid c.

(** The state while the token is issued. *)
Definition token_issued (user : string) s : Server S :=
  s <| token_service ::= λ t, (Auth.issueToken user (now c) (token_draws (env c)) t).2 |>.

Lemma handle_login_success payload user s o :
  server_inv n None (Some (address c)) s → heap s !! address c = Some o →
  may_login s payload user →
  let token := Auth.generateToken (token_draws (env c)) in
  let context := {| UserContext_user_id := user; UserContext_token := token |} in
  (handle_login c payload s).1 =
  (respond c PT_LoginRes (encodeLoginResponse {|
     LoginResponse_accepted := true; LoginResponse_token := token;
     LoginResponse_message := "Login accepted" |}),
   attached c context o (token_issued user s)).
Proof.
  intros Hinv Ho (request & Hd & Hu & Hpw & Hfree) token context. unfold handle_login.
  rewrite Hd, Hpw. cbn zeta. rewrite bool_decide_eq_true_2 by done. cbn [negb].
  rewrite run_get, Hu.
  replace (match hasUser user (registry s) with Some _ => _ | None => false end) with false.
  2:{ destruct (hasUser user (registry s)) as [j|]; [|done]. rewrite (Hfree j eq_refl).
      by rewrite Z.eqb_refl. }
  rewrite run_get, run_modify. fold (token_issued user s).
  change (Auth.issueToken user (now c) (token_draws (env c)) (token_service s)).1 with token.
  fold context. rewrite (run_register context _ _ o); [done| |done|].
  - by apply (inv_same n None _ s).
  - change (match hasUser user (registry s) with Some j => j = sid c | None => True end).
    destruct (hasUser user (registry s)) as [j|]; [by apply Hfree|done].
Qed.

Lemma handle_login_failure payload s :
  (∀ user, ¬ may_login s payload user) →
  ∃ message, (handle_login c payload s).1 =
    (respond c PT_LoginRes (login_failure message), error_counted s).
Proof.
  intros Hno. unfold handle_login, login_fails.
  destruct (decodeLoginRequest payload) as [request|] eqn:Hd; [|by eexists].
  case_bool_decide as Hpw; cbn [negb]; [|by eexists]. rewrite run_get.
  destruct (hasUser (LoginRequest_user_id request) (registry s)) as [j|] eqn:Hj.
  - destruct (j =? sid c) eqn:E; cbn [negb]; [|by eexists].
    apply Z.eqb_eq in E. destruct (Hno (LoginRequest_user_id request)).
    exists request. split_and!; try done. congruence.
  - destruct (Hno (LoginRequest_user_id request)). exists request. split_and!; try done. congruence.
Qed.

(** ** Reconnect *)

(** The server after the session [old], object [o], is taken over. *)
Definition taken_over (old : Z) (o : Session) s : Server S :=
  s <| party_service ::= λ p, (Party.replaceMemberSession old (sid c) p).2 |>
    <| guild_service ::= λ g, (Guild.replaceMemberSession old (sid c) g).2 |>
    <| session_instances ::= move_entry old (sid c) |>
    <| session_characters ::= move_entry old (sid c) |>
    <| heap ::= <[old := clearUserContext o]> |>
    <| sessions ::= delete old |>
    <| registry ::= registry_removeSession old |>.

Lemma run_take_over old s o :
  sessions s !! old = Some old → heap s !! old = Some o →
  (take_over c old s).1 = (lastSeq o, taken_over old o s).
Proof.
  intros Hs Ho. unfold take_over. rewrite run_get. unfold findSession. rewrite Hs, run_bind.
  rewrite run_get, Ho, !run_modify. cbn [from_option].
  assert (Hset : ∀ f (k : unit → M S Z) s', heap s' !! old = Some o →
    (bind (set_session old f) k s').1 = (k tt (s' <| heap ::= <[old := f o]> |>)).1).
  { intros. by apply run_set_session. }
  rewrite Hset by done. by rewrite run_modify.
Qed.

(** Entries of [session_instances_] or [session_characters_], when [new] takes over the
    entry of [old]: if there is none, [new] keeps its own. *)
Definition take_entry {A} (old new : Z) (entries : Z → option A) (j : Z) : option A :=
  if decide (j = new) then match entries old with Some x => Some x | None => entries new end
  else if decide (j = old) then None else entries j.

Lemma lookup_move_entry {A} old new (m : gmap Z A) j :
  old ≠ new → move_entry old new m !! j = take_entry old new (λ i, m !! i) j.
Proof.
  intros Hne. unfold move_entry, take_entry. destruct (m !! old) as [x|] eqn:Ex.
  - repeat case_decide; subst; [|apply lookup_delete_eq|].
    + by rewrite lookup_delete_ne, lookup_insert_eq.
    + by rewrite lookup_delete_ne, lookup_insert_ne.
  - repeat case_decide; by subst.
Qed.

(** The server [s'] is [s] with the session [old] replaced by [new]: [old] is no session of
    it, and [new] has its seats, its dungeon and its character. *)
Record replaced (old new : Z) s s' : Prop := {
  replaced_session : sessions s' = delete old (sessions s);
  replaced_party j :
    Party.seat_of (party_service s') j =
    Groups.take_seat old new (Party.seat_of (party_service s)) j;
  replaced_guild j :
    Guild.seat_of (guild_service s') j =
    Groups.take_seat old new (Guild.seat_of (guild_service s)) j;
  replaced_instance j :
    session_instances s' !! j = take_entry old new (λ i, session_instances s !! i) j;
  replaced_character j :
    session_characters s' !! j = take_entry old new (λ i, session_characters s !! i) j
}.

(** The session a reconnect of the user displaces, if any. *)
Definition displaced (user : string) s : option Z :=
  match hasUser user (registry s) with
  | Some old => if decide (old = sid c) then None else Some old
  | None => None
  end.

(** Up to the registration of the new session. *)
Definition cleared (user : string) s : Server S :=
  match displaced user s with
  | Some old => taken_over old (default (new_Session old default_SessionConfig 0 "") (heap s !! old)) s
  | None => s
  end.

Definition displaced_seq (user : string) s : Z :=
  match displaced user s with
  | Some old => from_option lastSeq 0 (heap s !! old)
  | None => 0
  end.

(** The user's session is one of the server's. *)
Lemma active_session user old s :
  server_inv n None (Some (address c)) s → hasUser user (registry s) = Some old →
  sessions s !! old = Some old ∧ ∃ o, heap s !! old = Some o.
Proof.
  intros Hinv Hold. pose proof Hold as (record & Hrec & _)%(inv_registry _ _ _ _ Hinv).
  rewrite (inv_users _ _ _ _ Hinv old) in Hrec by done.
  destruct (sessions s !! old) as [a|] eqn:Ea; [|done].
  destruct (inv_sessions _ _ _ _ Hinv _ _ Ea) as [-> [o Ho]]. eauto.
Qed.

Lemma run_clear user s :
  server_inv n None (Some (address c)) s →
  (match hasUser user (registry s) with
   | Some old => if negb (old =? sid c) then take_over c old else ret 0
   | None => ret 0
   end s).1 = (displaced_seq user s, cleared user s).
Proof.
  intros Hinv. unfold displaced_seq, cleared, displaced.
  destruct (hasUser user (registry s)) as [old|] eqn:Hold; [|done].
  case_decide as Ed; [subst old; by rewrite Z.eqb_refl|].
  rewrite (proj2 (Z.eqb_neq _ _)) by done. cbn [negb].
  destruct (active_session user old s Hinv Hold) as (Hs & o & Ho).
  rewrite (run_take_over old s o) by done. by rewrite Ho.
Qed.

Lemma cleared_spec user s :
  server_inv n None (Some (address c)) s →
  server_inv n None (Some (address c)) (cleared user s) ∧
  can_register c user (cleared user s) ∧
  (∀ j, sessionUser j (cleared user s) =
        if decide (displaced user s = Some j) then None else sessionUser j s) ∧
  heap (cleared user s) !! address c = heap s !! address c.
Proof.
  intros Hinv. unfold cleared. destruct (displaced user s) as [old|] eqn:Hd.
  - unfold displaced in Hd. destruct (hasUser user (registry s)) as [k|] eqn:Hk; [|done].
    case_decide as Hne; simplify_eq.
    destruct (active_session user old s Hinv Hk) as (Hs & o & Ho). rewrite Ho. change (default _ (Some o)) with o.
    pose proof (take_over_inv n c Hsid user old Hne s (conj Hinv Hk)) as [Hi Hu].
    rewrite (run_take_over old s o) in Hi, Hu by done.
    split_and!; [exact Hi| | |].
    + unfold can_register. cbn [snd] in Hu. by rewrite Hu.
    + intros j. unfold sessionUser, registry_find. cbn.
      destruct (registry_removeSession_spec old (registry s) (inv_registry _ _ _ _ Hinv)) as [_ ->].
      case_decide as Ej; [simplify_eq; apply lookup_delete_eq|].
      rewrite lookup_delete_ne; congruence.
    + cbn. apply lookup_insert_ne. congruence.
  - split_and!; [done| |by intros j; case_decide|done]. unfold can_register.
    unfold displaced in Hd. destruct (hasUser user (registry s)); [|done]. by case_decide.
Qed.

(** What clearing does to the places of the displaced session. *)
Lemma cleared_places user s :
  server_inv n None (Some (address c)) s → Guild.service_ok (guild_service s) →
  match displaced user s with
  | Some old => replaced old (sid c) s (cleared user s)
  | None => cleared user s = s
  end.
Proof.
  intros Hinv Hguild. unfold cleared. destruct (displaced user s) as [old|] eqn:Hd; [|done].
  assert (Hne : old ≠ sid c).
  { unfold displaced in Hd. destruct (hasUser user (registry s)); [|done]. case_decide; congruence. }
  split; [done|..]; intros j; cbn -[move_entry].
  - by apply Party.seats_after_replace; [apply Hinv|].
  - by apply Guild.guild_seats_after_replace.
  - by apply lookup_move_entry.
  - by apply lookup_move_entry.
Qed.

Definition reconnect_accepted (last : Z) : option (list byte) :=
  respond c PT_SessionReconnectRes (encodeSessionReconnectResponse {|
    SessionReconnectResponse_success := true;
    SessionReconnectResponse_message := "Reconnect accepted";
    SessionReconnectResponse_session_id := sid c;
    SessionReconnectResponse_resume_from_seq := u32 (u64 (last + 1)) |}).

(** The state after a reconnect, in terms of the one before. *)
Lemma handle_reconnect_run payload request user s o :
  server_inv n None (Some (address c)) s → heap s !! address c = Some o →
  decodeSessionReconnectRequest payload = Some request →
  (Auth.validateToken (SessionReconnectRequest_token request) (now c) (token_service s)).1 =
    Some user →
  let context := {| UserContext_user_id := user;
                    UserContext_token := SessionReconnectRequest_token request |} in
  let last := Z.max (SessionReconnectRequest_last_seq request) (displaced_seq user s) in
  (handle_reconnect c payload s).1 =
  (reconnect_accepted last,
   attached c context o (cleared user s)
     <| heap ::= <[address c := setLastSeq last (attachUserContext context o)]> |>).
Proof.
  intros Hinv Ho Hd Hv context last. unfold handle_reconnect. rewrite Hd. cbn zeta.
  rewrite run_get, Hv, run_modify.
  assert (Es : s <| token_service ::= λ t, (Auth.validateToken
            (SessionReconnectRequest_token request) (now c) t).2 |> = s).
  { unfold Auth.validateToken in *. destruct s. cbn in *.
    destruct (Auth.tokens token_service !! _) as [record|]; [|done]. by destruct (_ <=? _). }
  rewrite Es, run_get, run_bind, run_clear by done. cbn [fst snd].
  destruct (cleared_spec user s Hinv) as (Hi & Hc & _ & Eh).
  rewrite (run_register context _ _ o) by (try rewrite Eh; done). cbn [negb].
  erewrite run_set_session by apply lookup_insert_eq. done.
Qed.

End packet.

(** ** Removal *)

(** Everything but the session objects. *)
Definition offheap s : Server S := s <| heap := ∅ |>.

Section offheap.
Context (x : Server S).

Definition off s : Prop := offheap s = x.

Lemma on_session_off {A} k (d : A) method : preserves off (on_session k d method).
Proof. apply preserves_on_session. by intros s o Hs _. Qed.

Lemma send_off e k payload : preserves off (send e k payload).
Proof. apply on_session_off. Qed.

#[local] Hint Resolve send_off : hoare.

Lemma guild_sink_off e call : preserves off (guild_sink e call).
Proof. unfold guild_sink. destruct call. walk. Qed.

Lemma guild_sinks_off e calls : preserves off (each (guild_sink e) calls).
Proof. apply preserves_each. intros. apply guild_sink_off. Qed.

End offheap.

(** A removed session, but for the frames the guild sends about it. *)
Definition removed (k : Z) s : Server S :=
  s <| sessions ::= delete k |>
    <| registry ::= registry_removeSession k |>
    <| party_service ::= λ p, (Party.removeMember k p).1.2 |>
    <| guild_service ::= λ g, (Guild.removeMember k g).1.2 |>
    <| session_instances ::= delete k |>
    <| session_characters ::= delete k |>.

(** The erasing of the session itself. *)
Definition erase_session (k : Z) (found : option Z) : M S unit :=
  match found with
  | None => ret tt
  | Some address =>
    object <- get (λ s, heap s !! address);;
    match object with
    | None => ret tt
    | Some object =>
      log_event "info" "session_removed" "Session removed"
        (no_fields <| session_id := Some (id object) |>
                   <| session_trace_id := Some (session_trace object) |>)
    end;;
    set_session address clearUserContext;;
    modify (λ s, s <| sessions ::= delete k |>)
  end.

Lemma erase_session_off k s :
  offheap (erase_session k (sessions s !! k) s).1.2 = offheap (s <| sessions ::= delete k |>).
Proof.
  unfold erase_session. destruct (sessions s !! k) as [a|] eqn:E.
  - rewrite run_get, run_bind.
    replace (match heap s !! a with Some _ => _ | None => ret tt end s).1
      with (tt, s) by by destruct (heap s !! a).
    cbn [fst snd]. rewrite run_bind. unfold set_session, on_session. by destruct (heap s !! a).
  - unfold offheap. cbn. by rewrite delete_id.
Qed.

Lemma removeSession_off e k s : offheap (removeSession e k s).1.2 = offheap (removed k s).
Proof.
  pose proof (erase_session_off k s) as E1. unfold removeSession. rewrite run_get, run_bind.
  fold (erase_session k (findSession k s)). change (findSession k s) with (sessions s !! k).
  destruct (erase_session k (sessions s !! k) s) as [[[] s1] l]. cbn [fst snd] in *.
  rewrite !run_modify, run_get, run_modify, run_bind. clear l.
  set (s2 := s1 <| registry ::= registry_removeSession k |>
                <| party_service ::= λ p, (Party.removeMember k p).1.2 |>
                <| guild_service ::= λ g, (Guild.removeMember k g).1.2 |>).
  pose proof (guild_sinks_off (offheap s2) e (Guild.removeMember k (guild_service s1)).2 s2 eq_refl)
    as E2.
  change (guild_service (s1 <| registry ::= _ |> <| party_service ::= _ |>)) with (guild_service s1).
  fold s2. destruct (each _ _ s2) as [[[] s3] l]. unfold off in E2. cbn [fst snd] in E2 |- *.
  change (offheap s3 <| session_instances ::= delete k |> <| session_characters ::= delete k |> =
          offheap (s <| sessions ::= delete k |>)
            <| registry ::= registry_removeSession k |>
            <| party_service ::= λ p, (Party.removeMember k p).1.2 |>
            <| guild_service ::= λ g, (Guild.removeMember k g).1.2 |>
            <| session_instances ::= delete k |> <| session_characters ::= delete k |>).
  rewrite E2. unfold s2. rewrite <- E1. done.
Qed.

(** What [offheap] keeps. *)
Lemma offheap_eq s s' :
  offheap s = offheap s' →
  sessions s = sessions s' ∧ registry s = registry s' ∧ party_service s = party_service s' ∧
  guild_service s = guild_service s' ∧ session_instances s = session_instances s' ∧
  session_characters s = session_characters s'.
Proof. intros E. by injection E. Qed.

(** What of the server is about anything but single sessions: the tokens, the match queue,
    the dungeons, the inventories, the rewards, the counters and the settings. *)
Definition rest s : Server S :=
  s <| heap := ∅ |> <| sessions := ∅ |> <| registry := {| records := ∅; active_users := ∅ |} |>
    <| party_service := Party.new_PartyService |> <| guild_service := Guild.new_GuildService |>
    <| session_instances := ∅ |> <| session_characters := ∅ |>.

Lemma offheap_rest s s' : offheap s = offheap s' → rest s = rest s'.
Proof. intros E. change (rest (offheap s) = rest (offheap s')). by rewrite E. Qed.

(** The server [s'] is [s] without the sessions of [dead]: they are not its sessions and
    have no user, dungeon or character, and no seat in a party or a guild, where those they
    led are no more. All else is as it was. *)
Record without (dead : Z → bool) s s' : Prop := {
  without_session j : sessions s' !! j = if dead j then None else sessions s !! j;
  without_user j : sessionUser j s' = if dead j then None else sessionUser j s;
  without_instance j :
    session_instances s' !! j = if dead j then None else session_instances s !! j;
  without_character j :
    session_characters s' !! j = if dead j then None else session_characters s !! j;
  without_party j :
    Party.seat_of (party_service s') j =
    Groups.leave_seats dead (Party.seat_of (party_service s)) j;
  without_guild j :
    Guild.seat_of (guild_service s') j =
    Groups.leave_seats dead (Guild.seat_of (guild_service s)) j;
  without_rest : rest s' = rest s
}.

Lemma without_cons k dead s s1 s' :
  without (Z.eqb k) s s1 → without dead s1 s' → without (λ j, (k =? j) || dead j) s s'.
Proof.
  intros [A1 A2 A3 A4 A5 A6 A7] [B1 B2 B3 B4 B5 B6 B7].
  split; try intros j; [rewrite B1, A1|rewrite B2, A2|rewrite B3, A3|rewrite B4, A4| | |congruence];
    try by destruct (k =? j), (dead j).
  - rewrite B5. by apply Groups.leave_seats_cons.
  - rewrite B6. by apply Groups.leave_seats_cons.
Qed.

Lemma without_ext p q s s' : (∀ j, p j = q j) → without p s s' → without q s s'.
Proof.
  intros E [A1 A2 A3 A4 A5 A6 A7].
  split; try intros j; rewrite <- ?E; try done.
  - rewrite A5. by apply Groups.leave_seats_ext.
  - rewrite A6. by apply Groups.leave_seats_ext.
Qed.

Lemma without_none s s' : offheap s' = offheap s → without (λ _, false) s s'.
Proof.
  intros E. pose proof (offheap_rest _ _ E).
  destruct (offheap_eq _ _ E) as (E1 & E2 & E3 & E4 & E5 & E6).
  split; try intros j; unfold sessionUser, Groups.leave_seats; rewrite ?E1, ?E2, ?E3, ?E4, ?E5, ?E6;
    try done; [by destruct (Party.seat_of _ j)|by destruct (Guild.seat_of _ j)].
Qed.

Lemma without_off dead s s1 s' :
  offheap s1 = offheap s → without dead s1 s' → without dead s s'.
Proof.
  intros E [A1 A2 A3 A4 A5 A6 A7]. pose proof (offheap_rest _ _ E) as Er.
  destruct (offheap_eq _ _ E) as (E1 & E2 & E3 & E4 & E5 & E6). unfold sessionUser in *.
  rewrite E1 in A1. rewrite E2 in A2. rewrite E5 in A3. rewrite E6 in A4. rewrite E3 in A5.
  rewrite E4 in A6. rewrite Er in A7. by split.
Qed.

Lemma removeSession_without n e k s :
  server_inv n None None s → Guild.service_ok (guild_service s) →
  without (Z.eqb k) s (removeSession e k s).1.2 ∧
  Guild.service_ok (guild_service (removeSession e k s).1.2).
Proof.
  intros Hinv Hguild. pose proof (removeSession_off e k s) as E.
  pose proof (offheap_rest _ _ E) as Er.
  destruct (offheap_eq _ _ E) as (E1 & E2 & E3 & E4 & E5 & E6).
  assert (Hdel : ∀ {A} (m : gmap Z A) j, delete k m !! j = if k =? j then None else m !! j).
  { intros A m j. destruct (k =? j) eqn:Ej; bool_props; subst;
      [apply lookup_delete_eq|by apply lookup_delete_ne]. }
  destruct (registry_removeSession_spec k (registry s) (inv_registry _ _ _ _ Hinv)) as [_ Ereg].
  split; [|rewrite E4; by apply Guild.guild_removeMember_ok].
  split; try intros j; unfold sessionUser, registry_find; rewrite ?E1, ?E2, ?E3, ?E4, ?E5, ?E6; cbn.
  - apply Hdel.
  - rewrite Ereg. apply Hdel.
  - apply Hdel.
  - apply Hdel.
  - apply Party.seats_after_remove, Hinv.
  - by apply Guild.guild_seats_after_remove.
  - exact Er.
Qed.

(** ** Ticks *)

(** The session stays: it is connected and received something recently enough. *)
Definition stays (now : Z) (o : Session) : bool :=
  connected o && (now - last_receive o <? timeout (config o) * ns_per_ms).

Lemma tick_session_stays now o : (tick_session now o).1.1 = stays now o.
Proof.
  unfold tick_session, stays, disconnect. destruct (connected o) eqn:E; [|done]. cbn [negb andb].
  rewrite Z.ltb_antisym. destruct (_ <=? _); rewrite ?E; done.
Qed.

Definition dies (now : Z) s (entry : Z * Z) : Prop :=
  from_option (stays now) false (heap s !! entry.2) = false.

#[export] Instance dies_dec now s entry : Decision (dies now s entry).
Proof. unfold dies. apply _. Defined.

Lemma run_tick_sessions now entries s :
  NoDup entries.*2 →
  (tick_sessions now entries s).1.1 = (filter (dies now s) entries).*1.
Proof.
  revert s. induction entries as [|[k a] entries IH]; intros s; cbn [tick_sessions fmap list_fmap];
    [done|].
  intros [Ha Hnd]%NoDup_cons. rewrite run_bind.
  set (s1 := (on_session a false (tick_session now) s).1.2).
  set (alive := (on_session a false (tick_session now) s).1.1).
  assert (Ealive : alive = from_option (stays now) false (heap s !! a)).
  { unfold alive, on_session. destruct (heap s !! a) as [o|]; [|done]. cbn.
    rewrite <- tick_session_stays. by destruct (tick_session now o) as [[b o'] l]. }
  assert (Eother : ∀ b, b ≠ a → heap s1 !! b = heap s !! b).
  { intros b Hb. unfold s1, on_session. destruct (heap s !! a) as [o|]; [|done].
    destruct (tick_session now o) as [[x o'] l]. cbn. by rewrite lookup_insert_ne. }
  assert (Efilter : filter (dies now s1) entries = filter (dies now s) entries).
  { apply filter_agree. intros [j b] Hin. unfold dies. cbn [snd].
    rewrite Eother; [done|]. intros ->. apply Ha. by apply (list_elem_of_fmap_2 snd) in Hin. }
  rewrite run_bind. unfold ret. cbn [fst snd]. rewrite (IH s1 Hnd), Efilter.
  assert (Hd : dies now s (k, a) ↔ alive = false) by (unfold dies; by rewrite Ealive).
  rewrite filter_cons. destruct alive; cbn [negb]; case_decide; naive_solver.
Qed.

Lemma tick_sessions_off now entries s : offheap (tick_sessions now entries s).1.2 = offheap s.
Proof.
  enough (Hm : preserves (off (offheap s)) (tick_sessions now entries)) by by apply Hm.
  induction entries as [|[k a] entries IH]; cbn [tick_sessions]; [apply preserves_ret|].
  apply preserves_bind; [apply on_session_off|]. intros alive.
  apply preserves_bind; [exact IH|]. intros l. apply preserves_ret.
Qed.

(** Removing sessions one after the other. *)
Lemma remove_all n e ks s :
  server_inv n None None s → Guild.service_ok (guild_service s) →
  without (λ j, bool_decide (j ∈ ks)) s (each (removeSession e) ks s).1.2.
Proof.
  revert s. induction ks as [|k ks IH]; intros s Hinv Hguild.
  { by apply (without_ext (λ _, false)), without_none. }
  cbn [each]. rewrite run_bind.
  destruct (removeSession_without n e k s Hinv Hguild) as [Hk Hguild'].
  pose proof (IH _ (removeSession_inv n e k s Hinv) Hguild') as Hks.
  eapply without_ext; [|exact (without_cons _ _ _ _ _ Hk Hks)].
  intros j. cbn. destruct (k =? j) eqn:Ej; bool_props; cbn [orb].
  - subst. by rewrite bool_decide_eq_true_2 by set_solver.
  - apply bool_decide_ext. set_solver.
Qed.

(** The session stays on the server. *)
Definition remains (now : Z) s (k : Z) : bool :=
  from_option (stays now) false (sessions s !! k ≫= λ a, heap s !! a).

(** A tick removes the session. *)
Definition timed_out (now : Z) s (k : Z) : bool :=
  bool_decide (is_Some (sessions s !! k)) && negb (remains now s k).

Lemma tick_without n e now s :
  server_inv n None None s → Guild.service_ok (guild_service s) →
  without (timed_out now s) s (tick e now s).1.2.
Proof.
  intros Hinv Hguild. unfold tick. rewrite run_get, run_bind.
  assert (Haddr : ∀ entry, entry ∈ hash_iter (sessions s) → entry.2 = entry.1).
  { intros [j a] Hin%elem_of_hash_iter. by destruct (inv_sessions _ _ _ _ Hinv _ _ Hin). }
  assert (Hnd : NoDup (hash_iter (sessions s)).*2).
  { rewrite (list_fmap_ext snd fst) by (intros i entry Hi; eapply Haddr, list_elem_of_lookup_2, Hi).
    apply NoDup_hash_iter_keys. }
  rewrite run_tick_sessions by done.
  pose proof (tick_sessions_off now (hash_iter (sessions s)) s) as Eoff.
  assert (Hguild' : Guild.service_ok (guild_service (tick_sessions now (hash_iter (sessions s)) s).1.2)).
  { by destruct (offheap_eq _ _ Eoff) as (_ & _ & _ & -> & _). }
  eapply without_ext; [|exact (without_off _ _ _ _ Eoff
    (remove_all n e _ _ (tick_sessions_inv n now (hash_iter (sessions s)) s Hinv) Hguild'))].
  intros k. cbn beta. unfold timed_out, remains.
  assert (Hdead : k ∈ (filter (dies now s) (hash_iter (sessions s))).*1 ↔
                  ∃ a, sessions s !! k = Some a ∧ from_option (stays now) false (heap s !! a) = false).
  { rewrite list_elem_of_fmap. setoid_rewrite list_elem_of_filter. split.
    - intros ([j a] & -> & Hd & Hin%elem_of_hash_iter). eauto.
    - intros (a & Ha & Hd). exists (k, a). by rewrite elem_of_hash_iter. }
  destruct (sessions s !! k) as [a|]; cbn [option_bind mbind].
  - rewrite (bool_decide_eq_true_2 (is_Some _)) by done. cbn [andb].
    destruct (from_option _ _ (heap s !! a)) eqn:El; cbn [negb].
    + apply bool_decide_eq_false_2. rewrite Hdead. intros (b & [= <-] & ?). congruence.
    + apply bool_decide_eq_true_2, Hdead. by exists a.
  - rewrite !bool_decide_eq_false_2; [done|by intros [? [=]]|].
    rewrite Hdead. by intros (? & [=] & _).
Qed.

(** ** Forced disconnection *)

Lemma forceDisconnect_spec n e k why trace s :
  server_inv n None None s → Guild.service_ok (guild_service s) →
  let '(result, s', _) := forceDisconnect e k why trace s in
  result = bool_decide (is_Some (sessions s !! k)) ∧
  (if result : bool then without (Z.eqb k) s s' else s' = error_counted s).
Proof.
  intros Hinv Hguild.
  assert (E : (forceDisconnect e k why trace s).1 =
    if bool_decide (is_Some (sessions s !! k)) then (true, (removeSession e k s).1.2)
    else (false, error_counted s)).
  { unfold forceDisconnect. rewrite run_get. unfold findSession.
    destruct (sessions s !! k) as [a|] eqn:Ea.
    - rewrite bool_decide_eq_true_2 by eauto. by rewrite run_get, run_log_event, run_bind.
    - rewrite bool_decide_eq_false_2 by (by intros [? [=]]). done. }
  destruct (forceDisconnect e k why trace s) as [[result s'] logs]. cbn [fst] in E.
  case_bool_decide; simplify_eq; split; try done. by apply (removeSession_without n).
Qed.

End sessions.

(** ** Properties *)

(** A packet of a reachable server's session. *)
Lemma reachable_live {S} `{HashOrder, InventoryStorage S} (storage : S) policy start ops k :
  Z.of_nat (length ops) < 2 ^ 64 - 1 →
  let s := run_server ops (new_Server storage policy start).1 in
  sessions s !! k = Some k → server_inv (1 + Z.of_nat (length ops)) None (Some k) s.
Proof.
  intros Hlen s Hk.
  assert (Hs : server_inv (1 + Z.of_nat (length ops)) None None s).
  { apply run_server_inv; [apply new_Server_inv|lia]. }
  destruct Hs. split; try done. by intros j [= <-].
Qed.

(** C5: a login succeeds exactly when the payload names the password and a user who is
    logged in on no other session. It then logs the user in on the packet's session,
    replacing whoever was there, changes no other session's user, and its answer carries
    a token that is valid for that user until the time to live has passed. Otherwise the
    login is refused and nothing changes but the error counter. *)
Theorem login_spec {S} `{HashOrder, InventoryStorage S} (storage : S) policy start ops
    c payload o :
  Z.of_nat (length ops) < 2 ^ 64 - 1 →
  let s := run_server ops (new_Server storage policy start).1 in
  sid c = address c → sessions s !! address c = Some (address c) →
  heap s !! address c = Some o →
  (∀ user, may_login c s payload user →
     let '(reply, s', _) := handle_login c payload s in
     let token := Auth.generateToken (token_draws (env c)) in
     reply = respond c PT_LoginRes (encodeLoginResponse {|
       LoginResponse_accepted := true; LoginResponse_token := token;
       LoginResponse_message := "Login accepted" |}) ∧
     (∀ j, sessionUser j s' =
           if decide (j = sid c)
           then Some {| UserContext_user_id := user; UserContext_token := token |}
           else sessionUser j s) ∧
     ∀ time, (Auth.validateToken token time (token_service s')).1 =
       if decide (time < now c + Auth.ttl (token_service s) * ns_per_second)
       then Some user else None) ∧
  ((∀ user, ¬ may_login c s payload user) →
     ∃ message, (handle_login c payload s).1 =
       (respond c PT_LoginRes (login_failure message), error_counted s)).
Proof.
  intros Hlen s Hsid Hk Ho. pose proof (reachable_live storage policy start ops _ Hlen Hk) as Hinv.
  fold s in Hinv. split; [|apply handle_login_failure].
  intros user Hm. pose proof (handle_login_success c Hsid _ payload user s o Hinv Ho Hm) as E.
  destruct (handle_login c payload s) as [[reply s'] logs]. cbn [fst] in E. injection E as -> ->.
  cbn zeta. set (token := Auth.generateToken _). split_and!; [done| |].
  - assert (Hinv' : server_inv (1 + Z.of_nat (length ops)) None (Some (address c))
                      (token_issued c user s)) by by apply (inv_same _ _ _ s).
    refine (proj2 (attached_spec c Hsid _ _ _ _ Hinv' Ho _)).
    destruct Hm as (_ & _ & _ & _ & Hfree).
    change (match hasUser user (registry s) with Some j => j = sid c | None => True end).
    destruct (hasUser user (registry s)) as [j|]; [by apply Hfree|done].
  - intros time. cbn. unfold Auth.validateToken. cbn. rewrite lookup_insert_eq. cbn.
    destruct (_ <=? _) eqn:El; bool_props; case_decide; try done; lia.
Qed.

Definition bob : list byte := encodeLoginRequest {|
  LoginRequest_user_id := "bob"; LoginRequest_password := "letmein" |}.

Lemma login_spec_witness :
  let s := run_sample [connect; connect; login 1 "ann"] in
  let c := sample_packet 2 in
  may_login c s bob "bob" ∧
  ((∀ user, may_login c s bob user →
     let '(reply, s', _) := handle_login c bob s in
     let token := Auth.generateToken (token_draws (env c)) in
     reply = respond c PT_LoginRes (encodeLoginResponse {|
       LoginResponse_accepted := true; LoginResponse_token := token;
       LoginResponse_message := "Login accepted" |}) ∧
     (∀ j, sessionUser j s' =
           if decide (j = sid c)
           then Some {| UserContext_user_id := user; UserContext_token := token |}
           else sessionUser j s) ∧
     ∀ time, (Auth.validateToken token time (token_service s')).1 =
       if decide (time < now c + Auth.ttl (token_service s) * ns_per_second)
       then Some user else None) ∧
  ((∀ user, ¬ may_login c s bob user) →
     ∃ message, (handle_login c bob s).1 =
       (respond c PT_LoginRes (login_failure message), error_counted s))).
Proof.
  cbn zeta. split.
  { eexists. split; [by vm_compute|]. split; [done|]. split; [done|]. intros j. by vm_compute. }
  apply (login_spec (H := bucket_order) new_InMemoryInventoryStorage default_SecurityPolicy 0
    [connect; connect; login 1 "ann"] (sample_packet 2) bob (default (new_Session 0 default_SessionConfig 0 "")
      (heap (run_sample [connect; connect; login 1 "ann"]) !! 2))); by vm_compute.
Defined.

(** C6: a reconnect with a valid token moves the user to the packet's session. If the user
    was on another session, that session leaves the server, and the packet's session takes
    its party and guild seats (group, user and, where it led, leadership), its dungeon and
    its character; everyone else keeps theirs. A session that already sits in a party or
    guild takes no seat over there: the old one stays a member. No other user is affected.
    If the user was on no other session, nothing moves. The session's last sequence becomes
    the larger of the one the client names and the displaced session's, and the answer
    tells the client to go on from the next one, modulo 2^32. *)
Theorem reconnect_spec {S} `{HashOrder, InventoryStorage S} (storage : S) policy start ops
    c payload request user o :
  Z.of_nat (length ops) < 2 ^ 64 - 1 →
  let s := run_server ops (new_Server storage policy start).1 in
  sid c = address c → sessions s !! address c = Some (address c) →
  heap s !! address c = Some o →
  decodeSessionReconnectRequest payload = Some request →
  (Auth.validateToken (SessionReconnectRequest_token request) (now c) (token_service s)).1 =
    Some user →
  let last := Z.max (SessionReconnectRequest_last_seq request) (displaced_seq c user s) in
  let '(reply, s', _) := handle_reconnect c payload s in
  reply = reconnect_accepted c last ∧
  lastSeq <$> heap s' !! address c = Some last ∧
  (∀ j, sessionUser j s' =
        if decide (j = sid c)
        then Some {| UserContext_user_id := user;
                     UserContext_token := SessionReconnectRequest_token request |}
        else if decide (displaced c user s = Some j) then None else sessionUser j s) ∧
  match displaced c user s with
  | Some old => replaced old (sid c) s s'
  | None =>
    sessions s' = sessions s ∧ party_service s' = party_service s ∧
    guild_service s' = guild_service s ∧ session_instances s' = session_instances s ∧
    session_characters s' = session_characters s
  end.
Proof.
  intros Hlen s Hsid Hk Ho Hd Hv last.
  pose proof (reachable_live storage policy start ops _ Hlen Hk) as Hinv. fold s in Hinv.
  pose proof (reachable_guilds storage policy start ops Hlen) as Hguild. fold s in Hguild.
  pose proof (handle_reconnect_run c Hsid _ payload request user s o Hinv Ho Hd Hv) as E.
  cbn zeta in E. fold last in E.
  destruct (handle_reconnect c payload s) as [[reply s'] logs]. cbn [fst] in E. injection E as -> ->.
  destruct (cleared_spec c Hsid _ user s Hinv) as (Hi & Hc & Hu & Eh).
  pose proof (cleared_places c _ user s Hinv Hguild) as Hplaces.
  split_and!; [done| | |].
  - cbn. by rewrite lookup_insert_eq.
  - intros j. rewrite <- Hu. rewrite <- Eh in Ho.
    exact (proj2 (attached_spec c Hsid _
      {| UserContext_user_id := user; UserContext_token := SessionReconnectRequest_token request |}
      _ _ Hi Ho Hc) j).
  - destruct (displaced c user s) as [old|]; [|by rewrite Hplaces].
    by destruct Hplaces; split.
Qed.

Definition away_ops : list server_op :=
  [connect; connect; login 1 "ann"; OpParty (Party.OpCreate 1 "ann")].

Definition sample_reconnect : SessionReconnectRequest := {|
  SessionReconnectRequest_token := "ABCD"; SessionReconnectRequest_last_seq := 0 |}.

Lemma reconnect_spec_witness :
  let s := run_sample away_ops in
  let c := sample_packet 2 in
  let last := Z.max (SessionReconnectRequest_last_seq sample_reconnect) (displaced_seq c "ann" s) in
  displaced c "ann" s = Some 1 ∧ is_Some (Party.seat_of (party_service s) 1) ∧
  let '(reply, s', _) := handle_reconnect c ann_again s in
  reply = reconnect_accepted c last ∧
  lastSeq <$> heap s' !! address c = Some last ∧
  (∀ j, sessionUser j s' =
        if decide (j = sid c)
        then Some {| UserContext_user_id := "ann";
                     UserContext_token := SessionReconnectRequest_token sample_reconnect |}
        else if decide (displaced c "ann" s = Some j) then None else sessionUser j s) ∧
  match displaced c "ann" s with
  | Some old => replaced old (sid c) s s'
  | None =>
    sessions s' = sessions s ∧ party_service s' = party_service s ∧
    guild_service s' = guild_service s ∧ session_instances s' = session_instances s ∧
    session_characters s' = session_characters s
  end.
Proof.
  split; [by vm_compute|]. split; [by eexists; vm_compute|].
  apply (reconnect_spec (H := bucket_order) new_InMemoryInventoryStorage default_SecurityPolicy 0
    away_ops (sample_packet 2) ann_again sample_reconnect "ann"
    (default (new_Session 0 default_SessionConfig 0 "") (heap (run_sample away_ops) !! 2)));
    by vm_compute.
Defined.

(** The party stays behind when the new session is in a party of its own: session 1 is gone
    and ann is on session 2, yet her old party is still led by session 1 and she sits in
    bob's. *)
Definition bob_login : server_op :=
  OpPacket (Build_Env [1] [17; 34] (λ i, [i]) (λ i, 40 + i) (λ _, 0) (λ _, [5; 6]))
    2 (sample_header PT_LoginReq) bob 10.

Theorem reconnect_leaves_ghost :
  let s := run_sample (away_ops ++ [bob_login; OpParty (Party.OpCreate 2 "bob");
                                    packet 2 PT_SessionReconnectReq ann_again]) in
  sessions s !! 1 = None ∧ UserContext_user_id <$> sessionUser 2 s = Some "ann"%string ∧
  Party.seat_of (party_service s) 1 =
    Some {| Groups.seat_group := 1; Groups.seat_leader := 1; Groups.seat_user := "ann" |} ∧
  Party.seat_of (party_service s) 2 =
    Some {| Groups.seat_group := 2; Groups.seat_leader := 2; Groups.seat_user := "bob" |}.
Proof. vm_compute. by split_and!. Qed.

(** C7: disconnecting a session by force succeeds exactly for a session of the server and
    takes it out of everything - the sessions, the users, its party, its guild, its dungeon
    and its character. A party or guild it led is dissolved; every other session, user,
    seat, dungeon and character stays, and so do the tokens, the match queue, the dungeon
    instances, the inventories and the counters. For any other id it fails and only counts
    an error. A tick does the same, at once, for exactly the sessions that are disconnected
    or received nothing for their timeout. *)
Theorem session_removal {S} `{HashOrder, InventoryStorage S} (storage : S) policy start ops e :
  Z.of_nat (length ops) < 2 ^ 64 - 1 →
  let s := run_server ops (new_Server storage policy start).1 in
  (∀ k why trace,
     let '(result, s', _) := forceDisconnect e k why trace s in
     result = bool_decide (is_Some (sessions s !! k)) ∧
     (if result : bool then without (Z.eqb k) s s' else s' = error_counted s)) ∧
  (∀ now, without (timed_out now s) s (tick e now s).1.2).
Proof.
  intros Hlen s.
  assert (Hs : server_inv (1 + Z.of_nat (length ops)) None None s).
  { apply run_server_inv; [apply new_Server_inv|lia]. }
  pose proof (reachable_guilds storage policy start ops Hlen) as Hguild. fold s in Hguild.
  split; intros; [by eapply forceDisconnect_spec|by eapply tick_without].
Qed.

Lemma session_removal_witness :
  let s := run_sample away_ops in
  let e := sample_env in
  timed_out 0 s 1 = false ∧ timed_out (45001 * ns_per_ms) s 1 = true ∧
  (∀ k why trace,
     let '(result, s', _) := forceDisconnect (H := bucket_order) e k why trace s in
     result = bool_decide (is_Some (sessions s !! k)) ∧
     (if result : bool then without (Z.eqb k) s s' else s' = error_counted s)) ∧
  (∀ now, without (timed_out now s) s (tick (H := bucket_order) e now s).1.2).
Proof.
  split; [by vm_compute|]. split; [by vm_compute|].
  apply (session_removal (H := bucket_order) new_InMemoryInventoryStorage default_SecurityPolicy 0
    away_ops sample_env). by vm_compute.
Defined.

(** The limit of these results: they are about packets on sessions of the server. The server
    also handles packets on a session it has removed, as long as someone holds the object.
    Here session 1 is taken over by session 2, then logs in as another user; that user is
    registered for a session that does not exist and cannot log in anywhere else. *)
Theorem removed_session_takes_user :
  let bob := encodeLoginRequest {|
    LoginRequest_user_id := "bob"; LoginRequest_password := "letmein" |} in
  let s := run_sample [connect; connect; connect; login 1 "ann";
                       packet 2 PT_SessionReconnectReq ann_again] in
  let s' := (handlePacket (H := bucket_order) sample_env 1 (sample_header PT_LoginReq) bob 10 s).1.2 in
  sessions s !! 1 = None ∧ hasUser "bob" (registry s') = Some 1 ∧ sessions s' !! 1 = None ∧
  sessionUser 3 (run_server (H := bucket_order) [login 3 "bob"] s) ≠ None ∧
  sessionUser 3 (run_server (H := bucket_order) [login 3 "bob"] s') = None.
Proof. vm_compute. by split_and!. Qed.
