(* ===== verification/ServerServices.v ===== *)
(** * Inventories and chat behind the server

    What an InventoryUpdateNotify does to the inventories, for any store that refines the
    snapshot store, and which sessions a party message can reach. *)

From S2P Require Auth Party Guild Chat Match Dungeon Groups.
From S2P Require Import Inventory.
From S2P Require Import Prelude Wire Protocol Codec Security Logging Session Server.
From S2P Require Import Handlers Hoare ServerInvariant Idle ServerProperties.
From S2P Require Import ServerSecurity.

(** ** Adding a list of items *)

Definition nonzero (item : RewardItem) : bool := negb (RewardItem_count item =? 0).

(** The counts of the items with an id. *)
Definition total (k : Z) (items : list RewardItem) : Z :=
  sum_Z (RewardItem_count <$> filter (λ item, RewardItem_item_id item = k) items).

Definition held {S} `{InventoryStorage S} (s : S) (i k : Z) : Z :=
  default 0 (items (default (blank i) (loadInventory i s).1) !! k).

Section transaction.
Implicit Types (m : InMemoryInventoryStorage).

Definition mem_held m (i k : Z) : Z := default 0 (items (state_of (inventories m) i) !! k).

Lemma mem_add_held i k q why clock m :
  let '(added, m') := mem_addItem i k q why clock m in
  added = negb (q =? 0) ∧
  (∀ j, j ≠ i → inventories m' !! j = inventories m !! j ∧ mem_changeLog j m' = mem_changeLog j m) ∧
  ∀ j, mem_held m' i j = if decide (j = k ∧ q ≠ 0) then u32 (mem_held m i j + q) else mem_held m i j.
Proof.
  unfold mem_addItem. destruct (q =? 0) eqn:Eq; bool_props.
  { split_and!; try done. intros j. by rewrite decide_False by tauto. }
  rewrite (surjective_pairing (getOrCreateInventory i m)), created_state.
  unfold recordChange, mem_changeLog, mem_held. cbn [inventories change_log update_field negb].
  rewrite write_created. cbn -[state_of]. split_and!; [done| |].
  - intros j Hj. by rewrite !lookup_insert_ne.
  - intros j. unfold state_of at 1. rewrite lookup_insert_eq. cbn -[state_of].
    destruct (decide (j = k)) as [->|Hj].
    + by rewrite decide_True, lookup_insert_eq by tauto.
    + by rewrite decide_False, lookup_insert_ne by naive_solver.
Qed.

End transaction.

Lemma total_cons k item l :
  total k (item :: l) =
  (if decide (RewardItem_item_id item = k) then RewardItem_count item else 0) + total k l.
Proof. unfold total. rewrite filter_cons. by case_decide. Qed.

Lemma total_none k l : k ∉ RewardItem_item_id <$> l → total k l = 0.
Proof.
  induction l as [|item l IH]; [done|]. rewrite fmap_cons, total_cons. intros Hk.
  rewrite decide_False by set_solver. rewrite IH by set_solver. done.
Qed.

(** The loop over the items of a request, on the snapshot store. *)
Lemma add_items_mem clock i l why (m : InMemoryInventoryStorage) :
  let '(added, m') := add_items clock i l why m in
  added = forallb nonzero l ∧ same_transactions m m' ∧
  (∀ j, j ≠ i → inventories m' !! j = inventories m !! j ∧ mem_changeLog j m' = mem_changeLog j m) ∧
  (added = true → ∀ k, mem_held m' i k =
     if decide (k ∈ RewardItem_item_id <$> l) then u32 (mem_held m i k + total k l)
     else mem_held m i k).
Proof.
  revert clock m. induction l as [|item l IH]; intros clock m; cbn [add_items].
  { by split_and!. }
  change (addItem (S := InMemoryInventoryStorage)) with mem_addItem.
  pose proof (mem_add_held i (RewardItem_item_id item) (RewardItem_count item) why (clock O) m) as Ha.
  pose proof (add_transactions i (RewardItem_item_id item) (RewardItem_count item) why (clock O) m) as Ht.
  destruct (mem_addItem _ _ _ _ _ m) as [added m1]. cbn [snd] in Ht.
  destruct Ha as (-> & Ho & Hh). fold (nonzero item). cbn [forallb].
  destruct (nonzero item) eqn:En; cbn [andb]; [|done].
  specialize (IH (λ n, clock (Datatypes.S n)) m1).
  destruct (add_items _ i l why m1) as [added m2]. destruct IH as (-> & Ht' & Ho' & Hh').
  split_and!; [done| | |].
  - destruct Ht as (? & ? & ?), Ht' as (? & ? & ?). split_and!; congruence.
  - intros j Hj. destruct (Ho j Hj), (Ho' j Hj). split; congruence.
  - intros Hall k. rewrite (Hh' Hall k), (Hh k), fmap_cons, total_cons.
    assert (RewardItem_count item ≠ 0) by (unfold nonzero in En; by bool_props).
    destruct (decide (RewardItem_item_id item = k)) as [<-|Hk].
    + rewrite (decide_True (P := RewardItem_item_id item = _ ∧ _)) by done.
      rewrite (decide_True (P := _ ∈ _ :: _)) by set_solver.
      destruct (decide (RewardItem_item_id item ∈ RewardItem_item_id <$> l)) as [Hin|Hin];
        [by rewrite wrap_add_l, Z.add_assoc|].
      by rewrite (total_none _ l Hin), Z.add_0_r.
    + rewrite (decide_False (P := k = _ ∧ _)) by naive_solver. rewrite Z.add_0_l.
      destruct (decide (k ∈ RewardItem_item_id <$> l)).
      * by rewrite decide_True by set_solver.
      * by rewrite decide_False by set_solver.
Qed.

(** ** Any store that refines it *)

Section refined.
Context {S : Type} `{StorageRefinement S}.
Implicit Types (store : S).

Lemma add_items_refines clock i l why store :
  ok store →
  ok (add_items clock i l why store).2 ∧
  (add_items clock i l why store).1 = (add_items clock i l why (abs store)).1 ∧
  abs (add_items clock i l why store).2 = (add_items clock i l why (abs store)).2.
Proof.
  revert clock store. induction l as [|item l IH]; intros clock store Hok; cbn [add_items]; [done|].
  destruct (add_refines i (RewardItem_item_id item) (RewardItem_count item) why (clock O) store Hok)
    as (Hok' & E & A).
  change (addItem (S := InMemoryInventoryStorage)) with mem_addItem.
  destruct (addItem _ _ _ _ _ store) as [added store1], (mem_addItem _ _ _ _ _ _) as [added' m1].
  cbn [fst snd] in *. subst added' m1. destruct added; [by apply IH|done].
Qed.

Lemma held_abs store i k : ok store → held store i k = mem_held (abs store) i k.
Proof. intros Hok. unfold held. by destruct (load_refines i store Hok) as (_ & -> & _). Qed.

Lemma observe_abs store i :
  ok store → observe i store = (inventories (abs store) !! i, mem_changeLog i (abs store)).
Proof.
  intros Hok. unfold observe. destruct (load_refines i store Hok) as (_ & -> & _).
  by rewrite log_refines.
Qed.

(** The transaction: all the items are added, or nothing happened. *)
Lemma add_items_transaction_spec clock i l why store :
  ok store → next_transaction_id (abs store) + 1 < 2 ^ 64 →
  let '(added, store') := add_items_transaction clock i l why store in
  ok store' ∧ added = forallb nonzero l ∧
  (∀ j, j ≠ i ∨ added = false → observe j store' = observe j store) ∧
  (added = true → ∀ k, held store' i k =
     if decide (k ∈ RewardItem_item_id <$> l) then u32 (held store i k + total k l)
     else held store i k).
Proof.
  intros Hok Hn. unfold add_items_transaction.
  destruct (begin_refines store Hok Hn) as (Hok1 & Et & A1). pose proof (ok_abs _ Hok) as Hm.
  destruct (beginTransaction store) as [t store1]. cbn [fst snd] in *.
  destruct (add_items_refines clock i l why store1 Hok1) as (Hok2 & Eb & A2).
  pose proof (add_items_mem clock i l why (abs store1)) as Hadd.
  destruct (add_items clock i l why store1) as [added store2].
  destruct (add_items clock i l why (abs store1)) as [added' m2]. cbn [fst snd] in *. subst added' m2.
  destruct Hadd as (-> & (_ & _ & Hsnap) & Ho & Hh).
  assert (Hs : transaction_snapshots (abs store2) !! t = Some (snapshot (abs store))).
  { rewrite Hsnap, A1, Et. cbn. rewrite emplace_fresh; [apply lookup_insert_eq|].
    apply eq_None_not_Some. intros [x Hx%(mem_fresh _ Hm)]. lia. }
  assert (Einv : inventories (abs store1) = inventories (abs store) ∧
                 change_log (abs store1) = change_log (abs store)) by by rewrite A1.
  destruct Einv as [Ei El]. destruct (forallb nonzero l).
  - destruct (commit_refines t store2 Hok2) as [Hok3 A3]. split_and!; [done|done| |].
    + intros j [Hj|[=]]. rewrite !observe_abs, A3 by done. cbn.
      destruct (Ho j Hj) as [E1 E2]. unfold mem_changeLog in *. cbn. by rewrite E1, E2, Ei, El.
    + intros _ k. rewrite !held_abs, A3 by done.
      assert (Hsame : mem_held (abs store1) i k = mem_held (abs store) i k)
        by (unfold mem_held; by rewrite Ei).
      rewrite <- Hsame. exact (Hh eq_refl k).
  - destruct (rollback_refines t store2 Hok2) as [Hok3 A3]. split_and!; [done|done| |done].
    intros j _. rewrite !observe_abs, A3 by done. unfold mem_rollbackTransaction. by rewrite Hs.
Qed.

End refined.

(** ** Inventory updates *)

Section handlers.
Context {S : Type} `{HashOrder, InventoryStorage S}.
Implicit Types (s : Server S).

(** The storage after an inventory update, and whether it was made. *)
Lemma handle_inventory_update_run c payload request context s :
  decodeInventoryUpdateNotify payload = Some request →
  heap s !! address c ≫= userContext = Some context →
  let '(added, store) := add_items_transaction (item_clock (env c))
    (InventoryUpdateNotify_char_id request) (InventoryUpdateNotify_items request)
    "inventory_update" (inventory_storage s) in
  let '(reply, s', _) := handle_inventory_update c payload s in
  reply = respond c PT_InventoryUpdateRes (inventory_response added
    (if added : bool then "OK" else "INVENTORY_FAILED")
    (if added then "Inventory updated" else "Failed to update inventory")
    (Z.of_nat (length (changeLog (InventoryUpdateNotify_char_id request) store)))) ∧
  s' = s <| inventory_storage := store |>.
Proof.
  intros Hd Hu. unfold handle_inventory_update. rewrite Hd. unfold current_user.
  rewrite run_get, Hu, run_get, run_modify, run_get.
  cbn [inventory_storage update_field Server_rebuild].
  by destruct (add_items_transaction _ _ _ _ (inventory_storage s)) as [[|] store].
Qed.

(** ** Chat *)

(** The object at [a], the sessions and the parties are those of [s0]. *)
Definition untouched (a : Z) (s0 s : Server S) : Prop :=
  heap s !! a = heap s0 !! a ∧ sessions s = sessions s0 ∧ party_service s = party_service s0.

Lemma untouched_on_session {A} a s0 k (d : A) method :
  k ≠ a → preserves (untouched a s0) (on_session k d method).
Proof.
  intros Hk. apply preserves_on_session. intros s o (Hh & Hs) _. split; [|done].
  cbn. by rewrite lookup_insert_ne.
Qed.

Lemma chat_sink_untouched a s0 e call :
  sessions s0 !! call.1 ≠ Some a → preserves (untouched a s0) (chat_sink e call).
Proof.
  intros Ha. destruct call as [k message]. unfold chat_sink.
  eapply triple_bind.
  { apply triple_get with (Q := λ found s, untouched a s0 s ∧ found ≠ Some a).
    intros s Hs. split; [done|]. unfold findSession. by destruct Hs as (_ & -> & _). }
  intros found. apply triple_pure. intros Hf. destruct found as [b|]; [|apply preserves_ret].
  apply preserves_bind; [apply preserves_get|]. intros version.
  apply preserves_bind; [|intros; apply preserves_ret].
  apply untouched_on_session. congruence.
Qed.

Lemma chat_sinks_untouched a s0 e calls :
  Forall (λ k, sessions s0 !! k ≠ Some a) calls.*1 →
  preserves (untouched a s0) (each (chat_sink e) calls).
Proof.
  induction calls as [|call calls IH]; cbn [each fmap list_fmap]; intros Hc; [apply preserves_ret|].
  apply Forall_cons_1 in Hc as [Hc Hcs].
  apply preserves_bind; [by apply chat_sink_untouched|]. intros _. by apply IH.
Qed.

(** The party a party message is for. *)
Definition chat_party (c : Packet) (requested : Z) s : option Z :=
  if requested =? 0 then Party.partyForMember (sid c) (party_service s) else Some requested.

(** The sessions the party message may reach: those of the members, if the sender is
    one. *)
Definition audience (c : Packet) (requested : Z) s : list Z :=
  match chat_party c requested s ≫= λ party, Party.getPartyInfo party (party_service s) with
  | Some info => if is_member (sid c) info
                 then Party.member_session_id <$> Party.PartyInfo_members info else []
  | None => []
  end.

Lemma send_party_untouched a c user text requested s :
  Forall (λ k, sessions s !! k ≠ Some a) (audience c requested s) →
  untouched a s (send_party c user text requested s).1.2.
Proof.
  unfold audience, send_party. intros Ha.
  assert (Hget : ∀ k : option Z → M S (bool * string),
    bind (if requested =? 0 then get (λ s, Party.partyForMember (sid c) (party_service s))
          else ret (Some requested)) k s = k (chat_party c requested s) s).
  { intros k. unfold chat_party. destruct (_ =? _); [by rewrite run_get|by rewrite run_ret]. }
  rewrite Hget. destruct (chat_party c requested s) as [party|]; [|done].
  rewrite run_get. cbn [mbind option_bind] in Ha.
  destruct (Party.getPartyInfo party (party_service s)) as [info|]; [|done].
  destruct (is_member (sid c) info); [|done]. cbn [negb]. rewrite !run_get.
  destruct (Chat.send_recipients (sid c) user party text
    (Party.member_session_id <$> Party.PartyInfo_members info) (chat_service s)) as [_ Hr].
  destruct (Chat.sendParty _ _ _ _ _ _) as [sent events]. cbn [fst snd] in *.
  enough (Hm : preserves (untouched a s) (each (chat_sink (env c)) events;;
            (if sent : bool then ret tt else count_error);;
            ret (sent, if sent : bool then "Party chat delivered"%string
                       else "Failed to deliver party chat"%string))) by by apply Hm.
  apply preserves_bind.
  { apply chat_sinks_untouched. rewrite Hr. by destruct sent. }
  intros _. apply preserves_bind; [|intros; apply preserves_ret].
  destruct sent; [apply preserves_ret|]. by apply preserves_modify.
Qed.

End handlers.

(** ** Properties *)

(** C8: an inventory update is all or nothing, whatever store the server runs on: if every
    item of the request has a nonzero count, each item's quantity in the named inventory
    grows by the sum of its counts, modulo 2^32; if one has count zero, the update is
    refused and every inventory and change log is as before. No other inventory changes
    either way, and nothing else of the server. The inventory is the one the client
    names, whoever the client is. *)
Theorem inventory_update_atomic {S} `{HashOrder, StorageRefinement S} c payload request context
    (s : Server S) :
  decodeInventoryUpdateNotify payload = Some request →
  heap s !! address c ≫= userContext = Some context →
  ok (inventory_storage s) → next_transaction_id (abs (inventory_storage s)) + 1 < 2 ^ 64 →
  let i := InventoryUpdateNotify_char_id request in
  let l := InventoryUpdateNotify_items request in
  let added := forallb nonzero l in
  let '(reply, s', _) := handle_inventory_update c payload s in
  let store := inventory_storage s in
  let store' := inventory_storage s' in
  (∃ log_length, reply = respond c PT_InventoryUpdateRes (inventory_response added
     (if added then "OK" else "INVENTORY_FAILED")
     (if added then "Inventory updated" else "Failed to update inventory") log_length)) ∧
  ok store' ∧
  (∀ j, j ≠ i ∨ added = false → observe j store' = observe j store) ∧
  (added = true → ∀ k, held store' i k =
     if decide (k ∈ RewardItem_item_id <$> l) then u32 (held store i k + total k l)
     else held store i k) ∧
  s' = s <| inventory_storage := store' |>.
Proof.
  intros Hd Hu Hok Hn i l added.
  pose proof (handle_inventory_update_run c payload request context s Hd Hu) as Hrun.
  pose proof (add_items_transaction_spec (item_clock (env c)) i l "inventory_update" _ Hok Hn) as Ht.
  fold i l in Hrun. destruct (add_items_transaction _ i l _ _) as [b store'].
  destruct (handle_inventory_update c payload s) as [[reply s'] logs].
  destruct Hrun as [-> ->], Ht as (Hok' & -> & Ho & Hh). split_and!; try done. by eexists.
Qed.

Definition sample_update : InventoryUpdateNotify := {|
  InventoryUpdateNotify_char_id := 7;
  InventoryUpdateNotify_items :=
    [{| RewardItem_item_id := 3; RewardItem_count := 2 |};
     {| RewardItem_item_id := 4; RewardItem_count := 1 |};
     {| RewardItem_item_id := 3; RewardItem_count := 5 |}] |}.

Lemma inventory_update_atomic_witness :
  let s := run_sample [connect; login 1 "ann"] in
  let i := InventoryUpdateNotify_char_id sample_update in
  let l := InventoryUpdateNotify_items sample_update in
  let added := forallb nonzero l in
  let '(reply, s', _) := handle_inventory_update (sample_packet 1)
                           (encodeInventoryUpdateNotify sample_update) s in
  let store := inventory_storage s in
  let store' := inventory_storage s' in
  (∃ log_length, reply = respond (sample_packet 1) PT_InventoryUpdateRes (inventory_response added
     (if added then "OK" else "INVENTORY_FAILED")
     (if added then "Inventory updated" else "Failed to update inventory") log_length)) ∧
  ok store' ∧
  (∀ j, j ≠ i ∨ added = false → observe j store' = observe j store) ∧
  (added = true → ∀ k, held store' i k =
     if decide (k ∈ RewardItem_item_id <$> l) then u32 (held store i k + total k l)
     else held store i k) ∧
  s' = s <| inventory_storage := store' |>.
Proof.
  apply (inventory_update_atomic (H := bucket_order) (sample_packet 1)
    (encodeInventoryUpdateNotify sample_update) sample_update
    {| UserContext_user_id := "ann"; UserContext_token := "ABCD" |}
    (run_sample [connect; login 1 "ann"])); [by vm_compute|by vm_compute| |by vm_compute].
  exact new_storage_ok.
Defined.

(** C14: a party message stays in the party: handling it changes the session of nobody but
    the members of the party it is for, and of nobody at all when the sender is not one
    of them. *)
Theorem party_chat_confined {S} `{HashOrder, InventoryStorage S} c payload request
    (s : Server S) a :
  decodeChatSendRequest payload = Some request →
  ChatSendRequest_channel request = ChatChannel_Party →
  Forall (λ k, sessions s !! k ≠ Some a) (audience c (ChatSendRequest_party_id request) s) →
  let s' := (handle_chat c payload s).1.2 in
  heap s' !! a = heap s !! a ∧ sessions s' = sessions s ∧ party_service s' = party_service s.
Proof.
  intros Hd Hc Ha s'. subst s'. unfold handle_chat. rewrite Hd. unfold current_user.
  rewrite run_get. destruct (heap s !! address c ≫= userContext) as [context|]; [|done].
  destruct (string_empty _); [done|]. rewrite Hc, run_bind.
  pose proof (send_party_untouched a c (UserContext_user_id context) (ChatSendRequest_message request)
    (ChatSendRequest_party_id request) s Ha) as Hu.
  destruct (send_party _ _ _ _ s) as [[[sent message] s1] logs]. exact Hu.
Qed.

Definition party_of_two : list server_op :=
  [connect; connect; connect; login 1 "ann"; login 2 "bob"; login 3 "eve";
   OpParty (Party.OpCreate 1 "ann"); OpParty (Party.OpInvite 1 1 2 "bob" 0);
   OpParty (Party.OpAccept 1 2 0)].

Definition hello : ChatSendRequest := {|
  ChatSendRequest_channel := ChatChannel_Party; ChatSendRequest_party_id := 0;
  ChatSendRequest_message := "hello" |}.

Lemma party_chat_confined_witness :
  let s := run_sample party_of_two in
  let s' := (handle_chat (H := bucket_order) (sample_packet 1) (encodeChatSendRequest hello) s).1.2 in
  audience (H := bucket_order) (sample_packet 1) 0 s = [1; 2] ∧
  heap s' !! 3 = heap s !! 3 ∧ sessions s' = sessions s ∧ party_service s' = party_service s.
Proof.
  split; [by vm_compute|].
  apply (party_chat_confined (H := bucket_order) (sample_packet 1) (encodeChatSendRequest hello)
    hello (run_sample party_of_two) 3); [by vm_compute|done|].
  assert (E : audience (H := bucket_order) (sample_packet 1) 0 (run_sample party_of_two) = [1; 2])
    by by vm_compute.
  change (ChatSendRequest_party_id hello) with 0. rewrite E.
  apply List.Forall_cons; [by vm_compute|]. apply List.Forall_cons; [by vm_compute|].
  apply List.Forall_nil.
Defined.
