(* ===== verification/Pipeline.v ===== *)
(** * From the bytes of a connection to the server (src/tests/net_tests.cpp)

    No file of the program itself ties its parts together; the network test does, the way
    docs/architecture.md (section 1.1) describes: the event loop gives bytes to the packet
    pipeline, the pipeline gives frames to the dispatcher, and the dispatcher's worker gives
    packets to the server and queues the answer for the session. [System] is that assembly,
    [thread_move] a step of one of its threads, [owner_move] what is done to it from outside:
    events are queued and the dispatcher started and stopped. A handler runs as one step. A
    job of a connection that was erased ends the program: [sessions.at] throws in the
    worker. *)

From stdpp Require Import relations list_tactics.
From S2P Require Import Inventory Prelude Codec WorkerPool Protocol Session Server Handlers.
From S2P Require Import Dispatch.
From S2P Require Match.

(** ** The assembly *)

Record System (S : Type) := {
  loop : IoEventLoop;
  pipeline : PacketPipeline;
  dispatcher : PacketDispatcher;
  server : Server S;
  connections : gmap Z Z;            (* the test's [sessions]: addresses by connection *)
  calls : list IoCall;               (* what a running [drain] still has to call *)
  to_enqueue : list PacketJob;       (* what a running read handler still has to enqueue *)
  crashed : bool;                    (* a worker threw: the program is terminated *)
  given : list IoEvent;              (* history: every event queued *)
  made : list IoCall                 (* history: the calls begun *)
}.
Arguments loop {S}.
Arguments pipeline {S}.
Arguments dispatcher {S}.
Arguments server {S}.
Arguments connections {S}.
Arguments calls {S}.
Arguments to_enqueue {S}.
Arguments crashed {S}.
Arguments given {S}.
Arguments made {S}.

#[export] Instance System_rebuild {S} : Rebuild (System S) := λ y, {|
  loop := loop y; pipeline := pipeline y; dispatcher := dispatcher y; server := server y;
  connections := connections y; calls := calls y; to_enqueue := to_enqueue y;
  crashed := crashed y; given := given y; made := made y |}.

(** The event loop with the four handlers of the test. *)
Definition wired_loop : IoEventLoop :=
  setDisconnectHandler true (setWriteHandler true (setReadHandler true
    (setAcceptHandler true new_IoEventLoop))).

Definition job_of (d : Dispatch) : PacketJob := {|
  connection_id := Dispatch_connection_id d; header := Dispatch_header d;
  payload := Dispatch_payload d; received_at := Dispatch_now d |}.

Section system.
Context {S : Type} `{HashOrder, InventoryStorage S}.
Implicit Types y : System S.

(** The assembly after [dispatcher.start()], with an unbounded queue. *)
Definition new_System (workers : nat) (storage : S) (policy : SecurityPolicy) (now : Z)
    : System S := {|
  loop := wired_loop;
  pipeline := new_PacketPipeline true;
  dispatcher := start (new_PacketDispatcher workers true (new_PacketQueue 0 WorkerPool.DropNewest));
  server := (new_Server storage policy now).1;
  connections := ∅; calls := []; to_enqueue := []; crashed := false; given := []; made := [] |}.

(** The four handlers of the event loop. *)
Definition run_call (config : SessionConfig) (trace : string) (call : IoCall) y : System S :=
  match call with
  | CallAccept connection now =>
    let '(address, s, _) := createSession config now trace (server y) in
    y <| server := s |> <| connections ::= emplace connection address |>
      <| pipeline ::= registerConnection connection |>
  | CallRead connection bytes now =>
    let '(dispatched, p) := onRead connection bytes now (pipeline y) in
    y <| pipeline := p |> <| to_enqueue := job_of <$> dispatched |>
  | CallWrite connection bytes now => y
  | CallDisconnect connection now =>
    y <| pipeline ::= removeConnection connection |> <| connections ::= delete connection |>
  end.

(** The job handler of the dispatcher, for the session it found at [address]. *)
Definition serve_job (e : Env) (address : Z) (job : PacketJob) : M S unit :=
  response <- handlePacket e address (header job) (payload job) (received_at job);;
  match response with
  | Some frame =>
    _ <- on_session address false (enqueueSend frame (received_at job));; ret tt
  | None => ret tt
  end.

(** A step of the thread of the event loop, of the dispatcher's thread or of a worker. *)
Inductive thread_move y : System S → Prop :=
  | move_drain now :
    calls y = [] → to_enqueue y = [] →
    thread_move y (y <| calls := (drain now (loop y)).1 |> <| loop := (drain now (loop y)).2 |>)
  | move_call config trace call rest :
    calls y = call :: rest → to_enqueue y = [] →
    thread_move y (run_call config trace call
                     (y <| calls := rest |> <| made ::= λ l, l ++ [call] |>))
  | move_enqueue job rest result q :
    to_enqueue y = job :: rest → push job (d_queue (dispatcher y)) = Some (result, q) →
    thread_move y (y <| to_enqueue := rest |> <| dispatcher ::= enqueue_job job result q |>)
  | move_dispatcher d :
    thread_step (dispatcher y) d → handled d = handled (dispatcher y) →
    thread_move y (y <| dispatcher := d |>)
  | move_serve e job address d :
    thread_step (dispatcher y) d → handled d = handled (dispatcher y) ++ [job] →
    connections y !! connection_id job = Some address →
    thread_move y (y <| dispatcher := d |>
                     <| server := (serve_job e address job (server y)).1.2 |>)
  | move_crash job d :
    thread_step (dispatcher y) d → handled d = handled (dispatcher y) ++ [job] →
    connections y !! connection_id job = None →
    thread_move y (y <| crashed := true |>).

(** What is done to the assembly from outside. *)
Inductive owner_move y : System S → Prop :=
  | owner_event event :
    owner_move y (y <| loop ::= enqueueEvent event |> <| given ::= λ l, l ++ [event] |>)
  | owner_start : owner_move y (y <| dispatcher ::= start |>)
  | owner_stop :
    d_phase (dispatcher y) = Working →
    owner_move y (y <| dispatcher ::= λ d, d <| d_queue ::= stop |>
                                             <| d_phase := JoiningDispatcher |> |>).

(** A step of the assembly by itself, and any step. *)
Definition own_step y y' : Prop := crashed y = false ∧ thread_move y y'.
Definition system_step y y' : Prop := crashed y = false ∧ (thread_move y y' ∨ owner_move y y').

Lemma own_steps_system y y' : rtc own_step y y' → rtc system_step y y'.
Proof.
  apply (rtc_subrel own_step system_step). intros x z [? ?]. split; [done|by left].
Qed.

End system.

(** ** What a connection sends *)

(** A packet, whenever it came. *)
Definition packet : Type := Z * FrameHeader * list byte.
Definition packet_of (job : PacketJob) : packet := (connection_id job, header job, payload job).
Definition from (connection : Z) (p : packet) : Prop := p.1.1 = connection.

#[export] Instance from_dec connection p : Decision (from connection p).
Proof. unfold from. apply _. Defined.

(** The packets the calls of a drain dispatch. *)
Definition call_packets (call : IoCall) (p : PacketPipeline) : list packet * PacketPipeline :=
  match call with
  | CallAccept connection now => ([], registerConnection connection p)
  | CallRead connection bytes now =>
    let '(dispatched, p) := onRead connection bytes now p in
    (packet_of ∘ job_of <$> dispatched, p)
  | CallWrite _ _ _ => ([], p)
  | CallDisconnect connection now => ([], removeConnection connection p)
  end.

Fixpoint run_calls (calls : list IoCall) (p : PacketPipeline) : list packet * PacketPipeline :=
  match calls with
  | [] => ([], p)
  | call :: calls =>
    let '(packets, p) := call_packets call p in
    let '(packets', p) := run_calls calls p in
    (packets ++ packets', p)
  end.

(** A call without its time, and the untimed call the wired loop makes for an event. *)
Definition untimed (call : IoCall) : IoCall :=
  match call with
  | CallAccept connection _ => CallAccept connection 0
  | CallRead connection bytes _ => CallRead connection bytes 0
  | CallWrite connection n _ => CallWrite connection n 0
  | CallDisconnect connection _ => CallDisconnect connection 0
  end.

Definition call_of (event : IoEvent) : IoCall :=
  match IoEvent_type event with
  | IoAccept => CallAccept (IoEvent_connection_id event) 0
  | IoRead => CallRead (IoEvent_connection_id event) (IoEvent_payload event) 0
  | IoWrite => CallWrite (IoEvent_connection_id event) (IoEvent_bytes_transferred event) 0
  | IoDisconnect => CallDisconnect (IoEvent_connection_id event) 0
  end.

Definition wired (l : IoEventLoop) : Prop :=
  on_accept l = true ∧ on_read l = true ∧ on_write l = true ∧ on_disconnect l = true.

Lemma drain_calls now l :
  wired l → untimed <$> (drain now l).1 = call_of <$> pending l.
Proof.
  intros (Ha & Hr & Hw & Hd). unfold drain. cbn [fst].
  induction (pending l) as [|event events IH]; [done|].
  rewrite bind_cons, fmap_app, IH, fmap_cons. unfold handle_event at 1.
  change (call_of event :: ?l) with ([call_of event] ++ l). f_equal. unfold call_of.
  by destruct (IoEvent_type event); rewrite ?Ha, ?Hr, ?Hw, ?Hd.
Qed.

Lemma call_packets_untimed call p : call_packets (untimed call) p = call_packets call p.
Proof.
  destruct call as [| connection bytes now| |]; try done. cbn. unfold onRead.
  destruct (decoders p !! connection); [|done]. destruct (all_frames _) as [frames rest].
  destruct (dispatch_set p); [|done]. f_equal. rewrite <- !list_fmap_compose. done.
Qed.

Lemma run_calls_untimed cs p : run_calls (untimed <$> cs) p = run_calls cs p.
Proof.
  revert p. induction cs as [|call cs IH]; intros p; [done|]. cbn.
  rewrite call_packets_untimed. destruct (call_packets call p) as [l p']. by rewrite IH.
Qed.

Lemma run_calls_app cs cs' p :
  run_calls (cs ++ cs') p =
  let '(l, p) := run_calls cs p in let '(l', p) := run_calls cs' p in (l ++ l', p).
Proof.
  revert p. induction cs as [|call cs IH]; intros p; cbn [run_calls app].
  - by destruct (run_calls cs' p).
  - destruct (call_packets call p) as [l p']. rewrite IH.
    destruct (run_calls cs p') as [l1 p1], (run_calls cs' p1) as [l2 p2].
    by rewrite app_assoc.
Qed.

(** ** One connection's share *)

(** The events of a connection that matter to its stream. *)
Definition concerns (k : Z) (event : IoEvent) : Prop :=
  IoEvent_connection_id event = k ∧ IoEvent_type event ≠ IoWrite.

#[export] Instance IoEventType_eq_dec : EqDecision IoEventType.
Proof. solve_decision. Defined.

#[export] Instance concerns_dec k event : Decision (concerns k event).
Proof. unfold concerns. apply _. Defined.

Definition frame_packet (k : Z) (f : FrameHeader * list byte) : packet := (k, f.1, f.2).

Lemma read_packets k bytes now p :
  dispatch_set p = true →
  call_packets (CallRead k bytes now) p =
  match decoders p !! k with
  | None => ([], p)
  | Some buffer =>
    (frame_packet k <$> (all_frames (append bytes buffer)).1,
     p <| decoders ::= <[k := (all_frames (append bytes buffer)).2]> |>)
  end.
Proof.
  intros Hset. cbn. unfold onRead. destruct (decoders p !! k); [|done].
  destruct (all_frames _) as [frames rest]. rewrite Hset. cbn.
  by rewrite <- list_fmap_compose, <- Hset.
Qed.

Lemma from_frames k k' frames :
  filter (from k) (frame_packet k' <$> frames) =
  if decide (k' = k) then frame_packet k' <$> frames else [].
Proof.
  case_decide as E; induction frames as [|f frames IH]; try done; rewrite fmap_cons.
  - by rewrite filter_cons_True, IH.
  - by rewrite filter_cons_False.
Qed.

Lemma call_packets_other k event p :
  ¬ concerns k event → dispatch_set p = true →
  filter (from k) (call_packets (call_of event) p).1 = [] ∧
  decoders (call_packets (call_of event) p).2 !! k = decoders p !! k ∧
  dispatch_set (call_packets (call_of event) p).2 = true.
Proof.
  intros Hc Hset. unfold concerns in Hc. unfold call_of.
  destruct (IoEvent_type event) eqn:Et; rewrite ?read_packets by done.
  2: destruct (decoders p !! _) eqn:Ed; cbn.
  all: split_and!; cbn; try done.
  all: assert (IoEvent_connection_id event ≠ k) by (intros ?; apply Hc; done).
  - rewrite lookup_emplace, decide_False by done. by destruct (decoders p !! k).
  - by rewrite from_frames, decide_False.
  - by rewrite lookup_insert_ne.
  - by rewrite lookup_delete_ne.
Qed.

(** A connection that was accepted and only reads: its packets are its frames. *)
Lemma run_calls_accepted k events reads p buffer :
  dispatch_set p = true → decoders p !! k = Some buffer →
  filter (concerns k) events = reads → Forall (λ e, IoEvent_type e = IoRead) reads →
  filter (from k) (run_calls (call_of <$> events) p).1 =
  frame_packet k <$> (read_chunks (IoEvent_payload <$> reads) buffer).1.
Proof.
  revert reads p buffer. induction events as [|event events IH];
    intros reads p buffer Hset Hk Hf Hr; [by subst|].
  rewrite fmap_cons. cbn [run_calls].
  destruct (decide (concerns k event)) as [Hc|Hc].
  - rewrite filter_cons_True in Hf by done. subst reads. apply Forall_cons in Hr as [Ht Hr].
    destruct Hc as [Hid _]. unfold call_of at 1. rewrite Ht, Hid, read_packets, Hk by done.
    cbn [fmap list_fmap read_chunks]. destruct (all_frames _) as [frames rest]. cbn [fst snd].
    specialize (IH (filter (concerns k) events) (p <| decoders ::= <[k := rest]> |>) rest).
    specialize (IH Hset (lookup_insert_eq (decoders p) k rest) eq_refl Hr).
    destruct (run_calls _ _) as [l p']. destruct (read_chunks _ rest) as [frames' rest'].
    cbn [fst] in *. by rewrite filter_app, from_frames, decide_True, IH, fmap_app by done.
  - rewrite filter_cons_False in Hf by done.
    destruct (call_packets_other k event p Hc Hset) as (E1 & E2 & E3).
    destruct (call_packets (call_of event) p) as [l p']. cbn [fst snd] in *.
    rewrite <- E2 in Hk. specialize (IH reads p' buffer E3 Hk Hf Hr).
    destruct (run_calls _ p') as [l' p'']. cbn [fst] in *. by rewrite filter_app, E1, IH.
Qed.

Lemma run_calls_new k events accept reads p :
  dispatch_set p = true → decoders p !! k = None →
  filter (concerns k) events = accept :: reads →
  IoEvent_type accept = IoAccept → Forall (λ e, IoEvent_type e = IoRead) reads →
  filter (from k) (run_calls (call_of <$> events) p).1 =
  frame_packet k <$> (read_chunks (IoEvent_payload <$> reads) []).1.
Proof.
  revert p. induction events as [|event events IH]; intros p Hset Hk Hf Ha Hr; [done|].
  rewrite fmap_cons. cbn [run_calls]. destruct (decide (concerns k event)) as [Hc|Hc].
  - rewrite filter_cons_True in Hf by done. injection Hf as -> Hf. destruct Hc as [Hid _].
    unfold call_of at 1. rewrite Ha, Hid. cbn [call_packets].
    pose proof (run_calls_accepted k events reads (registerConnection k p) [] Hset) as X.
    destruct (run_calls _ _) as [l p']. cbn [fst app] in *. apply X; try done.
    cbn. by rewrite lookup_emplace, Hk, decide_True.
  - rewrite filter_cons_False in Hf by done.
    destruct (call_packets_other k event p Hc Hset) as (E1 & E2 & E3).
    destruct (call_packets (call_of event) p) as [l p']. cbn [fst snd] in *.
    rewrite <- E2 in Hk. specialize (IH p' E3 Hk Hf Ha Hr).
    destruct (run_calls _ p') as [l' p'']. cbn [fst] in *. by rewrite filter_app, E1, IH.
Qed.

(** ** The invariant of the assembly *)

(** What the server is asked to do: to open a session for a connection, and to serve a
    job on the session at an address. *)
Inductive service :=
  | Opened (config : SessionConfig) (now : Z) (trace : string)
  | Served (e : Env) (address : Z) (job : PacketJob).

Definition job_served (o : service) : option (Z * packet) :=
  match o with
  | Opened _ _ _ => None
  | Served _ address job => Some (address, packet_of job)
  end.

Section invariant.
Context {S : Type} `{HashOrder, InventoryStorage S}.
Implicit Types y : System S.

Definition run_service (o : service) : M S unit :=
  match o with
  | Opened config now trace => createSession config now trace;; ret tt
  | Served e address job => serve_job e address job
  end.

Definition run_services (ops : list service) (s : Server S) : Server S :=
  foldl (λ s o, (run_service o s).1.2) s ops.

(** The dispatcher's part of the invariant. *)
Definition dispatcher_ok (d : PacketDispatcher) : Prop :=
  dispatcher_inv d ∧ thread_count d = 1%nat ∧ has_handler d = true ∧
  WorkerPool.capacity (d_queue d) = 0 ∧ d_phase d ≠ NotStarted ∧ in_line d.

Lemma dispatcher_step_ok d d' : dispatcher_step d d' → dispatcher_ok d → dispatcher_ok d'.
Proof.
  intros Hs (Hinv & Hn & Hh & Hc & Hph & Hl). split; [by eapply dispatcher_step_inv|].
  destruct Hs as [job result q Hp| |Hp|d' Ht].
  - destruct (enqueue_in_line _ _ _ _ Hp Hc Hl) as [Hl' ->].
    apply push_effect in Hp as (Hcq & _). split_and!; try done. cbn. by rewrite Hcq.
  - split_and!; [..|by apply start_in_line]; unfold start; by destruct (running d).
  - done.
  - split_and!; [..|by eapply thread_in_line];
      destruct Ht as [job q Hd Hp| | | | | | | |]; try done.
    cbn. by apply pop_effect in Hp as (_ & -> & _).
Qed.

(** The services so far: all of one connection went to the session it is tied to, unless
    it was disconnected. *)
Definition services_ok (s0 : Server S) y : Prop := ∃ ops,
  server y = run_services ops s0 ∧
  (omap job_served ops).*2 = packet_of <$> handled (dispatcher y) ∧
  Forall (λ served : Z * packet,
    (∀ now, CallDisconnect served.2.1.1 now ∉ made y) →
    connections y !! served.2.1.1 = Some served.1) (omap job_served ops).

(** Every connection with a decoder, and every one with a job to come, has its session. *)
Definition tied y : Prop :=
  (∀ k, is_Some (decoders (pipeline y) !! k) → is_Some (connections y !! k)) ∧
  ∀ job, job ∈ enqueued (dispatcher y) ++ to_enqueue y →
    (∀ now, CallDisconnect (connection_id job) now ∉ made y) →
    is_Some (connections y !! connection_id job).

Record system_inv (s0 : Server S) y : Prop := {
  sys_dispatcher : dispatcher_ok (dispatcher y);
  sys_loop : wired (loop y);
  sys_given : ∃ past, given y = past ++ pending (loop y) ∧
    untimed <$> (made y ++ calls y) = call_of <$> past;
  sys_pipeline : run_calls (made y) (new_PacketPipeline true) =
    (packet_of <$> (enqueued (dispatcher y) ++ to_enqueue y), pipeline y);
  sys_services : services_ok s0 y;
  sys_tied : tied y;
  sys_alive : (∀ k now, CallDisconnect k now ∉ made y) → crashed y = false
}.

Lemma new_System_inv storage policy now :
  system_inv (new_Server storage policy now).1 (new_System 1 storage policy now).
Proof.
  split; cbn.
  - split; [|done].
    exact (start_inv _ (new_PacketDispatcher_inv 1 true 0 WorkerPool.DropNewest)).
  - done.
  - by exists [].
  - done.
  - by exists [].
  - split; cbn; [|set_solver]. intros k [buffer Hk]. by rewrite lookup_empty in Hk.
  - done.
Qed.

Lemma run_services_snoc ops o s :
  run_services (ops ++ [o]) s = (run_service o (run_services ops s)).1.2.
Proof. unfold run_services. by rewrite foldl_app. Qed.

Lemma onRead_effect k bytes t p :
  dispatch_set (onRead k bytes t p).2 = dispatch_set p ∧
  (∀ j, is_Some (decoders (onRead k bytes t p).2 !! j) ↔ is_Some (decoders p !! j)) ∧
  ∀ d, d ∈ (onRead k bytes t p).1 →
    Dispatch_connection_id d = k ∧ is_Some (decoders p !! k).
Proof.
  unfold onRead. destruct (decoders p !! k) as [buffer|] eqn:Ek; [|split_and!; set_solver].
  destruct (all_frames _) as [frames rest]. cbn. split_and!; [done| |].
  - intros j. destruct (decide (j = k)) as [->|].
    + rewrite lookup_insert_eq, Ek. split; eauto.
    + by rewrite lookup_insert_ne.
  - intros d. destruct (dispatch_set p); [|set_solver].
    intros (f & -> & _)%list_elem_of_fmap. eauto.
Qed.

Lemma run_call_tied config trace call rest y :
  to_enqueue y = [] → tied y →
  tied (run_call config trace call (y <| calls := rest |> <| made ::= λ l, l ++ [call] |>)).
Proof.
  intros Hq [Hd Hj]. rewrite Hq, app_nil_r in Hj.
  assert (Hold : ∀ job, job ∈ enqueued (dispatcher y) →
    (∀ now, CallDisconnect (connection_id job) now ∉ made y ++ [call]) →
    is_Some (connections y !! connection_id job)).
  { intros job Hin Hno. apply Hj; [done|]. intros now Hnow. apply (Hno now).
    apply elem_of_app. by left. }
  destruct call as [k t|k bytes t|k n t|k t]; cbn.
  - split; cbn; [|rewrite Hq, app_nil_r].
    + intros j. rewrite !lookup_emplace. specialize (Hd j).
      destruct (decoders (pipeline y) !! j), (connections y !! j), (decide (k = j));
        naive_solver.
    + intros job Hin Hno. rewrite lookup_emplace.
      by destruct (Hold job Hin Hno) as [a ->].
  - destruct (onRead_effect k bytes t (pipeline y)) as (_ & E2 & E3).
    destruct (onRead k bytes t (pipeline y)) as [dispatched p] eqn:E. cbn. rewrite ?E.
    cbn in E2, E3. split; cbn; [intros j Hdj; by apply Hd, E2|].
    intros job [Hin|Hin]%elem_of_app Hno; [by apply Hold|].
    apply list_elem_of_fmap in Hin as (d & -> & [Hk Hin]%E3). cbn. rewrite Hk. by apply Hd.
  - split; cbn; [done|]. rewrite Hq, app_nil_r. exact Hold.
  - split; cbn; [|rewrite Hq, app_nil_r].
    + intros j Hdj. destruct (decide (k = j)) as [->|].
      * rewrite lookup_delete_eq in Hdj. by destruct Hdj.
      * rewrite lookup_delete_ne in Hdj by done. rewrite lookup_delete_ne by done. by apply Hd.
    + intros job Hin Hno. rewrite lookup_delete_ne; [by apply Hold|]. intros Ek.
      apply (Hno t). rewrite <- Ek. apply elem_of_app. right. by apply list_elem_of_singleton.
Qed.

(** A handler of the event loop. *)
Lemma run_call_ok s0 config trace call rest y :
  crashed y = false → calls y = call :: rest → to_enqueue y = [] → system_inv s0 y →
  system_inv s0 (run_call config trace call (y <| calls := rest |> <| made ::= λ l, l ++ [call] |>)).
Proof.
  intros Hcr Hc Hq [Hd Hl (past & Hg & Hu) Hp (ops & Hs & Ho & Ha) Ht _].
  apply (run_call_tied config trace call rest) in Ht; [|done].
  assert (Hgiven : ∃ past, given y = past ++ pending (loop y) ∧
            untimed <$> ((made y ++ [call]) ++ rest) = call_of <$> past).
  { exists past. rewrite <- app_assoc. cbn [app]. by rewrite <- Hc. }
  rewrite Hq, app_nil_r in Hp.
  pose proof (run_calls_app (made y) [call] (new_PacketPipeline true)) as Hr.
  rewrite Hp in Hr. cbn [run_calls] in Hr.
  assert (Hold : ∀ served : Z * packet, served ∈ omap job_served ops →
    (∀ now, CallDisconnect served.2.1.1 now ∉ made y ++ [call]) →
    connections y !! served.2.1.1 = Some served.1).
  { intros served Hin Hno. rewrite Forall_forall in Ha. apply Ha; [done|].
    intros now Hnow. apply (Hno now). apply elem_of_app. by left. }
  destruct call as [k t|k bytes t|k n t|k t]; cbn [run_call call_packets] in *.
  - split; cbn; try done; [by rewrite Hr, !app_nil_r, Hq, app_nil_r|].
    exists (ops ++ [Opened config t trace]).
    rewrite run_services_snoc, omap_app. cbn. rewrite app_nil_r, Hs. split_and!; try done.
    apply Forall_forall. intros served Hin Hno. rewrite lookup_emplace.
    by rewrite (Hold served Hin Hno).
  - destruct (onRead k bytes t (pipeline y)) as [dispatched p] eqn:E.
    cbn in *. rewrite E in *. split; cbn; try done.
    + rewrite Hr, !app_nil_r, fmap_app. do 2 f_equal. by rewrite <- list_fmap_compose.
    + exists ops. split_and!; try done. by apply Forall_forall.
  - split; cbn; try done; [by rewrite Hr, !app_nil_r, Hq, app_nil_r|].
    exists ops. split_and!; try done. by apply Forall_forall.
  - split; cbn; try done; [by rewrite Hr, !app_nil_r, Hq, app_nil_r|].
    exists ops. split_and!; try done. apply Forall_forall. intros served Hin Hno. cbn in *.
    rewrite lookup_delete_ne; [by apply Hold|]. intros E. apply (Hno t).
    rewrite <- E. apply elem_of_app. right. by apply list_elem_of_singleton.
Qed.

(** A job a worker is done with was enqueued. *)
Lemma job_enqueued d d' job :
  dispatcher_inv d → thread_step d d' → handled d' = handled d ++ [job] → job ∈ enqueued d.
Proof.
  intros Hinv Hs Hh. destruct (thread_step_handled _ _ Hs) as [E|(job' & E & Hin)].
  - rewrite E in Hh. apply (f_equal length) in Hh. rewrite length_app in Hh. cbn in Hh. lia.
  - rewrite Hh in E. apply app_inj_tail in E as [_ ->].
    rewrite (inv_jobs _ Hinv). unfold all_jobs. set_solver.
Qed.

Lemma thread_move_ok s0 y y' :
  crashed y = false → thread_move y y' → system_inv s0 y → system_inv s0 y'.
Proof.
  intros Hcr Hstep Hinv.
  destruct Hstep as [now Hc Hq|config trace call rest Hc Hq|job rest result q Hq Hp
    |d Hs Hh|e job address d Hs Hh Ha|job d Hs Hh Ha]; [|by apply run_call_ok|..];
    destruct Hinv as [Hd Hl (past & Hg & Hu) Hr (ops & Hsv & Ho & Hf) Htied Halive].
  - split; cbn; try done; [|by exists ops]. exists (past ++ pending (loop y)).
    rewrite Hg, app_nil_r. split; [done|].
    rewrite Hc, app_nil_r in Hu. rewrite !fmap_app, Hu. f_equal. by apply drain_calls.
  - pose proof (dispatcher_step_ok _ _ (dispatcher_enqueue _ _ _ _ Hp) Hd) as Hd'.
    destruct Hd as (_ & _ & _ & Hcap & _ & Hline).
    destruct (enqueue_in_line _ _ _ _ Hp Hcap Hline) as [_ ->].
    unfold tied in Htied. rewrite Hq in Hr, Htied.
    split; cbn; try done; [by exists past|by rewrite <- app_assoc|by exists ops|].
    unfold tied. cbn. by rewrite <- app_assoc.
  - pose proof (dispatcher_step_ok _ _ (dispatcher_thread _ _ Hs) Hd) as Hd'.
    destruct (thread_step_keeps _ _ Hs) as (He & _).
    split; cbn; try done; [by exists past|by rewrite He|..].
    + exists ops. cbn. by rewrite Hh.
    + unfold tied. cbn. by rewrite He.
  - pose proof (dispatcher_step_ok _ _ (dispatcher_thread _ _ Hs) Hd) as Hd'.
    destruct (thread_step_keeps _ _ Hs) as (He & _).
    split; cbn; try done; [by exists past|by rewrite He|..].
    + exists (ops ++ [Served e address job]). cbn.
      rewrite run_services_snoc, omap_app, Hh, <- Hsv.
      split_and!; [done|by rewrite !fmap_app, Ho|]. apply Forall_app. split; [done|].
      apply Forall_singleton. by intros _.
    + unfold tied. cbn. by rewrite He.
  - split; cbn; try done; [by exists past|by exists ops|]. intros Hno.
    destruct Hd as [Hd _]. destruct Htied as [_ Hj]. destruct (Hj job) as [address Ha'].
    { apply elem_of_app. left. by eapply job_enqueued. }
    { intros now. apply Hno. }
    congruence.
Qed.

Lemma owner_move_ok s0 y y' :
  crashed y = false → owner_move y y' → system_inv s0 y → system_inv s0 y'.
Proof.
  intros Hcr Hstep [Hd Hl (past & Hg & Hu) Hr (ops & Hsv & Ho & Hf) Htied Halive].
  destruct Hstep as [event| |Hw].
  - split; cbn; try done; [|by exists ops]. exists past. by rewrite Hg, app_assoc.
  - pose proof (dispatcher_step_ok _ _ (dispatcher_start _) Hd) as Hd'.
    assert (Es : handled (start (dispatcher y)) = handled (dispatcher y) ∧
                 enqueued (start (dispatcher y)) = enqueued (dispatcher y)).
    { unfold start. by destruct (running _). }
    destruct Es as [Eh Ee].
    split; cbn; try done; [by exists past|by rewrite Ee|exists ops; cbn; by rewrite Eh|].
    unfold tied. cbn. by rewrite Ee.
  - pose proof (dispatcher_step_ok _ _ (dispatcher_stop _ Hw) Hd) as Hd'.
    split; cbn; try done; [by exists past|by exists ops].
Qed.

Lemma system_step_ok s0 y y' : system_step y y' → system_inv s0 y → system_inv s0 y'.
Proof. intros [Hcr [Hs|Hs]]; [by apply thread_move_ok|by apply owner_move_ok]. Qed.

Lemma system_steps_ok s0 y y' : rtc system_step y y' → system_inv s0 y → system_inv s0 y'.
Proof.
  induction 1 as [|x z w Hxz _ IH]; [done|]. intros Hinv. apply IH. by eapply system_step_ok.
Qed.

Lemma own_steps_ok s0 y y' : rtc own_step y y' → system_inv s0 y → system_inv s0 y'.
Proof. intros Hr. by apply system_steps_ok, own_steps_system. Qed.

Lemma system_reachable_inv storage policy now y :
  rtc system_step (new_System 1 storage policy now) y →
  system_inv (new_Server storage policy now).1 y.
Proof. intros Hr. eapply system_steps_ok; [exact Hr|apply new_System_inv]. Qed.

(** ** Coming to rest *)

(** Nothing is left to do for any thread. *)
Definition quiet y : Prop :=
  pending (loop y) = [] ∧ calls y = [] ∧ to_enqueue y = [] ∧
  in_flight (dispatcher y) = [] ∧ queue (d_queue (dispatcher y)) = [].

(** The environment of a step taken only to show that there is one. *)
Definition idle_env : Env := {|
  trace_draws := []; token_draws := []; ticket_draws := λ _, []; seed_draw := λ _, 0;
  send_time := λ _, 0; item_clock := λ _, [] |}.

(** [reaches y P]: the threads alone can bring [y] to a state satisfying [P]. *)
Definition reaches y (P : System S → Prop) : Prop := ∃ y',
  rtc own_step y y' ∧ given y' = given y ∧
  stopped (d_queue (dispatcher y')) = stopped (d_queue (dispatcher y)) ∧
  crashed y' = crashed y ∧ P y'.

Lemma reaches_here y (P : System S → Prop) : P y → reaches y P.
Proof. intros HP. by exists y. Qed.

Lemma reaches_trans y (P Q : System S → Prop) :
  reaches y P → (∀ y', rtc own_step y y' → given y' = given y →
    stopped (d_queue (dispatcher y')) = stopped (d_queue (dispatcher y)) →
    crashed y' = crashed y → P y' → reaches y' Q) →
  reaches y Q.
Proof.
  intros (y' & Hr & Hg & Hs & Hc & HP) HQ.
  destruct (HQ y' Hr Hg Hs Hc HP) as (z & Hr' & Hg' & Hs' & Hc' & Hz).
  exists z. split_and!; [by etransitivity|congruence..|done].
Qed.

Lemma reaches_step y y1 (P : System S → Prop) :
  crashed y = false → thread_move y y1 → given y1 = given y →
  stopped (d_queue (dispatcher y1)) = stopped (d_queue (dispatcher y)) →
  crashed y1 = crashed y → reaches y1 P → reaches y P.
Proof.
  intros Hcr Hstep Hg Hs Hc (z & Hr & Hg' & Hs' & Hc' & Hz).
  exists z. split_and!; [by apply (rtc_l _ _ y1)|congruence..|done].
Qed.

(** A running drain enqueues its jobs and makes its calls. *)
Lemma enqueue_rest y :
  crashed y = false → WorkerPool.capacity (d_queue (dispatcher y)) = 0 →
  reaches y (λ y', to_enqueue y' = [] ∧ calls y' = calls y ∧ loop y' = loop y).
Proof.
  remember (to_enqueue y) as l eqn:El. revert y El.
  induction l as [|job l IH]; intros y El Hcr Hc; [by apply reaches_here|].
  pose proof (push_unbounded job _ Hc) as Hp.
  eapply reaches_step; [done|by apply (move_enqueue y job l true)|done..|].
  eapply reaches_trans; [by apply IH|]. intros y' _ _ _ _ (? & ? & ?). by apply reaches_here.
Qed.

Lemma run_call_keeps config trace call y :
  given (run_call config trace call y) = given y ∧ loop (run_call config trace call y) = loop y ∧
  calls (run_call config trace call y) = calls y ∧
  dispatcher (run_call config trace call y) = dispatcher y ∧
  crashed (run_call config trace call y) = crashed y.
Proof.
  destruct call; cbn; try done. by destruct (onRead _ _ _ _).
Qed.

Lemma make_calls s0 y :
  system_inv s0 y → crashed y = false →
  reaches y (λ y', calls y' = [] ∧ to_enqueue y' = [] ∧ loop y' = loop y).
Proof.
  remember (calls y) as l eqn:El. revert y El.
  induction l as [|call l IH]; intros y El Hinv Hcr;
    pose proof (sys_dispatcher _ _ Hinv) as (_ & _ & _ & Hcap & _);
    (eapply reaches_trans; [by apply enqueue_rest|]);
    intros y' Hr _ _ Hcr' (Hq & Hc & Hl).
  { apply reaches_here. by rewrite Hc, <- El. }
  rewrite <- El in Hc. rewrite Hcr in Hcr'.
  set (z := y' <| calls := l |> <| made ::= λ cs, cs ++ [call] |>).
  destruct (run_call_keeps default_SessionConfig "" call z) as (Eg & El' & Ec & Ed & Ex).
  pose proof (move_call y' default_SessionConfig "" call l Hc Hq) as Hstep.
  assert (Hinv' : system_inv s0 (run_call default_SessionConfig "" call z)).
  { eapply thread_move_ok; [exact Hcr'|exact Hstep|]. by eapply own_steps_ok. }
  eapply reaches_step; [done|exact Hstep|done|fold z; by rewrite Ed|done|]. fold z.
  eapply reaches_trans; [apply IH; [done|done|by rewrite Ex]|]. intros w _ _ _ _ (? & ? & Hw).
  apply reaches_here. rewrite Hw, El'. done.
Qed.

(** No event has disconnected a connection, so no call has. *)
Lemma no_disconnect_call s0 y k :
  system_inv s0 y →
  (∀ e, e ∈ given y → IoEvent_connection_id e = k → IoEvent_type e ≠ IoDisconnect) →
  ∀ now, CallDisconnect k now ∉ made y.
Proof.
  intros [_ _ (past & Hg & Hu) _ _ _ _] Hno now Hin.
  assert (Hc : CallDisconnect k 0 ∈ call_of <$> past).
  { rewrite <- Hu. apply list_elem_of_fmap. exists (CallDisconnect k now).
    split; [done|]. apply elem_of_app. by left. }
  apply list_elem_of_fmap in Hc as (event & He & Hin').
  assert (Hin2 : event ∈ given y) by (rewrite Hg; apply elem_of_app; by left).
  specialize (Hno event Hin2). unfold call_of in He.
  destruct (IoEvent_type event); simplify_eq. by apply Hno.
Qed.

(** The dispatcher's threads come to rest. *)
Lemma serve_rest s0 y :
  system_inv s0 y → (∀ k now, CallDisconnect k now ∉ made y) →
  reaches y (λ y', at_rest (dispatcher y') ∧ calls y' = calls y ∧
                   to_enqueue y' = to_enqueue y ∧ loop y' = loop y).
Proof.
  remember (dispatcher y) as d eqn:Ed. revert y Ed.
  induction d as [d IH] using (well_founded_induction thread_step_wf). intros y -> Hinv Hno.
  pose proof (sys_dispatcher _ _ Hinv) as (Hd & Hn & _).
  pose proof (sys_alive _ _ Hinv Hno) as Hcr.
  destruct (progress (dispatcher y) Hd) as [[d' Hs]|Hr]; [lia| |by apply reaches_here].
  pose proof (thread_step_keeps _ _ Hs) as (He & Hst & _).
  assert (Hgo : ∀ y1, thread_move y y1 → dispatcher y1 = d' → given y1 = given y →
    crashed y1 = crashed y → made y1 = made y →
    calls y1 = calls y → to_enqueue y1 = to_enqueue y → loop y1 = loop y →
    reaches y (λ y', at_rest (dispatcher y') ∧ calls y' = calls y ∧
                     to_enqueue y' = to_enqueue y ∧ loop y' = loop y)).
  { intros y1 Hy1 Ed Eg Ex Em Ec Eq El.
    eapply reaches_step; [exact Hcr|exact Hy1|done|by rewrite Ed|done|].
    rewrite <- Ec, <- Eq, <- El. apply (IH d'); [done|done|by eapply thread_move_ok|].
    by rewrite Em. }
  destruct (thread_step_handled _ _ Hs) as [Hh|(job & Hh & _)].
  - eapply Hgo; [by apply (move_dispatcher y d')|done..].
  - destruct (sys_tied _ _ Hinv) as [_ Hj]. destruct (Hj job) as [address Ha]; [|done|].
    { apply elem_of_app. left. by eapply job_enqueued. }
    by eapply Hgo; [apply (move_serve y idle_env job address d')|..].
Qed.

Lemma no_disconnects s0 y :
  system_inv s0 y → Forall (λ e, IoEvent_type e ≠ IoDisconnect) (given y) →
  ∀ k now, CallDisconnect k now ∉ made y.
Proof.
  intros Hinv Hno k. eapply no_disconnect_call; [done|].
  intros e He _. rewrite Forall_forall in Hno. auto.
Qed.

(** All threads of a dispatcher that was not stopped at rest: nothing is left in it. *)
Lemma at_rest_empty d :
  dispatcher_ok d → stopped (d_queue d) = false → at_rest d →
  in_flight d = [] ∧ queue (d_queue d) = [].
Proof.
  intros (Hd & _ & _ & _ & Hph & _) Hns [Hf Hrest]. split; [done|].
  pose proof (inv_stopping _ Hd) as Hstop.
  destruct (d_phase d); [done| |done|done|].
  - destruct Hrest as [?|[? _]]; [done|congruence].
  - rewrite Hstop in Hns; [done|set_solver].
Qed.

(** The calls, the event loop's events, their calls, and then the jobs. *)
Lemma come_to_rest s0 y :
  system_inv s0 y → Forall (λ e, IoEvent_type e ≠ IoDisconnect) (given y) →
  stopped (d_queue (dispatcher y)) = false → reaches y quiet.
Proof.
  intros Hinv Hno Hns.
  pose proof (sys_alive _ _ Hinv (no_disconnects _ _ Hinv Hno)) as Hcr.
  eapply reaches_trans; [by eapply make_calls|].
  intros y1 Hr1 Hg1 Hs1 Hcr1 (Hc1 & Hq1 & _). rewrite Hcr in Hcr1.
  pose proof (move_drain y1 0 Hc1 Hq1) as Hstep.
  pose proof (own_steps_ok _ _ _ Hr1 Hinv) as Hinv1.
  pose proof (thread_move_ok _ _ _ Hcr1 Hstep Hinv1) as Hinv1'.
  eapply reaches_step; [done|exact Hstep|done..|].
  eapply reaches_trans; [by eapply make_calls|].
  intros y2 Hr2 Hg2 Hs2 Hcr2 (Hc2 & Hq2 & Hl2).
  pose proof (own_steps_ok _ _ _ Hr2 Hinv1') as Hinv2.
  assert (Hg02 : given y2 = given y) by (rewrite Hg2; exact Hg1).
  eapply reaches_trans.
  { eapply serve_rest; [exact Hinv2|]. eapply no_disconnects; [exact Hinv2|]. by rewrite Hg02. }
  intros y3 Hr3 _ Hs3 _ (Hrest & Hc3 & Hq3 & Hl3). apply reaches_here.
  cbn in Hs2. rewrite Hs1, Hns in Hs2. rewrite Hs2 in Hs3.
  destruct (at_rest_empty (dispatcher y3)) as [Hf Hempty]; [|done..|].
  { eapply sys_dispatcher, own_steps_ok; done. }
  unfold quiet. by rewrite Hl3, Hl2, Hc3, Hq3.
Qed.

(** At rest, the packets of all events were handled. *)
Lemma quiet_handled s0 y :
  system_inv s0 y → quiet y →
  packet_of <$> handled (dispatcher y) =
  (run_calls (call_of <$> given y) (new_PacketPipeline true)).1.
Proof.
  intros Hinv (Hpend & Hc & Hq & Hf & Hempty).
  destruct (sys_given _ _ Hinv) as (past & Hg & Hu).
  rewrite Hg, Hpend, app_nil_r, <- Hu, Hc, app_nil_r, run_calls_untimed.
  rewrite (sys_pipeline _ _ Hinv), Hq, app_nil_r. cbn [fst]. f_equal.
  destruct (sys_dispatcher _ _ Hinv) as (_ & _ & _ & _ & _ & Hl). unfold in_line in Hl.
  by rewrite Hf, Hempty, !app_nil_r in Hl.
Qed.

(** ** Properties *)

Lemma quiet_dispatched y :
  in_line (dispatcher y) → ∃ waiting,
  handled (dispatcher y) ++ waiting = enqueued (dispatcher y) ∧ (quiet y → waiting = []).
Proof.
  intros Hl. exists (in_flight (dispatcher y) ++ queue (d_queue (dispatcher y))).
  split; [done|]. by intros (_ & _ & _ & -> & ->).
Qed.

(** C9: every packet a client sends reaches the server exactly once and in order. In every
    state of the assembly with one worker, if a connection was accepted and has only read
    since, and the bytes it read, however cut and interleaved with other connections, are
    a sequence of frames and an incomplete rest, then the packets the server has served on
    it are an initial part of these frames; when nothing is left to do they are all of
    them. They were all served on the one session opened for the connection, and the
    server's state is what these services make of it. *)
Theorem every_packet_served storage policy now y k accept reads frames tail :
  rtc system_step (new_System 1 storage policy now) y →
  filter (concerns k) (given y) = accept :: reads →
  IoEvent_type accept = IoAccept → Forall (λ e, IoEvent_type e = IoRead) reads →
  Forall frame_ok frames → nextFrame tail = None →
  concat (IoEvent_payload <$> reads) = concat (frame_bytes <$> frames) ++ tail →
  ∃ ops waiting,
    server y = run_services ops (new_Server storage policy now).1 ∧
    filter (from k) (omap job_served ops).*2 ++ waiting =
      (λ f, (k, frame_header f, frame_payload f)) <$> frames ∧
    (quiet y → waiting = []) ∧
    Forall (λ served : Z * packet, from k served.2 → connections y !! k = Some served.1)
      (omap job_served ops).
Proof.
  intros Hr Hf Ha Hreads Hframes Htail Hbytes.
  pose proof (system_reachable_inv _ _ _ _ Hr) as Hinv.
  assert (Hno : ∀ now, CallDisconnect k now ∉ made y).
  { apply (no_disconnect_call _ _ _ Hinv). intros e He Hk Hd.
    assert (Hin : e ∈ accept :: reads).
    { rewrite <- Hf. apply list_elem_of_filter. split; [|done]. split; [done|]. by rewrite Hd. }
    rewrite Forall_forall in Hreads.
    apply elem_of_cons in Hin as [->|Hin%Hreads]; congruence. }
  destruct Hinv as [(_ & _ & _ & _ & _ & Hl) _ (past & Hg & Hu) Hp (ops & Hs & Ho & Hat) _ _].
  destruct (quiet_dispatched y Hl) as (rest & Hrest & Hquiet).
  pose proof (run_calls_new k (given y) accept reads (new_PacketPipeline true)
    eq_refl eq_refl Hf Ha Hreads) as Hall.
  rewrite read_chunks_concat, Hbytes in Hall by done. cbn [app] in Hall.
  rewrite all_frames_encoded in Hall by done. cbn [fst] in Hall.
  rewrite <- list_fmap_compose in Hall.
  rewrite Hg, fmap_app, <- Hu, fmap_app, <- app_assoc, run_calls_app, run_calls_untimed, Hp in Hall.
  destruct (run_calls _ (pipeline y)) as [later p'] eqn:El. cbn [fst] in Hall.
  rewrite <- Hrest, !fmap_app, !filter_app, <- Ho in Hall.
  exists ops, (filter (from k) (packet_of <$> rest) ++ filter (from k) (packet_of <$> to_enqueue y) ++
               filter (from k) later).
  split_and!; [done| | |].
  - rewrite <- !app_assoc in Hall. exact Hall.
  - intros Hq. rewrite (Hquiet Hq). destruct Hq as (Hpend & Hc & Hq & _).
    rewrite Hq. rewrite Hc, Hpend in El. injection El as <- _. done.
  - apply Forall_forall. intros served Hin Hk. rewrite Forall_forall in Hat.
    specialize (Hat served Hin). unfold from in Hk. rewrite Hk in Hat. by apply Hat.
Qed.

(** C26: the assembly always serves everything: from every state it can be in while no
    connection is closed and its dispatcher not stopped, its threads alone - no further
    event, no start or stop of the dispatcher - can bring it to one in which nothing is
    left to do. There no handler has thrown, the packets of all events given were handled,
    each once and in the order the pipeline gives them, and the server is what it is after
    serving exactly these, each on the session of its connection. *)
Theorem system_drains storage policy now y :
  rtc system_step (new_System 1 storage policy now) y →
  Forall (λ e, IoEvent_type e ≠ IoDisconnect) (given y) →
  stopped (d_queue (dispatcher y)) = false →
  let packets := (run_calls (call_of <$> given y) (new_PacketPipeline true)).1 in
  ∃ y' ops, rtc own_step y y' ∧ given y' = given y ∧ quiet y' ∧ crashed y' = false ∧
    packet_of <$> handled (dispatcher y') = packets ∧
    server y' = run_services ops (new_Server storage policy now).1 ∧
    (omap job_served ops).*2 = packets ∧
    Forall (λ served : Z * packet, connections y' !! served.2.1.1 = Some served.1)
      (omap job_served ops).
Proof.
  intros Hr Hno Hns packets. pose proof (system_reachable_inv _ _ _ _ Hr) as Hinv.
  destruct (come_to_rest _ _ Hinv Hno Hns) as (y' & Hr' & Hg & _ & _ & Hquiet).
  pose proof (own_steps_ok _ _ _ Hr' Hinv) as Hinv'.
  assert (Hno' : ∀ k now, CallDisconnect k now ∉ made y').
  { eapply no_disconnects; [exact Hinv'|]. by rewrite Hg. }
  pose proof (quiet_handled _ _ Hinv' Hquiet) as Hh. rewrite Hg in Hh.
  destruct (sys_services _ _ Hinv') as (ops & Hs & Ho & Hat).
  exists y', ops. split_and!; try done.
  - by apply (sys_alive _ _ Hinv').
  - by rewrite Ho.
  - eapply Forall_impl; [exact Hat|]. auto.
Qed.

End invariant.

(** *** The run of the network test

    A connection is accepted and sends a login packet, here in two reads. *)

Definition login_frame : Frame := {|
  frame_type := PacketType_to_u16 PT_LoginReq; frame_version := kMinProtocolVersion;
  frame_payload := encodeLoginRequest {|
    LoginRequest_user_id := "user1"; LoginRequest_password := "letmein" |} |}.

Definition io_event (type : IoEventType) (bytes : list byte) : IoEvent := {|
  IoEvent_type := type; IoEvent_connection_id := 10; IoEvent_payload := bytes;
  IoEvent_bytes_transferred := Z.of_nat (length bytes) |}.

Definition test_events : list IoEvent := [
  io_event IoAccept [];
  io_event IoRead (take 11 (frame_bytes login_frame));
  io_event IoRead (drop 11 (frame_bytes login_frame)) ].

Abbreviation test_system :=
  (new_System (S := InMemoryInventoryStorage) 1 new_InMemoryInventoryStorage
     default_SecurityPolicy 0).

(** The events are queued and drained, the handlers called, the job enqueued, passed on by
    the dispatcher thread and served by the worker. *)
Definition queued_system : System InMemoryInventoryStorage :=
  foldl (λ y event, y <| loop ::= enqueueEvent event |> <| given ::= λ l, l ++ [event] |>)
    test_system test_events.

Definition drained_system : System InMemoryInventoryStorage :=
  queued_system <| calls := (drain 7 (loop queued_system)).1 |>
                <| loop := (drain 7 (loop queued_system)).2 |>.

Definition call_next (y : System InMemoryInventoryStorage) : System InMemoryInventoryStorage :=
  match calls y with
  | call :: rest =>
    run_call default_SessionConfig "trace" call
      (y <| calls := rest |> <| made ::= λ l, l ++ [call] |>)
  | [] => y
  end.

Definition read_system : System InMemoryInventoryStorage :=
  call_next (call_next (call_next drained_system)).

Definition login_job : PacketJob := {|
  connection_id := 10; header := frame_header login_frame;
  payload := frame_payload login_frame; received_at := 7 |}.

Definition running_with (d : PacketDispatcher) (a : dispatcher_at) (queued : list PacketJob)
    (w : worker_at) : PacketDispatcher :=
  d <| d_dispatcher := a |> <| d_pool ::= λ p, p <| jobs := queued |> |> <| d_workers := [w] |>.

Definition job_queue : PacketQueue :=
  new_PacketQueue 0 WorkerPool.DropNewest <| queue := [login_job] |>.

Definition loaded : PacketDispatcher :=
  enqueue_job login_job true job_queue (dispatcher test_system).

(** The dispatcher thread holds the job; it is in the pool; the worker holds it. *)
Definition popped : PacketDispatcher :=
  running_with loaded (Submitting login_job) [] Idle
    <| d_queue := new_PacketQueue 0 WorkerPool.DropNewest |>.
Definition submitted : PacketDispatcher := running_with popped Popping [login_job] Idle.
Definition taken : PacketDispatcher := running_with popped Popping [] (Executing login_job).
Definition finished : PacketDispatcher :=
  running_with popped Popping [] Idle <| handled := [login_job] |>.

Definition dispatching (d : PacketDispatcher) : System InMemoryInventoryStorage :=
  read_system <| to_enqueue := [] |> <| dispatcher := d |>.

Definition served_system : System InMemoryInventoryStorage :=
  dispatching finished
    <| server := (serve_job (H := bucket_order) idle_env 1 login_job (server read_system)).1.2 |>.

(** The client finds the answer of the test in its session's queue. *)
Lemma login_answered :
  send_queue <$> heap (server served_system) !! 1 =
  Some [encode_frame (PacketType_to_u16 PT_LoginRes) kMinProtocolVersion
          (encodeLoginResponse {|
             LoginResponse_accepted := true; LoginResponse_token := "";
             LoginResponse_message := "Login accepted" |})].
Proof. vm_compute. reflexivity. Qed.

Lemma moved y y' :
  crashed y = false → thread_move (H := bucket_order) y y' → system_step (H := bucket_order) y y'.
Proof. intros. split; [done|by left]. Qed.

Lemma call_next_step y :
  crashed y = false → calls y ≠ [] → to_enqueue y = [] →
  system_step (H := bucket_order) y (call_next y).
Proof.
  intros Hcr Hc Hq. unfold call_next. destruct (calls y) as [|call rest] eqn:E; [done|].
  apply moved; [done|]. by apply move_call.
Qed.

Lemma enqueue_step y job rest d q :
  crashed y = false →
  to_enqueue y = job :: rest → dispatcher y = d → push job (d_queue d) = Some (true, q) →
  system_step (H := bucket_order) y
    (y <| to_enqueue := rest |> <| dispatcher := enqueue_job job true q d |>).
Proof. intros Hcr Hq <- Hp. apply moved; [done|]. by apply (move_enqueue y job rest true q). Qed.

Lemma pass_step d d' :
  thread_step d d' → handled d' = handled d →
  system_step (H := bucket_order) (dispatching d) (dispatching d').
Proof.
  intros Hs Hh. unfold dispatching. assert (Hcr : crashed read_system = false) by by vm_compute.
  revert Hcr. generalize read_system. intros y Hcr. apply moved; [done|].
  exact (move_dispatcher (H := bucket_order)
            (y <| to_enqueue := [] |> <| dispatcher := d |>) d' Hs Hh).
Qed.

Lemma serve_step d d' e job address y :
  crashed y = false → thread_step d d' → handled d' = handled d ++ [job] →
  connections y !! connection_id job = Some address →
  system_step (H := bucket_order) (y <| to_enqueue := [] |> <| dispatcher := d |>)
    (y <| to_enqueue := [] |> <| dispatcher := d' |>
       <| server := (serve_job (H := bucket_order) e address job (server y)).1.2 |>).
Proof.
  intros Hcr Hs Hh Ha. apply moved; [done|].
  exact (move_serve (H := bucket_order) (y <| to_enqueue := [] |> <| dispatcher := d |>)
           e job address d' Hs Hh Ha).
Qed.

Lemma queued_reachable : rtc (system_step (H := bucket_order)) test_system queued_system.
Proof. do 3 (eapply rtc_l; [split; [|right; apply owner_event]; done|]). apply rtc_refl. Qed.

Lemma served_reachable :
  rtc (system_step (H := bucket_order)) test_system served_system.
Proof.
  transitivity queued_system; [apply queued_reachable|].
  transitivity drained_system; [by apply rtc_once, moved, move_drain|].
  transitivity read_system.
  { unfold read_system. do 2 (eapply rtc_l; [apply call_next_step; by vm_compute|]).
    apply rtc_once, call_next_step; by vm_compute. }
  transitivity (dispatching loaded).
  { unfold dispatching, loaded. apply rtc_once, enqueue_step; by vm_compute. }
  eapply rtc_l.
  { apply (pass_step loaded popped); [|done].
    exact (dispatcher_pop loaded login_job (d_queue popped) eq_refl eq_refl). }
  eapply rtc_l.
  { apply (pass_step popped submitted); [|done].
    exact (dispatcher_submit popped login_job eq_refl eq_refl). }
  eapply rtc_l.
  { apply (pass_step submitted taken); [|done].
    exact (worker_take submitted 0 login_job (d_pool popped) eq_refl eq_refl). }
  unfold served_system, dispatching. apply rtc_once.
  apply serve_step; [by vm_compute|exact (worker_finish taken 0 login_job eq_refl)|done|by vm_compute].
Qed.

Lemma every_packet_served_witness :
  let y := served_system in
  quiet y ∧ ∃ ops waiting,
    server y = run_services (H := bucket_order) ops
      (new_Server new_InMemoryInventoryStorage default_SecurityPolicy 0).1 ∧
    filter (from 10) (omap job_served ops).*2 ++ waiting =
      [(10, frame_header login_frame, frame_payload login_frame)] ∧
    (quiet y → waiting = []) ∧
    Forall (λ served : Z * packet, from 10 served.2 → connections y !! 10 = Some served.1)
      (omap job_served ops).
Proof.
  intros y. split; [by vm_compute|].
  apply (every_packet_served (H := bucket_order) new_InMemoryInventoryStorage
    default_SecurityPolicy 0 served_system 10 (io_event IoAccept [])
    [io_event IoRead (take 11 (frame_bytes login_frame));
     io_event IoRead (drop 11 (frame_bytes login_frame))] [login_frame] []);
    [apply served_reachable|by vm_compute|done|by repeat constructor| |done|by vm_compute].
  apply Forall_singleton. split_and!; by vm_compute.
Defined.

Lemma system_drains_witness :
  let packets := (run_calls (call_of <$> given queued_system) (new_PacketPipeline true)).1 in
  packets = [packet_of login_job] ∧
  ∃ y' ops, rtc (own_step (H := bucket_order)) queued_system y' ∧
    given y' = given queued_system ∧ quiet y' ∧ crashed y' = false ∧
    packet_of <$> handled (dispatcher y') = packets ∧
    server y' = run_services (H := bucket_order) ops
      (new_Server new_InMemoryInventoryStorage default_SecurityPolicy 0).1 ∧
    (omap job_served ops).*2 = packets ∧
    Forall (λ served : Z * packet, connections y' !! served.2.1.1 = Some served.1)
      (omap job_served ops).
Proof.
  split; [by vm_compute|].
  apply (system_drains (H := bucket_order) new_InMemoryInventoryStorage default_SecurityPolicy 0
    queued_system); [apply queued_reachable|by repeat constructor|by vm_compute].
Defined.
