(* ===== verification/LoadSim.v ===== *)
(** * The load simulation (src/scripts/load_match_sim.cpp)

    The program that drives a server with simulated clients: its options, the sessions it
    opens, the match requests it issues from several threads, the bursts that overflow the
    send queues, and the validation of the log. A request runs under a mutex, so a run of
    the threads is a sequence of requests in some order; what a step reads from the outside
    is in its [Env] and times. [summary_text] is the summary it writes. *)

From stdpp Require Import pretty.
From S2P Require Auth Party Guild Chat Match Dungeon Groups.
From S2P Require Import Inventory.
From S2P Require Import Prelude Float Wire Protocol Codec Security Logging LoadLog Session.
From S2P Require Import Server Handlers Hoare ServerInvariant Idle ServerProperties.
From S2P Require Import ServerSecurity.

(** ** Options *)

Record Options := {
  opt_sessions : Z;
  requests_per_session : Z;
  concurrency : Z;
  opt_send_queue_limit_bytes : Z;
  overflow_payload_bytes : Z;
  overflow_burst : Z;
  log_path : string;
  summary_path : string
}.

#[export] Instance Options_rebuild : Rebuild Options := λ o, {|
  opt_sessions := opt_sessions o; requests_per_session := requests_per_session o;
  concurrency := concurrency o; opt_send_queue_limit_bytes := opt_send_queue_limit_bytes o;
  overflow_payload_bytes := overflow_payload_bytes o; overflow_burst := overflow_burst o;
  log_path := log_path o; summary_path := summary_path o |}.

Definition default_Options : Options := {|
  opt_sessions := 24; requests_per_session := 1; concurrency := 6;
  opt_send_queue_limit_bytes := 2048; overflow_payload_bytes := 4096; overflow_burst := 3;
  log_path := "docs/load_run.log"; summary_path := "docs/load_summary.md" |}.

(** A missing value is a null pointer; the string constructor of libstdc++ throws on it, and
    the function catches every exception. *)
Definition parseSize (value : option string) : option Z :=
  match value with
  | None => None
  | Some text =>
    match stoull text with
    | Some (result, rest) => if string_empty rest then Some result else None
    | None => None
    end
  end.

(** An option with a number: the value, if it is one, replaces the field. *)
Definition set_size (value : option string) (set : Z → Options → Options) (o : Options) : Options :=
  match parseSize value with Some n => set n o | None => o end.

Definition set_path (value : option string) (set : string → Options → Options) (o : Options)
    : Options :=
  match value with Some path => set path o | None => o end.

(** What [arg] does with the value that follows it; [None] when it takes none. *)
Definition option_setter (arg : string) : option (option string → Options → Options) :=
  if bool_decide (arg = "--sessions"%string) then
    Some (λ v, set_size v (λ n o, o <| opt_sessions := n |>))
  else if bool_decide (arg = "--requests-per-session"%string) then
    Some (λ v, set_size v (λ n o, o <| requests_per_session := n |>))
  else if bool_decide (arg = "--concurrency"%string) then
    Some (λ v, set_size v (λ n o, o <| concurrency := n |>))
  else if bool_decide (arg = "--send-queue-limit"%string) then
    Some (λ v, set_size v (λ n o, o <| opt_send_queue_limit_bytes := n |>))
  else if bool_decide (arg = "--overflow-payload"%string) then
    Some (λ v, set_size v (λ n o, o <| overflow_payload_bytes := n |>))
  else if bool_decide (arg = "--overflow-burst"%string) then
    Some (λ v, set_size v (λ n o, o <| overflow_burst := n |>))
  else if bool_decide (arg = "--log-path"%string) then
    Some (λ v, set_path v (λ p o, o <| log_path := p |>))
  else if bool_decide (arg = "--summary-path"%string) then
    Some (λ v, set_path v (λ p o, o <| summary_path := p |>))
  else None.

(** The arguments after the program's name; [None] is [std::exit(0)] after the usage. *)
Fixpoint parseArgs (args : list string) (o : Options) : option Options :=
  match args with
  | [] => Some o
  | arg :: rest =>
    if bool_decide (arg = "--help"%string) || bool_decide (arg = "-h"%string) then None
    else
      match option_setter arg with
      | None => parseArgs rest o
      | Some set =>
        match rest with
        | [] => Some (set None o)
        | value :: rest => parseArgs rest (set (Some value) o)
        end
      end
  end.

(** ** The simulation *)

Definition makeHeader (type version : Z) (length : Z) : FrameHeader := {|
  FrameHeader_length := u32 length; FrameHeader_type := type; FrameHeader_version := version |}.

Definition policyName (policy : OverflowPolicy) : string :=
  match policy with
  | DropNewest => "DropNewest"
  | DropOldest => "DropOldest"
  | Disconnect => "Disconnect"
  end.

Record SessionBundle := {
  bundle_session : Z;           (* the address of the session *)
  bundle_party_id : Z;
  bundle_user_id : string;
  bundle_policy : OverflowPolicy
}.

Record OverflowStats := {
  stat_sessions : Z;
  attempts : Z;
  stat_accepted : Z;
  stat_dropped : Z;
  disconnected : Z;
  max_queued_bytes : Z
}.

#[export] Instance OverflowStats_rebuild : Rebuild OverflowStats := λ s, {|
  stat_sessions := stat_sessions s; attempts := attempts s; stat_accepted := stat_accepted s;
  stat_dropped := stat_dropped s; disconnected := disconnected s;
  max_queued_bytes := max_queued_bytes s |}.

Definition no_stats : OverflowStats := {|
  stat_sessions := 0; attempts := 0; stat_accepted := 0; stat_dropped := 0; disconnected := 0;
  max_queued_bytes := 0 |}.

#[export] Instance OverflowPolicy_dec : EqDecision OverflowPolicy.
Proof. solve_decision. Defined.

(** The map from policies to statistics; an entry is made when it is first used. *)
Abbreviation Stats := (OverflowPolicy → option OverflowStats).

Definition update_stats (policy : OverflowPolicy) (f : OverflowStats → OverflowStats)
    (stats : Stats) : Stats :=
  λ p, if decide (p = policy) then Some (f (default no_stats (stats policy))) else stats p.

Definition policy_of (i : nat) : OverflowPolicy :=
  match (i mod 3)%nat with 0%nat => DropNewest | 1%nat => DropOldest | _ => Disconnect end.

Definition session_config (o : Options) (i : nat) : SessionConfig := {|
  heartbeat_interval := heartbeat_interval default_SessionConfig;
  timeout := timeout default_SessionConfig;
  send_queue_limit_bytes := opt_send_queue_limit_bytes o;
  overflow_policy := policy_of i;
  rate_limit_capacity := d_of_Z 1000000000;
  rate_limit_refill_per_sec := d_of_Z 1000000000;
  nonce_cache_limit := nonce_cache_limit default_SessionConfig |}.

Definition load_user (i : nat) : string := "load_user_" +:+ pretty (Z.of_nat i + 1).

Section simulation.
Context {S : Type} `{HashOrder, InventoryStorage S}.
Implicit Types (s : Server S).

(** A packet of the current version. *)
Definition sim_packet (e : Env) (address : Z) (type : PacketType) (payload : list byte) (time : Z)
    : M S (option (list byte)) :=
  handlePacket e address (makeHeader (PacketType_to_u16 type) kMaxProtocolVersion
                            (payload_size payload)) payload time.

(** What one turn of the first loop reads: the session's trace id, the environment and the
    time of the login. *)
Record Opening := { opening_trace : string; opening_env : Env; opening_time : Z }.

Definition open_session (o : Options) (now : Z) (i : nat) (x : Opening) (bundles : list SessionBundle)
    : M S (list SessionBundle) :=
  session <- createSession (session_config o i) now (opening_trace x);;
  let user := load_user i in
  _ <- sim_packet (opening_env x) session PT_LoginReq
         (encodeLoginRequest {| LoginRequest_user_id := user;
                                LoginRequest_password := "letmein" |}) (opening_time x);;
  number <- get (λ s, from_option id 0 (heap s !! session));;
  party <- get (λ s, (Party.createParty number user (party_service s)).1.1);;
  modify (λ s, s <| party_service ::= λ p, (Party.createParty number user p).1.2 |>);;
  ret (match party with
       | None => bundles
       | Some party =>
         bundles ++ [{| bundle_session := session; bundle_party_id := party;
                        bundle_user_id := user; bundle_policy := policy_of i |}]
       end).

Fixpoint open_sessions (o : Options) (now : Z) (i : nat) (xs : list Opening)
    (bundles : list SessionBundle) : M S (list SessionBundle) :=
  match xs with
  | [] => ret bundles
  | x :: xs =>
    bundles <- open_session o now i x bundles;;
    open_sessions o now (Datatypes.S i) xs bundles
  end.

(** Does the answer announce a match? *)
Definition match_succeeded (reply : option (list byte)) : bool :=
  match reply with
  | None => false
  | Some frame =>
    match nextFrame (append frame []) with
    | None => false
    | Some (header, payload, _) =>
      if negb (FrameHeader_type header =? PacketType_to_u16 PT_MatchFoundNotify) then false
      else
        match decodeMatchFoundNotify payload with
        | None => false
        | Some notify => MatchFoundNotify_success notify
        end
    end
  end.

Definition load_request (bundle : SessionBundle) : list byte :=
  encodeMatchRequest {| MatchRequest_party_id := bundle_party_id bundle;
                        MatchRequest_dungeon_id := 2001; MatchRequest_difficulty := "normal" |}.

Definition issueMatch (bundle : SessionBundle) (e : Env) (time : Z) : M S bool :=
  reply <- sim_packet e (bundle_session bundle) PT_MatchReq (load_request bundle) time;;
  ret (match_succeeded reply).

(** The requests in the order in which their threads take the mutex: the successes and the
    failures. *)
Fixpoint issue_matches (calls : list (SessionBundle * Env * Z)) (count : Z * Z) : M S (Z * Z) :=
  match calls with
  | [] => ret count
  | (bundle, e, time) :: calls =>
    success <- issueMatch bundle e time;;
    issue_matches calls (if success : bool then (u64 (count.1 + 1), count.2)
                         else (count.1, u64 (count.2 + 1)))
  end.

(** The burst of one session, [n] more attempts at the times given. *)
Fixpoint overflow_session (payload : list byte) (times : nat → Z) (address : Z) (n : nat)
    (stats : OverflowStats) : M S OverflowStats :=
  match n with
  | O => ret stats
  | Datatypes.S n =>
    let stats := stats <| attempts ::= λ k, u64 (k + 1) |> in
    accepted <- on_session address false (enqueueSend payload (times n));;
    let stats := if accepted : bool then stats <| stat_accepted ::= λ k, u64 (k + 1) |>
                 else stats <| stat_dropped ::= λ k, u64 (k + 1) |> in
    alive <- get (λ s, from_option connected false (heap s !! address));;
    if negb alive then ret (stats <| disconnected ::= λ k, u64 (k + 1) |>)
    else overflow_session payload times address n stats
  end.

Fixpoint overflow_sessions (o : Options) (times : Z → nat → Z) (bundles : list SessionBundle)
    (stats : Stats) : M S Stats :=
  match bundles with
  | [] => ret stats
  | bundle :: bundles =>
    let address := bundle_session bundle in
    let mine := default no_stats (stats (bundle_policy bundle)) in
    let mine := mine <| stat_sessions ::= λ k, u64 (k + 1) |> in
    let payload := replicate (Z.to_nat (overflow_payload_bytes o)) Byte.xab in
    mine <- overflow_session payload (times address) address (Z.to_nat (overflow_burst o)) mine;;
    queued <- get (λ s, from_option queuedBytes 0 (heap s !! address));;
    overflow_sessions o times bundles
      (update_stats (bundle_policy bundle)
         (λ _, mine <| max_queued_bytes ::= λ m, Z.max m queued |>) stats)
  end.

(** [main] up to the summary. [calls] gives the requests, from the bundles that were opened,
    in the order in which they run. *)
Definition simulate (o : Options) (now : Z) (openings : list Opening)
    (calls : list SessionBundle → list (SessionBundle * Env * Z)) (times : Z → nat → Z)
    : M S (list SessionBundle * (Z * Z) * Stats) :=
  bundles <- open_sessions o now 0 openings [];;
  count <- issue_matches (calls bundles) (0, 0);;
  stats <- overflow_sessions o times bundles (λ _, None);;
  ret (bundles, count, stats).

End simulation.

(** ** The summary *)

Definition text_line (text : string) : string := text +:+ String (Ascii.ascii_of_nat 10) "".

Definition count_line (label : string) (n : Z) : string := text_line (label +:+ pretty n).

Definition passed (b : bool) : string := if b then "PASS" else "FAIL".

Definition option_text (name value : string) : string :=
  if string_empty value then "" else " " +:+ name +:+ " " +:+ value.

(** The command line, as the summary repeats it. *)
Definition command_text (o : Options) : string :=
  "./build/dungeonhub_load_sim" +:+
  " --sessions " +:+ pretty (opt_sessions o) +:+
  " --requests-per-session " +:+ pretty (requests_per_session o) +:+
  " --concurrency " +:+ pretty (concurrency o) +:+
  " --send-queue-limit " +:+ pretty (opt_send_queue_limit_bytes o) +:+
  " --overflow-payload " +:+ pretty (overflow_payload_bytes o) +:+
  " --overflow-burst " +:+ pretty (overflow_burst o) +:+
  option_text "--log-path" (log_path o) +:+ option_text "--summary-path" (summary_path o).

Definition policy_text (policy : OverflowPolicy) (entry : option OverflowStats) : string :=
  match entry with
  | None => ""
  | Some e =>
    text_line ("- Policy: " +:+ policyName policy) +:+
    count_line "  - Sessions: " (stat_sessions e) +:+
    count_line "  - Attempts: " (attempts e) +:+
    count_line "  - Accepted: " (stat_accepted e) +:+
    count_line "  - Dropped: " (stat_dropped e) +:+
    count_line "  - Disconnected: " (disconnected e) +:+
    count_line "  - Max queued bytes: " (max_queued_bytes e)
  end.

Definition validation_text (o : Options) (v : ValidationResults) : string :=
  if string_empty (log_path o)
  then text_line "- Validation skipped (no log path configured)."
  else
    text_line "- Match duplicate check (log)" +:+
    count_line "  - Match found entries: " (match_found_entries v) +:+
    count_line "  - Unique sessions matched: " (match_found_unique_sessions v) +:+
    count_line "  - Duplicate matches: " (match_found_duplicates v) +:+
    text_line ("  - Status: " +:+ passed (duplicate_check_passed v)) +:+
    text_line "- Overflow policy log check" +:+
    count_line "  - Queue overflow warnings: " (queue_overflow_warnings v) +:+
    count_line "  - Overflow disconnects: " (overflow_disconnects v) +:+
    text_line ("  - Status: " +:+ passed (overflow_policy_logged v)).

(** The text [main] writes at the end; [duration] is in milliseconds. The [std::map] of the
    statistics goes through the policies in the order of the enumeration. *)
Definition summary_text (o : Options) (count : Z * Z) (duration : Z) (stats : Stats)
    (m : Metrics) (v : ValidationResults) : string :=
  text_line "# Load Test Summary" +:+ text_line "" +:+
  text_line "Generated by `scripts/load_match_sim.cpp`." +:+ text_line "" +:+
  text_line "## Command" +:+ text_line "```bash" +:+
  text_line (command_text o) +:+ text_line "```" +:+ text_line "" +:+
  text_line "## Match Results" +:+
  count_line "- Sessions opened: " (opt_sessions o) +:+
  count_line "- Match requests: " (u64 (opt_sessions o * requests_per_session o)) +:+
  count_line "- Match successes: " count.1 +:+
  count_line "- Match failures: " count.2 +:+
  text_line ("- Duration: " +:+ pretty duration +:+ " ms") +:+ text_line "" +:+
  text_line "## Send Queue Overflow" +:+
  policy_text DropNewest (stats DropNewest) +:+
  policy_text DropOldest (stats DropOldest) +:+
  policy_text Disconnect (stats Disconnect) +:+
  text_line "" +:+ text_line "## Server Metrics" +:+
  count_line "- Packets total: " (packets_total m) +:+
  count_line "- Bytes total: " (bytes_total m) +:+
  count_line "- Errors total: " (error_total m) +:+ text_line "" +:+
  text_line "## Validation" +:+ validation_text o v +:+
  (if string_empty (log_path o) then ""
   else text_line "## Logs" +:+ text_line ("- Log output: `" +:+ log_path o +:+ "`")).

(** ** Messages that fit *)

Lemma string_size_hex upper v s : string_size (hex_byte upper v +:+ s) = (2 + string_size s)%nat.
Proof. done. Qed.

Lemma trace_id_fits draws : string_fits (generateTraceId draws).
Proof.
  unfold string_fits, generateTraceId.
  assert (E : string_size (foldr (λ v out, hex_byte false v +:+ out) "" (take 16 draws)) =
              (2 * length (take 16 draws))%nat).
  { induction (take 16 draws) as [|v l IH]; [done|]. cbn [foldr length].
    rewrite string_size_hex, IH. lia. }
  rewrite E, length_take. lia.
Qed.

Lemma length_write_string s : Z.of_nat (length (write_string s)) <= 65537.
Proof. unfold write_string. rewrite length_app, length_take, length_write_u16. lia. Qed.

Lemma match_frame_succeeds v notify :
  in_width 16 v → MatchFoundNotify_ok notify → MatchFoundNotify_success notify = true →
  match_succeeded (Some (encode_frame (PacketType_to_u16 PT_MatchFoundNotify) v
                           (encodeMatchFoundNotify notify))) = true.
Proof.
  intros Hv Hok Hs. unfold match_succeeded, append.
  set (f := {| frame_type := PacketType_to_u16 PT_MatchFoundNotify; frame_version := v;
               frame_payload := encodeMatchFoundNotify notify |}).
  assert (Hf : frame_ok f).
  { unfold frame_ok, f. cbn [frame_type frame_version frame_payload].
    split_and!; [done|done|]. unfold encodeMatchFoundNotify. rewrite !length_app.
    pose proof (length_write_string (MatchFoundNotify_code notify)).
    pose proof (length_write_string (MatchFoundNotify_message notify)).
    pose proof (length_write_string (MatchFoundNotify_endpoint notify)).
    pose proof (length_write_string (MatchFoundNotify_ticket notify)).
    change (length (write_flag _)) with 1%nat. change (length (write_u64 _)) with 8%nat. lia. }
  pose proof (nextFrame_frame f [] Hf) as E. rewrite app_nil_r in E.
  change (frame_bytes f) with (encode_frame (PacketType_to_u16 PT_MatchFoundNotify) v
                           (encodeMatchFoundNotify notify)) in E.
  rewrite app_nil_l, E. cbn [frame_header FrameHeader_type f frame_type frame_payload].
  rewrite Z.eqb_refl. cbn [negb]. by rewrite MatchFoundNotify_decode_encode.
Qed.

(** A printed number below 10 ^ [k] has at most [k] digits. *)
Lemma pretty_N_go_size k x s :
  (x < 10 ^ k)%N → (string_size (pretty_N_go x s) <= N.to_nat k + string_size s)%nat.
Proof.
  revert x s. induction k as [|k IH] using N.peano_ind; intros x s Hx.
  - assert (x = 0%N) as -> by (change (10 ^ 0)%N with 1%N in Hx; lia). by rewrite pretty_N_go_0.
  - destruct (decide (0 < x)%N); [|assert (x = 0%N) as -> by lia; rewrite pretty_N_go_0; lia].
    rewrite pretty_N_go_step by done.
    assert (Hd : (x `div` 10 < 10 ^ k)%N).
    { rewrite N.pow_succ_r' in Hx. apply N.Div0.div_lt_upper_bound. lia. }
    specialize (IH (x `div` 10)%N (String (pretty_N_char (x `mod` 10)) s) Hd).
    change (string_size (String (pretty_N_char (x `mod` 10)) s)) with (1 + string_size s)%nat in IH.
    lia.
Qed.

Lemma load_user_fits i : Z.of_nat i < 2 ^ 64 → string_fits (load_user i).
Proof.
  intros Hi. unfold string_fits, load_user.
  assert (E : ∀ x : N, (x < 10 ^ 20)%N → (string_size (pretty x) <= 20)%nat).
  { intros x Hx. unfold pretty, pretty_N. destruct (decide (x = 0%N)); [cbn; lia|].
    pose proof (pretty_N_go_size 20 x "" Hx). cbn in *. lia. }
  rewrite pretty_nonneg by lia.
  assert (Happ : ∀ s, string_size ("load_user_" +:+ s) = (10 + string_size s)%nat) by done.
  rewrite Happ. specialize (E (Z.to_N (Z.of_nat i + 1))).
  change (10 ^ 20)%N with 100000000000000000000%N in E. lia.
Qed.

Lemma load_user_inj i j : load_user i = load_user j → i = j.
Proof. intros E%(inj (String.append _))%(inj pretty). lia. Qed.

(** ** A match request of a ready party *)

Definition solo_party (k : Z) (user : string) : Party.PartyRecord := {|
  Party.party_id := k; Party.leader_session_id := k;
  Party.members := {[ k := {| Party.member_session_id := k; Party.member_user_id := user |} ]} |}.

Definition bundle_at (j : nat) : SessionBundle := {|
  bundle_session := Z.of_nat j + 1; bundle_party_id := Z.of_nat j + 1;
  bundle_user_id := load_user j; bundle_policy := policy_of j |}.

Section run.
Context {S : Type} `{HashOrder, InventoryStorage S}.
Implicit Types (s : Server S).

(** The user of session [k] is logged in and alone in party [k]. *)
Definition ready (k : Z) (user : string) s : Prop :=
  (∃ o context, heap s !! k = Some o ∧ id o = k ∧ userContext o = Some context) ∧
  Party.parties (party_service s) !! k = Some (solo_party k user).

(** Nothing is queued, and no security checks are made. *)
Definition calm s : Prop :=
  queue_empty s ∧ Match.rule (match_queue s) = Match.default_MatchRule ∧
  security_policy s = default_SecurityPolicy ∧
  in_width 64 (Dungeon.next_instance_id (instance_manager s)).

(** The entry of a received packet. *)
Definition packet_entry (c : Packet) : LogEntry := {|
  log_level := "info"; Logging.log_event := "packet_received"; log_message := "Packet received";
  log_fields := received c |}.

(** The packet of [sim_packet]. *)
Definition sim_context (e : Env) (k : Z) (type : PacketType) (payload : list byte) (time : Z)
    (o : Session) : Packet := {|
  env := e; address := k; sid := id o; version := kMaxProtocolVersion;
  received := received_fields o (generateTraceId (trace_draws e))
    (makeHeader (PacketType_to_u16 type) kMaxProtocolVersion (payload_size payload)) payload;
  now := time |}.

Lemma sim_packet_run e k type payload time s o :
  heap s !! k = Some o → security_policy s = default_SecurityPolicy →
  (∀ value, type ≠ PT_raw value) →
  let c := sim_context e k type payload time o in
  let result := dispatch c type payload (counted k (touched kMaxProtocolVersion time o) payload s) in
  sim_packet e k type payload time s = (result.1, packet_entry c :: result.2).
Proof.
  intros Ho Hp Ht c result. unfold sim_packet, handlePacket.
  rewrite run_modify, run_get. cbn [heap update_field Server_rebuild]. rewrite Ho.
  rewrite run_log_entry. erewrite run_set_session_logs by exact Ho.
  erewrite run_set_session_logs by apply lookup_insert_eq.
  assert (E : ∀ s1, security_policy s1 = default_SecurityPolicy →
    process_packet c (PacketType_to_u16 type) payload s1 = dispatch c type payload s1).
  { intros s1 Hs1. unfold process_packet. rewrite !run_get, Hs1. cbn [require_tls default_SecurityPolicy andb].
    change (open_payload c default_SecurityPolicy payload) with
      (ret (S := S) (@inr (option (list byte)) _ payload)).
    change ((version c <? kMinProtocolVersion) || (kMaxProtocolVersion <? version c)) with false.
    cbv iota. rewrite run_ret. by rewrite PacketType_of_to_u16. }
  cbn [FrameHeader_type makeHeader]. cbn [heap update_field Server_rebuild].
  unfold result, counted, touched. rewrite insert_insert_eq.
  rewrite <- E by exact Hp. done.
Qed.

Lemma hash_iter_singleton {A} k (x : A) : hash_iter ({[ k := x ]} : gmap Z A) = [(k, x)].
Proof. apply Permutation_singleton_r. by rewrite hash_iter_perm, map_to_list_singleton. Qed.

Definition solo_info (k : Z) (user : string) : Party.PartyInfo := {|
  Party.PartyInfo_party_id := k; Party.PartyInfo_leader_session_id := k;
  Party.PartyInfo_members := [{| Party.member_session_id := k; Party.member_user_id := user |}] |}.

Lemma solo_party_info k user p :
  Party.parties p !! k = Some (solo_party k user) →
  Party.getPartyInfo k p = Some (solo_info k user).
Proof.
  intros Hp. unfold Party.getPartyInfo. rewrite Hp. cbn [Party.members solo_party].
  by rewrite hash_iter_singleton.
Qed.

Definition match_entry (c : Packet) (user : string) : LogEntry := {|
  log_level := "info"; Logging.log_event := "match_found"; log_message := "Match found";
  log_fields := received c <| user_id := Some user |>
                           <| reason := Some "Match found"%string |> |}.

(** Only these parts of the state matter to [ready] and [calm]. *)
Lemma ready_same k user s s' :
  heap s' = heap s → party_service s' = party_service s → ready k user s → ready k user s'.
Proof. unfold ready. by intros -> ->. Qed.

(** The members of a party of one, when the match is their own. *)
Lemma notify_solo c instance frame k user s :
  sid c = k →
  ∃ instances,
    notify_members c instance true frame (Party.PartyInfo_members (solo_info k user)) s =
    (tt, s <| session_instances := instances |>, []).
Proof.
  intros Hk. cbn [solo_info Party.PartyInfo_members notify_members Party.member_session_id].
  rewrite run_get. destruct (findSession k s) as [a|].
  - exists (<[k := instance]> (session_instances s)).
    rewrite Hk, Z.eqb_refl. reflexivity.
  - exists (session_instances s). by destruct s.
Qed.

Lemma start_solo c user k s :
  sid c = k → Party.parties (party_service s) !! k = Some (solo_party k (user)) → calm s →
  let instance := Dungeon.next_instance_id (instance_manager s) in
  ∀ name, ∃ s',
  start_matches c name k [{| Match.candidate_party_id := k; Match.mmr := 0; Match.party_size := 1;
                             Match.enqueue_time := now c |}] None s =
    (inr (Some (match_success c k instance)), s', []) ∧
  calm s' ∧ heap s' = heap s ∧ party_service s' = party_service s.
Proof.
  intros Hk Hp (Hq & Hrule & Hpol & Hinst) instance name.
  pose proof (solo_party_info _ _ _ Hp) as Hi. cbn [start_matches Match.candidate_party_id].
  assert (Hc : (Dungeon.createInstance k (party_service s) (instance_manager s)).1 = Some instance ∧
    in_width 64 (Dungeon.next_instance_id
      (Dungeon.createInstance k (party_service s) (instance_manager s)).2)).
  { unfold Dungeon.createInstance. rewrite Hi. split; [done|]. cbn -[Z.pow emplace].
    apply wrap_range. lia. }
  destruct Hc as [Hc1 Hc2]. rewrite run_get, run_modify, Hc1. cbn beta iota zeta.
  match goal with |- context [bind (modify _) _ ?x] => set (s1 := x) end.
  assert (H1 : calm s1 ∧ heap s1 = heap s ∧ party_service s1 = party_service s)
    by (split; [by split_and!|done]).
  clearbody s1. rewrite run_modify.
  match goal with |- context [bind (get _) _ ?x] => set (s2 := x) end.
  assert (H2 : calm s2 ∧ heap s2 = heap s ∧ party_service s2 = party_service s) by exact H1.
  clearbody s2. rewrite run_get. destruct H2 as (Hcalm & Hheap & Hparty).
  rewrite Hparty, Hi, Z.eqb_refl, run_bind_logs.
  match goal with |- context [notify_members c instance true ?frame _ ?s1] =>
    destruct (notify_solo c instance frame k user s1 Hk) as [instances ->] end.
  eexists. split; [reflexivity|]. split; [|done]. exact Hcalm.
Qed.

(** On the empty queue of a calm server a party of one is queued and taken out again. *)
Lemma match_party_solo c user k name s :
  sid c = k → k ≠ 0 → Party.parties (party_service s) !! k = Some (solo_party k user) → calm s →
  ∃ s',
  match_party c name k (solo_info k user) s =
    (respond c PT_MatchFoundNotify (encodeMatchFoundNotify
       (match_success c k (Dungeon.next_instance_id (instance_manager s)))), s',
     [match_entry c name]) ∧
  calm s' ∧ heap s' = heap s ∧ party_service s' = party_service s.
Proof.
  intros Hk Hne Hp Hcalm. pose proof Hcalm as (Hq & Hrule & Hpol & Hinst).
  set (candidate := {| Match.candidate_party_id := k; Match.mmr := 0; Match.party_size := 1;
                       Match.enqueue_time := now c |}).
  destruct (enqueue_empty candidate (match_queue s) Hq) as [E1 E2].
  cbn [Match.candidate_party_id Match.party_size candidate] in E1. rewrite Hrule in E1.
  rewrite (proj2 (Z.eqb_neq _ _)) in E1 by done. change (negb false && _) with true in E1.
  rewrite E1 in E2. unfold match_party.
  change (Z.of_nat (length (Party.PartyInfo_members (solo_info k user)))) with 1.
  fold candidate. rewrite run_get, run_modify, E1. cbn [negb].
  assert (Hrule2 : Match.rule (Match.enqueue candidate (match_queue s)).2 = Match.default_MatchRule).
  { rewrite <- Hrule. unfold Match.enqueue. by repeat case_match. }
  set (q := (Match.enqueue candidate (match_queue s)).2) in *.
  rewrite run_get, run_modify. cbn [match_queue update_field Server_rebuild]. fold q.
  rewrite (findMatch_alone _ _ _ E2). cbn [fst snd].
  match goal with |- context [bind (bind (modify _) _) _ ?x] => set (s1 := x) end.
  assert (H1 : match_queue s1 = q ∧ heap s1 = heap s ∧ party_service s1 = party_service s ∧
    security_policy s1 = security_policy s ∧ instance_manager s1 = instance_manager s) by done.
  clearbody s1. destruct H1 as (Hq1 & Hh1 & Hp1 & Hpol1 & Hi1).
  rewrite run_bind_logs, run_modify. cbn [ret fst snd].
  match goal with |- context [bind _ _ ?x] => set (s2 := x) end.
  assert (H2 : calm s2 ∧ heap s2 = heap s ∧ party_service s2 = party_service s ∧
    instance_manager s2 = instance_manager s).
  { split_and!; try done; [split_and!|..].
    - unfold queue_empty. cbn -[Match.cancel]. rewrite Hq1. by apply (cancel_alone candidate).
    - cbn -[Match.cancel]. rewrite Hq1, <- Hrule2. unfold Match.cancel. by case_match.
    - cbn. congruence.
    - cbn. by rewrite Hi1. }
  clearbody s2. destruct H2 as (Hcalm2 & Hh2 & Hp2 & Hi2). rewrite run_bind_logs.
  destruct (start_solo c user k s2 Hk) with (name := name) as (s' & E & Hs'); [by rewrite Hp2|done|].
  fold candidate in E. rewrite E, Hi2. rewrite Hh2, Hp2 in Hs'. exists s'. split; [done|exact Hs'].
Qed.

Lemma handle_match_solo c user payload k s :
  sid c = k → address c = k → k ≠ 0 → ready k user s → calm s →
  decodeMatchRequest payload = Some {| MatchRequest_party_id := k; MatchRequest_dungeon_id := 2001;
                                       MatchRequest_difficulty := "normal" |} →
  ∃ s' name,
  handle_match c payload s =
    (respond c PT_MatchFoundNotify (encodeMatchFoundNotify
       (match_success c k (Dungeon.next_instance_id (instance_manager s)))), s',
     [match_entry c name]) ∧
  calm s' ∧ heap s' = heap s ∧ party_service s' = party_service s.
Proof.
  intros Hk Ha Hne [(o & context & Ho & _ & Hu) Hp] Hcalm Hd.
  destruct (match_party_solo c user k (UserContext_user_id context) s) as (s' & E & Hs'); [done..|].
  exists s', (UserContext_user_id context). split; [|done]. rewrite <- E.
  unfold handle_match. rewrite Hd. unfold current_user. rewrite run_get, Ha, Ho. cbn [mbind option_bind].
  rewrite Hu. cbn zeta. cbn [MatchRequest_party_id]. rewrite (proj2 (Z.eqb_neq _ _)) by done.
  rewrite run_ret, run_get, (solo_party_info _ _ _ Hp).
  unfold is_member. cbn [solo_info Party.PartyInfo_members existsb Party.member_session_id].
  by rewrite Hk, Z.eqb_refl.
Qed.

Lemma match_success_ok c k instance :
  in_width 64 k → in_width 64 instance → MatchFoundNotify_ok (match_success c k instance).
Proof.
  intros Hk Hi. unfold MatchFoundNotify_ok, match_success. cbn -[in_width].
  split_and!; try done; try (by vm_compute). apply trace_id_fits.
Qed.

(** A request of a ready session succeeds, logs the packet and the match, and leaves every
    other session ready. *)
Lemma issueMatch_solo bundle e time s :
  let k := bundle_session bundle in
  bundle_party_id bundle = k → 0 < k < 2 ^ 64 → ready k (bundle_user_id bundle) s → calm s →
  ∃ s' c name,
  issueMatch bundle e time s = (true, s', [packet_entry c; match_entry c name]) ∧
  session_id (received c) = Some k ∧ calm s' ∧
  ∀ j user, ready j user s → ready j user s'.
Proof.
  intros k Hb Hk Hready Hcalm. pose proof Hready as [(o & context & Ho & Hid & Hu) Hp].
  pose proof Hcalm as (Hq & Hrule & Hpol & Hinst). unfold issueMatch. fold k.
  set (payload := load_request bundle).
  pose proof (sim_packet_run e k PT_MatchReq payload time s o Ho Hpol) as E. cbn zeta in E.
  set (c := sim_context e k PT_MatchReq payload time o) in *.
  set (s1 := counted k (touched kMaxProtocolVersion time o) payload s) in *.
  assert (Hkeep : ∀ j user, ready j user s → ready j user s1).
  { intros j user [(oj & cj & Hoj & Hidj & Huj) Hpj]. split; [|done]. unfold s1, counted. cbn.
    destruct (decide (j = k)) as [->|Hj].
    - exists (touched kMaxProtocolVersion time o), context. rewrite lookup_insert_eq. done.
    - exists oj, cj. by rewrite lookup_insert_ne by done. }
  destruct (handle_match_solo c (bundle_user_id bundle) payload k s1) as (s' & name & Em & Hc' & Hh & Hpar).
  - exact Hid.
  - done.
  - lia.
  - by apply Hkeep.
  - done.
  - unfold payload, load_request. rewrite MatchRequest_decode_encode, Hb; [done|].
    unfold MatchRequest_ok. cbn [MatchRequest_party_id MatchRequest_dungeon_id MatchRequest_difficulty].
    rewrite Hb. unfold in_width. split_and!; try lia. by vm_compute.
  - exists s', c, name. cbn [dispatch] in E. rewrite Em in E.
    rewrite run_bind_logs, E by done. cbn [fst snd ret]. rewrite app_nil_r.
    change (respond c PT_MatchFoundNotify ?x) with (Some (encode_frame
      (PacketType_to_u16 PT_MatchFoundNotify) kMaxProtocolVersion x)).
    rewrite match_frame_succeeds; [|done| |done].
    2:{ apply match_success_ok; [unfold in_width; lia|exact Hinst]. }
    split_and!; [done|cbn; by rewrite Hid|done|].
    intros j user Hj. apply (ready_same _ _ s1); auto.
Qed.

(** ** Opening the sessions *)

Definition login_entry (c : Packet) (user : string) : LogEntry := {|
  log_level := "info"; Logging.log_event := "login_success"; log_message := "Login accepted";
  log_fields := received c <| user_id := Some user |> |}.

(** What a step of another part of the server leaves alone. *)
Definition elsewhere s s' : Prop :=
  next_id s' = next_id s ∧ match_queue s' = match_queue s ∧
  security_policy s' = security_policy s ∧ instance_manager s' = instance_manager s.

(** A login of a new user on a session that has none. *)
Lemma handle_login_fresh c payload user s o :
  decodeLoginRequest payload =
    Some {| LoginRequest_user_id := user; LoginRequest_password := "letmein" |} →
  heap s !! address c = Some o → active_users (registry s) !! user = None →
  records (registry s) !! sid c = None →
  ∃ context reply s',
  handle_login c payload s = (reply, s', [login_entry c user]) ∧
  heap s' = <[address c := attachUserContext context o]> (heap s) ∧
  registry s' = {| records := <[sid c := context]> (records (registry s));
                   active_users := <[user := sid c]> (active_users (registry s)) |} ∧
  party_service s' = party_service s ∧ elsewhere s s'.
Proof.
  intros Hd Ho Hu Hr. unfold handle_login. rewrite Hd. cbn zeta.
  cbn [LoginRequest_password LoginRequest_user_id]. rewrite bool_decide_eq_true_2 by done.
  cbn [negb]. unfold hasUser. rewrite run_get, Hu, run_get, run_modify.
  match goal with |- context [bind (set_session _ _) _ ?x] => set (s1 := x) end.
  assert (H1 : heap s1 = heap s ∧ registry s1 = registry s ∧ party_service s1 = party_service s ∧
    elsewhere s s1) by by repeat split.
  clearbody s1. destruct H1 as (Hh1 & Hr1 & Hp1 & He1).
  match goal with |- context [attachUserContext ?x] => set (context := x) end.
  erewrite run_set_session_logs by by rewrite Hh1.
  match goal with |- context [bind (get _) _ ?x] => set (s2 := x) end.
  assert (H2 : heap s2 = <[address c := attachUserContext context o]> (heap s) ∧
    registry s2 = registry s ∧ party_service s2 = party_service s ∧ elsewhere s s2).
  { split_and!; try done. cbn. by rewrite Hh1. }
  clearbody s2. destruct H2 as (Hh2 & Hr2 & Hp2 & He2).
  assert (Hreg : registerSession (sid c) context (registry s2) =
    (true, {| records := <[sid c := context]> (records (registry s));
              active_users := <[user := sid c]> (active_users (registry s)) |})).
  { rewrite Hr2. unfold registerSession. cbn [UserContext_user_id context]. rewrite Hu, Hr.
    by destruct (registry s). }
  rewrite run_get, run_modify, Hreg. cbn [fst negb]. rewrite run_log_entry. cbn [ret fst snd].
  exists context. eexists _, _. split; [reflexivity|]. cbn [heap registry party_service].
  split_and!; [done| |done|exact He2].
  cbn [registry update_field Server_rebuild]. by rewrite Hreg.
Qed.

(** A new party of a session that is in none. *)
Lemma createParty_fresh k user p :
  Party.member_index p !! k = None → Party.parties p !! Party.next_party_id p = None →
  let result := Party.createParty k user p in
  let party := Party.next_party_id p in
  result.1.1 = Some party ∧
  Party.next_party_id result.1.2 = u64 (party + 1) ∧
  Party.member_index result.1.2 = <[k := party]> (Party.member_index p) ∧
  Party.parties result.1.2 = <[party := {|
    Party.party_id := party; Party.leader_session_id := k;
    Party.members := {[ k := {| Party.member_session_id := k; Party.member_user_id := user |} ]} |}]>
      (Party.parties p).
Proof.
  intros Hm Hp. unfold Party.createParty. rewrite Hm. cbn -[emplace]. split_and!; try done.
  unfold emplace at 1. rewrite Hp. unfold emplace. by rewrite lookup_empty.
Qed.

(** The state after [i] sessions were opened. *)
Record opened (i : nat) s : Prop := {
  opened_next : next_id s = Z.of_nat i + 1;
  opened_calm : calm s;
  opened_users user k : active_users (registry s) !! user = Some k →
    ∃ j, (j < i)%nat ∧ user = load_user j;
  opened_records k : Z.of_nat i < k → records (registry s) !! k = None;
  opened_party : Party.next_party_id (party_service s) = Z.of_nat i + 1;
  opened_members k : Z.of_nat i < k → Party.member_index (party_service s) !! k = None;
  opened_parties k : Z.of_nat i < k → Party.parties (party_service s) !! k = None;
  opened_ready j : (j < i)%nat → ready (Z.of_nat j + 1) (load_user j) s
}.

Definition not_match (e : LogEntry) : Prop := Logging.log_event e ≠ "match_found"%string.

Lemma createSession_run config now trace s :
  ∃ s' e,
  createSession config now trace s = (next_id s, s', [e]) ∧
  Logging.log_event e = "session_created"%string ∧
  heap s' = <[next_id s := new_Session (next_id s) config now trace]> (heap s) ∧
  next_id s' = u64 (next_id s + 1) ∧ registry s' = registry s ∧
  party_service s' = party_service s ∧ match_queue s' = match_queue s ∧
  security_policy s' = security_policy s ∧ instance_manager s' = instance_manager s.
Proof.
  unfold createSession. rewrite run_get, run_modify, run_modify, run_log_entry.
  eexists _, _. split; [reflexivity|]. by split_and!.
Qed.

Lemma calm_same s s' :
  match_queue s' = match_queue s → security_policy s' = security_policy s →
  instance_manager s' = instance_manager s → calm s → calm s'.
Proof. unfold calm, queue_empty. by intros -> -> ->. Qed.

(** The login that follows the creation. *)
Lemma first_login k user e time s o :
  heap s !! k = Some o → id o = k → security_policy s = default_SecurityPolicy →
  active_users (registry s) !! user = None → records (registry s) !! k = None →
  string_fits user →
  ∃ context reply s' logs,
  sim_packet e k PT_LoginReq (encodeLoginRequest {| LoginRequest_user_id := user;
                                LoginRequest_password := "letmein" |}) time s = (reply, s', logs) ∧
  Forall not_match logs ∧
  heap s' = <[k := attachUserContext context (touched kMaxProtocolVersion time o)]> (heap s) ∧
  registry s' = {| records := <[k := context]> (records (registry s));
                   active_users := <[user := k]> (active_users (registry s)) |} ∧
  party_service s' = party_service s ∧ elsewhere s s'.
Proof.
  intros Ho Hid Hpol Hu Hr Hfit. set (payload := encodeLoginRequest _).
  pose proof (sim_packet_run e k PT_LoginReq payload time s o Ho Hpol) as E. cbn zeta in E.
  set (c := sim_context e k PT_LoginReq payload time o) in *.
  set (s1 := counted k (touched kMaxProtocolVersion time o) payload s) in *.
  destruct (handle_login_fresh c payload user s1 (touched kMaxProtocolVersion time o))
    as (context & reply & s' & El & Hh & Hreg & Hp & He).
  - apply LoginRequest_decode_encode. split; [done|by vm_compute].
  - apply lookup_insert_eq.
  - exact Hu.
  - cbn [sid c sim_context]. by rewrite Hid.
  - cbn [dispatch] in E. rewrite El in E. exists context. eexists _, _, _. split; [by apply E|].
    split; [by repeat constructor|]. rewrite Hh, Hreg. cbn [sid c sim_context]. rewrite Hid.
    split_and!; [|done|exact Hp|exact He]. unfold s1, counted. cbn. by rewrite insert_insert_eq.
Qed.

Lemma open_session_opened o now i x s :
  opened i s → Z.of_nat i < 2 ^ 64 - 2 →
  ∃ s' logs,
  (∀ bundles, open_session o now i x bundles s = (bundles ++ [bundle_at i], s', logs)) ∧
  opened (Datatypes.S i) s' ∧ Forall not_match logs.
Proof.
  intros [Hnext Hcalm Husers Hrecords Hparty Hmembers Hparties Hready] Hi.
  destruct (createSession_run (session_config o i) now (opening_trace x) s)
    as (s1 & e1 & E1 & He1 & Hh1 & Hn1 & Hr1 & Hp1 & Hq1 & Hs1 & Hi1).
  rewrite Hnext in *. set (k := Z.of_nat i + 1) in *.
  set (object := new_Session k (session_config o i) now (opening_trace x)) in *.
  assert (Hk : heap s1 !! k = Some object) by (rewrite Hh1; apply lookup_insert_eq).
  destruct (first_login k (load_user i) (opening_env x) (opening_time x) s1 object)
    as (context & reply & s2 & logs & E2 & Hlogs & Hh2 & Hr2 & Hp2 & He2); [done|done|..].
  { rewrite Hs1. apply Hcalm. }
  { rewrite Hr1. destruct (active_users (registry s) !! load_user i) as [j|] eqn:Ej; [|done].
    apply Husers in Ej as (j' & Hj & Ej%load_user_inj). lia. }
  { rewrite Hr1. apply Hrecords. lia. }
  { apply load_user_fits. lia. }
  set (object2 := attachUserContext context (touched kMaxProtocolVersion (opening_time x) object)) in *.
  rewrite Hp1 in Hp2.
  destruct (createParty_fresh k (load_user i) (party_service s)) as (Hc1 & Hc2 & Hc3 & Hc4).
  { apply Hmembers. lia. } { rewrite Hparty. apply Hparties. lia. }
  rewrite Hparty in Hc1, Hc2, Hc3, Hc4. fold k in Hc1, Hc2, Hc3, Hc4.
  set (s3 := s2 <| party_service ::= λ p, (Party.createParty k (load_user i) p).1.2 |>).
  exists s3, (e1 :: logs). split_and!.
  - intros bundles. unfold open_session. rewrite run_bind_logs, E1. cbn [fst snd].
    rewrite run_bind_logs, E2. cbn [fst snd]. rewrite run_get, run_get, run_modify.
    rewrite Hh2, lookup_insert_eq. cbn [from_option]. change (id object2) with k.
    rewrite Hp2, Hc1. cbn [ret fst snd app]. by rewrite app_nil_r.
  - destruct He2 as (Hn2 & Hq2 & Hs2 & Hi2). split.
    + change (next_id s3) with (next_id s2). rewrite Hn2, Hn1, wrap_small; lia.
    + apply (calm_same s); [..|done].
      * change (match_queue s3) with (match_queue s2). congruence.
      * change (security_policy s3) with (security_policy s2). congruence.
      * change (instance_manager s3) with (instance_manager s2). congruence.
    + intros user j. change (registry s3) with (registry s2). rewrite Hr2, Hr1.
      cbn [active_users]. rewrite lookup_insert_Some. intros [[<- _]|[_ Hj]].
      * exists i. split; [lia|done].
      * apply Husers in Hj as (j' & ? & ->). exists j'. split; [lia|done].
    + intros j Hj. change (registry s3) with (registry s2). rewrite Hr2, Hr1.
      cbn [records]. rewrite lookup_insert_ne by lia. apply Hrecords. lia.
    + change (party_service s3) with (Party.createParty k (load_user i) (party_service s2)).1.2.
      rewrite Hp2, Hc2, wrap_small; lia.
    + intros j Hj. change (party_service s3) with
        (Party.createParty k (load_user i) (party_service s2)).1.2.
      rewrite Hp2, Hc3, lookup_insert_ne by lia. apply Hmembers. lia.
    + intros j Hj. change (party_service s3) with
        (Party.createParty k (load_user i) (party_service s2)).1.2.
      rewrite Hp2, Hc4, lookup_insert_ne by lia. apply Hparties. lia.
    + intros j Hj. unfold ready. change (heap s3) with (heap s2). change (party_service s3) with
        (Party.createParty k (load_user i) (party_service s2)).1.2.
      rewrite Hp2, Hc4, Hh2, Hh1, insert_insert_eq. destruct (decide (j = i)) as [->|Hne].
      * fold k. rewrite !lookup_insert_eq. split; [by exists object2, context|done].
      * rewrite !lookup_insert_ne by lia. apply Hready. lia.
  - constructor; [|done]. unfold not_match. by rewrite He1.
Qed.

Lemma open_sessions_opened o now xs i bundles s :
  opened i s → Z.of_nat (i + length xs) < 2 ^ 64 - 2 →
  ∃ s' logs,
  open_sessions o now i xs bundles s =
    (bundles ++ (bundle_at <$> seq i (length xs)), s', logs) ∧
  opened (i + length xs) s' ∧ Forall not_match logs.
Proof.
  revert i bundles s. induction xs as [|x xs IH]; intros i bundles s Hs Hi; cbn [open_sessions length] in *.
  - exists s, []. rewrite app_nil_r, Nat.add_0_r. done.
  - destruct (open_session_opened o now i x s Hs) as (s1 & logs1 & E1 & Hs1 & Hl1); [lia|].
    destruct (IH (Datatypes.S i) (bundles ++ [bundle_at i]) s1 Hs1) as (s2 & logs2 & E2 & Hs2 & Hl2); [lia|].
    exists s2, (logs1 ++ logs2). rewrite run_bind_logs, E1. cbn [fst snd]. rewrite E2.
    split_and!; [by rewrite <- app_assoc|by rewrite Nat.add_succ_r|by apply Forall_app].
Qed.

(** ** The requests *)

(** The sessions of the [match_found] entries. *)
Definition matched_in (logs : list LogEntry) : list (option Z) :=
  (λ e, session_id (log_fields e)) <$>
    filter (λ e, Logging.log_event e = "match_found"%string) logs.

Lemma matched_in_app a b : matched_in (a ++ b) = matched_in a ++ matched_in b.
Proof. unfold matched_in. by rewrite filter_app, fmap_app. Qed.

Lemma matched_in_none logs : Forall not_match logs → matched_in logs = [].
Proof.
  induction 1 as [|e logs He _ IH]; [done|]. unfold matched_in. by rewrite filter_cons_False.
Qed.

Definition issuable s (bundle : SessionBundle) : Prop :=
  bundle_party_id bundle = bundle_session bundle ∧ 0 < bundle_session bundle < 2 ^ 64 ∧
  ready (bundle_session bundle) (bundle_user_id bundle) s.

Lemma issue_matches_succeed calls n failures s :
  calm s → Forall (λ call, issuable s call.1.1) calls →
  ∃ s' logs,
  issue_matches calls (u64 n, failures) s =
    ((u64 (n + Z.of_nat (length calls)), failures), s', logs) ∧
  matched_in logs = (λ call, Some (bundle_session call.1.1)) <$> calls.
Proof.
  revert n s. induction calls as [|[[bundle e] time] calls IH]; intros n s Hs Hc; cbn [issue_matches].
  - exists s, []. cbn [length]. by rewrite Z.add_0_r.
  - apply Forall_cons in Hc as [(Hb & Hk & Hr) Hc]. cbn [fst] in *.
    destruct (issueMatch_solo bundle e time s Hb Hk Hr Hs) as (s1 & c & name & E1 & Hid & Hs1 & Hkeep).
    destruct (IH (n + 1) s1 Hs1) as (s2 & logs & E2 & Hm).
    { eapply Forall_impl; [exact Hc|]. intros call (? & ? & ?). split; [done|split; [done|auto]]. }
    exists s2, ([packet_entry c; match_entry c name] ++ logs).
    rewrite run_bind_logs, E1. cbn [fst snd]. rewrite wrap_add_l, E2. cbn [fst snd].
    split; [f_equal; f_equal; f_equal; f_equal; cbn [length]; lia|].
    rewrite matched_in_app, Hm. unfold matched_in. rewrite filter_cons_False, filter_cons_True by done.
    cbn. by rewrite Hid.
Qed.

(** ** The bursts *)

(** An operation that logs no match. *)
Definition silent {A} (m : M S A) : Prop := ∀ s, Forall not_match (m s).2.

Lemma silent_bind {A B} (m : M S A) (k : A → M S B) :
  silent m → (∀ a, silent (k a)) → silent (bind m k).
Proof.
  intros Hm Hk s. rewrite run_bind_logs. cbn [snd]. apply Forall_app. split; [apply Hm|apply Hk].
Qed.

Lemma silent_ret {A} (a : A) : silent (ret (S := S) a).
Proof. by intros s. Qed.

Lemma silent_get {A} (f : Server S → A) : silent (get f).
Proof. by intros s. Qed.

Lemma enqueueSend_silent payload time o : Forall not_match (enqueueSend payload time o).2.
Proof.
  unfold enqueueSend, disconnect. repeat case_match; simplify_eq/=; repeat constructor; done.
Qed.

Lemma send_burst_silent a payload time : silent (on_session a false (enqueueSend payload time)).
Proof.
  intros s. unfold on_session. destruct (heap s !! a) as [o|]; [|done].
  pose proof (enqueueSend_silent payload time o) as Hl.
  by destruct (enqueueSend payload time o) as [[b o'] logs].
Qed.

Lemma overflow_session_silent payload times a n stats :
  silent (overflow_session payload times a n stats).
Proof.
  revert stats. induction n as [|n IH]; intros stats; cbn [overflow_session]; [apply silent_ret|].
  apply silent_bind; [apply send_burst_silent|]. intros accepted.
  apply silent_bind; [apply silent_get|]. intros alive. destruct (negb alive); [apply silent_ret|].
  apply IH.
Qed.

Lemma overflow_sessions_silent o times bundles stats :
  silent (overflow_sessions o times bundles stats).
Proof.
  revert stats. induction bundles as [|b bundles IH]; intros stats; cbn [overflow_sessions];
    [apply silent_ret|].
  apply silent_bind; [apply overflow_session_silent|]. intros mine.
  apply silent_bind; [apply silent_get|]. intros queued. apply IH.
Qed.

(** Every attempt was accepted or dropped. *)
Definition balanced (st : OverflowStats) : Prop :=
  u64 (stat_accepted st + stat_dropped st) = attempts st.

Definition all_balanced (stats : Stats) : Prop := ∀ p st, stats p = Some st → balanced st.

Lemma overflow_session_balanced payload times a n st s :
  balanced st → balanced (overflow_session payload times a n st s).1.1.
Proof.
  revert st s. induction n as [|n IH]; intros st s Hst; [done|]. cbn [overflow_session].
  rewrite run_bind. set (r := on_session _ _ _ _). rewrite run_get.
  match goal with |- context [if negb ?alive then ret (?x <| disconnected ::= _ |>) else _] =>
    set (st' := x) end.
  assert (Hst' : balanced st').
  { unfold st', balanced in *. destruct r.1.1; cbn.
    - rewrite wrap_add_l, <- Hst, wrap_add_l. f_equal. lia.
    - rewrite wrap_add_r, <- Hst, wrap_add_l. f_equal. lia. }
  clearbody st'. destruct (negb _); [exact Hst'|]. by apply IH.
Qed.

Lemma overflow_sessions_balanced o times bundles stats s :
  all_balanced stats → all_balanced (overflow_sessions o times bundles stats s).1.1.
Proof.
  revert stats s. induction bundles as [|b bundles IH]; intros stats s Hst; [done|].
  cbn [overflow_sessions]. rewrite run_bind, run_get. apply IH. intros p st. unfold update_stats.
  destruct (decide (p = bundle_policy b)); [|by apply Hst]. intros [= <-].
  set (st0 := default no_stats (stats (bundle_policy b)) <| stat_sessions ::= λ k, u64 (k + 1) |>).
  assert (H0' : balanced st0).
  { unfold st0. destruct (stats (bundle_policy b)) as [x|] eqn:Ex; [by apply (Hst _ _ Ex)|done]. }
  exact (overflow_session_balanced _ _ _ _ st0 s H0').
Qed.

End run.

(** ** What the validator makes of a run *)

Lemma matched_in_log (l : Log) :
  length (matches l) = length (matched_in l.*2) ∧
  match_sessions l = omap (λ x, x) (matched_in l.*2).
Proof.
  unfold match_sessions, matches, matched_in. induction l as [|[timestamp e] l [IH1 IH2]]; [done|].
  cbn [fmap list_fmap snd]. rewrite !filter_cons. cbn [snd].
  destruct (decide (Logging.log_event e = "match_found"%string)); [|done].
  cbn [length fmap list_fmap omap list_omap snd]. split; [by rewrite IH1|].
  by destruct (session_id (log_fields e)); cbn; rewrite IH2.
Qed.

Lemma omap_Some {A B} (f : A → B) (l : list A) : omap (λ x, x) ((λ x, Some (f x)) <$> l) = f <$> l.
Proof. induction l as [|x l IH]; [done|]. cbn. by f_equal. Qed.

Lemma elem_of_repeated (l : list Z) r x : x ∈ concat (replicate r l) ↔ (0 < r)%nat ∧ x ∈ l.
Proof.
  induction r as [|r IH]; cbn [replicate concat]; [split; [set_solver|lia]|].
  rewrite elem_of_app, IH. split; [intros [?|[??]]; split; (done || lia)|]. intros [_ ?]. by left.
Qed.

Lemma length_repeated {A} (l : list A) r : length (concat (replicate r l)) = (r * length l)%nat.
Proof. induction r as [|r IH]; [done|]. cbn [replicate concat]. rewrite length_app, IH. lia. Qed.

(** The different elements of a repeated list. *)
Lemma size_repeated (l : list Z) r :
  NoDup l →
  size (list_to_set (concat (replicate r l)) : gset Z) = if (r =? 0)%nat then 0%nat else length l.
Proof.
  intros Hl. destruct (r =? 0)%nat eqn:Er.
  - apply Nat.eqb_eq in Er as ->. done.
  - apply Nat.eqb_neq in Er. destruct (size_list_to_set l) as [_ Hs]. apply Hs, Nat2Z.inj in Hl.
    rewrite <- Hl. f_equal.
    apply set_eq. intros x. rewrite !elem_of_list_to_set, elem_of_repeated.
    split; [by intros [_ ?]|]. intros Hx. split; [lia|done].
Qed.

Lemma size_permutation (a b : list Z) :
  a ≡ₚ b → size (list_to_set a : gset Z) = size (list_to_set b : gset Z).
Proof. intros Hab. f_equal. apply set_eq. intros x. by rewrite !elem_of_list_to_set, Hab. Qed.

Definition session_numbers (n : nat) : list Z := (λ j, Z.of_nat j + 1) <$> seq 0 n.

Lemma session_numbers_facts n :
  NoDup (session_numbers n) ∧ length (session_numbers n) = n ∧
  ∀ k, k ∈ session_numbers n → 0 < k <= Z.of_nat n.
Proof.
  unfold session_numbers. split_and!.
  - apply NoDup_fmap_2_strong; [lia|apply NoDup_seq].
  - by rewrite length_fmap, length_seq.
  - intros k (j & -> & Hj%elem_of_seq)%list_elem_of_fmap. lia.
Qed.

Section load.
Context {S : Type} `{HashOrder, InventoryStorage S}.

Lemma new_Server_opened (storage : S) start :
  opened 0 (new_Server storage default_SecurityPolicy start).1.
Proof.
  split; try done; intros j; lia.
Qed.

(** What a run of the simulation does and logs. *)
Lemma simulate_run (storage : S) o now start openings calls times :
  Z.of_nat (length openings) < 2 ^ 64 - 2 → 
  (∀ bundles, (λ call : SessionBundle * Env * Z, call.1.1) <$> calls bundles ≡ₚ
     concat (replicate (Z.to_nat (requests_per_session o)) bundles)) →
  let n := length openings in
  let r := Z.to_nat (requests_per_session o) in
  let server := new_Server storage default_SecurityPolicy start in
  let result := simulate o now openings calls times server.1 in
  result.1.1.1 = (bundle_at <$> seq 0 n, (u64 (Z.of_nat (r * n)), 0)) ∧
  all_balanced result.1.1.2 ∧
  matched_in (server.2 ++ result.2) ≡ₚ Some <$> concat (replicate r (session_numbers n)).
Proof.
  intros Hn Hcalls n r server result.
  destruct (open_sessions_opened o now openings 0 [] server.1 (new_Server_opened storage start))
    as (s1 & logs1 & E1 & Hs1 & Hl1); [lia|]. fold n in E1, Hs1.
  set (bundles := bundle_at <$> seq 0 n) in *. change ([] ++ bundles) with bundles in E1.
  specialize (Hcalls bundles). fold r in Hcalls.
  destruct (issue_matches_succeed (calls bundles) 0 0 s1) as (s2 & logs2 & E2 & Hm).
  { apply Hs1. }
  { apply Forall_forall. intros call Hc. 
    assert (Hin : call.1.1 ∈ bundles).
    { apply (list_elem_of_fmap_2 (λ call : SessionBundle * Env * Z, call.1.1)) in Hc.
      rewrite Hcalls in Hc. clear -Hc. induction r as [|r IH]; [set_solver|].
      cbn [replicate concat] in Hc. apply elem_of_app in Hc as [?|?]; auto. }
    apply list_elem_of_fmap in Hin as (j & Ej & [_ Hj]%elem_of_seq). rewrite Ej.
    split; [done|]. split; [cbn; lia|]. apply Hs1. lia. }
  assert (Hlen : length (calls bundles) = (r * n)%nat).
  { apply Permutation_length in Hcalls. rewrite length_fmap, length_repeated in Hcalls.
    rewrite Hcalls. unfold bundles. by rewrite length_fmap, length_seq. }
  rewrite Hlen in E2. change (0 + Z.of_nat (r * n)) with (Z.of_nat (r * n)) in E2.
  assert (E : result = ((bundles, (u64 (Z.of_nat (r * n)), 0),
      (overflow_sessions o times bundles (λ _, None) s2).1.1),
      (overflow_sessions o times bundles (λ _, None) s2).1.2,
      logs1 ++ logs2 ++ (overflow_sessions o times bundles (λ _, None) s2).2)).
  { unfold result, simulate. rewrite run_bind_logs, E1. cbn [fst snd].
    rewrite run_bind_logs. change (0, 0) with (u64 0, 0). rewrite E2. cbn [fst snd].
    rewrite run_bind_logs. cbn [ret fst snd]. by rewrite app_nil_r. }
  rewrite E. cbn [fst snd]. split; [done|]. split.
  - by apply overflow_sessions_balanced.
  - rewrite !matched_in_app, (matched_in_none logs1), Hm by done.
    rewrite (matched_in_none (overflow_sessions _ _ _ _ _).2) by apply overflow_sessions_silent.
    change (matched_in server.2) with (@nil (option Z)). rewrite app_nil_r. cbn [app].
    change (λ call : SessionBundle * Env * Z, Some (bundle_session call.1.1)) with
      ((λ b, Some (bundle_session b)) ∘ (λ call : SessionBundle * Env * Z, call.1.1)).
    rewrite (list_fmap_compose (λ call : SessionBundle * Env * Z, call.1.1)
      (λ b, Some (bundle_session b)) (calls bundles)), Hcalls.
    clear. induction r as [|r IH]; [done|]. cbn [replicate concat]. rewrite !fmap_app, IH.
    f_equiv. unfold bundles, session_numbers. rewrite <- !list_fmap_compose. done.
Qed.

End load.

(** C15: a run of the load simulation does what its summary should report. Whatever the
    schedule of the requests, the clock and the random draws: every session is opened,
    every match request succeeds, and the validator, reading the log the server wrote,
    counts one entry per request and every session. But it calls every request after the
    first of a session a duplicate: its duplicate check passes only when no session makes
    a second request. In the overflow statistics every attempt was accepted or dropped. *)
Theorem load_run_validates {S} `{HashOrder, InventoryStorage S} (storage : S) o now start
    openings calls times files l :
  Z.of_nat (length openings) = opt_sessions o → opt_sessions o < 2 ^ 64 - 2 →
  0 <= requests_per_session o → requests_per_session o * opt_sessions o < 2 ^ 64 →
  (∀ bundles, (λ call : SessionBundle * Env * Z, call.1.1) <$> calls bundles ≡ₚ
     concat (replicate (Z.to_nat (requests_per_session o)) bundles)) →
  let server := new_Server storage default_SecurityPolicy start in
  let result := simulate o now openings calls times server.1 in
  log_path o ≠ ""%string → files (log_path o) = Some (log_text l) →
  l.*2 = server.2 ++ result.2 → Z.of_nat (length l) < 2 ^ 64 →
  let requests := requests_per_session o * opt_sessions o in
  let different := if requests_per_session o =? 0 then 0 else opt_sessions o in
  let results := validateLogs files (log_path o) in
  result.1.1.1 = (bundle_at <$> seq 0 (length openings), (requests, 0)) ∧
  match_found_entries results = requests ∧
  match_found_unique_sessions results = different ∧
  match_found_duplicates results = requests - different ∧
  duplicate_check_passed results = bool_decide (requests = different) ∧
  all_balanced result.1.1.2.
Proof.
  intros Hlen Hn Hr Hreq Hcalls server result Hp Hf Hl Hll requests different results.
  destruct (simulate_run storage o now start openings calls times) as (E & Hb & Hm); [lia|done|].
  fold server in E, Hb, Hm. fold result in E, Hb, Hm. rewrite <- Hl in Hm.
  set (n := length openings) in *. set (r := Z.to_nat (requests_per_session o)) in *.
  destruct (session_numbers_facts n) as (Hnd & Hlens & Hrange).
  destruct (matched_in_log l) as [Hmatches Hsessions].
  set (ids := concat (replicate r (session_numbers n))) in *.
  assert (Hids : match_sessions l ≡ₚ ids).
  { rewrite Hsessions, Hm. clear. induction ids as [|x ids IH]; [done|]. cbn. by f_equiv. }
  assert (Hsize : length ids = (r * n)%nat) by (unfold ids; by rewrite length_repeated, Hlens).
  assert (Hfit : sessions_fit l).
  { unfold sessions_fit. rewrite Hids. apply Forall_forall. intros k [_ Hk]%elem_of_repeated.
    apply Hrange in Hk. unfold in_width. lia. }
  unfold results. rewrite (validate_file files (log_path o) l) by done. unfold exact_results.
  cbn [match_found_entries match_found_unique_sessions match_found_duplicates
       duplicate_check_passed].
  rewrite (size_permutation _ _ Hids), (Permutation_length Hids), Hmatches.
  rewrite (Permutation_length Hm), length_fmap.
  pose proof (size_list_to_set ids) as [_ Hdup].
  unfold ids in *. rewrite (size_repeated (session_numbers n) r Hnd), Hlens in *.
  rewrite Hsize in *. 
  assert (Hd : Z.of_nat (if (r =? 0)%nat then 0%nat else n) = different).
  { unfold different, r. destruct (requests_per_session o =? 0) eqn:E0; bool_props.
    - by rewrite E0.
    - rewrite (proj2 (Nat.eqb_neq _ _)) by lia. done. }
  rewrite Hd in *. replace (Z.of_nat (r * n)) with requests in * by (unfold requests, r; lia).
  split_and!; [|done|done|done| |done].
  - rewrite E. by rewrite wrap_small by lia.
  - apply bool_decide_ext. rewrite Hids, <- Hdup. lia.
Qed.

Definition sample_load : Options :=
  default_Options <| opt_sessions := 3 |> <| requests_per_session := 2 |>.

Definition sample_opening : Opening := {|
  opening_trace := "trace"; opening_env := sample_env; opening_time := 5 |}.

(** The second round before the first, backwards. *)
Definition sample_calls (bundles : list SessionBundle) : list (SessionBundle * Env * Z) :=
  (λ b, (b, sample_env, 10)) <$> (reverse bundles ++ bundles).

Definition sample_load_log : Log :=
  let server := new_Server new_InMemoryInventoryStorage default_SecurityPolicy 0 in
  (λ e, ("t"%string, e)) <$> server.2 ++
    (simulate (H := bucket_order) sample_load 0 (replicate 3 sample_opening) sample_calls
       (λ _ n, 20 + Z.of_nat n) server.1).2.

Lemma load_run_validates_witness :
  let results := validateLogs (λ _, Some (log_text sample_load_log)) "docs/load_run.log" in
  match_found_entries results = 6 ∧ match_found_unique_sessions results = 3 ∧
  match_found_duplicates results = 3 ∧ duplicate_check_passed results = false.
Proof.
  destruct (load_run_validates (H := bucket_order) new_InMemoryInventoryStorage sample_load 0 0
    (replicate 3 sample_opening) sample_calls (λ _ n, 20 + Z.of_nat n)
    (λ _, Some (log_text sample_load_log)) sample_load_log)
    as (_ & E1 & E2 & E3 & E4 & _); [done|done|done|done| |done|done| | |].
  - intros bundles. unfold sample_calls. rewrite <- list_fmap_compose, list_fmap_id.
    change (Z.to_nat (requests_per_session sample_load)) with 2%nat. cbn [replicate concat].
    by rewrite app_nil_r, reverse_Permutation.
  - unfold sample_load_log. rewrite <- list_fmap_compose. apply list_fmap_id.
  - by vm_compute.
  - by split_and!.
Defined.
