(* ===== verification/LoadRun.v ===== *)
(** * The recorded run of the load simulation (src/docs/load_run.log, load_summary.md)

    The repository keeps the log and the summary of one run with 24 sessions. Given the
    order in which its requests ran, the model brings about the same events and writes the
    same summary. *)

From S2P Require Import Inventory Prelude Protocol Codec Logging Session Server Handlers.
From S2P Require Import Hoare ServerInvariant ServerProperties LoadLog LoadSim.

Definition recorded_options : Options := {|
  opt_sessions := 24; requests_per_session := 1; concurrency := 6;
  opt_send_queue_limit_bytes := 2048; overflow_payload_bytes := 4096; overflow_burst := 3;
  log_path := "docs/load_run.log"; summary_path := "docs/load_summary.md" |}.

(** The sessions in the order of their [match_found] entries. *)
Definition recorded_schedule : list Z :=
  [3; 1; 2; 4; 5; 6; 7; 8; 9; 10; 11; 12; 13; 14; 15; 16; 17; 18; 19; 20; 23; 22; 21; 24].

Definition recorded_calls (bundles : list SessionBundle) : list (SessionBundle * Env * Z) :=
  omap (λ k, (λ b, (b, sample_env, 0)) <$> bundles !! Z.to_nat (k - 1)) recorded_schedule.

Definition recorded_server := new_Server new_InMemoryInventoryStorage default_SecurityPolicy 0.

Definition recorded_run :=
  simulate (H := bucket_order) recorded_options 0
    (replicate 24 {| opening_trace := "trace"; opening_env := sample_env; opening_time := 0 |})
    recorded_calls (λ _ _, 0) recorded_server.1.

Definition recorded_log : Log :=
  (λ e, ("2026-01-08T17:03:56Z"%string, e)) <$> recorded_server.2 ++ recorded_run.2.

Definition recorded_results : ValidationResults :=
  validateLogs (λ path, if bool_decide (path = log_path recorded_options)
                        then Some (log_text recorded_log) else None) (log_path recorded_options).

(** What an entry says besides random ids and texts: its event, session, packet type and
    number of bytes. *)
Definition entry : Type := string * option Z * option Z * option Z.

Definition entry_of (e : LogEntry) : entry :=
  (Logging.log_event e, session_id (log_fields e), packet_type (log_fields e), bytes (log_fields e)).

(** The 153 lines of the file: every session is created and logs in, then the matches, then
    the bursts, by the policy of the session. *)
Definition opened_lines (k : Z) : list entry :=
  let size := if k <? 10 then 22 else 23 in
  [("session_created"%string, Some k, None, None);
   ("packet_received"%string, Some k, Some 1, Some size);
   ("login_success"%string, Some k, Some 1, Some size)].

Definition matched_lines (k : Z) : list entry :=
  [("packet_received"%string, Some k, Some 400, Some 20);
   ("match_found"%string, Some k, Some 400, Some 20)].

Definition burst_lines (k : Z) : list entry :=
  if k mod 3 =? 1 then replicate 3 ("session_queue_overflow"%string, Some k, None, Some 4096)
  else if k mod 3 =? 2 then []
  else [("session_disconnected"%string, Some k, None, None)].

Definition recorded_lines : list entry :=
  let sessions := seqZ 1 24 in
  [("server_started"%string, None, None, None)] ++ (sessions ≫= opened_lines) ++
  (recorded_schedule ≫= matched_lines) ++ (sessions ≫= burst_lines).

(** The text of docs/load_summary.md. *)
Definition recorded_summary : string :=
"# Load Test Summary

Generated by `scripts/load_match_sim.cpp`.

## Command
```bash
./build/dungeonhub_load_sim --sessions 24 --requests-per-session 1 --concurrency 6 --send-queue-limit 2048 --overflow-payload 4096 --overflow-burst 3 --log-path docs/load_run.log --summary-path docs/load_summary.md
```

## Match Results
- Sessions opened: 24
- Match requests: 24
- Match successes: 24
- Match failures: 0
- Duration: 15 ms

## Send Queue Overflow
- Policy: DropNewest
  - Sessions: 8
  - Attempts: 24
  - Accepted: 0
  - Dropped: 24
  - Disconnected: 0
  - Max queued bytes: 0
- Policy: DropOldest
  - Sessions: 8
  - Attempts: 24
  - Accepted: 24
  - Dropped: 0
  - Disconnected: 0
  - Max queued bytes: 4096
- Policy: Disconnect
  - Sessions: 8
  - Attempts: 8
  - Accepted: 0
  - Dropped: 8
  - Disconnected: 8
  - Max queued bytes: 0

## Server Metrics
- Packets total: 48
- Bytes total: 1023
- Errors total: 0

## Validation
- Match duplicate check (log)
  - Match found entries: 24
  - Unique sessions matched: 24
  - Duplicate matches: 0
  - Status: PASS
- Overflow policy log check
  - Queue overflow warnings: 24
  - Overflow disconnects: 8
  - Status: PASS
## Logs
- Log output: `docs/load_run.log`
".

(** The model's log has the lines of the recorded one. *)
Theorem recorded_log_reproduced : entry_of <$> recorded_log.*2 = recorded_lines.
Proof. vm_compute. reflexivity. Qed.

(** The model's summary, from its validation of its own log, is the recorded one. *)
Theorem recorded_summary_reproduced :
  summary_text recorded_options recorded_run.1.1.1.2 15 recorded_run.1.1.2
    (metrics recorded_run.1.2) recorded_results = recorded_summary.
Proof. vm_compute. reflexivity. Qed.
